(* ===== verification/_CoqProject ===== *)
-Q . S2P
Prelude.v
Bits.v
PrefixProofs.v
Containers.v
Fsm.v
MerkleSpec.v
PrefixComplete.v
PrefixSound.v
InclusionProofs.v
History.v
Protocol.v
Provider.v
ProviderSpec.v
ChallengeTree.v
ChallengeTreeSpec.v
Runtime.v
Chain.v
Api.v
ApiSpec.v
ApiDatabase.v
ApiDatabaseSpec.v
ChainSpec.v
Contracts.v
MerkleContract.v
CommitChain.v
EdgeContract.v
Rollup.v
RollupSpec.v
RollupStakes.v
Machine.v
Backend.v
BackendSpec.v
EdgeContractSpec.v
EdgeContractHistory.v
EdgeContractReplay.v
RollupSystem.v
EdgeContractStakes.v
EdgeContractBisect.v
EdgeContractToy.v
RollupToy.v
SolImpl.v
SolChain.v
SolImplSpec.v
ContractChain.v
EdgeTracker.v
EdgeTrackerSpec.v
Watcher.v
WatcherSpec.v
Assertions.v
AssertionsSpec.v
ChallengeManager.v
ChallengeManagerSpec.v
TimeRef.v
Metrics.v
System.v
ContractSystem.v
RollupWins.v
ApiSystem.v
