(* ===== verification/Prelude.v ===== *)
(** * A verification of the BOLD validator

    BOLD is the dispute protocol of Arbitrum rollups.  A validator posts assertions
    about the state of the rollup, and when two assertions conflict it defends its own
    in a challenge: it commits to the history of the execution by a Merkle root, and
    bisects the history with its opponent, level by level (blocks, big steps, small
    steps), until a single step is left that a contract can check.  This library
    models the Go sources of the validator (under [src/]), the contracts they work
    with ([contracts/src/]: the edge challenge manager and the rollup), and the machine
    and state provider of the tests, and proves what makes them correct, part by part
    and together.

    ** The parts of the program and the files that model them

    Commitments ([state-commitments/], [math/], [containers/]).
    - [Prelude]: Go's machine integers, errors, results and stateful computations;
      the weakest preconditions and the preservation rules all proofs share.
    - [Bits]: [math/math.go] and the bit scans; [Bisect].
    - [PrefixProofs]: [prefix_proofs.go], [merkle_expansions.go]; Merkle expansions,
      prefix proofs and their verification.
    - [MerkleSpec], [PrefixComplete], [PrefixSound]: reference trees; expansions are
      the reference ones, generated proofs verify, verified proofs are about prefixes.
    - [InclusionProofs], [History]: [inclusion_proofs.go] with its hashing goroutines,
      [commitments.go].
    - [Containers], [Fsm]: thread-safe maps, sets and slices; the generic state machine.

    Protocol data and the state provider ([chain-abstraction/], [layer2-state-provider/]).
    - [Protocol]: execution states, challenge levels, edges, assertion infos.
    - [Provider], [ProviderSpec]: [history_commitment_provider.go]; commitments of every
      challenge level, prefix proofs and one-step data.

    Challenges ([challenge-manager/]).
    - [ChallengeTree], [ChallengeTreeSpec]: the honest challenge tree, its ancestors
      and timers.
    - [EdgeTracker], [EdgeTrackerSpec]: the tracker goroutine of an edge and its table.
    - [Watcher], [WatcherSpec]: the service that scans the chain for edges.
    - [ChallengeManager], [ChallengeManagerSpec]: [manager.go], [challenges.go].

    The chain ([chain-abstraction/], [runtime/], [time/]).
    - [Chain], [ChainSpec]: the interfaces of [interfaces.go] as classes ([ChainEnv],
      [RollupEnv]) and what the chain promises about confirmation.
    - [Contracts]: the generated bindings, the backend and the ABI encoder, as a class of
      operations and the structures they exchange.
    - [SolImpl], [SolChain], [SolImplSpec]: the wrapper of [sol-implementation/], as an
      instance of the interfaces; it refines their contract when the contracts behind the
      bindings keep theirs, and its cache of completed challenges is truthful.
    - [Metrics]: [tracked_contract_backend.go].
    - [Runtime], [TimeRef]: [retry.go]; the artificial clock and its tickers.

    The API ([api/]).
    - [Api], [ApiSpec]: the handlers that report edges, assertions and stakes, and the
      goroutines that convert edges.
    - [ApiDatabase], [ApiDatabaseSpec]: the server, its routes and its versioned table.
    - [ApiSystem]: the watcher as the provider of the API.

    The contracts ([contracts/src/challengeV2/], [contracts/src/rollup/]).
    - [MerkleContract]: [MerkleTreeLib.sol], [UintUtilsLib.sol], [MerkleLib.sol] with
      checked integers, equivalent to the Go verifier.
    - [CommitChain]: roots that commit to prefixes of one another.
    - [EdgeContract]: [ChallengeEdgeLib.sol], [EdgeChallengeManagerLib.sol] and
      [EdgeChallengeManager.sol], each a module; a transaction is a computation that
      is undone when it reverts.  The rollup, the token, the one step proof entry and
      the ABI decoder are classes.
    - [EdgeContractSpec], [EdgeContractHistory], [EdgeContractReplay],
      [EdgeContractStakes], [EdgeContractBisect]: the steps of the store and its
      invariant; sequences of transactions by anybody; what a confirmation checks
      over time; the stakes; bisections.  [EdgeContractToy] runs a challenge.
    - [Rollup]: [RollupCore.sol], [RollupUserLogic.sol], [RollupAdminLogic.sol],
      [RollupLib.sol], [Assertion.sol]: assertions, stakers and withdrawable funds.
    - [RollupSpec], [RollupStakes]: the assertions over time and the confirmed ones;
      what the rollup owes and holds.
    - [RollupSystem]: the rollup as the assertion chain of the challenge manager, and
      the challenge manager as the judge of the rollup.  [RollupToy] runs both.
    - [ContractChain], [ContractSystem]: the contract behind the bindings of the
      wrapper, the wrapper and the whole validator on a node that runs it.
    - [RollupWins]: the rollup behind the bindings too, the questions about completed
      challenges and the whole validator on a node that runs both contracts.

    The machine and state provider of the tests ([testing/mocks/state-provider/]).
    - [Machine]: [execution_engine.go] and [SimpleOneStepProofEntry.sol].
    - [Backend], [BackendSpec]: [layer2_state_provider.go], [history_provider.go]; honest
      and diverging backends.

    Assertions ([assertions/]) and the whole.
    - [Assertions], [AssertionsSpec]: [scanner.go], [poster.go] and the modes.
    - [System]: trackers on wrapper, watcher, provider and challenge manager together;
      the assertion manager on the challenge manager.

    ** How code is modelled

    A function is a definition with the source's name.  A pure one returns its value
    or, when it can fail, a [res]: a value, an error (sentinels keep their identity
    under wrapping, so that [errors.Is] is a function), a panic, or an exhausted
    bound.  A method that changes state is a computation [M W A] on a world that is
    kept on the error paths; the state of a component is a record, paired with the
    world.  Calls of other components are the operations of a class ([ChainEnv],
    [TrackerEnv], [WatcherEnv], [AssertionEnv], [ManagerEnv], [Contracts]), so that a
    client is verified against an interface whose laws the implementation discharges.
    Integers are kept at their width ([u64], [u8], [int64]).  A goroutine is the list of
    signals it gets, or a step relation where interleaving matters (hashing workers,
    tickers); the goroutines of the assertion manager are activities in any order, and
    those of an error group of the API run in an order that is a parameter.  A goroutine
    that waits for a lock that is held has no outcome ([NoFuel]).

    ** What the theorems show

    - Prefix proofs are complete and sound (for a collision-free hash), inclusion
      proofs verify under every schedule, expansions equal the reference trees;
      bisection points are inside their range, but for the two largest heights; the malleability of the pre-expansion
      and the divergence of the compact scan beyond 2^63 are exhibited.
    - The provider binds commitments to leaves, and leaves of a subchallenge fit the
      edge they refine.
    - Challenge trees keep their invariant and track what the history checker agrees
      with, also when reads fail; ancestor searches terminate with the whole
      lineage; path timers are the sums they stand for.
    - Trackers take only the steps of their table and are truthful about confirmation;
      the wrapper refines the confirmation contract, on the challenge manager contract
      without further hypotheses, and [System] puts both together.
    - The watcher and the assertion scanner miss nothing on a chain without
      reorganisations, as long as no iterator ends with an error; recorded claims are truthful; caches are transparent.
    - The challenge manager contract keeps its invariant under any transactions; one
      rival wins for good; a confirmation that fails after it was tried fails for
      good; honest bisections succeed; timers agree with those of the validator;
      stakes are covered and refunded to winners.  A tracker of the whole validator on
      this contract reports only what the contract has confirmed.
    - The rollup confirms one chain of assertions, keeps the promises on which the
      challenge manager relies, confirms exactly the winner of a challenge and no
      sibling of it, and can pay all withdrawable funds: the stakes locked on the
      leaves cover what was promised to the escrow.
    - Together: a block edge that the validator reports as confirmed decides which
      child of an assertion the rollup can confirm, in every later state.
    - The one step proof entry of the tests proves the steps of the machine of the
      tests, and an honest backend builds, agrees across levels and gives data on which
      the contract confirms its edges, where the inbox limits agree; a diverging one
      disagrees from its height on.
    - The assertion manager respects its mode, and a whole watchtower validator sends
      nothing; the manager builds on the right parent, answers a
      wrong assertion by a rival on the nearest agreed ancestor and, from resolve mode
      on, keeps trying to confirm.
    - Conversions of the API do not depend on the order of their goroutines; listings
      are sorted and complete, stakes are counted right, the current table of a
      database with mutexes always exists, and requests leave the watcher as it is.
    - What the code does not do as meant is proved as well: the parent reported by
      [PrevId], challenges that are opened and not played, a wake interval of zero,
      failed transactions reported as successes, lost iterator errors, an API server
      that panics when it is started, requested updates that deadlock, one step
      proofs of stopped machines at the start of a later small step challenge, bisections
      at the largest heights.

    ** Bounds

    Loops that are not structural take fuel, and exhausting it is the outcome [NoFuel],
    never a result.  Retry loops are given a number of calls; the theorems hold for
    every number or say how many are enough.  The search for an agreed ancestor needs
    one more step than the distance to it.  The tree searches have fuel computed from
    the tree or the heights, and are proved to return.  Appending and generating use
    the number of leaves or the width of a word.  The blocks of a test backend are at
    most as many as the steps of its machine, 2000 for each batch, and one more.

    ** Hypotheses

    The hash is a parameter, assumed collision-free and never zero where a theorem
    needs it.  The collectors, ABI encoder and decoder, node backend, gas, clock, SQL
    driver and the order of the goroutines of an error group are parameters; their laws
    are classes with an instance in the examples, which evaluate the model.  Tokens
    follow the standard ([ERC20Laws], [RollupTokenLaws]).  The laws of the rollup
    ([AssertionLaws]) are proved of the model of the rollup, the law of machine hashes
    ([MachineHashLaw]) of both one step proof entries.  The confirmed chain and the
    solvency of the rollup assume that the fast confirmer and the owner do not use
    their powers to create or confirm assertions, the solvency also that the owner keeps
    the stake.

    ** Not modelled

    The text of responses and SQL statements, and the empty packages under [api/]; the
    generated bindings beyond their structures ([solgen/]: remote calls), the
    deployment scripts and simulated nodes of the tests, the owner's registration of
    bridges, inboxes and outboxes and the upgrade of proxies, tokens that call back
    into the contracts, block numbers of an Arbitrum host chain, the WebAssembly one step
    prover but for its machine hashes, logging, metrics registries and the printing of hashes
    ([containers.Trunc]).  The watcher reports honest edges to its edge manager
    through an operation of its class: the mutual reference of watcher and challenge
    manager is not tied into one state.  Data races on unsynchronised counters are
    noted but not part of the model, whose activities are atomic attempts. *)

From stdpp Require Export base gmap list strings option.
From Stdlib Require Export ZArith Lia.

#[global] Open Scope Z_scope.

(** ** Machine integers

    A Go [uint64] ([uint8]) is an integer of [Z] in the range of the type;
    arithmetic that can leave the range is wrapped explicitly. *)

Definition two64 : Z := 18446744073709551616.
Definition u64 (x : Z) : Z := x mod two64.
Definition u8 (x : Z) : Z := x mod 256.
Definition is_u64 (x : Z) : Prop := 0 <= x < two64.
Definition is_u8 (x : Z) : Prop := 0 <= x < 256.
(** [big.Int.IsUint64]. *)
Definition IsUint64 (x : Z) : bool := (0 <=? x) && (x <? two64).
(** [int64(x)] of a [uint64]. *)
Definition int64 (x : Z) : Z := if x <? 9223372036854775808 then x else x - two64.

(** ** Go errors

    A sentinel error is a package-level variable: its identity is its qualified
    name.  [errors.New] and [fmt.Errorf] without a wrapped cause build [ErrNew];
    [errors.Wrap], [errors.Wrapf] and [fmt.Errorf] with a wrapped cause build
    [ErrWrap].  The text is the format string: the arguments are only printed. *)

Inductive error : Type :=
| Sentinel (name : string)
| ErrNew (msg : string)
| ErrWrap (cause : error) (msg : string).

#[global] Instance error_eq_dec : EqDecision error.
Proof. solve_decision. Defined.

(** [errors.Is]: the error or one of the errors it wraps is the target. *)
Fixpoint errors_is (e target : error) : bool :=
  bool_decide (e = target) ||
  match e with
  | ErrWrap cause _ => errors_is cause target
  | _ => false
  end.

(** [err.Error()], up to the formatting of arguments: [pkg/errors] puts the message
    in front of the text of the cause.  A sentinel has its name for a text. *)
Fixpoint ErrorText (e : error) : string :=
  match e with
  | Sentinel name => name
  | ErrNew msg => msg
  | ErrWrap cause msg => msg +:+ ": " +:+ ErrorText cause
  end.

(** [strings.Contains]. *)
Fixpoint Contains (s substr : string) : bool :=
  String.prefix substr s ||
  match s with
  | String.EmptyString => false
  | String.String _ s' => Contains s' substr
  end.

(** ** Results

    The value a Go call produces: a value with a nil error, a non-nil error, a
    run-time panic, or none: the bound of a loop run on a bounded number of iterations
    is exhausted, or a lock that is held is waited for. *)

Inductive panic : Type :=
| NilDereference
| SliceIndexOutOfRange
| UnwrapOfNone
| BadArgument.

Inductive res (A : Type) : Type :=
| Ok (a : A)
| Err (e : error)
| Panic (p : panic)
| NoFuel.
Arguments Ok {A} a.
Arguments Err {A} e.
Arguments Panic {A} p.
Arguments NoFuel {A}.

#[global] Instance panic_eq_dec : EqDecision panic.
Proof. solve_decision. Defined.
#[global] Instance res_eq_dec `{EqDecision A} : EqDecision (res A).
Proof. solve_decision. Defined.

#[global] Instance res_ret : MRet res := @Ok.
#[global] Instance res_bind : MBind res := fun A B f m =>
  match m with
  | Ok a => f a
  | Err e => Err e
  | Panic p => Panic p
  | NoFuel => NoFuel
  end.

(** [errors.Wrap(err, msg)] on the error path. *)
Definition wrap_err {A} (msg : string) (m : res A) : res A :=
  match m with Err e => Err (ErrWrap e msg) | _ => m end.

(** ** Stateful computations

    A Go function that reads and writes shared state: the state is kept on the
    error and panic paths too. *)

Definition M (W A : Type) : Type := W -> res A * W.

#[global] Instance M_ret W : MRet (M W) := fun A a w => (Ok a, w).
#[global] Instance M_bind W : MBind (M W) := fun A B f m w =>
  match m w with
  | (Ok a, w') => f a w'
  | (Err e, w') => (Err e, w')
  | (Panic p, w') => (Panic p, w')
  | (NoFuel, w') => (NoFuel, w')
  end.

Definition fail {W A} (e : error) : M W A := fun w => (Err e, w).
Definition crash {W A} (p : panic) : M W A := fun w => (Panic p, w).
Definition lift {W A} (r : res A) : M W A := fun w => (r, w).
Definition get {W} : M W W := fun w => (Ok w, w).
Definition put {W} (w : W) : M W unit := fun _ => (Ok tt, w).
Definition modify {W} (f : W -> W) : M W unit := fun w => (Ok tt, f w).

(** [x, err := f()]: the error becomes a value; a panic still unwinds. *)
Definition attempt {W A} (m : M W A) : M W (A + error) := fun w =>
  match m w with
  | (Ok a, w') => (Ok (inl a), w')
  | (Err e, w') => (Ok (inr e), w')
  | (Panic p, w') => (Panic p, w')
  | (NoFuel, w') => (NoFuel, w')
  end.

Definition wrapM {W A} (msg : string) (m : M W A) : M W A := fun w =>
  let '(r, w') := m w in (wrap_err msg r, w').

(** A computation on the first part of a larger state. *)
Definition chain {W S A} (m : M W A) : M (W * S) A := fun '(w, s) =>
  let '(r, w') := m w in (r, (w', s)).

(** [Option.Unwrap]: dereferencing the pointer of an empty option panics. *)
Definition unwrap_opt {A} (o : option A) : res A :=
  match o with Some a => Ok a | None => Panic UnwrapOfNone end.

(** ** Hashes

    A [common.Hash] is a 32-byte word, written as an integer; the zero word is
    Go's zero value [common.Hash{}].  [crypto.Keccak256Hash] (go-ethereum) is a
    parameter: a function of the list of byte strings it concatenates, each of
    which is a 32-byte word or raw bytes. *)

Abbreviation Hash := Z.
Definition zero_hash : Hash := 0.

Inductive chunk : Type :=
| Word (h : Hash)
| Raw (bytes : list Z).

#[global] Instance chunk_eq_dec : EqDecision chunk.
Proof. solve_decision. Defined.

#[global] Instance chunk_countable : Countable chunk.
Proof.
  apply (inj_countable'
    (fun c => match c with Word h => inl h | Raw b => inr b end)
    (fun s => match s with inl h => Word h | inr b => Raw b end)).
  by intros [].
Defined.

Class Hasher := Keccak256Hash : list chunk -> Hash.

(** No input hashes to the zero word. *)
Class HasherNonzero `{Hasher} : Prop :=
  keccak_nonzero : forall cs, Keccak256Hash cs <> zero_hash.

(** The hash has no collisions (the usual symbolic idealisation). *)
Class HasherInjective `{Hasher} : Prop :=
  keccak_inj : forall cs ds, Keccak256Hash cs = Keccak256Hash ds -> cs = ds.

(** An executable hasher that satisfies both, used to evaluate the model. *)
Definition toy_keccak (cs : list chunk) : Hash := Zpos (encode cs).

Lemma toy_nonzero : @HasherNonzero toy_keccak.
Proof. intros cs. unfold Keccak256Hash, toy_keccak, zero_hash. lia. Qed.

Lemma toy_injective : @HasherInjective toy_keccak.
Proof.
  intros cs ds. unfold Keccak256Hash, toy_keccak. intros [= H].
  by apply (inj encode) in H.
Qed.

(** ** Automation *)

Create HintDb bold.
Create Rewrite HintDb bold.

(** Case analysis on the innermost scrutinee of the goal or a hypothesis. *)
Ltac case_res :=
  match goal with
  | |- context [match ?x with _ => _ end] =>
      lazymatch x with context [match _ with _ => _ end] => fail | _ => destruct x eqn:? end
  | H : context [match ?x with _ => _ end] |- _ =>
      lazymatch x with context [match _ with _ => _ end] => fail | _ => destruct x eqn:? end
  end.

Ltac inv_ok := repeat match goal with
  | H : Ok _ = Ok _ |- _ => injection H as H; subst
  | H : Ok _ = Err _ |- _ => discriminate H
  | H : Err _ = Ok _ |- _ => discriminate H
  | H : Panic _ = Ok _ |- _ => discriminate H
  | H : NoFuel = Ok _ |- _ => discriminate H
  | H : (_, _) = (_, _) |- _ => injection H as H; subst
  end.

(** ** Reasoning about stateful computations

    [wp m Q w]: running [m] from [w] ends with a result and a state in [Q]. *)

Definition wp {W A} (m : M W A) (Q : res A -> W -> Prop) (w : W) : Prop := Q (fst (m w)) (snd (m w)).

(** The outcome of a computation that stops before its continuation. *)
Definition stopped {A B} (r : res A) : res B :=
  match r with
  | Ok _ => NoFuel
  | Err e => Err e
  | Panic p => Panic p
  | NoFuel => NoFuel
  end.

Section wp_rules.
Context {W : Type}.

Lemma wp_bind {A B} (m : M W A) (f : A -> M W B) Q w :
  wp m (fun r w' => match r with Ok a => wp (f a) Q w' | _ => Q (stopped r) w' end) w ->
  wp (m ≫= f) Q w.
Proof. unfold wp, mbind, M_bind. by destruct (m w) as [[| | |] w']. Qed.

Lemma wp_ret {A} (a : A) (Q : res A -> W -> Prop) w : Q (Ok a) w -> wp (mret a) Q w.
Proof. done. Qed.

Lemma wp_fail {A} e (Q : res A -> W -> Prop) w : Q (Err e) w -> wp (fail e) Q w.
Proof. done. Qed.

Lemma wp_lift {A} (r : res A) (Q : res A -> W -> Prop) w : Q r w -> wp (lift r) Q w.
Proof. done. Qed.

Lemma wp_get (Q : res W -> W -> Prop) w : Q (Ok w) w -> wp get Q w.
Proof. done. Qed.

Lemma wp_attempt {A} (m : M W A) Q w :
  wp m (fun r w' => match r with
                    | Ok a => Q (Ok (inl a)) w'
                    | Err e => Q (Ok (inr e)) w'
                    | _ => Q (stopped r) w'
                    end) w ->
  wp (attempt m) Q w.
Proof. unfold wp, attempt. by destruct (m w) as [[| | |] w']. Qed.

Lemma wp_wrapM {A} msg (m : M W A) Q w :
  wp m (fun r w' => Q (wrap_err msg r) w') w -> wp (wrapM msg m) Q w.
Proof. unfold wp, wrapM. by destruct (m w) as [r w']. Qed.

Lemma wp_chain {S A} (m : M W A) (Q : res A -> W * S -> Prop) w (s : S) :
  wp m (fun r w' => Q r (w', s)) w -> wp (chain m) Q (w, s).
Proof. unfold wp, chain. by destruct (m w) as [r w']. Qed.

Lemma wp_mono {A} (m : M W A) (Q Q' : res A -> W -> Prop) w :
  (forall r w', Q r w' -> Q' r w') -> wp m Q w -> wp m Q' w.
Proof. unfold wp. auto. Qed.

Lemma wp_any {A} (m : M W A) (Q : res A -> W -> Prop) w : (forall r w', Q r w') -> wp m Q w.
Proof. unfold wp. auto. Qed.

End wp_rules.

(** ** Successful runs

    Inversion of a run that ended with a value: every step before it did as well. *)

Lemma res_bind_ok {A B} (m : res A) (f : A -> res B) b :
  m ≫= f = Ok b -> exists a, m = Ok a /\ f a = Ok b.
Proof. destruct m; [|done..]. eauto. Qed.

Section run_inversion.
Context {W : Type}.

Lemma bind_ok {A B} (m : M W A) (f : A -> M W B) w b w' :
  (m ≫= f) w = (Ok b, w') -> exists a w1, m w = (Ok a, w1) /\ f a w1 = (Ok b, w').
Proof. unfold mbind, M_bind. destruct (m w) as [[a| | |] w1]; [|done..]. eauto. Qed.

Lemma lift_ok {A} (r : res A) (w : W) a w' : lift r w = (Ok a, w') -> r = Ok a /\ w' = w.
Proof. unfold lift. by intros [= -> ->]. Qed.

Lemma ret_ok {A} (a : A) (w : W) a' w' : (mret a : M W A) w = (Ok a', w') -> a' = a /\ w' = w.
Proof. by intros [= -> ->]. Qed.

Lemma get_ok (w : W) a w' : get w = (Ok a, w') -> a = w /\ w' = w.
Proof. by intros [= -> ->]. Qed.

Lemma modify_ok (f : W -> W) w a w' : modify f w = (Ok a, w') -> w' = f w.
Proof. by intros [= _ ->]. Qed.

End run_inversion.

Ltac invert_run :=
  repeat match goal with
  | H : @mbind (M _) _ _ _ _ _ _ = (Ok _, _) |- _ =>
      let E := fresh "E" in apply bind_ok in H as (? & ? & E & H)
  | H : @mbind res _ _ _ _ _ = Ok _ |- _ =>
      let E := fresh "E" in apply res_bind_ok in H as (? & E & H)
  | H : lift _ _ = (Ok _, _) |- _ => apply lift_ok in H as [H ->]
  | H : @mret (M _) _ _ _ _ = (Ok _, _) |- _ => apply ret_ok in H as [-> ->]
  | H : get _ = (Ok _, _) |- _ => apply get_ok in H as [-> ->]
  | H : modify _ _ = (Ok _, _) |- _ => apply modify_ok in H; subst
  | H : fail _ _ = (Ok _, _) |- _ => discriminate H
  | H : Err _ = Ok _ |- _ => discriminate H
  | H : (if ?b then _ else _) = Ok _ |- _ => destruct b eqn:?; try discriminate H
  | H : (if ?b then _ else _) _ = (Ok _, _) |- _ => destruct b eqn:?; try discriminate H
  | p : _ * _ |- _ => destruct p
  end.

(** ** Computations that respect a preorder of states

    [keeps R m]: whatever its outcome, [m] leaves a state related to the one it
    started from. *)

Definition keeps {W A} (R : relation W) (m : M W A) : Prop := forall w, R w (m w).2.

Section keeps_rules.
Context {W : Type} (R : relation W) `{!PreOrder R}.

Lemma keeps_ret {A} (a : A) : keeps R (mret a).
Proof. intros w. reflexivity. Qed.

Lemma keeps_fail {A} e : keeps R (fail (A:=A) e).
Proof. intros w. reflexivity. Qed.

Lemma keeps_lift {A} (r : res A) : keeps R (lift r).
Proof. intros w. reflexivity. Qed.

Lemma keeps_get : keeps R get.
Proof. intros w. reflexivity. Qed.

Lemma keeps_bind {A B} (m : M W A) (f : A -> M W B) :
  keeps R m -> (forall a, keeps R (f a)) -> keeps R (m ≫= f).
Proof.
  intros Hm Hf w. unfold mbind, M_bind. specialize (Hm w). destruct (m w) as [[a| | |] w']; [|done..].
  cbn in *. etrans; [done|]. apply Hf.
Qed.

Lemma keeps_attempt {A} (m : M W A) : keeps R m -> keeps R (attempt m).
Proof. intros Hm w. specialize (Hm w). unfold attempt. by destruct (m w) as [[| | |] ?]. Qed.

Lemma keeps_wrapM {A} msg (m : M W A) : keeps R m -> keeps R (wrapM msg m).
Proof. intros Hm w. specialize (Hm w). unfold wrapM. by destruct (m w). Qed.

End keeps_rules.

Create HintDb keeps.

(** Follows the structure of a computation; calls are left to the hints. *)
Ltac keeps_tac :=
  repeat lazymatch goal with
    | |- keeps _ (mbind _ _) => apply keeps_bind; [apply _| |intros ?]
    | |- keeps _ (mret _) => apply keeps_ret, _
    | |- keeps _ (fail _) => apply keeps_fail, _
    | |- keeps _ (lift _) => apply keeps_lift, _
    | |- keeps _ get => apply keeps_get, _
    | |- keeps _ (attempt _) => apply keeps_attempt
    | |- keeps _ (wrapM _ _) => apply keeps_wrapM
    | |- keeps _ (if ?b then _ else _) => destruct b
    | |- keeps _ (match ?x with _ => _ end) => destruct x
    | |- _ => progress eauto with keeps
    end.
