(* ===== verification/Bits.v ===== *)
(** * Bit arithmetic and bisection

    [math/bits] of the Go standard library as far as the validator uses it,
    [LeastSignificantBit] / [MostSignificantBit] of the prefix-proof package and
    [Bisect] of the [math] package, with the arithmetic of the highest bit in
    which two numbers differ that both bisection and prefix proofs rest on. *)

From S2P Require Import Prelude.

Definition MaxUint64 : Z := 18446744073709551615.

(** [bits.LeadingZeros64]. *)
Definition LeadingZeros64 (x : Z) : Z := if x =? 0 then 64 else 63 - Z.log2 x.

Fixpoint pos_ctz (p : positive) : Z :=
  match p with
  | xO q => 1 + pos_ctz q
  | _ => 0
  end.

(** [bits.TrailingZeros64]. *)
Definition TrailingZeros64 (x : Z) : Z :=
  match x with
  | Zpos p => pos_ctz p
  | _ => 64
  end.

(** A Go shift [1 << n] at type [uint64]. *)
Definition shl64 (x n : Z) : Z := u64 (Z.shiftl x n).

Definition ErrCannotBeZero : error := Sentinel "prefixproofs.ErrCannotBeZero".
Definition ErrUnableToBisect : error := Sentinel "math.ErrUnableToBisect".

Definition LeastSignificantBit (x : Z) : res Z :=
  if x =? 0 then Err ErrCannotBeZero else Ok (TrailingZeros64 x).

Definition MostSignificantBit (x : Z) : res Z :=
  if x =? 0 then Err ErrCannotBeZero else Ok (63 - LeadingZeros64 x).

(** [math.Bisect]: the additions, the decrement and the shift are [uint64]. *)
Definition Bisect (pre post : Z) : res Z :=
  if post <? u64 (pre + 2) then Err ErrUnableToBisect
  else if u64 (pre + 2) =? post then Ok (u64 (pre + 1))
  else
    let matchingBits := LeadingZeros64 (Z.lxor (u64 (post - 1)) pre) in
    let mask := shl64 MaxUint64 (63 - matchingBits) in
    Ok (Z.land (u64 (post - 1)) mask).

(** ** Wrap-around *)

Lemma two64_pow : two64 = 2 ^ 64.
Proof. reflexivity. Qed.

Lemma u64_small x : 0 <= x < two64 -> u64 x = x.
Proof. apply Z.mod_small. Qed.

Lemma u64_range x : 0 <= u64 x < two64.
Proof. apply Z.mod_pos_bound. reflexivity. Qed.

#[export] Hint Rewrite u64_small using (unfold is_u64 in *; unfold two64 in *; lia) : bold.

(** ** The highest differing bit *)

Definition diff_bit (a b : Z) : Z := Z.log2 (Z.lxor a b).

Lemma diff_bit_nonneg a b : 0 <= diff_bit a b.
Proof. apply Z.log2_nonneg. Qed.

Lemma lxor_pos a b : 0 <= a -> 0 <= b -> a <> b -> 0 < Z.lxor a b.
Proof.
  intros Ha Hb Hne.
  assert (0 <= Z.lxor a b) by (apply Z.lxor_nonneg; lia).
  destruct (Z.eq_dec (Z.lxor a b) 0) as [E|E]; [|lia].
  apply Z.lxor_eq in E. contradiction.
Qed.

(** Above the highest differing bit the two numbers agree. *)
Lemma diff_bit_high a b :
  0 <= a -> 0 <= b -> a / 2 ^ (diff_bit a b + 1) = b / 2 ^ (diff_bit a b + 1).
Proof.
  intros Ha Hb. pose proof (diff_bit_nonneg a b).
  rewrite <- !Z.shiftr_div_pow2 by lia.
  apply Z.lxor_eq. rewrite <- Z.shiftr_lxor.
  assert (0 <= Z.lxor a b) by (apply Z.lxor_nonneg; lia).
  apply Z.shiftr_eq_0; [done|]. unfold diff_bit. lia.
Qed.

(** At the highest differing bit the smaller number has a 0 and the larger a 1. *)
Lemma diff_bit_split a b :
  0 <= a < b ->
  exists h, let d := diff_bit a b in
  a / 2 ^ d = 2 * h /\ b / 2 ^ d = 2 * h + 1 /\ 0 <= h.
Proof.
  intros [Ha Hb]. pose proof (diff_bit_nonneg a b) as Hd.
  set (d := diff_bit a b) in *.
  exists (a / 2 ^ (d + 1)). cbv zeta.
  assert (Hhi : a / 2 ^ (d + 1) = b / 2 ^ (d + 1)) by (apply diff_bit_high; lia).
  assert (Hbit : xorb (Z.testbit a d) (Z.testbit b d) = true).
  { rewrite <- Z.lxor_spec. apply Z.bit_log2. apply lxor_pos; lia. }
  assert (HP : 0 < 2 ^ d) by (apply Z.pow_pos_nonneg; lia).
  assert (Ea : a / 2 ^ d = 2 * (a / 2 ^ (d + 1)) + Z.b2z (Z.testbit a d)).
  { rewrite Z.testbit_spec', Z.pow_add_r, <- Z.div_div by lia.
    change (2 ^ 1) with 2. apply Z.div_mod. lia. }
  assert (Eb : b / 2 ^ d = 2 * (b / 2 ^ (d + 1)) + Z.b2z (Z.testbit b d)).
  { rewrite Z.testbit_spec', Z.pow_add_r, <- Z.div_div by lia.
    change (2 ^ 1) with 2. apply Z.div_mod. lia. }
  assert (Hle : a / 2 ^ d <= b / 2 ^ d) by (apply Z.div_le_mono; lia).
  assert (0 <= a / 2 ^ (d + 1)) by (apply Z.div_pos; [lia|]; apply Z.pow_pos_nonneg; lia).
  destruct (Z.testbit a d), (Z.testbit b d); simpl in *; try discriminate; lia.
Qed.

(** The two numbers as multiples of [2^d] with remainders. *)
Lemma diff_bit_decomp a b :
  0 <= a < b ->
  exists h ra rb, let p := 2 ^ diff_bit a b in
  a = 2 * h * p + ra /\ b = (2 * h + 1) * p + rb /\
  0 <= ra < p /\ 0 <= rb < p /\ 0 <= h /\ 0 < p.
Proof.
  intros Hab. destruct (diff_bit_split a b Hab) as (h & Ha & Hb & Hh). cbv zeta in *.
  assert (HP : 0 < 2 ^ diff_bit a b)
    by (apply Z.pow_pos_nonneg; [lia|apply diff_bit_nonneg]).
  exists h, (a mod 2 ^ diff_bit a b), (b mod 2 ^ diff_bit a b). cbv zeta.
  pose proof (Z.div_mod a (2 ^ diff_bit a b)) as Da.
  pose proof (Z.div_mod b (2 ^ diff_bit a b)) as Db.
  pose proof (Z.mod_pos_bound a (2 ^ diff_bit a b) HP).
  pose proof (Z.mod_pos_bound b (2 ^ diff_bit a b) HP).
  rewrite Ha in Da. rewrite Hb in Db. repeat split; lia.
Qed.

Lemma diff_bit_lt_64 a b : 0 <= a < two64 -> 0 <= b < two64 -> diff_bit a b < 64.
Proof.
  intros Ha Hb. unfold diff_bit.
  destruct (Z.eq_dec (Z.lxor a b) 0) as [->|Hne]; [reflexivity|].
  assert (0 <= Z.lxor a b) by (apply Z.lxor_nonneg; lia).
  pose proof (Z.log2_lxor a b ltac:(lia) ltac:(lia)) as Hl.
  assert (Z.log2 a < 64 /\ Z.log2 b < 64); [|lia].
  rewrite two64_pow in *.
  split.
  - destruct (Z.eq_dec a 0) as [->|]; [reflexivity|]. apply Z.log2_lt_pow2; lia.
  - destruct (Z.eq_dec b 0) as [->|]; [reflexivity|]. apply Z.log2_lt_pow2; lia.
Qed.

(** Masking with [MaxUint64 << k] clears the [k] low bits. *)
Lemma land_shl_mask x k :
  0 <= x < two64 -> 0 <= k < 64 ->
  Z.land x (shl64 MaxUint64 k) = x / 2 ^ k * 2 ^ k.
Proof.
  intros Hx Hk. unfold shl64, u64. rewrite two64_pow in *.
  rewrite <- Z.shiftr_div_pow2, <- Z.shiftl_mul_pow2 by lia.
  apply Z.bits_inj'. intros n Hn.
  rewrite Z.land_spec.
  destruct (Z.lt_ge_cases n 64) as [Hn64|Hn64].
  - rewrite Z.mod_pow2_bits_low by lia.
    destruct (Z.lt_ge_cases n k) as [Hnk|Hnk].
    + rewrite !Z.shiftl_spec_low by lia. by rewrite andb_false_r.
    + rewrite !Z.shiftl_spec_high, Z.shiftr_spec by lia.
      replace (n - k + k) with n by lia.
      change MaxUint64 with (Z.ones 64). rewrite Z.ones_spec_low by lia.
      by rewrite andb_true_r.
  - assert (Hxn : Z.testbit x n = false).
    { destruct (Z.eq_dec x 0) as [->|]; [apply Z.bits_0|].
      apply Z.bits_above_log2; [lia|].
      assert (Z.log2 x < 64) by (apply Z.log2_lt_pow2; lia). lia. }
    rewrite Hxn. simpl.
    rewrite Z.shiftl_spec_high, Z.shiftr_spec by lia.
    by replace (n - k + k) with n by lia.
Qed.

(** ** Trailing zeros *)

Lemma pos_ctz_spec p : exists q, 0 <= q /\ Zpos p = (2 * q + 1) * 2 ^ pos_ctz p /\ 0 <= pos_ctz p.
Proof.
  induction p as [p _|p (q & Hq & Hp & Hc)|]; simpl pos_ctz.
  - exists (Zpos p). lia.
  - exists q. rewrite Z.pow_add_r by lia. rewrite Pos2Z.inj_xO, Hp. lia.
  - exists 0. lia.
Qed.

Lemma TrailingZeros64_spec x :
  0 < x -> exists q, 0 <= q /\ x = (2 * q + 1) * 2 ^ TrailingZeros64 x /\ 0 <= TrailingZeros64 x.
Proof. destruct x as [|p|p]; try lia. intros _. apply pos_ctz_spec. Qed.

Lemma TrailingZeros64_divide x : 0 < x -> (2 ^ TrailingZeros64 x | x).
Proof.
  intros Hx. destruct (TrailingZeros64_spec x Hx) as (q & _ & E & _).
  exists (2 * q + 1). exact E.
Qed.

Lemma TrailingZeros64_lt x n : 0 < x -> x < 2 ^ n -> TrailingZeros64 x < n.
Proof.
  intros Hx Hn. destruct (TrailingZeros64_spec x Hx) as (q & Hq & E & Hc).
  assert (0 < 2 ^ TrailingZeros64 x) by (apply Z.pow_pos_nonneg; lia).
  assert (0 <= n) by (apply Z.nlt_ge; intros Hneg; rewrite Z.pow_neg_r in Hn by lia; lia).
  apply (Z.pow_lt_mono_r_iff 2); [lia|lia|nia].
Qed.

Lemma LeadingZeros64_log2 x : 0 < x -> 63 - LeadingZeros64 x = Z.log2 x.
Proof. intros Hx. unfold LeadingZeros64. case_match; lia. Qed.

Lemma MostSignificantBit_pos x : 0 < x -> MostSignificantBit x = Ok (Z.log2 x).
Proof.
  intros Hx. unfold MostSignificantBit. rewrite LeadingZeros64_log2 by done.
  by destruct (Z.eqb_spec x 0); [lia|].
Qed.

Lemma LeastSignificantBit_pos x : 0 < x -> LeastSignificantBit x = Ok (TrailingZeros64 x).
Proof. intros Hx. unfold LeastSignificantBit. by destruct (Z.eqb_spec x 0); [lia|]. Qed.

(** ** Bisection *)

(** The bisection point before the shortcut for edges of length two. *)
Definition bisection_point (pre post : Z) : Z :=
  (post - 1) / 2 ^ diff_bit pre (post - 1) * 2 ^ diff_bit pre (post - 1).

Lemma bisection_point_spec pre post :
  0 <= pre -> pre + 1 < post ->
  let p := 2 ^ diff_bit pre (post - 1) in
  let m := bisection_point pre post in
  pre < m < post /\ (p | m) /\ forall x, pre < x < post -> (p | x) -> x = m.
Proof.
  intros Hpre Hlt. cbv zeta. unfold bisection_point.
  destruct (diff_bit_decomp pre (post - 1) ltac:(lia)) as (h & ra & rb & D). cbv zeta in D.
  set (p := 2 ^ diff_bit pre (post - 1)) in *.
  destruct D as (Ea & Eb & Hra & Hrb & Hh & Hp).
  assert (E : (post - 1) / p = 2 * h + 1)
    by (rewrite Eb, (Z.add_comm _ rb), Z.div_add, Z.div_small by lia; lia).
  rewrite E. repeat split; [nia|nia|by exists (2 * h + 1)|].
  intros x Hx [c ->].
  assert (2 * h < c < 2 * h + 2) by nia. nia.
Qed.

Lemma bisection_point_adjacent pre :
  0 <= pre -> bisection_point pre (pre + 2) = pre + 1.
Proof.
  intros Hpre. destruct (bisection_point_spec pre (pre + 2)) as [? _]; lia.
Qed.

Lemma Bisect_eq pre post :
  is_u64 pre -> is_u64 post -> pre + 2 < two64 -> pre + 2 <= post ->
  Bisect pre post = Ok (bisection_point pre post).
Proof.
  intros Hpre Hpost Hov Hle. unfold Bisect. unfold is_u64 in *.
  rewrite !u64_small by lia.
  destruct (Z.ltb_spec post (pre + 2)); [lia|].
  destruct (Z.eqb_spec (pre + 2) post) as [<-|Hne].
  { by rewrite bisection_point_adjacent by lia. }
  f_equal. rewrite Z.lxor_comm, LeadingZeros64_log2 by (apply lxor_pos; lia).
  fold (diff_bit pre (post - 1)).
  pose proof (diff_bit_nonneg pre (post - 1)).
  pose proof (diff_bit_lt_64 pre (post - 1) ltac:(lia) ltac:(lia)).
  apply land_shl_mask; lia.
Qed.

(** (C39) [math.Bisect] on all 64-bit heights.  When [pre + 2] does not overflow it refuses
    exactly the edges shorter than two; otherwise it returns a height strictly
    inside the edge, the only one strictly inside that is a multiple of some
    power of two.  Every party that bisects the same edge therefore picks the
    same height, whatever the commitments are.  When [pre + 2] overflows, every edge from
    [pre] is shorter than two, but the wrapped sum refuses none of them, except
    the one from the largest height down to zero: a height that is not
    strictly inside is returned. *)
Theorem Bisect_spec pre post :
  is_u64 pre -> is_u64 post ->
  if pre + 2 <? two64 then
    if post <? pre + 2
    then Bisect pre post = Err ErrUnableToBisect
    else exists m k,
      Bisect pre post = Ok m /\ pre < m < post /\ 0 <= k /\ (2 ^ k | m) /\
      forall x, pre < x < post -> (2 ^ k | x) -> x = m
  else
    post < pre + 2 /\
    if (pre =? MaxUint64) && (post =? 0)
    then Bisect pre post = Err ErrUnableToBisect
    else exists m, Bisect pre post = Ok m /\ ~ pre < m < post.
Proof.
  intros Hpre Hpost. unfold is_u64 in *. destruct (Z.ltb_spec (pre + 2) two64) as [Hov|Hov].
  - destruct (Z.ltb_spec post (pre + 2)) as [Hlt|Hge].
    + unfold Bisect. rewrite u64_small by lia. by destruct (Z.ltb_spec post (pre + 2)); [|lia].
    + exists (bisection_point pre post), (diff_bit pre (post - 1)).
      destruct (bisection_point_spec pre post) as (? & ? & ?); try lia.
      repeat split; try done; try lia; [by apply Bisect_eq|apply diff_bit_nonneg].
  - split; [lia|]. assert (Ew : u64 (pre + 2) = pre + 2 - two64).
    { unfold u64, two64 in *. symmetry. apply (Z.mod_unique _ _ 1); lia. }
    assert (Hmax : MaxUint64 = two64 - 1) by reflexivity.
    unfold Bisect. rewrite Ew. destruct (Z.eqb_spec pre MaxUint64), (Z.eqb_spec post 0); cbn [andb].
    1: by destruct (Z.ltb_spec post (pre + 2 - two64)); [|lia].
    all: destruct (Z.ltb_spec post (pre + 2 - two64)); [lia|].
    all: destruct (_ =? post); eexists; (split; [reflexivity|lia]).
Qed.

Lemma Bisect_spec_witness :
  (exists m k,
    Bisect 3 14 = Ok m /\ 3 < m < 14 /\ 0 <= k /\ (2 ^ k | m) /\
    forall x, 3 < x < 14 -> (2 ^ k | x) -> x = m) /\
  exists m, Bisect (two64 - 1) 7 = Ok m /\ ~ two64 - 1 < m < 7.
Proof.
  split.
  - exact (Bisect_spec 3 14 ltac:(split; [lia|reflexivity]) ltac:(split; [lia|reflexivity])).
  - exact (proj2 (Bisect_spec (two64 - 1) 7 ltac:(split; [discriminate|reflexivity]) ltac:(split; [lia|reflexivity]))).
Defined.

(** Both halves of a bisected edge are edges again, and the interval shrinks. *)
Lemma Bisect_inside pre post m :
  is_u64 pre -> is_u64 post -> pre + 2 < two64 -> Bisect pre post = Ok m ->
  pre < m < post.
Proof.
  intros Hpre Hpost Hov Hb. destruct (Z.lt_ge_cases post (pre + 2)) as [Hlt|Hge].
  - unfold Bisect in Hb. rewrite u64_small in Hb by (unfold is_u64 in *; lia).
    destruct (Z.ltb_spec post (pre + 2)); [discriminate|lia].
  - rewrite Bisect_eq in Hb by done. injection Hb as <-.
    apply bisection_point_spec; unfold is_u64 in *; lia.
Qed.
