(* ===== verification/PrefixProofs.v ===== *)
(** * Merkle expansions and prefix proofs

    [state-commitments/prefix-proofs]: an expansion is the list of the roots of
    the complete subtrees of a growing tree, indexed by level, the zero word
    standing for an absent level. *)

From S2P Require Import Prelude Bits.

Section with_hasher.
Context `{Hasher}.

Definition MAX_LEVEL : Z := 64.

Definition ErrRootForEmpty : error := Sentinel "prefixproofs.ErrRootForEmpty".
Definition ErrExpansionTooLarge : error := Sentinel "prefixproofs.ErrExpansionTooLarge".
Definition ErrLevelTooHigh : error := Sentinel "prefixproofs.ErrLevelTooHigh".
Definition ErrTreeSize : error := Sentinel "prefixproofs.ErrTreeSize".
Definition ErrCannotAppendEmpty : error := Sentinel "prefixproofs.ErrCannotAppendEmpty".
Definition ErrCannotAppendAboveLeastSignificant : error :=
  Sentinel "prefixproofs.ErrCannotAppendAboveLeastSignificant".
Definition ErrStartNotLessThanEnd : error := Sentinel "prefixproofs.ErrStartNotLessThanEnd".
Definition ErrRootMismatch : error := Sentinel "prefixproofs.ErrRootMismatch".
Definition ErrIncompleteProof : error := Sentinel "prefixproofs.ErrIncompleteProof".
Definition ErrSizeNotLeqPostSize : error := Sentinel "prefixproofs.ErrSizeNotLeqPostSize".
Definition ErrIndexOutOfRange : error := Sentinel "prefixproofs.ErrIndexOutOfRange".

(** [len(s)] as an integer. *)
Definition len {A} (l : list A) : Z := Z.of_nat (length l).

(** [crypto.Keccak256Hash(a.Bytes(), b.Bytes())] and [crypto.Keccak256Hash(leaf[:])]. *)
Definition hash_node (a b : Hash) : Hash := Keccak256Hash [Word a; Word b].
Definition hash_leaf (a : Hash) : Hash := Keccak256Hash [Word a].

(** One iteration of the loop of [Root] at level [i] of [n]. *)
Definition root_step (n i : Z) (accum val : Hash) : Hash :=
  if accum =? zero_hash then
    if val =? zero_hash then accum
    else if i =? n - 1 then val
    else hash_node val zero_hash
  else if val =? zero_hash then hash_node accum zero_hash
  else hash_node val accum.

Fixpoint root_loop (n i : Z) (accum : Hash) (me : list Hash) : Hash :=
  match me with
  | [] => accum
  | val :: me' => root_loop n (i + 1) (root_step n i accum val) me'
  end.

Definition Root (me : list Hash) : res Hash :=
  if MAX_LEVEL <? len me then Err ErrExpansionTooLarge
  else if len me =? 0 then Err ErrRootForEmpty
  else Ok (root_loop (len me) 0 zero_hash me).

(** [math.Pow(2, float64(i))] is exact for the at most 64 levels of an expansion. *)
Fixpoint tree_size_loop (i sum : Z) (me : list Hash) : Z :=
  match me with
  | [] => sum
  | h :: me' => tree_size_loop (i + 1) (if h =? zero_hash then sum else u64 (sum + 2 ^ i)) me'
  end.

Definition TreeSize (me : list Hash) : Z := tree_size_loop 0 0 me.

(** The loop of [AppendCompleteSubTree] from level [i] on: the updated levels and
    the hash still to be propagated. *)
Fixpoint append_loop (level i : Z) (accumHash : Hash) (me : list Hash) : res (list Hash * Hash) :=
  match me with
  | [] => Ok ([], accumHash)
  | h :: me' =>
      if i <? level then
        if h =? zero_hash then
          '(next, acc) ← append_loop level (i + 1) accumHash me';
          Ok (zero_hash :: next, acc)
        else Err ErrCannotAppendAboveLeastSignificant
      else if accumHash =? zero_hash then
        '(next, acc) ← append_loop level (i + 1) accumHash me';
        Ok (h :: next, acc)
      else if h =? zero_hash then
        '(next, acc) ← append_loop level (i + 1) zero_hash me';
        Ok (accumHash :: next, acc)
      else
        '(next, acc) ← append_loop level (i + 1) (hash_node h accumHash) me';
        Ok (zero_hash :: next, acc)
  end.

Definition AppendCompleteSubTree (me : list Hash) (level : Z) (subtreeRoot : Hash)
    : res (list Hash) :=
  if MAX_LEVEL <=? level then Err ErrLevelTooHigh
  else if subtreeRoot =? zero_hash then Err ErrCannotAppendEmpty
  else if MAX_LEVEL <? len me then Err ErrExpansionTooLarge
  else if len me =? 0 then Ok (replicate (Z.to_nat level) zero_hash ++ [subtreeRoot])
  else if len me <=? level then Err (ErrWrap ErrLevelTooHigh "errored before for loop")
  else
    '(next, accumHash) ← append_loop level 0 subtreeRoot me;
    let next := if accumHash =? zero_hash then next else next ++ [accumHash] in
    if MAX_LEVEL + 1 <=? len next then Err ErrLevelTooHigh else Ok next.

Definition AppendLeaf (me : list Hash) (leaf : Hash) : res (list Hash) :=
  AppendCompleteSubTree me 0 (hash_leaf leaf).

(** The bits of [startSize] and [endSize] from the highest differing one down. *)
Definition MaximumAppendBetween (startSize endSize : Z) : res Z :=
  if endSize <=? startSize then Err (ErrWrap ErrStartNotLessThanEnd "start %d, end %d")
  else
    msb ← MostSignificantBit (Z.lxor startSize endSize);
    let mask := u64 (shl64 1 (msb + 1) - 1) in
    let y := Z.land startSize mask in
    let z := Z.land endSize mask in
    if negb (y =? 0) then LeastSignificantBit y
    else if negb (z =? 0) then MostSignificantBit z
    else Err (ErrWrap ErrCannotBeZero "y and z cannot both be 0").

(** ** Compact form *)

Fixpoint compact_loop (level : Z) (comp : list Hash) (size : Z) (me : list Hash)
    : list Hash * Z :=
  match me with
  | [] => (comp, size)
  | h :: me' =>
      if h =? zero_hash then compact_loop (level + 1) comp size me'
      else compact_loop (level + 1) (comp ++ [h]) (u64 (size + shl64 1 level)) me'
  end.

Definition Compact (me : list Hash) : list Hash * Z := compact_loop 0 [] 0 me.

(** The loop of [MerkleExpansionFromCompact]; [i <<= 1] wraps at 64 bits. *)
Fixpoint from_compact_loop (fuel : nat) (me comp : list Hash) (size numRead i : Z)
    : res (list Hash * Z) :=
  match fuel with
  | O => NoFuel
  | S fuel' =>
      if i <=? size then
        if negb (Z.land i size =? 0) then
          match comp with
          | [] => Panic SliceIndexOutOfRange
          | c :: comp' =>
              from_compact_loop fuel' (me ++ [c]) comp' size (u64 (numRead + 1)) (shl64 i 1)
          end
        else from_compact_loop fuel' (me ++ [zero_hash]) comp size numRead (shl64 i 1)
      else Ok (me, numRead)
  end.

(** At most 64 bits are scanned when the loop ends, and one test more stops it. *)
Definition MerkleExpansionFromCompact (comp : list Hash) (size : Z) : res (list Hash * Z) :=
  from_compact_loop 65 [] comp size 0 1.

(** ** Building expansions *)

Definition NewEmptyMerkleExpansion : list Hash := [].
Definition Clone (me : list Hash) : list Hash := [] ++ me.

Fixpoint expansion_loop (ret : list Hash) (leaves : list Hash) : res (list Hash) :=
  match leaves with
  | [] => Ok ret
  | leaf :: leaves' =>
      appended ← AppendLeaf ret leaf;
      expansion_loop appended leaves'
  end.

Definition ExpansionFromLeaves (leaves : list Hash) : res (list Hash) :=
  expansion_loop NewEmptyMerkleExpansion leaves.

(** [s[:n]] and [s[n:]] with their bounds checks. *)
Definition slice_to {A} (l : list A) (n : Z) : res (list A) :=
  if len l <? n then Panic SliceIndexOutOfRange else Ok (take (Z.to_nat n) l).
Definition slice_from {A} (l : list A) (n : Z) : res (list A) :=
  if len l <? n then Panic SliceIndexOutOfRange else Ok (drop (Z.to_nat n) l).

Definition RootFetcherFromExpansion (leaves : list Hash) (upTo : Z) : res Hash :=
  prefix ← slice_to leaves upTo;
  exp ← ExpansionFromLeaves prefix;
  Root exp.

(** ** Generating prefix proofs *)

(** The loop of [GeneratePrefixProof]: every iteration consumes a leaf, so the
    number of leaves bounds the iterations. *)
Fixpoint generate_loop (fuel : nat) (rootFetcher : list Hash -> Z -> res Hash)
    (proof leaves : list Hash) (height postHeight : Z) : res (list Hash) :=
  match fuel with
  | O => if height <? postHeight then NoFuel else Ok proof
  | S fuel' =>
      if height <? postHeight then
        firstDiffBit ← MostSignificantBit (Z.lxor height postHeight);
        let mask := u64 (shl64 1 (firstDiffBit + 1) - 1) in
        let yyy := Z.land height mask in
        let zzz := Z.land postHeight mask in
        if negb (yyy =? 0) then
          lowBit ← LeastSignificantBit yyy;
          let numLeaves := shl64 1 lowBit in
          root ← rootFetcher leaves numLeaves;
          leaves' ← slice_from leaves numLeaves;
          generate_loop fuel' rootFetcher (proof ++ [root]) leaves' (u64 (height + numLeaves)) postHeight
        else if negb (zzz =? 0) then
          highBit ← MostSignificantBit zzz;
          let numLeaves := shl64 1 highBit in
          root ← rootFetcher leaves numLeaves;
          leaves' ← slice_from leaves numLeaves;
          generate_loop fuel' rootFetcher (proof ++ [root]) leaves' (u64 (height + numLeaves)) postHeight
        else generate_loop fuel' rootFetcher proof leaves height postHeight
      else Ok proof
  end.

Definition GeneratePrefixProof (prefixHeight : Z) (prefixExpansion leaves : list Hash)
    (rootFetcher : list Hash -> Z -> res Hash) : res (list Hash) :=
  if prefixHeight =? 0 then Err (ErrWrap ErrCannotBeZero "prefixHeight was 0")
  else if len leaves =? 0 then Err (ErrWrap ErrCannotBeZero "length of leaves was 0")
  else
    let postHeight := u64 (prefixHeight + len leaves) in
    if postHeight <=? prefixHeight then
      Err (ErrWrap ErrStartNotLessThanEnd "preheight %d >= postheight %d")
    else
      generate_loop (length leaves) rootFetcher (fst (Compact prefixExpansion)) leaves
        prefixHeight postHeight.

(** ** Verifying prefix proofs *)

Record VerifyPrefixProofConfig := {
  PreRoot : Hash;
  PreSize : Z;
  PostRoot : Hash;
  PostSize : Z;
  PreExpansion : list Hash;
  PrefixProof : list Hash;
}.

(** The loop of [VerifyPrefixProof]: every iteration consumes an element of the
    proof, so one iteration more than its length bounds it. *)
Fixpoint verify_loop (fuel : nat) (proof : list Hash) (postSize : Z)
    (exp : list Hash) (size proofIndex : Z) : res (list Hash * Z) :=
  match fuel with
  | O => NoFuel
  | S fuel' =>
      if size <? postSize then
        level ← MaximumAppendBetween size postSize;
        match proof !! Z.to_nat proofIndex with
        | None => Err ErrIndexOutOfRange
        | Some p =>
            exp' ← AppendCompleteSubTree exp level p;
            let size' := u64 (size + shl64 1 level) in
            if postSize <? size' then
              Err (ErrWrap ErrSizeNotLeqPostSize "size %d > postsize %d")
            else verify_loop fuel' proof postSize exp' size' (u64 (proofIndex + 1))
        end
      else Ok (exp, proofIndex)
  end.

Definition VerifyPrefixProof (cfg : VerifyPrefixProofConfig) : res unit :=
  if PreSize cfg =? 0 then Err (ErrWrap ErrCannotBeZero "presize was 0")
  else
    root ← wrap_err "pre expansion root error" (Root (PreExpansion cfg));
    if negb (root =? PreRoot cfg) then Err (ErrWrap ErrRootMismatch "pre expansion root mismatch")
    else if negb (PreSize cfg =? TreeSize (PreExpansion cfg)) then
      Err (ErrWrap ErrTreeSize "pre expansion tree size")
    else if PostSize cfg <=? PreSize cfg then
      Err (ErrWrap ErrStartNotLessThanEnd "presize %d >= postsize %d")
    else
      '(exp, proofIndex) ← verify_loop (S (length (PrefixProof cfg))) (PrefixProof cfg)
        (PostSize cfg) (PreExpansion cfg) (PreSize cfg) 0;
      gotRoot ← wrap_err "post root error" (Root exp);
      if negb (gotRoot =? PostRoot cfg) then
        Err (ErrWrap ErrRootMismatch "post expansion root mismatch got %#x, wanted %#x")
      else if negb (proofIndex =? len (PrefixProof cfg)) then
        Err (ErrWrap ErrIncompleteProof "proof index %d, proof length %d")
      else Ok tt.

End with_hasher.
