(* ===== verification/Containers.v ===== *)
(** * Containers

    [containers]: the in-place reversal of a slice and the lock-protected map, set
    and slice.  Every method of a thread-safe container holds its lock from its
    first to its last access, so a method is one atomic function of the contents. *)

From S2P Require Import Prelude Bits PrefixProofs.

(** ** [containers.Reverse] *)

(** [s[i], s[j] = s[j], s[i]] *)
Definition swap {A} (s : list A) (i j : nat) : list A :=
  match s !! i, s !! j with
  | Some x, Some y => <[j := x]> (<[i := y]> s)
  | _, _ => s
  end.

(** The loop with [j = len - 1 - i] kept as a second index. *)
Fixpoint reverse_loop {A} (fuel : nat) (s : list A) (i j : Z) : list A :=
  match fuel with
  | O => s
  | S fuel' =>
      if i <? j then reverse_loop fuel' (swap s (Z.to_nat i) (Z.to_nat j)) (i + 1) (j - 1) else s
  end.

Definition Reverse {A} (s : list A) : list A := reverse_loop (length s) s 0 (len s - 1).

(** ** [threadsafe.Map] *)

Module Map.
Section map.
Context {K V : Type} `{Countable K}.

Definition NewMap : gmap K V := ∅.
Definition NewMapFromItems (m : gmap K V) : gmap K V := m.
Definition IsEmpty (s : gmap K V) : bool := bool_decide (size s = 0%nat).
Definition Put (k : K) (v : V) (s : gmap K V) : gmap K V := <[k := v]> s.
Definition Has (k : K) (s : gmap K V) : bool := bool_decide (is_Some (s !! k)).
Definition NumItems (s : gmap K V) : Z := Z.of_nat (size s).
Definition TryGet (k : K) (s : gmap K V) : option V := s !! k.
(** A missing key gives the zero value of the value type. *)
Definition Get (zero : V) (k : K) (s : gmap K V) : V := default zero (s !! k).
Definition Delete (k : K) (s : gmap K V) : gmap K V := delete k s.

(** Go iterates over a map in an unspecified order: [order] is the list of entries
    in the order of the iteration. *)
Fixpoint ForEach {W} (fn : K -> V -> M W unit) (order : list (K * V)) : M W unit :=
  match order with
  | [] => mret tt
  | (k, v) :: order' => fn k v ;; ForEach fn order'
  end.
End map.
End Map.

(** ** [threadsafe.Set]: a map to booleans, always true *)

Module Set_.
Section set.
Context {T : Type} `{Countable T}.

Definition NewSet : gmap T bool := ∅.
Definition Insert (t : T) (s : gmap T bool) : gmap T bool := <[t := true]> s.
Definition NumItems (s : gmap T bool) : Z := Z.of_nat (size s).
Definition Has (t : T) (s : gmap T bool) : bool := default false (s !! t).
Definition Delete (t : T) (s : gmap T bool) : gmap T bool := delete t s.
End set.
End Set_.

(** ** [threadsafe.Slice] *)

Module Slice.
Section slice.
Context {V : Type}.

Definition NewSlice : list V := [].
Definition Push (v : V) (s : list V) : list V := s ++ [v].
(** A negative index passes the length check and panics on the access. *)
Definition Get (i : Z) (s : list V) : res (option V) :=
  if len s <=? i then Ok None
  else if i <? 0 then Panic SliceIndexOutOfRange
  else Ok (s !! Z.to_nat i).
Definition Len (s : list V) : Z := len s.
Fixpoint find_from (fn : Z -> V -> bool) (ii : Z) (s : list V) : bool :=
  match s with
  | [] => false
  | vv :: s' => if fn ii vv then true else find_from fn (ii + 1) s'
  end.
Definition Find (fn : Z -> V -> bool) (s : list V) : bool := find_from fn 0 s.
End slice.
End Slice.

(** ** Reversal *)

Lemma insert_middle {A} (l r : list A) x y : <[length l := y]> (l ++ x :: r) = l ++ y :: r.
Proof. rewrite <- (Nat.add_0_r (length l)) at 1. by rewrite insert_app_r. Qed.

Lemma swap_middle {A} (l r m : list A) x y :
  swap (l ++ x :: m ++ y :: r) (length l) (length l + S (length m)) = l ++ y :: m ++ x :: r.
Proof.
  assert (E : l ++ x :: m ++ y :: r = (l ++ x :: m) ++ y :: r) by (by rewrite <- app_assoc).
  assert (El : (length l + S (length m))%nat = length (l ++ x :: m)) by (by rewrite length_app).
  unfold swap. rewrite list_lookup_middle by done.
  rewrite E, El, list_lookup_middle by done. rewrite <- E, insert_middle.
  replace (l ++ y :: m ++ y :: r) with ((l ++ y :: m) ++ y :: r) by (by rewrite <- app_assoc).
  replace (length (l ++ x :: m)) with (length (l ++ y :: m)) by (rewrite !length_app; done).
  by rewrite insert_middle, <- app_assoc.
Qed.

(** Reversing the part of the slice between the two indices. *)
Lemma reverse_loop_spec {A} (mid : list A) : forall fuel l r,
  (length mid <= fuel)%nat ->
  reverse_loop fuel (l ++ mid ++ r) (len l) (len l + len mid - 1) = l ++ reverse mid ++ r.
Proof.
  remember (length mid) as n eqn:En. revert mid En.
  induction n as [n IH] using lt_wf_ind. intros mid -> fuel l r Hf.
  destruct mid as [|x mid].
  { destruct fuel; cbn [reverse_loop]; [done|].
    by rewrite (proj2 (Z.ltb_ge _ _)) by (unfold len; simpl; lia). }
  destruct fuel as [|fuel]; [simpl in Hf; lia|]. cbn [reverse_loop].
  destruct (decide (mid = [])) as [->|Hne].
  { by rewrite (proj2 (Z.ltb_ge _ _)) by (unfold len; simpl; lia). }
  destruct (exists_last Hne) as (m & y & ->).
  assert (El : len (x :: m ++ [y]) = len m + 2) by (unfold len; simpl; rewrite length_app; simpl; lia).
  rewrite El. destruct (Z.ltb_spec (len l) (len l + (len m + 2) - 1)) as [_|Hc];
    [|unfold len in *; lia].
  replace (Z.to_nat (len l)) with (length l) by (unfold len; lia).
  replace (Z.to_nat (len l + (len m + 2) - 1)) with (length l + S (length m))%nat by (unfold len; lia).
  replace (l ++ (x :: m ++ [y]) ++ r) with (l ++ x :: m ++ y :: r) by (simpl; by rewrite <- app_assoc).
  rewrite swap_middle.
  replace (l ++ y :: m ++ x :: r) with ((l ++ [y]) ++ m ++ (x :: r)) by (by rewrite <- app_assoc).
  replace (len l + 1) with (len (l ++ [y])) by (unfold len; rewrite length_app; simpl; lia).
  replace (len l + (len m + 2) - 1 - 1) with (len (l ++ [y]) + len m - 1)
    by (unfold len; rewrite length_app; simpl; lia).
  rewrite (IH (length m)); [|simpl; rewrite length_app; simpl; lia|done|simpl in Hf; rewrite length_app in Hf; simpl in Hf; lia].
  rewrite reverse_cons, reverse_snoc. simpl. by rewrite <- !app_assoc.
Qed.

(** [Reverse] reverses: the swapping loop with two indices that meet in the
    middle gives the mirrored list, for slices of any length. *)
Lemma Reverse_reverse {A} (s : list A) : Reverse s = reverse s.
Proof.
  unfold Reverse. pose proof (reverse_loop_spec s (length s) [] []) as E.
  rewrite !app_nil_r in E. cbn [app] in E. replace (len s - 1) with (len (@nil A) + len s - 1) by (unfold len; simpl; lia).
  by apply E.
Qed.
