(* ===== verification/Fsm.v ===== *)
(** * The generic finite state machine

    [containers/fsm]: a transition table keyed by the printed names of events and
    states, the current state, and an optional log of executed transitions. *)

From S2P Require Import Prelude Bits PrefixProofs.

(** [fmt.Stringer]. *)
Class Stringer (A : Type) := to_string : A -> string.

Definition ErrFsmInvalidTransition : error := Sentinel "fsm.ErrFsmInvalidTransition".
Definition ErrFsmEventNotFound : error := Sentinel "fsm.ErrFsmEventNotFound".

Record Event (E T : Type) := { Typ : E; From : list T; To : T }.
Arguments Typ {E T} _.
Arguments From {E T} _.
Arguments To {E T} _.

(** [None] is the zero value the machine starts with. *)
Record CurrentState (E T : Type) := { SourceEvent : option E; State : T }.
Arguments SourceEvent {E T} _.
Arguments State {E T} _.

Record transitionMade (E T : Type) := { MadeFrom : T; MadeTo : T; MadeEvent : E }.
Arguments MadeFrom {E T} _.
Arguments MadeTo {E T} _.
Arguments MadeEvent {E T} _.

Record Fsm (E T : Type) := {
  trackingTransitions : bool;
  transitionsExecuted : list (transitionMade E T);
  curr : CurrentState E T;
  validEvents : gset string;
  validStates : gset string;
  validTransitions : gmap (string * string) T;
}.
Arguments trackingTransitions {E T} _.
Arguments transitionsExecuted {E T} _.
Arguments curr {E T} _.
Arguments validEvents {E T} _.
Arguments validStates {E T} _.
Arguments validTransitions {E T} _.

Section fsm.
Context {E T : Type} `{Stringer E} `{Stringer T}.

Definition WithTrackedTransitions (f : Fsm E T) : Fsm E T := {|
  trackingTransitions := true;
  transitionsExecuted := transitionsExecuted f;
  curr := curr f;
  validEvents := validEvents f;
  validStates := validStates f;
  validTransitions := validTransitions f;
|}.

(** The loops of [New] over the table and the source states of an event. *)
Definition add_froms (typ : E) (to : T) (froms : list T)
    (acc : gmap (string * string) T * gset string) : gmap (string * string) T * gset string :=
  fold_left (fun '(trans, states) from =>
    (<[(to_string typ, to_string from) := to]> trans, {[to_string from]} ∪ states)) froms acc.

Definition add_events (table : list (Event E T))
    (acc : gmap (string * string) T * gset string * gset string) :=
  fold_left (fun '(trans, states, events) ev =>
    (add_froms (Typ ev) (To ev) (From ev) (trans, states), {[to_string (Typ ev)]} ∪ events)) table acc.

Definition New (startState : T) (transitionTable : list (Event E T))
    (opts : list (Fsm E T -> Fsm E T)) : Fsm E T :=
  let f := fold_left (fun f opt => opt f) opts {|
    trackingTransitions := false; transitionsExecuted := [];
    curr := {| SourceEvent := None; State := startState |};
    validEvents := ∅; validStates := ∅; validTransitions := ∅ |} in
  let '(trans, states, events) := add_events transitionTable (∅, ∅, ∅) in
  {| trackingTransitions := trackingTransitions f;
     transitionsExecuted := transitionsExecuted f;
     curr := curr f;
     validEvents := events; validStates := states; validTransitions := trans |}.

Definition CanTransition (f : Fsm E T) (event : E) : bool :=
  bool_decide (is_Some (validTransitions f !! (to_string event, to_string (State (curr f))))).

(** The search for a transition of the event from another state. *)
Definition event_known (f : Fsm E T) (event : E) : bool :=
  existsb (fun '((eventType, _), _) => bool_decide (eventType = to_string event))
    (map_to_list (validTransitions f)).

Definition Do (f : Fsm E T) (event : E) : res unit * Fsm E T :=
  let src := State (curr f) in
  match validTransitions f !! (to_string event, to_string src) with
  | None =>
      if event_known f event
      then (Err (ErrWrap ErrFsmInvalidTransition "source: %s, event %s"), f)
      else (Err (ErrWrap ErrFsmEventNotFound "event: %s"), f)
  | Some to =>
      (Ok tt, {|
        trackingTransitions := trackingTransitions f;
        transitionsExecuted :=
          if trackingTransitions f
          then transitionsExecuted f ++ [{| MadeFrom := src; MadeTo := to; MadeEvent := event |}]
          else transitionsExecuted f;
        curr := {| SourceEvent := Some event; State := to |};
        validEvents := validEvents f; validStates := validStates f;
        validTransitions := validTransitions f |})
  end.

Definition Current (f : Fsm E T) : CurrentState E T := curr f.

(** ** The transition relation of a table *)

Lemma add_froms_lookup typ to froms acc k src :
  (add_froms typ to froms acc).1 !! (k, src) =
    if bool_decide (to_string typ = k /\ src ∈ to_string <$> froms) then Some to else acc.1 !! (k, src).
Proof.
  revert acc. induction froms as [|from froms IH]; intros [trans states]; cbn.
  { rewrite bool_decide_false; [done|]. by intros [_ ?%not_elem_of_nil]. }
  unfold add_froms in IH. rewrite IH. cbn [fst].
  destruct (decide (to_string typ = k)) as [<-|Hk].
  - destruct (decide (src ∈ to_string <$> froms)).
    { by rewrite !bool_decide_true by (rewrite ?elem_of_cons; tauto). }
    rewrite (bool_decide_false (_ /\ src ∈ to_string <$> froms)) by tauto.
    destruct (decide (src = to_string from)) as [->|].
    + rewrite lookup_insert_eq, bool_decide_true by (rewrite elem_of_cons; tauto). done.
    + rewrite lookup_insert_ne by congruence. rewrite bool_decide_false; [done|].
      rewrite elem_of_cons. tauto.
  - rewrite !bool_decide_false by tauto. by rewrite lookup_insert_ne by congruence.
Qed.

(** The transition from a state on an event: the last entry of the table wins. *)
Fixpoint table_step (table : list (Event E T)) (k src : string) : option T :=
  match table with
  | [] => None
  | ev :: table' =>
      match table_step table' k src with
      | Some t => Some t
      | None => if bool_decide (to_string (Typ ev) = k /\ src ∈ to_string <$> From ev)
                then Some (To ev) else None
      end
  end.

Lemma add_events_lookup table acc k src :
  (add_events table acc).1.1 !! (k, src) =
    match table_step table k src with Some t => Some t | None => acc.1.1 !! (k, src) end.
Proof.
  revert acc. induction table as [|ev table IH]; intros [[trans states] events]; [done|].
  cbn. unfold add_events in IH. rewrite IH. cbn [fst].
  destruct (table_step table k src); [done|].
  pose proof (add_froms_lookup (Typ ev) (To ev) (From ev) (trans, states) k src) as L.
  destruct (add_froms (Typ ev) (To ev) (From ev) (trans, states)) as [tr st]. cbn in *.
  rewrite L. by case_bool_decide.
Qed.

Lemma New_transitions start table opts k src :
  validTransitions (New start table opts) !! (k, src) = table_step table k src.
Proof.
  unfold New. pose proof (add_events_lookup table (∅, ∅, ∅) k src) as L.
  destruct (add_events table (∅, ∅, ∅)) as [[tr st] ev]. cbn in *. rewrite L.
  rewrite lookup_empty. by destruct (table_step table k src).
Qed.

(** The machine has the transitions of a table. *)
Definition has_table (f : Fsm E T) (table : list (Event E T)) : Prop :=
  forall k src, validTransitions f !! (k, src) = table_step table k src.

Lemma Do_has_table f table event : has_table f table -> has_table (Do f event).2 table.
Proof. intros Hf. unfold Do. repeat case_match; done. Qed.

Lemma event_known_spec f event :
  event_known f event = true <-> exists src, is_Some (validTransitions f !! (to_string event, src)).
Proof.
  unfold event_known. rewrite existsb_exists. split.
  - intros ([[k src] t] & Hin & ->%bool_decide_eq_true). exists src, t.
    by apply elem_of_map_to_list, list_elem_of_In.
  - intros (src & t & Ht). exists ((to_string event, src), t).
    split; [by apply list_elem_of_In, elem_of_map_to_list|]. by apply bool_decide_eq_true.
Qed.

(** [Do] follows the table: on a machine with a given table it moves to the
    target the table gives for the event and current state, and otherwise leaves
    the whole machine as it was and reports whether the event is unknown or only
    invalid in this state; [CanTransition] predicts which case applies. *)
Theorem Do_follows_table f table event :
  has_table f table ->
  match table_step table (to_string event) (to_string (State (Current f))) with
  | Some to =>
      CanTransition f event = true /\ (Do f event).1 = Ok tt /\
      Current (Do f event).2 = {| SourceEvent := Some event; State := to |}
  | None =>
      CanTransition f event = false /\ (Do f event).2 = f /\
      ((exists src, is_Some (table_step table (to_string event) src)) ->
         (Do f event).1 = Err (ErrWrap ErrFsmInvalidTransition "source: %s, event %s")) /\
      ((forall src, table_step table (to_string event) src = None) ->
         (Do f event).1 = Err (ErrWrap ErrFsmEventNotFound "event: %s"))
  end.
Proof.
  intros Hf. unfold CanTransition, Current, Do. rewrite Hf.
  destruct (table_step table (to_string event) (to_string (State (curr f)))) as [to|] eqn:Et.
  { split_and!; [by apply bool_decide_eq_true|done|done]. }
  pose proof (event_known_spec f event) as Hk. split_and!.
  - apply bool_decide_eq_false. by intros [? ?].
  - by destruct (event_known f event).
  - intros [src Hs]. rewrite (proj2 Hk); [done|]. exists src. by rewrite Hf.
  - intros Hn. destruct (event_known f event) eqn:Ek; [|done].
    destruct (proj1 Hk eq_refl) as [src Hs]. rewrite Hf, Hn in Hs. by destruct Hs.
Qed.

(** ** The log of executed transitions *)

Fixpoint run (f : Fsm E T) (events : list E) : Fsm E T :=
  match events with
  | [] => f
  | event :: events' => run (Do f event).2 events'
  end.

(** A log that leads from one state to another by transitions of the table. *)
Inductive log_path (table : list (Event E T)) (start : T) : list (transitionMade E T) -> T -> Prop :=
| log_start : log_path table start [] start
| log_step log src event to :
    log_path table start log src ->
    table_step table (to_string event) (to_string src) = Some to ->
    log_path table start (log ++ [{| MadeFrom := src; MadeTo := to; MadeEvent := event |}]) to.

(** The log is the machine's history: after any sequence of events, valid or
    not, on a machine created with tracking, the logged transitions form a path of
    the table from the start state to the current state. *)
Theorem run_log_path start table events :
  log_path table start
    (transitionsExecuted (run (New start table [WithTrackedTransitions]) events))
    (State (Current (run (New start table [WithTrackedTransitions]) events))).
Proof.
  assert (Hinv : forall f, has_table f table -> trackingTransitions f = true ->
    log_path table start (transitionsExecuted f) (State (curr f)) ->
    log_path table start (transitionsExecuted (run f events)) (State (curr (run f events)))).
  { induction events as [|event events IH]; intros f Hf Ht Hp; cbn [run]; [done|].
    pose proof (Do_has_table f table event Hf) as Hf'.
    apply IH; [done| |]; unfold Do in *.
    - by repeat case_match.
    - destruct (validTransitions f !! (to_string event, to_string (State (curr f)))) as [to|] eqn:El.
      + cbn. rewrite Ht. apply log_step; [done|]. by rewrite <- Hf.
      + by destruct (event_known f event). }
  apply Hinv.
  - intros k src. apply New_transitions.
  - unfold New. by destruct (add_events table (∅, ∅, ∅)) as [[? ?] ?].
  - unfold New. destruct (add_events table (∅, ∅, ∅)) as [[? ?] ?]. cbn. apply log_start.
Qed.

End fsm.

(** ** Witness: the door of the package documentation *)

Inductive doorEvent := Open | Close.
Inductive doorState := Opened | Closed.
#[local] Instance doorEvent_string : Stringer doorEvent :=
  fun e => match e with Open => "open" | Close => "close" end.
#[local] Instance doorState_string : Stringer doorState :=
  fun s => match s with Opened => "opened" | Closed => "closed" end.

Definition door_table : list (Event doorEvent doorState) :=
  [{| Typ := Open; From := [Closed]; To := Opened |}; {| Typ := Close; From := [Opened]; To := Closed |}].

Lemma Do_follows_table_witness :
  CanTransition (New Closed door_table []) Open = true /\
  (Do (New Closed door_table []) Open).1 = Ok tt /\
  Current (Do (New Closed door_table []) Open).2 = {| SourceEvent := Some Open; State := Opened |}.
Proof.
  pose proof (Do_follows_table (New Closed door_table []) door_table Open) as Hd.
  assert (E : table_step door_table (to_string Open)
    (to_string (State (Current (New Closed door_table [])))) = Some Opened) by (vm_compute; reflexivity).
  rewrite E in Hd. apply Hd. intros k src. apply New_transitions.
Defined.
