(* ===== verification/MerkleSpec.v ===== *)
(** * What an expansion represents

    The reference view of a growing Merkle tree: the list of its leaf hashes.  A
    layer of nodes is paired up into the next layer; an expansion records, for
    each layer, the node that has no partner yet.  The lemmas show that the loops
    of the prefix-proof package compute this view. *)

From S2P Require Import Prelude Bits PrefixProofs.

Section spec.
Context `{Hasher}.

(** The nodes of the next layer that are complete. *)
Fixpoint pairup (ns : list Hash) : list Hash :=
  match ns with
  | x :: y :: ns' => hash_node x y :: pairup ns'
  | _ => []
  end.

(** The node of a layer that has no partner, the zero word when there is none. *)
Fixpoint odd_last (ns : list Hash) : Hash :=
  match ns with
  | [] => zero_hash
  | [x] => x
  | _ :: _ :: ns' => odd_last ns'
  end.

(** The next layer when a node without partner is completed with the zero word. *)
Fixpoint padlayer (ns : list Hash) : list Hash :=
  match ns with
  | [] => []
  | [x] => [hash_node x zero_hash]
  | x :: y :: ns' => hash_node x y :: padlayer ns'
  end.

Fixpoint expansion_fuel (fuel : nat) (ns : list Hash) : list Hash :=
  match fuel, ns with
  | S f, _ :: _ => odd_last ns :: expansion_fuel f (pairup ns)
  | _, _ => []
  end.

(** The expansion of a tree with the given leaf hashes. *)
Definition expansion_of (ns : list Hash) : list Hash := expansion_fuel (length ns) ns.

Fixpoint merkle_fuel (fuel : nat) (ns : list Hash) : Hash :=
  match fuel, ns with
  | _, [] => zero_hash
  | _, [x] => x
  | S f, _ => merkle_fuel f (padlayer ns)
  | O, _ => zero_hash
  end.

(** The Merkle root of the leaf hashes, incomplete subtrees completed by zeros. *)
Definition merkle (ns : list Hash) : Hash := merkle_fuel (length ns) ns.

(** ** Layers *)

Lemma pair_ind (P : list Hash -> Prop) :
  P [] -> (forall x, P [x]) -> (forall x y l, P l -> P (x :: y :: l)) -> forall l, P l.
Proof.
  intros H0 H1 H2. fix IH 1. intros [|x [|y l]]; [done|done|]. apply H2, IH.
Qed.

Lemma length_pairup ns : length (pairup ns) = Nat.div2 (length ns).
Proof. induction ns as [| |x y l IH] using pair_ind; simpl; congruence. Qed.

Lemma length_padlayer ns : length (padlayer ns) = Nat.div2 (S (length ns)).
Proof.
  induction ns as [| |x y l IH] using pair_ind; [done|done|].
  cbn [padlayer length]. by rewrite IH.
Qed.

Lemma pairup_snoc ns x :
  pairup (ns ++ [x]) =
    if Nat.even (length ns) then pairup ns else pairup ns ++ [hash_node (odd_last ns) x].
Proof.
  induction ns as [|y|y z l IH] using pair_ind; simpl; [done|done|].
  rewrite IH. by destruct (Nat.even (length l)).
Qed.

Lemma odd_last_snoc ns x :
  odd_last (ns ++ [x]) = if Nat.even (length ns) then x else zero_hash.
Proof. induction ns as [|y|y z l IH] using pair_ind; simpl; done. Qed.

Lemma odd_last_even ns : Nat.even (length ns) = true -> odd_last ns = zero_hash.
Proof. induction ns as [|y|y z l IH] using pair_ind; simpl; done || auto. Qed.

Lemma padlayer_pairup ns :
  padlayer ns =
    if Nat.even (length ns) then pairup ns else pairup ns ++ [hash_node (odd_last ns) zero_hash].
Proof.
  induction ns as [|y|y z l IH] using pair_ind; simpl; [done|done|].
  rewrite IH. by destruct (Nat.even (length l)).
Qed.

Lemma pairup_app ns ys :
  Nat.even (length ns) = true -> pairup (ns ++ ys) = pairup ns ++ pairup ys.
Proof. induction ns as [|y|y z l IH] using pair_ind; simpl; [done|done|]. intros. by rewrite IH. Qed.

Lemma padlayer_app ns ys :
  Nat.even (length ns) = true -> padlayer (ns ++ ys) = pairup ns ++ padlayer ys.
Proof. induction ns as [|y|y z l IH] using pair_ind; simpl; [done|done|]. intros. by rewrite IH. Qed.

Lemma odd_last_app ns ys :
  Nat.even (length ns) = true -> odd_last (ns ++ ys) = odd_last ys.
Proof. induction ns as [|y|y z l IH] using pair_ind; simpl; [done|done|]. intros. by rewrite IH. Qed.

(** Nodes that are never the zero word. *)
Definition nonzero (ns : list Hash) : Prop := Forall (fun h => h <> zero_hash) ns.

Lemma odd_last_odd ns :
  nonzero ns -> Nat.even (length ns) = false -> odd_last ns <> zero_hash.
Proof.
  induction ns as [|y|y z l IH] using pair_ind; simpl; [done| |].
  - intros Hn _. by inversion Hn.
  - intros Hn He. inversion Hn as [|? ? _ Hn']; inversion Hn'; subst. auto.
Qed.

Lemma nonzero_pairup `{!HasherNonzero} ns : nonzero (pairup ns).
Proof.
  induction ns as [|y|y z l IH] using pair_ind; simpl; constructor; [|done].
  apply keccak_nonzero.
Qed.

Lemma nonzero_padlayer `{!HasherNonzero} ns : nonzero (padlayer ns).
Proof.
  induction ns as [|y|y z l IH] using pair_ind; simpl; repeat constructor; try done;
    apply keccak_nonzero.
Qed.

(** ** Unfolding the fuelled definitions *)

Lemma div2_lt n : (0 < n)%nat -> (Nat.div2 n < n)%nat.
Proof. apply Nat.lt_div2. Qed.

Lemma expansion_fuel_enough f g ns :
  (length ns <= f)%nat -> (length ns <= g)%nat -> expansion_fuel f ns = expansion_fuel g ns.
Proof.
  revert g ns. induction f as [|f IH]; intros g ns Hf Hg.
  - destruct ns; simpl in *; [|lia]. by destruct g.
  - destruct g as [|g]; destruct ns as [|x ns]; try done; simpl in Hg; [lia|].
    cbn [expansion_fuel]. f_equal.
    pose proof (length_pairup (x :: ns)) as E.
    pose proof (div2_lt (length (x :: ns)) ltac:(simpl; lia)).
    cbn [length] in *. apply IH; lia.
Qed.

Lemma expansion_of_unfold ns :
  expansion_of ns = match ns with [] => [] | _ => odd_last ns :: expansion_of (pairup ns) end.
Proof.
  destruct ns as [|x ns]; [done|]. unfold expansion_of at 1. cbn [expansion_fuel length].
  f_equal. pose proof (length_pairup (x :: ns)) as E.
  pose proof (div2_lt (length (x :: ns)) ltac:(simpl; lia)).
  cbn [length] in *. apply expansion_fuel_enough; lia.
Qed.

Lemma expansion_of_nonempty ns :
  ns <> [] -> expansion_of ns = odd_last ns :: expansion_of (pairup ns).
Proof. intros Hn. rewrite expansion_of_unfold. by destruct ns. Qed.

Lemma length_padlayer_lt x y ns : (length (padlayer (x :: y :: ns)) <= S (length ns))%nat.
Proof.
  rewrite length_padlayer. cbn [length].
  change (Nat.div2 (S (S (S (length ns))))) with (S (Nat.div2 (S (length ns)))).
  pose proof (Nat.div2_decr (S (length ns)) (length ns) ltac:(lia)). lia.
Qed.

Lemma merkle_fuel_enough f g ns :
  (length ns <= f)%nat -> (length ns <= g)%nat -> merkle_fuel f ns = merkle_fuel g ns.
Proof.
  revert g ns. induction f as [|f IH]; intros g ns Hf Hg.
  - destruct ns; simpl in *; [|lia]. by destruct g.
  - destruct g as [|g]; destruct ns as [|x [|y ns]]; try done; simpl in Hg; [lia|].
    change (merkle_fuel f (padlayer (x :: y :: ns)) = merkle_fuel g (padlayer (x :: y :: ns))).
    pose proof (length_padlayer_lt x y ns). cbn [length] in *. apply IH; lia.
Qed.

Lemma merkle_step x y ns :
  merkle (x :: y :: ns) = merkle (padlayer (x :: y :: ns)).
Proof.
  change (merkle (x :: y :: ns)) with (merkle_fuel (S (length ns)) (padlayer (x :: y :: ns))).
  apply merkle_fuel_enough; [apply length_padlayer_lt|done].
Qed.

(** Induction along the layers of a tree. *)
Lemma layer_ind (P : list Hash -> Prop) :
  P [] -> (forall ns, ns <> [] -> P (pairup ns) -> P ns) -> forall ns, P ns.
Proof.
  intros H0 HS ns. induction (length ns) as [n IH] eqn:En using (well_founded_induction lt_wf) in ns |- *.
  destruct ns as [|x ns]; [done|]. apply HS; [done|].
  eapply IH; [|done]. rewrite length_pairup, <- En. apply div2_lt. simpl. lia.
Qed.
(** ** Appending a subtree *)

Lemma append_loop_zero level i me :
  level <= i -> append_loop level i zero_hash me = Ok (me, zero_hash).
Proof.
  revert i. induction me as [|h me IH]; intros i Hi; simpl; [done|].
  destruct (Z.ltb_spec i level); [lia|]. by rewrite IH by lia.
Qed.

(** What [AppendCompleteSubTree] makes of the result of its loop. *)
Definition carry_out (r : list Hash * Hash) : list Hash :=
  let '(next, acc) := r in if acc =? zero_hash then next else next ++ [acc].

Lemma eqb_zero_false h : h <> zero_hash -> (h =? zero_hash) = false.
Proof. apply Z.eqb_neq. Qed.

Lemma append_loop_spec `{!HasherNonzero} level ns : forall i x,
  nonzero ns -> x <> zero_hash -> level <= i ->
  exists r, append_loop level i x (expansion_of ns) = Ok r /\
    carry_out r = expansion_of (ns ++ [x]).
Proof.
  induction ns as [|ns Hne IH] using layer_ind; intros i x Hns Hx Hi.
  { exists ([], x). simpl. by rewrite eqb_zero_false. }
  rewrite expansion_of_nonempty by done. cbn [append_loop].
  destruct (Z.ltb_spec i level); [lia|]. rewrite eqb_zero_false by done.
  rewrite (expansion_of_nonempty (ns ++ [x])) by (by destruct ns).
  rewrite odd_last_snoc, pairup_snoc.
  destruct (Nat.even (length ns)) eqn:He.
  - rewrite odd_last_even by done. change (zero_hash =? zero_hash) with true. cbn iota.
    rewrite append_loop_zero by lia. eexists; split; [reflexivity|]. done.
  - rewrite eqb_zero_false by (by apply odd_last_odd).
    destruct (IH (i + 1) (hash_node (odd_last ns) x)) as ([next acc] & E & C);
      [apply nonzero_pairup|apply keccak_nonzero|lia|].
    rewrite E. eexists; split; [reflexivity|]. simpl in *. rewrite <- C. by destruct (acc =? zero_hash).
Qed.

(** [k] layers up. *)
Fixpoint layers_up (k : nat) (ns : list Hash) : list Hash :=
  match k with
  | O => ns
  | S k' => layers_up k' (pairup ns)
  end.

(** A list of nodes made of complete subtrees of level [k] only. *)
Definition full_at (k : nat) (ns : list Hash) : Prop :=
  exists m, length ns = (m * 2 ^ k)%nat.

Lemma full_at_even k ns : full_at (S k) ns -> Nat.even (length ns) = true.
Proof.
  intros [m ->]. rewrite Nat.pow_succ_r', Nat.mul_assoc, (Nat.mul_comm m 2), <- Nat.mul_assoc.
  apply Nat.even_even.
Qed.

Lemma full_at_pairup k ns : full_at (S k) ns -> full_at k (pairup ns).
Proof.
  intros [m E]. exists m. rewrite length_pairup, E, Nat.pow_succ_r', Nat.mul_assoc,
    (Nat.mul_comm m 2), <- Nat.mul_assoc. apply Nat.div2_double.
Qed.

Lemma pairup_nonempty ns : Nat.even (length ns) = true -> ns <> [] -> pairup ns <> [].
Proof. by destruct ns as [|x [|y ns]]. Qed.

Lemma layers_up_nonempty k ns : full_at k ns -> ns <> [] -> layers_up k ns <> [].
Proof.
  revert ns. induction k as [|k IH]; intros ns Hf Hne; simpl; [done|].
  apply IH; [by apply full_at_pairup|]. apply pairup_nonempty; [by eapply full_at_even|done].
Qed.

Lemma expansion_layers_up k ns :
  full_at k ns -> ns <> [] ->
  expansion_of ns = replicate k zero_hash ++ expansion_of (layers_up k ns).
Proof.
  revert ns. induction k as [|k IH]; intros ns Hf Hne; simpl; [done|].
  rewrite expansion_of_nonempty by done.
  rewrite odd_last_even by (by eapply full_at_even). f_equal.
  apply IH; [by apply full_at_pairup|]. apply pairup_nonempty; [by eapply full_at_even|done].
Qed.

Lemma layers_up_app k ns ys :
  full_at k ns -> layers_up k (ns ++ ys) = layers_up k ns ++ layers_up k ys.
Proof.
  revert ns ys. induction k as [|k IH]; intros ns ys Hf; simpl; [done|].
  rewrite pairup_app by (by eapply full_at_even). apply IH. by apply full_at_pairup.
Qed.

Lemma layers_up_complete k ys : length ys = (2 ^ k)%nat -> exists r, layers_up k ys = [r].
Proof.
  revert ys. induction k as [|k IH]; intros ys E.
  - destruct ys as [|y [|]]; simpl in E; try lia. by exists y.
  - apply IH. rewrite length_pairup, E, Nat.pow_succ_r'. apply Nat.div2_double.
Qed.

Lemma nonzero_layers_up `{!HasherNonzero} k ns : nonzero ns -> nonzero (layers_up k ns).
Proof.
  revert ns. induction k as [|k IH]; intros ns Hns; simpl; [done|]. apply IH, nonzero_pairup.
Qed.

Lemma append_loop_skip level x me j : forall i,
  i + Z.of_nat j = level ->
  append_loop level i x (replicate j zero_hash ++ me) =
    ('(next, acc) ← append_loop level level x me; Ok (replicate j zero_hash ++ next, acc)).
Proof.
  induction j as [|j IH]; intros i E; simpl.
  - replace i with level by lia. destruct (append_loop level level x me) as [[? ?]| | |]; done.
  - destruct (Z.ltb_spec i level); [|lia]. rewrite IH by lia.
    by destruct (append_loop level level x me) as [[? ?]| | |].
Qed.

(** ** Sizes *)

Lemma length_expansion_le n ns :
  (length ns < 2 ^ n)%nat -> (length (expansion_of ns) <= n)%nat.
Proof.
  revert n. induction ns as [|ns Hne IH] using layer_ind; intros n Hn; [simpl; lia|].
  rewrite expansion_of_nonempty by done. cbn [length].
  destruct n as [|n]; [destruct ns; simpl in *; [done|lia]|].
  apply le_n_S, IH. rewrite length_pairup.
  rewrite Nat.pow_succ_r' in Hn.
  pose proof (Nat.div2_odd (length ns)). destruct (Nat.odd _); simpl in *; lia.
Qed.

Lemma len_expansion_le ns : len ns < two64 -> len (expansion_of ns) <= 64.
Proof.
  intros Hlt. unfold len in *. enough (length (expansion_of ns) <= 64)%nat by lia.
  apply length_expansion_le. apply Nat2Z.inj_lt. rewrite Nat2Z.inj_pow.
  rewrite two64_pow in Hlt. exact Hlt.
Qed.

Lemma tree_size_loop_expansion `{!HasherNonzero} ns : forall i sum,
  nonzero ns -> 0 <= i -> 0 <= sum -> sum + 2 ^ i * len ns < two64 ->
  tree_size_loop i sum (expansion_of ns) = sum + 2 ^ i * len ns.
Proof.
  induction ns as [|ns Hne IH] using layer_ind; intros i sum Hns Hi Hs Hlt; [cbn; unfold len; simpl; lia|].
  rewrite expansion_of_nonempty by done. cbn [tree_size_loop].
  assert (HP : 0 < 2 ^ i) by (apply Z.pow_pos_nonneg; lia).
  assert (E : len ns = 2 * len (pairup ns) + (if Nat.even (length ns) then 0 else 1)).
  { unfold len. rewrite length_pairup. pose proof (Nat.div2_odd (length ns)) as D.
    rewrite <- Nat.negb_odd. destruct (Nat.odd (length ns)); simpl in *; lia. }
  assert (0 <= len (pairup ns)) by (unfold len; lia).
  assert (HP2 : 2 ^ (i + 1) = 2 * 2 ^ i) by (rewrite Z.pow_add_r by lia; lia).
  destruct (Nat.even (length ns)) eqn:He.
  - rewrite odd_last_even by done. change (zero_hash =? zero_hash) with true. cbn iota.
    rewrite IH; [|apply nonzero_pairup|lia|lia|nia]. nia.
  - rewrite eqb_zero_false by (by apply odd_last_odd).
    rewrite u64_small by nia.
    rewrite IH; [|apply nonzero_pairup|lia|nia|nia]. nia.
Qed.

Lemma TreeSize_expansion `{!HasherNonzero} ns :
  nonzero ns -> len ns < two64 -> TreeSize (expansion_of ns) = len ns.
Proof.
  intros Hns Hlt. unfold TreeSize. rewrite tree_size_loop_expansion; try done; lia.
Qed.

(** ** The operations on the represented tree *)

Lemma len_nonneg {A} (l : list A) : 0 <= len l.
Proof. unfold len. lia. Qed.

Lemma len_app {A} (l k : list A) : len (l ++ k) = len l + len k.
Proof. unfold len. rewrite length_app. lia. Qed.

Lemma append_loop_full `{!HasherNonzero} k ns ys r :
  nonzero ns -> nonzero ys -> ns <> [] -> full_at k ns ->
  length ys = (2 ^ k)%nat -> layers_up k ys = [r] ->
  exists res, append_loop (Z.of_nat k) 0 r (expansion_of ns) = Ok res /\
    carry_out res = expansion_of (ns ++ ys).
Proof.
  intros Hns Hys Hne Hf Ey Hr.
  assert (Hr0 : r <> zero_hash).
  { pose proof (nonzero_layers_up k ys Hys) as Hn. rewrite Hr in Hn. by inversion Hn. }
  rewrite (expansion_layers_up k ns), append_loop_skip by (done || lia).
  destruct (append_loop_spec (Z.of_nat k) (layers_up k ns) (Z.of_nat k) r)
    as ([next acc] & E & C); [by apply nonzero_layers_up|done|lia|].
  rewrite E. eexists; split; [reflexivity|].
  rewrite (expansion_layers_up k (ns ++ ys)).
  - rewrite layers_up_app by done. rewrite Hr, <- C. simpl.
    destruct (acc =? zero_hash); [done|]. by rewrite app_assoc.
  - destruct Hf as [m Em]. exists (S m). rewrite length_app, Em, Ey. lia.
  - by destruct ns.
Qed.

(** Appending the root of a complete subtree of level [k] extends the represented
    list of leaf hashes by the leaves of that subtree. *)
Lemma AppendCompleteSubTree_expansion `{!HasherNonzero} k ns ys r :
  nonzero ns -> nonzero ys -> full_at k ns -> length ys = (2 ^ k)%nat -> layers_up k ys = [r] ->
  len (ns ++ ys) < two64 ->
  AppendCompleteSubTree (expansion_of ns) (Z.of_nat k) r = Ok (expansion_of (ns ++ ys)).
Proof.
  intros Hns Hys Hf Ey Hr Hlt. unfold AppendCompleteSubTree, MAX_LEVEL.
  assert (Hr0 : r <> zero_hash).
  { pose proof (nonzero_layers_up k ys Hys) as Hn. rewrite Hr in Hn. by inversion Hn. }
  assert (Hfull : full_at k (ns ++ ys)).
  { destruct Hf as [m Em]. exists (S m). rewrite length_app, Em, Ey. lia. }
  assert (Hne' : ns ++ ys <> []).
  { intros E. apply (f_equal length) in E. rewrite length_app, Ey in E.
    simpl in E. pose proof (Nat.pow_nonzero 2 k). lia. }
  pose proof (len_expansion_le _ Hlt) as Hle.
  rewrite len_app in Hlt. pose proof (len_nonneg ys).
  pose proof (len_expansion_le ns ltac:(lia)) as Hle0.
  pose proof (expansion_layers_up k _ Hfull Hne') as Eup.
  assert (Hk : Z.of_nat k < 64).
  { rewrite layers_up_app, Hr in Eup by done. rewrite Eup in Hle. unfold len in Hle.
    rewrite length_app, length_replicate in Hle.
    rewrite (expansion_of_nonempty (layers_up k ns ++ [r])) in Hle by (by destruct (layers_up k ns)).
    simpl in Hle. lia. }
  destruct (Z.leb_spec 64 (Z.of_nat k)); [lia|]. rewrite eqb_zero_false by done.
  destruct (Z.ltb_spec 64 (len (expansion_of ns))); [lia|].
  destruct ns as [|n0 ns'].
  { simpl. rewrite Nat2Z.id. cbn [app] in *. rewrite Eup, Hr. done. }
  set (ns := n0 :: ns') in *.
  assert (Hne : ns <> []) by done.
  assert (Hlen : len (expansion_of ns) = Z.of_nat k + len (expansion_of (layers_up k ns)) /\
                 0 < len (expansion_of (layers_up k ns))).
  { rewrite (expansion_layers_up k ns Hf Hne). unfold len. rewrite length_app, length_replicate.
    rewrite (expansion_of_nonempty (layers_up k ns)) by (by apply layers_up_nonempty). simpl. lia. }
  destruct (Z.eqb_spec (len (expansion_of ns)) 0); [lia|].
  destruct (Z.leb_spec (len (expansion_of ns)) (Z.of_nat k)); [lia|].
  destruct (append_loop_full k ns ys r) as ([next acc] & E & C); try done.
  rewrite E. unfold mbind, res_bind, carry_out in *. rewrite C.
  by destruct (Z.leb_spec (64 + 1) (len (expansion_of (ns ++ ys)))); [lia|].
Qed.

Lemma AppendLeaf_expansion `{!HasherNonzero} ns leaf :
  nonzero ns -> len ns + 1 < two64 ->
  AppendLeaf (expansion_of ns) leaf = Ok (expansion_of (ns ++ [hash_leaf leaf])).
Proof.
  intros Hns Hlt. unfold AppendLeaf. apply (AppendCompleteSubTree_expansion 0); try done.
  - constructor; [|done]. apply keccak_nonzero.
  - exists (length ns). simpl. lia.
  - rewrite len_app. done.
Qed.

Lemma nonzero_leaves `{!HasherNonzero} leaves : nonzero (hash_leaf <$> leaves).
Proof. induction leaves; constructor; [apply keccak_nonzero|done]. Qed.

Lemma expansion_loop_spec `{!HasherNonzero} leaves : forall ns,
  nonzero ns -> len ns + len leaves < two64 ->
  expansion_loop (expansion_of ns) leaves = Ok (expansion_of (ns ++ (hash_leaf <$> leaves))).
Proof.
  induction leaves as [|leaf leaves IH]; intros ns Hns Hlt; simpl.
  { by rewrite app_nil_r. }
  assert (len (leaf :: leaves) = 1 + len leaves) as E by (unfold len; simpl; lia).
  pose proof (len_nonneg leaves).
  rewrite AppendLeaf_expansion by (done || lia). unfold mbind, res_bind.
  rewrite IH.
  - by rewrite <- app_assoc.
  - apply Forall_app; split; [done|]. constructor; [apply keccak_nonzero|done].
  - rewrite len_app. unfold len at 2. simpl. lia.
Qed.

Lemma ExpansionFromLeaves_spec `{!HasherNonzero} leaves :
  len leaves < two64 ->
  ExpansionFromLeaves leaves = Ok (expansion_of (hash_leaf <$> leaves)).
Proof.
  intros Hlt. unfold ExpansionFromLeaves, NewEmptyMerkleExpansion.
  apply (expansion_loop_spec leaves []); [constructor|]. unfold len at 1. simpl. lia.
Qed.

(** ** The root *)

Lemma merkle_layer ns :
  ns <> [] -> Nat.eqb (length ns) 1 = false -> merkle ns = merkle (padlayer ns).
Proof. destruct ns as [|x [|y ns]]; try done. intros _ _. apply merkle_step. Qed.

(** The loop of [Root] at a level whose complete nodes are [ns], with the root of
    the incomplete subtree to the right of them (if any) accumulated. *)
Lemma root_loop_spec `{!HasherNonzero} n ns : forall i accum,
  nonzero ns -> n = i + len (expansion_of ns) ->
  (ns = [] -> accum <> zero_hash) ->
  root_loop n i accum (expansion_of ns) =
    merkle (ns ++ (if accum =? zero_hash then [] else [accum])).
Proof.
  induction ns as [|ns Hne IH] using layer_ind; intros i accum Hns Hn Ha.
  { simpl. by rewrite eqb_zero_false by auto. }
  rewrite expansion_of_nonempty in Hn |- * by done. cbn [root_loop].
  assert (Hlen : n = i + 1 + len (expansion_of (pairup ns))).
  { unfold len in *. simpl in Hn. lia. }
  unfold root_step. destruct (Z.eqb_spec accum zero_hash) as [->|Hacc].
  - rewrite app_nil_r. destruct (Nat.even (length ns)) eqn:He.
    + rewrite odd_last_even by done. change (zero_hash =? zero_hash) with true. cbn iota.
      rewrite IH; [|apply nonzero_pairup|done|by intros ?%pairup_nonempty].
      change (zero_hash =? zero_hash) with true. cbn iota. rewrite app_nil_r.
      rewrite (merkle_layer ns), padlayer_pairup, He; [done|done|].
      by destruct ns as [|? [|? ?]].
    + pose proof (odd_last_odd ns Hns He) as Hodd. rewrite eqb_zero_false by done.
      destruct (pairup ns) as [|p ps] eqn:Ep.
      * destruct ns as [|x [|y ns]]; try done. simpl in Hlen |- *.
        unfold len in Hlen. simpl in Hlen.
        destruct (Z.eqb_spec i (n - 1)); [done|lia].
      * assert (0 < len (expansion_of (p :: ps))).
        { rewrite expansion_of_nonempty by done. unfold len. simpl. lia. }
        destruct (Z.eqb_spec i (n - 1)); [lia|].
        rewrite IH; [|rewrite <- Ep; apply nonzero_pairup|done|done].
        rewrite eqb_zero_false by apply keccak_nonzero.
        rewrite (merkle_layer ns), padlayer_pairup, He, Ep; [done|done|].
        by destruct ns as [|? [|? ?]].
  - assert (Hl : merkle (ns ++ [accum]) = merkle (padlayer (ns ++ [accum]))).
    { apply merkle_layer; [by destruct ns|]. destruct ns as [|? [|? ?]]; done. }
    rewrite Hl. destruct (Nat.even (length ns)) eqn:He.
    + rewrite odd_last_even by done. change (zero_hash =? zero_hash) with true. cbn iota.
      rewrite IH; [|apply nonzero_pairup|done|by intros ?%pairup_nonempty].
      rewrite eqb_zero_false by apply keccak_nonzero.
      by rewrite padlayer_app by done.
    + rewrite eqb_zero_false by (by apply odd_last_odd).
      rewrite IH; [|apply nonzero_pairup|done|intros _; apply keccak_nonzero].
      rewrite eqb_zero_false by apply keccak_nonzero.
      rewrite padlayer_pairup, pairup_snoc, length_app, Nat.even_add, He. done.
Qed.

Lemma Root_expansion `{!HasherNonzero} ns :
  nonzero ns -> ns <> [] -> len ns < two64 -> Root (expansion_of ns) = Ok (merkle ns).
Proof.
  intros Hns Hne Hlt. unfold Root, MAX_LEVEL.
  pose proof (len_expansion_le ns Hlt).
  destruct (Z.ltb_spec 64 (len (expansion_of ns))); [lia|].
  destruct (Z.eqb_spec (len (expansion_of ns)) 0) as [E|_].
  { rewrite expansion_of_nonempty in E by done. unfold len in E. simpl in E. lia. }
  rewrite root_loop_spec; try done. by rewrite app_nil_r.
Qed.

End spec.
