(* ===== verification/PrefixComplete.v ===== *)
(** * Prefix proofs: what is generated is accepted

    The levels at which subtrees are appended, the proof that
    [GeneratePrefixProof] produces, and its acceptance by [VerifyPrefixProof]. *)

From S2P Require Import Prelude Bits PrefixProofs MerkleSpec.

(** ** The level of the next append *)

(** The largest level at which a subtree can be appended to a tree of size [s]
    without passing [e]: the lowest set bit of the part of [s] below the highest
    bit in which it differs from [e], or that bit when the part is zero. *)
Definition append_level (s e : Z) : Z :=
  let d := diff_bit s e in
  let y := s mod 2 ^ (d + 1) in
  if y =? 0 then d else TrailingZeros64 y.

Lemma low_mask d :
  0 <= d < 64 -> u64 (shl64 1 (d + 1) - 1) = Z.ones (d + 1).
Proof.
  intros Hd. unfold shl64. rewrite Z.shiftl_1_l, Z.ones_equiv.
  destruct (Z.eq_dec d 63) as [->|Hne]; [reflexivity|].
  assert (2 ^ (d + 1) <= 2 ^ 63) by (apply Z.pow_le_mono_r; lia).
  assert (0 < 2 ^ (d + 1)) by (apply Z.pow_pos_nonneg; lia).
  change (2 ^ 63) with 9223372036854775808 in *.
  rewrite (u64_small (2 ^ (d + 1))), u64_small by (unfold two64; lia). lia.
Qed.

Lemma append_level_spec s e :
  0 <= s < e -> e < two64 ->
  let k := append_level s e in
  0 <= k < 64 /\ (2 ^ k | s) /\ s + 2 ^ k <= e.
Proof.
  intros Hse He. cbv zeta. unfold append_level.
  destruct (diff_bit_decomp s e Hse) as (h & ra & rb & D). cbv zeta in D.
  pose proof (diff_bit_nonneg s e) as Hd0.
  pose proof (diff_bit_lt_64 s e ltac:(lia) ltac:(lia)) as Hd1.
  set (d := diff_bit s e) in *.
  destruct D as (Es & Ee & Hra & Hrb & Hh & Hp).
  assert (HP2 : 2 ^ (d + 1) = 2 * 2 ^ d) by (rewrite Z.pow_add_r by lia; lia).
  assert (Ey : s mod 2 ^ (d + 1) = ra).
  { rewrite HP2, Es. replace (2 * h * 2 ^ d + ra) with (ra + h * (2 * 2 ^ d)) by lia.
    rewrite Z.mod_add, Z.mod_small by lia. done. }
  rewrite Ey. destruct (Z.eqb_spec ra 0) as [->|Hne].
  - repeat split; [lia|lia|exists (2 * h); lia|lia].
  - assert (0 < ra) by lia.
    destruct (TrailingZeros64_spec ra ltac:(lia)) as (q & Hq & Er & Hc).
    pose proof (TrailingZeros64_lt ra d ltac:(lia) ltac:(lia)) as Hlt.
    set (c := TrailingZeros64 ra) in *.
    assert (E2 : 2 ^ d = 2 ^ (d - c) * 2 ^ c) by (rewrite <- Z.pow_add_r by lia; f_equal; lia).
    assert (0 < 2 ^ c) by (apply Z.pow_pos_nonneg; lia).
    assert (1 < 2 ^ (d - c)) by (apply Z.pow_gt_1; lia).
    repeat split; [lia|lia| |].
    + exists (2 * h * 2 ^ (d - c) + (2 * q + 1)). rewrite Es, E2. lia.
    + assert (2 * q + 1 < 2 ^ (d - c)) by nia. nia.
Qed.

(** The bits both loops look at. *)
Lemma differing_bits s e :
  0 <= s < e -> e < two64 ->
  let mask := u64 (shl64 1 (diff_bit s e + 1) - 1) in
  MostSignificantBit (Z.lxor s e) = Ok (diff_bit s e) /\
  Z.land s mask = s mod 2 ^ (diff_bit s e + 1) /\
  0 < Z.land e mask /\ Z.log2 (Z.land e mask) = diff_bit s e.
Proof.
  intros Hse He. cbv zeta.
  pose proof (diff_bit_nonneg s e) as Hd0.
  pose proof (diff_bit_lt_64 s e ltac:(lia) ltac:(lia)) as Hd1.
  rewrite low_mask, !Z.land_ones by lia.
  destruct (diff_bit_decomp s e Hse) as (h & ra & rb & D). cbv zeta in D.
  set (d := diff_bit s e) in *.
  destruct D as (Es & Ee & Hra & Hrb & Hh & Hp).
  assert (HP2 : 2 ^ (d + 1) = 2 * 2 ^ d) by (rewrite Z.pow_add_r by lia; lia).
  assert (Ez : e mod 2 ^ (d + 1) = 2 ^ d + rb).
  { rewrite HP2, Ee. replace ((2 * h + 1) * 2 ^ d + rb) with (2 ^ d + rb + h * (2 * 2 ^ d)) by lia.
    rewrite Z.mod_add, Z.mod_small by lia. done. }
  repeat split.
  - apply MostSignificantBit_pos, lxor_pos; lia.
  - rewrite Ez. lia.
  - rewrite Ez. apply Z.log2_unique; [lia|]. rewrite Z.pow_succ_r by lia. lia.
Qed.

Lemma MaximumAppendBetween_eq s e :
  0 <= s < e -> e < two64 -> MaximumAppendBetween s e = Ok (append_level s e).
Proof.
  intros Hse He. destruct (differing_bits s e Hse He) as (E1 & E2 & Hz & E3). cbv zeta in *.
  unfold MaximumAppendBetween, append_level. destruct (Z.leb_spec e s); [lia|].
  rewrite E1. unfold mbind, res_bind. rewrite E2.
  assert (0 <= s mod 2 ^ (diff_bit s e + 1)).
  { apply Z.mod_pos_bound, Z.pow_pos_nonneg; pose proof (diff_bit_nonneg s e); lia. }
  destruct (Z.eqb_spec (s mod 2 ^ (diff_bit s e + 1)) 0) as [E|E]; simpl.
  - destruct (Z.eqb_spec (Z.land e (u64 (shl64 1 (diff_bit s e + 1) - 1))) 0); [lia|].
    simpl. rewrite MostSignificantBit_pos by lia. by rewrite E3.
  - apply LeastSignificantBit_pos. lia.
Qed.

(** [MaximumAppendBetween] between sizes [s < e] of 64 bits always
    succeeds, with a level below 64 at which appending is allowed (the size is a
    multiple of the subtree) and does not pass [e]; the level is the highest of
    the levels allowed at [s] that do not pass [e]. *)
Theorem MaximumAppendBetween_spec s e :
  0 <= s < e -> e < two64 ->
  exists k, MaximumAppendBetween s e = Ok k /\ 0 <= k < 64 /\ (2 ^ k | s) /\ s + 2 ^ k <= e /\
    forall j, 0 <= j -> (2 ^ j | s) -> s + 2 ^ j <= e -> j <= k.
Proof.
  intros Hse He. exists (append_level s e).
  destruct (append_level_spec s e Hse He) as (Hk & Hdiv & Hle).
  repeat split; try tauto; [by apply MaximumAppendBetween_eq|].
  intros j Hj [c Hc] Hjle. apply Z.nlt_ge. intros Hlt.
  revert Hk Hdiv Hle Hlt. unfold append_level.
  destruct (diff_bit_decomp s e Hse) as (h & ra & rb & D). cbv zeta in D.
  pose proof (diff_bit_nonneg s e) as Hd0.
  set (d := diff_bit s e) in *.
  destruct D as (Es & Ee & Hra & Hrb & Hh & Hp).
  assert (HP2 : 2 ^ (d + 1) = 2 * 2 ^ d) by (rewrite Z.pow_add_r by lia; lia).
  assert (Ey : s mod 2 ^ (d + 1) = ra).
  { rewrite HP2, Es. replace (2 * h * 2 ^ d + ra) with (ra + h * (2 * 2 ^ d)) by lia.
    rewrite Z.mod_add, Z.mod_small by lia. done. }
  rewrite Ey. destruct (Z.eqb_spec ra 0) as [->|Hne]; intros Hk Hdiv Hle Hlt.
  - assert (2 * 2 ^ d <= 2 ^ j) by (rewrite <- HP2; apply Z.pow_le_mono_r; lia). nia.
  - destruct (TrailingZeros64_spec ra ltac:(lia)) as (q & Hq & Er & Hc0).
    pose proof (TrailingZeros64_lt ra d ltac:(lia) ltac:(lia)) as Hcd.
    set (t := TrailingZeros64 ra) in *.
    assert (E2 : 2 ^ d = 2 * 2 ^ (d - t - 1) * 2 ^ t).
    { change 2 with (2 ^ 1) at 2. rewrite <- !Z.pow_add_r by lia. f_equal. lia. }
    assert (Ej : 2 ^ j = 2 * 2 ^ (j - t - 1) * 2 ^ t).
    { change 2 with (2 ^ 1) at 2. rewrite <- !Z.pow_add_r by lia. f_equal. lia. }
    assert (0 < 2 ^ t) by (apply Z.pow_pos_nonneg; lia).
    assert (2 * (h * 2 * 2 ^ (d - t - 1)) + (2 * q + 1) = 2 * (c * 2 ^ (j - t - 1))); [|lia].
    apply (Z.mul_reg_r _ _ (2 ^ t)); [lia|].
    transitivity s; [rewrite Es, E2, Er; ring|rewrite Hc, Ej; ring].
Qed.

Lemma MaximumAppendBetween_spec_witness :
  exists k, MaximumAppendBetween 5 16 = Ok k /\ 0 <= k < 64 /\ (2 ^ k | 5) /\ 5 + 2 ^ k <= 16 /\
    forall j, 0 <= j -> (2 ^ j | 5) -> 5 + 2 ^ j <= 16 -> j <= k.
Proof. apply (MaximumAppendBetween_spec 5 16); [lia|reflexivity]. Defined.

Section complete.
Context `{Hasher} `{!HasherNonzero}.

(** ** Roots of complete subtrees *)

Lemma merkle_complete k ys : length ys = (2 ^ k)%nat -> layers_up k ys = [merkle ys].
Proof.
  revert ys. induction k as [|k IH]; intros ys E.
  - destruct ys as [|y [|]]; simpl in E; try lia. done.
  - cbn [layers_up].
    assert (Ep : length (pairup ys) = (2 ^ k)%nat).
    { rewrite length_pairup, E, Nat.pow_succ_r'. apply Nat.div2_double. }
    rewrite IH by done. f_equal.
    assert (He : Nat.even (length ys) = true).
    { rewrite E, Nat.pow_succ_r'. apply Nat.even_even. }
    pose proof (Nat.pow_nonzero 2 k).
    rewrite (merkle_layer ys), padlayer_pairup, He; [done| |].
    + intros ->. rewrite Nat.pow_succ_r' in E. simpl in E. lia.
    + apply Nat.eqb_neq. rewrite E, Nat.pow_succ_r'. lia.
Qed.

Lemma RootFetcherFromExpansion_spec k ys zs :
  length ys = (2 ^ k)%nat -> len ys < two64 ->
  RootFetcherFromExpansion (ys ++ zs) (2 ^ Z.of_nat k) = Ok (merkle (hash_leaf <$> ys)).
Proof.
  intros E Hlt. unfold RootFetcherFromExpansion, slice_to.
  assert (Elen : len ys = 2 ^ Z.of_nat k).
  { unfold len. rewrite E, Nat2Z.inj_pow. done. }
  rewrite len_app. pose proof (len_nonneg zs).
  destruct (Z.ltb_spec (len ys + len zs) (2 ^ Z.of_nat k)); [lia|].
  rewrite <- Elen. unfold len at 1. rewrite Nat2Z.id, take_app_length.
  unfold mbind, res_bind. rewrite ExpansionFromLeaves_spec by done.
  apply Root_expansion; [apply nonzero_leaves| |].
  - destruct ys; [|done]. pose proof (Nat.pow_nonzero 2 k). simpl in E. lia.
  - unfold len. by rewrite length_fmap.
Qed.

(** ** The subtrees between a prefix and the whole *)

(** [subtrees e h rest proof]: from a tree of size [h], the leaf hashes [rest] are
    appended up to size [e] as complete subtrees at the levels the code chooses;
    [proof] lists their roots. *)
Inductive subtrees (e : Z) : Z -> list Hash -> list Hash -> Prop :=
| subtrees_done : subtrees e e [] []
| subtrees_step h k ys zs proof :
    h < e -> append_level h e = Z.of_nat k -> length ys = (2 ^ k)%nat ->
    subtrees e (h + 2 ^ Z.of_nat k) zs proof ->
    subtrees e h (ys ++ zs) (merkle ys :: proof).

Lemma subtrees_length e h rest proof :
  subtrees e h rest proof -> (length proof <= length rest)%nat.
Proof.
  induction 1 as [|h k ys zs proof Hlt Hk Hy _ IH]; [done|].
  rewrite length_app, Hy. pose proof (Nat.pow_nonzero 2 k). simpl. lia.
Qed.

(** One iteration of [generate_loop] appends the root of the next subtree. *)
Lemma generate_step fuel acc ys zs h e k :
  0 <= h < e -> e < two64 -> append_level h e = Z.of_nat k -> length ys = (2 ^ k)%nat ->
  generate_loop (S fuel) RootFetcherFromExpansion acc (ys ++ zs) h e =
    generate_loop fuel RootFetcherFromExpansion (acc ++ [merkle (hash_leaf <$> ys)]) zs
      (h + 2 ^ Z.of_nat k) e.
Proof.
  intros Hhe He Ek Ey. destruct (append_level_spec h e Hhe He) as (Hk & _ & Hle).
  rewrite Ek in *.
  assert (Elen : len ys = 2 ^ Z.of_nat k).
  { unfold len. rewrite Ey, Nat2Z.inj_pow. done. }
  assert (Hshl : shl64 1 (Z.of_nat k) = 2 ^ Z.of_nat k).
  { unfold shl64. rewrite Z.shiftl_1_l. apply u64_small. lia. }
  assert (Hroot : RootFetcherFromExpansion (ys ++ zs) (2 ^ Z.of_nat k) = Ok (merkle (hash_leaf <$> ys)))
    by (apply RootFetcherFromExpansion_spec; [done|lia]).
  assert (Hslice : slice_from (ys ++ zs) (2 ^ Z.of_nat k) = Ok zs).
  { unfold slice_from. rewrite len_app. pose proof (len_nonneg zs).
    destruct (Z.ltb_spec (len ys + len zs) (2 ^ Z.of_nat k)); [lia|].
    rewrite <- Elen. unfold len at 1. by rewrite Nat2Z.id, drop_app_length. }
  destruct (differing_bits h e Hhe He) as (E1 & E2 & Hz & E3). cbv zeta in *.
  cbn [generate_loop]. destruct (Z.ltb_spec h e); [|lia].
  rewrite E1. unfold mbind, res_bind. rewrite E2. unfold append_level in Ek.
  assert (0 <= h mod 2 ^ (diff_bit h e + 1)).
  { apply Z.mod_pos_bound, Z.pow_pos_nonneg; pose proof (diff_bit_nonneg h e); lia. }
  destruct (Z.eqb_spec (h mod 2 ^ (diff_bit h e + 1)) 0) as [E|E]; cbn [negb].
  - destruct (Z.eqb_spec (Z.land e (u64 (shl64 1 (diff_bit h e + 1) - 1))) 0); [lia|].
    cbn [negb]. rewrite MostSignificantBit_pos, E3, Ek, Hshl, Hroot, Hslice by lia.
    rewrite u64_small by lia. done.
  - rewrite LeastSignificantBit_pos, Ek, Hshl, Hroot, Hslice by lia.
    rewrite u64_small by lia. done.
Qed.

Lemma generate_loop_spec e fuel : forall h leaves acc,
  0 <= h -> h + len leaves = e -> e < two64 -> (length leaves <= fuel)%nat ->
  exists proof, subtrees e h (hash_leaf <$> leaves) proof /\
    generate_loop fuel RootFetcherFromExpansion acc leaves h e = Ok (acc ++ proof).
Proof.
  induction fuel as [|fuel IH]; intros h leaves acc Hh He Hlt Hfuel;
    destruct (Z.lt_ge_cases h e) as [Hhe|Hhe].
  - unfold len in He. lia.
  - assert (leaves = []) as -> by (destruct leaves; [done|unfold len in He; simpl in *; lia]).
    assert (h = e) as -> by (unfold len in He; simpl in He; lia).
    exists []. split; [constructor|]. cbn. rewrite Z.ltb_irrefl. by rewrite app_nil_r.
  - destruct (append_level_spec h e ltac:(lia) Hlt) as (Hk & _ & Hle).
    assert (exists k, append_level h e = Z.of_nat k) as [k Ek].
    { exists (Z.to_nat (append_level h e)). lia. }
    rewrite Ek in *.
    assert (Hy : length (take (2 ^ k) leaves) = (2 ^ k)%nat).
    { rewrite length_take. unfold len in He.
      assert (Z.of_nat (2 ^ k) = 2 ^ Z.of_nat k) by (rewrite Nat2Z.inj_pow; done). lia. }
    rewrite <- (take_drop (2 ^ k) leaves).
    rewrite (generate_step _ _ _ _ _ _ k) by (done || lia).
    destruct (IH (h + 2 ^ Z.of_nat k) (drop (2 ^ k) leaves)
      (acc ++ [merkle (hash_leaf <$> take (2 ^ k) leaves)])) as (proof & Hp & E).
    + lia.
    + unfold len in *. rewrite length_drop.
      assert (Z.of_nat (2 ^ k) = 2 ^ Z.of_nat k) by (rewrite Nat2Z.inj_pow; done).
      rewrite length_take in Hy. lia.
    + done.
    + rewrite length_drop. pose proof (Nat.pow_nonzero 2 k). lia.
    + exists (merkle (hash_leaf <$> take (2 ^ k) leaves) :: proof). split.
      * rewrite fmap_app. eapply subtrees_step; try done. by rewrite length_fmap.
      * rewrite E. by rewrite <- app_assoc.
  - assert (leaves = []) as -> by (destruct leaves; [done|unfold len in He; simpl in *; lia]).
    assert (h = e) as -> by (unfold len in He; simpl in He; lia).
    exists []. split; [constructor|]. cbn. rewrite Z.ltb_irrefl. by rewrite app_nil_r.
Qed.

(** ** Verification follows the same subtrees *)

Lemma divide_full_at k ns : (2 ^ Z.of_nat k | len ns) -> full_at k ns.
Proof.
  intros [c Hc]. exists (Z.to_nat c). unfold len in Hc.
  assert (0 < 2 ^ Z.of_nat k) by (apply Z.pow_pos_nonneg; lia).
  apply Nat2Z.inj. rewrite Hc, Nat2Z.inj_mul, Nat2Z.inj_pow. simpl Z.of_nat.
  rewrite Z2Nat.id by nia. done.
Qed.

Lemma verify_loop_subtrees e h rest proof :
  subtrees e h rest proof -> forall ns before fuel,
  h = len ns -> nonzero ns -> nonzero rest -> e < two64 -> h <= e ->
  len (before ++ proof) < two64 -> (length proof < fuel)%nat ->
  verify_loop fuel (before ++ proof) e (expansion_of ns) h (len before) =
    Ok (expansion_of (ns ++ rest), len (before ++ proof)).
Proof.
  induction 1 as [|h k ys zs proof Hlt Ek Ey Hs IH]; intros ns before fuel Eh Hns Hrest He Hle Hlen Hf;
    (destruct fuel as [|fuel]; [lia|]); cbn [verify_loop].
  { rewrite Z.ltb_irrefl. by rewrite !app_nil_r. }
  destruct (append_level_spec h e ltac:(pose proof (len_nonneg ns); lia) He) as (Hk & Hdiv & Hhe).
  rewrite Ek in *.
  destruct (Z.ltb_spec h e); [|lia].
  rewrite MaximumAppendBetween_eq by (pose proof (len_nonneg ns); lia || done).
  unfold mbind, res_bind. rewrite Ek.
  apply Forall_app in Hrest as [Hys Hzs].
  unfold len at 1. rewrite Nat2Z.id, list_lookup_middle by done.
  assert (Elen : len ys = 2 ^ Z.of_nat k) by (unfold len; rewrite Ey, Nat2Z.inj_pow; done).
  rewrite (AppendCompleteSubTree_expansion k ns ys); try done.
  - unfold shl64. rewrite Z.shiftl_1_l, (u64_small (2 ^ _)), u64_small
      by (pose proof (len_nonneg ns); lia).
    destruct (Z.ltb_spec e (h + 2 ^ Z.of_nat k)); [lia|].
    assert (Hidx : u64 (len before + 1) = len (before ++ [merkle ys])).
    { rewrite len_app. unfold len at 3. simpl. apply u64_small.
      rewrite len_app in Hlen. pose proof (len_nonneg before). unfold len at 2 in Hlen. simpl in Hlen. lia. }
    rewrite Hidx. replace (before ++ merkle ys :: proof) with ((before ++ [merkle ys]) ++ proof)
      in Hlen |- * by (by rewrite <- app_assoc).
    rewrite IH; try done.
    + by rewrite <- app_assoc.
    + rewrite len_app. lia.
    + apply Forall_app. done.
    + simpl in Hf. lia.
  - apply divide_full_at. by rewrite <- Eh.
  - by apply merkle_complete.
  - rewrite len_app, Elen, <- Eh. lia.
Qed.

(** ** The compact form *)

Definition present (me : list Hash) : list Hash := filter (fun h => h <> zero_hash) me.

Lemma present_cons_zero me : present (zero_hash :: me) = present me.
Proof. done. Qed.

Lemma present_cons h me : h <> zero_hash -> present (h :: me) = h :: present me.
Proof. intros Hh. unfold present. by rewrite filter_cons_True. Qed.

Lemma compact_loop_spec ns : forall i comp size,
  nonzero ns -> 0 <= i -> 0 <= size -> size + 2 ^ i * len ns < two64 ->
  compact_loop i comp size (expansion_of ns) =
    (comp ++ present (expansion_of ns), size + 2 ^ i * len ns).
Proof.
  induction ns as [|ns Hne IH] using layer_ind; intros i comp size Hns Hi Hs Hlt.
  { cbn. unfold len. simpl. rewrite app_nil_r. f_equal. lia. }
  rewrite expansion_of_nonempty by done. cbn [compact_loop].
  assert (HP : 0 < 2 ^ i) by (apply Z.pow_pos_nonneg; lia).
  assert (E : len ns = 2 * len (pairup ns) + (if Nat.even (length ns) then 0 else 1)).
  { unfold len. rewrite length_pairup. pose proof (Nat.div2_odd (length ns)) as D.
    rewrite <- Nat.negb_odd. destruct (Nat.odd (length ns)); simpl in *; lia. }
  assert (0 <= len (pairup ns)) by apply len_nonneg.
  assert (HP2 : 2 ^ (i + 1) = 2 * 2 ^ i) by (rewrite Z.pow_add_r by lia; lia).
  destruct (Nat.even (length ns)) eqn:He.
  - rewrite odd_last_even by done. change (zero_hash =? zero_hash) with true. cbn iota.
    rewrite IH by (apply nonzero_pairup || nia). rewrite present_cons_zero. f_equal. nia.
  - pose proof (odd_last_odd ns Hns He) as Hodd. rewrite eqb_zero_false by done.
    unfold shl64. rewrite Z.shiftl_1_l, (u64_small (2 ^ i)), u64_small by nia.
    rewrite IH by (apply nonzero_pairup || nia). rewrite present_cons, <- app_assoc by done.
    f_equal. nia.
Qed.

Lemma Compact_expansion ns :
  nonzero ns -> len ns < two64 ->
  Compact (expansion_of ns) = (present (expansion_of ns), len ns).
Proof.
  intros Hns Hlt. unfold Compact. rewrite compact_loop_spec by (done || lia).
  simpl. f_equal. lia.
Qed.

(** Bit [j] of the size tells whether level [j] has a node without partner. *)
Lemma size_bit size j (ns : list Hash) :
  0 <= j -> size / 2 ^ j = len ns ->
  (Z.land (2 ^ j) size =? 0) = Nat.even (length ns).
Proof.
  intros Hj E.
  assert (Hb : Z.testbit size j = negb (Nat.even (length ns))).
  { rewrite <- (Z.add_0_l j), <- Z.shiftr_spec, Z.shiftr_div_pow2, E, Z.bit0_odd by lia.
    unfold len. rewrite <- Z.negb_even. f_equal.
    rewrite <- (Nat.negb_odd), <- Z.negb_odd. f_equal.
    destruct (Nat.Even_or_Odd (length ns)) as [[m Em]|[m Em]]; rewrite Em.
    - rewrite Nat.odd_even, Nat2Z.inj_mul. apply Z.odd_even.
    - rewrite Nat.odd_odd, Nat2Z.inj_add, Nat2Z.inj_mul. apply Z.odd_odd. }
  destruct (Nat.even (length ns)); simpl in Hb.
  - apply Z.eqb_eq. apply Z.bits_inj'. intros n Hn. rewrite Z.land_spec, Z.bits_0.
    rewrite Z.pow2_bits_eqb by lia. destruct (Z.eqb_spec j n) as [<-|]; [by rewrite Hb|done].
  - apply Z.eqb_neq. intros E0. apply (f_equal (fun z => Z.testbit z j)) in E0.
    rewrite Z.land_spec, Z.pow2_bits_true, Hb, Z.bits_0 in E0 by lia. done.
Qed.

Lemma from_compact_expansion size extra ns : forall j fuel me read,
  nonzero ns -> 0 <= j < 64 -> 0 <= size < 2 ^ 63 -> size / 2 ^ j = len ns ->
  0 <= read -> read + len (present (expansion_of ns)) < two64 ->
  (length (expansion_of ns) < fuel)%nat ->
  from_compact_loop fuel me (present (expansion_of ns) ++ extra) size read (2 ^ j) =
    Ok (me ++ expansion_of ns, read + len (present (expansion_of ns))).
Proof.
  induction ns as [|ns Hne IH] using layer_ind; intros j fuel me read Hns Hj Hsize E Hr Hrd Hf;
    (destruct fuel as [|fuel]; [lia|]); cbn [from_compact_loop];
    assert (HP : 0 < 2 ^ j) by (apply Z.pow_pos_nonneg; lia).
  { unfold len in E. simpl in E. apply Z.div_small_iff in E; [|lia].
    destruct (Z.leb_spec (2 ^ j) size); [lia|]. rewrite app_nil_r. cbn. unfold len. simpl.
    f_equal. f_equal. lia. }
  assert (Hle : 2 ^ j <= size).
  { apply Z.nlt_ge. intros Hlt. rewrite Z.div_small in E by lia. unfold len in E.
    destruct ns; [done|simpl in E; lia]. }
  assert (Hj63 : j < 63).
  { apply Z.nle_gt. intros Hc. assert (2 ^ 63 <= 2 ^ j) by (apply Z.pow_le_mono_r; lia). lia. }
  destruct (Z.leb_spec (2 ^ j) size); [|lia].
  rewrite (size_bit size j ns) by (done || lia).
  assert (Hshl : shl64 (2 ^ j) 1 = 2 ^ (j + 1)).
  { unfold shl64. rewrite Z.shiftl_mul_pow2, <- Z.pow_add_r by lia. apply u64_small.
    rewrite two64_pow. split; [apply Z.pow_nonneg; lia|]. apply Z.pow_lt_mono_r; lia. }
  rewrite Hshl.
  assert (Ep : size / 2 ^ (j + 1) = len (pairup ns)).
  { rewrite Z.pow_add_r, <- Z.div_div, E by lia. unfold len. rewrite length_pairup.
    change (2 ^ 1) with 2. rewrite Nat.div2_div. by rewrite Nat2Z.inj_div. }
  rewrite expansion_of_nonempty in Hrd, Hf |- * by done. simpl in Hf.
  destruct (Nat.even (length ns)) eqn:He; cbn [negb].
  - rewrite odd_last_even in Hrd |- * by done. rewrite present_cons_zero in *.
    rewrite IH by (apply nonzero_pairup || done || lia). by rewrite <- app_assoc.
  - pose proof (odd_last_odd ns Hns He) as Hodd.
    rewrite present_cons in Hrd |- * by done. unfold len in Hrd. cbn [app length] in Hrd |- *.
    rewrite u64_small by lia.
    rewrite IH by (apply nonzero_pairup || done || unfold len in *; lia).
    rewrite <- app_assoc. unfold len. cbn [app length]. f_equal. f_equal. lia.
Qed.

Lemma len_present_le me : len (present me) <= len me.
Proof. unfold len, present. pose proof (length_filter (fun h => h <> zero_hash) me). lia. Qed.

Lemma MerkleExpansionFromCompact_expansion ns extra :
  nonzero ns -> len ns < 2 ^ 63 ->
  MerkleExpansionFromCompact (present (expansion_of ns) ++ extra) (len ns) =
    Ok (expansion_of ns, len (present (expansion_of ns))).
Proof.
  intros Hns Hlt. unfold MerkleExpansionFromCompact. pose proof (len_nonneg ns).
  change (2 ^ 63) with 9223372036854775808 in *.
  pose proof (len_expansion_le ns ltac:(unfold two64; lia)).
  pose proof (len_present_le (expansion_of ns)).
  change 1 with (2 ^ 0).
  rewrite (from_compact_expansion (len ns) extra ns 0 65 [] 0); try done; try lia.
  - by rewrite Z.div_1_r.
  - unfold two64. lia.
  - unfold len in *. lia.
Qed.

(** ** Properties *)

(** Appending leaves one by one builds the expansion of the tree: the result
    has one entry per bit of the number of leaves, its [TreeSize] is the number of
    leaves and its [Root] is the Merkle root of the leaf hashes, in which every
    incomplete subtree is completed by the zero word. *)
Theorem ExpansionFromLeaves_correct leaves :
  len leaves < two64 -> leaves <> [] ->
  exists me, ExpansionFromLeaves leaves = Ok me /\
    me = expansion_of (hash_leaf <$> leaves) /\
    TreeSize me = len leaves /\
    Root me = Ok (merkle (hash_leaf <$> leaves)).
Proof.
  intros Hlt Hne. exists (expansion_of (hash_leaf <$> leaves)).
  assert (El : len (hash_leaf <$> leaves) = len leaves) by (unfold len; by rewrite length_fmap).
  repeat split.
  - by apply ExpansionFromLeaves_spec.
  - rewrite <- El. apply TreeSize_expansion; [apply nonzero_leaves|lia].
  - apply Root_expansion; [apply nonzero_leaves|by destruct leaves|lia].
Qed.

(** The compact form round-trips: for an expansion built from fewer than
    [2^63] leaves, [Compact] gives the present roots and the number of leaves, and
    [MerkleExpansionFromCompact] rebuilds the expansion from them, reading exactly
    those roots even when more data (a proof) follows. *)
Theorem compact_roundtrip leaves extra me comp size :
  len leaves < 2 ^ 63 ->
  ExpansionFromLeaves leaves = Ok me -> Compact me = (comp, size) ->
  size = len leaves /\
  MerkleExpansionFromCompact (comp ++ extra) size = Ok (me, len comp).
Proof.
  intros Hlt Hme Hc.
  assert (El : len (hash_leaf <$> leaves) = len leaves) by (unfold len; by rewrite length_fmap).
  change (2 ^ 63) with 9223372036854775808 in *.
  assert (Hlt' : len leaves < two64) by (unfold two64; lia).
  rewrite ExpansionFromLeaves_spec in Hme by done. injection Hme as <-.
  rewrite Compact_expansion in Hc by (apply nonzero_leaves || lia). injection Hc as <- <-.
  split; [done|].
  apply MerkleExpansionFromCompact_expansion; [apply nonzero_leaves|].
  change (2 ^ 63) with 9223372036854775808. lia.
Qed.

(** The scan of [MerkleExpansionFromCompact] once the shifted bit has left the
    word: it never stops. *)
Lemma from_compact_stuck size fuel : forall me comp read,
  0 <= size -> from_compact_loop fuel me comp size read 0 = NoFuel.
Proof.
  induction fuel as [|fuel IH]; intros me comp read Hs; [done|]. cbn [from_compact_loop].
  destruct (Z.leb_spec 0 size); [|lia]. rewrite Z.land_0_l. cbn.
  change (shl64 0 1) with 0. by apply IH.
Qed.

Lemma from_compact_big size fuel k : forall me comp read j,
  2 ^ 63 <= size -> 0 <= j -> j + Z.of_nat k = 64 ->
  from_compact_loop fuel me comp size read (if j <? 64 then 2 ^ j else 0) = NoFuel \/
  from_compact_loop fuel me comp size read (if j <? 64 then 2 ^ j else 0) = Panic SliceIndexOutOfRange.
Proof.
  revert fuel. induction k as [|k IH]; intros fuel me comp read j Hs Hj Ek.
  { replace j with 64 by lia. left. apply from_compact_stuck. lia. }
  destruct (Z.ltb_spec j 64); [|lia]. destruct fuel as [|fuel]; [by left|]. cbn [from_compact_loop].
  assert (2 ^ j <= 2 ^ 63) by (apply Z.pow_le_mono_r; lia).
  destruct (Z.leb_spec (2 ^ j) size); [|lia].
  assert (Hshl : shl64 (2 ^ j) 1 = if j + 1 <? 64 then 2 ^ (j + 1) else 0).
  { unfold shl64. rewrite Z.shiftl_mul_pow2, <- Z.pow_add_r by lia.
    destruct (Z.ltb_spec (j + 1) 64).
    - apply u64_small. rewrite two64_pow. split; [apply Z.pow_nonneg; lia|]. apply Z.pow_lt_mono_r; lia.
    - replace (j + 1) with 64 by lia. reflexivity. }
  rewrite Hshl.
  destruct (negb (Z.land (2 ^ j) size =? 0)).
  - destruct comp as [|c comp]; [by right|]. apply IH; lia.
  - apply IH; lia.
Qed.

(** [MerkleExpansionFromCompact] does not terminate normally on a size of
    [2^63] or more: the bit it shifts wraps to zero while the loop condition stays
    true, so for any number of iterations it is still running, unless it already
    panicked on a compact list that is too short. *)
Theorem MerkleExpansionFromCompact_diverges comp size fuel :
  2 ^ 63 <= size ->
  from_compact_loop fuel [] comp size 0 1 = NoFuel \/
  from_compact_loop fuel [] comp size 0 1 = Panic SliceIndexOutOfRange.
Proof. intros Hs. apply (from_compact_big size fuel 64 [] comp 0 0); lia. Qed.

Lemma Root_app ns rest :
  nonzero ns -> nonzero rest -> ns <> [] -> len ns + len rest < two64 ->
  Root (expansion_of (ns ++ rest)) = Ok (merkle (ns ++ rest)).
Proof.
  intros. apply Root_expansion; [by apply Forall_app|by destruct ns|by rewrite len_app].
Qed.

(** The proof for the subtrees between two sizes is accepted. *)
Lemma VerifyPrefixProof_subtrees ns rest proof :
  nonzero ns -> nonzero rest -> ns <> [] -> rest <> [] -> len ns + len rest < two64 ->
  subtrees (len ns + len rest) (len ns) rest proof ->
  VerifyPrefixProof {|
    PreRoot := merkle ns; PreSize := len ns;
    PostRoot := merkle (ns ++ rest); PostSize := len ns + len rest;
    PreExpansion := expansion_of ns; PrefixProof := proof |} = Ok tt.
Proof.
  intros Hns Hrest Hne Hne' Hlt Hsub.
  assert (0 < len ns /\ 0 < len rest)
    by (unfold len; destruct ns, rest; simpl; try done; lia).
  pose proof (subtrees_length _ _ _ _ Hsub) as Hplen.
  unfold VerifyPrefixProof; cbn [PreSize PreExpansion PreRoot PostSize PostRoot PrefixProof].
  destruct (Z.eqb_spec (len ns) 0); [lia|].
  rewrite Root_expansion by (done || lia).
  unfold mbind, res_bind, wrap_err. rewrite Z.eqb_refl. cbn [negb].
  rewrite TreeSize_expansion, Z.eqb_refl by (done || lia). cbn [negb].
  destruct (Z.leb_spec (len ns + len rest) (len ns)); [lia|].
  rewrite (verify_loop_subtrees _ _ _ _ Hsub ns []); try done; try lia.
  - rewrite Root_app by done.
    rewrite Z.eqb_refl. cbn [negb app]. by rewrite Z.eqb_refl.
  - cbn [app]. unfold len in *. lia.
Qed.

Lemma GeneratePrefixProof_spec (n leaves : list Hash) :
  0 < len n -> leaves <> [] -> nonzero n -> len n + len leaves < two64 ->
  exists proof, subtrees (len n + len leaves) (len n) (hash_leaf <$> leaves) proof /\
    GeneratePrefixProof (len n) (expansion_of n) leaves RootFetcherFromExpansion =
      Ok (present (expansion_of n) ++ proof).
Proof.
  intros Hn Hne Hnz Hlt.
  assert (0 < len leaves) by (unfold len; destruct leaves; simpl; try done; lia).
  destruct (generate_loop_spec (len n + len leaves) (length leaves) (len n) leaves
    (present (expansion_of n))) as (proof & Hsub & Egen); try lia.
  exists proof. split; [done|]. unfold GeneratePrefixProof.
  destruct (Z.eqb_spec (len n) 0); [lia|]. destruct (Z.eqb_spec (len leaves) 0); [lia|].
  rewrite u64_small by lia. destruct (Z.leb_spec (len n + len leaves) (len n)); [lia|].
  rewrite Compact_expansion by (done || lia). exact Egen.
Qed.

(** The proof generated for a prefix is split off its expansion and accepted. *)
Lemma honest_proof pre leaves :
  pre <> [] -> nonzero pre -> leaves <> [] -> len pre + len leaves < 2 ^ 63 ->
  exists proof numRead,
    GeneratePrefixProof (len pre) (expansion_of pre) leaves RootFetcherFromExpansion = Ok proof /\
    MerkleExpansionFromCompact proof (len pre) = Ok (expansion_of pre, numRead) /\
    0 <= numRead <= len proof /\
    VerifyPrefixProof {|
      PreRoot := merkle pre; PreSize := len pre;
      PostRoot := merkle (pre ++ (hash_leaf <$> leaves)); PostSize := len pre + len leaves;
      PreExpansion := expansion_of pre; PrefixProof := drop (Z.to_nat numRead) proof |} = Ok tt.
Proof.
  intros Hne Hnz Hne' Hlt. change (2 ^ 63) with 9223372036854775808 in *.
  assert (HN : len pre + len leaves < two64) by (unfold two64; lia).
  assert (0 < len pre) by (unfold len; destruct pre; simpl; [done|lia]).
  pose proof (len_nonneg leaves).
  destruct (GeneratePrefixProof_spec pre leaves) as (proof & Hsub & Egen); try done.
  exists (present (expansion_of pre) ++ proof), (len (present (expansion_of pre))).
  split_and!; [done| |apply len_nonneg|rewrite len_app; pose proof (len_nonneg proof); lia|].
  - apply MerkleExpansionFromCompact_expansion; [done|].
    change (2 ^ 63) with 9223372036854775808. lia.
  - replace (Z.to_nat (len (present (expansion_of pre)))) with (length (present (expansion_of pre)))
      by (unfold len; lia). rewrite drop_app_length.
    replace (len leaves) with (len (hash_leaf <$> leaves)) by (unfold len; by rewrite length_fmap).
    replace (len leaves) with (len (hash_leaf <$> leaves)) in Hsub by (unfold len; by rewrite length_fmap).
    apply VerifyPrefixProof_subtrees; try done; [apply nonzero_leaves|by destruct leaves|].
    unfold len in *. rewrite length_fmap. lia.
Qed.

(** (C5) Completeness of prefix proofs: for a non-empty proper prefix of fewer than
    [2^63] leaves, generating a proof succeeds, splits into the compact prefix
    expansion and the proof proper, and [VerifyPrefixProof] accepts the proof for
    the roots of the prefix and of the whole.  So the local verification that
    [PrefixProof] performs before submitting on chain never fails. *)
Theorem prefix_proof_complete leaves n preExp preRoot postExp postRoot :
  (0 < n < length leaves)%nat -> len leaves < 2 ^ 63 ->
  ExpansionFromLeaves (take n leaves) = Ok preExp -> Root preExp = Ok preRoot ->
  ExpansionFromLeaves leaves = Ok postExp -> Root postExp = Ok postRoot ->
  exists proof numRead,
    GeneratePrefixProof (Z.of_nat n) preExp (drop n leaves) RootFetcherFromExpansion = Ok proof /\
    MerkleExpansionFromCompact proof (Z.of_nat n) = Ok (preExp, numRead) /\
    VerifyPrefixProof {|
      PreRoot := preRoot; PreSize := Z.of_nat n;
      PostRoot := postRoot; PostSize := len leaves;
      PreExpansion := preExp; PrefixProof := drop (Z.to_nat numRead) proof |} = Ok tt.
Proof.
  intros Hn Hlt Epre Erpre Epost Erpost. change (2 ^ 63) with 9223372036854775808 in *.
  set (pre := hash_leaf <$> take n leaves).
  assert (Hpre : len pre = Z.of_nat n) by (unfold len, pre; rewrite length_fmap, length_take; lia).
  assert (Hpost : len (drop n leaves) = len leaves - Z.of_nat n) by (unfold len; rewrite length_drop; lia).
  assert (Hall : hash_leaf <$> leaves = pre ++ (hash_leaf <$> drop n leaves))
    by (unfold pre; by rewrite <- fmap_app, take_drop).
  assert (HN : Z.of_nat n < len leaves < two64) by (unfold len, two64 in *; lia).
  assert (Hne : pre <> []) by (intros E; rewrite E in *; unfold len in *; simpl in *; lia).
  rewrite ExpansionFromLeaves_spec in Epre by (unfold len in *; rewrite length_take; lia).
  rewrite ExpansionFromLeaves_spec in Epost by lia.
  injection Epre as <-. injection Epost as <-. fold pre in Erpre |- *.
  rewrite Root_expansion in Erpre; [|apply nonzero_leaves|done|lia]. injection Erpre as <-.
  rewrite Root_expansion in Erpost;
    [|apply nonzero_leaves|by destruct leaves; simpl in *|unfold len in *; rewrite length_fmap; lia].
  injection Erpost as <-.
  destruct (honest_proof pre (drop n leaves)) as (proof & numRead & Egen & Ecomp & _ & Hv);
    [done|apply nonzero_leaves| | |].
  - intros E. rewrite E in Hpost. unfold len in *. simpl in *. lia.
  - change (2 ^ 63) with 9223372036854775808. lia.
  - exists proof, numRead. rewrite <- Hall in Hv. rewrite <- Hpre. repeat split; [done..|].
    by replace (len leaves) with (len pre + len (drop n leaves)) by lia.
Qed.

End complete.

(** ** Witnesses *)

Lemma ExpansionFromLeaves_correct_witness :
  exists me, @ExpansionFromLeaves toy_keccak [11; 12; 13] = Ok me /\
    me = @expansion_of toy_keccak (@hash_leaf toy_keccak <$> [11; 12; 13]) /\
    TreeSize me = 3 /\
    @Root toy_keccak me = Ok (@merkle toy_keccak (@hash_leaf toy_keccak <$> [11; 12; 13])).
Proof. apply (@ExpansionFromLeaves_correct toy_keccak toy_nonzero [11; 12; 13]); done. Defined.

Lemma compact_roundtrip_witness :
  exists me comp, @ExpansionFromLeaves toy_keccak [11; 12; 13] = Ok me /\ len comp = 2 /\
    3 = len [11; 12; 13] /\ MerkleExpansionFromCompact (comp ++ [99]) 3 = Ok (me, len comp).
Proof.
  eexists _, _. split; [vm_compute; reflexivity|].
  split; [|eapply (@compact_roundtrip toy_keccak toy_nonzero [11; 12; 13]); [done|vm_compute; reflexivity..]].
  reflexivity.
Defined.

Lemma MerkleExpansionFromCompact_diverges_witness :
  2 ^ 63 <= 2 ^ 63 + 1 /\
  (from_compact_loop 1000 [] [7; 8] (2 ^ 63 + 1) 0 1 = NoFuel \/
   from_compact_loop 1000 [] [7; 8] (2 ^ 63 + 1) 0 1 = Panic SliceIndexOutOfRange).
Proof. split; [lia|]. apply MerkleExpansionFromCompact_diverges. lia. Defined.

Lemma prefix_proof_complete_witness :
  exists preExp preRoot postRoot proof numRead,
    @GeneratePrefixProof 2 preExp [13] (@RootFetcherFromExpansion toy_keccak) = Ok proof /\
    MerkleExpansionFromCompact proof 2 = Ok (preExp, numRead) /\
    @VerifyPrefixProof toy_keccak {|
      PreRoot := preRoot; PreSize := 2; PostRoot := postRoot; PostSize := 3;
      PreExpansion := preExp; PrefixProof := drop (Z.to_nat numRead) proof |} = Ok tt.
Proof.
  eexists _, _, _. eapply (@prefix_proof_complete toy_keccak toy_nonzero [11; 12; 13] 2);
    [simpl; lia|done|vm_compute; reflexivity..].
Defined.
