(* ===== verification/PrefixSound.v ===== *)
(** * Prefix proofs: what is accepted is a prefix

    With a collision-free hash, a proof accepted by [VerifyPrefixProof] against the
    root of a list of leaves determines the expansion it started from. *)

From S2P Require Import Prelude Bits PrefixProofs MerkleSpec PrefixComplete.

Section sound.
Context `{Hasher} `{!HasherNonzero} `{!HasherInjective}.

Lemma hash_node_inj a b c d : hash_node a b = hash_node c d -> a = c /\ b = d.
Proof. unfold hash_node. intros E%keccak_inj. by injection E. Qed.

Lemma hash_node_nonzero a b : hash_node a b <> zero_hash.
Proof. apply keccak_nonzero. Qed.

(** ** Shapes: which levels are present *)

Definition is_zero (h : Hash) : bool := h =? zero_hash.
Definition shape (me : list Hash) : list bool := is_zero <$> me.

Lemma is_zero_node a b : is_zero (hash_node a b) = false.
Proof. apply eqb_zero_false, hash_node_nonzero. Qed.

Lemma is_zero_spec h : is_zero h = true <-> h = zero_hash.
Proof. apply Z.eqb_eq. Qed.

Lemma length_shape me me' : shape me = shape me' -> length me = length me'.
Proof. intros E%(f_equal length). unfold shape in E. by rewrite !length_fmap in E. Qed.

Lemma len_shape me me' : shape me = shape me' -> len me = len me'.
Proof. intros E%length_shape. unfold len. by rewrite E. Qed.

Lemma root_step_inj n i a v a' v' :
  is_zero a = is_zero a' -> is_zero v = is_zero v' ->
  is_zero (root_step n i a v) = is_zero (root_step n i a' v') /\
  (root_step n i a v = root_step n i a' v' -> a = a' /\ v = v').
Proof.
  unfold root_step. fold (is_zero a) (is_zero v) (is_zero a') (is_zero v').
  intros Ha Hv. rewrite <- Ha, <- Hv.
  destruct (is_zero a) eqn:Ea, (is_zero v) eqn:Ev; symmetry in Ha, Hv;
    rewrite ?is_zero_spec in *; subst; rewrite ?is_zero_node.
  - done.
  - destruct (i =? n - 1); rewrite ?is_zero_node, ?Ev, ?Hv; split; try done.
    by intros [? _]%hash_node_inj.
  - split; [done|]. by intros [? _]%hash_node_inj.
  - split; [done|]. intros [? ?]%hash_node_inj. done.
Qed.

Lemma root_loop_inj n me : forall me' i a a',
  shape me = shape me' -> is_zero a = is_zero a' ->
  root_loop n i a me = root_loop n i a' me' -> a = a' /\ me = me'.
Proof.
  induction me as [|v me IH]; intros [|v' me'] i a a' Hs Ha E; simpl in *; try done.
  injection Hs as Hv Hs.
  destruct (root_step_inj n i a v a' v' Ha Hv) as [Hz Hinj].
  destruct (IH me' (i + 1) _ _ Hs Hz E) as [E1 ->]. by destruct (Hinj E1) as [-> ->].
Qed.

Lemma Root_inj me me' r :
  shape me = shape me' -> Root me = Ok r -> Root me' = Ok r -> me = me'.
Proof.
  intros Hs. unfold Root. rewrite <- (len_shape _ _ Hs).
  destruct (MAX_LEVEL <? len me); [done|]. destruct (len me =? 0); [done|].
  intros [= E] [= E']. rewrite <- E in E'. symmetry in E'.
  by destruct (root_loop_inj _ _ _ _ _ _ Hs eq_refl E').
Qed.

(** ** Appending, on shapes *)

Lemma append_loop_shape level me : forall me' i x x' r,
  shape me = shape me' -> is_zero x = is_zero x' ->
  append_loop level i x me = Ok r ->
  exists r', append_loop level i x' me' = Ok r' /\
    shape r.1 = shape r'.1 /\ is_zero r.2 = is_zero r'.2 /\ (r = r' -> me = me' /\ x = x').
Proof.
  induction me as [|h me IH]; intros [|h' me'] i x x' r Hs Hx E; try done.
  { injection E as <-. eexists; split; [reflexivity|]. simpl. split_and!; try done. intros [= ->]. done. }
  injection Hs as Hh Hs. cbn [append_loop] in *.
  fold (is_zero h) (is_zero h') (is_zero x) (is_zero x') in *.
  rewrite <- Hh, <- Hx. destruct (i <? level).
  - destruct (is_zero h) eqn:Eh; [|done]. symmetry in Hh. rewrite is_zero_spec in *. subst.
    unfold mbind, res_bind in *. destruct (append_loop level (i + 1) x me) as [[nx ac]| | |] eqn:El; try done.
    destruct (IH me' _ _ x' _ Hs Hx El) as ([nx' ac'] & -> & Hn & Ha & Hi). injection E as <-.
    eexists; split; [reflexivity|]. simpl in *. rewrite Hn. split_and!; try done.
    intros [= -> ->]. by destruct Hi as [-> ->].
  - unfold mbind, res_bind in *. destruct (is_zero x) eqn:Ex.
    + destruct (append_loop level (i + 1) x me) as [[nx ac]| | |] eqn:El; try done.
      destruct (IH me' _ _ x' _ Hs ltac:(by rewrite Ex) El) as ([nx' ac'] & -> & Hn & Ha & Hi).
      injection E as <-. eexists; split; [reflexivity|]. simpl in *. rewrite Hn, Hh.
      split_and!; try done. intros [= -> -> ->]. by destruct Hi as [-> ->].
    + destruct (is_zero h) eqn:Eh.
      * symmetry in Hh. rewrite is_zero_spec in *. subst.
        destruct (append_loop level (i + 1) zero_hash me) as [[nx ac]| | |] eqn:El; try done.
        destruct (IH me' _ _ zero_hash _ Hs eq_refl El) as ([nx' ac'] & -> & Hn & Ha & Hi).
        injection E as <-. eexists; split; [reflexivity|]. simpl in *. rewrite Hn.
        fold (is_zero x) (is_zero x'). rewrite Ex, <- Hx.
        split_and!; try done. intros [= -> -> ->]. by destruct Hi as [-> _].
      * destruct (append_loop level (i + 1) (hash_node h x) me) as [[nx ac]| | |] eqn:El; try done.
        destruct (IH me' _ _ (hash_node h' x') _ Hs ltac:(by rewrite !is_zero_node) El)
          as ([nx' ac'] & -> & Hn & Ha & Hi).
        injection E as <-. eexists; split; [reflexivity|]. simpl in *. rewrite Hn.
        split_and!; try done.
        intros [= -> ->]. destruct Hi as [-> Hi]; [done|]. by apply hash_node_inj in Hi as [-> ->].
Qed.

Lemma AppendCompleteSubTree_inj me me' level x x' r r' :
  shape me = shape me' ->
  AppendCompleteSubTree me level x = Ok r -> AppendCompleteSubTree me' level x' = Ok r' ->
  shape r = shape r' /\ (r = r' -> me = me').
Proof.
  intros Hs. unfold AppendCompleteSubTree. rewrite <- (len_shape _ _ Hs).
  fold (is_zero x) (is_zero x').
  destruct (MAX_LEVEL <=? level); [done|].
  destruct (is_zero x) eqn:Ex; [done|]. destruct (is_zero x') eqn:Ex'; [intros _; done|].
  destruct (MAX_LEVEL <? len me); [done|]. destruct (len me =? 0) eqn:E0.
  { intros [= <-] [= <-]. apply Z.eqb_eq in E0. pose proof (len_shape _ _ Hs) as El.
    unfold len in *. destruct me, me'; simpl in *; try lia.
    split; [|done]. unfold shape. rewrite !fmap_app. simpl. by rewrite Ex, Ex'. }
  destruct (len me <=? level); [done|]. unfold mbind, res_bind.
  destruct (append_loop level 0 x me) as [[nx ac]| | |] eqn:El; try done.
  destruct (append_loop_shape level me me' 0 x x' (nx, ac) Hs) as ([nx' ac'] & -> & Hn & Ha & Hi);
    [by rewrite Ex, Ex'|done|]. cbn [fst snd] in *.
  fold (is_zero ac) (is_zero ac'). rewrite <- Ha. pose proof (length_shape _ _ Hn) as Hl.
  destruct (is_zero ac) eqn:Eac.
  - rewrite (len_shape _ _ Hn). destruct (_ <=? _); [done|]. intros [= <-] [= <-].
    split; [done|]. intros ->. symmetry in Ha. rewrite is_zero_spec in *. subst. by apply Hi.
  - rewrite !len_app, (len_shape _ _ Hn). destruct (_ <=? _); [done|]. intros [= <-] [= <-].
    split.
    + unfold shape in *. rewrite !fmap_app, Hn. simpl. by rewrite Eac, <- Ha.
    + intros E%app_inj_1; [|done]. destruct E as [-> [= ->]]. by apply Hi.
Qed.

(** Two accepted runs from expansions of the same shape: the shapes stay equal,
    and a common result forces a common start. *)
Lemma verify_loop_inj fuel fuel' : forall proof proof' postSize me me' size i i' r r',
  shape me = shape me' ->
  verify_loop fuel proof postSize me size i = Ok r ->
  verify_loop fuel' proof' postSize me' size i' = Ok r' ->
  shape r.1 = shape r'.1 /\ (r.1 = r'.1 -> me = me').
Proof.
  revert fuel'. induction fuel as [|fuel IH]; [done|].
  intros [|fuel'] proof proof' postSize me me' size i i' r r' Hs; [done|].
  cbn [verify_loop]. destruct (size <? postSize); [|by intros [= <-] [= <-]].
  unfold mbind, res_bind. destruct (MaximumAppendBetween size postSize) as [level| | |]; try done.
  destruct (proof !! Z.to_nat i) as [p|]; [|done].
  destruct (proof' !! Z.to_nat i') as [p'|]; [|done].
  destruct (AppendCompleteSubTree me level p) as [e| | |] eqn:Ea; try done.
  destruct (AppendCompleteSubTree me' level p') as [e'| | |] eqn:Ea'; try done.
  destruct (postSize <? _); [done|]. intros E E'.
  destruct (AppendCompleteSubTree_inj _ _ _ _ _ _ _ Hs Ea Ea') as [Hs1 Hi1].
  destruct (IH _ _ _ _ _ _ _ _ _ _ _ Hs1 E E') as [Hs2 Hi2]. auto.
Qed.

(** ** The size determines the shape *)

Fixpoint bval (me : list Hash) : Z :=
  match me with
  | [] => 0
  | h :: me' => (if is_zero h then 0 else 1) + 2 * bval me'
  end.

Fixpoint last_level (me : list Hash) : option Hash :=
  match me with
  | [] => None
  | [h] => Some h
  | _ :: me' => last_level me'
  end.

(** No level above the highest present one: Go's builders never leave one. *)
Definition canonical (me : list Hash) : Prop := last_level me <> Some zero_hash.

Lemma bval_bound me : 0 <= bval me < 2 ^ len me.
Proof.
  induction me as [|h me IH]; [done|]. cbn [bval].
  replace (len (h :: me)) with (len me + 1) by (unfold len; simpl; lia).
  rewrite Z.pow_add_r by (apply len_nonneg || lia). destruct (is_zero h); lia.
Qed.

Lemma tree_size_bval me : forall i sum,
  0 <= i -> 0 <= sum -> sum + 2 ^ i * bval me < two64 ->
  tree_size_loop i sum me = sum + 2 ^ i * bval me.
Proof.
  induction me as [|h me IH]; intros i sum Hi Hs Hlt; cbn [tree_size_loop bval] in *; [lia|].
  fold (is_zero h). assert (0 < 2 ^ i) by (apply Z.pow_pos_nonneg; lia).
  assert (E : 2 ^ (i + 1) = 2 * 2 ^ i) by (rewrite Z.pow_add_r by lia; lia).
  pose proof (bval_bound me). destruct (is_zero h).
  - rewrite IH; rewrite ?E; nia.
  - rewrite u64_small by nia. rewrite IH; rewrite ?E; nia.
Qed.

Lemma TreeSize_bval me : len me <= 64 -> TreeSize me = bval me.
Proof.
  intros Hl. unfold TreeSize. pose proof (bval_bound me).
  assert (2 ^ len me <= 2 ^ 64) by (apply Z.pow_le_mono_r; lia).
  rewrite tree_size_bval; rewrite ?two64_pow; lia.
Qed.

Lemma canonical_tail h me : canonical (h :: me) -> canonical me.
Proof. unfold canonical. by destruct me. Qed.

Lemma bval_pos me : canonical me -> me <> [] -> 0 < bval me.
Proof.
  induction me as [|h me IH]; [done|]. intros Hc _. cbn [bval]. pose proof (bval_bound me).
  destruct me as [|h' me].
  - destruct (is_zero h) eqn:E; [|done]. apply is_zero_spec in E. subst. by destruct Hc.
  - assert (0 < bval (h' :: me)) by (apply IH; [by apply canonical_tail in Hc|done]).
    destruct (is_zero h); lia.
Qed.

Lemma bval_shape me : forall me',
  canonical me -> canonical me' -> bval me = bval me' -> shape me = shape me'.
Proof.
  induction me as [|h me IH]; intros [|h' me'] Hc Hc' E; [done| | |].
  - pose proof (bval_pos _ Hc' ltac:(done)). simpl in *. lia.
  - pose proof (bval_pos _ Hc ltac:(done)). simpl in *. lia.
  - cbn [bval] in E. cbn [shape fmap list_fmap].
    assert (is_zero h = is_zero h' /\ bval me = bval me') as [Eh Em]
      by (destruct (is_zero h), (is_zero h'); split; done || lia).
    rewrite Eh. f_equal. apply IH; eauto using canonical_tail.
Qed.

Lemma canonical_expansion ns : nonzero ns -> canonical (expansion_of ns).
Proof.
  induction ns as [|ns Hne IH] using layer_ind; intros Hns; [done|].
  rewrite expansion_of_nonempty by done. pose proof (IH (nonzero_pairup _)) as Hc.
  destruct ns as [|x [|y ns]]; [done| |].
  - unfold canonical. cbn. intros [= E]. by apply Forall_inv in Hns.
  - cbn [pairup] in *. rewrite expansion_of_nonempty in * by done. exact Hc.
Qed.

(** The branches of an accepting run. *)
Lemma VerifyPrefixProof_ok cfg :
  VerifyPrefixProof cfg = Ok tt ->
  PreSize cfg <> 0 /\ PreSize cfg < PostSize cfg /\
  Root (PreExpansion cfg) = Ok (PreRoot cfg) /\
  PreSize cfg = TreeSize (PreExpansion cfg) /\
  exists exp fuel, verify_loop fuel (PrefixProof cfg) (PostSize cfg) (PreExpansion cfg)
      (PreSize cfg) 0 = Ok (exp, len (PrefixProof cfg)) /\
    Root exp = Ok (PostRoot cfg).
Proof.
  unfold VerifyPrefixProof, mbind, res_bind, wrap_err.
  destruct (Z.eqb_spec (PreSize cfg) 0); [done|].
  destruct (Root (PreExpansion cfg)) as [r| | |] eqn:Er; try done.
  destruct (Z.eqb_spec r (PreRoot cfg)) as [->|]; [|done]. cbn [negb].
  destruct (Z.eqb_spec (PreSize cfg) (TreeSize (PreExpansion cfg))); [|done]. cbn [negb].
  destruct (Z.leb_spec (PostSize cfg) (PreSize cfg)); [done|].
  destruct (verify_loop _ _ _ _ _ _) as [[exp i]| | |] eqn:Ev; try done.
  destruct (Root exp) as [g| | |] eqn:Eg; try done.
  destruct (Z.eqb_spec g (PostRoot cfg)) as [->|]; [|done]. cbn [negb].
  destruct (Z.eqb_spec i (len (PrefixProof cfg))) as [->|]; [|done]. intros _. eauto 10.
Qed.

(** An honest run between a prefix of the leaves and the leaves. *)
Lemma verify_loop_honest leaves n :
  (0 < n <= length leaves)%nat -> len leaves < two64 ->
  exists fuel proof i,
    verify_loop fuel proof (len leaves) (expansion_of (hash_leaf <$> take n leaves))
      (Z.of_nat n) 0 = Ok (expansion_of (hash_leaf <$> leaves), i).
Proof.
  intros Hn Hlt.
  destruct (generate_loop_spec (len leaves) (length leaves) (Z.of_nat n) (drop n leaves) [])
    as (proof & Hsub & _); try (unfold len; rewrite length_drop); try lia.
  pose proof (subtrees_length _ _ _ _ Hsub) as Hl. rewrite length_fmap, length_drop in Hl.
  exists (S (length proof)), proof, (len proof).
  pose proof (verify_loop_subtrees _ _ _ _ Hsub (hash_leaf <$> take n leaves) []
    (S (length proof))) as Hv.
  rewrite <- fmap_app, take_drop in Hv. cbn [app] in Hv. apply Hv;
    try apply nonzero_leaves; unfold len in *; rewrite ?length_fmap, ?length_take; lia.
Qed.

(** The post root determines the pre-expansion, up to its shape. *)
Lemma accepted_expansion cfg leaves :
  VerifyPrefixProof cfg = Ok tt -> canonical (PreExpansion cfg) ->
  PostSize cfg = len leaves -> len leaves < two64 ->
  PostRoot cfg = merkle (hash_leaf <$> leaves) ->
  0 < PreSize cfg /\
  PreExpansion cfg = expansion_of (hash_leaf <$> take (Z.to_nat (PreSize cfg)) leaves).
Proof.
  intros Hv Hc Hps Hlt Hpr.
  destruct (VerifyPrefixProof_ok _ Hv) as (Hnz & Hpp & Hroot & Hts & exp & fuel & Hloop & Hpost).
  assert (Hl : len (PreExpansion cfg) <= 64).
  { unfold Root, MAX_LEVEL in Hroot. destruct (Z.ltb_spec 64 (len (PreExpansion cfg))); [done|lia]. }
  rewrite TreeSize_bval in Hts by done. pose proof (bval_bound (PreExpansion cfg)).
  set (n := Z.to_nat (PreSize cfg)) in *. assert (Hn : PreSize cfg = Z.of_nat n) by lia.
  split; [lia|]. rewrite Hps in *.
  destruct (verify_loop_honest leaves n) as (fuel' & proof & i & Hh); [unfold len in *; lia|done|].
  rewrite Hn in Hloop.
  set (ns := hash_leaf <$> take n leaves) in *.
  assert (Hlen : len ns = Z.of_nat n)
    by (unfold len, ns in *; rewrite length_fmap, length_take; lia).
  assert (Hs : shape (PreExpansion cfg) = shape (expansion_of ns)).
  { apply bval_shape; [done|apply canonical_expansion, nonzero_leaves|].
    rewrite <- Hts, <- TreeSize_bval, TreeSize_expansion; try apply nonzero_leaves; try lia.
    apply len_expansion_le; lia. }
  destruct (verify_loop_inj _ _ _ _ _ _ _ _ _ _ _ _ Hs Hloop Hh) as [Hs' Hi].
  cbn [fst] in *. apply Hi. eapply Root_inj; [done..|].
  rewrite Hpr. apply Root_expansion; [apply nonzero_leaves| |].
  - destruct leaves; [unfold len in *; simpl in *; lia|done].
  - unfold len in *. by rewrite length_fmap.
Qed.

(** (C4) Soundness of prefix proofs, for a collision-free hash: when
    [VerifyPrefixProof] accepts a proof against the root of a list of leaves, and
    the pre-expansion has no empty top level, then the pre-size is the size of a
    proper non-empty prefix of those leaves, the pre-expansion is the expansion of
    that prefix and the pre-root is its root.  So a validator that bisects to a
    root proved this way commits to a prefix of its history and to nothing else. *)
Theorem prefix_proof_sound cfg leaves postExp :
  VerifyPrefixProof cfg = Ok tt -> canonical (PreExpansion cfg) ->
  PostSize cfg = len leaves -> len leaves < two64 ->
  ExpansionFromLeaves leaves = Ok postExp -> Root postExp = Ok (PostRoot cfg) ->
  0 < PreSize cfg < len leaves /\
  ExpansionFromLeaves (take (Z.to_nat (PreSize cfg)) leaves) = Ok (PreExpansion cfg) /\
  RootFetcherFromExpansion leaves (PreSize cfg) = Ok (PreRoot cfg).
Proof.
  intros Hv Hc Hps Hlt He Hr.
  destruct (VerifyPrefixProof_ok _ Hv) as (Hnz & Hpp & Hroot & _).
  rewrite ExpansionFromLeaves_spec in He by done. injection He as <-.
  assert (Hne : leaves <> []).
  { intros ->. by vm_compute in Hr. }
  rewrite Root_expansion in Hr;
    [|apply nonzero_leaves|by destruct leaves|unfold len in *; by rewrite length_fmap].
  injection Hr as Hr.
  destruct (accepted_expansion cfg leaves Hv Hc Hps Hlt (eq_sym Hr)) as [Hpos E].
  rewrite Hps in Hpp. split; [lia|].
  assert (Ee : ExpansionFromLeaves (take (Z.to_nat (PreSize cfg)) leaves) = Ok (PreExpansion cfg)).
  { rewrite ExpansionFromLeaves_spec; [by rewrite E|]. unfold len in *. rewrite length_take. lia. }
  split; [done|]. unfold RootFetcherFromExpansion, slice_to.
  destruct (Z.ltb_spec (len leaves) (PreSize cfg)); [lia|].
  unfold mbind, res_bind. by rewrite Ee.
Qed.


(** Evaluation of the verifier on words that are only known to be present. *)
Lemma eqb_node a b : (hash_node a b =? zero_hash) = false.
Proof. apply eqb_zero_false, hash_node_nonzero. Qed.

Lemma root_step_present n i v :
  (v =? zero_hash) = false -> (i =? n - 1) = false ->
  root_step n i zero_hash v = hash_node v zero_hash.
Proof. unfold root_step. by intros -> ->. Qed.

Lemma root_step_absent n i a b :
  root_step n i (hash_node a b) zero_hash = hash_node (hash_node a b) zero_hash.
Proof. unfold root_step. by rewrite eqb_node. Qed.

Lemma verify_padded x y :
  (x =? zero_hash) = false -> (y =? zero_hash) = false ->
  VerifyPrefixProof
    {| PreRoot := hash_node (hash_node x zero_hash) zero_hash; PreSize := 2;
       PostRoot := hash_node x y; PostSize := 4;
       PreExpansion := [zero_hash; x; zero_hash]; PrefixProof := [y] |} = Ok tt.
Proof.
  intros Hx Hy.
  assert (Er : Root [zero_hash; x; zero_hash] = Ok (hash_node (hash_node x zero_hash) zero_hash)).
  { unfold Root. cbn [root_loop]. change (Ok (root_step 3 2 (root_step 3 1 zero_hash x) zero_hash) = Ok (hash_node (hash_node x zero_hash) zero_hash)). rewrite (root_step_present 3 1 x), (root_step_absent 3 2) by done.
    done. }
  assert (Et : TreeSize [zero_hash; x; zero_hash] = 2).
  { unfold TreeSize. cbn [tree_size_loop]. by rewrite Z.eqb_refl, Hx. }
  assert (Ea : AppendCompleteSubTree [zero_hash; x; zero_hash] 1 y
    = Ok [zero_hash; zero_hash; hash_node x y]).
  { unfold AppendCompleteSubTree. rewrite Hy. cbn [append_loop]. rewrite Hx, Hy, eqb_node, !Z.eqb_refl.
    done. }
  assert (Ep : Root [zero_hash; zero_hash; hash_node x y] = Ok (hash_node x y)).
  { change (Ok (root_step 3 2 zero_hash (hash_node x y)) = Ok (hash_node x y)).
    unfold root_step. by rewrite eqb_node. }
  assert (Ev : verify_loop 2 [y] 4 [zero_hash; x; zero_hash] 2 0
    = Ok ([zero_hash; zero_hash; hash_node x y], 1)).
  { cbn [verify_loop]. change (2 <? 4) with true. change (MaximumAppendBetween 2 4) with (Ok 1).
    change ([y] !! Z.to_nat 0) with (Some y). unfold mbind, res_bind. by rewrite Ea. }
  unfold VerifyPrefixProof. cbn [PreSize PostSize PreExpansion PostRoot PreRoot PrefixProof length].
  unfold mbind, res_bind, wrap_err. by rewrite Er, Et, Ev, Ep, !Z.eqb_refl.
Qed.

(** The canonicity condition of the soundness theorem is needed: for any four
    leaves, [VerifyPrefixProof] also accepts, at pre-size 2 and post-size 4, a
    pre-expansion with an empty top level, whose root is not the root of the first
    two leaves.  The code checks the size and the root of the pre-expansion but
    not that its top level is present. *)
Theorem prefix_proof_malleable a b c d :
  exists cfg postExp,
    VerifyPrefixProof cfg = Ok tt /\ PreSize cfg = 2 /\ PostSize cfg = 4 /\
    ExpansionFromLeaves [a; b; c; d] = Ok postExp /\ Root postExp = Ok (PostRoot cfg) /\
    ~ canonical (PreExpansion cfg) /\
    RootFetcherFromExpansion [a; b; c; d] 2 <> Ok (PreRoot cfg).
Proof.
  set (ab := hash_node (hash_leaf a) (hash_leaf b)).
  set (cd := hash_node (hash_leaf c) (hash_leaf d)).
  assert (He : forall l, len l < two64 ->
    ExpansionFromLeaves l = Ok (expansion_of (hash_leaf <$> l))) by apply ExpansionFromLeaves_spec.
  assert (Hr : forall l, l <> [] -> len l < two64 ->
    Root (expansion_of (hash_leaf <$> l)) = Ok (merkle (hash_leaf <$> l))).
  { intros l Hne Hl. apply Root_expansion;
      [apply nonzero_leaves|by destruct l|unfold len in *; by rewrite length_fmap]. }
  eexists _, _. split; [apply (verify_padded ab cd); apply eqb_node|].
  cbn [PreSize PostSize PreExpansion PostRoot PreRoot]. split_and!; try done.
  - by apply (He [a; b; c; d]).
  - by apply (Hr [a; b; c; d]).
  - unfold canonical. intros Hc. by apply Hc.
  - change (RootFetcherFromExpansion [a; b; c; d] 2) with
      (exp ← ExpansionFromLeaves [a; b]; Root exp).
    rewrite He by done. unfold mbind, res_bind. rewrite Hr by done. intros [= E].
    change (ab = hash_node (hash_node ab zero_hash) zero_hash) in E.
    apply hash_node_inj in E as [_ E]. exact (keccak_nonzero _ E).
Qed.

End sound.

(** ** Witnesses *)

Definition ex_leaves : list Hash := [11; 12; 13].

Definition ex_cfg : @VerifyPrefixProofConfig :=
  let H : Hasher := toy_keccak in
  let root l := match (e ← ExpansionFromLeaves l; Root e) with Ok r => r | _ => zero_hash end in
  {| PreRoot := root [11; 12]; PreSize := 2; PostRoot := root ex_leaves; PostSize := 3;
     PreExpansion := [zero_hash; hash_node (hash_leaf 11) (hash_leaf 12)];
     PrefixProof := [hash_leaf 13] |}.

Lemma prefix_proof_sound_witness :
  0 < 2 < 3 /\
  @ExpansionFromLeaves toy_keccak [11; 12] = Ok (PreExpansion ex_cfg) /\
  @RootFetcherFromExpansion toy_keccak ex_leaves 2 = Ok (PreRoot ex_cfg).
Proof.
  apply (@prefix_proof_sound toy_keccak toy_nonzero toy_injective ex_cfg ex_leaves
    (expansion_of (H := toy_keccak) (hash_leaf (H := toy_keccak) <$> ex_leaves)));
    vm_compute; done.
Defined.

Lemma prefix_proof_malleable_witness :
  exists cfg postExp,
    @VerifyPrefixProof toy_keccak cfg = Ok tt /\ PreSize cfg = 2 /\ PostSize cfg = 4 /\
  @ExpansionFromLeaves toy_keccak [1; 2; 3; 4] = Ok postExp /\
  @Root toy_keccak postExp = Ok (PostRoot cfg) /\
  ~ canonical (PreExpansion cfg) /\
  @RootFetcherFromExpansion toy_keccak [1; 2; 3; 4] 2 <> Ok (PreRoot cfg).
Proof. apply (@prefix_proof_malleable toy_keccak toy_nonzero toy_injective). Defined.
