(* ===== verification/InclusionProofs.v ===== *)
(** * Inclusion proofs

    [state-commitments/inclusion-proofs]: the full Merkle tree of a list of leaves,
    the sibling path of a leaf, and the root computed from such a path.  The
    goroutines that hash the leaves are modelled by the list of index writes they
    perform, which the scheduler may interleave. *)

From S2P Require Import Prelude Bits PrefixProofs MerkleSpec.

Section with_hasher.
Context `{Hasher}.

Definition ErrProofTooLong : error := Sentinel "inclusionproofs.ErrProofTooLong".
Definition ErrInvalidLeaves : error := Sentinel "inclusionproofs.ErrInvalidLeaves".

(** [s[i]] on an index the code keeps in range. *)
Definition at_idx (l : list Hash) (i : nat) : Hash := default zero_hash (l !! i).

(** The inner loop of [FullTree]. *)
Definition next_layer (prevLayer : list Hash) : list Hash :=
  (fun i =>
     if (2 * i + 1 <? length prevLayer)%nat
     then hash_node (at_idx prevLayer (2 * i)) (at_idx prevLayer (2 * i + 1))
     else hash_node (at_idx prevLayer (2 * i)) zero_hash)
  <$> seq 0 ((length prevLayer + 1) / 2).

(** The outer loop: a layer of more than one node is longer than the next one. *)
Fixpoint full_tree_loop (fuel : nat) (layers : list (list Hash)) (l : nat) (prevLayer : list Hash)
    : res (list (list Hash)) :=
  if (1 <? length prevLayer)%nat then
    match fuel with
    | O => NoFuel
    | S fuel' =>
        let nextLayer := next_layer prevLayer in
        if (l <? length layers)%nat
        then full_tree_loop fuel' (<[l := nextLayer]> layers) (S l) nextLayer
        else Panic SliceIndexOutOfRange
    end
  else Ok layers.

Definition FullTree (leaves : list Hash) : res (list (list Hash)) :=
  msb ← MostSignificantBit (len leaves);
  lsb ← LeastSignificantBit (len leaves);
  let maxLevel := if msb =? lsb then msb else msb + 1 in
  let layers := <[0%nat := leaves]> (replicate (Z.to_nat (maxLevel + 1)) []) in
  full_tree_loop (length leaves) layers 1 leaves.

(** The indices written by the goroutines of [GenerateInclusionProof], each
    goroutine's in its program order. *)
Definition worker_writes (gomaxprocs n : nat) : list (list nat) :=
  let batchSize := (n / gomaxprocs)%nat in
  let batchRemainder := (n mod gomaxprocs)%nat in
  ((fun i => seq (i * batchSize) batchSize) <$> seq 0 (gomaxprocs - 1)) ++
  [seq ((gomaxprocs - 1) * batchSize) (batchSize + batchRemainder)].

(** The writes [rehashed[j] = Keccak256Hash(leaves[j])] in the order they happen. *)
Definition run_writes (leaves : list Hash) (writes : list nat) (rehashed : list Hash) : list Hash :=
  fold_left (fun acc j => <[j := hash_leaf (at_idx leaves j)]> acc) writes rehashed.

(** The loop over the levels of the proof. *)
Definition proof_at (fullT : list (list Hash)) (idx : Z) (level : nat) : res Hash :=
  match fullT !! level with
  | None => Panic SliceIndexOutOfRange
  | Some layer =>
      let levelIndex := Z.shiftr idx (Z.of_nat level) in
      let counterpartIndex := Z.lxor levelIndex 1 in
      Ok (if counterpartIndex <=? u64 (len layer - 1)
          then at_idx layer (Z.to_nat counterpartIndex) else zero_hash)
  end.

Fixpoint proof_loop (fullT : list (list Hash)) (idx : Z) (levels : list nat) : res (list Hash) :=
  match levels with
  | [] => Ok []
  | level :: levels' =>
      p ← proof_at fullT idx level;
      ps ← proof_loop fullT idx levels';
      Ok (p :: ps)
  end.

(** [schedule] is the order in which the writes of the goroutines take effect. *)
Definition GenerateInclusionProof (schedule : list nat) (leaves : list Hash) (idx : Z)
    : res (list Hash) :=
  if len leaves =? 0 then Err ErrInvalidLeaves
  else if len leaves <=? idx then Err ErrInvalidLeaves
  else if len leaves =? 1 then Ok []
  else
    let rehashed := run_writes leaves schedule (replicate (length leaves) zero_hash) in
    fullT ← FullTree rehashed;
    maxLevel ← MostSignificantBit (u64 (len rehashed - 1));
    proof_loop fullT idx (seq 0 (Z.to_nat (maxLevel + 1))).

(** [index & (1 << i)]: the constant is a [uint64], so bits from 64 on are zero. *)
Fixpoint calculate_loop (index i : Z) (h : Hash) (proof : list Hash) : Hash :=
  match proof with
  | [] => h
  | node :: proof' =>
      calculate_loop index (i + 1)
        (if Z.land index (shl64 1 i) =? 0 then hash_node h node else hash_node node h) proof'
  end.

Definition CalculateRootFromProof (proof : list Hash) (index : Z) (leaf : Hash) : res Hash :=
  if 256 <? len proof then Err ErrProofTooLong
  else Ok (calculate_loop index 0 (hash_leaf leaf) proof).

(** ** The layers of the tree *)

Lemma at_idx_cons2 x y l i : at_idx (x :: y :: l) (2 + i) = at_idx l i.
Proof. done. Qed.

Lemma next_layer_padlayer ns : next_layer ns = padlayer ns.
Proof.
  induction ns as [|x|x y l IH] using pair_ind; [done|done|].
  cbn [padlayer]. rewrite <- IH. unfold next_layer.
  replace ((length (x :: y :: l) + 1) / 2)%nat with (S ((length l + 1) / 2)).
  2: { cbn [length]. replace (S (S (length l)) + 1)%nat with (1 * 2 + (length l + 1))%nat by lia.
       by rewrite Nat.div_add_l by lia. }
  cbn [seq fmap list_fmap]. f_equal. rewrite <- fmap_S_seq, <- list_fmap_compose.
  apply list_fmap_ext. intros i j _. unfold compose.
  replace (2 * S j)%nat with (2 + 2 * j)%nat by lia. cbn [length].
  replace (2 + 2 * j + 1 <? S (S (length l)))%nat with (2 * j + 1 <? length l)%nat
    by (destruct (Nat.ltb_spec (2 * j + 1) (length l)), (Nat.ltb_spec (2 + 2 * j + 1) (S (S (length l)))); lia).
  replace (2 + 2 * j + 1)%nat with (2 + (2 * j + 1))%nat by lia.
  by rewrite !at_idx_cons2.
Qed.

(** The nodes [k] levels up. *)
Definition layer_at (ns : list Hash) (k : nat) : list Hash := Nat.iter k padlayer ns.

Lemma length_layer ns k :
  ns <> [] ->
  (1 <= length (layer_at ns k) /\
   2 ^ k * (length (layer_at ns k) - 1) < length ns <= 2 ^ k * length (layer_at ns k))%nat.
Proof.
  intros Hne. assert (1 <= length ns)%nat by (destruct ns; simpl; [done|lia]).
  induction k as [|k IH]; [simpl; lia|].
  change (layer_at ns (S k)) with (padlayer (layer_at ns k)).
  rewrite length_padlayer, Nat.pow_succ_r'. set (m := length (layer_at ns k)) in *.
  pose proof (Nat.div2_odd (S m)) as D. destruct (Nat.odd (S m)); simpl Nat.b2n in D; nia.
Qed.

Lemma layer_more ns k : ns <> [] -> (1 < length (layer_at ns k) <-> 2 ^ k < length ns)%nat.
Proof. intros Hne. pose proof (length_layer ns k Hne). split; nia. Qed.

(** [1 + log2 (n - 1)] levels reduce [n >= 2] nodes to one. *)
Lemma pow_log2_pred n k :
  (2 <= n)%nat -> (2 ^ k < n)%nat <-> (k < Z.to_nat (Z.log2 (Z.of_nat n - 1) + 1))%nat.
Proof.
  intros Hn. pose proof (Z.log2_nonneg (Z.of_nat n - 1)).
  assert (E : Z.of_nat (2 ^ k) = 2 ^ Z.of_nat k) by apply Nat2Z.inj_pow.
  pose proof (Z.log2_le_pow2 (Z.of_nat n - 1) (Z.of_nat k)) as L. split; intros Hk.
  - assert (2 ^ Z.of_nat k <= Z.of_nat n - 1) by lia. apply L in H1; lia.
  - assert (2 ^ Z.of_nat k <= Z.of_nat n - 1) by (apply L; lia). lia.
Qed.

Lemma layer_at_S ns k : layer_at ns (S k) = padlayer (layer_at ns k).
Proof. done. Qed.

Lemma full_tree_loop_spec ns fuel : forall k layers,
  (2 <= length ns)%nat ->
  let L := Z.to_nat (Z.log2 (len ns - 1) + 1) in
  (L < length layers)%nat -> (length (layer_at ns k) <= S fuel)%nat ->
  (forall j, j <= k -> j <= L -> layers !! j = Some (layer_at ns j))%nat ->
  exists layers', full_tree_loop fuel layers (S k) (layer_at ns k) = Ok layers' /\
    forall j, (j <= L)%nat -> layers' !! j = Some (layer_at ns j).
Proof.
  induction fuel as [|fuel IH]; intros k layers Hn L HL Hf Hlay;
    assert (Hne : ns <> []) by (by intros ->; simpl in Hn; lia);
    pose proof (layer_more ns k Hne) as Hmore;
    pose proof (pow_log2_pred (length ns) k Hn) as Hpow; fold (len ns) L in Hpow;
    cbn [full_tree_loop]; destruct (Nat.ltb_spec 1 (length (layer_at ns k))) as [Hlt|Hge].
  - lia.
  - exists layers. split; [done|]. intros j Hj. apply Hlay; lia.
  - destruct (Nat.ltb_spec (S k) (length layers)) as [Hl|Hl]; [|lia].
    rewrite next_layer_padlayer, <- layer_at_S. apply IH; [done|by rewrite length_insert| |].
    + rewrite layer_at_S, length_padlayer. pose proof (Nat.div2_odd (S (length (layer_at ns k)))).
      destruct (Nat.odd _); simpl Nat.b2n in *; lia.
    + intros j Hj HjL. destruct (decide (j = S k)) as [->|].
      * by rewrite list_lookup_insert_eq.
      * rewrite list_lookup_insert_ne by done. apply Hlay; lia.
  - exists layers. split; [done|]. intros j Hj. apply Hlay; lia.
Qed.

(** The number of levels [FullTree] allocates is enough. *)
Lemma max_level_enough n :
  2 <= n -> let maxLevel := if Z.log2 n =? TrailingZeros64 n then Z.log2 n else Z.log2 n + 1 in
  Z.log2 (n - 1) + 1 <= maxLevel.
Proof.
  intros Hn. cbv zeta. destruct (Z.eqb_spec (Z.log2 n) (TrailingZeros64 n)) as [E|].
  - destruct (TrailingZeros64_spec n ltac:(lia)) as (q & Hq & En & Hc). rewrite <- E in *.
    pose proof (Z.log2_spec n ltac:(lia)) as [Hlo Hhi]. rewrite Z.pow_succ_r in Hhi by lia.
    assert (q = 0) by nia. subst q.
    assert (Z.log2 (n - 1) < Z.log2 n); [|lia].
    apply Z.log2_lt_pow2; lia.
  - assert (Z.log2 (n - 1) <= Z.log2 n) by (apply Z.log2_le_mono; lia). lia.
Qed.

Lemma FullTree_spec ns :
  (2 <= length ns)%nat ->
  exists layers, FullTree ns = Ok layers /\
    forall j, (j <= Z.to_nat (Z.log2 (len ns - 1) + 1))%nat -> layers !! j = Some (layer_at ns j).
Proof.
  intros Hn. unfold FullTree.
  assert (2 <= len ns) by (unfold len; lia).
  rewrite MostSignificantBit_pos, LeastSignificantBit_pos by lia. unfold mbind, res_bind.
  pose proof (max_level_enough (len ns) ltac:(lia)) as Hmax. cbv zeta in Hmax |- *.
  set (maxLevel := if _ =? _ then _ else _) in *.
  pose proof (Z.log2_nonneg (len ns - 1)).
  apply (full_tree_loop_spec ns (length ns) 0); try done.
  - rewrite length_insert, length_replicate. lia.
  - simpl. lia.
  - intros j Hj _. replace j with O by lia. apply list_lookup_insert_eq. rewrite length_replicate. lia.
Qed.

(** ** Hashing the leaves in parallel *)

Lemma length_run_writes leaves writes acc : length (run_writes leaves writes acc) = length acc.
Proof.
  revert acc. induction writes as [|j writes IH]; intros acc; [done|].
  unfold run_writes in *. cbn [fold_left]. rewrite IH. apply length_insert.
Qed.

Lemma run_writes_lookup leaves writes : forall acc i,
  (i < length acc)%nat ->
  (i ∈ writes -> run_writes leaves writes acc !! i = Some (hash_leaf (at_idx leaves i))) /\
  (i ∉ writes -> run_writes leaves writes acc !! i = acc !! i).
Proof.
  induction writes as [|j writes IH]; intros acc i Hi; cbn.
  { split; [|done]. by intros ?%not_elem_of_nil. }
  destruct (IH (<[j := hash_leaf (at_idx leaves j)]> acc) i) as [IH1 IH2];
    [by rewrite length_insert|]. split.
  - intros Hin. destruct (decide (i ∈ writes)) as [Hw|Hw]; [by apply IH1|].
    apply elem_of_cons in Hin as [->|]; [|done]. unfold run_writes in IH2. rewrite IH2 by done.
    by apply list_lookup_insert_eq.
  - rewrite not_elem_of_cons. intros [Hne Hw]. unfold run_writes in IH2. rewrite IH2 by done.
    by apply list_lookup_insert_ne.
Qed.

Lemma concat_batches b k : forall s,
  concat ((fun i => seq ((s + i) * b) b) <$> seq 0 k) = seq (s * b) (k * b).
Proof.
  induction k as [|k IH]; intros s; [done|]. cbn [seq fmap list_fmap concat].
  rewrite Nat.add_0_r, <- fmap_S_seq, <- list_fmap_compose.
  replace (S k * b)%nat with (b + k * b)%nat by lia. rewrite seq_app. f_equal.
  specialize (IH (S s)). replace (S s * b)%nat with (s * b + b)%nat in IH by lia. rewrite <- IH.
  f_equal. apply list_fmap_ext. intros i x _. unfold compose. f_equal. lia.
Qed.

(** The batches cover every index exactly once, whatever the number of workers. *)
Lemma worker_writes_cover gomaxprocs n :
  (0 < gomaxprocs)%nat -> concat (worker_writes gomaxprocs n) = seq 0 n.
Proof.
  intros Hg. unfold worker_writes. rewrite concat_app. cbn [concat]. rewrite app_nil_r.
  pose proof (concat_batches (n / gomaxprocs) (gomaxprocs - 1) 0) as E.
  cbn [Nat.add] in E. rewrite Nat.mul_0_l in E. rewrite E.
  change ((gomaxprocs - 1) * (n / gomaxprocs))%nat with (0 + (gomaxprocs - 1) * (n / gomaxprocs))%nat at 2.
  rewrite <- seq_app.
  f_equal. pose proof (Nat.div_mod_eq n gomaxprocs). nia.
Qed.

Lemma run_writes_all leaves schedule gomaxprocs :
  (0 < gomaxprocs)%nat ->
  schedule ≡ₚ concat (worker_writes gomaxprocs (length leaves)) ->
  run_writes leaves schedule (replicate (length leaves) zero_hash) = hash_leaf <$> leaves.
Proof.
  intros Hg Hp. rewrite worker_writes_cover in Hp by done.
  apply (list_eq_same_length _ _ (length leaves)).
  - by rewrite length_fmap.
  - by rewrite length_run_writes, length_replicate.
  - intros i x y Hi Hx Hy.
    destruct (run_writes_lookup leaves schedule (replicate (length leaves) zero_hash) i) as [Hr _];
      [by rewrite length_replicate|].
    rewrite Hr in Hx by (rewrite Hp, elem_of_seq; lia). injection Hx as <-.
    rewrite list_lookup_fmap in Hy. unfold at_idx. destruct (leaves !! i); [|done].
    by injection Hy as <-.
Qed.


(** ** Paths to the root *)

(** The sibling of node [i] of a layer, the zero word when it is missing. *)
Definition sibling (layer : list Hash) (i : nat) : Hash :=
  at_idx layer (if Nat.even i then i + 1 else i - 1).

Lemma padlayer_lookup ns i h :
  ns !! i = Some h ->
  padlayer ns !! (i / 2)%nat =
    Some (if Nat.even i then hash_node h (sibling ns i) else hash_node (sibling ns i) h).
Proof.
  intros Hi. pose proof (lookup_lt_Some _ _ _ Hi) as Hlt.
  rewrite <- next_layer_padlayer. unfold next_layer. rewrite list_lookup_fmap.
  assert (Hq : (i / 2 < (length ns + 1) / 2)%nat).
  { pose proof (Nat.div_mod_eq i 2). pose proof (Nat.div_mod_eq (length ns + 1) 2).
    pose proof (Nat.mod_upper_bound i 2). pose proof (Nat.mod_upper_bound (length ns + 1) 2). lia. }
  rewrite lookup_seq_lt by done. cbn [fmap option_fmap option_map Nat.add]. f_equal.
  assert (Ha : at_idx ns i = h) by (unfold at_idx; by rewrite Hi). unfold sibling.
  destruct (Nat.Even_or_Odd i) as [[q ->]|[q ->]].
  - rewrite Nat.even_even. replace (2 * q / 2)%nat with q by (rewrite Nat.mul_comm, Nat.div_mul; lia).
    rewrite Ha. destruct (Nat.ltb_spec (2 * q + 1) (length ns)); [done|].
    f_equal. unfold at_idx. by rewrite lookup_ge_None_2.
  - rewrite Nat.even_odd. replace ((2 * q + 1) / 2)%nat with q
      by (rewrite Nat.mul_comm, Nat.div_add_l by lia; simpl; lia).
    destruct (Nat.ltb_spec (2 * q + 1) (length ns)); [|lia].
    by replace (2 * q + 1 - 1)%nat with (2 * q)%nat by lia; rewrite Ha.
Qed.

Lemma lxor_1 i :
  Z.lxor (Z.of_nat i) 1 = Z.of_nat (if Nat.even i then i + 1 else i - 1).
Proof.
  destruct (Nat.Even_or_Odd i) as [[q ->]|[q ->]].
  - rewrite Nat.even_even. rewrite Nat2Z.inj_add, !Nat2Z.inj_mul. by destruct q.
  - rewrite Nat.even_odd. replace (2 * q + 1 - 1)%nat with (2 * q)%nat by lia.
    rewrite Nat2Z.inj_add, !Nat2Z.inj_mul. by destruct q.
Qed.

Lemma shiftr_of_nat i k : Z.shiftr (Z.of_nat i) (Z.of_nat k) = Z.of_nat (i / 2 ^ k).
Proof. rewrite Z.shiftr_div_pow2 by lia. by rewrite Nat2Z.inj_div, Nat2Z.inj_pow. Qed.

(** The bit the loop of [CalculateRootFromProof] tests at level [k]. *)
Lemma land_bit i k :
  (k < 64)%nat ->
  (Z.land (Z.of_nat i) (shl64 1 (Z.of_nat k)) =? 0) = Nat.even (i / 2 ^ k).
Proof.
  intros Hk. unfold shl64. rewrite Z.shiftl_1_l, u64_small
    by (rewrite two64_pow; split; [apply Z.pow_nonneg; lia|apply Z.pow_lt_mono_r; lia]).
  assert (Hb : Z.testbit (Z.of_nat i) (Z.of_nat k) = Nat.odd (i / 2 ^ k)).
  { rewrite <- (Z.add_0_l (Z.of_nat k)), <- Z.shiftr_spec, shiftr_of_nat, Z.bit0_odd by lia.
    destruct (Nat.Even_or_Odd (i / 2 ^ k)) as [[q ->]|[q ->]].
    - rewrite Nat.odd_even, Nat2Z.inj_mul. apply Z.odd_even.
    - rewrite Nat.odd_odd, Nat2Z.inj_add, Nat2Z.inj_mul. apply Z.odd_odd. }
  rewrite <- Nat.negb_odd, <- Hb. destruct (Z.testbit (Z.of_nat i) (Z.of_nat k)) eqn:E.
  - apply Z.eqb_neq. intros E0. apply (f_equal (fun z => Z.testbit z (Z.of_nat k))) in E0.
    rewrite Z.land_spec, Z.pow2_bits_true, E, Z.bits_0 in E0 by lia. done.
  - apply Z.eqb_eq, Z.bits_inj'. intros n Hn. rewrite Z.land_spec, Z.bits_0, Z.pow2_bits_eqb by lia.
    destruct (Z.eqb_spec (Z.of_nat k) n) as [<-|]; [by rewrite E|by rewrite andb_false_r].
Qed.

Lemma proof_at_spec fullT ns i k :
  ns <> [] -> len ns < two64 -> fullT !! k = Some (layer_at ns k) ->
  proof_at fullT (Z.of_nat i) k = Ok (sibling (layer_at ns k) (i / 2 ^ k)).
Proof.
  intros Hne Hlt E. unfold proof_at. rewrite E, shiftr_of_nat, lxor_1.
  pose proof (length_layer ns k Hne) as [Hl1 Hl2].
  assert (length (layer_at ns k) <= length ns)%nat.
  { pose proof (Nat.pow_nonzero 2 k ltac:(lia)). nia. }
  rewrite u64_small by (unfold len in *; lia). unfold sibling. rewrite Nat2Z.id.
  set (j := if Nat.even _ then _ else _). f_equal.
  destruct (Z.leb_spec (Z.of_nat j) (len (layer_at ns k) - 1)); [done|].
  unfold at_idx. rewrite lookup_ge_None_2; [done|unfold len in *; lia].
Qed.

Lemma proof_loop_spec fullT ns i m : forall k,
  ns <> [] -> len ns < two64 ->
  (forall j, j < k + m -> fullT !! j = Some (layer_at ns j))%nat ->
  proof_loop fullT (Z.of_nat i) (seq k m) =
    Ok ((fun l => sibling (layer_at ns l) (i / 2 ^ l)) <$> seq k m).
Proof.
  induction m as [|m IH]; intros k Hne Hlt Hf; [done|]. cbn [seq proof_loop fmap list_fmap].
  rewrite (proof_at_spec fullT ns) by (done || apply Hf; lia). unfold mbind, res_bind.
  rewrite IH by (done || intros; apply Hf; lia). done.
Qed.

(** Hashing along the siblings climbs from a node of layer [k] to its ancestor in
    layer [k + m]. *)
Lemma calculate_loop_spec ns i m : forall k h,
  (k + m <= 64)%nat -> layer_at ns k !! (i / 2 ^ k)%nat = Some h ->
  layer_at ns (k + m) !! (i / 2 ^ (k + m))%nat =
    Some (calculate_loop (Z.of_nat i) (Z.of_nat k) h
      ((fun l => sibling (layer_at ns l) (i / 2 ^ l)) <$> seq k m)).
Proof.
  induction m as [|m IH]; intros k h Hk Hh; [by rewrite Nat.add_0_r|].
  cbn [seq fmap list_fmap calculate_loop]. rewrite land_bit by lia.
  replace (Z.of_nat k + 1) with (Z.of_nat (S k)) by lia.
  replace (k + S m)%nat with (S k + m)%nat by lia. apply IH; [lia|].
  rewrite layer_at_S. replace (i / 2 ^ S k)%nat with (i / 2 ^ k / 2)%nat.
  - by apply padlayer_lookup.
  - rewrite Nat.Div0.div_div. f_equal. rewrite Nat.pow_succ_r'. lia.
Qed.

Lemma merkle_layers ns k :
  ns <> [] -> (2 ^ k < 2 * length ns)%nat -> merkle (layer_at ns k) = merkle ns.
Proof.
  intros Hne. induction k as [|k IH]; intros Hk; [done|]. rewrite Nat.pow_succ_r' in Hk.
  rewrite layer_at_S, <- merkle_layer; [apply IH; lia| |].
  - pose proof (length_layer ns k Hne) as [? _]. intros E. by rewrite E in *; simpl in *; lia.
  - apply Nat.eqb_neq. assert (1 < length (layer_at ns k))%nat by (apply layer_more; [done|lia]). lia.
Qed.

(** [log2 (n - 1) + 1] levels above the leaves there is the root alone. *)
Lemma top_layer ns :
  (2 <= length ns)%nat -> layer_at ns (Z.to_nat (Z.log2 (len ns - 1) + 1)) = [merkle ns].
Proof.
  intros Hn. set (L := Z.to_nat _).
  assert (Hne : ns <> []) by (intros ->; simpl in Hn; lia).
  pose proof (Z.log2_nonneg (len ns - 1)).
  pose proof (pow_log2_pred (length ns) L Hn) as HL. fold (len ns) L in HL.
  pose proof (pow_log2_pred (length ns) (L - 1) Hn) as HL'. fold (len ns) L in HL'.
  assert (E : merkle (layer_at ns L) = merkle ns).
  { apply merkle_layers; [done|]. assert (2 ^ (L - 1) < length ns)%nat by (apply HL'; lia).
    replace L with (S (L - 1)) by lia. rewrite Nat.pow_succ_r'. lia. }
  pose proof (length_layer ns L Hne) as [? _]. pose proof (layer_more ns L Hne).
  destruct (layer_at ns L) as [|x [|y l]]; simpl in *; [lia| |lia].
  by rewrite <- E.
Qed.

(** The last step of the theorem below for lists of at least two leaves. *)
Lemma calculate_root ns idx h :
  (2 <= length ns)%nat -> len ns < two64 -> ns !! idx = Some h ->
  calculate_loop (Z.of_nat idx) 0 h
    ((fun l => sibling (layer_at ns l) (idx / 2 ^ l)) <$> seq 0 (Z.to_nat (Z.log2 (len ns - 1) + 1)))
  = merkle ns.
Proof.
  intros Hn2 Hlt Hns. pose proof (Z.log2_nonneg (len ns - 1)).
  assert (HL64 : Z.log2 (len ns - 1) < 64).
  { apply Z.log2_lt_pow2; rewrite <- ?two64_pow; unfold len in *; lia. }
  pose proof (calculate_loop_spec ns idx (Z.to_nat (Z.log2 (len ns - 1) + 1)) 0 h) as Hc.
  cbn [Nat.add Nat.pow] in Hc. rewrite Nat.div_1_r, top_layer in Hc by done.
  specialize (Hc ltac:(lia) Hns). destruct (_ / _)%nat; simpl in Hc; [|done].
  injection Hc as Hc. symmetry. exact Hc.
Qed.

Lemma inclusion_proof_verifies gomaxprocs schedule leaves idx leaf :
  (0 < gomaxprocs)%nat ->
  schedule ≡ₚ concat (worker_writes gomaxprocs (length leaves)) ->
  len leaves < two64 -> 0 <= idx -> leaves !! Z.to_nat idx = Some leaf ->
  exists proof, GenerateInclusionProof schedule leaves idx = Ok proof /\
    CalculateRootFromProof proof idx leaf = Ok (merkle (hash_leaf <$> leaves)).
Proof.
  intros Hg Hs Hlt Hi Hleaf. pose proof (lookup_lt_Some _ _ _ Hleaf) as Hil.
  set (ns := hash_leaf <$> leaves).
  assert (Hlen : length ns = length leaves) by apply length_fmap.
  assert (Hne : ns <> []) by (intros E; rewrite E in Hlen; simpl in Hlen; lia).
  assert (Hns : ns !! Z.to_nat idx = Some (hash_leaf leaf)).
  { unfold ns. by rewrite list_lookup_fmap, Hleaf. }
  unfold GenerateInclusionProof.
  destruct (Z.eqb_spec (len leaves) 0); [unfold len in *; lia|].
  destruct (Z.leb_spec (len leaves) idx); [unfold len in *; lia|].
  destruct (Z.eqb_spec (len leaves) 1) as [E1|E1].
  { exists []. split; [done|]. unfold CalculateRootFromProof. cbn. f_equal.
    replace (Z.to_nat idx) with O in * by (unfold len in *; lia).
    destruct ns as [|x [|? ?]]; simpl in *; [done| |unfold len in *; lia]. by injection Hns as ->. }
  rewrite (run_writes_all leaves schedule gomaxprocs Hg Hs). fold ns.
  assert (Hn2 : (2 <= length ns)%nat) by (unfold len in *; lia).
  destruct (FullTree_spec ns Hn2) as (fullT & -> & Hlay). unfold mbind, res_bind.
  rewrite u64_small by (unfold len in *; lia).
  rewrite MostSignificantBit_pos by (unfold len in *; lia).
  pose proof (Z.log2_nonneg (len ns - 1)).
  assert (HL64 : Z.log2 (len ns - 1) < 64).
  { apply Z.log2_lt_pow2; rewrite <- ?two64_pow; unfold len in *; lia. }
  assert (Eidx : idx = Z.of_nat (Z.to_nat idx)) by lia. rewrite Eidx.
  rewrite (proof_loop_spec fullT ns (Z.to_nat idx));
    [|done|unfold len in *; lia|intros; apply Hlay; lia].
  eexists. split; [reflexivity|].
  unfold CalculateRootFromProof.
  destruct (Z.ltb_spec 256 (len ((λ l, sibling (layer_at ns l) (Z.to_nat idx / 2 ^ l))
    <$> seq 0 (Z.to_nat (Z.log2 (len ns - 1) + 1))))) as [Hbig|_].
  { unfold len in Hbig. rewrite length_fmap, length_seq in Hbig. unfold len in *. lia. }
  f_equal. apply calculate_root; [done|unfold len in *; lia|done].
Qed.


(** (C38) Inclusion proofs verify: for every leaf of a non-empty list, whatever the
    order in which the goroutines that hash the leaves interleave, generating the
    proof succeeds, and [CalculateRootFromProof] gives back the Merkle root of the
    leaves, which is the root of their expansion and so the root committed to by
    a history commitment. *)
Theorem inclusion_proof_roundtrip `{!HasherNonzero} gomaxprocs schedule leaves idx leaf :
  (0 < gomaxprocs)%nat ->
  schedule ≡ₚ concat (worker_writes gomaxprocs (length leaves)) ->
  len leaves < two64 -> 0 <= idx -> leaves !! Z.to_nat idx = Some leaf ->
  exists proof exp root,
    GenerateInclusionProof schedule leaves idx = Ok proof /\
    ExpansionFromLeaves leaves = Ok exp /\ Root exp = Ok root /\
    CalculateRootFromProof proof idx leaf = Ok root.
Proof.
  intros Hg Hs Hlt Hi Hleaf.
  destruct (inclusion_proof_verifies gomaxprocs schedule leaves idx leaf) as (proof & E & V); try done.
  exists proof, (expansion_of (hash_leaf <$> leaves)), (merkle (hash_leaf <$> leaves)).
  split_and!; try done; [by apply ExpansionFromLeaves_spec|].
  apply Root_expansion; [apply nonzero_leaves| |unfold len in *; by rewrite length_fmap].
  by destruct leaves.
Qed.

End with_hasher.

Lemma inclusion_proof_roundtrip_witness :
  exists proof exp root,
    @GenerateInclusionProof toy_keccak [2; 0; 1]%nat [11; 12; 13] 1 = Ok proof /\
    @ExpansionFromLeaves toy_keccak [11; 12; 13] = Ok exp /\ @Root toy_keccak exp = Ok root /\
    @CalculateRootFromProof toy_keccak proof 1 12 = Ok root.
Proof.
  apply (@inclusion_proof_roundtrip toy_keccak toy_nonzero 2 [2; 0; 1]%nat [11; 12; 13] 1 12).
  - lia.
  - vm_compute. apply (Permutation_app_comm [2%nat] [0; 1]%nat).
  - done.
  - done.
  - done.
Defined.
