(* ===== verification/History.v ===== *)
(** * History commitments

    [state-commitments/history]: a commitment to a list of leaves, with inclusion
    proofs for its first and last leaf. *)

From S2P Require Import Prelude Bits PrefixProofs MerkleSpec InclusionProofs.

Record History := {
  Height : Z;
  Merkle : Hash;
  FirstLeaf : Hash;
  LastLeafProof : list Hash;
  FirstLeafProof : list Hash;
  LastLeaf : Hash;
}.

Section with_hasher.
Context `{Hasher}.

(** [New]: three goroutines that share nothing but the leaves, joined before the
    errors are inspected in order.  [sched1] and [sched2] are the orders of the
    writes of the workers that the two inclusion proofs start. *)
Definition New (sched1 sched2 : list nat) (leaves : list Hash) : res History :=
  if len leaves =? 0 then Err (ErrNew "must commit to at least one leaf")
  else
    firstLeafProof ← GenerateInclusionProof sched1 leaves 0;
    lastLeafProof ← GenerateInclusionProof sched2 leaves (u64 (len leaves - 1));
    exp ← expansion_loop NewEmptyMerkleExpansion leaves;
    root ← Root exp;
    Ok {| Merkle := root;
          Height := u64 (len leaves - 1);
          FirstLeaf := at_idx leaves 0;
          LastLeaf := at_idx leaves (length leaves - 1);
          FirstLeafProof := firstLeafProof;
          LastLeafProof := lastLeafProof |}.

(** A schedule of the hashing workers for a list of [n] leaves. *)
Definition valid_schedule (n : nat) (schedule : list nat) : Prop :=
  exists gomaxprocs, (0 < gomaxprocs)%nat /\ schedule ≡ₚ concat (worker_writes gomaxprocs n).

(** What a commitment promises about the leaves it was made from. *)
Definition commits_to (h : History) (leaves : list Hash) : Prop :=
  Height h = len leaves - 1 /\
  Merkle h = merkle (hash_leaf <$> leaves) /\
  leaves !! 0%nat = Some (FirstLeaf h) /\
  leaves !! (length leaves - 1)%nat = Some (LastLeaf h) /\
  CalculateRootFromProof (FirstLeafProof h) 0 (FirstLeaf h) = Ok (Merkle h) /\
  CalculateRootFromProof (LastLeafProof h) (Height h) (LastLeaf h) = Ok (Merkle h).

Context `{!HasherNonzero}.

Lemma inclusion_proof_merkle n schedule leaves idx leaf :
  n = length leaves -> valid_schedule n schedule -> len leaves < two64 -> 0 <= idx ->
  leaves !! Z.to_nat idx = Some leaf ->
  exists proof, GenerateInclusionProof schedule leaves idx = Ok proof /\
    CalculateRootFromProof proof idx leaf = Ok (merkle (hash_leaf <$> leaves)).
Proof.
  intros -> (g & Hg & Hs) Hlt Hi Hleaf.
  destruct (inclusion_proof_verifies g schedule leaves idx leaf Hg Hs Hlt Hi Hleaf)
    as (proof & E & V). eauto.
Qed.

Lemma New_spec sched1 sched2 leaves :
  valid_schedule (length leaves) sched1 -> valid_schedule (length leaves) sched2 ->
  leaves <> [] -> len leaves < two64 ->
  exists h, New sched1 sched2 leaves = Ok h /\ commits_to h leaves.
Proof.
  intros Hs1 Hs2 Hne Hlt. assert (Hl : (0 < length leaves)%nat) by (destruct leaves; simpl; [done|lia]).
  unfold New. destruct (Z.eqb_spec (len leaves) 0); [unfold len in *; lia|].
  rewrite u64_small by (unfold len in *; lia).
  destruct (lookup_lt_is_Some_2 leaves 0 Hl) as [first Hf].
  destruct (lookup_lt_is_Some_2 leaves (length leaves - 1)) as [last Hla]; [lia|].
  destruct (inclusion_proof_merkle _ sched1 leaves 0 first eq_refl Hs1 Hlt) as (p1 & -> & V1);
    [lia|done|].
  destruct (inclusion_proof_merkle _ sched2 leaves (len leaves - 1) last eq_refl Hs2 Hlt)
    as (p2 & -> & V2); [unfold len in *; lia| |].
  { by replace (Z.to_nat (len leaves - 1)) with (length leaves - 1)%nat by (unfold len; lia). }
  unfold mbind, res_bind. fold (ExpansionFromLeaves leaves).
  rewrite ExpansionFromLeaves_spec by done.
  rewrite Root_expansion;
    [|apply nonzero_leaves|by destruct leaves|unfold len in *; by rewrite length_fmap].
  eexists; split; [reflexivity|]. unfold commits_to. cbn.
  unfold at_idx. rewrite Hf, Hla. cbn. split_and!; done.
Qed.

(** A history commitment is faithful to its leaves: for a non-empty list and
    any interleaving of the hashing goroutines, [New] succeeds, its height is the
    number of leaves minus one, its root is the Merkle root, and its two
    inclusion proofs verify for the first leaf at index 0 and the last leaf at
    the height; the empty list is refused. *)
Theorem New_commits sched1 sched2 leaves :
  valid_schedule (length leaves) sched1 -> valid_schedule (length leaves) sched2 ->
  len leaves < two64 ->
  match New sched1 sched2 leaves with
  | Ok h => leaves <> [] /\ commits_to h leaves
  | Err e => leaves = [] /\ e = ErrNew "must commit to at least one leaf"
  | _ => False
  end.
Proof.
  intros Hs1 Hs2 Hlt. destruct (decide (leaves = [])) as [->|Hne]; [done|].
  by destruct (New_spec sched1 sched2 leaves Hs1 Hs2 Hne Hlt) as (h & -> & Hc).
Qed.

End with_hasher.

Lemma New_commits_witness :
  match @New toy_keccak [1; 0]%nat [0; 1]%nat [11; 12] with
  | Ok h => [11; 12] <> [] /\ @commits_to toy_keccak h [11; 12]
  | Err e => [11; 12] = [] /\ e = ErrNew "must commit to at least one leaf"
  | _ => False
  end.
Proof.
  apply (@New_commits toy_keccak toy_nonzero [1; 0]%nat [0; 1]%nat [11; 12]); [| |done].
  - exists 2%nat. split; [lia|]. apply (Permutation_app_comm [1%nat] [0%nat]).
  - exists 2%nat. split; [lia|]. done.
Defined.
