(* ===== verification/Protocol.v ===== *)
(** * Protocol data

    [chain-abstraction]: execution states, challenge levels and the read-only view
    of an edge that the other components are written against. *)

From stdpp Require Import pretty.
From S2P Require Import Prelude Bits PrefixProofs.

(** ** Execution states *)

(** [rollupgen.GlobalState]: two 32-byte words and two [uint64]. *)
Record SolGlobalState := { Bytes32Vals : Hash * Hash; U64Vals : Z * Z }.
Record SolExecutionState := { SolGlobal : SolGlobalState; SolMachineStatus : Z }.

Record GoGlobalState := {
  BlockHash : Hash;
  SendRoot : Hash;
  Batch : Z;
  PosInBatch : Z;
}.

#[global] Instance GoGlobalState_eq_dec : EqDecision GoGlobalState.
Proof. solve_decision. Defined.

Definition GoGlobalStateFromSolidity (globalState : SolGlobalState) : GoGlobalState := {|
  BlockHash := fst (Bytes32Vals globalState);
  SendRoot := snd (Bytes32Vals globalState);
  Batch := fst (U64Vals globalState);
  PosInBatch := snd (U64Vals globalState);
|}.

(** [GoGlobalState.AsSolidityStruct]. *)
Definition GlobalAsSolidityStruct (s : GoGlobalState) : SolGlobalState := {|
  Bytes32Vals := (BlockHash s, SendRoot s);
  U64Vals := (Batch s, PosInBatch s);
|}.

Definition GlobalEquals (s other : GoGlobalState) : bool := bool_decide (s = other).

(** [binary.BigEndian.PutUint64]: byte [i] from the left is bits [8*(7-i)] and up. *)
Definition u64ToBe (x : Z) : list Z :=
  (fun i => Z.land (Z.shiftr x (8 * i)) 255) <$> [7; 6; 5; 4; 3; 2; 1; 0].

Definition MachineStatusRunning : Z := 0.
Definition MachineStatusFinished : Z := 1.
Definition MachineStatusErrored : Z := 2.

Record ExecutionState := { GlobalState : GoGlobalState; MachineStatus : Z }.

#[global] Instance ExecutionState_eq_dec : EqDecision ExecutionState.
Proof. solve_decision. Defined.

Definition GoExecutionStateFromSolidity (executionState : SolExecutionState) : ExecutionState := {|
  GlobalState := GoGlobalStateFromSolidity (SolGlobal executionState);
  MachineStatus := SolMachineStatus executionState;
|}.

(** [ExecutionState.AsSolidityStruct]. *)
Definition AsSolidityStruct (s : ExecutionState) : SolExecutionState := {|
  SolGlobal := GlobalAsSolidityStruct (GlobalState s);
  SolMachineStatus := MachineStatus s;
|}.

Definition Equals (s other : ExecutionState) : bool :=
  (MachineStatus s =? MachineStatus other) && GlobalEquals (GlobalState s) (GlobalState other).

Definition RequiredBatches (s : ExecutionState) : Z :=
  let count := Batch (GlobalState s) in
  if ((MachineStatus s =? MachineStatusErrored) || (0 <? PosInBatch (GlobalState s)))
     && (count <? MaxUint64)
  then u64 (count + 1) else count.

Section with_hasher.
Context `{Hasher}.

(** The bytes of the ASCII text [Global state:]. *)
Definition global_state_tag : list Z := [71; 108; 111; 98; 97; 108; 32; 115; 116; 97; 116; 101; 58].

(** [GoGlobalState.Hash]. *)
Definition GlobalHash (s : GoGlobalState) : Hash :=
  Keccak256Hash [Raw global_state_tag; Word (BlockHash s); Word (SendRoot s);
                 Raw (u64ToBe (Batch s)); Raw (u64ToBe (PosInBatch s))].

Definition ComputeSimpleMachineChallengeHash (execState : ExecutionState) : Hash :=
  GlobalHash (GlobalState execState).

(** [AssertionCreatedInfo.ExecutionHash]. *)
Definition ExecutionHash (afterState : SolExecutionState) : Hash :=
  let afterGlobalStateHash := GlobalHash (GoGlobalStateFromSolidity (SolGlobal afterState)) in
  Keccak256Hash [Raw [SolMachineStatus afterState]; Word afterGlobalStateHash].

End with_hasher.

Record AssertionCreatedInfo := {
  ConfirmPeriodBlocks : Z;
  RequiredStake : Z;
  ParentAssertionHash : Hash;
  BeforeState : SolExecutionState;
  AfterState : SolExecutionState;
  InboxMaxCount : Z;
  AfterInboxBatchAcc : Hash;
  InfoAssertionHash : Hash;
  WasmModuleRoot : Hash;
  InfoChallengeManager : Z;
  TransactionHash : Hash;
  CreationBlock : Z;
}.

(** ** Challenge levels *)

Definition NewBlockChallengeLevel : Z := 0.
Definition IsBlockChallengeLevel (et : Z) : bool := et =? 0.
Definition Next (et : Z) : Z := u8 (et + 1).

(** [ChallengeLevel.String]. *)
Definition LevelString (et : Z) : string :=
  if et =? 0 then "block_challenge_edge"
  else "challenge_level_" +:+ pretty et +:+ "_edge".

Definition is_digit (c : Ascii.ascii) : bool :=
  let n := Ascii.nat_of_ascii c in (48 <=? n)%nat && (n <=? 57)%nat.

(** The longest run of digits at the start of the string. *)
Fixpoint digits_here (s : string) : string :=
  match s with
  | String.EmptyString => String.EmptyString
  | String.String c s' => if is_digit c then String.String c (digits_here s') else String.EmptyString
  end.

(** [regexp.MustCompile("[0-9]+").FindString(s)]: the leftmost run of digits. *)
Fixpoint FindString (s : string) : string :=
  match s with
  | String.EmptyString => String.EmptyString
  | String.String c s' => if is_digit c then digits_here s else FindString s'
  end.

Fixpoint digits_value (acc : Z) (s : string) : Z :=
  match s with
  | String.EmptyString => acc
  | String.String c s' => digits_value (10 * acc + (Z.of_nat (Ascii.nat_of_ascii c) - 48)) s'
  end.

(** [strconv.Atoi] on a run of digits: an [int] of 64 bits. *)
Definition Atoi (s : string) : res Z :=
  match s with
  | String.EmptyString => Err (ErrNew "strconv.Atoi: invalid syntax")
  | _ => let v := digits_value 0 s in
         if 9223372036854775807 <? v then Err (ErrNew "strconv.Atoi: value out of range") else Ok v
  end.

Definition ChallengeLevelFromString (s : string) : res Z :=
  if bool_decide (s = "block_challenge_edge") then Ok 0
  else
    challengeLevel ← Atoi (FindString s);
    Ok (u8 challengeLevel).

(** ** Edges *)

Inductive EdgeStatus := EdgePending | EdgeConfirmed.
#[global] Instance EdgeStatus_eq_dec : EqDecision EdgeStatus.
Proof. solve_decision. Defined.

(** [EdgeStatus.String] on the two values the contract defines. *)
Definition StatusString (e : EdgeStatus) : string :=
  match e with EdgePending => "pending" | EdgeConfirmed => "confirmed" end.

(** Identifiers are 32-byte words. *)
Abbreviation EdgeId := Hash (only parsing).
Abbreviation MutualIdT := Hash (only parsing).
Abbreviation OriginIdT := Hash (only parsing).
Abbreviation ClaimIdT := Hash (only parsing).
Abbreviation AssertionHash := Hash (only parsing).

Record OneStepData := { BeforeHash : Hash; AfterHash : Hash; OneStepProof : list Z }.

(** [ReadOnlyEdge]: the data fixed when an edge is created.  What a call reads from
    the chain afterwards (its children, rivals, status) is given by the chain views
    of the components. *)
Record Edge := {
  Id : EdgeId;
  GetChallengeLevel : Z;
  GetReversedChallengeLevel : Z;
  StartCommitment : Z * Hash;
  EndCommitment : Z * Hash;
  CreatedAtBlock : res Z;
  MutualId : MutualIdT;
  OriginId : OriginIdT;
  ClaimId : option ClaimIdT;
}.

Record Agreement := { AgreesWithStartCommit : bool; IsHonestEdge : bool }.

(** ** Properties *)

(** The decidable check that a level survives printing and parsing. *)
Definition level_roundtrips (et : Z) : bool :=
  bool_decide (ChallengeLevelFromString (LevelString et) = Ok et).

Lemma all_levels_roundtrip : forallb level_roundtrips (Z.of_nat <$> seq 0 256) = true.
Proof. vm_compute. reflexivity. Qed.

(** Challenge levels round-trip through their names: parsing the printed form
    of any level of the [uint8] range gives the level back. *)
Theorem ChallengeLevel_roundtrip et :
  is_u8 et -> ChallengeLevelFromString (LevelString et) = Ok et.
Proof.
  intros Het. pose proof all_levels_roundtrip as Hall. rewrite forallb_forall in Hall.
  assert (Hin : In et (Z.of_nat <$> seq 0 256)).
  { apply list_elem_of_In, list_elem_of_fmap. exists (Z.to_nat et).
    unfold is_u8 in Het. rewrite elem_of_seq. lia. }
  by apply Hall, bool_decide_eq_true in Hin.
Qed.

Lemma ChallengeLevel_roundtrip_witness :
  is_u8 17 /\ ChallengeLevelFromString (LevelString 17) = Ok 17.
Proof.
  assert (is_u8 17) by (unfold is_u8; lia). split; [done|]. by apply ChallengeLevel_roundtrip.
Defined.

(** An integer is determined by its bytes. *)
Lemma bytes_inj k x y : 0 <= k -> 0 <= x < 2 ^ (8 * k) -> 0 <= y < 2 ^ (8 * k) ->
  (forall i, 0 <= i < k -> Z.land (Z.shiftr x (8 * i)) 255 = Z.land (Z.shiftr y (8 * i)) 255) -> x = y.
Proof.
  intros Hk Hx Hy Hb. apply Z.bits_inj'. intros n Hn. destruct (Z.lt_ge_cases n (8 * k)) as [Hlt|Hge].
  - specialize (Hb (n / 8) ltac:(split; [apply Z.div_pos; lia|apply Z.div_lt_upper_bound; lia])).
    apply (f_equal (fun z => Z.testbit z (n mod 8))) in Hb.
    pose proof (Z.mod_pos_bound n 8 ltac:(lia)).
    rewrite !Z.land_spec, !Z.shiftr_spec in Hb by lia.
    replace (n mod 8 + 8 * (n / 8)) with n in Hb by (pose proof (Z.div_mod n 8); lia).
    assert (Hm : Z.testbit 255 (n mod 8) = true).
    { change 255 with (Z.ones 8). apply Z.ones_spec_low. lia. }
    by rewrite Hm, !andb_true_r in Hb.
  - assert (Hz : forall z, 0 <= z < 2 ^ (8 * k) -> Z.testbit z n = false).
    { intros z Hz. destruct (Z.eq_dec z 0) as [->|]; [apply Z.bits_0|].
      apply Z.bits_above_log2; [lia|]. apply Z.log2_lt_pow2; [lia|].
      assert (2 ^ (8 * k) <= 2 ^ n) by (apply Z.pow_le_mono_r; lia). lia. }
    by rewrite !Hz.
Qed.

(** The bytes of a [uint64] determine it. *)
Lemma u64ToBe_inj x y : is_u64 x -> is_u64 y -> u64ToBe x = u64ToBe y -> x = y.
Proof.
  intros Hx Hy E. unfold u64ToBe in E. cbn [fmap list_fmap] in E. unfold is_u64 in *. rewrite two64_pow in *.
  apply (bytes_inj 8); [done..|]. injection E as H7 H6 H5 H4 H3 H2 H1 H0. intros i Hi.
  assert (i = 0 \/ i = 1 \/ i = 2 \/ i = 3 \/ i = 4 \/ i = 5 \/ i = 6 \/ i = 7) by lia.
  intuition (subst; done).
Qed.

(** The hash of a global state commits to it: for a collision-free hash, two
    states with [uint64] fields and the same [Hash] are [Equals], and the round trip
    through the Solidity struct keeps the state, so the hash computed from the
    contract's view is that of the Go state. *)
Theorem GlobalHash_commits `{Hasher} `{!HasherInjective} s other :
  is_u64 (Batch s) -> is_u64 (PosInBatch s) -> is_u64 (Batch other) -> is_u64 (PosInBatch other) ->
  GlobalHash s = GlobalHash (GoGlobalStateFromSolidity (GlobalAsSolidityStruct other)) ->
  GlobalEquals s other = true.
Proof.
  intros Hb Hp Hb' Hp' E. unfold GlobalHash in E. apply keccak_inj in E.
  cbn [BlockHash SendRoot Batch PosInBatch GoGlobalStateFromSolidity GlobalAsSolidityStruct
    Bytes32Vals U64Vals fst snd] in E.
  assert (BlockHash s = BlockHash other) by congruence.
  assert (SendRoot s = SendRoot other) by congruence.
  assert (Batch s = Batch other) by (apply u64ToBe_inj; [done..|congruence]).
  assert (PosInBatch s = PosInBatch other) by (apply u64ToBe_inj; [done..|congruence]).
  apply bool_decide_eq_true. destruct s, other; cbn in *; congruence.
Qed.

Lemma GlobalHash_commits_witness :
  GlobalEquals {| BlockHash := 5; SendRoot := 6; Batch := 7; PosInBatch := 8 |}
               {| BlockHash := 5; SendRoot := 6; Batch := 7; PosInBatch := 8 |} = true.
Proof.
  apply (@GlobalHash_commits toy_keccak toy_injective);
    unfold is_u64, two64; cbn; try lia. reflexivity.
Defined.
