(* ===== verification/Provider.v ===== *)
(** * The history commitment provider

    [layer2-state-provider]: computes commitments over block states and over
    machine states at every challenge level, and the prefix and one-step proofs
    that the protocol asks for.  The collectors that execute Arbitrator machines
    and the ABI encoder are parameters. *)

From S2P Require Import Prelude Bits PrefixProofs MerkleSpec PrefixComplete InclusionProofs History Protocol.

Definition ErrNoExecutionState : error := Sentinel "l2stateprovider.ErrNoExecutionState".
Definition ErrChainCatchingUp : error := Sentinel "l2stateprovider.ErrChainCatchingUp".

Record HashCollectorConfig := {
  CfgWasmModuleRoot : Hash;
  CfgFromBatch : Z;
  BlockChallengeHeight : Z;
  StepHeights : list Z;
  NumDesiredHashes : Z;
  MachineStartIndex : Z;
  StepSize : Z;
}.

Record HistoryCommitmentRequest := {
  ReqWasmModuleRoot : Hash;
  FromBatch : Z;
  ToBatch : Z;
  UpperChallengeOriginHeights : list Z;
  FromHeight : Z;
  UpToHeight : option Z;
}.

(** [l2stateprovider.History]: a height with a root to compare against. *)
Record HistoryClaim := { ClaimHeight : Z; ClaimMerkleRoot : Hash }.

(** What the provider is built from: the three collectors, the ABI encoding of a
    pair of word lists, the leaf height of every challenge level, and the order in
    which the hashing workers of a commitment to [n] leaves write. *)
Record HistoryCommitmentProvider := {
  L2MessageStatesUpTo : Z -> option Z -> Z -> Z -> res (list Hash);
  CollectMachineHashes : HashCollectorConfig -> res (list Hash);
  CollectProof : Hash -> Z -> Z -> Z -> res (list Z);
  PackProofArgs : list Hash -> list Hash -> res (list Z);
  challengeLeafHeights : list Z;
  schedule : nat -> list nat;
}.

Section provider.
Context `{Hasher}.
Variable p : HistoryCommitmentProvider.

(** [commitments.New] as the provider calls it. *)
Definition New_commitment (leaves : list Hash) : res History :=
  New (schedule p (length leaves)) (schedule p (length leaves)) leaves.

Definition numberOfChallengeLevels : Z := len (challengeLeafHeights p).

Definition validateOriginHeights (upperChallengeOriginHeights : list Z) : res (list Z) :=
  if len (challengeLeafHeights p) - 1 <? len upperChallengeOriginHeights
  then Err (ErrNew "challenge level %d is out of range for challenge leaf heights %v")
  else Ok upperChallengeOriginHeights.

Definition deepestRequestedChallengeLevel (requestedHeights : list Z) : Z := len requestedHeights.

Definition leafHeightAtChallengeLevel (challengeLevel : Z) : res Z :=
  match challengeLeafHeights p !! Z.to_nat challengeLevel with
  | None => Err (ErrNew "challenge level %d is out of range for challenge leaf heights %v")
  | Some h => Ok h
  end.

Definition computeRequiredNumberOfHashes (challengeLevel fromHeight : Z) (upToHeight : option Z)
    : res Z :=
  maxHeightForLevel ← leafHeightAtChallengeLevel challengeLevel;
  end_ ← match upToHeight with
         | None => Ok maxHeightForLevel
         | Some end_ =>
             if maxHeightForLevel <? end_
             then Err (ErrNew "end %d was greater than max height for level %d")
             else Ok end_
         end;
  if end_ <? fromHeight then Err (ErrNew "invalid range: end %d was < start %d")
  else Ok (u64 (u64 (end_ - fromHeight) + 1)).

(** The loops of [computeMachineStartIndex], in unbounded integers as [big.Int]. *)
Definition product_from (leafHeights : list Z) (idx : nat) : Z :=
  fold_left Z.mul (drop idx leafHeights) 1.

Fixpoint opcode_index_loop (leafHeights heights : list Z) (idx : nat) (opcodeIndex : Z) : Z :=
  match heights with
  | [] => opcodeIndex
  | height :: heights' =>
      opcode_index_loop leafHeights heights' (S idx)
        (opcodeIndex + product_from leafHeights idx * height)
  end.

Definition computeMachineStartIndex (upperChallengeOriginHeights : list Z) (fromHeight : Z) : res Z :=
  match upperChallengeOriginHeights with
  | [] => Ok 0
  | _ :: rest =>
      let heights := rest ++ [fromHeight] in
      leafHeights ← slice_from (challengeLeafHeights p) 1;
      let opcodeIndex := opcode_index_loop leafHeights heights 1 0 in
      if (0 <=? opcodeIndex) && (opcodeIndex <? two64) then Ok opcodeIndex
      else Err (ErrNew "computed machine start index overflows uint64: %s")
  end.

Definition computeStepSize (challengeLevel : Z) : res Z :=
  if u64 (challengeLevel + 1) =? numberOfChallengeLevels then Ok 1
  else
    levels ← slice_from (challengeLeafHeights p) (u64 (challengeLevel + 1));
    Ok (fold_left (fun total h => u64 (total * h)) levels 1).

Definition historyCommitmentImpl (req : HistoryCommitmentRequest) : res (list Hash) :=
  validatedHeights ← validateOriginHeights (UpperChallengeOriginHeights req);
  match validatedHeights with
  | [] => L2MessageStatesUpTo p (FromHeight req) (UpToHeight req) (FromBatch req) (ToBatch req)
  | fromBlockChallengeHeight :: stepHeights =>
      let desiredChallengeLevel := deepestRequestedChallengeLevel validatedHeights in
      machineStartIndex ← computeMachineStartIndex validatedHeights (FromHeight req);
      stepSize ← computeStepSize desiredChallengeLevel;
      numHashes ← computeRequiredNumberOfHashes desiredChallengeLevel (FromHeight req) (UpToHeight req);
      CollectMachineHashes p {|
        CfgWasmModuleRoot := ReqWasmModuleRoot req;
        CfgFromBatch := FromBatch req;
        BlockChallengeHeight := fromBlockChallengeHeight;
        StepHeights := stepHeights;
        NumDesiredHashes := numHashes;
        MachineStartIndex := machineStartIndex;
        StepSize := stepSize |}
  end.

Definition HistoryCommitment (req : HistoryCommitmentRequest) : res History :=
  hashes ← historyCommitmentImpl req;
  New_commitment hashes.

Definition AgreesWithHistoryCommitment (challengeLevel : Z) (meta : HistoryCommitmentRequest)
    (commit : HistoryClaim) : res bool :=
  localCommit ←
    (if challengeLevel =? NewBlockChallengeLevel then
       HistoryCommitment {|
         ReqWasmModuleRoot := ReqWasmModuleRoot meta;
         FromBatch := FromBatch meta;
         ToBatch := ToBatch meta;
         UpperChallengeOriginHeights := [];
         FromHeight := FromHeight meta;
         UpToHeight := Some (u64 (FromHeight meta + ClaimHeight commit)) |}
     else
       HistoryCommitment {|
         ReqWasmModuleRoot := ReqWasmModuleRoot meta;
         FromBatch := FromBatch meta;
         ToBatch := ToBatch meta;
         UpperChallengeOriginHeights := UpperChallengeOriginHeights meta;
         FromHeight := 0;
         UpToHeight := Some (ClaimHeight commit) |});
  Ok ((Height localCommit =? ClaimHeight commit) && (Merkle localCommit =? ClaimMerkleRoot commit)).

Definition PrefixProof (req : HistoryCommitmentRequest) (prefixHeight : Z) : res (list Z) :=
  leaves ← historyCommitmentImpl req;
  let lowCommitmentNumLeaves := u64 (prefixHeight + 1) in
  highCommitmentNumLeaves ←
    match UpToHeight req with
    | None => Ok (len leaves)
    | Some upTo =>
        if upTo <? FromHeight req then Err (ErrNew "invalid range: end %d was < start %d")
        else Ok (u64 (u64 (upTo - FromHeight req) + 1))
    end;
  if len leaves <? highCommitmentNumLeaves then
    Err (ErrNew "high prefix size out of bounds, got %d, leaves length %d")
  else if highCommitmentNumLeaves <? lowCommitmentNumLeaves then
    Err (ErrNew "low prefix size %d was greater than high prefix size %d")
  else
    lowLeaves ← slice_to leaves lowCommitmentNumLeaves;
    highLeaves ← slice_to leaves highCommitmentNumLeaves;
    prefixExpansion ← ExpansionFromLeaves lowLeaves;
    betweenLeaves ← slice_from highLeaves lowCommitmentNumLeaves;
    prefixProof ← GeneratePrefixProof lowCommitmentNumLeaves prefixExpansion betweenLeaves
      RootFetcherFromExpansion;
    bigCommit ← New_commitment highLeaves;
    prefixCommit ← New_commitment lowLeaves;
    '(_, numRead) ← MerkleExpansionFromCompact prefixProof lowCommitmentNumLeaves;
    onlyProof ← slice_from prefixProof numRead;
    _ ← wrap_err "could not verify prefix proof locally: %w" (VerifyPrefixProof {|
      PreRoot := Merkle prefixCommit;
      PreSize := lowCommitmentNumLeaves;
      PostRoot := Merkle bigCommit;
      PostSize := highCommitmentNumLeaves;
      PreExpansion := prefixExpansion;
      PrefixProofs.PrefixProof := onlyProof |});
    PackProofArgs p prefixExpansion onlyProof.

Definition OneStepProofData (wasmModuleRoot : Hash) (fromBatch toBatch : Z) (startHeights : list Z)
    (fromHeight upToHeight : Z) : res (OneStepData * list Hash * list Hash) :=
  match startHeights with
  | [] => Err (ErrNew "upper challenge origin heights must have at least length 1, got %d")
  | startHeight :: _ =>
      let request upTo := {|
        ReqWasmModuleRoot := wasmModuleRoot; FromBatch := fromBatch; ToBatch := toBatch;
        UpperChallengeOriginHeights := startHeights; FromHeight := fromHeight; UpToHeight := Some upTo |} in
      endCommit ← HistoryCommitment (request (u64 (upToHeight + 1)));
      startCommit ← HistoryCommitment (request upToHeight);
      machineIndex ← computeMachineStartIndex startHeights fromHeight;
      let machineIndex := u64 (machineIndex + upToHeight) in
      osp ← CollectProof p wasmModuleRoot fromBatch startHeight machineIndex;
      Ok ({| BeforeHash := LastLeaf startCommit; AfterHash := LastLeaf endCommit; OneStepProof := osp |},
          LastLeafProof startCommit, LastLeafProof endCommit)
  end.

End provider.
