(* ===== verification/ProviderSpec.v ===== *)
(** * What the provider's commitments mean

    The machine positions of the leaves of a commitment at every challenge level,
    the agreement of the endpoints of a subchallenge with the challenge above it,
    the binding property of an agreed commitment and the success of the prefix
    proofs the provider checks locally. *)

From S2P Require Import Prelude Bits PrefixProofs MerkleSpec PrefixComplete PrefixSound InclusionProofs History Protocol Provider.

(** ** Products of leaf heights *)

Lemma fold_mul_out l : forall t, fold_left Z.mul l t = t * fold_left Z.mul l 1.
Proof.
  induction l as [|h l IH]; intros t; cbn [fold_left]; [lia|]. rewrite (IH (t * h)), (IH (1 * h)). lia.
Qed.

Definition positive (l : list Z) : Prop := Forall (fun h => 0 < h) l.

Lemma fold_mul_pos l t : positive l -> 0 < t -> t <= fold_left Z.mul l t.
Proof.
  revert t. induction l as [|h l IH]; intros t Hl Ht; cbn [fold_left]; [lia|].
  apply Forall_cons_1 in Hl as [Hh Hl]. specialize (IH (t * h) Hl ltac:(nia)). nia.
Qed.

(** The wrapping product is the product when that fits. *)
Lemma fold_mul_wrap l t :
  positive l -> 0 < t -> fold_left Z.mul l t < two64 ->
  fold_left (fun total h => u64 (total * h)) l t = fold_left Z.mul l t.
Proof.
  revert t. induction l as [|h l IH]; intros t Hl Ht Hlt; cbn [fold_left] in *; [done|].
  apply Forall_cons_1 in Hl as [Hh Hl].
  pose proof (fold_mul_pos l (t * h) Hl ltac:(nia)). rewrite u64_small by nia. apply IH; nia || done.
Qed.

Lemma product_from_cons l k h :
  l !! k = Some h -> product_from l k = h * product_from l (S k).
Proof.
  intros Hk. unfold product_from. rewrite (drop_S l h k Hk). cbn [fold_left].
  rewrite fold_mul_out. lia.
Qed.

Lemma product_from_end l k : (length l <= k)%nat -> product_from l k = 1.
Proof. intros Hk. unfold product_from. by rewrite drop_ge. Qed.

Lemma product_from_tail x l k : product_from (x :: l) (S k) = product_from l k.
Proof. done. Qed.

Lemma product_from_pos l k : positive l -> 0 < product_from l k.
Proof.
  intros Hl. pose proof (fold_mul_pos (drop k l) 1 (Forall_drop _ _ _ Hl) ltac:(lia)).
  unfold product_from. lia.
Qed.

Lemma product_from_mono l j k :
  positive l -> (j <= k)%nat -> product_from l k <= product_from l j.
Proof.
  intros Hl Hjk. induction Hjk as [|k _ IH]; [lia|].
  destruct (l !! k) as [h|] eqn:E.
  - rewrite (product_from_cons l k h E) in IH. pose proof (product_from_pos l (S k) Hl).
    assert (0 < h) by (eapply (Forall_lookup_1 _ _ _ _ Hl E)). nia.
  - apply lookup_ge_None in E. rewrite (product_from_end l k) in IH by lia.
    rewrite product_from_end by lia. lia.
Qed.

Lemma opcode_index_app leafs hs h : forall idx acc,
  opcode_index_loop leafs (hs ++ [h]) idx acc =
    opcode_index_loop leafs hs idx acc + product_from leafs (idx + length hs) * h.
Proof.
  induction hs as [|x hs IH]; intros idx acc; cbn [app opcode_index_loop length].
  - by rewrite Nat.add_0_r.
  - rewrite IH. by replace (S idx + length hs)%nat with (idx + S (length hs))%nat by lia.
Qed.

Lemma fmap_seq_lookup {A} (f : nat -> A) n i :
  (i < n)%nat -> (f <$> seq 0 n) !! i = Some (f i).
Proof. intros Hi. by rewrite list_lookup_fmap, lookup_seq_lt. Qed.

Section provider_spec.
Context `{Hasher} `{!HasherNonzero}.
Variable p : HistoryCommitmentProvider.

(** The number of opcodes a step of a level stands for, in unbounded integers. *)
Definition step_of (level : nat) : Z := product_from (challengeLeafHeights p) (S level).

(** The leaf heights are positive and a whole block's opcodes fit in a [uint64]. *)
Definition heights_ok : Prop :=
  positive (challengeLeafHeights p) /\ product_from (challengeLeafHeights p) 1 < two64 - 1.

Lemma computeStepSize_spec level :
  heights_ok -> (level < length (challengeLeafHeights p))%nat ->
  len (challengeLeafHeights p) < two64 ->
  computeStepSize p (Z.of_nat level) = Ok (step_of level).
Proof.
  intros [Hpos Hfit] Hl Hlen. unfold computeStepSize, numberOfChallengeLevels, step_of.
  rewrite u64_small by (unfold len in *; lia).
  destruct (Z.eqb_spec (Z.of_nat level + 1) (len (challengeLeafHeights p))) as [E|E].
  { rewrite product_from_end; [done|unfold len in *; lia]. }
  unfold slice_from. destruct (Z.ltb_spec (len (challengeLeafHeights p)) (Z.of_nat level + 1));
    [unfold len in *; lia|]. unfold mbind, res_bind.
  replace (Z.to_nat (Z.of_nat level + 1)) with (S level) by lia. f_equal.
  apply fold_mul_wrap; [by apply Forall_drop|lia|].
  pose proof (product_from_mono _ 1 (S level) Hpos ltac:(lia)). unfold product_from in *. lia.
Qed.

(** The start index in unbounded integers. *)
Definition machine_index (upper : list Z) (from : Z) : Z :=
  match upper with
  | [] => 0
  | _ :: rest => opcode_index_loop (tail (challengeLeafHeights p)) (rest ++ [from]) 1 0
  end.

Lemma computeMachineStartIndex_spec upper from start :
  computeMachineStartIndex p upper from = Ok start <->
  (start = machine_index upper from /\ is_u64 start /\ (upper = [] \/ challengeLeafHeights p <> [])).
Proof.
  unfold computeMachineStartIndex, machine_index, slice_from, is_u64.
  destruct upper as [|b rest].
  { split; [intros [= <-]|intros [-> _]; done]. split_and!; [done|done|unfold two64; lia|by left]. }
  destruct (challengeLeafHeights p) as [|l0 leafs].
  { unfold len. cbn. split; [done|]. intros (_ & _ & [|]); done. }
  destruct (Z.ltb_spec (len (l0 :: leafs)) 1) as [Hc|_]; [unfold len in Hc; simpl in Hc; lia|].
  unfold mbind, res_bind. change (drop (Z.to_nat 1) (l0 :: leafs)) with leafs. cbn [tail].
  set (i := opcode_index_loop _ _ _ _).
  destruct (Z.leb_spec 0 i), (Z.ltb_spec i two64); cbn [andb];
    (split; [intros [= <-]|intros (-> & ? & _)]); try lia; try done. auto.
Qed.

Lemma step_of_tail level :
  challengeLeafHeights p <> [] -> product_from (tail (challengeLeafHeights p)) level = step_of level.
Proof. unfold step_of. by destruct (challengeLeafHeights p). Qed.

Lemma machine_index_step upper from :
  upper <> [] -> challengeLeafHeights p <> [] ->
  machine_index upper from = machine_index upper 0 + step_of (length upper) * from.
Proof.
  intros Hne Hc. destruct upper as [|b rest]; [done|]. unfold machine_index.
  rewrite !opcode_index_app, step_of_tail by done. cbn [Nat.add length]. lia.
Qed.

(** A subchallenge opened at height [h] starts where the challenge above it is at
    height [h]. *)
Lemma machine_index_sub upper h from :
  upper <> [] -> challengeLeafHeights p <> [] ->
  machine_index (upper ++ [h]) from = machine_index upper h + step_of (S (length upper)) * from.
Proof.
  intros Hne Hc. destruct upper as [|b rest]; [done|]. unfold machine_index. cbn [app].
  rewrite (opcode_index_app _ (rest ++ [h])), length_app, step_of_tail by done. cbn [Nat.add length].
  by replace (S (length rest + 1))%nat with (S (S (length rest))) by lia.
Qed.

(** One step of a level is a full range of the next one. *)
Lemma step_of_next level leaf :
  challengeLeafHeights p !! S level = Some leaf -> step_of level = leaf * step_of (S level).
Proof. intros E. unfold step_of. by rewrite (product_from_cons _ _ _ E). Qed.

Lemma leaf_height_bound level leaf :
  heights_ok -> (1 <= level)%nat -> challengeLeafHeights p !! level = Some leaf ->
  0 < leaf < two64 - 1.
Proof.
  intros [Hpos Hfit] Hl E. pose proof (Forall_lookup_1 _ _ _ _ Hpos E) as Hleaf. cbn in Hleaf.
  pose proof (product_from_mono _ 1 level Hpos Hl) as Hm. rewrite (product_from_cons _ _ _ E) in Hm.
  pose proof (product_from_pos _ (S level) Hpos). nia.
Qed.

(** The number of hashes of a range of heights, on every branch. *)
Lemma computeRequiredNumberOfHashes_spec level from upTo :
  heights_ok -> (1 <= level)%nat -> 0 <= from -> (forall e, upTo = Some e -> 0 <= e) ->
  match challengeLeafHeights p !! level with
  | None => exists e, computeRequiredNumberOfHashes p (Z.of_nat level) from upTo = Err e
  | Some leaf =>
      let end_ := default leaf upTo in
      if bool_decide (from <= end_ <= leaf)
      then computeRequiredNumberOfHashes p (Z.of_nat level) from upTo = Ok (end_ - from + 1)
      else exists e, computeRequiredNumberOfHashes p (Z.of_nat level) from upTo = Err e
  end.
Proof.
  intros Hok Hl Hfrom Hup.
  unfold computeRequiredNumberOfHashes, leafHeightAtChallengeLevel. rewrite Nat2Z.id.
  destruct (challengeLeafHeights p !! level) as [leaf|] eqn:El; [|eexists; reflexivity].
  pose proof (leaf_height_bound level leaf Hok Hl El) as Hb.
  destruct upTo as [e|]; cbn [default mbind res_bind].
  - specialize (Hup e eq_refl). destruct (Z.ltb_spec leaf e) as [Hle|Hle]; cbn.
    { case_bool_decide; [lia|]. eexists; reflexivity. }
    destruct (Z.ltb_spec e from) as [Hef|Hef].
    { case_bool_decide; [lia|]. eexists; reflexivity. }
    rewrite bool_decide_true by lia. f_equal. rewrite (u64_small (e - from)), u64_small by lia. lia.
  - cbn. destruct (Z.ltb_spec leaf from) as [Hef|Hef].
    { case_bool_decide; [lia|]. eexists; reflexivity. }
    rewrite bool_decide_true by lia. f_equal. rewrite (u64_small (leaf - from)), u64_small by lia. lia.
Qed.

(** What a machine hash collector does, as its interface documents: it steps
    through the machine of a block from the start index in increments of the step
    size and outputs the requested number of hashes.  [machine_hash] is the hash of
    the machine of a module root, batch and block after a number of opcodes.  At least
    one hash is requested, and the last position is a [uint64]. *)
Definition collector_spec (machine_hash : Hash -> Z -> Z -> Z -> Hash) : Prop :=
  forall cfg, 0 <= MachineStartIndex cfg -> 0 <= StepSize cfg -> 1 <= NumDesiredHashes cfg ->
  MachineStartIndex cfg + StepSize cfg * (NumDesiredHashes cfg - 1) < two64 - 1 ->
  CollectMachineHashes p cfg =
    Ok ((fun k => machine_hash (CfgWasmModuleRoot cfg) (CfgFromBatch cfg) (BlockChallengeHeight cfg)
           (MachineStartIndex cfg + StepSize cfg * Z.of_nat k))
        <$> seq 0 (Z.to_nat (NumDesiredHashes cfg))).

(** Below the block level, the height at which a challenge was opened is the start height
    of an edge of its level. *)
Definition origins_ok (upper : list Z) : Prop :=
  forall i h, (1 <= i)%nat -> upper !! i = Some h ->
  exists leaf, challengeLeafHeights p !! i = Some leaf /\ 0 <= h < leaf.

Lemma origins_ok_snoc upper h leaf : origins_ok upper -> challengeLeafHeights p !! length upper = Some leaf ->
  0 <= h < leaf -> origins_ok (upper ++ [h]).
Proof.
  intros Hu El Hh i x Hi. rewrite lookup_app_Some. intros [E|[Hge E]]; [by eapply Hu|].
  apply list_lookup_singleton_Some in E as [Ei <-]. exists leaf. by replace i with (length upper) by lia.
Qed.

Lemma origins_ok_init upper h : origins_ok (upper ++ [h]) -> origins_ok upper.
Proof. intros Hu i x Hi E. apply (Hu i x Hi). by apply lookup_app_l_Some. Qed.

(** The positions of a level are within the block. *)
Lemma machine_index_bound upper : forall from leaf, heights_ok -> upper <> [] -> origins_ok upper ->
  challengeLeafHeights p !! length upper = Some leaf -> 0 <= from <= leaf ->
  0 <= machine_index upper from <= product_from (challengeLeafHeights p) 1.
Proof.
  induction upper as [|h upper IH] using rev_ind; intros from leaf Hok Hne Hu El Hf; [done|].
  assert (Hclh : challengeLeafHeights p <> []) by (by intros E; rewrite E in El).
  assert (Hpos : forall k, 0 < step_of k) by (intros k; apply product_from_pos, Hok).
  destruct (decide (upper = [])) as [->|Hn].
  - rewrite machine_index_step by done. change (machine_index ([] ++ [h]) 0) with (0 + product_from (tail (challengeLeafHeights p)) 1 * 0).
    pose proof (product_from_cons _ _ _ El) as Ep. change (length ([] ++ [h])) with 1%nat in *. unfold step_of.
    pose proof (product_from_pos _ 2 (proj1 Hok)). cbn [Nat.add] in *. split; [nia|]. rewrite Ep. nia.
  - rewrite length_app, Nat.add_1_r in El. rewrite machine_index_sub by done.
    destruct (Hu (length upper) h) as (lf & Elf & Hh); [by destruct upper; simpl; lia || done|by apply list_lookup_middle|].
    pose proof (IH h lf Hok Hn (origins_ok_init _ _ Hu) Elf ltac:(lia)) as B1.
    pose proof (IH (h + 1) lf Hok Hn (origins_ok_init _ _ Hu) Elf ltac:(lia)) as B2.
    rewrite (machine_index_step _ h) in B1 |- * by done. rewrite (machine_index_step _ (h + 1)) in B2 by done.
    rewrite (step_of_next _ _ El) in *. pose proof (Hpos (S (length upper))). nia.
Qed.

Definition valid_request (req : HistoryCommitmentRequest) : Prop :=
  0 <= FromHeight req /\ (forall e, UpToHeight req = Some e -> 0 <= e) /\ origins_ok (UpperChallengeOriginHeights req).

(** The leaves of a commitment below the block level are the machine hashes at
    the positions of the level. *)
Lemma historyCommitmentImpl_spec machine_hash req b rest hs :
  heights_ok -> len (challengeLeafHeights p) < two64 -> collector_spec machine_hash ->
  valid_request req -> UpperChallengeOriginHeights req = b :: rest ->
  historyCommitmentImpl p req = Ok hs ->
  exists leaf, challengeLeafHeights p !! length (b :: rest) = Some leaf /\
    let end_ := default leaf (UpToHeight req) in
    FromHeight req <= end_ <= leaf /\
    hs = (fun k => machine_hash (ReqWasmModuleRoot req) (FromBatch req) b
            (machine_index (b :: rest) (FromHeight req) + step_of (length (b :: rest)) * Z.of_nat k))
         <$> seq 0 (Z.to_nat (end_ - FromHeight req + 1)).
Proof.
  intros Hok Hlen Hcol (Hfrom & Hup & Hor) Eu. unfold historyCommitmentImpl, validateOriginHeights.
  rewrite Eu in *. destruct (Z.ltb_spec (len (challengeLeafHeights p) - 1) (len (b :: rest))); [done|].
  unfold mbind, res_bind at 1. unfold deepestRequestedChallengeLevel.
  change (len (b :: rest)) with (Z.of_nat (length (b :: rest))) in *.
  destruct (computeMachineStartIndex p (b :: rest) (FromHeight req)) as [start| | |] eqn:Es; try done.
  apply computeMachineStartIndex_spec in Es as (-> & [Hst _] & _).
  cbn [res_bind].
  rewrite computeStepSize_spec by (done || unfold len in *; lia). cbn [res_bind].
  pose proof (computeRequiredNumberOfHashes_spec (length (b :: rest)) (FromHeight req)
    (UpToHeight req) Hok ltac:(simpl; lia) Hfrom Hup) as Hn.
  destruct (challengeLeafHeights p !! length (b :: rest)) as [leaf|] eqn:El; [|by destruct Hn as [? ->]].
  assert (Hclh : challengeLeafHeights p <> []) by (by intros E; rewrite E in El).
  cbv zeta in Hn. case_bool_decide; [|by destruct Hn as [? ->]]. rewrite Hn. cbn [res_bind].
  pose proof (machine_index_bound (b :: rest) (default leaf (UpToHeight req)) leaf Hok ltac:(done) Hor El ltac:(lia)) as Hb.
  rewrite (machine_index_step _ (default leaf _)) in Hb by done. destruct Hok as [Hpos Hfit].
  pose proof (product_from_pos _ (S (length (b :: rest))) Hpos). unfold step_of in Hb.
  rewrite Hcol; cbn [MachineStartIndex StepSize NumDesiredHashes]; [|done|unfold step_of; lia|lia|].
  - intros [= <-]. by exists leaf.
  - rewrite machine_index_step by done. unfold step_of. lia.
Qed.

(** Requests of a range of heights of a level succeed. *)
Lemma historyCommitmentImpl_succeeds machine_hash req b rest leaf :
  heights_ok -> len (challengeLeafHeights p) < two64 -> collector_spec machine_hash ->
  valid_request req -> UpperChallengeOriginHeights req = b :: rest ->
  challengeLeafHeights p !! length (b :: rest) = Some leaf ->
  FromHeight req <= default leaf (UpToHeight req) <= leaf ->
  exists hs, historyCommitmentImpl p req = Ok hs.
Proof.
  intros Hok Hlen Hcol (Hfrom & Hup & Hor) Eu El Hr. rewrite Eu in Hor.
  assert (Hclh : challengeLeafHeights p <> []) by (by intros E; rewrite E in El).
  pose proof (lookup_lt_Some _ _ _ El) as Hlt. unfold len in Hlen.
  pose proof (machine_index_bound (b :: rest) (FromHeight req) leaf Hok ltac:(done) Hor El ltac:(lia)) as Hb.
  pose proof (machine_index_bound (b :: rest) (default leaf (UpToHeight req)) leaf Hok ltac:(done) Hor El ltac:(lia)) as Hb'.
  pose proof (computeRequiredNumberOfHashes_spec (length (b :: rest)) (FromHeight req)
    (UpToHeight req) Hok ltac:(simpl; lia) Hfrom Hup) as Hn. rewrite El in Hn. cbv zeta in Hn. rewrite bool_decide_true in Hn by done.
  unfold historyCommitmentImpl, validateOriginHeights. rewrite Eu.
  destruct (Z.ltb_spec (len (challengeLeafHeights p) - 1) (len (b :: rest))); [unfold len in *; lia|].
  unfold mbind, res_bind at 1. unfold deepestRequestedChallengeLevel.
  change (len (b :: rest)) with (Z.of_nat (length (b :: rest))) in *.
  rewrite (proj2 (computeMachineStartIndex_spec (b :: rest) (FromHeight req) (machine_index (b :: rest) (FromHeight req)))).
  2: { split; [done|]. split; [|by right]. unfold is_u64. destruct Hok. lia. }
  cbn [res_bind]. rewrite computeStepSize_spec by (done || unfold len in *; lia). cbn [res_bind]. rewrite Hn. cbn [res_bind].
  rewrite machine_index_step in Hb' by done. destruct Hok as [Hpos Hfit].
  pose proof (product_from_pos _ (S (length (b :: rest))) Hpos). unfold step_of in Hb'.
  rewrite Hcol; cbn [MachineStartIndex StepSize NumDesiredHashes]; [by eexists|lia|unfold step_of; lia|lia|].
  rewrite machine_index_step by done. unfold step_of. lia.
Qed.

(** The endpoints of a subchallenge agree with the challenge above it: with
    collectors that step machines as documented, the first leaf of the full
    commitment of the subchallenge opened at height [h] is leaf [h] of the
    commitment one level up, and its last leaf is leaf [h + 1] there.  These are
    the leaves whose inclusion the protocol checks when a subchallenge is opened. *)
Theorem subchallenge_endpoints machine_hash wasm fromBatch toBatch upper h e parent child :
  heights_ok -> len (challengeLeafHeights p) < two64 -> collector_spec machine_hash ->
  upper <> [] -> origins_ok upper -> 0 <= h < e ->
  historyCommitmentImpl p {|
    ReqWasmModuleRoot := wasm; FromBatch := fromBatch; ToBatch := toBatch;
    UpperChallengeOriginHeights := upper; FromHeight := 0; UpToHeight := Some e |} = Ok parent ->
  historyCommitmentImpl p {|
    ReqWasmModuleRoot := wasm; FromBatch := fromBatch; ToBatch := toBatch;
    UpperChallengeOriginHeights := upper ++ [h]; FromHeight := 0; UpToHeight := None |} = Ok child ->
  exists first last,
    child !! 0%nat = Some first /\ parent !! Z.to_nat h = Some first /\
    child !! (length child - 1)%nat = Some last /\ parent !! Z.to_nat (h + 1) = Some last.
Proof.
  intros Hok Hlen Hcol Hne Hor Hh Hp Hc. destruct upper as [|b rest]; [done|].
  apply (historyCommitmentImpl_spec machine_hash _ b rest) in Hp; try done;
    [|split_and!; [done|by intros ? [= <-]; lia|done]]. destruct Hp as (pleaf & Epl & Hpe & ->). cbn [UpToHeight default] in Hpe.
  apply (historyCommitmentImpl_spec machine_hash _ b (rest ++ [h])) in Hc; try done.
  2: { split_and!; [done|done|]. apply (origins_ok_snoc (b :: rest) h pleaf); [done|done|simpl in Hpe; lia]. }
  destruct Hc as (cleaf & Ecl & Hce & ->).
  cbn [UpToHeight FromHeight default ReqWasmModuleRoot FromBatch] in *.
  pose proof (leaf_height_bound (length (b :: rest ++ [h])) cleaf Hok ltac:(simpl; lia) Ecl) as Hcb.
  change (b :: rest ++ [h]) with ((b :: rest) ++ [h]) in *.
  rewrite length_app in Ecl |- *. rewrite Nat.add_1_r in *.
  assert (Hclh : challengeLeafHeights p <> []) by (by intros E; rewrite E in Epl).
  set (at_ i := machine_hash wasm fromBatch b
    (machine_index (b :: rest) 0 + step_of (length (b :: rest)) * i)).
  exists (at_ h), (at_ (h + 1)). unfold at_. rewrite length_fmap, length_seq.
  split_and!; rewrite fmap_seq_lookup by (simpl in *; lia); do 2 f_equal; rewrite ?Z2Nat.id by lia.
  - rewrite machine_index_sub, (machine_index_step _ h) by done. lia.
  - done.
  - rewrite machine_index_sub, (machine_index_step _ h), (step_of_next _ _ Ecl) by done.
    replace (Z.of_nat (Z.to_nat (cleaf - 0 + 1) - 1)) with cleaf by lia. ring.
  - done.
Qed.

(** ** Commitments bind their leaves *)

Definition schedules_ok : Prop := forall n, valid_schedule n (schedule p n).

Lemma New_commitment_spec leaves :
  schedules_ok -> leaves <> [] -> len leaves < two64 ->
  exists h, New_commitment p leaves = Ok h /\ commits_to h leaves.
Proof. intros Hs Hne Hlt. apply New_spec; auto. Qed.

(** The first and last leaf of a commitment below the block level. *)
Lemma HistoryCommitment_leaves machine_hash req b rest h :
  heights_ok -> len (challengeLeafHeights p) < two64 -> collector_spec machine_hash -> schedules_ok ->
  valid_request req -> FromHeight req = 0 -> UpperChallengeOriginHeights req = b :: rest ->
  HistoryCommitment p req = Ok h ->
  exists leaf, challengeLeafHeights p !! length (b :: rest) = Some leaf /\
    let end_ := default leaf (UpToHeight req) in
    let at_ i := machine_hash (ReqWasmModuleRoot req) (FromBatch req) b (machine_index (b :: rest) i) in
    0 <= end_ <= leaf /\ Height h = end_ /\ FirstLeaf h = at_ 0 /\ LastLeaf h = at_ end_.
Proof.
  intros Hok Hlen Hcol Hs Hv Hf0 Eu. unfold HistoryCommitment, mbind, res_bind.
  destruct (historyCommitmentImpl p req) as [hs| | |] eqn:Ei; try done. intros Enew.
  destruct (historyCommitmentImpl_spec machine_hash req b rest hs Hok Hlen Hcol Hv Eu Ei)
    as (leaf & Eleaf & Hend & Ehs). exists leaf. split; [done|]. cbv zeta in *.
  rewrite Hf0 in *. set (end_ := default leaf (UpToHeight req)) in *.
  pose proof (leaf_height_bound (length (b :: rest)) leaf Hok ltac:(simpl; lia) Eleaf) as Hb.
  assert (Hlhs : length hs = Z.to_nat (end_ + 1)).
  { rewrite Ehs, length_fmap, length_seq. f_equal. lia. }
  assert (Hclh : challengeLeafHeights p <> []) by (by intros E; rewrite E in Eleaf).
  destruct (New_commitment_spec hs Hs) as (h' & Eh' & (Hh & _ & H1 & H2 & _)).
  { intros ->. simpl in Hlhs. lia. }
  { unfold len. lia. }
  rewrite Enew in Eh'. injection Eh' as <-. split_and!; [lia|lia|unfold len in *; lia| |].
  - rewrite Ehs, fmap_seq_lookup in H1 by lia. injection H1 as <-. f_equal.
    change (Z.of_nat 0) with 0. by rewrite Z.mul_0_r, Z.add_0_r.
  - rewrite Hlhs, Ehs, fmap_seq_lookup in H2 by lia.
    assert (E : forall x y : Hash, Some x = Some y -> y = x) by congruence. apply E in H2. rewrite H2.
    f_equal. rewrite (machine_index_step _ end_) by done. f_equal. f_equal. lia.
Qed.

(** The three slices of the leaves that [PrefixProof] works with. *)
Lemma prefix_slices {A} (leaves : list A) low high :
  0 < low < high -> high <= len leaves ->
  let pre := take (Z.to_nat low) leaves in
  let post := take (Z.to_nat high) leaves in
  let mid := drop (Z.to_nat low) post in
  len pre = low /\ len post = high /\ len mid = high - low /\ pre ++ mid = post /\
  pre <> [] /\ mid <> [] /\ post <> [].
Proof.
  intros Hl Hh pre post mid.
  assert (Lpre : len pre = low) by (unfold pre, len in *; rewrite length_take; lia).
  assert (Lpost : len post = high) by (unfold post, len in *; rewrite length_take; lia).
  assert (Lmid : len mid = high - low) by (unfold mid, len in *; rewrite length_drop; lia).
  split_and!; try done; try (intros E; rewrite E in *; unfold len in *; simpl in *; lia).
  unfold pre, mid, post. rewrite <- (take_drop (Z.to_nat low) (take (Z.to_nat high) leaves)) at 2.
  by rewrite take_take, Nat.min_l by lia.
Qed.

(** The prefix proofs of the provider pass their local check: when the leaves
    of the request reach its upper height and the prefix is a proper one, with
    fewer than [2^63] leaves, [PrefixProof] encodes the expansion of the prefix and
    a proof that [VerifyPrefixProof] accepts for the roots of the two commitments;
    no error or panic of the intermediate steps is reachable. *)
Lemma PrefixProof_succeeds req prefixHeight leaves high :
  schedules_ok -> historyCommitmentImpl p req = Ok leaves -> len leaves < 2 ^ 63 ->
  0 <= FromHeight req ->
  high = match UpToHeight req with None => len leaves | Some upTo => upTo - FromHeight req + 1 end ->
  0 <= prefixHeight -> prefixHeight + 1 < high <= len leaves ->
  let pre := take (Z.to_nat (prefixHeight + 1)) leaves in
  let post := take (Z.to_nat high) leaves in
  exists onlyProof,
    PrefixProof p req prefixHeight = PackProofArgs p (expansion_of (hash_leaf <$> pre)) onlyProof /\
    VerifyPrefixProof {|
      PreRoot := merkle (hash_leaf <$> pre); PreSize := prefixHeight + 1;
      PostRoot := merkle (hash_leaf <$> post); PostSize := high;
      PreExpansion := expansion_of (hash_leaf <$> pre);
      PrefixProofs.PrefixProof := onlyProof |} = Ok tt.
Proof.
  intros Hs Himpl Hlt Hfrom Hhigh Hph Hrange pre post.
  change (2 ^ 63) with 9223372036854775808 in *.
  assert (Hlt' : len leaves < two64) by (unfold two64; lia).
  unfold PrefixProof, mbind, res_bind. rewrite Himpl. cbv beta iota.
  rewrite (u64_small (prefixHeight + 1)) by lia.
  assert (Eh : match UpToHeight req with
    | None => Ok (len leaves)
    | Some upTo => if upTo <? FromHeight req then Err (ErrNew "invalid range: end %d was < start %d")
                   else Ok (u64 (u64 (upTo - FromHeight req) + 1)) end = Ok high).
  { destruct (UpToHeight req) as [upTo|]; [|by rewrite Hhigh].
    destruct (Z.ltb_spec upTo (FromHeight req)); [lia|].
    rewrite (u64_small (upTo - FromHeight req)), u64_small by lia. by rewrite Hhigh. }
  rewrite Eh. cbv beta iota.
  destruct (Z.ltb_spec (len leaves) high); [lia|].
  destruct (Z.ltb_spec high (prefixHeight + 1)); [lia|].
  unfold slice_to. destruct (Z.ltb_spec (len leaves) (prefixHeight + 1)); [lia|].
  destruct (Z.ltb_spec (len leaves) high); [lia|]. cbv beta iota. fold pre post.
  destruct (prefix_slices leaves (prefixHeight + 1) high)
    as (Lpre & Lpost & Hmid & Hsplit & Hpre & Hne & Hpost); [lia..|].
  fold pre post in Lpre, Lpost, Hmid, Hsplit, Hpre, Hne, Hpost.
  rewrite ExpansionFromLeaves_spec by lia. cbv beta iota.
  unfold slice_from at 1. destruct (Z.ltb_spec (len post) (prefixHeight + 1)); [lia|].
  cbv beta iota. set (mid := drop (Z.to_nat (prefixHeight + 1)) post) in *.
  assert (El : len (hash_leaf <$> pre) = prefixHeight + 1) by (unfold len in *; by rewrite length_fmap).
  destruct (honest_proof (hash_leaf <$> pre) mid) as (proof & numRead & Egen & Ecomp & Hnr & Hv);
    [by destruct pre|apply nonzero_leaves|done| |].
  { change (2 ^ 63) with 9223372036854775808. lia. }
  rewrite El, Hmid, <- fmap_app, Hsplit in *.
  rewrite Egen. cbv beta iota.
  destruct (New_commitment_spec post) as (bc & -> & (_ & Mb & _)); [done|done|lia|].
  destruct (New_commitment_spec pre) as (pc & -> & (_ & Mp & _)); [done|done|lia|].
  cbv beta iota. rewrite Ecomp. cbv beta iota.
  unfold slice_from. destruct (Z.ltb_spec (len proof) numRead); [lia|]. cbv beta iota.
  rewrite Mb, Mp. replace (prefixHeight + 1 + (high - (prefixHeight + 1))) with high in Hv by lia.
  rewrite Hv. cbn [wrap_err]. eauto.
Qed.


(** The commitment that [AgreesWithHistoryCommitment] computes locally. *)
Definition local_request (challengeLevel : Z) (meta : HistoryCommitmentRequest) (height : Z)
    : HistoryCommitmentRequest :=
  if challengeLevel =? NewBlockChallengeLevel then {|
    ReqWasmModuleRoot := ReqWasmModuleRoot meta; FromBatch := FromBatch meta; ToBatch := ToBatch meta;
    UpperChallengeOriginHeights := []; FromHeight := FromHeight meta;
    UpToHeight := Some (u64 (FromHeight meta + height)) |}
  else {|
    ReqWasmModuleRoot := ReqWasmModuleRoot meta; FromBatch := FromBatch meta; ToBatch := ToBatch meta;
    UpperChallengeOriginHeights := UpperChallengeOriginHeights meta; FromHeight := 0;
    UpToHeight := Some height |}.

Lemma padlayer_inj `{!HasherInjective} ns : forall ns',
  length ns = length ns' -> padlayer ns = padlayer ns' -> ns = ns'.
Proof.
  induction ns as [|x|x y ns IH] using pair_ind; intros [|x' [|y' ns']] Hl E; try done;
    cbn [padlayer] in E.
  - injection E as E%hash_node_inj. by destruct E as [-> _].
  - injection E as E%hash_node_inj E2. destruct E as [-> ->]. f_equal. f_equal.
    apply IH; [by injection Hl|done].
Qed.

(** With a collision-free hash the Merkle root determines lists of a given length. *)
Lemma merkle_inj `{!HasherInjective} k : forall ns ns',
  (length ns <= k)%nat -> length ns = length ns' -> merkle ns = merkle ns' -> ns = ns'.
Proof.
  induction k as [|k IH]; intros ns ns' Hk Hl E.
  { by destruct ns, ns'; simpl in *; try lia. }
  destruct ns as [|x [|y ns]], ns' as [|x' [|y' ns']]; try done.
  { by cbn in E; rewrite E. }
  rewrite !merkle_step in E.
  apply IH in E; [by apply padlayer_inj in E| |]; rewrite !length_padlayer.
  - cbn [length] in Hk |- *. change (Nat.div2 (S (S (S (length ns))))) with (S (Nat.div2 (S (length ns)))).
    pose proof (Nat.div2_odd (S (length ns))). destruct (Nat.odd _); cbn [Nat.b2n] in *; lia.
  - by rewrite Hl.
Qed.

(** (C37) Agreement with a commitment is agreement with its leaves: for a
    collision-free hash, when the local computation for the claimed height gives
    the leaves [mine], [AgreesWithHistoryCommitment] answers true on the height and
    root committed by a list of leaves [theirs] exactly when [mine] is [theirs].
    So an edge judged honest has the history the validator computes itself. *)
Theorem AgreesWithHistoryCommitment_binding `{!HasherInjective} challengeLevel meta mine theirs :
  schedules_ok -> theirs <> [] -> len theirs < two64 -> mine <> [] -> len mine < two64 ->
  historyCommitmentImpl p (local_request challengeLevel meta (len theirs - 1)) = Ok mine ->
  AgreesWithHistoryCommitment p challengeLevel meta
    {| ClaimHeight := len theirs - 1; ClaimMerkleRoot := merkle (hash_leaf <$> theirs) |} =
  Ok (bool_decide (mine = theirs)).
Proof.
  intros Hs Hne Hlt Hne' Hlt' Himpl. unfold AgreesWithHistoryCommitment, HistoryCommitment.
  cbn [ClaimHeight ClaimMerkleRoot].
  destruct (New_commitment_spec mine Hs Hne' Hlt') as (h & Eh & (Hh & Hm & _)).
  transitivity (Ok ((Height h =? len theirs - 1) && (Merkle h =? merkle (hash_leaf <$> theirs)))).
  { unfold local_request in Himpl. destruct (challengeLevel =? NewBlockChallengeLevel);
      rewrite Himpl; unfold mbind, res_bind; by rewrite Eh. }
  f_equal. rewrite Hh, Hm. case_bool_decide as Hd.
  - subst. by rewrite !Z.eqb_refl.
  - apply not_true_iff_false. intros [E1%Z.eqb_eq E2%Z.eqb_eq]%andb_prop. apply Hd.
    apply (merkle_inj (length mine)) in E2; rewrite ?length_fmap; [|lia|unfold len in *; lia].
    apply list_fmap_eq_inj in E2; [done|]. intros x y Exy. unfold hash_leaf in Exy.
    by apply keccak_inj in Exy; injection Exy.
Qed.


End provider_spec.

(** ** Witnesses: a provider over a toy machine *)

Definition toy_machine (wasm fromBatch block opcode : Z) : Hash := 1000 * block + opcode.

Definition toy_provider : HistoryCommitmentProvider := {|
  L2MessageStatesUpTo := fun from upTo _ _ =>
    Ok ((fun k => 500 + Z.of_nat k) <$> seq 0 (Z.to_nat (default 4 upTo - from + 1)));
  CollectMachineHashes := fun cfg =>
    Ok ((fun k => toy_machine (CfgWasmModuleRoot cfg) (CfgFromBatch cfg) (BlockChallengeHeight cfg)
           (MachineStartIndex cfg + StepSize cfg * Z.of_nat k))
        <$> seq 0 (Z.to_nat (NumDesiredHashes cfg)));
  CollectProof := fun _ _ _ index => Ok [index];
  PackProofArgs := fun a b => Ok (a ++ b);
  challengeLeafHeights := [4; 4; 2];
  schedule := seq 0;
|}.

Lemma toy_schedules_ok : schedules_ok toy_provider.
Proof. intros n. exists 1%nat. split; [lia|]. by rewrite worker_writes_cover by lia. Qed.

Lemma toy_heights_ok : heights_ok toy_provider.
Proof. split; [repeat constructor|done]. Qed.

Definition toy_request (upper : list Z) (upTo : option Z) : HistoryCommitmentRequest := {|
  ReqWasmModuleRoot := 7; FromBatch := 1; ToBatch := 2;
  UpperChallengeOriginHeights := upper; FromHeight := 0; UpToHeight := upTo |}.

Lemma subchallenge_endpoints_witness :
  exists parent child first last,
    historyCommitmentImpl toy_provider (toy_request [3] (Some 4)) = Ok parent /\
    historyCommitmentImpl toy_provider (toy_request ([3] ++ [2]) None) = Ok child /\
    child !! 0%nat = Some first /\ parent !! Z.to_nat 2 = Some first /\
    child !! (length child - 1)%nat = Some last /\ parent !! Z.to_nat (2 + 1) = Some last.
Proof.
  eexists _, _.
  edestruct (subchallenge_endpoints toy_provider toy_machine 7 1 2 [3] 2 4) as (first & last & E);
    [exact toy_heights_ok|done|done|done|by intros [|[|i]] h; try lia|lia|vm_compute; reflexivity|vm_compute; reflexivity|].
  exists first, last. split; [vm_compute; reflexivity|]. split; [vm_compute; reflexivity|]. exact E.
Defined.

Lemma AgreesWithHistoryCommitment_binding_witness :
  @AgreesWithHistoryCommitment toy_keccak toy_provider 0 (toy_request [] None)
    {| ClaimHeight := len [500; 501] - 1;
       ClaimMerkleRoot := @merkle toy_keccak (@hash_leaf toy_keccak <$> [500; 501]) |}
  = Ok (bool_decide ([500; 501] = [500; 501])).
Proof.
  apply (@AgreesWithHistoryCommitment_binding toy_keccak toy_nonzero toy_provider toy_injective 0
    (toy_request [] None) [500; 501] [500; 501]); try done. exact toy_schedules_ok.
Defined.
