(* ===== verification/ChallengeTree.v ===== *)
(** * The honest challenge tree

    [challenge-manager/challenge-tree]: the edges of one assertion challenge that the
    validator agrees with, their rivals, and the timers computed from them. *)

From S2P Require Import Prelude Bits PrefixProofs Containers Protocol Provider.

Definition ErrAlreadyBeingTracked : error := Sentinel "challengetree.ErrAlreadyBeingTracked".
Definition ErrMismatchedChallengeAssertionHash : error :=
  Sentinel "challengetree.ErrMismatchedChallengeAssertionHash".
Definition ErrNotFound : error := Sentinel "challengetree.ErrNotFound".
Definition ErrNoLowerChildYet : error := Sentinel "challengetree.ErrNoLowerChildYet".

(** What the calls of one operation read outside the tree: the [MetadataReader] and
    the [HistoryChecker] the tree is built with, the children of an edge on chain,
    and the error of the context when it is cancelled. *)
Record ChainView := {
  AssertionUnrivaledBlocks : AssertionHash -> res Z;
  TopLevelAssertion : EdgeId -> res AssertionHash;
  TopLevelClaimHeights : EdgeId -> res (list Z);
  ReadAssertionCreationInfo : AssertionHash -> res AssertionCreatedInfo;
  AgreesWith : Z -> HistoryCommitmentRequest -> HistoryClaim -> res bool;
  LowerChild : EdgeId -> res (option EdgeId);
  UpperChild : EdgeId -> res (option EdgeId);
  CtxErr : option error;
}.

(** The nested maps are values: the inner maps and slices are reachable only
    through the outer ones, so an update through the inner pointer is an update of
    the entry. *)
Record HonestChallengeTree := {
  edges : gmap EdgeId Edge;
  mutualIds : gmap MutualIdT (gmap EdgeId Z);
  topLevelAssertionHash : AssertionHash;
  totalChallengeLevels : Z;
  honestRootEdgesByLevel : gmap Z (list Edge);
}.

Definition New (assertionHash : AssertionHash) (numBigStepLevels : Z) : HonestChallengeTree := {|
  edges := Map.NewMap;
  mutualIds := Map.NewMap;
  topLevelAssertionHash := assertionHash;
  totalChallengeLevels := u8 (numBigStepLevels + 2);
  honestRootEdgesByLevel := Map.NewMap;
|}.

Definition with_edges (e : gmap EdgeId Edge) (t : HonestChallengeTree) : HonestChallengeTree := {|
  edges := e; mutualIds := mutualIds t; topLevelAssertionHash := topLevelAssertionHash t;
  totalChallengeLevels := totalChallengeLevels t; honestRootEdgesByLevel := honestRootEdgesByLevel t |}.
Definition with_mutualIds (m : gmap MutualIdT (gmap EdgeId Z)) (t : HonestChallengeTree)
    : HonestChallengeTree := {|
  edges := edges t; mutualIds := m; topLevelAssertionHash := topLevelAssertionHash t;
  totalChallengeLevels := totalChallengeLevels t; honestRootEdgesByLevel := honestRootEdgesByLevel t |}.
Definition with_roots (r : gmap Z (list Edge)) (t : HonestChallengeTree) : HonestChallengeTree := {|
  edges := edges t; mutualIds := mutualIds t; topLevelAssertionHash := topLevelAssertionHash t;
  totalChallengeLevels := totalChallengeLevels t; honestRootEdgesByLevel := r |}.

Abbreviation TreeM := (M HonestChallengeTree).

Definition HonestBlockChallengeRootEdge (t : HonestChallengeTree) : res Edge :=
  let blockChallengeLevel := u8 (totalChallengeLevels t - 1) in
  match Map.TryGet blockChallengeLevel (honestRootEdgesByLevel t) with
  | Some rootEdges =>
      if negb (Slice.Len rootEdges =? 1) then
        Err (ErrNew "expected one honest root block challenge edge for challenged assertion %#x")
      else
        first ← Slice.Get 0 rootEdges;
        unwrap_opt first
  | None => Err (ErrNew "no honest root edges for block challenge level for assertion %#x")
  end.

(** Appending to the root edges of the edge's level, when it claims something. *)
Definition push_root_edge (eg : Edge) : TreeM unit :=
  match ClaimId eg with
  | None => mret tt
  | Some _ =>
      modify (fun t =>
        let level := GetReversedChallengeLevel eg in
        match Map.TryGet level (honestRootEdgesByLevel t) with
        | None => with_roots (Map.Put level (Slice.Push eg Slice.NewSlice) (honestRootEdgesByLevel t)) t
        | Some roots => with_roots (Map.Put level (Slice.Push eg roots) (honestRootEdgesByLevel t)) t
        end)
  end.

(** [mutuals == nil]: an entry for the mutual id is created. *)
Definition ensure_mutuals (mutualId : MutualIdT) : TreeM unit :=
  modify (fun t => if Map.Has mutualId (mutualIds t) then t
                   else with_mutualIds (Map.Put mutualId Map.NewMap (mutualIds t)) t).

(** Recording the creation block of an edge among those with its mutual id: the
    entry for the mutual id exists even when reading the block fails. *)
Definition put_mutual (eg : Edge) : TreeM unit :=
  ensure_mutuals (MutualId eg) ;;
  createdAtBlock ← lift (CreatedAtBlock eg);
  modify (fun t =>
    let mutuals := Map.Get Map.NewMap (MutualId eg) (mutualIds t) in
    with_mutualIds (Map.Put (MutualId eg) (Map.Put (Id eg) createdAtBlock mutuals) (mutualIds t)) t).

(** The commitment request of [AddEdge] for the level of the edge. *)
Definition agreement_request (level : Z) (creationInfo : AssertionCreatedInfo)
    (startHeights : list Z) (endHeight : Z) : HistoryCommitmentRequest := {|
  ReqWasmModuleRoot := WasmModuleRoot creationInfo;
  FromBatch := Batch (GoGlobalStateFromSolidity (SolGlobal (BeforeState creationInfo)));
  ToBatch := Batch (GoGlobalStateFromSolidity (SolGlobal (AfterState creationInfo)));
  UpperChallengeOriginHeights := if level =? NewBlockChallengeLevel then [] else startHeights;
  FromHeight := 0;
  UpToHeight := Some endHeight;
|}.

(** The part of [AddEdge] that only reads: whether the validator agrees with the
    end and with the start of the edge. *)
Definition check_agreement (v : ChainView) (t : HonestChallengeTree) (eg : Edge) : res Agreement :=
  assertionHash ← wrap_err "could not get top level assertion for edge %#x" (TopLevelAssertion v (Id eg));
  if negb (topLevelAssertionHash t =? assertionHash) then Err ErrMismatchedChallengeAssertionHash
  else
    let challengeLevel := GetChallengeLevel eg in
    claimedAssertionHash ←
      match (challengeLevel =? NewBlockChallengeLevel), ClaimId eg with
      | true, Some claim => Ok claim
      | _, _ =>
          honestLevelZeroEdge ← HonestBlockChallengeRootEdge t;
          match ClaimId honestLevelZeroEdge with
          | None => Err (ErrNew "honest level zero edge has no claim id")
          | Some claim => Ok claim
          end
      end;
    creationInfo ← ReadAssertionCreationInfo v claimedAssertionHash;
    let '(startHeight, startCommit) := StartCommitment eg in
    let '(endHeight, endCommit) := EndCommitment eg in
    startHeights ← wrap_err "could not get claim heights for edge %#x" (TopLevelClaimHeights v (Id eg));
    if negb (challengeLevel =? NewBlockChallengeLevel) && (len startHeights =? 0) then
      Err (ErrNew "start height cannot be zero")
    else
      let request := agreement_request challengeLevel creationInfo startHeights endHeight in
      isHonestEdge ← wrap_err "could not check if agrees with history commit for edge %#x"
        (AgreesWith v challengeLevel request {| ClaimHeight := endHeight; ClaimMerkleRoot := endCommit |});
      agreesWithStart ← wrap_err "could not check if agrees with history commit for edge %#x"
        (AgreesWith v challengeLevel request {| ClaimHeight := startHeight; ClaimMerkleRoot := startCommit |});
      Ok {| IsHonestEdge := isHonestEdge; AgreesWithStartCommit := agreesWithStart |}.

Definition AddEdge (v : ChainView) (eg : Edge) : TreeM Agreement :=
  t ← get;
  if Map.Has (Id eg) (edges t) then fail ErrAlreadyBeingTracked
  else
    agreement ← lift (check_agreement v t eg);
    (if IsHonestEdge agreement then
       modify (fun t => with_edges (Map.Put (Id eg) eg (edges t)) t) ;;
       push_root_edge eg
     else mret tt) ;;
    (if AgreesWithStartCommit agreement || IsHonestEdge agreement then put_mutual eg else mret tt) ;;
    mret agreement.

Definition AddHonestEdge (eg : Edge) : TreeM unit :=
  t ← get;
  if Map.Has (Id eg) (edges t) then mret tt
  else
    modify (fun t => with_edges (Map.Put (Id eg) eg (edges t)) t) ;;
    push_root_edge eg ;;
    put_mutual eg.

Definition GetEdges (t : HonestChallengeTree) : gmap EdgeId Edge := edges t.

(** ** Local timers *)

(** The rivals in the order the map iteration visits them. *)
Definition rivalsWithCreationTimes (eg : Edge) : TreeM (list (EdgeId * Z)) :=
  t ← get;
  match Map.TryGet (MutualId eg) (mutualIds t) with
  | None => ensure_mutuals (MutualId eg) ;; mret []
  | Some mutuals => mret (filter (fun r : EdgeId * Z => r.1 <> Id eg) (map_to_list mutuals))
  end.

Definition earliest_step (acc : option Z) (r : EdgeId * Z) : option Z :=
  match acc with
  | None => Some r.2
  | Some m => if r.2 <? m then Some r.2 else acc
  end.

Definition earliestCreatedRivalBlockNumber (e : Edge) : TreeM (option Z) :=
  rivals ← rivalsWithCreationTimes e;
  mret (fold_left earliest_step rivals None).

Definition unrivaledAtBlockNum (e : Edge) (blockNum : Z) : TreeM bool :=
  createdAtBlock ← lift (CreatedAtBlock e);
  if blockNum <? createdAtBlock then fail (ErrNew "edge creation block %d less than specified %d")
  else
    rivals ← rivalsWithCreationTimes e;
    mret (forallb (fun r => negb (r.2 <=? blockNum)) rivals).

Definition localTimer (e : Edge) (blockNum : Z) : TreeM Z :=
  createdAtBlock ← lift (CreatedAtBlock e);
  if blockNum <=? createdAtBlock then mret 0
  else
    '(unrivaled : bool) ← unrivaledAtBlockNum e blockNum;
    if unrivaled then mret (u64 (blockNum - createdAtBlock))
    else
      earliest ← earliestCreatedRivalBlockNumber e;
      tRival ← lift (unwrap_opt earliest);
      if tRival <=? createdAtBlock then mret 0 else mret (u64 (tRival - createdAtBlock)).

(** ** Path timers *)

Record AncestorsQueryResponse := { AncestorLocalTimers : list Z; AncestorEdgeIds : list EdgeId }.

Fixpoint confirmable_loop (total : Z) (timers : list Z) (challengePeriodBlocks : Z) : bool :=
  match timers with
  | [] => false
  | timer :: timers' =>
      let total := u64 (total + timer) in
      if challengePeriodBlocks <=? total then true
      else confirmable_loop total timers' challengePeriodBlocks
  end.

Definition HasConfirmableAncestor (v : ChainView) (honestAncestorLocalTimers : list Z)
    (challengePeriodBlocks : Z) : TreeM bool :=
  t ← get;
  match honestAncestorLocalTimers with
  | [] => mret false
  | _ =>
      assertionUnrivaledNumBlocks ← lift (AssertionUnrivaledBlocks v (topLevelAssertionHash t));
      mret (confirmable_loop assertionUnrivaledNumBlocks honestAncestorLocalTimers challengePeriodBlocks)
  end.

Definition errNotFound : error := ErrWrap ErrNotFound "id=%#x".

Definition ComputeHonestPathTimer (v : ChainView) (edgeId : EdgeId) (ancestorLocalTimers : list Z)
    (blockNumber : Z) : TreeM Z :=
  t ← get;
  match Map.TryGet edgeId (edges t) with
  | None => fail errNotFound
  | Some edge =>
      edgeLocalTimer ← localTimer edge blockNumber;
      assertionUnrivaledTimer ← lift (AssertionUnrivaledBlocks v (topLevelAssertionHash t));
      mret (fold_left (fun total timer => u64 (total + timer)) ancestorLocalTimers
              (u64 (edgeLocalTimer + assertionUnrivaledTimer)))
  end.

Definition findOriginEdge (originId : OriginIdT) (es : list Edge) : option Edge :=
  snd <$> list_find (fun e => OriginId e = originId) es.

Definition honestRootAncestorAtChallengeLevel (t : HonestChallengeTree) (childEdge : Edge)
    (challengeLevel : Z) : res Edge :=
  match Map.TryGet challengeLevel (honestRootEdgesByLevel t) with
  | None => Err (ErrNew "no honest edges found at challenge level %d")
  | Some rootEdgesAtLevel =>
      match findOriginEdge (OriginId childEdge) rootEdgesAtLevel with
      | None => Err (ErrNew "no honest root edge with origin id %#x found at challenge level %d")
      | Some rootAncestor => Ok rootAncestor
      end
  end.

Definition getClaimedEdge (t : HonestChallengeTree) (edge : Edge) : res Edge :=
  match ClaimId edge with
  | None => Err (ErrNew "does not claim any edge")
  | Some claimId =>
      match Map.TryGet claimId (edges t) with
      | None => Err (ErrNew "claimed edge not found")
      | Some claimed => Ok claimed
      end
  end.

(** The child of the cursor the search goes to; an untracked child is a nil
    interface, on which the next method call panics. *)
Definition next_cursor (v : ChainView) (t : HonestChallengeTree) (wantedEdgeStart : Z) (cursor : Edge)
    : res Edge :=
  bisectTo ← wrap_err "could not bisect start=%d, end=%d"
    (Bisect (fst (StartCommitment cursor)) (fst (EndCommitment cursor)));
  child ←
    (if wantedEdgeStart <? bisectTo then
       lowerChild ← wrap_err "could not get lower child for edge %#x" (LowerChild v (Id cursor));
       match lowerChild with
       | None => Err (ErrWrap ErrNoLowerChildYet "edge id %#x")
       | Some c => Ok c
       end
     else
       upperChild ← wrap_err "could not get upper child for edge %#x" (UpperChild v (Id cursor));
       match upperChild with
       | None => Err (ErrNew "edge %#x had no upper child")
       | Some c => Ok c
       end);
  match Map.TryGet child (edges t) with
  | None => Panic NilDereference
  | Some e => Ok e
  end.

Fixpoint find_ancestors_loop (fuel : nat) (v : ChainView) (queryingFor cursor : Edge) (blockNumber : Z)
    (localTimers : list Z) (ancestry : list EdgeId) : TreeM (list Z * list EdgeId) :=
  match fuel with
  | O => lift NoFuel
  | S fuel' =>
      match CtxErr v with
      | Some e => fail e
      | None =>
          if Id cursor =? Id queryingFor then mret (localTimers, ancestry)
          else
            timer ← localTimer cursor blockNumber;
            t ← get;
            next ← lift (next_cursor v t (fst (StartCommitment queryingFor)) cursor);
            find_ancestors_loop fuel' v queryingFor next blockNumber
              (localTimers ++ [timer]) (ancestry ++ [Id cursor])
      end
  end.

(** Every cursor after the first is a tracked edge: the loop either visits each at
    most once or repeats forever, so one more than their number decides it. *)
Definition findHonestAncestorsWithinChallengeLevel (v : ChainView) (rootEdge queryingFor : Edge)
    (blockNumber : Z) : TreeM (list Z * list EdgeId) :=
  t ← get;
  find_ancestors_loop (S (S (size (edges t)))) v queryingFor rootEdge blockNumber [] [].

(** The loop over the levels from the one of the edge up to the block level. *)
Fixpoint ancestors_loop (fuel : nat) (v : ChainView) (blockNumber : Z) (currentEdge : Edge) (level : Z)
    (localTimers : list Z) (ancestry : list EdgeId) : TreeM (list Z * list EdgeId) :=
  t ← get;
  if negb (level <? totalChallengeLevels t) then mret (localTimers, ancestry)
  else
    match fuel with
    | O => lift NoFuel
    | S fuel' =>
        rootEdge ← lift (honestRootAncestorAtChallengeLevel t currentEdge level);
        '(timersAtLevel, ancestorsAtLevel) ←
          findHonestAncestorsWithinChallengeLevel v rootEdge currentEdge blockNumber;
        let ancestry := ancestry ++ Reverse ancestorsAtLevel in
        let localTimers := localTimers ++ Reverse timersAtLevel in
        let level := u8 (level + 1) in
        if level =? totalChallengeLevels t then mret (localTimers, ancestry)
        else
          claimed ← lift (getClaimedEdge t rootEdge);
          claimTimer ← localTimer claimed blockNumber;
          ancestors_loop fuel' v blockNumber claimed level
            (localTimers ++ [claimTimer]) (ancestry ++ [Id claimed])
    end.

(** A [uint8] level below the total reaches it in fewer than 256 increments. *)
Definition ComputeAncestorsWithTimers (v : ChainView) (edgeId : EdgeId) (blockNumber : Z)
    : TreeM AncestorsQueryResponse :=
  t ← get;
  match Map.TryGet edgeId (edges t) with
  | None => fail errNotFound
  | Some startEdge =>
      '(localTimers, ancestry) ←
        ancestors_loop 256 v blockNumber startEdge (GetReversedChallengeLevel startEdge) [] [];
      mret {| AncestorLocalTimers := localTimers; AncestorEdgeIds := ancestry |}
  end.
