(* ===== verification/ChallengeTreeSpec.v ===== *)
(** * What the challenge tree computes

    The local timer of an edge as a closed formula, the ancestor search as a walk
    along child links, path timers as sums, and the invariants of the book-keeping. *)

From S2P Require Import Prelude Bits PrefixProofs Containers Protocol Provider ChallengeTree.

(** ** Trees that differ only in empty rival sets

    Reading the rivals of an edge creates an empty set when there is none: results
    do not depend on it. *)

Definition mutuals_of (t : HonestChallengeTree) (m : MutualIdT) : gmap EdgeId Z :=
  default ∅ (mutualIds t !! m).

#[global] Instance tree_equiv : Equiv HonestChallengeTree := fun t t' =>
  edges t = edges t' /\ honestRootEdgesByLevel t = honestRootEdgesByLevel t' /\
  topLevelAssertionHash t = topLevelAssertionHash t' /\
  totalChallengeLevels t = totalChallengeLevels t' /\
  forall m, mutuals_of t m = mutuals_of t' m.

#[global] Instance tree_equivalence : Equivalence (≡@{HonestChallengeTree}).
Proof.
  split.
  - intros t. unfold equiv, tree_equiv. auto.
  - intros t t' (? & ? & ? & ? & ?). unfold equiv, tree_equiv. auto 10.
  - intros t t' t'' (? & ? & ? & ? & H) (? & ? & ? & ? & H'). unfold equiv, tree_equiv.
    split_and!; congruence.
Qed.

#[global] Instance mutuals_of_proper : Proper ((≡) ==> (=) ==> (=)) mutuals_of.
Proof. intros t t' (_ & _ & _ & _ & H) m m' ->. apply H. Qed.
#[global] Instance edges_proper : Proper ((≡) ==> (=)) edges.
Proof. intros t t' E. apply E. Qed.
#[global] Instance roots_proper : Proper ((≡) ==> (=)) honestRootEdgesByLevel.
Proof. intros t t' E. apply E. Qed.
#[global] Instance total_proper : Proper ((≡) ==> (=)) totalChallengeLevels.
Proof. intros t t' E. apply E. Qed.
#[global] Instance top_proper : Proper ((≡) ==> (=)) topLevelAssertionHash.
Proof. intros t t' E. apply E. Qed.

(** The rivals of an edge. *)
Definition rivals_of (t : HonestChallengeTree) (e : Edge) : list (EdgeId * Z) :=
  filter (fun r : EdgeId * Z => r.1 <> Id e) (map_to_list (mutuals_of t (MutualId e))).

#[global] Instance rivals_of_proper : Proper ((≡) ==> (=) ==> (=)) rivals_of.
Proof. intros t t' Ht e e' ->. unfold rivals_of. by rewrite Ht. Qed.

Lemma ensure_mutuals_equiv m t : (ensure_mutuals m t).1 = Ok tt /\ (ensure_mutuals m t).2 ≡ t.
Proof.
  unfold ensure_mutuals, modify. cbn. split; [done|]. unfold Map.Has.
  case_bool_decide as Hs; [done|]. unfold equiv, tree_equiv. cbn. split_and!; try done.
  intros m'. unfold mutuals_of. cbn. unfold Map.Put. destruct (decide (m' = m)) as [->|].
  - rewrite lookup_insert_eq. destruct (mutualIds t !! m) eqn:E; [|done]. by destruct Hs.
  - by rewrite lookup_insert_ne.
Qed.

Lemma rivalsWithCreationTimes_spec e t :
  exists t', rivalsWithCreationTimes e t = (Ok (rivals_of t e), t') /\ t' ≡ t.
Proof.
  unfold rivalsWithCreationTimes, get, mbind, M_bind, Map.TryGet, rivals_of, mutuals_of.
  destruct (mutualIds t !! MutualId e) as [mutuals|] eqn:E; [by exists t|].
  pose proof (ensure_mutuals_equiv (MutualId e) t) as [E1 E2].
  destruct (ensure_mutuals (MutualId e) t) as [r t']. cbn in *. subst r. by exists t'.
Qed.

(** ** The earliest rival *)

Definition earliest (t : HonestChallengeTree) (e : Edge) : option Z :=
  fold_left earliest_step (rivals_of t e) None.

Lemma fold_earliest rivals : forall acc,
  match fold_left earliest_step rivals acc with
  | None => rivals = [] /\ acc = None
  | Some m =>
      (m ∈ rivals.*2 \/ acc = Some m) /\
      (forall r, r ∈ rivals -> m <= r.2) /\ (forall a, acc = Some a -> m <= a)
  end.
Proof.
  induction rivals as [|r rivals IH]; intros acc; cbn [fold_left].
  { destruct acc as [a|]; [|done]. split_and!; [by right|by intros ? ?%not_elem_of_nil|].
    intros ? [= ->]. lia. }
  specialize (IH (earliest_step acc r)). destruct (fold_left _ _ _) as [m|].
  - destruct IH as (Hin & Hall & Hacc). cbn [fmap list_fmap]. rewrite elem_of_cons.
    assert (m <= r.2 /\ forall a, acc = Some a -> m <= a) as [Hr Ha].
    { unfold earliest_step in Hacc. destruct acc as [a|]; [|split; [by apply Hacc|done]].
      destruct (Z.ltb_spec r.2 a); specialize (Hacc _ eq_refl);
        (split; [|intros ? [= <-]]); lia. }
    split_and!; [|intros r' [->|]%elem_of_cons; auto|done].
    destruct Hin as [|E]; [auto|]. unfold earliest_step in E.
    destruct acc as [a|]; [|injection E; auto]. destruct (Z.ltb_spec r.2 a); injection E; auto.
  - destruct IH as [-> E]. unfold earliest_step in E. destruct acc; [|done].
    by destruct (_ <? _).
Qed.

Lemma earliest_spec t e :
  match earliest t e with
  | None => rivals_of t e = []
  | Some m => m ∈ (rivals_of t e).*2 /\ forall r, r ∈ rivals_of t e -> m <= r.2
  end.
Proof.
  pose proof (fold_earliest (rivals_of t e) None) as Hf. unfold earliest.
  destruct (fold_left _ _ _); [|tauto]. destruct Hf as ([|] & ? & _); done.
Qed.

#[global] Instance earliest_proper : Proper ((≡) ==> (=) ==> (=)) earliest.
Proof. intros t t' Ht e e' ->. unfold earliest. by rewrite Ht. Qed.

Lemma unrivaled_earliest t e b :
  forallb (fun r => negb (r.2 <=? b)) (rivals_of t e) =
    match earliest t e with None => true | Some m => b <? m end.
Proof.
  pose proof (earliest_spec t e) as Hs. destruct (earliest t e) as [m|]; [|by rewrite Hs].
  destruct Hs as [Hin Hall]. apply eq_bool_prop_intro. rewrite !Is_true_true, forallb_forall, Z.ltb_lt.
  split.
  - intros Hf. apply list_elem_of_fmap in Hin as (r & -> & Hin%list_elem_of_In).
    specialize (Hf r Hin). apply negb_true_iff, Z.leb_gt in Hf. lia.
  - intros Hm r Hr%list_elem_of_In. specialize (Hall r Hr). apply negb_true_iff, Z.leb_gt. lia.
Qed.

(** ** The local timer as a formula *)

Definition timer_of (t : HonestChallengeTree) (b : Z) (e : Edge) : Z :=
  match CreatedAtBlock e with
  | Ok c => Z.max 0 (match earliest t e with None => b | Some r => Z.min b r end - c)
  | _ => 0
  end.

#[global] Instance timer_of_proper : Proper ((≡) ==> (=) ==> (=) ==> (=)) timer_of.
Proof. intros t t' Ht b b' -> e e' ->. unfold timer_of. destruct (CreatedAtBlock e'); by rewrite ?Ht. Qed.

Lemma localTimer_run e b c t :
  CreatedAtBlock e = Ok c -> 0 <= c -> b < two64 ->
  exists t', localTimer e b t = (Ok (timer_of t b e), t') /\ t' ≡ t.
Proof.
  intros Ec Hc Hb. unfold localTimer, lift, timer_of, mbind, M_bind, mret, M_ret. rewrite Ec.
  destruct (Z.leb_spec b c) as [Hbc|Hbc].
  { exists t. split; [|done]. do 2 f_equal. destruct (earliest t e); lia. }
  unfold unrivaledAtBlockNum, lift, mbind, M_bind, mret, M_ret. rewrite Ec.
  destruct (Z.ltb_spec b c); [lia|].
  destruct (rivalsWithCreationTimes_spec e t) as (t1 & -> & E1). rewrite unrivaled_earliest.
  destruct (earliest t e) as [m|] eqn:Em.
  2: { exists t1. rewrite u64_small by lia. split; [|done]. do 2 f_equal. lia. }
  destruct (Z.ltb_spec b m) as [Hbm|Hbm].
  { exists t1. rewrite u64_small by lia. split; [|done]. do 2 f_equal. lia. }
  unfold earliestCreatedRivalBlockNumber, mbind, M_bind, mret, M_ret.
  destruct (rivalsWithCreationTimes_spec e t1) as (t2 & -> & E2).
  assert (Ee : fold_left earliest_step (rivals_of t1 e) None = Some m)
    by (rewrite <- Em; unfold earliest; by rewrite E1).
  rewrite Ee. cbn [unwrap_opt]. assert (E3 : t2 ≡ t) by (by rewrite E2). exists t2. destruct (Z.leb_spec m c).
  - split; [|done]. do 2 f_equal. lia.
  - rewrite u64_small by lia. split; [|done]. do 2 f_equal. lia.
Qed.

(** The local timer of an edge created at block [c], read at block [b], is the
    time from its creation to [b] or to the creation of its earliest rival,
    whichever is first, and zero when that is not after its creation.  It never
    decreases as blocks pass, and the earliest rival is a minimum over the edges
    recorded with the same mutual id. *)
Theorem localTimer_correct e b b' c t :
  CreatedAtBlock e = Ok c -> 0 <= c -> b <= b' -> b' < two64 ->
  exists v v',
    (localTimer e b t).1 = Ok v /\ (localTimer e b' t).1 = Ok v' /\
    v = Z.max 0 (match earliest t e with None => b | Some r => Z.min b r end - c) /\
    0 <= v <= v' /\
    match earliest t e with
    | None => forall id r, mutuals_of t (MutualId e) !! id = Some r -> id = Id e
    | Some m => (exists id, id <> Id e /\ mutuals_of t (MutualId e) !! id = Some m) /\
                forall id r, id <> Id e -> mutuals_of t (MutualId e) !! id = Some r -> m <= r
    end.
Proof.
  intros Ec Hc Hb Hb'.
  destruct (localTimer_run e b c t Ec Hc ltac:(lia)) as (t1 & -> & _).
  destruct (localTimer_run e b' c t Ec Hc Hb') as (t2 & -> & _).
  unfold timer_of. rewrite Ec. eexists _, _. cbn [fst]. split_and!; try reflexivity; try lia.
  { destruct (earliest t e); lia. }
  assert (Hin : forall id r, (id, r) ∈ rivals_of t e <->
    id <> Id e /\ mutuals_of t (MutualId e) !! id = Some r).
  { intros id r. unfold rivals_of. by rewrite list_elem_of_filter, elem_of_map_to_list. }
  pose proof (earliest_spec t e) as Hs. destruct (earliest t e) as [m|].
  - destruct Hs as [([id r] & -> & Hr)%list_elem_of_fmap Hall]. split.
    + exists id. by apply Hin.
    + intros id' r' Hne Hr'. apply (Hall (id', r')). by apply Hin.
  - intros id r Hr. destruct (decide (id = Id e)); [done|].
    assert (Hc' : (id, r) ∈ rivals_of t e) by (by apply Hin). rewrite Hs in Hc'.
    by apply not_elem_of_nil in Hc'.
Qed.

(** ** Path timers *)

Definition sum (l : list Z) : Z := fold_right Z.add 0 l.

Lemma sum_nonneg l : Forall (fun x => 0 <= x) l -> 0 <= sum l.
Proof. unfold sum. induction 1; cbn; lia. Qed.

Lemma fold_add_sum l : forall a,
  Forall (fun x => 0 <= x) l -> 0 <= a -> a + sum l < two64 ->
  fold_left (fun total timer => u64 (total + timer)) l a = a + sum l.
Proof.
  induction l as [|x l IH]; intros a Hl Ha Hlt; cbn in *; [lia|].
  apply Forall_cons_1 in Hl as [Hx Hl].
  pose proof (sum_nonneg l Hl).
  fold (sum l) in *. rewrite u64_small by lia. rewrite IH by (done || lia). lia.
Qed.

Lemma confirmable_loop_spec l period : forall total,
  Forall (fun x => 0 <= x) l -> 0 <= total -> total + sum l < two64 ->
  confirmable_loop total l period = negb (bool_decide (l = [])) && (period <=? total + sum l).
Proof.
  induction l as [|x l IH]; intros total Hl Ht Hlt; [done|]. cbn [confirmable_loop].
  apply Forall_cons_1 in Hl as [Hx Hl]. pose proof (sum_nonneg l Hl). cbn [sum fold_right] in *.
  fold (sum l) in *. rewrite u64_small, IH by (done || lia).
  rewrite (bool_decide_false (x :: l = [])) by done. cbn [negb andb].
  destruct (Z.leb_spec period (total + x)) as [Hp|Hp].
  - symmetry. apply Z.leb_le. lia.
  - destruct l as [|y l].
    + symmetry. apply Z.leb_gt. cbn in *. lia.
    + rewrite bool_decide_false by done. cbn [negb andb]. f_equal. lia.
Qed.

(** [HasConfirmableAncestor] is right about ancestors: given the local timers of
    the honest ancestors from the nearest to the root, and no overflow of their
    sum, it answers true exactly when some ancestor has a path timer (the
    assertion's unrivaled blocks plus the local timers from the root down to it)
    of at least the challenge period. *)
Theorem HasConfirmableAncestor_correct v t timers period a :
  AssertionUnrivaledBlocks v (topLevelAssertionHash t) = Ok a ->
  Forall (fun x => 0 <= x) timers -> 0 <= a -> a + sum timers < two64 ->
  exists r, HasConfirmableAncestor v timers period t = (Ok r, t) /\
    (r = true <-> exists i, (i < length timers)%nat /\ period <= a + sum (drop i timers)).
Proof.
  intros Ea Hl Ha Hlt. unfold HasConfirmableAncestor, get, lift, mbind, M_bind, mret, M_ret.
  destruct timers as [|x l].
  { exists false. split; [done|]. split; [done|]. intros (i & Hi & _). simpl in Hi. lia. }
  rewrite Ea. eexists. split; [reflexivity|]. rewrite confirmable_loop_spec by done.
  rewrite bool_decide_false by done. cbn [negb andb]. rewrite Z.leb_le. split.
  - intros Hp. exists 0%nat. split; [simpl; lia|done].
  - intros (i & Hi & Hp). assert (sum (drop i (x :: l)) <= sum (x :: l)); [|lia].
    clear -Hl. revert i. induction Hl as [|y l' Hy Hl IH]; intros i.
    + rewrite drop_nil. done.
    + destruct i as [|i]; [done|]. cbn [drop]. specialize (IH i). cbn [sum fold_right].
      fold (sum l'). lia.
Qed.

Lemma path_timer_run v t edgeId timers b a :
  AssertionUnrivaledBlocks v (topLevelAssertionHash t) = Ok a -> 0 <= a ->
  Forall (fun x => 0 <= x) timers -> b < two64 ->
  (forall e, edges t !! edgeId = Some e ->
     (exists c, CreatedAtBlock e = Ok c /\ 0 <= c) /\ timer_of t b e + a + sum timers < two64) ->
  match edges t !! edgeId with
  | None => ComputeHonestPathTimer v edgeId timers b t = (Err (ErrWrap ErrNotFound "id=%#x"), t)
  | Some e => (ComputeHonestPathTimer v edgeId timers b t).1 = Ok (timer_of t b e + a + sum timers)
  end.
Proof.
  intros Ea Ha Hl Hb He. unfold ComputeHonestPathTimer, get, lift, fail, mbind, M_bind, mret, M_ret, Map.TryGet.
  destruct (edges t !! edgeId) as [e|]; [|done].
  destruct (He e eq_refl) as [(c & Ec & Hc) Hlt].
  destruct (localTimer_run e b c t Ec Hc Hb) as (t1 & -> & E1). rewrite Ea. cbn [fst].
  pose proof (sum_nonneg timers Hl).
  assert (0 <= timer_of t b e) by (unfold timer_of; rewrite Ec; lia).
  rewrite (u64_small (timer_of t b e + a)), fold_add_sum by (done || lia). done.
Qed.

(** The path timer of a tracked edge is the sum of its local timer, the
    unrivaled blocks of the assertion and the local timers of its ancestors, when
    that sum does not overflow; an untracked edge is reported as not found. *)
Theorem ComputeHonestPathTimer_correct v t edgeId timers b a :
  AssertionUnrivaledBlocks v (topLevelAssertionHash t) = Ok a -> 0 <= a ->
  Forall (fun x => 0 <= x) timers -> b < two64 ->
  (forall e, edges t !! edgeId = Some e ->
     (exists c, CreatedAtBlock e = Ok c /\ 0 <= c) /\ timer_of t b e + a + sum timers < two64) ->
  match edges t !! edgeId with
  | None => ComputeHonestPathTimer v edgeId timers b t = (Err (ErrWrap ErrNotFound "id=%#x"), t)
  | Some e => (ComputeHonestPathTimer v edgeId timers b t).1 = Ok (timer_of t b e + a + sum timers)
  end.
Proof. apply path_timer_run. Qed.

(** ** The ancestors of an edge within its level *)

Definition start_of (e : Edge) : Z := fst (StartCommitment e).
Definition end_of (e : Edge) : Z := fst (EndCommitment e).
Definition tracked (t : HonestChallengeTree) (e : Edge) : Prop := edges t !! Id e = Some e.

(** Child links to tracked edges. *)
Definition lower_link (v : ChainView) (t : HonestChallengeTree) (e c : Edge) : Prop :=
  tracked t c /\ LowerChild v (Id e) = Ok (Some (Id c)).
Definition upper_link (v : ChainView) (t : HonestChallengeTree) (e c : Edge) : Prop :=
  tracked t c /\ UpperChild v (Id e) = Ok (Some (Id c)).

(** What the protocol guarantees of tracked edges: heights in range, a creation
    block, and children that split the edge at its bisection point. *)
Record wf_edges (v : ChainView) (t : HonestChallengeTree) : Prop := {
  wf_range e : tracked t e -> 0 <= start_of e < end_of e /\ end_of e + 2 < two64;
  wf_created e : tracked t e -> exists c, CreatedAtBlock e = Ok c /\ 0 <= c;
  wf_lower e c : tracked t e -> lower_link v t e c ->
    Bisect (start_of e) (end_of e) = Ok (end_of c) /\ start_of c = start_of e;
  wf_upper e c : tracked t e -> upper_link v t e c ->
    Bisect (start_of e) (end_of e) = Ok (start_of c) /\ end_of c = end_of e;
}.

(** [q] is reached from [e] by child links; the list has the edges passed, from
    [e] on, without [q]. *)
Inductive descends (v : ChainView) (t : HonestChallengeTree) : Edge -> Edge -> list Edge -> Prop :=
| descends_here e : descends v t e e []
| descends_lower e c q l :
    lower_link v t e c -> descends v t c q l -> descends v t e q (e :: l)
| descends_upper e c q l :
    upper_link v t e c -> descends v t c q l -> descends v t e q (e :: l).

Section search.
Variables (v : ChainView) (t0 : HonestChallengeTree).
Hypothesis wf : wf_edges v t0.

Lemma bisect_between e m :
  tracked t0 e -> Bisect (start_of e) (end_of e) = Ok m -> start_of e < m < end_of e.
Proof.
  intros He Hm. pose proof (wf_range _ _ wf e He). apply (Bisect_inside _ _ m) in Hm; [done|..];
    unfold is_u64; lia.
Qed.

(** A descendant lies inside, strictly when it is a proper one. *)
Lemma descends_range e q l :
  descends v t0 e q l -> tracked t0 e ->
  tracked t0 q /\ start_of e <= start_of q /\ end_of q <= end_of e /\
  Forall (fun a => tracked t0 a /\ end_of q - start_of q < end_of a - start_of a
                   /\ end_of a - start_of a <= end_of e - start_of e) l.
Proof.
  induction 1 as [e|e c q l Hl _ IH|e c q l Hl _ IH]; intros He.
  - split_and!; [done|lia|lia|constructor].
  - destruct (wf_lower _ _ wf e c He Hl) as [Hb Hs].
    pose proof (bisect_between e _ He Hb). destruct IH as (Hq & H1 & H2 & Hf); [apply Hl|].
    pose proof (wf_range _ _ wf q Hq). split_and!; [done|lia|lia|]. constructor; [split_and!; done || lia|].
    eapply Forall_impl; [|exact Hf]. intros a (? & ? & ?). split_and!; done || lia.
  - destruct (wf_upper _ _ wf e c He Hl) as [Hb Hs].
    pose proof (bisect_between e _ He Hb). destruct IH as (Hq & H1 & H2 & Hf); [apply Hl|].
    pose proof (wf_range _ _ wf q Hq). split_and!; [done|lia|lia|]. constructor; [split_and!; done || lia|].
    eapply Forall_impl; [|exact Hf]. intros a (? & ? & ?). split_and!; done || lia.
Qed.

(** The edges passed are distinct: the search visits each tracked edge once. *)
Lemma descends_nodup e q l :
  descends v t0 e q l -> tracked t0 e -> NoDup (Id <$> l).
Proof.
  assert (Hstep : forall e c q l, tracked t0 e -> tracked t0 c ->
    end_of c - start_of c < end_of e - start_of e -> descends v t0 c q l ->
    NoDup (Id <$> l) -> NoDup (Id <$> e :: l)).
  { intros e' c q' l' He Hc Hlt Hd Hn. cbn. constructor; [|done].
    intros (a & Ea & Ha)%list_elem_of_fmap.
    destruct (descends_range _ _ _ Hd Hc) as (_ & _ & _ & Hf).
    rewrite Forall_forall in Hf. destruct (Hf a ltac:(by apply list_elem_of_In)) as (Hta & _ & Hle).
    unfold tracked in *. rewrite <- Ea, He in Hta. injection Hta as ->. lia. }
  induction 1 as [e|e c q l Hl Hd IH|e c q l Hl Hd IH]; intros He.
  - constructor.
  - destruct (wf_lower _ _ wf e c He Hl) as [Hb Hs]. pose proof (bisect_between e _ He Hb).
    eapply (Hstep e c); try done; try apply Hl; [lia|]. apply IH, Hl.
  - destruct (wf_upper _ _ wf e c He Hl) as [Hb Hs]. pose proof (bisect_between e _ He Hb).
    eapply (Hstep e c); try done; try apply Hl; [lia|]. apply IH, Hl.
Qed.

Lemma descends_bound e q l :
  descends v t0 e q l -> tracked t0 e -> (length l <= size (edges t0))%nat.
Proof.
  intros Hd He. pose proof (descends_nodup e q l Hd He) as Hn.
  destruct (descends_range e q l Hd He) as (_ & _ & _ & Hf).
  rewrite <- size_dom, <- (length_fmap Id l).
  rewrite <- (size_list_to_set (C := gset EdgeId) (Id <$> l)) by done.
  apply subseteq_size. intros id (a & -> & Ha)%elem_of_list_to_set%list_elem_of_fmap.
  rewrite Forall_forall in Hf. destruct (Hf a ltac:(by apply list_elem_of_In)) as (Hta & _). apply elem_of_dom. by exists a.
Qed.

(** The height test of the search picks the child that leads to the edge. *)
Lemma next_cursor_spec t e c q l :
  t ≡ t0 -> tracked t0 e -> descends v t0 c q l ->
  lower_link v t0 e c \/ upper_link v t0 e c ->
  next_cursor v t (start_of q) e = Ok c /\ (Id e =? Id q) = false.
Proof.
  intros Ht He Hd Hlink. unfold next_cursor, Map.TryGet.
  assert (Ee : edges t = edges t0) by (by rewrite Ht). rewrite Ee.
  fold (start_of e) (end_of e).
  assert (Hid : tracked t0 q -> end_of q - start_of q < end_of e - start_of e -> (Id e =? Id q) = false).
  { intros Hq Hlt. apply Z.eqb_neq. intros E. unfold tracked in *. rewrite E, Hq in He.
    injection He as ->. lia. }
  destruct Hlink as [Hl|Hl]; pose proof Hl as [Hc Hch];
    [destruct (wf_lower _ _ wf e c He Hl) as [Hb Hs]|destruct (wf_upper _ _ wf e c He Hl) as [Hb Hs]];
    pose proof (bisect_between e _ He Hb); destruct (descends_range c q l Hd Hc) as (Hq & H1 & H2 & _);
    pose proof (wf_range _ _ wf q Hq); unfold mbind, res_bind, wrap_err; rewrite Hb, Hch.
  - destruct (Z.ltb_spec (start_of q) (end_of c)); [|lia].
    rewrite Hc. split; [done|]. apply Hid; done || lia.
  - destruct (Z.ltb_spec (start_of q) (start_of c)); [lia|].
    rewrite Hc. split; [done|]. apply Hid; done || lia.
Qed.

Lemma find_ancestors_loop_spec b e q l : b < two64 -> CtxErr v = None ->
  descends v t0 e q l -> tracked t0 e -> forall fuel t tms ids,
  t ≡ t0 -> (length l < fuel)%nat ->
  exists t', find_ancestors_loop fuel v q e b tms ids t =
    (Ok (tms ++ (timer_of t0 b <$> l), ids ++ (Id <$> l)), t') /\ t' ≡ t0.
Proof.
  intros Hb Hctx. induction 1 as [e|e c q l Hl Hd IH|e c q l Hl Hd IH]; intros He fuel t tms ids Ht Hf;
    (destruct fuel as [|fuel]; [lia|]); cbn [find_ancestors_loop]; rewrite Hctx.
  { exists t. rewrite Z.eqb_refl. cbn. by rewrite !app_nil_r. }
  all: destruct (wf_created _ _ wf e He) as (cr & Ecr & Hcr).
  all: destruct (localTimer_run e b cr t Ecr Hcr Hb) as (t1 & Et & E1).
  all: assert (Ht1 : t1 ≡ t0) by (by rewrite E1).
  all: destruct (next_cursor_spec t1 e c q l Ht1 He Hd ltac:(auto)) as [En Eid].
  all: rewrite Eid; unfold mbind, M_bind, lift, get; rewrite Et; fold (start_of q); rewrite En.
  all: destruct (IH ltac:(apply Hl) fuel t1 (tms ++ [timer_of t b e]) (ids ++ [Id e]) Ht1
         ltac:(simpl in Hf; lia)) as (t2 & E2 & Ht2).
  all: exists t2; split; [|done].
  all: etransitivity; [exact E2|]; rewrite <- !app_assoc; cbn [app fmap list_fmap]; by rewrite Ht.
Qed.

End search.

Lemma find_honest_ancestors_run v t0 t root q l b :
  wf_edges v t0 -> CtxErr v = None -> b < two64 -> tracked t0 root -> descends v t0 root q l ->
  t ≡ t0 ->
  exists t', findHonestAncestorsWithinChallengeLevel v root q b t =
    (Ok (timer_of t0 b <$> l, Id <$> l), t') /\ t' ≡ t0.
Proof.
  intros Hwf Hctx Hb Hr Hd Ht. unfold findHonestAncestorsWithinChallengeLevel, mbind, M_bind, get.
  pose proof (descends_bound v t0 Hwf root q l Hd Hr).
  apply (find_ancestors_loop_spec v t0 Hwf b root q l Hb Hctx Hd Hr _ t [] []); [done|].
  rewrite Ht. lia.
Qed.

(** The search for the honest ancestors of an edge within a level finds them:
    in a tree whose children split their parent at the bisection point, for an edge
    reachable from the root edge by child links, comparing start heights with
    bisection points retraces exactly that path; the search terminates, visits
    each tracked edge at most once, never panics on an untracked child, and
    returns the edges of the path with their local timers. *)
Theorem find_honest_ancestors_correct v t root q l b :
  wf_edges v t -> CtxErr v = None -> b < two64 -> tracked t root -> descends v t root q l ->
  exists t', findHonestAncestorsWithinChallengeLevel v root q b t =
    (Ok (timer_of t b <$> l, Id <$> l), t') /\ t' ≡ t.
Proof.
  intros Hwf Hctx Hb Hr Hd. by apply find_honest_ancestors_run.
Qed.

(** ** Ancestors across levels *)

(** The ancestors of an edge from the nearest to the block challenge root: within a
    level up to its root edge, then the edge that root claims one level up. *)
Inductive lineage (v : ChainView) (t : HonestChallengeTree) : Z -> Edge -> list Edge -> Prop :=
| lineage_top level e root l :
    level + 1 = totalChallengeLevels t ->
    honestRootAncestorAtChallengeLevel t e level = Ok root -> tracked t root ->
    descends v t root e l ->
    lineage v t level e (reverse l)
| lineage_up level e root l claimed rest :
    level + 1 < totalChallengeLevels t ->
    honestRootAncestorAtChallengeLevel t e level = Ok root -> tracked t root ->
    descends v t root e l ->
    getClaimedEdge t root = Ok claimed -> tracked t claimed ->
    lineage v t (level + 1) claimed rest ->
    lineage v t level e (reverse l ++ claimed :: rest).

Lemma ancestors_loop_spec v t0 b level e anc :
  wf_edges v t0 -> CtxErr v = None -> b < two64 -> totalChallengeLevels t0 < 256 ->
  lineage v t0 level e anc -> 0 <= level -> forall fuel t tms ids,
  t ≡ t0 -> (Z.to_nat (totalChallengeLevels t0 - level) <= fuel)%nat ->
  exists t', ancestors_loop fuel v b e level tms ids t =
    (Ok (tms ++ (timer_of t0 b <$> anc), ids ++ (Id <$> anc)), t') /\ t' ≡ t0.
Proof.
  intros Hwf Hctx Hb Htot Hlin.
  induction Hlin as [level e root l Hlev Hroot Htr Hd|level e root l claimed rest Hlev Hroot Htr Hd Hcl Htc _ IH];
    intros Hl0 fuel t tms ids Ht Hf; (destruct fuel as [|fuel]; [lia|]);
    cbn [ancestors_loop]; unfold mbind, M_bind, get, lift, mret, M_ret;
    assert (Er : honestRootAncestorAtChallengeLevel t e level = Ok root)
      by (unfold honestRootAncestorAtChallengeLevel in *; by rewrite Ht);
    assert (Et : totalChallengeLevels t = totalChallengeLevels t0) by (by rewrite Ht);
    rewrite Et, Er; (destruct (Z.ltb_spec level (totalChallengeLevels t0)); [|lia]); cbn [negb];
    destruct (find_honest_ancestors_run v t0 t root e l b Hwf Hctx Hb Htr Hd Ht) as (t1 & -> & Ht1);
    (unfold u8; rewrite (Z.mod_small (level + 1)) by lia); rewrite !Reverse_reverse.
  - rewrite (proj2 (Z.eqb_eq _ _) Hlev). exists t1. split; [|done].
    by rewrite !fmap_reverse.
  - rewrite (proj2 (Z.eqb_neq _ _)) by lia.
    assert (Ec : getClaimedEdge t root = Ok claimed)
      by (unfold getClaimedEdge in *; assert (Ee : edges t = edges t0) by (by rewrite Ht); by rewrite Ee).
    rewrite Ec.
    destruct (wf_created _ _ Hwf claimed Htc) as (c & Ecr & Hc).
    destruct (localTimer_run claimed b c t1 Ecr Hc Hb) as (t2 & -> & Ht2).
    assert (Ht2' : t2 ≡ t0) by (by rewrite Ht2).
    destruct (IH ltac:(lia) fuel t2 ((tms ++ reverse (timer_of t0 b <$> l)) ++ [timer_of t1 b claimed])
      ((ids ++ reverse (Id <$> l)) ++ [Id claimed]) Ht2' ltac:(lia)) as (t3 & E3 & Ht3).
    exists t3. split; [|done]. etransitivity; [exact E3|].
    rewrite !fmap_app, !fmap_reverse, !fmap_cons, <- !app_assoc. cbn [app]. by rewrite Ht1.
Qed.

Lemma ancestors_run v t e b anc :
  wf_edges v t -> CtxErr v = None -> b < two64 -> is_u8 (totalChallengeLevels t) ->
  tracked t e -> 0 <= GetReversedChallengeLevel e ->
  lineage v t (GetReversedChallengeLevel e) e anc ->
  exists t', ComputeAncestorsWithTimers v (Id e) b t =
    (Ok {| AncestorLocalTimers := timer_of t b <$> anc; AncestorEdgeIds := Id <$> anc |}, t') /\ t' ≡ t.
Proof.
  intros Hwf Hctx Hb Htot He Hlev Hlin.
  unfold ComputeAncestorsWithTimers, mbind, M_bind, get, Map.TryGet. unfold tracked in He. rewrite He.
  destruct (ancestors_loop_spec v t b _ e anc Hwf Hctx Hb (proj2 Htot) Hlin Hlev 256 t [] [])
    as (t' & E & Ht'); [done| |].
  { unfold is_u8 in Htot. lia. }
  exists t'. rewrite E. done.
Qed.

(** (C30) [ComputeAncestorsWithTimers] returns the whole lineage: for a tracked edge
    whose ancestry links up through the levels, it terminates without error and
    gives the ancestors from the nearest up to the root of the block challenge,
    across the claims that connect the levels, each with its local timer. *)
Theorem ComputeAncestorsWithTimers_correct v t e b anc :
  wf_edges v t -> CtxErr v = None -> b < two64 -> is_u8 (totalChallengeLevels t) ->
  tracked t e -> 0 <= GetReversedChallengeLevel e ->
  lineage v t (GetReversedChallengeLevel e) e anc ->
  exists t', ComputeAncestorsWithTimers v (Id e) b t =
    (Ok {| AncestorLocalTimers := timer_of t b <$> anc; AncestorEdgeIds := Id <$> anc |}, t') /\ t' ≡ t.
Proof. apply ancestors_run. Qed.

(** ** The invariant of the book-keeping *)

Record tree_inv (t : HonestChallengeTree) : Prop := {
  inv_key id e : edges t !! id = Some e -> Id e = id;
  inv_mutual e c : tracked t e -> CreatedAtBlock e = Ok c ->
    mutuals_of t (MutualId e) !! Id e = Some c;
  inv_root level es e : honestRootEdgesByLevel t !! level = Some es -> e ∈ es ->
    tracked t e /\ GetReversedChallengeLevel e = level /\ is_Some (ClaimId e);
  inv_claim e : tracked t e -> is_Some (ClaimId e) ->
    exists es, honestRootEdgesByLevel t !! GetReversedChallengeLevel e = Some es /\ e ∈ es;
  inv_nodup level es : honestRootEdgesByLevel t !! level = Some es -> NoDup es;
}.

(** The rival sets after recording an edge created at block [c]. *)
Definition recorded (eg : Edge) (c : Z) (t t' : HonestChallengeTree) : Prop :=
  forall m, mutuals_of t' m =
    if decide (m = MutualId eg) then <[Id eg := c]> (mutuals_of t m) else mutuals_of t m.

(** The root edges after adding an edge. *)
Definition roots_with (eg : Edge) (roots : gmap Z (list Edge)) : gmap Z (list Edge) :=
  match ClaimId eg with
  | None => roots
  | Some _ => <[GetReversedChallengeLevel eg :=
                  default [] (roots !! GetReversedChallengeLevel eg) ++ [eg]]> roots
  end.

Lemma put_mutual_run eg c t :
  CreatedAtBlock eg = Ok c ->
  exists t', put_mutual eg t = (Ok tt, t') /\ edges t' = edges t /\
    honestRootEdgesByLevel t' = honestRootEdgesByLevel t /\
    totalChallengeLevels t' = totalChallengeLevels t /\
    topLevelAssertionHash t' = topLevelAssertionHash t /\ recorded eg c t t'.
Proof.
  intros Ec. unfold put_mutual, mbind, M_bind, lift.
  destruct (ensure_mutuals_equiv (MutualId eg) t) as [E1 E2].
  destruct (ensure_mutuals (MutualId eg) t) as [r t1]. cbn [fst snd] in *. subst r.
  rewrite Ec. unfold modify. eexists. split; [reflexivity|]. cbn.
  split_and!; [by rewrite E2..|].
  intros m. unfold mutuals_of at 1. cbn. unfold Map.Put, Map.Get.
  change (default Map.NewMap (mutualIds t1 !! MutualId eg)) with (mutuals_of t1 (MutualId eg)).
  destruct (decide (m = MutualId eg)) as [->|].
  - rewrite lookup_insert_eq. cbn. by rewrite E2.
  - rewrite lookup_insert_ne by done. fold (mutuals_of t1 m). by rewrite E2.
Qed.

Lemma push_root_run eg t :
  exists t', push_root_edge eg t = (Ok tt, t') /\ edges t' = edges t /\ mutualIds t' = mutualIds t /\
    totalChallengeLevels t' = totalChallengeLevels t /\
    topLevelAssertionHash t' = topLevelAssertionHash t /\
    honestRootEdgesByLevel t' = roots_with eg (honestRootEdgesByLevel t).
Proof.
  unfold push_root_edge, roots_with. destruct (ClaimId eg); [|by exists t].
  unfold modify, Map.TryGet. eexists. split; [reflexivity|].
  by destruct (honestRootEdgesByLevel t !! GetReversedChallengeLevel eg).
Qed.

(** The parts of the tree after an untracked edge has been tracked. *)
Definition added (eg : Edge) (c : Z) (t t' : HonestChallengeTree) : Prop :=
  edges t' = <[Id eg := eg]> (edges t) /\
  honestRootEdgesByLevel t' = roots_with eg (honestRootEdgesByLevel t) /\
  topLevelAssertionHash t' = topLevelAssertionHash t /\
  totalChallengeLevels t' = totalChallengeLevels t /\ recorded eg c t t'.

Lemma recorded_mutual eg c t t' e ce :
  recorded eg c t t' -> Id e <> Id eg -> mutuals_of t (MutualId e) !! Id e = Some ce ->
  mutuals_of t' (MutualId e) !! Id e = Some ce.
Proof. intros Hr Hne E. rewrite Hr. case_decide; [|done]. by rewrite lookup_insert_ne. Qed.

Lemma insert_tracked eg t t' e :
  edges t' = <[Id eg := eg]> (edges t) -> tracked t' e <-> e = eg \/ tracked t e /\ Id e <> Id eg.
Proof.
  intros Ee. unfold tracked. rewrite Ee. destruct (decide (Id e = Id eg)) as [E|E].
  - rewrite E, lookup_insert_eq. split; [intros [= <-]; auto|]. by intros [->|[_ ?]].
  - rewrite lookup_insert_ne by done. split; [auto|]. intros [->|[? _]]; done.
Qed.

Lemma insert_roots eg t t' level es e :
  honestRootEdgesByLevel t' = roots_with eg (honestRootEdgesByLevel t) ->
  honestRootEdgesByLevel t' !! level = Some es -> e ∈ es ->
  (e = eg /\ GetReversedChallengeLevel eg = level /\ is_Some (ClaimId eg)) \/
  exists es0, honestRootEdgesByLevel t !! level = Some es0 /\ e ∈ es0.
Proof.
  intros Er. rewrite Er. unfold roots_with. destruct (ClaimId eg) eqn:Ecl; [|eauto].
  destruct (decide (GetReversedChallengeLevel eg = level)) as [<-|]; [|rewrite lookup_insert_ne by done; eauto].
  rewrite lookup_insert_eq. intros [= <-] [He|He%list_elem_of_singleton]%elem_of_app; [|subst; eauto].
  right. destruct (honestRootEdgesByLevel t !! _) as [es0|]; [eauto|by apply not_elem_of_nil in He].
Qed.

(** The invariant after tracking an untracked edge, given its rival records. *)
Lemma tracked_inv eg t t' :
  edges t !! Id eg = None ->
  edges t' = <[Id eg := eg]> (edges t) ->
  honestRootEdgesByLevel t' = roots_with eg (honestRootEdgesByLevel t) ->
  (forall e c, tracked t' e -> CreatedAtBlock e = Ok c -> mutuals_of t' (MutualId e) !! Id e = Some c) ->
  tree_inv t -> tree_inv t'.
Proof.
  intros Hn Ee Er Hmut [Ikey Imut Iroot Iclaim Ind].
  pose proof (fun e => insert_tracked eg t t' e Ee) as Htr.
  assert (Hold : forall e, tracked t e -> Id e <> Id eg).
  { intros e He E. unfold tracked in He. by rewrite E, Hn in He. }
  split.
  - intros id e. rewrite Ee. destruct (decide (id = Id eg)) as [->|].
    + rewrite lookup_insert_eq. by intros [= <-].
    + rewrite lookup_insert_ne by done. apply Ikey.
  - exact Hmut.
  - intros level es e Hl He. destruct (insert_roots eg t t' level es e Er Hl He) as [(-> & ? & ?)|(es0 & Hl0 & He0)].
    + split_and!; [|done|done]. apply Htr. by left.
    + destruct (Iroot level es0 e Hl0 He0) as (Ht & ? & ?). split_and!; [|done|done].
      apply Htr. right. eauto.
  - intros e He Hcl. rewrite Er. unfold roots_with. apply Htr in He as [->|[He Hne]].
    + destruct (ClaimId eg); [|by destruct Hcl]. eexists. rewrite lookup_insert_eq.
      split; [done|]. apply elem_of_app. right. by apply list_elem_of_singleton.
    + destruct (Iclaim e He Hcl) as (es & Hl & Hin). destruct (ClaimId eg); [|eauto].
      destruct (decide (GetReversedChallengeLevel eg = GetReversedChallengeLevel e)) as [E|].
      * rewrite E, lookup_insert_eq, Hl. eexists. split; [done|]. apply elem_of_app. by left.
      * rewrite lookup_insert_ne by done. eauto.
  - intros level es. rewrite Er. unfold roots_with. destruct (ClaimId eg); [|apply Ind].
    destruct (decide (GetReversedChallengeLevel eg = level)) as [<-|];
      [|rewrite lookup_insert_ne by done; apply Ind].
    rewrite lookup_insert_eq. intros [= <-]. apply list.NoDup_app.
    destruct (honestRootEdgesByLevel t !! GetReversedChallengeLevel eg) as [es0|] eqn:Hl; cbn.
    + split_and!; [by eapply Ind| |apply NoDup_singleton].
      intros e He ->%list_elem_of_singleton. destruct (Iroot _ _ _ Hl He) as [Ht _].
      by apply Hold in Ht.
    + split_and!; [constructor|by intros ? ?%not_elem_of_nil|apply NoDup_singleton].
Qed.

Lemma added_inv eg c t t' :
  edges t !! Id eg = None -> CreatedAtBlock eg = Ok c -> added eg c t t' ->
  tree_inv t -> tree_inv t'.
Proof.
  intros Hn Ec (Ee & Er & _ & _ & Hm) Hinv. eapply tracked_inv; eauto.
  intros e ce [->|[He Hne]]%(insert_tracked eg t t' e Ee) Ece.
  - rewrite Hm, decide_True, lookup_insert_eq by done. congruence.
  - eapply recorded_mutual; eauto using inv_mutual.
Qed.

Lemma track_run eg c t t0 :
  CreatedAtBlock eg = Ok c -> t0 = with_edges (<[Id eg := eg]> (edges t)) t ->
  exists t1 t2, push_root_edge eg t0 = (Ok tt, t1) /\ put_mutual eg t1 = (Ok tt, t2) /\ added eg c t t2.
Proof.
  intros Ec ->. destruct (push_root_run eg (with_edges (<[Id eg := eg]> (edges t)) t))
    as (t1 & E1 & Ee1 & Em1 & Et1 & Eh1 & Er1).
  destruct (put_mutual_run eg c t1 Ec) as (t2 & E2 & Ee2 & Er2 & Et2 & Eh2 & Hm2).
  exists t1, t2. split_and!; [done|done|]. unfold added. cbn in *.
  split_and!; try congruence. intros m. rewrite Hm2. unfold mutuals_of. by rewrite Em1.
Qed.

Lemma AddHonestEdge_run eg c t :
  CreatedAtBlock eg = Ok c ->
  (exists e, edges t !! Id eg = Some e /\ AddHonestEdge eg t = (Ok tt, t)) \/
  (edges t !! Id eg = None /\ exists t', AddHonestEdge eg t = (Ok tt, t') /\ added eg c t t').
Proof.
  intros Ec. unfold AddHonestEdge, mbind, M_bind, get, Map.Has.
  destruct (edges t !! Id eg) as [e|] eqn:El.
  { left. exists e. rewrite bool_decide_true by done. done. }
  right. split; [done|]. rewrite bool_decide_false by (by intros [? ?]).
  unfold modify, Map.Put.
  destruct (track_run eg c t _ Ec eq_refl) as (t1 & t2 & -> & -> & Ha). eauto.
Qed.

(** What [AddEdge] does on every branch, for an edge whose creation block can be
    read. *)
Lemma AddEdge_run v eg c t :
  CreatedAtBlock eg = Ok c ->
  match edges t !! Id eg with
  | Some _ => AddEdge v eg t = (Err ErrAlreadyBeingTracked, t)
  | None =>
      match check_agreement v t eg with
      | Ok a =>
          exists t', AddEdge v eg t = (Ok a, t') /\
            if IsHonestEdge a then added eg c t t'
            else if AgreesWithStartCommit a then
              edges t' = edges t /\ honestRootEdgesByLevel t' = honestRootEdgesByLevel t /\
              totalChallengeLevels t' = totalChallengeLevels t /\
              topLevelAssertionHash t' = topLevelAssertionHash t /\ recorded eg c t t'
            else t' = t
      | Err e => AddEdge v eg t = (Err e, t)
      | Panic p => AddEdge v eg t = (Panic p, t)
      | NoFuel => AddEdge v eg t = (NoFuel, t)
      end
  end.
Proof.
  intros Ec. unfold AddEdge, mbind, M_bind, get, Map.Has.
  destruct (edges t !! Id eg) as [e|] eqn:El; [by rewrite bool_decide_true|].
  rewrite bool_decide_false by (by intros [? ?]). unfold lift.
  destruct (check_agreement v t eg) as [[start honest]| | |]; try done. cbn [IsHonestEdge AgreesWithStartCommit].
  destruct honest.
  - rewrite orb_true_r. unfold modify, Map.Put.
    destruct (track_run eg c t _ Ec eq_refl) as (t1 & t2 & -> & -> & Ha). eauto.
  - rewrite orb_false_r. cbn. destruct start; [|by exists t].
    destruct (put_mutual_run eg c t Ec) as (t' & -> & ?). by exists t'.
Qed.

Lemma recorded_inv eg c t t' :
  edges t !! Id eg = None -> edges t' = edges t ->
  honestRootEdgesByLevel t' = honestRootEdgesByLevel t -> recorded eg c t t' ->
  tree_inv t -> tree_inv t'.
Proof.
  intros Hn Ee Er Hm [Ikey Imut Iroot Iclaim Ind]. split; unfold tracked in *; rewrite ?Ee, ?Er; eauto.
  - intros e ce He Ece. eapply recorded_mutual; eauto. intros E. by rewrite E, Hn in He.
Qed.

(** ** What every operation keeps *)

Lemma tree_inv_equiv t t' : t' ≡ t -> tree_inv t -> tree_inv t'.
Proof.
  intros (Ee & Er & _ & _ & Hm) [Ikey Imut Iroot Iclaim Ind].
  split; unfold tracked in *; rewrite ?Ee, ?Er; eauto.
  - intros e ce. rewrite Hm. eauto.
Qed.

(** Tracked edges stay, and so do the invariant and the configuration. *)
Record grows (t t' : HonestChallengeTree) : Prop := {
  grows_edges : edges t ⊆ edges t';
  grows_top : topLevelAssertionHash t' = topLevelAssertionHash t;
  grows_total : totalChallengeLevels t' = totalChallengeLevels t;
  grows_inv : tree_inv t -> tree_inv t';
}.

Lemma equiv_grows t t' : t ≡ t' -> grows t t'.
Proof. intros E. split; [by rewrite E..|]. by apply tree_inv_equiv. Qed.

#[global] Instance grows_preorder : PreOrder grows.
Proof.
  split; [intros t; by apply equiv_grows|]. intros t1 t2 t3 [] []. split; [by etrans|congruence..|auto].
Qed.

(** The records of an edge whose creation block cannot be read: an empty rival set
    at most. *)
Lemma put_mutual_unread eg t :
  (forall c, CreatedAtBlock eg <> Ok c) -> (put_mutual eg t).2 ≡ t.
Proof.
  intros Hn. unfold put_mutual, mbind, M_bind, lift.
  destruct (ensure_mutuals_equiv (MutualId eg) t) as [E1 E2].
  destruct (ensure_mutuals (MutualId eg) t) as [r t1]. cbn [fst snd] in *. subst r.
  destruct (CreatedAtBlock eg) as [c| | |]; try done. by destruct (Hn c).
Qed.

Lemma track_grows eg t t1 :
  edges t !! Id eg = None ->
  t1 = (push_root_edge eg (with_edges (<[Id eg := eg]> (edges t)) t)).2 ->
  grows t (put_mutual eg t1).2.
Proof.
  intros Hn E1. destruct (push_root_run eg (with_edges (<[Id eg := eg]> (edges t)) t))
    as (t1' & Ep & Ee1 & Em1 & Et1 & Eh1 & Er1). rewrite Ep in E1. cbn in *. subst t1'.
  assert (Hc : (exists c, CreatedAtBlock eg = Ok c) \/ forall c, CreatedAtBlock eg <> Ok c)
    by (destruct (CreatedAtBlock eg); [left; eauto|right; congruence..]).
  destruct Hc as [[c Ec]|Hun].
  - destruct (track_run eg c t _ Ec eq_refl) as (? & t2 & Ep' & Em' & Ha). rewrite Ep in Ep'.
    injection Ep' as <-. rewrite Em'. pose proof Ha as (Ee & _ & Eh & Et & _). cbn.
    split; [rewrite Ee; by apply insert_subseteq|done..|]. by eapply added_inv.
  - pose proof (put_mutual_unread eg t1 Hun) as E2.
    split; [rewrite E2, Ee1; by apply insert_subseteq|by rewrite E2..|].
    intros Hinv. eapply (tracked_inv eg t); [done|by rewrite E2|by rewrite E2| |done].
    intros e c He Ec. destruct (insert_tracked eg t (put_mutual eg t1).2 e ltac:(by rewrite E2)) as [Htr _].
    destruct (Htr He) as [->|[He' _]]; [by destruct (Hun c)|]. rewrite E2. unfold mutuals_of.
    rewrite Em1. by apply (inv_mutual t Hinv).
Qed.

Lemma put_mutual_grows eg t : edges t !! Id eg = None -> grows t (put_mutual eg t).2.
Proof.
  intros Hn. destruct (CreatedAtBlock eg) as [c| | |] eqn:Ec;
    [|by apply equiv_grows; symmetry; apply put_mutual_unread; congruence..].
  destruct (put_mutual_run eg c t Ec) as (t' & -> & Ee & Er & Et & Eh & Hm). cbn.
  split; [by rewrite Ee|done..|]. by eapply recorded_inv.
Qed.

Lemma AddHonestEdge_grows eg t : grows t (AddHonestEdge eg t).2.
Proof.
  unfold AddHonestEdge, get, mbind, M_bind, modify, Map.Has, Map.Put.
  case_bool_decide as Hs; [done|]. assert (Hn : edges t !! Id eg = None) by (by apply eq_None_not_Some).
  pose proof (track_grows eg t _ Hn eq_refl) as Hg.
  destruct (push_root_run eg (with_edges (<[Id eg := eg]> (edges t)) t)) as (t1 & -> & _) in Hg |- *.
  done.
Qed.

Lemma AddEdge_grows v eg t : grows t (AddEdge v eg t).2.
Proof.
  unfold AddEdge, get, mbind, M_bind, modify, Map.Has, Map.Put, lift.
  case_bool_decide as Hs; [done|]. assert (Hn : edges t !! Id eg = None) by (by apply eq_None_not_Some).
  destruct (check_agreement v t eg) as [[start honest]| | |]; try done.
  cbn [IsHonestEdge AgreesWithStartCommit]. destruct honest.
  - rewrite orb_true_r. pose proof (track_grows eg t _ Hn eq_refl) as Hg.
    destruct (push_root_run eg (with_edges (<[Id eg := eg]> (edges t)) t)) as (t1 & -> & _) in Hg |- *.
    cbn [snd] in Hg. by destruct (put_mutual eg t1) as [[| | |] ?].
  - rewrite orb_false_r. cbn. destruct start; [|done].
    pose proof (put_mutual_grows eg t Hn). by destruct (put_mutual eg t) as [[| | |] ?].
Qed.

Lemma put_mutual_edges eg t : edges (put_mutual eg t).2 = edges t.
Proof.
  destruct (CreatedAtBlock eg) as [c| | |] eqn:Ec; [|by rewrite put_mutual_unread by congruence..].
  by destruct (put_mutual_run eg c t Ec) as (t' & -> & ? & _).
Qed.

(** An edge the validator agrees with is tracked even when its creation block cannot
    be read; the only other way to fail is an error of the agreement check. *)
Lemma AddEdge_tracks v eg t :
  match check_agreement v t eg with
  | Ok a =>
      ((AddEdge v eg t).1 = Ok a \/ forall a', (AddEdge v eg t).1 <> Ok a') /\
      (IsHonestEdge a = true -> is_Some (edges (AddEdge v eg t).2 !! Id eg))
  | r => is_Some (edges t !! Id eg) \/ (AddEdge v eg t).1 = r
  end.
Proof.
  unfold AddEdge, get, mbind, M_bind, modify, Map.Has, Map.Put, lift.
  destruct (check_agreement v t eg) as [[start honest]| | |];
    case_bool_decide as Hs; cbn [fst IsHonestEdge AgreesWithStartCommit]; try (by auto).
  destruct honest.
  - rewrite orb_true_r.
    destruct (push_root_run eg (with_edges (<[Id eg := eg]> (edges t)) t)) as (t1 & -> & Ee & _).
    pose proof (put_mutual_edges eg t1) as E2. rewrite Ee in E2.
    assert (is_Some (edges (put_mutual eg t1).2 !! Id eg)) by (rewrite E2; cbn; by rewrite lookup_insert_eq).
    destruct (put_mutual eg t1) as [[| | |] t2]; cbn in *; (split; [first [by left|by right]|done]).
  - rewrite orb_false_r. cbn. destruct start; [|by split; [left|]]. split; [|done].
    destruct (put_mutual eg t) as [[| | |] t2]; cbn; first [by left|by right].
Qed.

Lemma AddEdge_ok_tracked v eg t a :
  (AddEdge v eg t).1 = Ok a -> IsHonestEdge a = true -> is_Some (edges (AddEdge v eg t).2 !! Id eg).
Proof.
  intros Ea Hh. pose proof (AddEdge_tracks v eg t) as Ht.
  pose proof (grows_edges _ _ (AddEdge_grows v eg t)) as Hg.
  destruct (check_agreement v t eg) as [a'| | |].
  - destruct Ht as [[E|Hne] Ht]; [|by destruct (Hne a)]. apply Ht. congruence.
  - destruct Ht as [[x Hx]|E]; [exists x; by eapply lookup_weaken|congruence].
  - destruct Ht as [[x Hx]|E]; [exists x; by eapply lookup_weaken|congruence].
  - destruct Ht as [[x Hx]|E]; [exists x; by eapply lookup_weaken|congruence].
Qed.

(** ** Adding an edge *)

(** The assertion an edge is about: the one a block challenge root claims, for every other
    edge the one the honest root of the block challenge claims. *)
Inductive claimed_by (t : HonestChallengeTree) (eg : Edge) : ClaimIdT -> Prop :=
| claimed_by_itself claim :
    GetChallengeLevel eg = NewBlockChallengeLevel -> ClaimId eg = Some claim -> claimed_by t eg claim
| claimed_by_root root claim :
    GetChallengeLevel eg <> NewBlockChallengeLevel \/ ClaimId eg = None ->
    HonestBlockChallengeRootEdge t = Ok root -> ClaimId root = Some claim -> claimed_by t eg claim.

Definition batch_of (st : SolExecutionState) : Z := Batch (GoGlobalStateFromSolidity (SolGlobal st)).

(** The verdict on an edge of the challenge of the tree: the answers of the history
    checker about the end and about the start of the edge, each asked for the level of the
    edge, the module root and the batches of the assertion it is about, and the heights
    its challenge starts from. *)
Definition judged (v : ChainView) (t : HonestChallengeTree) (eg : Edge) (a : Agreement) : Prop :=
  TopLevelAssertion v (Id eg) = Ok (topLevelAssertionHash t) /\
  exists claim info heights, claimed_by t eg claim /\
    ReadAssertionCreationInfo v claim = Ok info /\ TopLevelClaimHeights v (Id eg) = Ok heights /\
    let level := GetChallengeLevel eg in
    (level <> NewBlockChallengeLevel -> heights <> []) /\
    let answers commit b := AgreesWith v level {|
        ReqWasmModuleRoot := WasmModuleRoot info;
        FromBatch := batch_of (BeforeState info); ToBatch := batch_of (AfterState info);
        UpperChallengeOriginHeights := if decide (level = NewBlockChallengeLevel) then [] else heights;
        FromHeight := 0; UpToHeight := Some (fst (EndCommitment eg)) |}
      {| ClaimHeight := fst commit; ClaimMerkleRoot := snd commit |} = Ok b in
    answers (EndCommitment eg) (IsHonestEdge a) /\ answers (StartCommitment eg) (AgreesWithStartCommit a).

Lemma wrap_err_ok {A} msg (r : res A) a : wrap_err msg r = Ok a <-> r = Ok a.
Proof. by destruct r. Qed.

Lemma res_bind_iff {A B} (r : res A) (f : A -> res B) b : r ≫= f = Ok b <-> exists a, r = Ok a /\ f a = Ok b.
Proof. split; [apply res_bind_ok|]. by intros (a & -> & E). Qed.

(** The assertion [check_agreement] reads is the one the edge is about. *)
Lemma claimed_by_ok t eg claim :
  match (GetChallengeLevel eg =? NewBlockChallengeLevel), ClaimId eg with
  | true, Some claim => Ok claim
  | _, _ =>
      honestLevelZeroEdge ← HonestBlockChallengeRootEdge t;
      match ClaimId honestLevelZeroEdge with
      | None => Err (ErrNew "honest level zero edge has no claim id")
      | Some claim => Ok claim
      end
  end = Ok claim <-> claimed_by t eg claim.
Proof.
  assert (Hroot : (honestLevelZeroEdge ← HonestBlockChallengeRootEdge t;
      match ClaimId honestLevelZeroEdge with
      | None => Err (ErrNew "honest level zero edge has no claim id")
      | Some claim => Ok claim
      end) = Ok claim <-> exists root, HonestBlockChallengeRootEdge t = Ok root /\ ClaimId root = Some claim).
  { rewrite res_bind_iff. split; intros (root & E1 & E2); exists root; (split; [done|]);
      destruct (ClaimId root); congruence. }
  destruct (Z.eqb_spec (GetChallengeLevel eg) NewBlockChallengeLevel) as [El|El]; [destruct (ClaimId eg) as [x|] eqn:Ec|].
  - split; [intros [= <-]; by apply claimed_by_itself|]. intros [? _ E|? ? [?|?] _ _]; congruence.
  - rewrite Hroot. split; [intros (root & ? & ?); eapply claimed_by_root; eauto|].
    intros [? _ E|root ? _ ? ?]; [congruence|eauto].
  - rewrite Hroot. split; [intros (root & ? & ?); eapply claimed_by_root; eauto|].
    intros [? E _|root ? _ ? ?]; [congruence|eauto].
Qed.

Lemma check_agreement_judged v t eg a : check_agreement v t eg = Ok a <-> judged v t eg a.
Proof.
  unfold check_agreement, judged, agreement_request, batch_of. rewrite res_bind_iff.
  setoid_rewrite wrap_err_ok. destruct (StartCommitment eg) as [sh sc], (EndCommitment eg) as [eh ec]. cbn [fst snd].
  set (level := GetChallengeLevel eg). assert (Hup : forall hs : list Z,
    (if level =? NewBlockChallengeLevel then [] else hs) = if decide (level = NewBlockChallengeLevel) then [] else hs).
  { intros hs. destruct (Z.eqb_spec level NewBlockChallengeLevel); by case_decide. }
  assert (Hlen : forall hs : list Z, negb (level =? NewBlockChallengeLevel) && (len hs =? 0) = false <->
    (level <> NewBlockChallengeLevel -> hs <> [])).
  { intros hs. destruct (Z.eqb_spec level NewBlockChallengeLevel), hs; unfold len; simpl; intuition congruence. }
  split.
  - intros (h & Eh & E). destruct (Z.eqb_spec (topLevelAssertionHash t) h) as [<-|]; [|done]. cbn [negb] in E.
    split; [done|]. apply res_bind_iff in E as (claim & Ec%claimed_by_ok & (info & Ei & E)%res_bind_iff).
    apply res_bind_iff in E as (hs & Ehs%wrap_err_ok & E). exists claim, info, hs. do 3 (split; [done|]).
    destruct (negb _ && _) eqn:El in E; [done|]. pose proof (proj1 (Hlen hs) El). rewrite Hup in E.
    apply res_bind_iff in E as (b1 & E1%wrap_err_ok & (b2 & E2%wrap_err_ok & [= <-])%res_bind_iff). done.
  - intros (Et & claim & info & hs & Ec & Ei & Ehs & El & E1 & E2). exists (topLevelAssertionHash t). split; [done|].
    rewrite Z.eqb_refl. cbn [negb]. apply res_bind_iff. exists claim. split; [by apply claimed_by_ok|].
    rewrite Ei. cbn [mbind res_bind]. rewrite Ehs. cbn [wrap_err mbind res_bind]. rewrite (proj2 (Hlen hs) El), Hup, E1.
    cbn [wrap_err mbind res_bind]. rewrite E2. cbn [wrap_err mbind res_bind]. by destruct a.
Qed.

(** What [AddEdge] leaves of an edge whose creation block cannot be read. *)
Lemma AddEdge_unread v eg t a : edges t !! Id eg = None -> check_agreement v t eg = Ok a ->
  IsHonestEdge a || AgreesWithStartCommit a = true -> (forall c, CreatedAtBlock eg <> Ok c) ->
  (forall e, CreatedAtBlock eg = Err e -> (AddEdge v eg t).1 = Err e) /\
  edges (AddEdge v eg t).2 = (if IsHonestEdge a then <[Id eg := eg]> (edges t) else edges t) /\
  forall m, mutuals_of (AddEdge v eg t).2 m = mutuals_of t m.
Proof.
  intros Hn Ea Hor Hun.
  assert (Hput : forall t0, exists r t1, put_mutual eg t0 = (r, t1) /\ t1 ≡ t0 /\
    (forall u, r <> Ok u) /\ forall e, CreatedAtBlock eg = Err e -> r = Err e).
  { intros t0. pose proof (put_mutual_unread eg t0 Hun) as E2. revert E2. unfold put_mutual, mbind, M_bind, lift.
    destruct (ensure_mutuals_equiv (MutualId eg) t0) as [E1 _].
    destruct (ensure_mutuals (MutualId eg) t0) as [r t1]. cbn [fst] in E1. subst r. intros E2.
    destruct (CreatedAtBlock eg) as [c| | |]; [by destruct (Hun c)|..]; (do 2 eexists); split_and!; try done; congruence. }
  unfold AddEdge, mbind, M_bind, get, Map.Has. rewrite bool_decide_false by (by rewrite Hn; intros [? ?]).
  unfold lift. rewrite Ea, orb_comm, Hor. destruct (IsHonestEdge a).
  - unfold modify, Map.Put. destruct (push_root_run eg (with_edges (<[Id eg := eg]> (edges t)) t))
      as (t1 & -> & Ee1 & Em1 & _). destruct (Hput t1) as (r & t2 & -> & (E2 & _ & _ & _ & Hm) & Hr & He).
    assert (Hend : forall m, mutuals_of t2 m = mutuals_of t m) by (intros m; rewrite Hm; unfold mutuals_of; by rewrite Em1).
    destruct r as [u| | |]; [by destruct (Hr u)|..]; cbn [fst snd]; (split_and!; [|by rewrite E2, Ee1|done]);
      intros x Ex; specialize (He x Ex); congruence.
  - cbn [mret M_ret]. destruct (Hput t) as (r & t2 & E & (E2 & _ & _ & _ & Hm) & Hr & He). rewrite E.
    destruct r as [u| | |]; [by destruct (Hr u)|..]; cbn [fst snd]; (split_and!; [|done|done]);
      intros x Ex; specialize (He x Ex); congruence.
Qed.

(** (C31) Adding an edge, on every outcome of the reads: a tracked edge is refused and
    nothing changes; when there is no verdict on the edge, because it is of another
    challenge or a read fails, an error is returned and nothing changes; with a verdict, the edge is
    tracked exactly when the history checker agrees with its end, and the verdict is returned.
    An edge whose end or start it agrees with is recorded with its creation block
    among the edges of its mutual id; when that block cannot be read the error is returned, the
    edge stays tracked and no block is recorded.  In every case the book-keeping holds afterwards as before: every tracked edge is filed
    under its id, is recorded with its creation block, where it has one, among the edges of its mutual id,
    and is among the root edges of its level exactly when it has a claim id, once. *)
Theorem AddEdge_correct v eg t r t' :
  tree_inv t -> AddEdge v eg t = (r, t') ->
  tree_inv t' /\
  (is_Some (edges t !! Id eg) -> r = Err ErrAlreadyBeingTracked /\ t' = t) /\
  (edges t !! Id eg = None -> (forall a, ~ judged v t eg a) -> (forall a, r <> Ok a) /\ t' = t) /\
  (edges t !! Id eg = None -> forall a, judged v t eg a ->
     let recorded := IsHonestEdge a || AgreesWithStartCommit a in
     edges t' = (if IsHonestEdge a then <[Id eg := eg]> (edges t) else edges t) /\
     (recorded = false -> r = Ok a /\ t' = t) /\
     (forall c, recorded = true -> CreatedAtBlock eg = Ok c ->
        r = Ok a /\ mutuals_of t' (MutualId eg) !! Id eg = Some c) /\
     (forall e, recorded = true -> CreatedAtBlock eg = Err e ->
        r = Err e /\ forall m, mutuals_of t' m = mutuals_of t m)).
Proof.
  intros Hinv Hrun. pose proof (grows_inv _ _ (AddEdge_grows v eg t) Hinv) as Hinv'. rewrite Hrun in Hinv'.
  split; [done|]. split_and!.
  - intros Hs. unfold AddEdge, mbind, M_bind, get, Map.Has in Hrun. rewrite bool_decide_true in Hrun by done.
    by injection Hrun as <- <-.
  - intros Hn Hno. unfold AddEdge, mbind, M_bind, get, Map.Has, lift in Hrun.
    rewrite bool_decide_false in Hrun by (by rewrite Hn; intros [? ?]).
    destruct (check_agreement v t eg) as [a| | |] eqn:Ea; [by apply check_agreement_judged, Hno in Ea|..];
      by injection Hrun as <- <-.
  - intros Hn a Ea%check_agreement_judged recorded.
    assert (Hsame : recorded = false -> r = Ok a /\ t' = t /\ IsHonestEdge a = false).
    { unfold recorded. intros [Eh Es]%orb_false_iff. unfold AddEdge, mbind, M_bind, get, Map.Has, lift in Hrun.
      rewrite bool_decide_false in Hrun by (by rewrite Hn; intros [? ?]). rewrite Ea, Eh, Es in Hrun. by injection Hrun as <- <-. }
    pose proof (fun c => AddEdge_run v eg c t) as Hok. rewrite Hn, Ea in Hok.
    pose proof (AddEdge_unread v eg t a Hn Ea) as Herr. fold recorded in Herr. rewrite Hrun in Herr. cbn [fst snd] in Herr.
    assert (Hrec : forall c, recorded = true -> CreatedAtBlock eg = Ok c -> r = Ok a /\
      edges t' = (if IsHonestEdge a then <[Id eg := eg]> (edges t) else edges t) /\ mutuals_of t' (MutualId eg) !! Id eg = Some c).
    { intros c Hr Ec. destruct (Hok c Ec) as (t1 & E1 & Hspec). rewrite Hrun in E1. injection E1 as -> ->.
      unfold recorded in Hr. destruct (IsHonestEdge a); [|cbn in Hr; rewrite Hr in Hspec];
        destruct Hspec as (? & ? & ? & ? & Hm); (split_and!; [done..|by rewrite Hm, decide_True, lookup_insert_eq]). }
    split_and!.
    + destruct recorded eqn:Er; [|by destruct Hsame as (_ & -> & ->)].
      destruct (CreatedAtBlock eg) as [c|e|p|] eqn:Ec; [by eapply Hrec|by apply Herr..].
    + intros Hr. by destruct (Hsame Hr) as (? & ? & _).
    + intros c Hr Ec. by destruct (Hrec c Hr Ec) as (? & _ & ?).
    + intros e Hr Ec. destruct (Herr Hr) as (? & _ & ?); [congruence|auto].
Qed.

(** ** Queries leave the tree alone, up to empty rival sets *)

Lemma reads_rivals e : keeps (≡) (rivalsWithCreationTimes e).
Proof. intros t. by destruct (rivalsWithCreationTimes_spec e t) as (t' & -> & ->). Qed.
#[local] Hint Resolve reads_rivals : keeps.

Lemma localTimer_reads e b : keeps (≡) (localTimer e b).
Proof. unfold localTimer, unrivaledAtBlockNum, earliestCreatedRivalBlockNumber. keeps_tac. Qed.
#[local] Hint Resolve localTimer_reads : keeps.

Lemma find_ancestors_reads fuel v q b : forall cursor l a, keeps (≡) (find_ancestors_loop fuel v q cursor b l a).
Proof.
  induction fuel as [|fuel IH]; intros cursor l a; cbn [find_ancestors_loop]; keeps_tac.
Qed.

Lemma find_honest_reads v r q b : keeps (≡) (findHonestAncestorsWithinChallengeLevel v r q b).
Proof. unfold findHonestAncestorsWithinChallengeLevel. keeps_tac. apply find_ancestors_reads. Qed.
#[local] Hint Resolve find_honest_reads : keeps.

Lemma ancestors_loop_reads fuel v b : forall e level l a, keeps (≡) (ancestors_loop fuel v b e level l a).
Proof.
  induction fuel as [|fuel IH]; intros e level l a; cbn [ancestors_loop]; keeps_tac.
Qed.

Lemma ComputeAncestorsWithTimers_reads v id b : keeps (≡) (ComputeAncestorsWithTimers v id b).
Proof. unfold ComputeAncestorsWithTimers. keeps_tac. apply ancestors_loop_reads. Qed.

Lemma ComputeHonestPathTimer_reads v id l b : keeps (≡) (ComputeHonestPathTimer v id l b).
Proof. unfold ComputeHonestPathTimer. keeps_tac. Qed.

Lemma HasConfirmableAncestor_reads v l p : keeps (≡) (HasConfirmableAncestor v l p).
Proof. unfold HasConfirmableAncestor. keeps_tac. Qed.

(** ** Trees the program reaches *)

(** One operation on a tree, with any view of the chain and any edge. *)
Inductive tree_step : HonestChallengeTree -> HonestChallengeTree -> Prop :=
| step_add_edge v eg t : tree_step t (AddEdge v eg t).2
| step_add_honest eg t : tree_step t (AddHonestEdge eg t).2
| step_ancestors v id b t : tree_step t (ComputeAncestorsWithTimers v id b t).2
| step_path_timer v id l b t : tree_step t (ComputeHonestPathTimer v id l b t).2
| step_confirmable v l p t : tree_step t (HasConfirmableAncestor v l p t).2.

Inductive reachable (assertionHash : AssertionHash) (numBigStepLevels : Z) : HonestChallengeTree -> Prop :=
| reach_new : reachable assertionHash numBigStepLevels (New assertionHash numBigStepLevels)
| reach_step t t' : reachable assertionHash numBigStepLevels t -> tree_step t t' ->
    reachable assertionHash numBigStepLevels t'.

Lemma tree_step_grows t t' : tree_step t t' -> grows t t'.
Proof.
  intros []; auto using AddEdge_grows, AddHonestEdge_grows.
  - apply equiv_grows, ComputeAncestorsWithTimers_reads.
  - apply equiv_grows, ComputeHonestPathTimer_reads.
  - apply equiv_grows, HasConfirmableAncestor_reads.
Qed.

Lemma New_inv assertionHash n : tree_inv (New assertionHash n).
Proof. split; unfold tracked; cbn; unfold Map.NewMap; intros *; rewrite ?lookup_empty; done. Qed.

Lemma root_edge_spec t e :
  tree_inv t -> HonestBlockChallengeRootEdge t = Ok e ->
  tracked t e /\ is_Some (ClaimId e) /\ GetReversedChallengeLevel e = u8 (totalChallengeLevels t - 1).
Proof.
  intros Hinv. unfold HonestBlockChallengeRootEdge, Map.TryGet.
  destruct (honestRootEdgesByLevel t !! u8 (totalChallengeLevels t - 1)) as [es|] eqn:El; [|done].
  unfold Slice.Len, Slice.Get, mbind, res_bind, len.
  destruct es as [|e0 [|e1 es]]; [done| |].
  2: { by rewrite (proj2 (Z.eqb_neq _ _)) by (simpl; lia). }
  cbn. intros [= <-]. destruct (inv_root t Hinv _ _ e0 El ltac:(by apply list_elem_of_singleton)) as (? & ? & ?).
  done.
Qed.

(** Every tree the program can reach from a new one by adding edges, honest
    edges (whether or not their creation block can be read) and answering timer
    queries satisfies the book-keeping invariant; in particular
    [HonestBlockChallengeRootEdge] only ever returns a tracked edge of the block
    level with a claim. *)
Theorem reachable_tree_inv assertionHash n t :
  reachable assertionHash n t ->
  tree_inv t /\
  forall e, HonestBlockChallengeRootEdge t = Ok e ->
    tracked t e /\ is_Some (ClaimId e) /\
    GetReversedChallengeLevel e = u8 (totalChallengeLevels t - 1).
Proof.
  intros Hr. assert (Hinv : tree_inv t).
  { induction Hr as [|t t' _ IH Hs]; [apply New_inv|]. by apply (grows_inv _ _ (tree_step_grows _ _ Hs)). }
  split; [done|]. intros e. by apply root_edge_spec.
Qed.

(** ** Witnesses: a small two-level challenge *)

Definition mk_edge (id level rlevel s e created mutual origin : Z) (claim : option Z) : Edge := {|
  Id := id; GetChallengeLevel := level; GetReversedChallengeLevel := rlevel;
  StartCommitment := (s, 1000 + s); EndCommitment := (e, 1000 + e); CreatedAtBlock := Ok created;
  MutualId := mutual; OriginId := origin; ClaimId := claim |}.

Definition ex_root : Edge := mk_edge 100 0 1 0 4 10 900 500 (Some 77).
Definition ex_lower : Edge := mk_edge 101 0 1 0 2 12 901 500 None.
Definition ex_upper : Edge := mk_edge 102 0 1 2 4 12 902 500 None.
Definition ex_sub : Edge := mk_edge 200 1 0 0 2 20 903 600 (Some 102).
Definition ex_subchild : Edge := mk_edge 201 1 0 0 1 25 904 600 None.
Definition ex_edges : list Edge := [ex_root; ex_lower; ex_upper; ex_sub; ex_subchild].

Definition ex_tree : HonestChallengeTree := {|
  edges := list_to_map ((fun e => (Id e, e)) <$> ex_edges);
  mutualIds := {[ 902 := {[ 102 := 12; 302 := 18 ]} ]};
  topLevelAssertionHash := 55;
  totalChallengeLevels := 2;
  honestRootEdgesByLevel := {[ 1 := [ex_root]; 0 := [ex_sub] ]};
|}.

Definition ex_info : AssertionCreatedInfo :=
  let s := {| SolGlobal := {| Bytes32Vals := (1, 2); U64Vals := (3, 4) |}; SolMachineStatus := 1 |} in {|
  ConfirmPeriodBlocks := 0; RequiredStake := 0; ParentAssertionHash := 0; BeforeState := s;
  AfterState := s; InboxMaxCount := 0; AfterInboxBatchAcc := 0; InfoAssertionHash := 0;
  WasmModuleRoot := 0; InfoChallengeManager := 0; TransactionHash := 0; CreationBlock := 0 |}.

Definition ex_view : ChainView := {|
  AssertionUnrivaledBlocks := fun _ => Ok 5;
  TopLevelAssertion := fun _ => Ok 55;
  TopLevelClaimHeights := fun _ => Ok [0];
  ReadAssertionCreationInfo := fun _ => Ok ex_info;
  AgreesWith := fun _ _ c => Ok (ClaimMerkleRoot c =? 1000 + ClaimHeight c);
  LowerChild := fun id => Ok (if id =? 100 then Some 101 else if id =? 200 then Some 201 else None);
  UpperChild := fun id => Ok (if id =? 100 then Some 102 else None);
  CtxErr := None;
|}.

Lemma ex_tracked e : tracked ex_tree e -> e ∈ ex_edges.
Proof.
  unfold tracked. cbn [edges ex_tree]. intros (e' & E & Hin)%elem_of_list_to_map_2%list_elem_of_fmap.
  by injection E as _ ->.
Qed.

Ltac ex_cases H :=
  apply ex_tracked in H; unfold ex_edges in H; rewrite !elem_of_cons in H;
  destruct H as [->|[->|[->|[->|[->|H]]]]]; [| | | | |by apply not_elem_of_nil in H].

Lemma ex_wf : wf_edges ex_view ex_tree.
Proof.
  split.
  - intros e He. ex_cases He; unfold two64; cbn; lia.
  - intros e He. ex_cases He; eexists; (split; [reflexivity|lia]).
  - intros e c He [Hc Hl]. ex_cases He; ex_cases Hc; try (vm_compute in Hl; discriminate); by vm_compute.
  - intros e c He [Hc Hl]. ex_cases He; ex_cases Hc; try (vm_compute in Hl; discriminate); by vm_compute.
Qed.

Lemma ex_descends : descends ex_view ex_tree ex_root ex_upper [ex_root].
Proof. apply (descends_upper _ _ _ ex_upper); [by vm_compute|constructor]. Qed.

Lemma ex_lineage : lineage ex_view ex_tree 0 ex_subchild [ex_sub; ex_upper; ex_root].
Proof.
  apply (lineage_up _ _ 0 ex_subchild ex_sub [ex_sub] ex_upper [ex_root]); try (by vm_compute).
  - apply (descends_lower _ _ _ ex_subchild); [by vm_compute|constructor].
  - apply (lineage_top _ _ 1 ex_upper ex_root [ex_root]); try (by vm_compute). exact ex_descends.
Qed.

Lemma localTimer_correct_witness :
  exists v v',
    (localTimer ex_upper 15 ex_tree).1 = Ok v /\ (localTimer ex_upper 30 ex_tree).1 = Ok v' /\
    v = Z.max 0 (match earliest ex_tree ex_upper with None => 15 | Some r => Z.min 15 r end - 12) /\
    0 <= v <= v' /\
    match earliest ex_tree ex_upper with
    | None => forall id r, mutuals_of ex_tree 902 !! id = Some r -> id = 102
    | Some m => (exists id, id <> 102 /\ mutuals_of ex_tree 902 !! id = Some m) /\
                forall id r, id <> 102 -> mutuals_of ex_tree 902 !! id = Some r -> m <= r
    end.
Proof. apply (localTimer_correct ex_upper 15 30 12 ex_tree); try done. Defined.

Lemma HasConfirmableAncestor_correct_witness :
  exists r, HasConfirmableAncestor ex_view [3; 4] 12 ex_tree = (Ok r, ex_tree) /\
    (r = true <-> exists i, (i < length [3; 4])%nat /\ 12 <= 5 + sum (drop i [3; 4])).
Proof.
  apply (HasConfirmableAncestor_correct ex_view ex_tree [3; 4] 12 5); try done.
  repeat constructor; lia.
Defined.

Lemma ComputeHonestPathTimer_correct_witness :
  match edges ex_tree !! 102 with
  | None => ComputeHonestPathTimer ex_view 102 [3; 4] 30 ex_tree = (Err (ErrWrap ErrNotFound "id=%#x"), ex_tree)
  | Some e => (ComputeHonestPathTimer ex_view 102 [3; 4] 30 ex_tree).1
              = Ok (timer_of ex_tree 30 e + 5 + sum [3; 4])
  end.
Proof.
  apply (ComputeHonestPathTimer_correct ex_view ex_tree 102 [3; 4] 30 5); try done.
  - repeat constructor; lia.
  - intros e He. vm_compute in He. injection He as <-. split; [eexists; split; [reflexivity|lia]|done].
Defined.

Lemma find_honest_ancestors_correct_witness :
  exists t', findHonestAncestorsWithinChallengeLevel ex_view ex_root ex_upper 30 ex_tree =
    (Ok (timer_of ex_tree 30 <$> [ex_root], Id <$> [ex_root]), t') /\ t' ≡ ex_tree.
Proof.
  apply (find_honest_ancestors_correct ex_view ex_tree ex_root ex_upper [ex_root] 30);
    [exact ex_wf|done|done|by vm_compute|exact ex_descends].
Defined.

Lemma ComputeAncestorsWithTimers_correct_witness :
  exists t', ComputeAncestorsWithTimers ex_view 201 30 ex_tree =
    (Ok {| AncestorLocalTimers := timer_of ex_tree 30 <$> [ex_sub; ex_upper; ex_root];
           AncestorEdgeIds := [200; 102; 100] |}, t') /\ t' ≡ ex_tree.
Proof.
  apply (ComputeAncestorsWithTimers_correct ex_view ex_tree ex_subchild 30 [ex_sub; ex_upper; ex_root]);
    [exact ex_wf|done|done|by vm_compute|by vm_compute|done|exact ex_lineage].
Defined.

Lemma AddEdge_correct_witness :
  let t := New 55 0 in
  let '(r, t') := AddEdge ex_view ex_root t in
  judged ex_view t ex_root {| IsHonestEdge := true; AgreesWithStartCommit := true |} /\
  r = Ok {| IsHonestEdge := true; AgreesWithStartCommit := true |} /\
  edges t' = <[Id ex_root := ex_root]> ∅ /\ mutuals_of t' (MutualId ex_root) !! Id ex_root = Some 10.
Proof.
  intros t. destruct (AddEdge ex_view ex_root t) as [r t'] eqn:E.
  destruct (AddEdge_correct ex_view ex_root t r t' (New_inv 55 0) E) as (_ & _ & _ & Hadd).
  assert (Hj : judged ex_view t ex_root {| IsHonestEdge := true; AgreesWithStartCommit := true |})
    by (apply check_agreement_judged; vm_compute; reflexivity).
  destruct (Hadd eq_refl _ Hj) as (He & _ & Hc & _). split; [exact Hj|].
  destruct (Hc 10 eq_refl eq_refl) as [Hr Hm]. exact (conj Hr (conj He Hm)).
Defined.

Lemma reachable_tree_inv_witness :
  tree_inv (AddEdge ex_view ex_root (New 55 0)).2 /\
  forall e, HonestBlockChallengeRootEdge (AddEdge ex_view ex_root (New 55 0)).2 = Ok e ->
    tracked (AddEdge ex_view ex_root (New 55 0)).2 e /\ is_Some (ClaimId e) /\
    GetReversedChallengeLevel e = u8 (totalChallengeLevels (AddEdge ex_view ex_root (New 55 0)).2 - 1).
Proof.
  apply (reachable_tree_inv 55 0). eapply reach_step; [constructor|].
  apply (step_add_edge ex_view ex_root).
Defined.
