(* ===== verification/Runtime.v ===== *)
(** * Retrying

    [runtime/retry.go]: calling a function again until it succeeds or the context
    is cancelled.  The context and the passing of time are part of the world. *)

From S2P Require Import Prelude.

Class Context (W : Type) := {
  ContextErr : W -> option error;
  Sleep : Z -> W -> W;
}.

Definition defaultSleepTime : Z := 1000000000.

Record RetryConfig := { sleepTime : Z }.
Definition WithInterval (d : Z) (rc : RetryConfig) : RetryConfig := {| sleepTime := d |}.

Section retry.
Context {W : Type} `{Context W}.

(** The loop, for a bounded number of calls. *)
Fixpoint retry_loop {A} (fuel : nat) (cfg : RetryConfig) (fn : M W A) : M W A :=
  match fuel with
  | O => lift NoFuel
  | S fuel' =>
      w ← get;
      match ContextErr w with
      | Some e => fail e
      | None =>
          got ← attempt fn;
          match got with
          | inl a => mret a
          | inr _ => modify (Sleep (sleepTime cfg)) ;; retry_loop fuel' cfg fn
          end
      end
  end.

Definition UntilSucceedsMultipleReturnValue {A B} (fuel : nat) (fn : M W (A * B))
    (opts : list (RetryConfig -> RetryConfig)) : M W (A * B) :=
  let cfg := fold_left (fun cfg o => o cfg) opts {| sleepTime := defaultSleepTime |} in
  retry_loop fuel cfg fn.

(** The options are not passed on. *)
Definition UntilSucceeds {A} (fuel : nat) (fn : M W A) (opts : list (RetryConfig -> RetryConfig)) : M W A :=
  '(result, _) ← UntilSucceedsMultipleReturnValue fuel (got ← fn; mret (got, tt)) [];
  mret result.

(** ** What retrying gives *)

(** The worlds in which [fn] is called: each call but the last one fails, and the
    sleep follows. *)
Inductive failing {A} (fn : M W A) (d : Z) : nat -> W -> W -> Prop :=
| failing_none w : failing fn d 0 w w
| failing_again n w w1 w2 e :
    ContextErr w = None -> fn w = (Err e, w1) -> failing fn d n (Sleep d w1) w2 ->
    failing fn d (S n) w w2.

Lemma UntilSucceeds_step {A} fuel (fn : M W A) opts w :
  UntilSucceeds (S fuel) fn opts w =
    match ContextErr w with
    | Some e => (Err e, w)
    | None =>
        match fn w with
        | (Ok a, w') => (Ok a, w')
        | (Err _, w') => UntilSucceeds fuel fn opts (Sleep defaultSleepTime w')
        | (Panic p, w') => (Panic p, w')
        | (NoFuel, w') => (NoFuel, w')
        end
    end.
Proof.
  unfold UntilSucceeds, UntilSucceedsMultipleReturnValue. cbn [retry_loop fold_left].
  unfold mbind, M_bind, get, attempt, mret, M_ret, modify, fail. cbn [sleepTime].
  destruct (ContextErr w); [done|]. by destruct (fn w) as [[| | |] w'].
Qed.

Lemma UntilSucceeds_success {A} (fn : M W A) n w w1 a w' opts fuel :
  failing fn defaultSleepTime n w w1 -> ContextErr w1 = None -> fn w1 = (Ok a, w') -> (n < fuel)%nat ->
  UntilSucceeds fuel fn opts w = (Ok a, w').
Proof.
  intros Hf Hc Hok Hn. revert fuel Hn.
  induction Hf as [w|n w w1 w2 e Hce He _ IH]; intros [|fuel] Hn; try lia; rewrite UntilSucceeds_step.
  - by rewrite Hc, Hok.
  - rewrite Hce, He. apply IH; done || lia.
Qed.

Lemma UntilSucceeds_ok {A} (fn : M W A) opts fuel : forall w a w',
  UntilSucceeds fuel fn opts w = (Ok a, w') ->
  exists n w1, failing fn defaultSleepTime n w w1 /\ ContextErr w1 = None /\ fn w1 = (Ok a, w').
Proof.
  induction fuel as [|fuel IH]; intros w a w'; [done|]. rewrite UntilSucceeds_step.
  destruct (ContextErr w) eqn:Ec; [done|]. destruct (fn w) as [[x|e| |] w1] eqn:Ef; try done.
  - intros [= -> ->]. exists 0%nat, w. split; [constructor|done].
  - intros (n & w2 & Hf & ?)%IH. exists (S n), w2. split; [by econstructor|done].
Qed.

(** Retrying respects a preorder that the function and the waiting respect. *)
Lemma keeps_UntilSucceeds (R : relation W) `{!PreOrder R} {A} fuel (fn : M W A) opts :
  (forall w, R w (Sleep defaultSleepTime w)) -> keeps R fn -> keeps R (UntilSucceeds fuel fn opts).
Proof.
  intros Hs Hf. induction fuel as [|fuel IH]; intros w; [by unfold UntilSucceeds|].
  rewrite UntilSucceeds_step. destruct (ContextErr w); [done|]. specialize (Hf w).
  destruct (fn w) as [[a|e|p|] w1]; [done| |done..]. cbn in Hf. etrans; [apply Hf|]. etrans; [apply Hs|apply IH].
Qed.

(** [UntilSucceeds] retries and nothing else: if the function fails a number of
    times and then succeeds while the context is alive, the result is that success
    and the world is the one it left; if the context is cancelled after some
    failures, its error is returned; and an [Ok] result always comes from a
    successful call made after failing ones. *)
Theorem UntilSucceeds_correct {A} (fn : M W A) opts fuel w :
  (forall n w1 a w', failing fn defaultSleepTime n w w1 -> ContextErr w1 = None ->
     fn w1 = (Ok a, w') -> (n < fuel)%nat -> UntilSucceeds fuel fn opts w = (Ok a, w')) /\
  (forall n w1 e, failing fn defaultSleepTime n w w1 -> ContextErr w1 = Some e -> (n < fuel)%nat ->
     UntilSucceeds fuel fn opts w = (Err e, w1)) /\
  (forall a w', UntilSucceeds fuel fn opts w = (Ok a, w') ->
     exists n w1, failing fn defaultSleepTime n w w1 /\ ContextErr w1 = None /\ fn w1 = (Ok a, w')).
Proof.
  split_and!.
  - intros. by eapply UntilSucceeds_success.
  - intros n w1 e Hf Hc Hn. revert fuel Hn.
    induction Hf as [w|n w w1 w2 e' Hce He _ IH]; intros [|fuel] Hn; try lia; rewrite UntilSucceeds_step.
    + by rewrite Hc.
    + rewrite Hce, He. apply IH; done || lia.
  - apply UntilSucceeds_ok.
Qed.

(** The interval option has no effect on [UntilSucceeds]: its options are
    dropped, so every wait is the default one, whatever interval the caller asks
    for. *)
Theorem UntilSucceeds_ignores_interval {A} (fn : M W A) fuel d w :
  UntilSucceeds fuel fn [WithInterval d] w = UntilSucceeds fuel fn [] w /\
  forall e w1, ContextErr w = None -> fn w = (Err e, w1) ->
    UntilSucceeds (S fuel) fn [WithInterval d] w =
      UntilSucceeds fuel fn [WithInterval d] (Sleep defaultSleepTime w1).
Proof. split; [done|]. intros e w1 Hc He. by rewrite UntilSucceeds_step, Hc, He. Qed.

End retry.
