(* ===== verification/Chain.v ===== *)
(** * The chain interface

    [chain-abstraction/interfaces.go]: what the validator asks of the rollup and
    challenge contracts, as effectful operations on a world [W]. *)

From S2P Require Import Prelude Bits PrefixProofs Containers InclusionProofs History Protocol.

Class ChainEnv (W : Type) := {
  (* protocol.SpecEdge *)
  HasRival : Edge -> M W bool;
  HasLengthOneRival : Edge -> M W bool;
  HasConfirmedRival : Edge -> M W bool;
  EdgeStatusOf : Edge -> M W EdgeStatus;
  AssertionHashOf : Edge -> M W AssertionHash;
  TopLevelClaimHeight : Edge -> M W (list Z);
  LowerChildOf : Edge -> M W (option EdgeId);
  UpperChildOf : Edge -> M W (option EdgeId);
  GetTotalChallengeLevels : Edge -> Z;
  BisectOnChain : Edge -> Hash -> list Z -> M W (Edge * Edge);
  ConfirmByTimer : Edge -> list EdgeId -> M W unit;
  ConfirmByClaim : Edge -> ClaimIdT -> M W unit;
  ConfirmByChildren : Edge -> M W unit;
  (* protocol.SpecChallengeManager *)
  SpecChallengeManager : M W unit;
  GetEdge : EdgeId -> M W (option Edge);
  ChallengePeriodBlocks : M W Z;
  AddBlockChallengeLevelZeroEdge : AssertionHash -> History -> History -> list Z -> M W Edge;
  AddSubChallengeLevelZeroEdge :
    Edge -> History -> History -> list Hash -> list Hash -> list Z -> M W Edge;
  ConfirmEdgeByOneStepProof : EdgeId -> OneStepData -> list Hash -> list Hash -> M W unit;
  (* protocol.AssertionChain *)
  AssertionCreationInfo : AssertionHash -> M W AssertionCreatedInfo;
  IsChallengeComplete : AssertionHash -> M W bool;
  ConfirmAssertionByChallengeWinner : AssertionHash -> EdgeId -> M W unit;
  LatestConfirmed : M W AssertionHash;
  AssertionCreatedAtBlock : AssertionHash -> M W Z;
  (* bind.ContractBackend *)
  HeaderByNumber : M W Z;
}.

(** ** Assertions *)

Inductive AssertionStatus := NoAssertion | AssertionPending | AssertionConfirmed.
#[global] Instance AssertionStatus_eq_dec : EqDecision AssertionStatus.
Proof. solve_decision. Defined.

Definition BeforeDeadlineAssertionConfirmationError : string := "BEFORE_DEADLINE".

Record LayerZeroHeights := {
  BlockChallengeHeight : Z;
  BigStepChallengeHeight : Z;
  SmallStepChallengeHeight : Z;
}.

(** The rest of the chain: what the challenge manager and the assertion manager call
    besides.  An assertion is its id; its methods are operations on it. *)
Class RollupEnv (W : Type) := {
  rollup_chain :: ChainEnv W;
  (* protocol.SpecChallengeManager *)
  GetLayerZeroHeights : M W LayerZeroHeights;
  NumBigSteps : M W Z;
  CalculateEdgeId : Z -> OriginIdT -> Z -> Hash -> Z -> Hash -> M W EdgeId;
  (* protocol.AssertionChain *)
  IsStaked : M W bool;
  GetAssertion : AssertionHash -> M W AssertionHash;
  AssertionPrevId : AssertionHash -> M W AssertionHash;
  GetAssertionStatus : AssertionHash -> M W AssertionStatus;
  LatestCreatedAssertionHashes : M W (list AssertionHash);
  NewStakeOnNewAssertion : AssertionCreatedInfo -> ExecutionState -> M W AssertionHash;
  StakeOnNewAssertion : AssertionCreatedInfo -> ExecutionState -> M W AssertionHash;
  ConfirmAssertionByTime : AssertionHash -> M W unit;
}.
