(* ===== verification/Api.v ===== *)
(** * The API: edges, assertions and stakes

    [api/edges.go], [api/data.go], [api/assertions.go], [api/method_edges.go],
    [api/method_assertions.go], [api/method_healthz.go] and the response helpers of
    [api/server.go]: the handlers that report the edges the watcher knows, the
    assertions and the stakes.  A handler is a computation on the world and the
    response it writes. *)

From stdpp Require Import sorting pretty.
From S2P Require Import Prelude Bits PrefixProofs Containers InclusionProofs History Protocol Provider ChallengeTree Chain.

(** ** Data *)

Record Commitment := { CommitmentHeight : Z; CommitmentHash : Hash }.

(** [api.Edge]; the pointer to the origin heights is nil until it is read. *)
Record ApiEdge := {
  ID : Hash;
  EdgeType : string;
  EdgeStartCommitment : Commitment;
  EdgeEndCommitment : Commitment;
  EdgeCreatedAt : Z;
  MutualID : Hash;
  OriginID : Hash;
  ClaimID : Hash;
  EdgeHasChildren : bool;
  LowerChildID : Hash;
  UpperChildID : Hash;
  EdgeMiniStaker : Z;
  EdgeAssertion : Hash;
  EdgeTimeUnrivaled : Z;
  EdgeHasRival : bool;
  EdgeStatusText : string;
  EdgeHasLengthOneRival : bool;
  EdgeTopLevelClaimHeight : option (list Z);
  CumulativePathTimer : Z;
}.

Definition IsRootChallenge (e : ApiEdge) : bool :=
  bool_decide (EdgeType e = LevelString NewBlockChallengeLevel) && (ClaimID e =? zero_hash).

Record StakeInfo := {
  StakerAddresses : list Z;
  NumberOfMinistakes : Z;
  StartCommitmentHeight : Z;
  EndCommitmentHeight : Z;
}.

Record Ministakes := { StakedAssertion : Hash; Level : string; Stakes : StakeInfo }.

(** [api.Assertion]. *)
Record ApiAssertion := {
  AssertionConfirmPeriod : Z;
  AssertionRequiredStake : string;
  AssertionParent : Hash;
  AssertionInboxMaxCount : string;
  AssertionBatchAcc : Hash;
  AssertionID : Hash;
  AssertionWasmModuleRoot : Hash;
  AssertionChallengeManager : Z;
  AssertionCreationBlock : Z;
  AssertionTransaction : Hash;
  L2State : GoGlobalState;
}.

Definition AssertionCreatedInfoToAssertion (aci : option AssertionCreatedInfo) : option ApiAssertion :=
  match aci with
  | None => None
  | Some aci => Some {|
      AssertionConfirmPeriod := ConfirmPeriodBlocks aci;
      AssertionRequiredStake := pretty (RequiredStake aci);
      AssertionParent := ParentAssertionHash aci;
      AssertionInboxMaxCount := pretty (InboxMaxCount aci);
      AssertionBatchAcc := AfterInboxBatchAcc aci;
      AssertionID := InfoAssertionHash aci;
      AssertionWasmModuleRoot := WasmModuleRoot aci;
      AssertionChallengeManager := InfoChallengeManager aci;
      AssertionCreationBlock := CreationBlock aci;
      AssertionTransaction := TransactionHash aci;
      L2State := GoGlobalStateFromSolidity (SolGlobal (AfterState aci)) |}
  end.

(** A row of the database. *)
Record DBEdge := {
  DBID : list Z;
  DBType : string;
  DBStartHash : list Z;
  DBStartHeight : Z;
  DBEndHash : list Z;
  DBEndHeight : Z;
  DBCreatedAtBlock : Z;
  DBMutualID : list Z;
  DBOriginID : list Z;
  DBClaimID : list Z;
  DBHasChildren : bool;
  DBLowerChildID : list Z;
  DBUpperChildID : list Z;
  DBMiniStaker : list Z;
  DBAssertionHash : list Z;
  DBTimeUnrivaled : Z;
  DBHasRival : bool;
  DBStatus : string;
  DBHasLengthOneRival : bool;
  DBTopLevelClaimHeight : list Z;
  DBCumulativePathTimer : Z;
}.

Record DBConfig := { Enable : bool; DBPath : string; TableName : string; DBUpdateInterval : Z }.

(** ** What the API calls *)

Class ApiEnv (W : Type) := {
  api_chain :: ChainEnv W;
  (* protocol.SpecEdge *)
  MiniStaker : Edge -> option Z;
  HasChildren : Edge -> M W bool;
  TimeUnrivaled : Edge -> M W Z;
  (* EdgesProvider *)
  ProvideHonestEdges : M W (list Edge);
  ProvideEdges : M W (list Edge);
  ProvideEdge : Hash -> M W Edge;
  ProvideHonestConfirmableEdges : M W (gmap string (list Edge));
  ProvideEvilConfirmedEdges : M W (list Edge);
  ProvidePathTimer : AssertionHash -> EdgeId -> M W (Z * list EdgeId * list Z);
  (* AssertionsProvider *)
  ReadAssertionCreationInfo : AssertionHash -> M W (option AssertionCreatedInfo);
  ProvideAssertionHashes : M W (list AssertionHash);
  (* common.HexToHash of go-ethereum *)
  HexToHash : string -> Hash;
}.

(** ** Groups of goroutines

    [errgroup.Group]: the goroutines run in an order the scheduler chooses; [Wait]
    returns, when all are done, the first error that occurred.  The goroutines of the
    API write disjoint variables, and each call they make is one step of the order. *)

Class Scheduler := {
  order : forall {A : Type}, list A -> list A;
  order_perm : forall A (l : list A), order l ≡ₚ l;
}.

Definition first_error {A} (first : option error) (got : A + error) : option error :=
  match first, got with None, inr e => Some e | _, _ => first end.

Fixpoint eg_wait {S} (first : option error) (tasks : list (M S unit)) : M S unit :=
  match tasks with
  | [] => match first with None => mret tt | Some e => fail e end
  | t :: tasks' =>
      got ← attempt t;
      eg_wait (first_error first got) tasks'
  end.

Definition errgroup `{Scheduler} {S} (tasks : list (M S unit)) : M S unit := eg_wait None (order tasks).

(** Running on a variable of the function, whose value is returned. *)
Definition with_local {W S} (s : S) (m : M (W * S) unit) : M W S := fun w =>
  let '(r, (w', s')) := m (w, s) in
  (match r with Ok _ => Ok s' | Err e => Err e | Panic p => Panic p | NoFuel => NoFuel end, w').

(** ** The response *)

Inductive Payload :=
| JEdges (edges : list ApiEdge)
| JEdge (edge : ApiEdge)
| JEdgesByReason (edges : gmap string (list ApiEdge))
| JMinistakes (stakes : list Ministakes)
| JAssertions (assertions : list (option ApiAssertion))
| JDBResponse (edges : list DBEdge) (lastUpdated : Z).

(** What is written to a body: the encoding of a payload, or text. *)
Inductive Chunk := JSON (data : Payload) | Text (s : string).

(** [http.ResponseWriter]: the first status counts; a write without a status sends
    200; writes fail when the connection is lost. *)
Record ResponseWriter := {
  ContentType : option string;
  StatusCode : option Z;
  Body : list Chunk;
  WriteErr : option error;
}.

Definition StatusOK : Z := 200.
Definition StatusBadRequest : Z := 400.
Definition StatusInternalServerError : Z := 500.
Definition StatusNotImplemented : Z := 501.

Section response.
Context {W : Type}.

Abbreviation HM := (M (W * ResponseWriter)).

Definition SetContentType (t : string) : HM unit := modify (fun '(w, r) =>
  (w, {| ContentType := Some t; StatusCode := StatusCode r; Body := Body r; WriteErr := WriteErr r |})).

Definition WriteHeader (code : Z) : HM unit := modify (fun '(w, r) =>
  (w, {| ContentType := ContentType r; StatusCode := Some (default code (StatusCode r)); Body := Body r;
         WriteErr := WriteErr r |})).

Definition Write (c : Chunk) : HM unit :=
  WriteHeader StatusOK ;;
  s ← get;
  match WriteErr (snd s) with
  | Some e => fail e
  | None => modify (fun '(w, r) =>
      (w, {| ContentType := ContentType r; StatusCode := StatusCode r; Body := Body r ++ [c];
             WriteErr := WriteErr r |}))
  end.

(** Encoding the payloads of the API cannot fail. *)
Definition writeJSONResponse (code : Z) (data : Payload) : HM unit :=
  SetContentType "application/json" ;;
  WriteHeader code ;;
  Write (JSON data).

(** The outcome of the write is only logged. *)
Definition writeError (code : Z) (err : error) : HM unit :=
  WriteHeader code ;;
  _ ← attempt (Write (Text (ErrorText err)));
  mret tt.

(** [if err != nil { writeError(w, 500, err); return }] after a call, and after
    writing the response. *)
Definition or_error {A} (m : M W A) (k : A -> HM unit) : HM unit :=
  got ← attempt (chain m);
  match got with
  | inl a => k a
  | inr err => writeError StatusInternalServerError err
  end.

Definition respond (data : Payload) : HM unit :=
  got ← attempt (writeJSONResponse StatusOK data);
  match got with
  | inl _ => mret tt
  | inr err => writeError StatusInternalServerError err
  end.

Definition healthzHandler : HM unit :=
  WriteHeader StatusOK ;;
  _ ← attempt (Write (Text "ok"));
  mret tt.

Definition getAssertionHandler : HM unit :=
  WriteHeader StatusNotImplemented ;;
  _ ← attempt (Write (Text "not implemented"));
  mret tt.

End response.

(** ** Converting edges *)

(** The variables the goroutines of a conversion write. *)
Inductive EdgeWrite :=
| WHasChildren (b : bool)
| WLowerChild (h : Hash)
| WUpperChild (h : Hash)
| WAssertion (h : Hash)
| WPathTimer (t : Z)
| WTimeUnrivaled (t : Z)
| WHasRival (b : bool)
| WStatus (s : string)
| WHasLengthOneRival (b : bool)
| WClaimHeight (l : list Z).

Definition write_field (f : EdgeWrite) (e : ApiEdge) : ApiEdge := {|
  ID := ID e; EdgeType := EdgeType e; EdgeStartCommitment := EdgeStartCommitment e;
  EdgeEndCommitment := EdgeEndCommitment e; EdgeCreatedAt := EdgeCreatedAt e; MutualID := MutualID e;
  OriginID := OriginID e; ClaimID := ClaimID e;
  EdgeHasChildren := match f with WHasChildren b => b | _ => EdgeHasChildren e end;
  LowerChildID := match f with WLowerChild h => h | _ => LowerChildID e end;
  UpperChildID := match f with WUpperChild h => h | _ => UpperChildID e end;
  EdgeMiniStaker := EdgeMiniStaker e;
  EdgeAssertion := match f with WAssertion h => h | _ => EdgeAssertion e end;
  EdgeTimeUnrivaled := match f with WTimeUnrivaled t => t | _ => EdgeTimeUnrivaled e end;
  EdgeHasRival := match f with WHasRival b => b | _ => EdgeHasRival e end;
  EdgeStatusText := match f with WStatus s => s | _ => EdgeStatusText e end;
  EdgeHasLengthOneRival := match f with WHasLengthOneRival b => b | _ => EdgeHasLengthOneRival e end;
  EdgeTopLevelClaimHeight := match f with WClaimHeight l => Some l | _ => EdgeTopLevelClaimHeight e end;
  CumulativePathTimer := match f with WPathTimer t => t | _ => CumulativePathTimer e end;
|}.

Definition toCommitment (fn : Z * Hash) : Commitment :=
  {| CommitmentHeight := fst fn; CommitmentHash := snd fn |}.

(** [sort.Slice] by creation block; the order of edges of one block is left open by
    Go, here it is that of a merge sort. *)
Definition created_before (e e' : ApiEdge) : Prop := EdgeCreatedAt e <= EdgeCreatedAt e'.
#[global] Instance created_before_dec : RelDecision created_before.
Proof. intros e e'. unfold created_before. apply _. Defined.
Definition sort_by_creation (edges : list ApiEdge) : list ApiEdge := merge_sort created_before edges.

Definition deref {A} (p : option A) : res A :=
  match p with Some a => Ok a | None => Panic NilDereference end.

Section api.
Context {W : Type} `{ApiEnv W} `{Scheduler}.

Abbreviation HM := (M (W * ResponseWriter)).

(** The fields that are filled before the goroutines start. *)
Definition initial_edge (e : Edge) : ApiEdge := {|
  ID := Id e; EdgeType := LevelString (GetChallengeLevel e);
  EdgeStartCommitment := toCommitment (StartCommitment e);
  EdgeEndCommitment := toCommitment (EndCommitment e);
  EdgeCreatedAt := match CreatedAtBlock e with Ok cab => cab | _ => 0 end;
  MutualID := MutualId e; OriginID := OriginId e; ClaimID := default zero_hash (ClaimId e);
  EdgeHasChildren := false; LowerChildID := zero_hash; UpperChildID := zero_hash;
  EdgeMiniStaker := default 0 (MiniStaker e); EdgeAssertion := zero_hash; EdgeTimeUnrivaled := 0;
  EdgeHasRival := false; EdgeStatusText := ""; EdgeHasLengthOneRival := false;
  EdgeTopLevelClaimHeight := None; CumulativePathTimer := 0 |}.

Definition write (f : EdgeWrite) : M (W * ApiEdge) unit := modify (fun s => (fst s, write_field f (snd s))).

(** One call and the variable its answer is written to. *)
Definition fetch {A} (msg : string) (m : M W A) (field : A -> option EdgeWrite) : M (W * ApiEdge) unit :=
  a ← wrapM msg (chain m);
  match field a with Some f => write f | None => mret tt end.

Definition fetch_path_timer (e : Edge) : M (W * ApiEdge) unit :=
  ah ← wrapM "could not get edge assertion hash" (chain (AssertionHashOf e));
  write (WAssertion ah) ;;
  got ← attempt (chain (ProvidePathTimer ah (Id e)));
  match got with
  | inr err =>
      if errors_is err ErrNoLowerChildYet then mret tt
      else fail (ErrWrap err "failed to get edge cumulative path timer")
  | inl (cumulativePathTimer, _, _) => write (WPathTimer cumulativePathTimer)
  end.

Definition edge_goroutines (e : Edge) : list (M (W * ApiEdge) unit) := [
  fetch "could not get edge children" (HasChildren e) (fun b => Some (WHasChildren b));
  fetch "could not get edge lower child" (LowerChildOf e) (fmap WLowerChild);
  fetch "could not get edge upper child" (UpperChildOf e) (fmap WUpperChild);
  fetch_path_timer e;
  fetch "could not get edge time unrivaled" (TimeUnrivaled e) (fun t => Some (WTimeUnrivaled t));
  fetch "could not get edge has rival" (HasRival e) (fun b => Some (WHasRival b));
  fetch "could not get edge status" (EdgeStatusOf e) (fun st => Some (WStatus (StatusString st)));
  fetch "could not get edge has length one rival" (HasLengthOneRival e) (fun b => Some (WHasLengthOneRival b));
  fetch "could not get edge top level claim height" (TopLevelClaimHeight e) (fun l => Some (WClaimHeight l))
].

Definition convertSpecEdgeEdgeToEdge (e : Edge) : M W ApiEdge :=
  with_local (initial_edge e) (errgroup (edge_goroutines e)).

(** Every goroutine fills its slot of the slice; the callers go through the pointers. *)
Definition convert_slot (index : nat) (e : Edge) : M (W * list (option ApiEdge)) unit :=
  edge ← chain (convertSpecEdgeEdgeToEdge e);
  modify (fun s => (fst s, <[index := Some edge]> (snd s))).

Definition convertSpecEdgeEdgesToEdges (e : list Edge) : M W (list ApiEdge) :=
  edges ← with_local (replicate (length e) None) (errgroup (imap convert_slot e));
  lift (mapM deref edges).

(** ** Edge handlers *)

Definition listHonestEdgesHandler : HM unit :=
  or_error (honest ← ProvideHonestEdges; convertSpecEdgeEdgesToEdges honest) (fun e =>
  respond (JEdges (sort_by_creation e))).

Definition listEdgesHandler : HM unit :=
  or_error ProvideEdges (fun specEdges =>
  or_error (convertSpecEdgeEdgesToEdges specEdges) (fun e =>
  respond (JEdges (sort_by_creation e)))).

(** The map is iterated in the order of [map_to_list]; Go leaves it open. *)
Fixpoint convert_reasons (confirmable : list (string * list Edge)) (result : gmap string (list ApiEdge))
    : M W (gmap string (list ApiEdge)) :=
  match confirmable with
  | [] => mret result
  | (reason, specEdges) :: confirmable' =>
      edges ← convertSpecEdgeEdgesToEdges specEdges;
      convert_reasons confirmable' (<[reason := edges]> result)
  end.

Definition listHonestConfirmableEdgesHandler : HM unit :=
  or_error ProvideHonestConfirmableEdges (fun confirmableHonestEdges =>
  or_error (convert_reasons (map_to_list confirmableHonestEdges) ∅) (fun result =>
  respond (JEdgesByReason result))).

Definition listEvilConfirmedEdgesHandler : HM unit :=
  or_error ProvideEvilConfirmedEdges (fun confirmedEvilEdges =>
  or_error (convertSpecEdgeEdgesToEdges confirmedEvilEdges) (fun e =>
  respond (JEdges (sort_by_creation e)))).

Definition getEdgeHandler (edgeId : string) : HM unit :=
  or_error (ProvideEdge (HexToHash edgeId)) (fun specEdge =>
  or_error (convertSpecEdgeEdgeToEdge specEdge) (fun edge =>
  respond (JEdge edge))).

(** ** Stakes *)

Abbreviation StakeMap := (gmap Hash (gmap string StakeInfo)).

Definition new_stake_info (edge : ApiEdge) : StakeInfo := {|
  StakerAddresses := []; NumberOfMinistakes := 0;
  StartCommitmentHeight := CommitmentHeight (EdgeStartCommitment edge);
  EndCommitmentHeight := CommitmentHeight (EdgeEndCommitment edge) |}.

Definition push_stake (staker : Z) (info : StakeInfo) : StakeInfo := {|
  StakerAddresses := StakerAddresses info ++ [staker];
  NumberOfMinistakes := u64 (NumberOfMinistakes info + 1);
  StartCommitmentHeight := StartCommitmentHeight info;
  EndCommitmentHeight := EndCommitmentHeight info |}.

(** The body of the loop over the edges. *)
Definition add_stake (stakeInfoMap : StakeMap) (edge : ApiEdge) : StakeMap :=
  if EdgeMiniStaker edge =? 0 then stakeInfoMap
  else
    let perLevel := default ∅ (stakeInfoMap !! EdgeAssertion edge) in
    let info := default (new_stake_info edge) (perLevel !! EdgeType edge) in
    <[EdgeAssertion edge := <[EdgeType edge := push_stake (EdgeMiniStaker edge) info]> perLevel]> stakeInfoMap.

Definition ministakes_list (stakeInfoMap : StakeMap) : list Ministakes :=
  p ← map_to_list stakeInfoMap;
  (fun q => {| StakedAssertion := fst p; Level := fst q; Stakes := snd q |}) <$> map_to_list (snd p).

Definition listMiniStakesHandler : HM unit :=
  or_error ProvideEdges (fun specEdges =>
  or_error (convertSpecEdgeEdgesToEdges specEdges) (fun e =>
  respond (JMinistakes (ministakes_list (fold_left add_stake e ∅))))).

(** ** Assertions *)

Fixpoint read_assertions (ah : list AssertionHash) : M W (list (option ApiAssertion)) :=
  match ah with
  | [] => mret []
  | h :: ah' =>
      aci ← ReadAssertionCreationInfo h;
      resp ← read_assertions ah';
      mret (AssertionCreatedInfoToAssertion aci :: resp)
  end.

Definition listAssertionsHandler : HM unit :=
  or_error ProvideAssertionHashes (fun ah =>
  or_error (read_assertions ah) (fun resp =>
  respond (JAssertions resp))).

End api.
