(* ===== verification/ApiSpec.v ===== *)
(** * What the API reports

    The goroutines of a conversion give the same edge in every order; listings are
    sorted and complete; stakes are counted per assertion and level. *)

From stdpp Require Import sorting.
From S2P Require Import Prelude Bits PrefixProofs Containers InclusionProofs History Protocol Provider ChallengeTree Chain Api.

(** ** Calls whose answers are stable

    [reads R m]: running [m] moves the world along [R], and along [R] its answer stays
    the same: a remote call counts, logs and caches, but the chain it reads is one. *)

Definition reads {W A} (R : relation W) (m : M W A) : Prop :=
  keeps R m /\ forall w w', R w w' -> (m w').1 = (m w).1.

(** What an edge looks like in the world [w]: its calls in the order of the source. *)
Definition path_timer_read {W} `{ApiEnv W} (w : W) (ah : Hash) (e : Edge) : res Z :=
  match (ProvidePathTimer ah (Id e) w).1 with
  | Ok (t, _, _) => Ok t
  | Err err => if errors_is err ErrNoLowerChildYet then Ok 0 else Err err
  | Panic p => Panic p
  | NoFuel => NoFuel
  end.

Definition edge_read {W} `{ApiEnv W} (w : W) (e : Edge) : res ApiEdge :=
  hasChildren ← (HasChildren e w).1;
  lower ← (LowerChildOf e w).1;
  upper ← (UpperChildOf e w).1;
  ah ← (AssertionHashOf e w).1;
  timer ← path_timer_read w ah e;
  unrivaled ← (TimeUnrivaled e w).1;
  rival ← (HasRival e w).1;
  status ← (EdgeStatusOf e w).1;
  lengthOne ← (HasLengthOneRival e w).1;
  heights ← (TopLevelClaimHeight e w).1;
  Ok {| ID := Id e; EdgeType := LevelString (GetChallengeLevel e);
        EdgeStartCommitment := toCommitment (StartCommitment e);
        EdgeEndCommitment := toCommitment (EndCommitment e);
        EdgeCreatedAt := match CreatedAtBlock e with Ok b => b | _ => 0 end;
        MutualID := MutualId e; OriginID := OriginId e; ClaimID := default zero_hash (ClaimId e);
        EdgeHasChildren := hasChildren; LowerChildID := default zero_hash lower;
        UpperChildID := default zero_hash upper; EdgeMiniStaker := default 0 (MiniStaker e);
        EdgeAssertion := ah; EdgeTimeUnrivaled := unrivaled; EdgeHasRival := rival;
        EdgeStatusText := StatusString status; EdgeHasLengthOneRival := lengthOne;
        EdgeTopLevelClaimHeight := Some heights; CumulativePathTimer := timer |}.

Class ApiReads {W} `{ApiEnv W} (R : relation W) : Prop := {
  api_preorder :: PreOrder R;
  reads_HasChildren e : reads R (HasChildren e);
  reads_LowerChild e : reads R (LowerChildOf e);
  reads_UpperChild e : reads R (UpperChildOf e);
  reads_AssertionHash e : reads R (AssertionHashOf e);
  reads_PathTimer ah i : reads R (ProvidePathTimer ah i);
  reads_TimeUnrivaled e : reads R (TimeUnrivaled e);
  reads_HasRival e : reads R (HasRival e);
  reads_Status e : reads R (EdgeStatusOf e);
  reads_HasLengthOneRival e : reads R (HasLengthOneRival e);
  reads_ClaimHeight e : reads R (TopLevelClaimHeight e);
}.

(** ** Updates that commute

    Updates of different variables give the same value in every order. *)

Section updates.
Context {U K S : Type} (key : U -> K) (app : U -> S -> S).
Context (app_comm : forall u v s, key u <> key v -> app u (app v s) = app v (app u s)).

Definition apply_all (us : list U) (s : S) : S := fold_left (fun s u => app u s) us s.

Lemma apply_all_app us vs s : apply_all (us ++ vs) s = apply_all vs (apply_all us s).
Proof. apply fold_left_app. Qed.

Lemma apply_all_perm us vs s : us ≡ₚ vs -> NoDup (key <$> us) -> apply_all us s = apply_all vs s.
Proof.
  intros Hp. revert s. induction Hp as [|u us vs Hp IH|u v us|us vs ts Hp1 IH1 Hp2 IH2]; intros s Hnd.
  - done.
  - inv Hnd. cbn. by apply IH.
  - cbn in *. f_equal. apply app_comm. inv Hnd. set_solver.
  - rewrite IH1 by done. apply IH2. by rewrite <- Hp1.
Qed.

(** A goroutine started in [w] or later: it makes the given updates, or it fails. *)
Definition task_at {W} (R : relation W) (w : W) (t : M (W * S) unit) (o : option (list U)) : Prop :=
  forall w' s, R w w' -> R w' (t (w', s)).2.1 /\
    match o with
    | Some us => (t (w', s)).1 = Ok tt /\ (t (w', s)).2.2 = apply_all us s
    | None => (t (w', s)).1 <> Ok tt
    end.

Lemma mapM_id_cons {A} (o : option A) os :
  mapM id (o :: os) = match o with Some a => cons a <$> mapM id os | None => None end.
Proof. destruct o; [|done]. cbn. by destruct (mapM id os). Qed.

Lemma eg_wait_run {W} (R : relation W) `{!PreOrder R} w (ps : list (M (W * S) unit * option (list U))) :
  Forall (fun p => task_at R w p.1 p.2) ps -> forall first w' s, R w w' ->
  let '(r, (w'', s')) := eg_wait first ps.*1 (w', s) in
  R w' w'' /\ (r = Ok tt <-> first = None /\ is_Some (mapM id ps.*2)) /\
  forall uss, mapM id ps.*2 = Some uss -> s' = apply_all (mjoin uss) s.
Proof.
  induction 1 as [|[t o] ps Ht _ IH]; intros first w' s Hw; cbn -[mapM first_error].
  - destruct first as [e|]; cbn; (split; [done|]; split); [by split; [|intros [? _]]| |by split; [split; [|exists []]|]|];
      by intros uss [= <-].
  - destruct (Ht w' s Hw) as [Hw1 Ho]. unfold mbind, M_bind, attempt. cbn [fst snd] in *.
    destruct (t (w', s)) as [r [w1 s1]]. cbn in Hw1, Ho.
    assert (Hnone : o = None -> mapM id (o :: ps.*2) = None) by (intros ->; reflexivity).
    destruct r as [[]|e|p|].
    + destruct o as [us|]; [|done]. destruct Ho as [_ ->].
      replace (first_error first (inl tt)) with first by (by destruct first).
      specialize (IH first w1 (apply_all us s)). destruct (eg_wait first ps.*1 (w1, apply_all us s)) as [r [w2 s2]].
      destruct IH as (HR & Hr & Hs); [by etrans|]. split; [by etrans|].
      rewrite mapM_id_cons, fmap_is_Some. split; [done|]. intros uss (uss' & Hm & ->)%fmap_Some.
      cbn. rewrite apply_all_app. by apply Hs.
    + destruct o as [us|]; [by destruct Ho|]. rewrite Hnone by done.
      set (f := first_error first (inr e)).
      specialize (IH f w1 s1). destruct (eg_wait f ps.*1 (w1, s1)) as [r [w2 s2]].
      destruct IH as (HR & Hr & _); [by etrans|]. split; [by etrans|]. split; [|done]. rewrite Hr.
      assert (f <> None) by (subst f; by destruct first). split; [by intros []|]. intros [_ []%is_Some_None].
    + destruct o as [us|]; [by destruct Ho|]. rewrite Hnone by done. split_and!; [done| |done].
      split; [done|]. intros [_ []%is_Some_None].
    + destruct o as [us|]; [by destruct Ho|]. rewrite Hnone by done. split_and!; [done| |done].
      split; [done|]. intros [_ []%is_Some_None].
Qed.

Lemma mapM_id_perm {A} (os os' : list (option A)) as_ :
  os ≡ₚ os' -> mapM id os = Some as_ -> exists as', mapM id os' = Some as' /\ as_ ≡ₚ as'.
Proof.
  intros Hp Hm. apply mapM_Some in Hm.
  assert (os = Some <$> as_) as ->.
  { clear Hp. induction Hm as [|a o as_ os Ha _ IH]; [done|]. cbn in *. unfold id in Ha. by subst. }
  symmetry in Hp. apply Permutation_map_inv in Hp as (as' & -> & Hp). exists as'. split; [|done].
  apply mapM_Some. clear. induction as'; constructor; done.
Qed.

(** The group in any order: it succeeds exactly when every goroutine does, and then
    the variables have been written. *)
Lemma errgroup_run {W} `{Scheduler} (R : relation W) `{!PreOrder R} w (tasks : list (M (W * S) unit)) os s :
  Forall2 (task_at R w) tasks os ->
  (forall uss, mapM id os = Some uss -> NoDup (key <$> mjoin uss)) ->
  let '(r, (w', s')) := errgroup tasks (w, s) in
  R w w' /\ (r = Ok tt <-> is_Some (mapM id os)) /\
  forall uss, mapM id os = Some uss -> s' = apply_all (mjoin uss) s.
Proof.
  intros HF Hnd.
  assert (Hz : tasks = (zip tasks os).*1 /\ os = (zip tasks os).*2).
  { split; symmetry; [apply fst_zip|apply snd_zip]; apply Nat.eq_le_incl; [|symmetry]; by eapply Forall2_length. }
  destruct Hz as [Ht Hos].
  assert (HZ : Forall (fun p => task_at R w p.1 p.2) (zip tasks os)).
  { apply Forall_lookup_2. intros i [t o] Hi.
    apply lookup_zip_with_Some in Hi as (t' & o' & [= -> ->] & Hi1 & Hi2). cbn.
    by eapply Forall2_lookup_lr. }
  unfold errgroup. pose proof (order_perm _ tasks) as Hp. rewrite Ht in Hp at 2.
  apply Permutation_map_inv in Hp as (ps & Hps & Hp).
  assert (Hos' : os ≡ₚ ps.*2) by (rewrite Hos; by apply fmap_Permutation).
  rewrite Hps. rewrite Hp in HZ.
  pose proof (eg_wait_run R w ps HZ None w s (reflexivity w)) as Hrun.
  change (map fst ps) with ps.*1. destruct (eg_wait None ps.*1 (w, s)) as [r [w' s']]. destruct Hrun as (HR & Hr & Hs).
  split; [done|]. split.
  - rewrite Hr. split.
    + intros [_ [uss Hu]]. symmetry in Hos'. destruct (mapM_id_perm _ _ _ Hos' Hu) as (? & ? & _). by eexists.
    + intros [uss Hu]. destruct (mapM_id_perm _ _ _ Hos' Hu) as (? & ? & _). split; [done|by eexists].
  - intros uss Hu. destruct (mapM_id_perm _ _ _ Hos' Hu) as (uss' & Hu' & Hpu).
    rewrite (Hs _ Hu'). symmetry. apply apply_all_perm; [|by apply Hnd]. by rewrite Hpu.
Qed.

End updates.

(** ** Converting edges *)

Definition write_tag (f : EdgeWrite) : nat :=
  match f with
  | WHasChildren _ => 0 | WLowerChild _ => 1 | WUpperChild _ => 2 | WAssertion _ => 3 | WPathTimer _ => 4
  | WTimeUnrivaled _ => 5 | WHasRival _ => 6 | WStatus _ => 7 | WHasLengthOneRival _ => 8 | WClaimHeight _ => 9
  end.

Lemma write_field_comm f g e :
  write_tag f <> write_tag g -> write_field f (write_field g e) = write_field g (write_field f e).
Proof. destruct f, g; intros Ht; try done; by destruct Ht. Qed.

Abbreviation write_all := (apply_all write_field).

Section convert.
Context {W : Type} `{ApiEnv W} `{Scheduler} (R : relation W) `{!ApiReads R}.

Lemma chain_run {S A} (m : M W A) w (s : S) : chain m (w, s) = ((m w).1, ((m w).2, s)).
Proof. unfold chain. by destruct (m w). Qed.

(** What a goroutine of the conversion writes. *)
Definition fetch_outcome {A} (r : res A) (field : A -> option EdgeWrite) : option (list EdgeWrite) :=
  match r with Ok a => Some (option_list (field a)) | _ => None end.

Definition timer_outcome (w : W) (e : Edge) : option (list EdgeWrite) :=
  match (AssertionHashOf e w).1 with
  | Ok ah =>
      match (ProvidePathTimer ah (Id e) w).1 with
      | Ok (t, _, _) => Some [WAssertion ah; WPathTimer t]
      | Err err => if errors_is err ErrNoLowerChildYet then Some [WAssertion ah] else None
      | _ => None
      end
  | _ => None
  end.

Definition edge_outcomes (w : W) (e : Edge) : list (option (list EdgeWrite)) := [
  fetch_outcome (HasChildren e w).1 (fun b => Some (WHasChildren b));
  fetch_outcome (LowerChildOf e w).1 (fmap WLowerChild);
  fetch_outcome (UpperChildOf e w).1 (fmap WUpperChild);
  timer_outcome w e;
  fetch_outcome (TimeUnrivaled e w).1 (fun t => Some (WTimeUnrivaled t));
  fetch_outcome (HasRival e w).1 (fun b => Some (WHasRival b));
  fetch_outcome (EdgeStatusOf e w).1 (fun st => Some (WStatus (StatusString st)));
  fetch_outcome (HasLengthOneRival e w).1 (fun b => Some (WHasLengthOneRival b));
  fetch_outcome (TopLevelClaimHeight e w).1 (fun l => Some (WClaimHeight l))
].

Lemma fetch_task {A} msg (m : M W A) field w :
  reads R m -> task_at write_field R w (fetch msg m field) (fetch_outcome (m w).1 field).
Proof.
  intros [Hk Hs] w' s Hw. unfold fetch, fetch_outcome, wrapM, mbind, M_bind. rewrite chain_run, (Hs w w') by done.
  specialize (Hk w'). destruct (m w).1 as [a|err|p|]; cbn; [|done..].
  by destruct (field a).
Qed.

Lemma timer_task e w : task_at write_field R w (fetch_path_timer e) (timer_outcome w e).
Proof.
  intros w' s Hw. destruct (reads_AssertionHash (R:=R) e) as [Hk Hs]. specialize (Hk w').
  unfold fetch_path_timer, timer_outcome, wrapM, mbind, M_bind. rewrite chain_run, (Hs w w') by done.
  destruct (AssertionHashOf e w).1 as [ah|err|p|]; cbn; [|done..].
  destruct (reads_PathTimer (R:=R) ah (Id e)) as [Hk2 Hs2].
  set (w1 := (AssertionHashOf e w').2) in *. specialize (Hk2 w1).
  unfold attempt. rewrite chain_run, (Hs2 w w1) by (by etrans).
  destruct (ProvidePathTimer ah (Id e) w).1 as [[[t anc] loc]|err|p|]; cbn; try (by split; [etrans|]).
  destruct (errors_is err ErrNoLowerChildYet); by split; [etrans|].
Qed.

Lemma edge_tasks e w : Forall2 (task_at write_field R w) (edge_goroutines e) (edge_outcomes w e).
Proof.
  repeat (constructor; [first [apply timer_task | apply fetch_task; by destruct ApiReads0] | ]); constructor.
Qed.

(** The writes of all goroutines are to different variables, and make the edge read. *)
Lemma edge_outcomes_read w e :
  match mapM id (edge_outcomes w e) with
  | Some uss => NoDup (write_tag <$> mjoin uss) /\ edge_read w e = Ok (write_all (mjoin uss) (initial_edge e))
  | None => forall x, edge_read w e <> Ok x
  end.
Proof.
  unfold edge_read, path_timer_read, edge_outcomes, timer_outcome.
  destruct (HasChildren e w).1 as [hc| | |]; [|done..].
  destruct (LowerChildOf e w).1 as [lower| | |]; [|done..].
  destruct (UpperChildOf e w).1 as [upper| | |]; [|done..].
  destruct (AssertionHashOf e w).1 as [ah| | |]; [cbn|done..].
  destruct (ProvidePathTimer ah (Id e) w).1 as [[[t anc] loc]|err| |];
    [|destruct (errors_is err ErrNoLowerChildYet); [|done]|done..].
  all: destruct (TimeUnrivaled e w).1 as [tu| | |]; [|done..].
  all: destruct (HasRival e w).1 as [rv| | |]; [|done..].
  all: destruct (EdgeStatusOf e w).1 as [st| | |]; [|done..].
  all: destruct (HasLengthOneRival e w).1 as [lo| | |]; [|done..].
  all: destruct (TopLevelClaimHeight e w).1 as [hs| | |]; [|done..].
  all: destruct lower as [lo'|], upper as [up|]; cbn; (split; [|reflexivity]).
  all: by apply (bool_decide_unpack _).
Qed.

Lemma convert_edge_run e w :
  R w (convertSpecEdgeEdgeToEdge e w).2 /\
  forall x, (convertSpecEdgeEdgeToEdge e w).1 = Ok x <-> edge_read w e = Ok x.
Proof.
  unfold convertSpecEdgeEdgeToEdge, with_local. pose proof (edge_outcomes_read w e) as Hread.
  assert (Hnd : forall uss, mapM id (edge_outcomes w e) = Some uss -> NoDup (write_tag <$> mjoin uss)).
  { intros uss E. rewrite E in Hread. by destruct Hread. }
  pose proof (errgroup_run write_tag write_field write_field_comm R w (edge_goroutines e) (edge_outcomes w e)
    (initial_edge e) (edge_tasks e w) Hnd) as Hrun.
  destruct (errgroup _ _) as [r [w' s']]. destruct Hrun as (HR & Hr & Hs). split; [done|]. intros x. cbn.
  destruct (mapM id (edge_outcomes w e)) as [uss|] eqn:E.
  - destruct Hread as [_ ->]. rewrite (Hs uss) by done. rewrite (proj2 Hr) by by eexists. done.
  - split; [|by intros ?%Hread]. destruct r as [[]| | |]; [|done..]. by destruct (proj1 Hr eq_refl).
Qed.

Lemma edge_read_stable e w w' : R w w' -> edge_read w' e = edge_read w e.
Proof.
  intros Hw. unfold edge_read, path_timer_read. destruct ApiReads0.
  rewrite (proj2 (reads_HasChildren0 e) w w'), (proj2 (reads_LowerChild0 e) w w'), (proj2 (reads_UpperChild0 e) w w'),
    (proj2 (reads_AssertionHash0 e) w w'), (proj2 (reads_TimeUnrivaled0 e) w w'), (proj2 (reads_HasRival0 e) w w'),
    (proj2 (reads_Status0 e) w w'), (proj2 (reads_HasLengthOneRival0 e) w w'), (proj2 (reads_ClaimHeight0 e) w w')
    by done.
  repeat (case_match; [cbn|done..]).
  destruct (AssertionHashOf e w).1 as [ah| | |]; [cbn|by destruct (HasChildren e w).1, (LowerChildOf e w).1, (UpperChildOf e w).1..].
  by rewrite (proj2 (reads_PathTimer0 ah (Id e)) w w').
Qed.

(** *** Slices of edges *)

Definition slot_write (u : nat * ApiEdge) (s : list (option ApiEdge)) : list (option ApiEdge) := <[u.1 := Some u.2]> s.

Lemma slot_write_comm u v s : u.1 <> v.1 -> slot_write u (slot_write v s) = slot_write v (slot_write u s).
Proof. intros Hne. unfold slot_write. by apply list_insert_insert_ne. Qed.

Definition slot_outcome (w : W) (i : nat) (e : Edge) : option (list (nat * ApiEdge)) :=
  match edge_read w e with Ok x => Some [(i, x)] | _ => None end.

Lemma slot_task i e w : task_at slot_write R w (convert_slot i e) (slot_outcome w i e).
Proof.
  intros w' s Hw. unfold convert_slot, slot_outcome, mbind, M_bind. rewrite chain_run.
  destruct (convert_edge_run e w') as [HR Hok]. rewrite <- (edge_read_stable e w w') by done.
  destruct (convertSpecEdgeEdgeToEdge e w').1 as [x|err|p|] eqn:E.
  - by rewrite (proj1 (Hok x)).
  - split; [done|]. destruct (edge_read w' e) as [x| | |] eqn:Ex; try done. by specialize (proj2 (Hok x) eq_refl).
  - split; [done|]. destruct (edge_read w' e) as [x| | |] eqn:Ex; try done. by specialize (proj2 (Hok x) eq_refl).
  - split; [done|]. destruct (edge_read w' e) as [x| | |] eqn:Ex; try done. by specialize (proj2 (Hok x) eq_refl).
Qed.

Definition slots (n : nat) (xs : list ApiEdge) : list (list (nat * ApiEdge)) := imap (fun i x => [((n + i)%nat, x)]) xs.

Lemma slots_cons n x xs : slots n (x :: xs) = [(n, x)] :: slots (S n) xs.
Proof.
  unfold slots. cbn. rewrite Nat.add_0_r. f_equal. apply imap_ext. intros i y _. cbn. by rewrite Nat.add_succ_r.
Qed.

Lemma slots_keys n xs : fst <$> mjoin (slots n xs) = seq n (length xs).
Proof. revert n. induction xs as [|x xs IH]; intros n; [done|]. rewrite slots_cons. cbn. by rewrite IH. Qed.

Lemma slots_written xs : forall pre,
  apply_all slot_write (mjoin (slots (length pre) xs)) (pre ++ replicate (length xs) None) = pre ++ (Some <$> xs).
Proof.
  induction xs as [|x xs IH]; intros pre; [done|]. rewrite slots_cons. cbn.
  rewrite insert_app_r_alt, Nat.sub_diag by lia. cbn.
  specialize (IH (pre ++ [Some x])). rewrite length_app in IH. cbn in IH. rewrite Nat.add_1_r in IH.
  rewrite <- !(assoc_L (++)) in IH. exact IH.
Qed.

Lemma slots_outcomes w es : forall n,
  match mapM (edge_read w) es with
  | Ok xs => length xs = length es /\ mapM id (imap (fun i => slot_outcome w (n + i)) es) = Some (slots n xs)
  | _ => mapM id (imap (fun i => slot_outcome w (n + i)) es) = None
  end.
Proof.
  induction es as [|e es IH]; intros n; [done|]. rewrite imap_cons, Nat.add_0_r.
  assert (Hext : imap ((fun i => slot_outcome w (n + i)) ∘ S) es = imap (fun i => slot_outcome w (S n + i)) es).
  { apply imap_ext. intros i y _. cbn. by rewrite Nat.add_succ_r. }
  rewrite Hext, mapM_id_cons. clear Hext. specialize (IH (S n)). unfold slot_outcome at 1 3 5 7.
  change (mapM (edge_read w) (e :: es)) with (x ← edge_read w e; xs ← mapM (edge_read w) es; Ok (x :: xs)).
  destruct (edge_read w e) as [x| | |]; [|done..]. cbn [mbind res_bind].
  destruct (mapM (edge_read w) es) as [xs| | |]; [|by rewrite IH..].
  destruct IH as [Hl ->]. split; [by apply (f_equal S)|]. by rewrite slots_cons.
Qed.

Lemma mapM_deref (xs : list ApiEdge) : mapM deref (Some <$> xs) = Ok xs.
Proof. induction xs as [|x xs IH]; [done|]. cbn in *. by rewrite IH. Qed.

Lemma convert_edges_run es w :
  R w (convertSpecEdgeEdgesToEdges es w).2 /\
  forall xs, (convertSpecEdgeEdgesToEdges es w).1 = Ok xs <-> mapM (edge_read w) es = Ok xs.
Proof.
  unfold convertSpecEdgeEdgesToEdges, with_local, mbind, M_bind.
  assert (HF : Forall2 (task_at slot_write R w) (imap convert_slot es) (imap (slot_outcome w) es)).
  { apply Forall2_same_length_lookup_2; [by rewrite !length_imap|]. intros i t o Ht Ho.
    apply list_lookup_imap_Some in Ht as (e & He & ->), Ho as (e' & He' & ->). simplify_eq. apply slot_task. }
  pose proof (slots_outcomes w es 0) as Hout. cbn [Nat.add] in Hout.
  change (imap (fun i => slot_outcome w i) es) with (imap (slot_outcome w) es) in Hout.
  assert (Hnd : forall uss, mapM id (imap (slot_outcome w) es) = Some uss -> NoDup (fst <$> mjoin uss)).
  { intros uss E. rewrite E in Hout. destruct (mapM (edge_read w) es) as [xs| | |]; [|done..].
    destruct Hout as [_ [= ->]]. rewrite slots_keys. apply NoDup_seq. }
  pose proof (errgroup_run fst slot_write slot_write_comm R w _ _ (replicate (length es) None) HF Hnd) as Hrun.
  destruct (errgroup _ _) as [r [w' s']]. destruct Hrun as (HR & Hr & Hs).
  assert (Hok : forall xs, mapM (edge_read w) es = Ok xs -> r = Ok tt /\ s' = Some <$> xs).
  { intros xs Hxs. rewrite Hxs in Hout. destruct Hout as [Hl E]. split; [apply Hr; by eexists|].
    rewrite (Hs _ E), <- Hl. apply (slots_written xs []). }
  destruct r as [[]| | |]; cbn; (split; [done|]); intros xs.
  - destruct (proj1 Hr eq_refl) as [uss E]. rewrite E in Hout.
    destruct (mapM (edge_read w) es) as [ys| | |]; [|done..]. destruct (Hok ys eq_refl) as [_ ->]. by rewrite mapM_deref.
  - split; [done|]. by intros [? _]%Hok.
  - split; [done|]. by intros [? _]%Hok.
  - split; [done|]. by intros [? _]%Hok.
Qed.

(** The concurrent conversion of edges is the sequential one: whatever order the
    scheduler runs the goroutines in, the ones that convert the edges and the nine that
    fill each of them, the result is a list exactly when every call succeeds (a missing
    lower child apart), and then it holds, in the order of the input, the edges as the
    calls describe them one after the other. *)
Theorem convert_edges_any_order es w xs :
  (convertSpecEdgeEdgesToEdges es w).1 = Ok xs <-> mapM (edge_read w) es = Ok xs.
Proof. apply convert_edges_run. Qed.

End convert.

(** ** Responses *)

(** The first status sent and what has been written after it. *)
Definition answered (code : Z) (body : list Chunk) (r r' : ResponseWriter) : Prop :=
  StatusCode r' = Some (default code (StatusCode r)) /\ Body r' = Body r ++ body /\ WriteErr r' = WriteErr r.

Definition fresh_response : ResponseWriter :=
  {| ContentType := None; StatusCode := None; Body := []; WriteErr := None |}.

Section responses.
Context {W : Type}.

Lemma writeError_run code err (w : W) r : WriteErr r = None ->
  exists r', writeError code err (w, r) = (Ok tt, (w, r')) /\ answered code [Text (ErrorText err)] r r' /\
    ContentType r' = ContentType r.
Proof.
  intros E. unfold writeError, Write, WriteHeader, attempt, mbind, M_bind, modify, get, mret, M_ret. cbn. rewrite E.
  eexists. split; [done|]. cbn. split; [|done]. unfold answered. cbn. by rewrite E.
Qed.

Lemma respond_run data (w : W) r : WriteErr r = None ->
  exists r', respond data (w, r) = (Ok tt, (w, r')) /\ answered StatusOK [JSON data] r r' /\
    ContentType r' = Some "application/json".
Proof.
  intros E. unfold respond, writeJSONResponse, SetContentType, Write, WriteHeader, attempt, mbind, M_bind, modify, get,
    mret, M_ret. cbn. rewrite E.
  eexists. split; [done|]. cbn. split; [|done]. unfold answered. cbn. by rewrite E.
Qed.

(** A call whose error is reported. *)
Lemma or_error_run {A} (m : M W A) k w r :
  or_error m k (w, r) =
    match m w with
    | (Ok a, w') => k a (w', r)
    | (Err e, w') => writeError StatusInternalServerError e (w', r)
    | (Panic p, w') => (Panic p, (w', r))
    | (NoFuel, w') => (NoFuel, (w', r))
    end.
Proof. unfold or_error, mbind, M_bind, attempt, chain. by destruct (m w) as [[| | |] w']. Qed.

End responses.

Lemma sort_by_creation_spec xs : Sorted created_before (sort_by_creation xs) /\ sort_by_creation xs ≡ₚ xs.
Proof.
  assert (Total created_before) by (intros e e'; unfold created_before; lia).
  split; [by apply Sorted_merge_sort|apply merge_sort_Permutation].
Qed.

(** What a listing handler answers: the provider's edges, converted and sorted. *)
Definition lists_edges {W} `{ApiEnv W} `{Scheduler} (provider : M W (list Edge))
    (handler : M (W * ResponseWriter) unit) : Prop := forall w es w1,
  provider w = (Ok es, w1) ->
  match convertSpecEdgeEdgesToEdges es w1 with
  | (Ok xs, w2) => mapM (edge_read w1) es = Ok xs /\
      exists ys r', handler (w, fresh_response) = (Ok tt, (w2, r')) /\
        answered StatusOK [JSON (JEdges ys)] fresh_response r' /\ Sorted created_before ys /\ ys ≡ₚ xs
  | (Err e, w2) => exists r', handler (w, fresh_response) = (Ok tt, (w2, r')) /\
      answered StatusInternalServerError [Text (ErrorText e)] fresh_response r'
  | (Panic p, w2) => handler (w, fresh_response) = (Panic p, (w2, fresh_response))
  | (NoFuel, w2) => handler (w, fresh_response) = (NoFuel, (w2, fresh_response))
  end.

Section handlers.
Context {W : Type} `{ApiEnv W} `{Scheduler} (R : relation W) `{!ApiReads R}.

Lemma listing provider handler :
  (forall w es w1, provider w = (Ok es, w1) -> handler (w, fresh_response) =
     or_error (convertSpecEdgeEdgesToEdges es) (fun e => respond (JEdges (sort_by_creation e))) (w1, fresh_response)) ->
  lists_edges provider handler.
Proof.
  intros Hh w es w1 Hp. rewrite (Hh w es w1 Hp), or_error_run.
  pose proof (proj2 (convert_edges_run R es w1)) as Hc.
  destruct (convertSpecEdgeEdgesToEdges es w1) as [[xs|e|p|] w2]; [|by destruct (writeError_run StatusInternalServerError e w2 fresh_response) as (r' & ? & ? & _); [|exists r']|done..].
  split; [by apply Hc|]. destruct (respond_run (JEdges (sort_by_creation xs)) w2 fresh_response) as (r' & E & Ha & _); [done|].
  exists (sort_by_creation xs), r'. split; [done|]. split; [done|]. apply sort_by_creation_spec.
Qed.

(** The listings of edges: the handlers for all edges, for the honest ones and for
    the confirmed evil ones answer 200 with the provider's edges, each of them as its
    calls describe it, sorted by creation block, none lost and none twice; when a call
    fails they answer 500 with its error; and no other answer is written. *)
Theorem listings_correct :
  lists_edges ProvideEdges listEdgesHandler /\
  lists_edges ProvideHonestEdges listHonestEdgesHandler /\
  lists_edges ProvideEvilConfirmedEdges listEvilConfirmedEdgesHandler.
Proof.
  split_and!; apply listing; intros w es w1 Hp.
  - unfold listEdgesHandler. by rewrite or_error_run, Hp.
  - unfold listHonestEdgesHandler. rewrite !or_error_run. unfold mbind, M_bind. by rewrite Hp.
  - unfold listEvilConfirmedEdgesHandler. by rewrite or_error_run, Hp.
Qed.

End handlers.

(** ** Stakes *)

(** The edges with a stake on an assertion at a level. *)
Definition staked (a : Hash) (l : string) (xs : list ApiEdge) : list ApiEdge :=
  filter (fun e => EdgeMiniStaker e <> 0 /\ EdgeAssertion e = a /\ EdgeType e = l) xs.

(** The information a list of staked edges amounts to. *)
Definition stake_info (es : list ApiEdge) : option StakeInfo :=
  e ← head es;
  Some {| StakerAddresses := EdgeMiniStaker <$> es;
          NumberOfMinistakes := u64 (Z.of_nat (length es));
          StartCommitmentHeight := CommitmentHeight (EdgeStartCommitment e);
          EndCommitmentHeight := CommitmentHeight (EdgeEndCommitment e) |}.

Lemma stake_info_push es e :
  stake_info (es ++ [e]) = Some (push_stake (EdgeMiniStaker e) (default (new_stake_info e) (stake_info es))).
Proof.
  destruct es as [|e0 es]; [done|]. unfold stake_info, push_stake. cbn. do 2 f_equal.
  - by rewrite fmap_app.
  - rewrite length_app. cbn. unfold u64. rewrite Zplus_mod_idemp_l. f_equal. lia.
Qed.

Lemma add_stakes_lookup xs a l :
  (m ← fold_left add_stake xs ∅ !! a; (m : gmap string StakeInfo) !! l) = stake_info (staked a l xs) /\
  (forall m, fold_left add_stake xs ∅ !! a = Some m -> m <> ∅).
Proof.
  induction xs as [|e xs [IH IHne]] using rev_ind; [done|].
  rewrite fold_left_app. cbn. unfold staked. rewrite list.filter_app. fold (staked a l xs).
  unfold add_stake at 1 3. cbv zeta. destruct (EdgeMiniStaker e =? 0) eqn:Ez.
  - rewrite filter_cons_False, app_nil_r by lia. done.
  - split; [|intros m; destruct (decide (EdgeAssertion e = a)) as [<-|Ha];
      [rewrite lookup_insert_eq; intros [= <-]; apply insert_non_empty|by rewrite lookup_insert_ne; [apply IHne|]]].
    destruct (decide (EdgeAssertion e = a)) as [<-|Ha].
    + rewrite lookup_insert_eq. cbn [mbind option_bind]. destruct (decide (EdgeType e = l)) as [<-|Hl].
      * rewrite lookup_insert_eq, filter_cons_True by (split_and!; [lia|done..]).
        rewrite filter_nil, stake_info_push, <- IH. by destruct (_ !! EdgeAssertion e).
      * rewrite lookup_insert_ne, filter_cons_False, filter_nil, app_nil_r, <- IH by (done || by intros (_ & ? & ?)).
        by destruct (_ !! EdgeAssertion e).
    + rewrite lookup_insert_ne, filter_cons_False, filter_nil, app_nil_r by (done || by intros (_ & ? & ?)). done.
Qed.

Lemma ministakes_list_elem m x : x ∈ ministakes_list m <->
  exists per, m !! StakedAssertion x = Some per /\ per !! Level x = Some (Stakes x).
Proof.
  unfold ministakes_list. rewrite list_elem_of_bind. split.
  - intros ([a per] & ([l i] & -> & Hq)%list_elem_of_fmap & Hp). apply elem_of_map_to_list in Hp, Hq. by exists per.
  - intros (per & Ha & Hl). exists (StakedAssertion x, per). split; [|by apply elem_of_map_to_list].
    apply list_elem_of_fmap. exists (Level x, Stakes x). split; [by destruct x|by apply elem_of_map_to_list].
Qed.

Lemma ministakes_list_nodup m : NoDup (ministakes_list m).
Proof.
  apply NoDup_bind.
  - intros [a per] [a' per'] x Ha Ha' ([l i] & -> & _)%list_elem_of_fmap ([l' i'] & E & _)%list_elem_of_fmap.
    apply elem_of_map_to_list in Ha, Ha'. cbn in E. injection E as <- <- <-. congruence.
  - intros [a per] _. apply (NoDup_fmap_2_strong _); [|apply NoDup_map_to_list].
    intros [l i] [l' i'] _ _ E. cbn in E. by injection E as <- <-.
  - apply NoDup_map_to_list.
Qed.

(** The report of stakes: when the edges can be read the handler answers 200 with
    one entry for every assertion and level on which an edge has a staker and no other
    entry, none twice; the entry lists the stakers in the order of the edges, counts them
    and gives the heights of the first of these edges. *)
Theorem ministakes_correct {W} `{ApiEnv W} `{Scheduler} (R : relation W) `{!ApiReads R} es xs (w w1 : W) :
  ProvideEdges w = (Ok es, w1) -> mapM (edge_read w1) es = Ok xs ->
  exists out r' w2, listMiniStakesHandler (w, fresh_response) = (Ok tt, (w2, r')) /\
    answered StatusOK [JSON (JMinistakes out)] fresh_response r' /\ NoDup out /\
    forall a l info, {| StakedAssertion := a; Level := l; Stakes := info |} ∈ out <->
      stake_info (staked a l xs) = Some info.
Proof.
  intros Hp Hread. unfold listMiniStakesHandler. rewrite or_error_run, Hp. cbn. rewrite or_error_run.
  pose proof (proj2 (proj2 (convert_edges_run R es w1) xs) Hread) as Hc.
  destruct (convertSpecEdgeEdgesToEdges es w1) as [r w2]. cbn in Hc. subst r.
  set (out := ministakes_list (fold_left add_stake xs ∅)).
  destruct (respond_run (JMinistakes out) w2 fresh_response) as (r' & E & Ha & _); [done|].
  exists out, r', w2. split; [done|]. split; [done|]. split; [apply ministakes_list_nodup|].
  intros a l info. subst out. rewrite ministakes_list_elem. cbn. rewrite <- (proj1 (add_stakes_lookup xs a l)).
  rewrite bind_Some. done.
Qed.

(** ** An example *)

Module ToyApi.

(** Calls are counted, and answer the same whenever they are made. *)
Record world := { calls : Z; tables : gmap string (list DBEdge) }.

Definition counted {A} (a : A) : M world A :=
  modify (fun w => {| calls := calls w + 1; tables := tables w |}) ;; mret a.
Definition none {A} : M world A := fail (ErrNew "not implemented").

#[global] Instance toy_chain : ChainEnv world := {|
  HasRival _ := counted true; HasLengthOneRival _ := counted false; HasConfirmedRival _ := none;
  EdgeStatusOf _ := counted EdgePending; AssertionHashOf _ := counted 55; TopLevelClaimHeight _ := counted [7];
  LowerChildOf e := counted (if Id e =? 1 then Some 2 else None); UpperChildOf _ := counted None;
  GetTotalChallengeLevels _ := 3; BisectOnChain _ _ _ := none; ConfirmByTimer _ _ := none;
  ConfirmByClaim _ _ := none; ConfirmByChildren _ := none; SpecChallengeManager := none; GetEdge _ := none;
  ChallengePeriodBlocks := none; AddBlockChallengeLevelZeroEdge _ _ _ _ := none;
  AddSubChallengeLevelZeroEdge _ _ _ _ _ _ := none; ConfirmEdgeByOneStepProof _ _ _ _ := none;
  AssertionCreationInfo _ := none; IsChallengeComplete _ := none; ConfirmAssertionByChallengeWinner _ _ := none;
  LatestConfirmed := none; AssertionCreatedAtBlock _ := none; HeaderByNumber := none;
|}.

Definition edge (i created : Z) : Edge := {| Id := i; GetChallengeLevel := 0; GetReversedChallengeLevel := 2;
  StartCommitment := (0, 1); EndCommitment := (32, 2); CreatedAtBlock := Ok created; MutualId := 3; OriginId := 4;
  ClaimId := None |}.

Definition all_edges : list Edge := [edge 1 30; edge 2 10; edge 3 20].

(** Edges with odd ids are staked; the path timer of the others is not known yet.  Later
    there is an edge that cannot be read. *)
#[global] Instance toy_api : ApiEnv world := {|
  api_chain := toy_chain;
  MiniStaker e := if Z.odd (Id e) then Some (900 + Id e) else None;
  HasChildren e := counted (Id e =? 1);
  TimeUnrivaled e := if Id e <? 100 then counted 5 else fail (ErrNew "execution reverted");
  ProvideHonestEdges := counted [edge 1 30];
  ProvideEdges := w ← get; counted (if calls w <? 1000 then all_edges else [edge 200 40]);
  ProvideEdge i := counted (edge i 10);
  ProvideHonestConfirmableEdges := counted ∅;
  ProvideEvilConfirmedEdges := counted [];
  ProvidePathTimer _ i := if Z.odd i then counted (12, [], []) else fail ErrNoLowerChildYet;
  ReadAssertionCreationInfo _ := counted None;
  ProvideAssertionHashes := counted [];
  HexToHash _ := 1;
|}.

(** Goroutines in the reverse order. *)
#[global] Instance toy_scheduler : Scheduler := {| order A l := reverse l; order_perm A l := reverse_Permutation l |}.

Definition same_tables : relation world := fun w w' => tables w' = tables w.
#[global] Instance toy_reads : ApiReads same_tables.
Proof.
  assert (PreOrder same_tables) by (split; [done|]; intros w1 w2 w3; unfold same_tables; congruence).
  split; [done|..]; intros; try done; cbn; [by destruct (Z.odd i)|by destruct (Id e <? 100)].
Qed.

Definition w0 : world := {| calls := 0; tables := ∅ |}.
Definition w1 : world := {| calls := 1; tables := ∅ |}.

End ToyApi.

Lemma convert_edges_any_order_witness :
  exists x y, (convertSpecEdgeEdgesToEdges [ToyApi.edge 1 30; ToyApi.edge 2 10] ToyApi.w0).1 = Ok [x; y] /\
    LowerChildID x = 2 /\ CumulativePathTimer x = 12 /\ CumulativePathTimer y = 0.
Proof.
  eassert (E : mapM (edge_read ToyApi.w0) [ToyApi.edge 1 30; ToyApi.edge 2 10] = Ok _) by (vm_compute; reflexivity).
  rewrite (proj2 (convert_edges_any_order ToyApi.same_tables _ _ _) E). by eexists _, _.
Defined.

Lemma listings_correct_witness :
  exists ys r' w2, listEdgesHandler (ToyApi.w0, fresh_response) = (Ok tt, (w2, r')) /\
    Body r' = [JSON (JEdges ys)] /\ Sorted created_before ys.
Proof.
  destruct (listings_correct ToyApi.same_tables) as [Hl _].
  specialize (Hl ToyApi.w0 ToyApi.all_edges ToyApi.w1 eq_refl).
  eassert (E : convertSpecEdgeEdgesToEdges ToyApi.all_edges ToyApi.w1 = (Ok _, _)) by (vm_compute; reflexivity).
  rewrite E in Hl. destruct Hl as (_ & ys & r' & Hh & (_ & Hb & _) & Hs & _).
  eexists ys, r', _. split; [exact Hh|]. split; [exact Hb|exact Hs].
Defined.

Lemma ministakes_correct_witness :
  exists out r' w2, listMiniStakesHandler (ToyApi.w0, fresh_response) = (Ok tt, (w2, r')) /\
    Body r' = [JSON (JMinistakes out)] /\
    {| StakedAssertion := 55; Level := "block_challenge_edge";
       Stakes := {| StakerAddresses := [901; 903]; NumberOfMinistakes := 2; StartCommitmentHeight := 0;
                    EndCommitmentHeight := 32 |} |} ∈ out.
Proof.
  eassert (E : mapM (edge_read ToyApi.w1) ToyApi.all_edges = Ok _);
    [|destruct (@ministakes_correct _ ToyApi.toy_api _ ToyApi.same_tables _ ToyApi.all_edges _ ToyApi.w0 ToyApi.w1 eq_refl E) as (out & r' & w2 & Hh & (_ & Hb & _) & _ & Hm)].
  - vm_compute. reflexivity.
  - exists out, r', w2. split; [exact Hh|]. split; [exact Hb|]. apply Hm. vm_compute. reflexivity.
Defined.
