(* ===== verification/ApiDatabase.v ===== *)
(** * The API server and its database

    [api/method_database.go] and [api/server.go]: the versioned table of edges, its
    update loop and its queries; construction, routes, start and stop of the server.
    [os], [sqlx] and the HTTP listener are calls of a class. *)

From stdpp Require Import pretty.
From S2P Require Import Prelude Bits PrefixProofs Containers InclusionProofs History Protocol Provider ChallengeTree Chain Runtime Api ApiSpec.

(** ** Data *)

(** A pointer to a mutex: nil, or whether it is held. *)
Abbreviation Mutex := (option bool) (only parsing).

Record Database := {
  tableName : string;
  currentTableVersion : Z;
  updateInterval : Z;
  lastUpdated : Z;
  versionMutex : Mutex;
  updateMutex : Mutex;
}.

Definition with_version (v : Z) (d : Database) : Database := {|
  tableName := tableName d; currentTableVersion := v; updateInterval := updateInterval d;
  lastUpdated := lastUpdated d; versionMutex := versionMutex d; updateMutex := updateMutex d |}.
Definition with_updated (t : Z) (d : Database) : Database := {|
  tableName := tableName d; currentTableVersion := currentTableVersion d; updateInterval := updateInterval d;
  lastUpdated := t; versionMutex := versionMutex d; updateMutex := updateMutex d |}.
Definition with_update_mutex (m : Mutex) (d : Database) : Database := {|
  tableName := tableName d; currentTableVersion := currentTableVersion d; updateInterval := updateInterval d;
  lastUpdated := lastUpdated d; versionMutex := versionMutex d; updateMutex := m |}.

Class DBEnv (W : Type) := {
  db_api :: ApiEnv W;
  db_ctx :: Runtime.Context W;
  (* os *)
  Stat : string -> M W unit;
  Create : string -> M W unit;
  (* sqlx *)
  OpenDB : string -> M W unit;
  CloseDB : M W unit;
  CreateTable : string -> M W unit;
  InsertInto : string -> list DBEdge -> M W unit;
  DropTable : string -> M W unit;
  Select : string -> M W (list DBEdge);
  (* time.Now *)
  Now : W -> Z;
  (* a goroutine that calls Update *)
  GoUpdate : W -> W;
  (* http.Server *)
  ListenAndServe : string -> M W unit;
  Shutdown : M W unit;
}.

(** ** Rows *)

(** The bytes of an [n]-byte word, most significant first. *)
Fixpoint be_bytes (n : nat) (h : Z) : list Z :=
  match n with
  | O => []
  | S n' => be_bytes n' (h / 256) ++ [h mod 256]
  end.
Definition HashBytes (h : Hash) : list Z := be_bytes 32 h.
Definition AddressBytes (a : Z) : list Z := be_bytes 20 a.

Definition heightSliceToInt64Slice (i : list Z) : list Z := int64 <$> i.

(** The pointer to the origin heights is dereferenced. *)
Definition convertEdgeToDBEdge (edge : ApiEdge) : res DBEdge :=
  match EdgeTopLevelClaimHeight edge with
  | None => Panic NilDereference
  | Some heights => Ok {|
      DBID := HashBytes (ID edge);
      DBType := EdgeType edge;
      DBStartHash := HashBytes (CommitmentHash (EdgeStartCommitment edge));
      DBStartHeight := int64 (CommitmentHeight (EdgeStartCommitment edge));
      DBEndHash := HashBytes (CommitmentHash (EdgeEndCommitment edge));
      DBEndHeight := int64 (CommitmentHeight (EdgeEndCommitment edge));
      DBCreatedAtBlock := int64 (EdgeCreatedAt edge);
      DBMutualID := HashBytes (MutualID edge);
      DBOriginID := HashBytes (OriginID edge);
      DBClaimID := HashBytes (ClaimID edge);
      DBHasChildren := EdgeHasChildren edge;
      DBLowerChildID := HashBytes (LowerChildID edge);
      DBUpperChildID := HashBytes (UpperChildID edge);
      DBMiniStaker := AddressBytes (EdgeMiniStaker edge);
      DBAssertionHash := HashBytes (EdgeAssertion edge);
      DBTimeUnrivaled := int64 (EdgeTimeUnrivaled edge);
      DBHasRival := EdgeHasRival edge;
      DBStatus := EdgeStatusText edge;
      DBHasLengthOneRival := EdgeHasLengthOneRival edge;
      DBTopLevelClaimHeight := heightSliceToInt64Slice heights;
      DBCumulativePathTimer := int64 (CumulativePathTimer edge) |}
  end.

Definition convertEdgesToDBEdges (edges : list ApiEdge) : res (list DBEdge) := mapM convertEdgeToDBEdge edges.

(** [strconv.Itoa]. *)
Definition Itoa (n : Z) : string := pretty n.

Definition table_of (d : Database) (version : Z) : string := tableName d +:+ Itoa version.

(** Addition of [int]. *)
Definition int_add (x y : Z) : Z := int64 (u64 (x + y)).

(** [strings.Replace(s, old, new, 1)]: the first occurrence. *)
Fixpoint Replace1 (s old new : string) : string :=
  if String.prefix old s then new +:+ String.substring (String.length old) (String.length s) s
  else match s with
       | String.EmptyString => String.EmptyString
       | String.String c s' => String.String c (Replace1 s' old new)
       end.

Section database.
Context {W : Type} `{DBEnv W} `{Scheduler}.

Abbreviation DM := (M (W * Database)).

Definition NewDatabase (config : DBConfig) : M W Database :=
  found ← attempt (Stat (DBPath config));
  match found with
  | inl _ => mret tt
  | inr _ => Create (DBPath config)
  end ;;
  OpenDB (DBPath config) ;;
  mret {| tableName := TableName config; currentTableVersion := -1; updateInterval := DBUpdateInterval config;
          lastUpdated := 0; versionMutex := None; updateMutex := None |}.

(** ** Mutexes

    Locking through a nil pointer panics.  A goroutine that locks a mutex that is held
    waits: it has no outcome.  The version mutex is released before anything else runs,
    so that only the pointer matters. *)

Definition db : DM Database := s ← get; mret (snd s).
Definition set_db (f : Database -> Database) : DM unit := modify (fun s => (fst s, f (snd s))).

Definition version_lock : DM unit :=
  d ← db;
  match versionMutex d with
  | None => crash NilDereference
  | Some true => lift NoFuel
  | Some false => mret tt
  end.

Definition update_Lock : DM unit :=
  d ← db;
  match updateMutex d with
  | None => crash NilDereference
  | Some true => lift NoFuel
  | Some false => set_db (with_update_mutex (Some true))
  end.
Definition update_Unlock : DM unit := set_db (with_update_mutex (Some false)).
Definition update_TryLock : DM bool :=
  d ← db;
  match updateMutex d with
  | None => crash NilDereference
  | Some true => mret false
  | Some false => set_db (with_update_mutex (Some true)) ;; mret true
  end.

(** ** Updates *)

Definition insertEdges (specEdges : list Edge) (version : Z) : DM unit :=
  d ← db;
  chain (CreateTable (table_of d (int_add version 1))) ;;
  edges ← chain (convertSpecEdgeEdgesToEdges specEdges);
  rows ← lift (convertEdgesToDBEdges edges);
  chain (InsertInto (table_of d (int_add version 1)) rows) ;;
  version_lock ;;
  set_db (fun d => with_version (int_add (currentTableVersion d) 1) d) ;;
  s ← get;
  set_db (with_updated (Now (fst s))) ;;
  if 0 <=? version then chain (DropTable (table_of d version)) else mret tt.

Definition update_body : DM unit :=
  specEdges ← chain ProvideEdges;
  match specEdges with
  | [] => mret tt
  | _ =>
      version_lock ;;
      d ← db;
      insertEdges specEdges (currentTableVersion d)
  end.

(** The mutex is released on return. *)
Definition Update : DM unit :=
  update_Lock ;;
  got ← attempt update_body;
  update_Unlock ;;
  match got with inl _ => mret tt | inr err => fail err end.

(** The first [n] iterations of the loop, which does not end. *)
Fixpoint Start (n : nat) : DM unit :=
  match n with
  | O => mret tt
  | S n' =>
      _ ← attempt Update;
      d ← db;
      chain (modify (Sleep (updateInterval d))) ;;
      Start n'
  end.

(** The error is only logged. *)
Definition close : DM unit := _ ← attempt (chain CloseDB); mret tt.

End database.

(** ** The server *)

(** Whether the providers are set, besides the address and the database. *)
Record Config := {
  Address : string;
  EdgesProvider : bool;
  AssertionsProvider : bool;
  ConfigDB : option DBConfig;
}.

Definition ErrNoConfig : error := Sentinel "no config provided".
Definition ErrNoEdgesProvider : error := Sentinel "no edges provider".
Definition ErrNoAssertionsProvider : error := Sentinel "no assertions provider".
Definition ErrAlreadyRegisteredMethods : error := Sentinel "already registered methods".

Inductive Handler :=
| Healthz | ListAssertions | GetAssertionById | ListHonestEdges | ListEdges | GetEdgeById
| ListHonestConfirmableEdges | ListEvilConfirmedEdges | ListMiniStakes | QueryDatabase | UpdateDatabase.

Record Route := { Path : string; Method : string; RouteHandler : Handler }.

Record Server := {
  Addr : string;
  database : option Database;
  router : list Route;
  registered : bool;
}.

Definition route (path : string) (h : Handler) (method : string) : Route :=
  {| Path := path; Method := method; RouteHandler := h |}.

Definition registerMethods (s : Server) : res Server :=
  if registered s then Err ErrAlreadyRegisteredMethods
  else Ok {|
    Addr := Addr s; database := database s;
    router := router s ++ [
      route "/healthz" Healthz "GET";
      route "/assertions" ListAssertions "GET";
      route "/assertions/{id}" GetAssertionById "GET";
      route "/honest-edges" ListHonestEdges "GET";
      route "/edges" ListEdges "GET";
      route "/edges/{id}" GetEdgeById "GET";
      route "/honest-confirmable-edges" ListHonestConfirmableEdges "GET";
      route "/evil-confirmed-edges" ListEvilConfirmedEdges "GET";
      route "/mini-stakes" ListMiniStakes "GET" ] ++
      match database s with
      | None => []
      | Some _ => [route "/query-database/{query}" QueryDatabase "GET"; route "/update-database" UpdateDatabase "PUT"]
      end;
    registered := true |}.

Section server.
Context {W : Type} `{DBEnv W} `{Scheduler}.

Definition NewServer (cfg : option Config) : M W Server :=
  match cfg with
  | None => fail ErrNoConfig
  | Some cfg =>
      let addr := if bool_decide (Address cfg = "") then ":8080" else Address cfg in
      if negb (EdgesProvider cfg) then fail ErrNoEdgesProvider
      else if negb (AssertionsProvider cfg) then fail ErrNoAssertionsProvider
      else
        database ← match ConfigDB cfg with
                   | Some c => if Enable c then d ← NewDatabase c; mret (Some d) else mret None
                   | None => mret None
                   end;
        lift (registerMethods {| Addr := addr; database := database; router := []; registered := false |})
  end.

Abbreviation SM := (M (W * Server)).

Definition server : SM Server := s ← get; mret (snd s).

(** A method of [s.database]; every one of them goes through the pointer. *)
Definition on_database {A} (m : M (W * Database) A) : SM A := fun '(w, s) =>
  match database s with
  | None => (Panic NilDereference, (w, s))
  | Some d =>
      let '(r, (w', d')) := m (w, d) in
      (r, (w', {| Addr := Addr s; database := Some d'; router := router s; registered := registered s |}))
  end.

(** The update loop is a goroutine that runs next to the listener; here its first [n] iterations
    come first.  A panic in it ends the process. *)
Definition ServerStart (n : nat) : SM unit :=
  on_database (Start n) ;;
  s ← server;
  chain (ListenAndServe (Addr s)).

Definition ServerStop : SM unit :=
  on_database close ;;
  chain Shutdown.

(** ** Database handlers *)

Abbreviation HM := (M (W * Server * ResponseWriter)).

Definition queryDatabaseHandler (query : string) : HM unit :=
  chain (on_database version_lock) ;;
  if bool_decide (query = "") then writeError StatusBadRequest (ErrNew "no query provided")
  else
    d ← chain (on_database db);
    if currentTableVersion d =? -1 then writeError StatusInternalServerError (ErrNew "database not ready")
    else
      let finalQuery := Replace1 query "TABLE" (table_of d (currentTableVersion d)) in
      or_error (chain (Select finalQuery)) (fun result =>
      respond (JDBResponse result (lastUpdated d))).

(** The goroutine calls [Update], which locks the mutex that was just locked. *)
Definition updateDatabaseHandler : HM unit :=
  '(locked : bool) ← chain (on_database update_TryLock);
  (if locked then chain (chain (modify GoUpdate)) else mret tt) ;;
  WriteHeader StatusOK.

(** The handler of a route, on the variables of the request. *)
Definition serve (h : Handler) (vars : string) : HM unit :=
  let on_world (m : M (W * ResponseWriter) unit) : HM unit := fun '(w, s, r) =>
    let '(x, (w', r')) := m (w, r) in (x, (w', s, r')) in
  match h with
  | Healthz => healthzHandler
  | ListAssertions => on_world listAssertionsHandler
  | GetAssertionById => getAssertionHandler
  | ListHonestEdges => on_world listHonestEdgesHandler
  | ListEdges => on_world listEdgesHandler
  | GetEdgeById => on_world (getEdgeHandler vars)
  | ListHonestConfirmableEdges => on_world listHonestConfirmableEdgesHandler
  | ListEvilConfirmedEdges => on_world listEvilConfirmedEdgesHandler
  | ListMiniStakes => on_world listMiniStakesHandler
  | QueryDatabase => queryDatabaseHandler vars
  | UpdateDatabase => updateDatabaseHandler
  end.

End server.
