(* ===== verification/ApiDatabaseSpec.v ===== *)
(** * What the API server and its database do

    A row determines its edge; the current table exists whatever fails; what stops the
    database from being updated; a server cannot be started. *)

From stdpp Require Import pretty.
From S2P Require Import Prelude Bits PrefixProofs Containers InclusionProofs History Protocol Provider ChallengeTree Chain Runtime Api ApiSpec ApiDatabase.

(** ** Rows *)

Lemma be_bytes_inj n : forall x y, 0 <= x < 256 ^ Z.of_nat n -> 0 <= y < 256 ^ Z.of_nat n ->
  be_bytes n x = be_bytes n y -> x = y.
Proof.
  induction n as [|n IH]; intros x y Hx Hy E; [cbn in *; lia|].
  cbn [be_bytes] in E. apply app_inj_tail in E as [E1 E2].
  rewrite Nat2Z.inj_succ, Z.pow_succ_r in Hx, Hy by lia.
  assert (x / 256 = y / 256).
  { apply IH; [..|done]; (split; [apply Z.div_pos; lia|apply Z.div_lt_upper_bound; lia]). }
  rewrite (Z.div_mod x 256), (Z.div_mod y 256) by lia. congruence.
Qed.

Lemma int64_inj x y : is_u64 x -> is_u64 y -> int64 x = int64 y -> x = y.
Proof. unfold is_u64, int64, two64. repeat case_match; lia. Qed.

Lemma int64_list_inj xs ys : Forall is_u64 xs -> Forall is_u64 ys ->
  heightSliceToInt64Slice xs = heightSliceToInt64Slice ys -> xs = ys.
Proof.
  intros Hx. revert ys. induction Hx as [|x xs Hx _ IH]; intros ys Hy E; destruct ys as [|y ys]; [done|discriminate E|discriminate E|].
  unfold heightSliceToInt64Slice in *. cbn in E. injection E as E1 E2. apply Forall_cons_iff in Hy as [Hy1 Hy2]. f_equal; [by apply int64_inj|by apply IH].
Qed.

Definition is_hash (h : Hash) : Prop := 0 <= h < 256 ^ 32.
Definition is_address (a : Z) : Prop := 0 <= a < 256 ^ 20.
Definition is_commitment (c : Commitment) : Prop := is_u64 (CommitmentHeight c) /\ is_hash (CommitmentHash c).

(** The types of the fields of an edge. *)
Record edge_typed (e : ApiEdge) : Prop := {
  typed_hashes : Forall is_hash [ID e; MutualID e; OriginID e; ClaimID e; LowerChildID e; UpperChildID e; EdgeAssertion e];
  typed_words : Forall is_u64 [EdgeCreatedAt e; EdgeTimeUnrivaled e; CumulativePathTimer e];
  typed_staker : is_address (EdgeMiniStaker e);
  typed_start : is_commitment (EdgeStartCommitment e);
  typed_end : is_commitment (EdgeEndCommitment e);
  typed_heights : Forall is_u64 (default [] (EdgeTopLevelClaimHeight e));
}.

Lemma HashBytes_inj h h' : is_hash h -> is_hash h' -> HashBytes h = HashBytes h' -> h = h'.
Proof. apply (be_bytes_inj 32). Qed.

Lemma AddressBytes_inj a a' : is_address a -> is_address a' -> AddressBytes a = AddressBytes a' -> a = a'.
Proof. apply (be_bytes_inj 20). Qed.

Lemma commitment_eq c c' : is_commitment c -> is_commitment c' ->
  int64 (CommitmentHeight c) = int64 (CommitmentHeight c') ->
  HashBytes (CommitmentHash c) = HashBytes (CommitmentHash c') -> c = c'.
Proof.
  intros [Hh Hr] [Hh' Hr'] E1 E2. destruct c, c'. cbn in *.
  f_equal; [by apply int64_inj|by apply HashBytes_inj].
Qed.

Lemma edge_ext e e' :
  ID e = ID e' -> EdgeType e = EdgeType e' -> EdgeStartCommitment e = EdgeStartCommitment e' ->
  EdgeEndCommitment e = EdgeEndCommitment e' -> EdgeCreatedAt e = EdgeCreatedAt e' -> MutualID e = MutualID e'
  -> OriginID e = OriginID e' -> ClaimID e = ClaimID e' -> EdgeHasChildren e = EdgeHasChildren e' ->
  LowerChildID e = LowerChildID e' -> UpperChildID e = UpperChildID e' -> EdgeMiniStaker e = EdgeMiniStaker e'
  -> EdgeAssertion e = EdgeAssertion e' -> EdgeTimeUnrivaled e = EdgeTimeUnrivaled e' -> EdgeHasRival e =
  EdgeHasRival e' -> EdgeStatusText e = EdgeStatusText e' -> EdgeHasLengthOneRival e = EdgeHasLengthOneRival
  e' -> EdgeTopLevelClaimHeight e = EdgeTopLevelClaimHeight e' -> CumulativePathTimer e = CumulativePathTimer
  e' -> e = e'.
Proof. destruct e, e'. cbn. intros; subst. reflexivity. Qed.

(** Equal rows, field by field. *)
Lemma row_fields (r r' : DBEdge) : Ok r = Ok r' ->
  DBID r = DBID r' /\ DBType r = DBType r' /\ DBStartHash r = DBStartHash r' /\ DBStartHeight r =
  DBStartHeight r' /\ DBEndHash r = DBEndHash r' /\ DBEndHeight r = DBEndHeight r' /\ DBCreatedAtBlock r =
  DBCreatedAtBlock r' /\ DBMutualID r = DBMutualID r' /\ DBOriginID r = DBOriginID r' /\ DBClaimID r =
  DBClaimID r' /\ DBHasChildren r = DBHasChildren r' /\ DBLowerChildID r = DBLowerChildID r' /\ DBUpperChildID
  r = DBUpperChildID r' /\ DBMiniStaker r = DBMiniStaker r' /\ DBAssertionHash r = DBAssertionHash r' /\
  DBTimeUnrivaled r = DBTimeUnrivaled r' /\ DBHasRival r = DBHasRival r' /\ DBStatus r = DBStatus r' /\
  DBHasLengthOneRival r = DBHasLengthOneRival r' /\ DBTopLevelClaimHeight r = DBTopLevelClaimHeight r' /\
  DBCumulativePathTimer r = DBCumulativePathTimer r'.
Proof. by intros [= ->]. Qed.

(** A row of the database determines the edge it was made from: heights, blocks
    and timers of 64 bits survive the conversion to signed integers, the large ones as
    negative numbers, and hashes and addresses are stored byte by byte. *)
Theorem convertEdgeToDBEdge_injective e e' row :
  edge_typed e -> edge_typed e' ->
  convertEdgeToDBEdge e = Ok row -> convertEdgeToDBEdge e' = Ok row -> e = e'.
Proof.
  intros T T' E E'. unfold convertEdgeToDBEdge in E, E'.
  destruct T as [Th Tw Ts Tst Te Tl], T' as [Th' Tw' Ts' Tst' Te' Tl'].
  do 7 (apply Forall_cons_iff in Th as [? Th]; apply Forall_cons_iff in Th' as [? Th']).
  do 3 (apply Forall_cons_iff in Tw as [? Tw]; apply Forall_cons_iff in Tw' as [? Tw']).
  destruct (EdgeTopLevelClaimHeight e) as [l|] eqn:El; [|discriminate E].
  destruct (EdgeTopLevelClaimHeight e') as [l'|] eqn:El'; [|discriminate E'].
  cbn in Tl, Tl'. rewrite <- E' in E. clear E'. revert E. intros (E1 & E2 & E3 & E4 & E5 & E6 & E7 & E8 & E9 & E10 & E11 & E12 & E13 & E14 & E15 & E16 & E17 &
    E18 & E19 & E20 & E21)%row_fields.
  cbn [DBID DBType DBStartHash DBStartHeight DBEndHash DBEndHeight DBCreatedAtBlock DBMutualID DBOriginID DBClaimID
    DBHasChildren DBLowerChildID DBUpperChildID DBMiniStaker DBAssertionHash DBTimeUnrivaled DBHasRival DBStatus
    DBHasLengthOneRival DBTopLevelClaimHeight DBCumulativePathTimer] in *.
  apply int64_list_inj in E20; [|assumption..]. apply int64_inj in E7, E16, E21; try assumption.
  apply HashBytes_inj in E1, E8, E9, E10, E12, E13, E15; try assumption. apply AddressBytes_inj in E14; try assumption.
  pose proof (commitment_eq _ _ Tst Tst' E4 E3) as Hst. pose proof (commitment_eq _ _ Te Te' E6 E5) as Hen.
  apply edge_ext; try assumption. by rewrite El, El', E20.
Qed.

Definition toy_api_edge (created : Z) : ApiEdge := {|
  ID := 1; EdgeType := "block_challenge_edge"; EdgeStartCommitment := {| CommitmentHeight := 0; CommitmentHash := 5 |};
  EdgeEndCommitment := {| CommitmentHeight := 32; CommitmentHash := 6 |}; EdgeCreatedAt := created; MutualID := 2;
  OriginID := 3; ClaimID := 0; EdgeHasChildren := false; LowerChildID := 0; UpperChildID := 0; EdgeMiniStaker := 9;
  EdgeAssertion := 4; EdgeTimeUnrivaled := 0; EdgeHasRival := false; EdgeStatusText := "pending";
  EdgeHasLengthOneRival := false; EdgeTopLevelClaimHeight := Some [7]; CumulativePathTimer := 0 |}.

Lemma convertEdgeToDBEdge_injective_witness :
  exists row, convertEdgeToDBEdge (toy_api_edge (two64 - 1)) = Ok row /\ DBCreatedAtBlock row = -1 /\
    forall created, is_u64 created -> convertEdgeToDBEdge (toy_api_edge created) = Ok row -> created = two64 - 1.
Proof.
  eexists. split; [reflexivity|]. split; [reflexivity|]. intros created Hc E.
  assert (Ht : forall c, is_u64 c -> edge_typed (toy_api_edge c)).
  { intros c Hu. split; cbn; unfold is_hash, is_address, is_commitment, is_u64, two64, is_hash in *; cbn;
      repeat (constructor; [lia|]); try constructor; lia. }
  assert (toy_api_edge created = toy_api_edge (two64 - 1)) as [= ->]; [|done].
  refine (convertEdgeToDBEdge_injective _ _ _ _ _ E _); [by apply Ht|by apply Ht; unfold is_u64, two64|reflexivity].
Defined.

(** ** Starting a server *)

Section starting.
Context {W : Type} `{DBEnv W} `{Scheduler}.

Lemma NewDatabase_mutexes c (w : W) d w' :
  NewDatabase c w = (Ok d, w') -> updateMutex d = None /\ versionMutex d = None.
Proof.
  unfold NewDatabase, mbind, M_bind. intros E.
  repeat match type of E with context [match ?x with _ => _ end] => destruct x; try discriminate E end.
  all: by injection E as <- _.
Qed.

Lemma NewServer_database cfg (w : W) s w' :
  NewServer cfg w = (Ok s, w') ->
  registered s = true /\ forall d, database s = Some d -> updateMutex d = None /\ versionMutex d = None.
Proof.
  destruct cfg as [cfg|]; [|done]. unfold NewServer. cbv zeta.
  destruct (EdgesProvider cfg), (AssertionsProvider cfg); try done. cbn [negb].
  unfold mbind, M_bind. destruct (ConfigDB cfg) as [c|]; [destruct (Enable c)|].
  - destruct (NewDatabase c w) as [[d| | |] w1] eqn:E; try done. intros [= <- <-]. split; [done|].
    intros d' [= <-]. by eapply NewDatabase_mutexes.
  - by intros [= <- <-].
  - by intros [= <- <-].
Qed.

(** A database whose mutexes are nil. *)
Lemma nil_mutex_Update (w : W) d : updateMutex d = None -> Update (w, d) = (Panic NilDereference, (w, d)).
Proof. intros E. unfold Update, update_Lock, db, mbind, M_bind, get, mret, M_ret. cbn. by rewrite E. Qed.

(** (C40) No server can run: whatever the configuration, the update loop that the start of a server
    returned by [NewServer] launches panics in its first iteration, through the nil database when none is
    configured and through the nil mutex of the database otherwise, and an unrecovered panic of a
    goroutine ends the process; the two database handlers panic on every request; and without a
    database stopping the server panics as well. *)
Theorem NewServer_cannot_start cfg (w : W) s w' :
  NewServer cfg w = (Ok s, w') ->
  (forall n w1, (on_database (Start (S n)) (w1, s)).1 = Panic NilDereference /\
     (ServerStart (S n) (w1, s)).1 = Panic NilDereference) /\
  (forall query w1 r, (queryDatabaseHandler query (w1, s, r)).1 = Panic NilDereference) /\
  (forall w1 r, (updateDatabaseHandler (w1, s, r)).1 = Panic NilDereference) /\
  (database s = None -> forall w1, (ServerStop (w1, s)).1 = Panic NilDereference).
Proof.
  intros [_ Hd]%NewServer_database. destruct (database s) as [d|] eqn:Ed.
  - destruct (Hd d eq_refl) as [Hu Hv]. split; [|split_and!; [..|done]]; intros.
    + split; unfold ServerStart, mbind, M_bind, on_database; rewrite Ed; cbn [Start];
      unfold attempt at 1, mbind, M_bind; by rewrite nil_mutex_Update.
    + unfold queryDatabaseHandler, mbind, M_bind, chain, on_database. rewrite Ed.
      unfold version_lock, db, mbind, M_bind, get, mret, M_ret. cbn. by rewrite Hv.
    + unfold updateDatabaseHandler, mbind, M_bind, chain, on_database. rewrite Ed.
      unfold update_TryLock, db, mbind, M_bind, get, mret, M_ret. cbn. by rewrite Hu.
  - split; [intros; split|split_and!; intros]; unfold ServerStart, queryDatabaseHandler, updateDatabaseHandler, ServerStop, mbind, M_bind,
      chain, on_database; by rewrite Ed.
Qed.

(** The routes are registered once, and those of the database only with one. *)
Lemma registerMethods_once s s' : registerMethods s = Ok s' ->
  registerMethods s' = Err ErrAlreadyRegisteredMethods /\
  (router s = [] -> NoDup (Path <$> router s') /\
     (Exists (fun r => RouteHandler r = QueryDatabase) (router s') <-> is_Some (database s))).
Proof.
  unfold registerMethods. destruct (registered s); [done|]. intros [= <-]. split; [done|]. cbn. intros ->. cbn.
  destruct (database s); cbn; (split; [by apply (bool_decide_unpack _)|]).
  - split; [done|]. intros _. by do 9 right; left.
  - split; [|by intros []%is_Some_None]. rewrite !Exists_cons, Exists_nil.
    intros Hex. by repeat (destruct Hex as [Hex|Hex]; [done|]).
Qed.

End starting.

(** ** Updates

    What the SQL statements do to the tables: creating a table that exists and
    inserting into or dropping one that does not are errors, and a statement that
    fails changes nothing.  Reading edges does not touch the tables. *)

Class SqlLaws {W} `{DBEnv W} (tables : W -> gmap string (list DBEdge)) (R : relation W) : Prop := {
  sql_reads :: ApiReads R;
  reads_tables w w' : R w w' -> tables w' = tables w;
  provider_tables w : tables (ProvideEdges w).2 = tables w;
  sleep_tables d w : tables (Sleep d w) = tables w;
  sql_create t w : match tables w !! t, CreateTable t w with
    | None, (Ok _, w') => tables w' = <[t := []]> (tables w)
    | Some _, (Ok _, _) => False
    | _, (_, w') => tables w' = tables w
    end;
  sql_insert t rows w : match tables w !! t, InsertInto t rows w with
    | Some old, (Ok _, w') => tables w' = <[t := old ++ rows]> (tables w)
    | None, (Ok _, _) => False
    | _, (_, w') => tables w' = tables w
    end;
  sql_drop t w : match tables w !! t, DropTable t w with
    | Some _, (Ok _, w') => tables w' = delete t (tables w)
    | None, (Ok _, _) => False
    | _, (_, w') => tables w' = tables w
    end;
}.

Lemma table_of_inj d v v' : table_of d v = table_of d v' -> v = v'.
Proof. unfold table_of, Itoa. intros E%(inj (String.append _)). by apply (inj pretty) in E. Qed.

Lemma int_add_small x y : - 2 ^ 63 <= x + y < 2 ^ 63 -> int_add x y = x + y.
Proof.
  intros Hr. unfold int_add, int64, u64, two64. destruct (decide (0 <= x + y)).
  - rewrite Z.mod_small by lia. case_match; lia.
  - replace (x + y) with (x + y + 18446744073709551616 + -1 * 18446744073709551616) by lia.
    rewrite Z.mod_add, Z.mod_small by lia. case_match; lia.
Qed.

Section updating.
Context {W : Type} `{DBEnv W} `{Scheduler} (tables : W -> gmap string (list DBEdge)) (R : relation W) `{!SqlLaws tables R}.

(** A database with its mutexes, at a version that can grow. *)
Definition usable (d : Database) : Prop :=
  versionMutex d = Some false /\ updateMutex d = Some false /\ -1 <= currentTableVersion d < 2 ^ 63 - 1.

Definition current_table (w : W) (d : Database) : option (list DBEdge) :=
  tables w !! table_of d (currentTableVersion d).

(** An insertion that stops before the version moves, and one that moves it. *)
Definition insert_fails (w : W) (d : Database) (w' : W) : Prop :=
  forall t, t <> table_of d (currentTableVersion d + 1) -> tables w' !! t = tables w !! t.

Definition insert_moves (es : list Edge) (w : W) (d : Database) (w' : W) (d' : Database) : Prop :=
  let w1 := (CreateTable (table_of d (currentTableVersion d + 1)) w).2 in
  exists now xs rows, d' = with_updated now (with_version (currentTableVersion d + 1) d) /\
    mapM (edge_read w1) es = Ok xs /\ convertEdgesToDBEdges xs = Ok rows /\ current_table w' d' = Some rows.

Lemma insertEdges_run es w d :
  versionMutex d = Some false -> -1 <= currentTableVersion d < 2 ^ 63 - 1 ->
  let '(r, (w', d')) := insertEdges es (currentTableVersion d) (w, d) in
  (r <> Ok tt /\ d' = d /\ insert_fails w d w') \/
  (insert_moves es w d w' d' /\
   (r = Ok tt -> 0 <= currentTableVersion d -> tables w' !! table_of d (currentTableVersion d) = None)).
Proof.
  intros Hv Hb. set (v := currentTableVersion d) in *. set (new := table_of d (v + 1)).
  unfold insertEdges, db, mbind, M_bind, get, mret, M_ret. cbn [snd]. rewrite int_add_small by lia. fold new.
  rewrite chain_run. pose proof (sql_create new w) as HC.
  destruct (CreateTable new w) as [[[]| | |] w1] eqn:Ecr; cbn [fst snd];
    [|by left; split; [|split; [|intros t _; destruct (tables w !! new); by rewrite HC]]..].
  destruct (tables w !! new) eqn:En; [done|].
  rewrite chain_run. destruct (convert_edges_run R es w1) as [HR Hconv].
  destruct (convertSpecEdgeEdgesToEdges es w1) as [r w2]. cbn [fst snd] in *. apply reads_tables in HR.
  assert (Hkeep : insert_fails w d w2).
  { intros t Ht. rewrite HR, HC. by rewrite lookup_insert_ne. }
  destruct r as [xs| | |]; cbn [fst snd]; [|by left..]. unfold lift.
  destruct (convertEdgesToDBEdges xs) as [rows| | |] eqn:Er; [|by left..].
  rewrite chain_run. pose proof (sql_insert new rows w2) as HI. rewrite HR, HC, lookup_insert_eq in HI.
  destruct (InsertInto new rows w2) as [[[]| | |] w3]; cbn [fst snd];
    [|by left; split; [|split; [|intros t Ht; rewrite HI; by rewrite lookup_insert_ne]]..].
  unfold version_lock, db, set_db, modify, mbind, M_bind, get, mret, M_ret. cbn [fst snd]. rewrite Hv.
  cbn [fst snd]. fold v. rewrite int_add_small by lia. set (d' := with_updated _ _).
  assert (Hnew : forall w', tables w' !! new = Some rows -> insert_moves es w d w' d').
  { intros w' E. exists (Now w3), xs, rows. fold v new. rewrite Ecr. split_and!; [done|by apply Hconv|done|exact E]. }
  assert (E3 : tables w3 !! new = Some rows) by (rewrite HI; by rewrite lookup_insert_eq).
  destruct (0 <=? v) eqn:Ev; [|right; split; [by apply Hnew|lia]]. apply Z.leb_le in Ev.
  assert (Hne : table_of d v <> new) by (intros E%table_of_inj; lia).
  rewrite chain_run. pose proof (sql_drop (table_of d v) w3) as HD.
  destruct (DropTable (table_of d v) w3) as [[[]| | |] w4]; destruct (tables w3 !! table_of d v); cbn [fst snd]; try done.
  all: right; split; [apply Hnew; rewrite HD, ?lookup_delete_ne by done; exact E3|try done].
  intros _ _. by rewrite HD, lookup_delete_eq.
Qed.

(** Outcomes without a value or an error. *)
Ltac no_result := first [done | by intros [[? ?]|[? ?]]].

(** What an update that returns without error has done with the edges it got. *)
Definition updated_to (es : list Edge) (w1 : W) (d : Database) (w' : W) (d' : Database) : Prop :=
  let v := currentTableVersion d in
  match es with
  | [] => tables w' = tables w1 /\ currentTableVersion d' = v
  | _ => currentTableVersion d' = v + 1 /\
      (0 <= v -> tables w' !! table_of d v = None) /\
      exists xs rows, mapM (edge_read (CreateTable (table_of d (v + 1)) w1).2) es = Ok xs /\
        convertEdgesToDBEdges xs = Ok rows /\ current_table w' d' = Some rows
  end.

(** The versioned table: whatever fails in an update of a database whose mutexes
    are allocated (those that [NewDatabase] returns are not), the table of the current version exists afterwards if one did before,
    so that queries always find one; the version stays or moves by one; the update mutex
    is free again; and an update that returns without error has, when there are edges,
    put exactly their rows in a new table, made it the current one and dropped the
    previous one. *)
Theorem Update_correct w d :
  usable d -> (0 <= currentTableVersion d -> is_Some (current_table w d)) ->
  let '(r, (w', d')) := Update (w, d) in
  (0 <= currentTableVersion d' -> is_Some (current_table w' d')) /\
  (currentTableVersion d' = currentTableVersion d \/ currentTableVersion d' = currentTableVersion d + 1) /\
  ((exists a, r = Ok a) \/ (exists e, r = Err e) -> updateMutex d' = Some false) /\
  (r = Ok tt -> exists es w1, ProvideEdges w = (Ok es, w1) /\ updated_to es w1 d w' d').
Proof.
  intros (Hv & Hu & Hb) Hcur. set (d1 := with_update_mutex (Some true) d).
  unfold Update, update_Lock, update_Unlock, set_db, db, mbind, M_bind, get, modify, mret, M_ret. cbn [fst snd].
  rewrite Hu. cbn [fst snd]. fold d1. unfold attempt, update_body, mbind, M_bind. rewrite chain_run.
  pose proof (provider_tables (tables:=tables) (R:=R) w) as HP. destruct (ProvideEdges w) as [[es|e|p|] w1]; cbn in HP |- *.
  2-4: unfold current_table; cbn; rewrite HP; (split; [exact Hcur|split; [by left|split; [no_result|done]]]).
  assert (Hcur1 : 0 <= currentTableVersion d -> is_Some (current_table w1 d1)).
  { unfold current_table. rewrite HP. exact Hcur. }
  destruct es as [|e es].
  - cbn. split_and!; [exact Hcur1|by left|done|]. intros _. exists [], w1. by split.
  - unfold version_lock, db, mbind, M_bind, get, mret, M_ret. cbn [fst snd].
    assert (Hv1 : versionMutex d1 = Some false) by exact Hv. rewrite Hv1. cbn [fst snd].
    pose proof (insertEdges_run (e :: es) w1 d1 Hv Hb) as Hrun.
    destruct (insertEdges (e :: es) (currentTableVersion d1) (w1, d1)) as [r [w2 d2]].
    destruct Hrun as [(Hr & -> & Hf)|[(now & xs & rows & -> & Hxs & Hrows & Hc) Hdrop]].
    + assert (Hcur2 : 0 <= currentTableVersion d -> is_Some (current_table w2 d1)).
      { intros Hv0. unfold current_table. rewrite Hf; [by apply Hcur1|]. intros E%table_of_inj. lia. }
      destruct r as [[]| | |]; [done|..]; cbn;
        (split; [exact Hcur2|split; [by left|split; [no_result|done]]]).
    + assert (Hok : updated_to (e :: es) w1 d w2 (with_updated now (with_version (currentTableVersion d1 + 1) d1)) \/ r <> Ok tt).
      { destruct r as [[]| | |]; [left|by right..]. split; [done|]. split; [by apply Hdrop|]. by exists xs, rows. }
      destruct r as [[]| | |]; cbn;
        (split; [intros _; by eexists|split; [by right|split; [no_result|]]]); try done.
      intros _. destruct Hok as [Hok|?]; [|done]. by exists (e :: es), w1.
Qed.

(** *** Failed updates *)

(** The table of the next version exists already. *)
Definition wedged (w : W) (d : Database) : Prop := is_Some (tables w !! table_of d (currentTableVersion d + 1)).

Definition same_version : relation Database := fun d d' =>
  tableName d' = tableName d /\ currentTableVersion d' = currentTableVersion d.

Lemma wedged_same w w' d d' : tables w' = tables w -> same_version d d' -> wedged w d -> wedged w' d'.
Proof. unfold wedged, table_of. by intros -> [-> ->]. Qed.

(** Creating the table fails, before anything else is done. *)
Lemma update_body_wedged w d : -1 <= currentTableVersion d < 2 ^ 63 - 1 -> wedged w d ->
  tables (update_body (w, d)).2.1 = tables w /\ (update_body (w, d)).2.2 = d.
Proof.
  intros Hb [old Hw]. unfold update_body, mbind, M_bind. rewrite chain_run.
  pose proof (provider_tables (tables:=tables) (R:=R) w) as HP.
  destruct (ProvideEdges w) as [[[|e es]| | |] w1]; cbn in HP |- *; try done.
  unfold version_lock, insertEdges, db, mbind, M_bind, get, mret, M_ret, crash, lift. cbn [fst snd].
  destruct (versionMutex d) as [[]|]; cbn [fst snd]; [done| |done]. rewrite int_add_small, chain_run by lia.
  pose proof (sql_create (table_of d (currentTableVersion d + 1)) w1) as HC. rewrite HP, Hw in HC.
  destruct (CreateTable _ w1) as [[[]| | |] w2]; cbn; [done|split; [congruence|done]..].
Qed.

Lemma Update_wedged w d : -1 <= currentTableVersion d < 2 ^ 63 - 1 -> wedged w d ->
  tables (Update (w, d)).2.1 = tables w /\ same_version d (Update (w, d)).2.2.
Proof.
  intros Hb Hw. unfold Update, update_Lock, db, set_db, mbind, M_bind, get, mret, M_ret, crash, lift, modify. cbn [fst snd].
  destruct (updateMutex d) as [[]|]; cbn [fst snd]; [done| |done].
  set (d1 := with_update_mutex (Some true) d). destruct (update_body_wedged w d1 Hb Hw) as [Ht Hd].
  unfold attempt. destruct (update_body (w, d1)) as [[[]| | |] [w2 d2]]; cbn in Ht, Hd |- *; subst d2; done.
Qed.

Lemma Start_step n (w : W) d :
  Start (S n) (w, d) =
    match Update (w, d) with
    | (Ok _, (w1, d1)) | (Err _, (w1, d1)) => Start n (Sleep (updateInterval d1) w1, d1)
    | (Panic p, st) => (Panic p, st)
    | (NoFuel, st) => (NoFuel, st)
    end.
Proof. cbn [Start]. unfold mbind, M_bind, attempt. by destruct (Update (w, d)) as [[[]| | |] [w1 d1]]. Qed.

Lemma Start_wedged n : forall w d, -1 <= currentTableVersion d < 2 ^ 63 - 1 -> wedged w d ->
  same_version d (Start n (w, d)).2.2.
Proof.
  induction n as [|n IH]; intros w d Hb Hw; [done|]. rewrite Start_step.
  destruct (Update_wedged w d Hb Hw) as [Ht Hd]. pose proof Hd as [Hn Hv].
  destruct (Update (w, d)) as [r [w1 d1]]. cbn [fst snd] in *.
  assert (Hnext : same_version d (Start n (Sleep (updateInterval d1) w1, d1)).2.2).
  { destruct (IH (Sleep (updateInterval d1) w1) d1) as [E1 E2]; [by rewrite Hv| |split; congruence].
    apply (wedged_same w _ d d1); [|done..]. by rewrite (sleep_tables (R:=R)). }
  by destruct r as [[]| | |].
Qed.

(** An update that fails in the middle is the last one: when the edges cannot be
    read after the new table has been created, the table is left behind, creating it
    fails in every later update, and however long the loop runs the version, and with it
    the table that queries read, never changes again. *)
Theorem failed_update_wedges e es w w1 w2 w3 d err :
  usable d -> ProvideEdges w = (Ok (e :: es), w1) ->
  CreateTable (table_of d (currentTableVersion d + 1)) w1 = (Ok tt, w2) ->
  convertSpecEdgeEdgesToEdges (e :: es) w2 = (Err err, w3) ->
  Update (w, d) = (Err err, (w3, with_update_mutex (Some false) d)) /\
  forall n, currentTableVersion (Start n (w3, with_update_mutex (Some false) d)).2.2 = currentTableVersion d.
Proof.
  intros (Hv & Hu & Hb) HP HC Hc. assert (Hb' : - 2 ^ 63 <= currentTableVersion d + 1 < 2 ^ 63) by lia. split.
  - unfold Update, update_Lock, update_Unlock, set_db, db, mbind, M_bind, get, modify, mret, M_ret. cbn [fst snd].
    rewrite Hu. cbn [fst snd]. unfold attempt, update_body, mbind, M_bind. rewrite chain_run, HP. cbn [fst snd].
    unfold version_lock, insertEdges, db, mbind, M_bind, get, mret, M_ret. cbn [fst snd].
    set (d1 := with_update_mutex (Some true) d). assert (Hv1 : versionMutex d1 = Some false) by exact Hv.
    rewrite Hv1. cbn [fst snd]. rewrite int_add_small by exact Hb'. rewrite chain_run.
    change (table_of d1 (currentTableVersion d1 + 1)) with (table_of d (currentTableVersion d + 1)). rewrite HC.
    cbn [fst snd]. rewrite chain_run, Hc. done.
  - intros n. refine (proj2 (Start_wedged n w3 (with_update_mutex (Some false) d) Hb _)). unfold wedged.
    pose proof (sql_create (table_of d (currentTableVersion d + 1)) w1) as Hl. rewrite HC in Hl.
    destruct (convert_edges_run R (e :: es) w2) as [HR _]. rewrite Hc in HR. apply reads_tables in HR. cbn in HR.
    rewrite HR. destruct (tables w1 !! _); [done|]. rewrite Hl. rewrite lookup_insert_eq. by eexists.
Qed.

End updating.

(** *** Requested updates *)

Section requests.
Context {W : Type} `{DBEnv W} `{Scheduler}.

Inductive db_op := OpUpdate | OpRequest | OpQuery (query : string).

Definition run_db_op (op : db_op) (st : W * Server) : W * Server :=
  match op with
  | OpUpdate => (on_database Update st).2
  | OpRequest => (updateDatabaseHandler (st, fresh_response)).2.1
  | OpQuery query => (queryDatabaseHandler query (st, fresh_response)).2.1
  end.

Lemma writeError_state code err (st : W * Server) r : (writeError code err (st, r)).2.1 = st.
Proof.
  unfold writeError, Write, WriteHeader, attempt, modify, get, mbind, M_bind, mret, M_ret. cbn. by destruct (WriteErr r).
Qed.

Lemma query_database query (w : W) s r d : database s = Some d ->
  database (queryDatabaseHandler query (w, s, r)).2.1.2 = Some d.
Proof.
  intros Ed. unfold queryDatabaseHandler, mbind, M_bind. rewrite chain_run. unfold on_database. rewrite Ed.
  unfold version_lock, db, mbind, M_bind, get, mret, M_ret, crash, lift. cbn [fst snd].
  destruct (versionMutex d) as [[]|]; cbn [fst snd]; [done| |done].
  case_bool_decide; [by rewrite writeError_state|]. rewrite chain_run. unfold on_database. cbn [database fst snd].
  destruct (currentTableVersion d =? -1); [by rewrite writeError_state|].
  rewrite or_error_run, chain_run. destruct (Select _ _) as [[rows|err| |] w1]; cbn [fst snd]; try done.
  - unfold respond, writeJSONResponse, SetContentType, Write, WriteHeader, attempt, modify, get, mbind, M_bind, mret, M_ret.
    cbn. destruct (WriteErr r); cbn; [|done]. unfold fail. by rewrite writeError_state.
  - by rewrite writeError_state.
Qed.

Lemma held_op op (w : W) s d : database s = Some d -> updateMutex d = Some true ->
  database (run_db_op op (w, s)).2 = Some d.
Proof.
  intros Ed Hh. destruct op as [| |query]; cbn [run_db_op].
  - unfold on_database. rewrite Ed. unfold Update, update_Lock, db, mbind, M_bind, get, mret, M_ret. cbn. by rewrite Hh.
  - unfold updateDatabaseHandler, mbind, M_bind. rewrite chain_run. unfold on_database. rewrite Ed.
    unfold update_TryLock, db, mbind, M_bind, get, mret, M_ret. cbn [fst snd]. rewrite Hh. done.
  - by apply query_database.
Qed.

(** A requested update is never made: the handler locks the mutex and leaves it to
    a goroutine that locks it once more, so that it answers 200 and from then on no
    update, neither the requested one nor one of the loop, gets past the lock, whatever
    is called and however often: the database stays as it is. *)
Theorem requested_update_deadlocks (w : W) s d ops :
  database s = Some d -> updateMutex d = Some false ->
  let '(r, (st, rw)) := updateDatabaseHandler (w, s, fresh_response) in
  let locked := with_update_mutex (Some true) d in
  r = Ok tt /\ StatusCode rw = Some StatusOK /\ st.1 = GoUpdate w /\
  database (fold_left (fun st op => run_db_op op st) ops st).2 = Some locked /\
  forall w', Update (w', locked) = (NoFuel, (w', locked)).
Proof.
  intros Ed Hu. unfold updateDatabaseHandler, mbind, M_bind. rewrite chain_run. unfold on_database. rewrite Ed.
  unfold update_TryLock, db, set_db, modify, mbind, M_bind, get, mret, M_ret. cbn [fst snd]. rewrite Hu. cbn.
  split; [done|]. split; [done|]. split; [done|]. split; [|done].
  set (s1 := {| Addr := _ |}). assert (Hs : database s1 = Some (with_update_mutex (Some true) d)) by done.
  clearbody s1. generalize (GoUpdate w) as w1. revert s1 Hs.
  induction ops as [|op ops IH]; intros s1 Hs w1; [done|]. cbn.
  pose proof (held_op op w1 s1 _ Hs eq_refl) as Hop. destruct (run_db_op op (w1, s1)) as [w2 s2]. by apply IH.
Qed.

End requests.

(** ** Examples *)

Module ToyDB.

Definition set_tables (t : gmap string (list DBEdge)) (w : ToyApi.world) : ToyApi.world :=
  {| ToyApi.calls := ToyApi.calls w; ToyApi.tables := t |}.
Definition sql_error {A} : M ToyApi.world A := fail (ErrNew "SQL logic error").

Definition create (t : string) : M ToyApi.world unit := fun w =>
  match ToyApi.tables w !! t with
  | None => (Ok tt, set_tables (<[t := []]> (ToyApi.tables w)) w)
  | Some _ => sql_error w
  end.
Definition insert_into (t : string) (rows : list DBEdge) : M ToyApi.world unit := fun w =>
  match ToyApi.tables w !! t with
  | Some old => (Ok tt, set_tables (<[t := old ++ rows]> (ToyApi.tables w)) w)
  | None => sql_error w
  end.
Definition drop (t : string) : M ToyApi.world unit := fun w =>
  match ToyApi.tables w !! t with
  | Some _ => (Ok tt, set_tables (delete t (ToyApi.tables w)) w)
  | None => sql_error w
  end.

#[global] Instance toy_ctx : Runtime.Context ToyApi.world := {| ContextErr _ := None; Sleep _ w := w |}.

#[global] Instance toy_db : DBEnv ToyApi.world := {|
  db_api := ToyApi.toy_api; db_ctx := toy_ctx;
  Stat _ := fail (ErrNew "no such file"); Create _ := mret tt; OpenDB _ := mret tt; CloseDB := mret tt;
  CreateTable := create; InsertInto := insert_into; DropTable := drop; Select _ := mret [];
  Now := ToyApi.calls; GoUpdate w := w; ListenAndServe _ := mret tt; Shutdown := mret tt;
|}.

#[global] Instance toy_laws : SqlLaws ToyApi.tables ToyApi.same_tables.
Proof.
  split; [apply _|done|done|done|..]; intros; cbn; unfold create, insert_into, drop.
  all: by destruct (ToyApi.tables w !! t).
Qed.

Definition database0 : Database := {| tableName := "edges"; currentTableVersion := -1; updateInterval := 1;
  lastUpdated := 0; versionMutex := Some false; updateMutex := Some false |}.

Lemma database0_usable : usable database0.
Proof. done. Qed.

Definition config : Config := {| Address := ""; EdgesProvider := true; AssertionsProvider := true;
  ConfigDB := Some {| Enable := true; DBPath := "db"; TableName := "edges"; DBUpdateInterval := 1 |} |}.

Definition server0 : Server := {| Addr := ""; database := Some database0; router := []; registered := true |}.

(** The world in which an edge cannot be read. *)
Definition later : ToyApi.world := {| ToyApi.calls := 1000; ToyApi.tables := ∅ |}.
Definition later1 : ToyApi.world := {| ToyApi.calls := 1001; ToyApi.tables := ∅ |}.

End ToyDB.

Lemma NewServer_cannot_start_witness :
  exists s w', NewServer (Some ToyDB.config) ToyApi.w0 = (Ok s, w') /\ is_Some (database s) /\
    (ServerStart 1 (w', s)).1 = Panic NilDereference.
Proof.
  eexists _, _. split; [reflexivity|]. split; [by eexists|].
  exact (proj2 (proj1 (@NewServer_cannot_start _ ToyDB.toy_db _ (Some ToyDB.config) ToyApi.w0 _ ToyApi.w0 eq_refl) 0%nat _)).
Defined.

Lemma Update_correct_witness :
  exists w' d', Update (ToyApi.w0, ToyDB.database0) = (Ok tt, (w', d')) /\ currentTableVersion d' = 0 /\
    exists rows, current_table ToyApi.tables w' d' = Some rows /\ length rows = 3%nat.
Proof.
  pose proof (@Update_correct _ ToyDB.toy_db _ ToyApi.tables ToyApi.same_tables _ ToyApi.w0 ToyDB.database0
    ToyDB.database0_usable ltac:(done)) as HU.
  eassert (E : Update (ToyApi.w0, ToyDB.database0) = (Ok tt, (_, _))) by (vm_compute; reflexivity).
  rewrite E in HU |- *. eexists _, _. split; [reflexivity|]. split; [reflexivity|].
  destruct HU as (HU & _). destruct (HU ltac:(done)) as [rows Hr]. exists rows. split; [exact Hr|].
  vm_compute in Hr. by injection Hr as <-.
Defined.

Lemma failed_update_wedges_witness :
  exists err w3, Update (ToyDB.later, ToyDB.database0) = (Err err, (w3, ToyDB.database0)) /\
    currentTableVersion (Start 5 (w3, ToyDB.database0)).2.2 = -1.
Proof.
  eassert (E : convertSpecEdgeEdgesToEdges [ToyApi.edge 200 40] (ToyDB.set_tables {[ "edges0" := [] ]} ToyDB.later1) = (Err _, _))
    by (vm_compute; reflexivity).
  destruct (@failed_update_wedges _ ToyDB.toy_db _ ToyApi.tables ToyApi.same_tables _ (ToyApi.edge 200 40) [] ToyDB.later
    ToyDB.later1 _ _ ToyDB.database0 _ ToyDB.database0_usable eq_refl eq_refl E) as [HU HS].
  eexists _, _. split; [exact HU|exact (HS 5%nat)].
Defined.

Lemma requested_update_deadlocks_witness :
  database (fold_left (fun st op => run_db_op op st) [OpUpdate; OpRequest; OpQuery "SELECT * FROM TABLE"]
    (updateDatabaseHandler (ToyApi.w0, ToyDB.server0, fresh_response)).2.1).2 =
  Some (with_update_mutex (Some true) ToyDB.database0).
Proof.
  exact (proj1 (proj2 (proj2 (proj2 (requested_update_deadlocks ToyApi.w0 ToyDB.server0 ToyDB.database0
    [OpUpdate; OpRequest; OpQuery "SELECT * FROM TABLE"] eq_refl eq_refl))))).
Defined.
