(* ===== verification/ChainSpec.v ===== *)
(** * What the chain promises about confirmation

    [confirmed] edges stay so under every call, a status read is truthful, and a
    confirmation call that returns without error has confirmed the edge. *)

From S2P Require Import Prelude Bits PrefixProofs Containers InclusionProofs History Protocol Chain.

Definition preserves {W A} (confirmed : W -> EdgeId -> Prop) (m : M W A) : Prop :=
  forall w id, confirmed w id -> confirmed (m w).2 id.

Class ChainConfirmationLaws (W : Type) `{ChainEnv W} (confirmed : W -> EdgeId -> Prop) : Prop := {
  keep_HasRival e : preserves confirmed (HasRival e);
  keep_HasLengthOneRival e : preserves confirmed (HasLengthOneRival e);
  keep_HasConfirmedRival e : preserves confirmed (HasConfirmedRival e);
  keep_EdgeStatusOf e : preserves confirmed (EdgeStatusOf e);
  keep_AssertionHashOf e : preserves confirmed (AssertionHashOf e);
  keep_TopLevelClaimHeight e : preserves confirmed (TopLevelClaimHeight e);
  keep_LowerChildOf e : preserves confirmed (LowerChildOf e);
  keep_UpperChildOf e : preserves confirmed (UpperChildOf e);
  keep_BisectOnChain e h p : preserves confirmed (BisectOnChain e h p);
  keep_ConfirmByTimer e l : preserves confirmed (ConfirmByTimer e l);
  keep_ConfirmByClaim e c : preserves confirmed (ConfirmByClaim e c);
  keep_ConfirmByChildren e : preserves confirmed (ConfirmByChildren e);
  keep_SpecChallengeManager : preserves confirmed SpecChallengeManager;
  keep_GetEdge id : preserves confirmed (GetEdge id);
  keep_ChallengePeriodBlocks : preserves confirmed ChallengePeriodBlocks;
  keep_AddSub e s h p q r : preserves confirmed (AddSubChallengeLevelZeroEdge e s h p q r);
  keep_ConfirmOsp id d p q : preserves confirmed (ConfirmEdgeByOneStepProof id d p q);
  keep_CreationInfo a : preserves confirmed (AssertionCreationInfo a);
  keep_IsChallengeComplete a : preserves confirmed (IsChallengeComplete a);
  keep_Winner a id : preserves confirmed (ConfirmAssertionByChallengeWinner a id);
  keep_LatestConfirmed : preserves confirmed LatestConfirmed;
  keep_CreatedAtBlock a : preserves confirmed (AssertionCreatedAtBlock a);
  keep_Header : preserves confirmed HeaderByNumber;
  status_truthful e w w' : EdgeStatusOf e w = (Ok Protocol.EdgeConfirmed, w') -> confirmed w' (Id e);
  timer_confirms e l w w' : ConfirmByTimer e l w = (Ok tt, w') -> confirmed w' (Id e);
  claim_confirms e c w w' : ConfirmByClaim e c w = (Ok tt, w') -> confirmed w' (Id e);
  children_confirm e w w' : ConfirmByChildren e w = (Ok tt, w') -> confirmed w' (Id e);
  osp_confirms id d p q w w' : ConfirmEdgeByOneStepProof id d p q w = (Ok tt, w') -> confirmed w' id;
}.

Create HintDb keep.
#[export] Hint Resolve keep_HasRival keep_HasLengthOneRival keep_HasConfirmedRival keep_EdgeStatusOf
  keep_AssertionHashOf keep_TopLevelClaimHeight keep_LowerChildOf keep_UpperChildOf keep_BisectOnChain
  keep_ConfirmByTimer keep_ConfirmByClaim keep_ConfirmByChildren keep_SpecChallengeManager keep_GetEdge
  keep_ChallengePeriodBlocks keep_AddSub keep_ConfirmOsp keep_CreationInfo keep_IsChallengeComplete
  keep_Winner keep_LatestConfirmed keep_CreatedAtBlock keep_Header : keep.

Section preserves.
Context {W : Type} (confirmed : W -> EdgeId -> Prop).

Lemma keep_bind {A B} (m : M W A) (f : A -> M W B) :
  preserves confirmed m -> (forall a, preserves confirmed (f a)) -> preserves confirmed (m ≫= f).
Proof.
  intros Hm Hf w id Hc. specialize (Hm w id Hc). unfold mbind, M_bind.
  destruct (m w) as [[a| | |] w']; try done. by apply Hf.
Qed.
Lemma keep_ret {A} (a : A) : preserves confirmed (mret a : M W A).
Proof. by intros w id. Qed.
Lemma keep_fail {A} e : preserves confirmed (fail e : M W A).
Proof. by intros w id. Qed.
Lemma keep_crash {A} p : preserves confirmed (crash p : M W A).
Proof. by intros w id. Qed.
Lemma keep_lift {A} (r : res A) : preserves confirmed (lift r : M W A).
Proof. by intros w id. Qed.
Lemma keep_get : preserves confirmed (get : M W W).
Proof. by intros w id. Qed.
Lemma keep_modify f : (forall w i, confirmed w i -> confirmed (f w) i) -> preserves confirmed (modify f).
Proof. intros Hf w id. apply Hf. Qed.
Lemma keep_attempt {A} (m : M W A) : preserves confirmed m -> preserves confirmed (attempt m).
Proof. intros Hm w id Hc. specialize (Hm w id Hc). unfold attempt. by destruct (m w) as [[| | |] w']. Qed.
Lemma keep_wrapM {A} msg (m : M W A) : preserves confirmed m -> preserves confirmed (wrapM msg m).
Proof. intros Hm w id Hc. specialize (Hm w id Hc). unfold wrapM. by destruct (m w) as [r w']. Qed.

(** Keeping a fact while reading the result. *)
Lemma keep_wp {A} (m : M W A) (Q : res A -> W -> Prop) w id :
  preserves confirmed m -> confirmed w id ->
  (forall r w', confirmed w' id -> Q r w') -> wp m Q w.
Proof. intros Hm Hc HQ. apply HQ, Hm, Hc. Qed.

End preserves.

(** Follows the structure of a computation down to the calls of the interface. *)
Ltac keep := repeat first
  [ apply keep_bind; [|intro] | apply keep_ret | apply keep_fail | apply keep_crash | apply keep_lift
  | apply keep_get | apply keep_attempt | apply keep_wrapM | solve [eauto with keep]
  | match goal with |- preserves _ (match ?x with _ => _ end) => destruct x end ].
