(* ===== verification/Contracts.v ===== *)
(** * Contract bindings

    What [chain-abstraction/sol-implementation] calls of the generated bindings
    ([rollupgen], [challengeV2gen], [ospgen], [bridgegen]), of go-ethereum's chain
    backend and of its ABI encoder, as operations on a world [W]. *)

From S2P Require Import Prelude Bits PrefixProofs InclusionProofs History Protocol.

Abbreviation Address := Z (only parsing).

(** ** The data of the bindings *)

Record AssertionNode := {
  FirstChildBlock : Z;
  SecondChildBlock : Z;
  NodeCreatedAtBlock : Z;
  IsFirstChild : bool;
  NodeStatus : Z;
  ConfigHash : Hash;
}.

Record ConfigData := {
  CfgWasmModuleRoot : Hash;
  CfgRequiredStake : Z;
  CfgChallengeManager : Address;
  CfgConfirmPeriodBlocks : Z;
  NextInboxPosition : Z;
}.

Record BeforeStateData := {
  PrevPrevAssertionHash : Hash;
  SequencerBatchAcc : Hash;
  BeforeConfigData : ConfigData;
}.

Record AssertionInputs := {
  InputsBeforeStateData : BeforeStateData;
  InputsBeforeState : SolExecutionState;
  InputsAfterState : SolExecutionState;
}.

(** [challengeV2gen.ChallengeEdge]; the status is one of the two the contract has. *)
Record ChallengeEdge := {
  EdgeOriginId : Hash;
  StartHistoryRoot : Hash;
  StartHeight : Z;
  EndHistoryRoot : Hash;
  EndHeight : Z;
  LowerChildId : Hash;
  UpperChildId : Hash;
  EdgeClaimId : Hash;
  Staker : Address;
  EdgeCreatedAtBlock : Z;
  EdgeConfirmedAtBlock : Z;
  ContractStatus : EdgeStatus;
  EdgeLevel : Z;
  Refunded : bool;
}.

Record CreateEdgeArgs := {
  ArgsLevel : Z;
  ArgsEndHistoryRoot : Hash;
  ArgsEndHeight : Z;
  ArgsClaimId : Hash;
  ArgsPrefixProof : list Z;
  ArgsProof : list Z;
}.

Record ExecutionStateData := {
  DataExecutionState : SolExecutionState;
  DataPrevAssertionHash : Hash;
  DataInboxAcc : Hash;
}.

Record ExecutionContext := {
  MaxInboxMessagesRead : Z;
  CtxBridge : Address;
  InitialWasmModuleRoot : Hash;
}.

(** [types.Log] and the events parsed from it. *)
Record Log := {
  BlockNumber : Z;
  LogIndex : Z;
  Removed : bool;
  Topics : list Hash;
  LogTxHash : Hash;
  LogData : list Z;
}.

Record AssertionCreatedEvent := {
  EventAssertionHash : Hash;
  EventParentAssertionHash : Hash;
  EventAssertion : AssertionInputs;
  EventAfterInboxBatchAcc : Hash;
  EventInboxMaxCount : Z;
  EventWasmModuleRoot : Hash;
  EventRequiredStake : Z;
  EventChallengeManager : Address;
  EventConfirmPeriodBlocks : Z;
}.

(** [ethereum.FilterQuery] on the rollup address; no last block means the latest. *)
Record FilterQuery := {
  FromBlock : Z;
  ToBlock : option Z;
  QueryTopics : list (list Hash);
}.

(** The calls a transaction makes. *)
Inductive Tx :=
| TxNewStakeOnNewAssertion (requiredStake : Z) (inputs : AssertionInputs) (expectedHash : Hash)
| TxStakeOnNewAssertion (inputs : AssertionInputs) (expectedHash : Hash)
| TxConfirmAssertion (assertionHash prevAssertionHash : Hash) (confirmState : SolExecutionState)
    (winningEdgeId : EdgeId) (prevConfig : ConfigData) (inboxAcc : Hash)
| TxBisectEdge (id : EdgeId) (bisectionHistoryRoot : Hash) (prefixProof : list Z)
| TxConfirmEdgeByTime (id : EdgeId) (ancestors : list EdgeId) (claimState : ExecutionStateData)
| TxConfirmEdgeByChildren (id : EdgeId)
| TxConfirmEdgeByClaim (id : EdgeId) (claimingEdgeId : EdgeId)
| TxConfirmEdgeByOneStepProof (id : EdgeId) (beforeHash : Hash) (proof : list Z) (prevConfig : ConfigData)
    (pre post : list Hash)
| TxCreateLayerZeroEdge (args : CreateEdgeArgs).

Record Receipt := { ReceiptStatus : Z; ReceiptLogs : list Log }.
Definition ReceiptStatusSuccessful : Z := 1.

(** ** The operations *)

Class Contracts (W : Type) := {
  (* rollupgen: views of the rollup contract *)
  RollupGetAssertion : Hash -> M W AssertionNode;
  RollupLatestConfirmed : M W Hash;
  RollupIsStaked : M W bool;
  RollupGenesisAssertionHash : M W Hash;
  RollupBridge : M W Address;
  RollupChallengeManager : M W Address;
  RollupDeploymentBlock : M W Z;
  ComputeAssertionHash : Hash -> SolExecutionState -> Hash -> M W Hash;
  assertionCreatedId : Hash;
  ParseAssertionCreated : Log -> res AssertionCreatedEvent;
  (* bridgegen *)
  NewIBridgeCaller : Address -> M W unit;
  SequencerInboxAccs : Address -> Z -> M W Hash;
  (* challengeV2gen: views of the challenge manager contract *)
  NewEdgeChallengeManager : Address -> M W unit;
  CallGetEdge : EdgeId -> M W ChallengeEdge;
  CallCalculateMutualId : Z -> Hash -> Z -> Hash -> Z -> M W Hash;
  CallCalculateEdgeId : Z -> Hash -> Z -> Hash -> Z -> Hash -> M W EdgeId;
  CallConfirmedRival : Hash -> M W EdgeId;
  CallHasRival : EdgeId -> M W bool;
  CallHasLengthOneRival : EdgeId -> M W bool;
  CallTimeUnrivaled : EdgeId -> M W Z;
  CallGetPrevAssertionHash : EdgeId -> M W Hash;
  CallFirstRival : Hash -> M W EdgeId;
  CallChallengePeriodBlocks : M W Z;
  NUMBIGSTEPLEVEL : M W Z;
  LAYERZEROBLOCKEDGEHEIGHT : M W Z;
  LAYERZEROBIGSTEPEDGEHEIGHT : M W Z;
  LAYERZEROSMALLSTEPEDGEHEIGHT : M W Z;
  CallOneStepProofEntry : M W Address;
  ParseEdgeAdded : Log -> res EdgeId;
  (* ospgen *)
  NewOneStepProofEntryCaller : Address -> M W unit;
  ProveOneStep : ExecutionContext -> Z -> Hash -> list Z -> M W Hash;
  (* abi.Arguments.Pack *)
  PackBlockEdgeProof : list Hash -> ExecutionStateData -> ExecutionStateData -> res (list Z);
  PackSubchallengeEdgeProof : Hash -> Hash -> list Hash -> list Hash -> list Hash -> res (list Z);
  (* the chain backend *)
  BackendHeaderByNumber : M W Z;
  FilterLogs : FilterQuery -> M W (list Log);
  (* building the transaction without sending it, sending it, and its receipt *)
  BuildTx : Tx -> M W unit;
  EstimateGas : Tx -> M W Z;
  SendTx : Tx -> Z -> M W unit;
  Commit : W -> W;
  WaitMined : Tx -> M W Receipt;
  CallContract : Tx -> M W unit;
}.
