(* ===== verification/MerkleContract.v ===== *)
(** * The Merkle library of the contracts

    [contracts/src/challengeV2/libraries/MerkleTreeLib.sol], [UintUtilsLib.sol] and
    [MerkleLib.calculateRoot]: what the challenge contract verifies, compared with the
    Go verifiers of [state-commitments/].  A revert is an error whose text is the
    message of [require]; words are 256 bits wide and arithmetic is checked. *)

From S2P Require Import Prelude Bits PrefixProofs MerkleSpec PrefixComplete PrefixSound InclusionProofs.

(** ** Solidity *)

Definition two256 : Z := 2 ^ 256.
Definition is_u256 (x : Z) : Prop := 0 <= x < two256.
Definition u256 (x : Z) : Z := x mod two256.

Definition require (b : bool) (msg : string) : res unit := if b then Ok tt else Err (ErrNew msg).
(** The panic code of checked arithmetic. *)
Definition Panic0x11 : error := ErrNew "Panic(0x11)".
(** An unsigned value of [bits] bits, or a revert. *)
Definition checked (bits x : Z) : res Z := if (0 <=? x) && (x <? 2 ^ bits) then Ok x else Err Panic0x11.

(** ** [UintUtilsLib] *)

(** [if (x >= 2 ** k) { x >>= k; msb += k; }] *)
Definition msb_step (s : Z * Z) (k : Z) : Z * Z :=
  if 2 ^ k <=? fst s then (Z.shiftr (fst s) k, snd s + k) else s.

Definition mostSignificantBit (x : Z) : res Z :=
  _ ← require (negb (x =? 0)) "Zero has no significant bits";
  let '(x, msb) := fold_left msb_step [128; 64; 32; 16; 8; 4; 2] (x, 0) in
  Ok (if 2 <=? x then msb + 1 else msb).

Definition leastSignificantBit (x : Z) : res Z :=
  _ ← require (0 <? x) "Zero has no significant bits";
  let isolated := Z.lxor (Z.land (x - 1) x) x in
  mostSignificantBit isolated.

(** ** [MerkleTreeLib] *)

Section merkle.
Context `{Hasher}.

(** The loop of [root] is that of [Root] of the Go sources ([root_loop]). *)
Definition root (me : list Hash) : res Hash :=
  _ ← require (0 <? len me) "Empty merkle expansion";
  _ ← require (len me <=? MAX_LEVEL) "Merkle expansion too large";
  Ok (root_loop (len me) 0 zero_hash me).

(** [sum += 2 ** i]: the power and the sum are checked. *)
Fixpoint treeSize_loop (i sum : Z) (me : list Hash) : res Z :=
  match me with
  | [] => Ok sum
  | h :: me' =>
      sum' ← (if h =? zero_hash then Ok sum else p ← checked 256 (2 ^ i); checked 256 (sum + p));
      treeSize_loop (i + 1) sum' me'
  end.
Definition treeSize (me : list Hash) : res Z := treeSize_loop 0 0 me.

(** The loop over the levels of [me] that fills the array [next]. *)
Fixpoint fill_loop (level : Z) (i : nat) (accumHash : Hash) (me next : list Hash) : res (list Hash * Hash) :=
  match me with
  | [] => Ok (next, accumHash)
  | h :: me' =>
      if Z.of_nat i <? level then
        _ ← require (h =? zero_hash) "Append above least significant bit";
        fill_loop level (S i) accumHash me' next
      else if accumHash =? zero_hash then fill_loop level (S i) accumHash me' (<[i := h]> next)
      else if h =? zero_hash then fill_loop level (S i) zero_hash me' (<[i := accumHash]> next)
      else fill_loop level (S i) (hash_node h accumHash) me' (<[i := zero_hash]> next)
  end.

Definition appendCompleteSubTree (me : list Hash) (level : Z) (subtreeRoot : Hash) : res (list Hash) :=
  _ ← require (level <? MAX_LEVEL) "Level too high";
  _ ← require (negb (subtreeRoot =? zero_hash)) "Cannot append empty subtree";
  _ ← require (len me <=? MAX_LEVEL) "Merkle expansion too large";
  if len me =? 0 then Ok (replicate (Z.to_nat level) zero_hash ++ [subtreeRoot])
  else
    _ ← require (level <? len me) "Level greater than highest level of current expansion";
    meSize ← treeSize me;
    postSize ← checked 256 (meSize + 2 ^ level);
    postBit ← mostSignificantBit postSize;
    meBit ← mostSignificantBit meSize;
    let next := replicate (if meBit <? postBit then S (length me) else length me) zero_hash in
    _ ← require (len next <=? MAX_LEVEL) "Append creates oversize tree";
    '(next, accumHash) ← fill_loop level 0 subtreeRoot me next;
    let next := if accumHash =? zero_hash then next else <[pred (length next) := accumHash]> next in
    _ ← require (bool_decide (next !! pred (length next) <> Some zero_hash)) "Last entry zero";
    Ok next.

Definition appendLeaf (me : list Hash) (leaf : Hash) : res (list Hash) :=
  appendCompleteSubTree me 0 (hash_leaf leaf).

(** [(1 << (msb) + 1) - 1] is a shift by [msb + 1] followed by a checked decrement. *)
Definition maximumAppendBetween (startSize endSize : Z) : res Z :=
  _ ← require (startSize <? endSize) "Start not less than end";
  msb ← mostSignificantBit (Z.lxor startSize endSize);
  mask ← checked 256 (u256 (Z.shiftl 1 (msb + 1)) - 1);
  let y := Z.land startSize mask in
  let z := Z.land endSize mask in
  if negb (y =? 0) then leastSignificantBit y
  else if negb (z =? 0) then mostSignificantBit z
  else Err (ErrNew "Both y and z cannot be zero").

(** Every iteration consumes an element of the proof. *)
Fixpoint append_while (fuel : nat) (proof : list Hash) (postSize : Z) (exp : list Hash)
    (size : Z) (proofIndex : nat) : res (list Hash * nat) :=
  match fuel with
  | O => NoFuel
  | S fuel' =>
      if size <? postSize then
        level ← maximumAppendBetween size postSize;
        match proof !! proofIndex with
        | None => Err (ErrNew "Index out of range")
        | Some p =>
            exp' ← appendCompleteSubTree exp level p;
            size' ← checked 256 (size + u256 (Z.shiftl 1 level));
            _ ← require (size' <=? postSize) "Panic(0x01)";
            append_while fuel' proof postSize exp' size' (S proofIndex)
        end
      else Ok (exp, proofIndex)
  end.

Definition verifyPrefixProof (preRoot : Hash) (preSize : Z) (postRoot : Hash) (postSize : Z)
    (preExpansion proof : list Hash) : res unit :=
  _ ← require (0 <? preSize) "Pre-size cannot be 0";
  r ← root preExpansion;
  _ ← require (r =? preRoot) "Pre expansion root mismatch";
  n ← treeSize preExpansion;
  _ ← require (n =? preSize) "Pre size does not match expansion";
  _ ← require (preSize <? postSize) "Pre size not less than post size";
  '(exp, proofIndex) ← append_while (S (length proof)) proof postSize preExpansion preSize 0;
  r ← root exp;
  _ ← require (r =? postRoot) "Post expansion root not equal post";
  require (Nat.eqb proofIndex (length proof)) "Incomplete proof usage".

(** ** [MerkleLib] *)

(** [route & (1 << i)] on 256 bits. *)
Fixpoint route_loop (route i : Z) (h : Hash) (nodes : list Hash) : Hash :=
  match nodes with
  | [] => h
  | node :: nodes' =>
      route_loop route (i + 1)
        (if Z.land route (u256 (Z.shiftl 1 i)) =? 0 then hash_node h node else hash_node node h) nodes'
  end.

Definition calculateRoot (nodes : list Hash) (route : Z) (item : Hash) : res Hash :=
  if 256 <? len nodes then Err (ErrNew "MerkleProofTooLong") else Ok (route_loop route 0 item nodes).

Definition verifyInclusionProof (rootHash leaf : Hash) (index : Z) (proof : list Hash) : res unit :=
  calculatedRoot ← calculateRoot proof index (hash_leaf leaf);
  require (rootHash =? calculatedRoot) "Invalid inclusion proof".

End merkle.

(** ** The bit scans *)

Lemma msb_step_spec k s x :
  0 <= k -> 0 < fst s < 2 ^ (2 * k) -> Z.log2 (fst s) + snd s = Z.log2 x ->
  0 < fst (msb_step s k) < 2 ^ k /\ Z.log2 (fst (msb_step s k)) + snd (msb_step s k) = Z.log2 x.
Proof.
  destruct s as [y m]. unfold msb_step. cbn [fst snd]. intros Hk Hy E.
  replace (2 * k) with (k + k) in Hy by lia. rewrite Z.pow_add_r in Hy by lia.
  assert (0 < 2 ^ k) by (apply Z.pow_pos_nonneg; lia).
  destruct (Z.leb_spec (2 ^ k) y) as [Hle|Hlt]; cbn [fst snd]; [|lia].
  assert (k <= Z.log2 y) by (apply Z.log2_le_pow2; lia).
  rewrite Z.log2_shiftr by lia. rewrite Z.shiftr_div_pow2 by lia.
  split; [|lia]. split; [|apply Z.div_lt_upper_bound; lia].
  apply Z.div_str_pos. lia.
Qed.

Lemma mostSignificantBit_log2 x : 0 < x < two256 -> mostSignificantBit x = Ok (Z.log2 x).
Proof.
  intros Hx. unfold mostSignificantBit, require. destruct (Z.eqb_spec x 0); [lia|].
  cbn [negb mbind res_bind fold_left].
  destruct (msb_step_spec 128 (x, 0) x) as [H7 E7]; [lia|exact Hx|cbn; lia|].
  do 6 match goal with
  | E : Z.log2 (fst ?s) + snd ?s = _, B : 0 < fst ?s < 2 ^ ?k |- _ =>
      let j := eval vm_compute in (k / 2) in
      let H' := fresh in let E' := fresh in
      destruct (msb_step_spec j s x) as [H' E']; [lia|exact B|exact E|]; clear E B
  end.
  match goal with |- context [let '(_, _) := ?s in _] => destruct s as [y m] eqn:Es end.
  cbn [fst snd] in *. f_equal. change (2 ^ 2) with 4 in *. destruct (Z.leb_spec 2 y).
  - assert (Z.log2 y = 1) by (apply Z.log2_unique; lia). lia.
  - assert (y = 1) as -> by lia. cbn in *. lia.
Qed.

(** Clearing the lowest set bit leaves the rest, so that the difference is that bit. *)
Lemma isolated_bit x : 0 < x -> Z.lxor (Z.land (x - 1) x) x = 2 ^ TrailingZeros64 x.
Proof.
  intros Hx. destruct (TrailingZeros64_spec x Hx) as (q & Hq & E & Hc).
  set (c := TrailingZeros64 x) in *. assert (0 < 2 ^ c) by (apply Z.pow_pos_nonneg; lia).
  assert (Hones : x - 1 = Z.lor (Z.shiftl (2 * q) c) (Z.ones c)).
  { assert (E0 : Z.land (Z.shiftl (2 * q) c) (Z.ones c) = 0)
      by (rewrite Z.land_ones, Z.shiftl_mul_pow2, Z.mod_mul by lia; done).
    pose proof (Z.add_lor_land (Z.shiftl (2 * q) c) (Z.ones c)) as El. rewrite E0 in El.
    rewrite Z.shiftl_mul_pow2, Z.ones_equiv in * by lia. lia. }
  assert (Hset : x = Z.lor (Z.shiftl (2 * q) c) (Z.shiftl 1 c)).
  { rewrite <- Z.shiftl_lor, Z.shiftl_mul_pow2 by lia.
    replace (Z.lor (2 * q) 1) with (2 * q + 1); [lia|].
    destruct q; [done|done|lia]. }
  rewrite Hones. rewrite Hset at 1 2. apply Z.bits_inj'. intros n Hn.
  rewrite Z.lxor_spec, Z.land_spec, !Z.lor_spec.
  destruct (Z.lt_ge_cases n c).
  - rewrite !Z.shiftl_spec_low, Z.ones_spec_low, Z.pow2_bits_false by lia. done.
  - rewrite Z.ones_spec_high, !Z.shiftl_spec by lia.
    destruct (Z.eq_dec n c) as [->|].
    + rewrite Z.pow2_bits_true by lia. replace (c - c) with 0 by lia.
      rewrite Z.testbit_even_0. done.
    + rewrite Z.pow2_bits_false by lia.
      replace (Z.testbit 1 (n - c)) with false;
        [by destruct (Z.testbit (2 * q) (n - c))|].
      symmetry. change 1 with (2 ^ 0). apply Z.pow2_bits_false. lia.
Qed.

Lemma leastSignificantBit_ctz x : 0 < x < two256 -> leastSignificantBit x = Ok (TrailingZeros64 x).
Proof.
  intros Hx. unfold leastSignificantBit, require. destruct (Z.ltb_spec 0 x); [|lia].
  cbn [mbind res_bind]. rewrite isolated_bit by lia.
  destruct (TrailingZeros64_spec x ltac:(lia)) as (q & Hq & E & Hc).
  assert (0 < 2 ^ TrailingZeros64 x) by (apply Z.pow_pos_nonneg; lia).
  rewrite mostSignificantBit_log2 by nia. by rewrite Z.log2_pow2 by lia.
Qed.

(** On sizes of 64 bits the level found is that of the Go code. *)
Lemma maximumAppendBetween_go s e :
  0 <= s < e -> e < two64 -> maximumAppendBetween s e = Ok (append_level s e).
Proof.
  intros Hse He. unfold maximumAppendBetween, require. destruct (Z.ltb_spec s e); [|lia].
  cbn [mbind res_bind].
  destruct (differing_bits s e Hse He) as (_ & E2 & Hz & E3). cbv zeta in *.
  pose proof (diff_bit_nonneg s e) as Hd0. pose proof (diff_bit_lt_64 s e ltac:(lia) ltac:(lia)) as Hd1.
  assert (H64 : two64 < two256) by done.
  assert (0 < Z.lxor s e < two256).
  { split; [apply lxor_pos; lia|]. unfold two256. apply Z.log2_lt_pow2; [apply lxor_pos; lia|].
    unfold diff_bit in *. lia. }
  rewrite mostSignificantBit_log2 by done. cbn [mbind res_bind]. fold (diff_bit s e).
  assert (Em : u256 (Z.shiftl 1 (diff_bit s e + 1)) - 1 = u64 (shl64 1 (diff_bit s e + 1) - 1)).
  { rewrite low_mask, Z.ones_equiv by lia. rewrite Z.shiftl_1_l. unfold u256. rewrite Z.mod_small; [lia|].
    split; [lia|]. apply Z.pow_lt_mono_r; lia. }
  rewrite Em. set (mask := u64 (shl64 1 (diff_bit s e + 1) - 1)) in *.
  assert (0 <= mask < two64) by apply u64_range.
  unfold checked. change (2 ^ 256) with two256.
  destruct (Z.leb_spec 0 mask); [|lia]. destruct (Z.ltb_spec mask two256); [|lia]. cbn [andb mbind res_bind].
  unfold append_level. rewrite E2.
  assert (0 <= s mod 2 ^ (diff_bit s e + 1) < two256).
  { assert (0 < 2 ^ (diff_bit s e + 1)) by (apply Z.pow_pos_nonneg; lia).
    pose proof (Z.mod_pos_bound s (2 ^ (diff_bit s e + 1)) ltac:(lia)).
    pose proof (Z.mod_le s (2 ^ (diff_bit s e + 1)) ltac:(lia) ltac:(lia)). lia. }
  destruct (Z.eqb_spec (s mod 2 ^ (diff_bit s e + 1)) 0) as [E|E]; cbn [negb].
  - destruct (Z.eqb_spec (Z.land e mask) 0); [lia|]. cbn [negb].
    rewrite mostSignificantBit_log2; [by rewrite E3|].
    split; [lia|]. apply Z.log2_lt_pow2; [lia|]. lia.
  - apply leastSignificantBit_ctz. lia.
Qed.

(** ** Appending

    On a canonical expansion the contract appends as the Go code does; on any other
    it reverts. *)

Lemma checked_ok bits x : 0 <= x < 2 ^ bits -> checked bits x = Ok x.
Proof.
  intros Hx. unfold checked. by destruct (Z.leb_spec 0 x), (Z.ltb_spec x (2 ^ bits)); cbn; try lia.
Qed.

Lemma checked_inv bits x y : checked bits x = Ok y -> y = x /\ 0 <= x < 2 ^ bits.
Proof.
  unfold checked. destruct (Z.leb_spec 0 x), (Z.ltb_spec x (2 ^ bits)); cbn; try done. intros [= <-]. lia.
Qed.

Lemma require_ok b msg : require b msg = Ok tt <-> b = true.
Proof. by destruct b. Qed.

Lemma treeSize_loop_bval me : forall i sum,
  0 <= i -> 0 <= sum -> sum + 2 ^ i * bval me < two256 -> treeSize_loop i sum me = Ok (sum + 2 ^ i * bval me).
Proof.
  induction me as [|h me IH]; intros i sum Hi Hs Hlt; cbn [treeSize_loop bval] in *; [f_equal; lia|].
  assert (0 < 2 ^ i) by (apply Z.pow_pos_nonneg; lia).
  assert (E : 2 ^ (i + 1) = 2 * 2 ^ i) by (rewrite Z.pow_add_r by lia; lia).
  pose proof (bval_bound me). unfold is_zero in *. destruct (h =? zero_hash).
  - cbn [mbind res_bind]. rewrite IH; rewrite ?E; try nia. f_equal. nia.
  - rewrite checked_ok by (change (2 ^ 256) with two256; nia). cbn [mbind res_bind].
    rewrite checked_ok by (change (2 ^ 256) with two256; nia). cbn [mbind res_bind].
    rewrite IH; rewrite ?E; try nia. f_equal. nia.
Qed.

Lemma treeSize_bval me : len me <= 64 -> treeSize me = Ok (bval me).
Proof.
  intros Hl. unfold treeSize. pose proof (bval_bound me).
  assert (2 ^ len me <= 2 ^ 64) by (apply Z.pow_le_mono_r; lia).
  assert (2 ^ 64 < two256) by done. rewrite treeSize_loop_bval; [|lia..]. f_equal. lia.
Qed.

Lemma last_level_lookup me : last_level me = me !! pred (length me).
Proof.
  induction me as [|h [|h' me] IH]; [done..|].
  change (last_level (h' :: me) = (h :: h' :: me) !! length (h' :: me)). by rewrite IH.
Qed.

Lemma bval_app me me' : bval (me ++ me') = bval me + 2 ^ len me * bval me'.
Proof.
  induction me as [|h me IH]; [change (2 ^ len []) with 1; cbn [app bval]; lia|]. rewrite <- app_comm_cons. cbn [bval]. rewrite IH.
  replace (len (h :: me)) with (len me + 1) by (unfold len; cbn [length]; lia).
  rewrite Z.pow_add_r by (apply len_nonneg || lia). lia.
Qed.

(** The highest level of a canonical expansion is the highest bit of its size. *)
Lemma canonical_log2 me : me <> [] -> canonical me <-> Z.log2 (bval me) = len me - 1 /\ 0 < bval me.
Proof.
  intros Hne. destruct (exists_last Hne) as (me' & h & ->). unfold canonical.
  rewrite last_level_lookup, length_app, Nat.add_1_r. cbn [pred].
  rewrite lookup_app_r, Nat.sub_diag by lia. cbn [lookup list_lookup].
  rewrite bval_app, len_app. replace (len [h]) with 1 by done. cbn [bval]. unfold is_zero.
  pose proof (bval_bound me'). pose proof (len_nonneg me'). destruct (Z.eqb_spec h zero_hash) as [->|Hh].
  - split; [done|]. intros [E Hpos]. exfalso.
    assert (len me' <= Z.log2 (bval me')) by (replace (2 ^ len me' * (0 + 2 * 0)) with 0 in * by lia; rewrite Z.add_0_r in *; lia).
    assert (2 ^ len me' <= bval me'); [|lia].
    replace (bval me') with (bval me' + 0) in * by lia. apply Z.log2_le_pow2; lia.
  - split; [|congruence]. intros _. split; [|lia].
    replace (len me' + 1 - 1) with (len me') by lia. apply Z.log2_unique; [lia|].
    rewrite Z.pow_succ_r by lia. lia.
Qed.

Section append.
Context `{Hasher} `{!HasherNonzero}.

Lemma fill_loop_append level me : forall i x pre post, length pre = i ->
  fill_loop level i x me (pre ++ replicate (length me) zero_hash ++ post) =
  match append_loop level (Z.of_nat i) x me with
  | Ok (nx, acc) => Ok (pre ++ nx ++ post, acc)
  | _ => Err (ErrNew "Append above least significant bit")
  end.
Proof.
  induction me as [|h me IH]; intros i x pre post Hi; cbn [fill_loop append_loop]; [done|].
  cbn [length replicate app]. unfold mbind, res_bind, require.
  assert (Hset : forall v, <[i:=v]> (pre ++ zero_hash :: replicate (length me) zero_hash ++ post)
      = (pre ++ [v]) ++ replicate (length me) zero_hash ++ post).
  { intros v. subst i. rewrite <- (Nat.add_0_r (length pre)), insert_app_r. cbn. by rewrite <- app_assoc. }
  assert (Hstep : forall v y, fill_loop level (S i) y me ((pre ++ [v]) ++ replicate (length me) zero_hash ++ post) =
    match append_loop level (Z.of_nat i + 1) y me with
    | Ok (nx, acc) => Ok (pre ++ (v :: nx) ++ post, acc)
    | _ => Err (ErrNew "Append above least significant bit")
    end).
  { intros v y. rewrite IH by (rewrite length_app; cbn; lia). rewrite Nat2Z.inj_succ. unfold Z.succ.
    destruct (append_loop _ _ _ _) as [[nx acc]| | |]; [|done..]. by rewrite <- app_assoc. }
  destruct (Z.ltb_spec (Z.of_nat i) level).
  - destruct (h =? zero_hash); [|done].
    change (zero_hash :: replicate (length me) zero_hash ++ post)
      with ([zero_hash] ++ replicate (length me) zero_hash ++ post).
    rewrite (app_assoc pre), Hstep. by destruct (append_loop _ _ _ _) as [[nx acc]| | |].
  - destruct (x =? zero_hash); [|destruct (h =? zero_hash)]; rewrite Hset, Hstep;
      by destruct (append_loop _ _ _ _) as [[nx acc]| | |].
Qed.

(** The value added by a run of the loop. *)
Lemma append_loop_bval level me : forall i x nx acc,
  append_loop level i x me = Ok (nx, acc) -> 0 <= i -> 0 <= level -> x = zero_hash \/ level <= i + len me ->
  length nx = length me /\
  2 ^ i * bval nx + (if acc =? zero_hash then 0 else 2 ^ (i + len me)) =
  2 ^ i * bval me + (if x =? zero_hash then 0 else 2 ^ Z.max i level).
Proof.
  induction me as [|h me IH]; intros i x nx acc E Hi Hl Hx; cbn [append_loop] in E.
  { injection E as <- <-. split; [done|]. cbn [bval]. unfold len in *. cbn [length] in *.
    destruct (Z.eqb_spec x zero_hash); [done|]. destruct Hx as [->|]; [done|].
    replace (Z.max i level) with (i + Z.of_nat 0) by lia. lia. }
  assert (El : len (h :: me) = len me + 1) by (unfold len; cbn [length]; lia). rewrite El in *.
  assert (Ep : 2 ^ (i + 1) = 2 * 2 ^ i) by (rewrite Z.pow_add_r by lia; lia).
  replace (i + (len me + 1)) with (i + 1 + len me) in * by lia. unfold mbind, res_bind in E.
  destruct (Z.ltb_spec i level).
  - destruct (Z.eqb_spec h zero_hash) as [->|]; [|done].
    destruct (append_loop level (i + 1) x me) as [[nx' acc']| | |] eqn:E'; try done. injection E as <- <-.
    destruct (IH _ _ _ _ E' ltac:(lia) Hl ltac:(intuition lia)) as [Hlen Hv]. split; [cbn; lia|].
    cbn [bval]. unfold is_zero. rewrite Z.eqb_refl. rewrite Ep in Hv.
    replace (Z.max (i + 1) level) with (Z.max i level) in Hv by lia. lia.
  - destruct (Z.eqb_spec x zero_hash) as [->|Hx0]; [|destruct (Z.eqb_spec h zero_hash) as [->|Hh]];
    destruct (append_loop _ _ _ me) as [[nx' acc']| | |] eqn:E'; try done; injection E as <- <-;
    destruct (IH _ _ _ _ E' ltac:(lia) Hl ltac:(first [by left|right; lia])) as [Hlen Hv];
    (split; [cbn; lia|]); cbn [bval]; unfold is_zero; rewrite Ep in Hv.
    + rewrite Z.eqb_refl in *. lia.
    + rewrite Z.eqb_refl in *. rewrite (proj2 (Z.eqb_neq x zero_hash)) by done.
      replace (Z.max i level) with i by lia. lia.
    + rewrite (proj2 (Z.eqb_neq h zero_hash)) by done. rewrite Z.eqb_refl in *.
      rewrite (proj2 (Z.eqb_neq (hash_node h x) zero_hash)) in Hv by apply keccak_nonzero.
      replace (Z.max i level) with i by lia. replace (Z.max (i + 1) level) with (i + 1) in Hv by lia. lia.
Qed.

(** Appending needs the levels below to be empty. *)
Lemma append_loop_divide level me : forall i x r,
  append_loop level i x me = Ok r -> i <= level -> (2 ^ (level - i) | bval me).
Proof.
  induction me as [|h me IH]; intros i x r E Hi; cbn [append_loop bval] in *; [apply Z.divide_0_r|].
  destruct (Z.ltb_spec i level); [|replace (level - i) with 0 by lia; apply Z.divide_1_l].
  unfold is_zero. destruct (h =? zero_hash); [|done]. unfold mbind, res_bind in E.
  destruct (append_loop level (i + 1) x me) as [r'| | |] eqn:E'; try done.
  destruct (IH _ _ _ E' ltac:(lia)) as [q Hq]. exists q. rewrite Hq.
  replace (level - i) with (1 + (level - (i + 1))) by lia. rewrite Z.pow_add_r by lia. lia.
Qed.

(** What both versions compute once their guards are passed. *)
Record appended (me : list Hash) (level : Z) (x : Hash) (nx : list Hash) (acc : Hash) : Prop := {
  appended_loop : append_loop level 0 x me = Ok (nx, acc);
  appended_length : length nx = length me;
  appended_value : bval nx + (if acc =? zero_hash then 0 else 2 ^ len me) = bval me + 2 ^ level;
  appended_double : bval me + 2 ^ level <= 2 * bval me;
}.

Lemma append_loop_appended me level x nx acc :
  append_loop level 0 x me = Ok (nx, acc) -> 0 <= level < len me -> x <> zero_hash -> 0 < bval me ->
  appended me level x nx acc.
Proof.
  intros E Hl Hx Hpos.
  destruct (append_loop_bval _ _ _ _ _ _ E) as [Hlen Hv]; [lia|lia|right; lia|].
  rewrite (proj2 (Z.eqb_neq x zero_hash)) in Hv by done.
  change (2 ^ 0) with 1 in Hv. replace (Z.max 0 level) with level in Hv by lia. rewrite Z.add_0_l in Hv.
  split; [done|done|lia|]. destruct (append_loop_divide _ _ _ _ _ E ltac:(lia)) as [q Hq].
  rewrite Z.sub_0_r in Hq. assert (0 < 2 ^ level) by (apply Z.pow_pos_nonneg; lia). assert (0 < q) by nia. nia.
Qed.

Lemma log2_double a b : 0 < a -> a <= b <= 2 * a -> Z.log2 a <= Z.log2 b <= Z.log2 a + 1.
Proof.
  intros Ha Hb. pose proof (Z.log2_le_mono a b ltac:(lia)).
  pose proof (Z.log2_le_mono b (2 * a) ltac:(lia)). rewrite Z.log2_double in * by lia. lia.
Qed.

(** Whether the array is enlarged. *)
Definition grows (me : list Hash) (level : Z) : bool := Z.log2 (bval me) <? Z.log2 (bval me + 2 ^ level).

Definition fill (me nx : list Hash) (level : Z) (acc : Hash) : list Hash :=
  let next := nx ++ (if grows me level then [zero_hash] else []) in
  if acc =? zero_hash then next else <[pred (length next) := acc]> next.

Lemma appendCompleteSubTree_eq me level x :
  me <> [] -> 0 <= level < len me -> len me <= 64 -> level < 64 -> x <> zero_hash -> 0 < bval me ->
  appendCompleteSubTree me level x =
  (_ ← require (len me + (if grows me level then 1 else 0) <=? MAX_LEVEL) "Append creates oversize tree";
   match append_loop level 0 x me with
   | Ok (nx, acc) =>
       _ ← require (bool_decide (last_level (fill me nx level acc) <> Some zero_hash)) "Last entry zero";
       Ok (fill me nx level acc)
   | _ => Err (ErrNew "Append above least significant bit")
   end).
Proof.
  intros Hne Hl H64 Hl64 Hx Hpos. unfold appendCompleteSubTree.
  assert (0 < 2 ^ level <= 2 ^ 63) by (split; [apply Z.pow_pos_nonneg; lia|apply Z.pow_le_mono_r; lia]).
  assert (bval me < 2 ^ 64) by (pose proof (bval_bound me); pose proof (Z.pow_le_mono_r 2 (len me) 64 ltac:(lia) ltac:(lia)); lia).
  rewrite (proj2 (Z.ltb_lt level MAX_LEVEL)) by (change MAX_LEVEL with 64; lia).
  rewrite (proj2 (Z.eqb_neq x zero_hash)) by done.
  rewrite (proj2 (Z.leb_le (len me) MAX_LEVEL)) by (unfold MAX_LEVEL; lia). cbn [require negb mbind res_bind].
  rewrite (proj2 (Z.eqb_neq (len me) 0)) by lia. rewrite (proj2 (Z.ltb_lt level (len me))) by lia.
  cbn [require mbind res_bind]. rewrite treeSize_bval by done. cbn [mbind res_bind].
  assert (2 ^ 64 + 2 ^ 63 < two256) by done.
  rewrite checked_ok by (change (2 ^ 256) with two256; lia). cbn [mbind res_bind].
  rewrite !mostSignificantBit_log2 by lia. cbn [mbind res_bind]. fold (grows me level).
  assert (Er : replicate (if grows me level then S (length me) else length me) zero_hash =
    [] ++ replicate (length me) zero_hash ++ (if grows me level then [zero_hash] else [])).
  { cbn [app]. destruct (grows me level); [|by rewrite app_nil_r]. apply replicate_S_end. }
  rewrite Er. rewrite (fill_loop_append level me 0 x [] _ eq_refl). cbn [app]. rewrite len_app.
  replace (len (replicate (length me) zero_hash)) with (len me) by (unfold len; by rewrite length_replicate).
  replace (len (if grows me level then [zero_hash] else [])) with (if grows me level then 1 else 0)
    by (by destruct (grows me level)).
  destruct (require (_ <=? MAX_LEVEL) _) as [[]| | |]; [|done..]. cbn [mbind res_bind Z.of_nat].
  change (Z.of_nat 0) with 0. destruct (append_loop level 0 x me) as [[nx acc]| | |]; [|done..]. cbn [mbind res_bind].
  fold (fill me nx level acc). by rewrite last_level_lookup.
Qed.

(** On a canonical expansion the array is enlarged exactly when a hash is carried out. *)
Lemma fill_canonical me level x nx acc :
  appended me level x nx acc -> 0 <= level -> me <> [] -> canonical me ->
  grows me level = negb (acc =? zero_hash) /\
  fill me nx level acc = (if acc =? zero_hash then nx else nx ++ [acc]) /\
  canonical (fill me nx level acc) /\ bval (fill me nx level acc) = bval me + 2 ^ level.
Proof.
  intros [_ Hlen Hv Hd] Hl Hne Hc. apply canonical_log2 in Hc as [Elog Hpos]; [|done].
  assert (El : len nx = len me) by (unfold len; by rewrite Hlen).
  pose proof (bval_bound nx) as Hnx. pose proof (bval_bound me) as Hme. rewrite El in Hnx.
  assert (0 < 2 ^ level) by (apply Z.pow_pos_nonneg; lia).
  assert (Eg : grows me level = negb (acc =? zero_hash)).
  { unfold grows. destruct (acc =? zero_hash); cbn [negb].
    - apply Z.ltb_ge. rewrite Elog.
      assert (Z.log2 (bval me + 2 ^ level) < len me) by (apply Z.log2_lt_pow2; lia). lia.
    - apply Z.ltb_lt. rewrite Elog.
      assert (len me <= Z.log2 (bval me + 2 ^ level)) by (apply Z.log2_le_pow2; lia). lia. }
  assert (Ef : fill me nx level acc = if acc =? zero_hash then nx else nx ++ [acc]).
  { unfold fill. rewrite Eg. destruct (Z.eqb_spec acc zero_hash); cbn [negb]; [apply app_nil_r|].
    rewrite length_app, Nat.add_1_r. cbn [pred].
    by rewrite <- (Nat.add_0_r (length nx)), insert_app_r. }
  assert (Ev : bval (if acc =? zero_hash then nx else nx ++ [acc]) = bval me + 2 ^ level).
  { unfold is_zero in *. destruct (acc =? zero_hash) eqn:Ea; [lia|]. rewrite bval_app, El. cbn [bval].
    unfold is_zero. rewrite Ea. lia. }
  split_and!; [done|done| |by rewrite Ef].
  rewrite Ef. apply canonical_log2; [|rewrite Ev; split; [|lia]].
  - destruct me, nx, (acc =? zero_hash); done.
  - destruct (log2_double (bval me) (bval me + 2 ^ level)) as [Hlo Hhi]; [lia..|].
    destruct (acc =? zero_hash); rewrite ?len_app, El.
    + unfold grows in Eg. apply Z.ltb_ge in Eg. lia.
    + unfold grows in Eg. apply Z.ltb_lt in Eg. replace (len [acc]) with 1 by done. lia.
Qed.

(** The guards of both versions. *)
Lemma append_guards me level x r :
  me <> [] -> appendCompleteSubTree me level x = Ok r ->
  level < len me /\ len me <= 64 /\ level < 64 /\ x <> zero_hash /\ 0 < bval me.
Proof.
  intros Hne. unfold appendCompleteSubTree, require, mbind, res_bind, MAX_LEVEL.
  destruct (Z.ltb_spec level 64); [|done]. destruct (Z.eqb_spec x zero_hash); [done|]. cbn [negb].
  destruct (Z.leb_spec (len me) 64); [|done].
  destruct (Z.eqb_spec (len me) 0) as [E|]; [destruct me; [done|unfold len in E; cbn [length] in E; lia]|].
  destruct (Z.ltb_spec level (len me)); [|done]. rewrite treeSize_bval by done.
  pose proof (bval_bound me). destruct (Z.eq_dec (bval me) 0) as [E|]; [|intros _; split_and!; done || lia].
  rewrite E. intros Hr. destruct (checked _ _); try done. by destruct (mostSignificantBit a).
Qed.

(** The contract appends to canonical expansions only. *)
Lemma append_reverts me level x r :
  me <> [] -> 0 <= level -> appendCompleteSubTree me level x = Ok r -> canonical me.
Proof.
  intros Hne Hl E. destruct (append_guards _ _ _ _ Hne E) as (H1 & H2 & H3 & H4 & Hpos).
  rewrite appendCompleteSubTree_eq in E by (done || lia). unfold mbind, res_bind in E.
  destruct (require (_ <=? _) _) as [[]| | |]; try done.
  destruct (append_loop level 0 x me) as [[nx acc]| | |] eqn:El; try done.
  destruct (append_loop_appended _ _ _ _ _ El ltac:(lia) H4 Hpos) as [_ Hlen Hv Hd].
  case_bool_decide as Hlast; [|done]. clear E.
  pose proof (bval_bound me). pose proof (bval_bound nx) as Hnx.
  assert (En : len nx = len me) by (unfold len; by rewrite Hlen). rewrite En in Hnx.
  assert (0 < 2 ^ level) by (apply Z.pow_pos_nonneg; lia).
  assert (Hm : 0 < len me) by lia. apply canonical_log2; [done|]. split; [|done].
  assert (Hup : Z.log2 (bval me) < len me) by (apply Z.log2_lt_pow2; lia).
  destruct (log2_double (bval me) (bval me + 2 ^ level)) as [Hlo Hhi]; [lia..|].
  enough (len me - 1 <= Z.log2 (bval me)) by lia.
  unfold fill in Hlast. unfold is_zero in *. destruct (acc =? zero_hash) eqn:Ea.
  - unfold grows in Hlast. destruct (Z.ltb_spec (Z.log2 (bval me)) (Z.log2 (bval me + 2 ^ level))).
    + destruct Hlast. rewrite last_level_lookup, length_app, Nat.add_1_r. cbn [pred].
      by rewrite lookup_app_r, Nat.sub_diag by lia.
    + rewrite app_nil_r in Hlast. assert (Hcn : canonical nx) by exact Hlast.
      apply canonical_log2 in Hcn as [Hcn _]; [|by destruct nx, me].
      replace (bval nx) with (bval me + 2 ^ level) in Hcn by lia. lia.
  - assert (len me <= Z.log2 (bval me + 2 ^ level)) by (apply Z.log2_le_pow2; lia). lia.
Qed.

(** On canonical expansions it appends what the Go code appends. *)
Lemma append_agrees me level x r :
  me <> [] -> canonical me -> 0 <= level < 64 -> bval me + 2 ^ level < two64 ->
  (appendCompleteSubTree me level x = Ok r <-> AppendCompleteSubTree me level x = Ok r) /\
  (AppendCompleteSubTree me level x = Ok r -> r <> [] /\ canonical r /\ bval r = bval me + 2 ^ level).
Proof.
  intros Hne Hc Hl Hlt. pose proof (canonical_log2 me Hne) as [Hlog _]. destruct (Hlog Hc) as [Elog Hpos].
  assert (0 < 2 ^ level) by (apply Z.pow_pos_nonneg; lia).
  assert (H64 : len me <= 64).
  { assert (Z.log2 (bval me) < 64) by (apply Z.log2_lt_pow2; rewrite <- ?two64_pow; lia). lia. }
  unfold AppendCompleteSubTree, MAX_LEVEL. destruct (Z.leb_spec 64 level); [lia|].
  destruct (Z.eqb_spec x zero_hash) as [->|Hx].
  { split; [|done]. split; [|done]. intros E. by apply append_guards in E as (_ & _ & _ & E & _). }
  destruct (Z.ltb_spec 64 (len me)); [lia|].
  destruct (Z.eqb_spec (len me) 0); [lia || (destruct me; [done|unfold len in *; cbn [length] in *; lia])|].
  destruct (Z.leb_spec (len me) level).
  { split; [|done]. split; [|done]. intros E. apply append_guards in E; [lia|done]. }
  rewrite appendCompleteSubTree_eq by (done || lia). unfold mbind, res_bind.
  destruct (append_loop level 0 x me) as [[nx acc]| | |] eqn:El;
    [|split; [split; [by destruct (require _ _) as [[]| | |]|done]|done]..].
  pose proof (append_loop_appended _ _ _ _ _ El ltac:(lia) Hx Hpos) as Ha.
  destruct (fill_canonical _ _ _ _ _ Ha ltac:(lia) Hne Hc) as (Eg & Ef & Hcf & Hvf). rewrite Ef, Eg in *.
  assert (Hnil : (if acc =? zero_hash then nx else nx ++ [acc]) <> []).
  { intros E. rewrite E in Hvf. cbn in Hvf. lia. }
  assert (Hfit : len (if acc =? zero_hash then nx else nx ++ [acc]) <= 64).
  { destruct (canonical_log2 _ Hnil) as [Hf _]. destruct (Hf Hcf) as [Ef' _].
    assert (Z.log2 (bval me + 2 ^ level) < 64) by (apply Z.log2_lt_pow2; rewrite <- ?two64_pow; lia).
    rewrite Hvf in Ef'. lia. }
  destruct Ha as [_ Hlen _ _]. assert (En : len nx = len me) by (unfold len; by rewrite Hlen).
  destruct (Z.leb_spec (64 + 1) (len (if acc =? zero_hash then nx else nx ++ [acc]))); [lia|].
  rewrite (proj2 (Z.leb_le _ 64)).
  - cbn [require]. rewrite bool_decide_eq_true_2 by exact Hcf. cbn [require].
    split; [done|]. by intros [= <-].
  - revert Hfit. destruct (acc =? zero_hash); cbn [negb]; rewrite ?len_app, En; [lia|].
    replace (len [acc]) with 1 by done. lia.
Qed.

End append.

(** ** Prefix proofs *)

Section prefix.
Context `{Hasher} `{!HasherNonzero}.

Lemma while_agrees proof postSize : forall fuel exp size i r j,
  exp <> [] -> canonical exp -> bval exp = size -> size <= postSize < two64 ->
  (i <= length proof)%nat -> len proof < two64 ->
  append_while fuel proof postSize exp size i = Ok (r, j) <->
  verify_loop fuel proof postSize exp size (Z.of_nat i) = Ok (r, Z.of_nat j).
Proof.
  induction fuel as [|fuel IH]; intros exp size i r j Hne Hc Hsize Hpost Hi Hlen; [done|].
  cbn [append_while verify_loop]. destruct (Z.ltb_spec size postSize) as [Hlt|Hge]; cycle 1.
  { split; intros [= -> E]; repeat f_equal; lia. }
  pose proof (bval_bound exp). rewrite maximumAppendBetween_go, MaximumAppendBetween_eq by lia.
  cbn [mbind res_bind]. rewrite Nat2Z.id.
  destruct (proof !! i) as [p|] eqn:Ep; [|done]. apply lookup_lt_Some in Ep.
  destruct (append_level_spec size postSize ltac:(lia) ltac:(lia)) as (Hk & _ & Hle). cbv zeta in *.
  set (k := append_level size postSize) in *. assert (0 < 2 ^ k) by (apply Z.pow_pos_nonneg; lia).
  assert (Ha : forall q, (appendCompleteSubTree exp k p = Ok q <-> AppendCompleteSubTree exp k p = Ok q) /\
    (AppendCompleteSubTree exp k p = Ok q -> q <> [] /\ canonical q /\ bval q = bval exp + 2 ^ k)).
  { intros q. apply append_agrees; [done|done|lia|lia]. }
  unfold shl64, u256. rewrite !Z.shiftl_1_l.
  assert (2 ^ k < two64) by lia. assert (two64 < two256) by done.
  rewrite (u64_small (2 ^ k)) by lia. rewrite (Z.mod_small (2 ^ k)) by lia.
  rewrite u64_small by lia. rewrite checked_ok by (change (2 ^ 256) with two256; lia).
  destruct (Z.ltb_spec postSize (size + 2 ^ k)); [lia|].
  cbn [mbind res_bind]. rewrite (proj2 (Z.leb_le (size + 2 ^ k) postSize)) by lia. cbn [require mbind res_bind].
  rewrite u64_small by (unfold len in *; lia). replace (Z.of_nat i + 1) with (Z.of_nat (S i)) by lia.
  destruct (AppendCompleteSubTree exp k p) as [q| | |] eqn:Eg; cycle 1.
  1-3: destruct (appendCompleteSubTree exp k p) as [q| | |] eqn:Es; try done;
    destruct (Ha q) as [[Hs _] _]; discriminate (Hs eq_refl).
  destruct (Ha q) as [[_ Hs] Hq]. rewrite (Hs eq_refl). destruct (Hq eq_refl) as (Hq0 & Hqc & Hqv).
  cbn [mbind res_bind]. apply IH; try done; lia.
Qed.

Lemma root_Root me r : root me = Ok r <-> Root me = Ok r.
Proof.
  unfold root, Root, require, mbind, res_bind, MAX_LEVEL. pose proof (len_nonneg me).
  destruct (Z.ltb_spec 0 (len me)), (Z.ltb_spec 64 (len me)), (Z.leb_spec (len me) 64),
    (Z.eqb_spec (len me) 0); try lia; done.
Qed.

Lemma root_guards me r : root me = Ok r -> me <> [] /\ len me <= 64.
Proof.
  unfold root, require, mbind, res_bind, MAX_LEVEL. destruct (Z.ltb_spec 0 (len me)); [|done].
  destruct (Z.leb_spec (len me) 64); [|done]. intros _. split; [by intros ->|done].
Qed.

(** The loop ends where it started or has appended. *)
Lemma append_while_canonical fuel proof postSize exp size i r j :
  append_while fuel proof postSize exp size i = Ok (r, j) -> size < postSize -> 0 <= size -> postSize < two64 ->
  exp <> [] -> canonical exp.
Proof.
  destruct fuel; [done|]. cbn [append_while]. intros E Hlt Hs0 Hpost Hne.
  destruct (Z.ltb_spec size postSize); [|lia]. rewrite maximumAppendBetween_go in E by lia. cbn [mbind res_bind] in E.
  destruct (append_level_spec size postSize ltac:(lia) ltac:(lia)) as (Hk & _). cbv zeta in *.
  destruct (proof !! i); [|done].
  destruct (appendCompleteSubTree exp _ _) as [q| | |] eqn:Ea; try done.
  by eapply append_reverts; [| |exact Ea]; [done|lia].
Qed.

Definition config (preRoot : Hash) (preSize : Z) (postRoot : Hash) (postSize : Z) (preExpansion proof : list Hash)
    : VerifyPrefixProofConfig := {|
  PreRoot := preRoot; PreSize := preSize; PostRoot := postRoot; PostSize := postSize;
  PreExpansion := preExpansion; PrefixProof := proof |}.

(** What an accepting run of the contract has established. *)
Lemma verifyPrefixProof_ok preRoot preSize postRoot postSize pre proof :
  verifyPrefixProof preRoot preSize postRoot postSize pre proof = Ok tt <->
  0 < preSize /\ root pre = Ok preRoot /\ treeSize pre = Ok preSize /\ preSize < postSize /\
  exists exp, append_while (S (length proof)) proof postSize pre preSize 0 = Ok (exp, length proof) /\
    root exp = Ok postRoot.
Proof.
  unfold verifyPrefixProof, require, mbind, res_bind. split.
  - destruct (Z.ltb_spec 0 preSize); [|done]. destruct (root pre) as [r| | |]; try done.
    destruct (Z.eqb_spec r preRoot) as [->|]; [|done]. destruct (treeSize pre) as [n| | |]; try done.
    destruct (Z.eqb_spec n preSize) as [->|]; [|done]. destruct (Z.ltb_spec preSize postSize); [|done].
    destruct (append_while _ _ _ _ _ _) as [[exp j]| | |] eqn:E; try done.
    destruct (root exp) as [r| | |] eqn:Er; try done. destruct (Z.eqb_spec r postRoot) as [->|]; [|done].
    destruct (Nat.eqb_spec j (length proof)) as [->|]; [|done]. intros _. eauto 10.
  - intros (H1 & -> & -> & H2 & exp & -> & ->). destruct (Z.ltb_spec 0 preSize); [|lia].
    rewrite !Z.eqb_refl, Nat.eqb_refl. by destruct (Z.ltb_spec preSize postSize); [|lia].
Qed.

(** The contract accepts what the Go code accepts, on canonical pre-expansions. *)
Lemma verifyPrefixProof_go preRoot preSize postRoot postSize pre proof :
  postSize < two64 -> len proof < two64 -> 0 <= preSize ->
  verifyPrefixProof preRoot preSize postRoot postSize pre proof = Ok tt <->
  VerifyPrefixProof (config preRoot preSize postRoot postSize pre proof) = Ok tt /\ canonical pre.
Proof.
  intros Hpost Hlen Hs0. rewrite verifyPrefixProof_ok. split.
  - intros (Hpos & Er & Et & Hlt & exp & Ew & Ex). destruct (root_guards _ _ Er) as [Hne H64].
    assert (Hc : canonical pre) by (eapply append_while_canonical; [done|lia..|done]). split; [|done].
    rewrite treeSize_bval in Et by done. injection Et as Et.
    apply while_agrees in Ew; [|done|done|done|lia|lia|done].
    apply root_Root in Er, Ex. unfold VerifyPrefixProof, config.
    cbn [PreRoot PreSize PostRoot PostSize PreExpansion PrefixProof].
    rewrite Er, TreeSize_bval, Et by done. cbn [wrap_err mbind res_bind]. change (Z.of_nat 0) with 0 in Ew.
    rewrite Ew. cbn [mbind res_bind]. rewrite Ex. cbn [wrap_err mbind res_bind].
    unfold len. rewrite !Z.eqb_refl. cbn [negb].
    destruct (Z.eqb_spec preSize 0); [lia|]. by destruct (Z.leb_spec postSize preSize); [lia|].
  - intros [Hv Hc]. unfold VerifyPrefixProof, config in Hv.
    cbn [PreRoot PreSize PostRoot PostSize PreExpansion PrefixProof] in Hv.
    unfold mbind, res_bind, wrap_err in Hv. destruct (Z.eqb_spec preSize 0); [done|].
    destruct (Root pre) as [r| | |] eqn:Er; try done. destruct (Z.eqb_spec r preRoot) as [->|]; [|done].
    cbn [negb] in Hv. apply root_Root in Er. destruct (root_guards _ _ Er) as [Hne H64].
    rewrite TreeSize_bval in Hv by done. rewrite treeSize_bval by done.
    destruct (Z.eqb_spec preSize (bval pre)) as [->|]; [|done]. cbn [negb] in Hv.
    destruct (Z.leb_spec postSize (bval pre)); [done|].
    destruct (verify_loop _ _ _ _ _ _) as [[exp j]| | |] eqn:Ew; try done.
    destruct (Root exp) as [r| | |] eqn:Ex; try done. destruct (Z.eqb_spec r postRoot) as [->|]; [|done].
    cbn [negb] in Hv. destruct (Z.eqb_spec j (len proof)) as [->|]; [|done].
    apply root_Root in Ex. split_and!; [lia|done|done|lia|]. exists exp. split; [|done].
    apply while_agrees; [done|done|done|lia|lia|done|exact Ew].
Qed.

(** (C16) What the challenge contract and the Go code accept as a prefix proof, for sizes
    of 64 bits: [MerkleTreeLib.verifyPrefixProof] succeeds exactly when
    [VerifyPrefixProof] does and the pre-expansion has no empty top level.  The check
    the validator makes before it sends a bisection is therefore weaker than that of
    the contract by this one condition, which its own expansions meet. *)
Theorem contract_verifies_prefix preRoot preSize postRoot postSize pre proof :
  postSize < two64 -> len proof < two64 -> 0 <= preSize ->
  verifyPrefixProof preRoot preSize postRoot postSize pre proof = Ok tt <->
  VerifyPrefixProof (config preRoot preSize postRoot postSize pre proof) = Ok tt /\ canonical pre.
Proof. apply verifyPrefixProof_go. Qed.

(** The proofs the validator generates are accepted by the contract. *)
Lemma contract_accepts_generated pre leaves :
  pre <> [] -> nonzero pre -> leaves <> [] -> len pre + len leaves < 2 ^ 63 ->
  exists proof numRead,
    GeneratePrefixProof (len pre) (expansion_of pre) leaves RootFetcherFromExpansion = Ok proof /\
    MerkleExpansionFromCompact proof (len pre) = Ok (expansion_of pre, numRead) /\
    (len proof < two64 ->
     verifyPrefixProof (merkle pre) (len pre) (merkle (pre ++ (hash_leaf <$> leaves))) (len pre + len leaves)
       (expansion_of pre) (drop (Z.to_nat numRead) proof) = Ok tt).
Proof.
  intros Hne Hnz Hne' Hlt.
  destruct (honest_proof pre leaves Hne Hnz Hne' Hlt) as (proof & n & Eg & Em & Hn & Hv).
  exists proof, n. split_and!; [done..|]. intros Hp. apply verifyPrefixProof_go.
  - unfold two64. change (2 ^ 63) with 9223372036854775808 in Hlt. lia.
  - unfold len in *. rewrite length_drop. lia.
  - apply len_nonneg.
  - split; [exact Hv|by apply canonical_expansion].
Qed.

(** ** Inclusion proofs *)

Lemma route_loop_calculate route nodes : forall i h,
  is_u64 route -> 0 <= i -> i + len nodes <= 256 ->
  route_loop route i h nodes = calculate_loop route i h nodes.
Proof.
  induction nodes as [|n nodes IH]; intros i h Hr Hi Hl; [done|]. cbn [route_loop calculate_loop].
  assert (E : len (n :: nodes) = len nodes + 1) by (unfold len; cbn [length]; lia).
  pose proof (len_nonneg nodes). rewrite IH by (done || lia). f_equal.
  assert (Z.land route (u256 (Z.shiftl 1 i)) = Z.land route (shl64 1 i)) as ->; [|done].
  unfold shl64, u256. rewrite Z.shiftl_1_l, Z.mod_small
    by (split; [lia|apply Z.pow_lt_mono_r; lia]).
  destruct (Z.lt_ge_cases i 64) as [Hs|Hb].
  - rewrite u64_small by (rewrite two64_pow; split; [lia|apply Z.pow_lt_mono_r; lia]). done.
  - unfold u64. replace (2 ^ i) with (2 ^ (i - 64) * two64)
      by (rewrite two64_pow, <- Z.pow_add_r by lia; f_equal; lia).
    rewrite Z.mod_mul, Z.land_0_r by done. rewrite two64_pow, <- Z.pow_add_r by lia.
    replace (i - 64 + 64) with i by lia. apply Z.bits_inj'. intros m Hm.
    rewrite Z.land_spec, Z.bits_0, Z.pow2_bits_eqb by lia.
    destruct (Z.eqb_spec i m) as [->|]; [|apply andb_false_r]. rewrite andb_true_r.
    destruct (Z.eq_dec route 0) as [->|]; [apply Z.bits_0|].
    apply Z.bits_above_log2; [unfold is_u64 in *; lia|].
    assert (Z.log2 route < 64); [|lia].
    apply Z.log2_lt_pow2; unfold is_u64 in *; rewrite <- ?two64_pow; lia.
Qed.

Lemma verifyInclusionProof_go rootHash leaf index proof :
  is_u64 index ->
  verifyInclusionProof rootHash leaf index proof = Ok tt <->
  CalculateRootFromProof proof index leaf = Ok rootHash.
Proof.
  intros Hi. unfold verifyInclusionProof, calculateRoot, CalculateRootFromProof, mbind, res_bind, require.
  destruct (Z.ltb_spec 256 (len proof)); [done|]. rewrite route_loop_calculate by (done || lia).
  destruct (Z.eqb_spec rootHash (calculate_loop index 0 (hash_leaf leaf) proof)) as [->|]; [done|].
  split; [done|]. intros [= E]. by subst.
Qed.

End prefix.

Section soundness.
Context `{Hasher} `{!HasherNonzero} `{!HasherInjective}.

(** Soundness of the prefix proofs of the contract, for a collision-free hash: when
    [MerkleTreeLib.verifyPrefixProof] does not revert against the root of a list of
    leaves, the pre-size is that of a proper non-empty prefix of the leaves, the
    pre-expansion is its expansion and the pre-root is its root.  Unlike the Go
    verifier the contract needs no side condition on the pre-expansion. *)
Theorem contract_prefix_sound preRoot preSize pre proof leaves :
  verifyPrefixProof preRoot preSize (merkle (hash_leaf <$> leaves)) (len leaves) pre proof = Ok tt ->
  len leaves < two64 -> len proof < two64 ->
  0 < preSize < len leaves /\
  pre = expansion_of (hash_leaf <$> take (Z.to_nat preSize) leaves) /\
  preRoot = merkle (hash_leaf <$> take (Z.to_nat preSize) leaves).
Proof.
  intros Hv Hlt Hlen. assert (Hok := proj1 (verifyPrefixProof_ok _ _ _ _ _ _) Hv).
  destruct Hok as (Hpos & Er & _ & Hpp & _). split; [lia|].
  apply verifyPrefixProof_go in Hv as [Hg Hc]; [|lia..].
  destruct (accepted_expansion _ leaves Hg Hc) as [_ E]; [done..|]. cbn in E. subst pre. split; [done|].
  apply root_Root in Er. rewrite Root_expansion in Er.
  - by injection Er.
  - apply nonzero_leaves.
  - intros E. apply (f_equal length) in E. unfold len in *. rewrite length_fmap, length_take in E. cbn in E. lia.
  - unfold len in *. rewrite length_fmap, length_take. lia.
Qed.

End soundness.

(** ** Witnesses *)

Definition shorter_history : list Hash := [11; 12].
Definition longer_history : list Hash := [11; 12; 13].

Lemma contract_verifies_prefix_witness :
  let H : Hasher := toy_keccak in
  let pre := expansion_of (hash_leaf <$> shorter_history) in
  VerifyPrefixProof (config (merkle (hash_leaf <$> shorter_history)) 2 (merkle (hash_leaf <$> longer_history)) 3
    pre [hash_leaf 13]) = Ok tt /\ canonical pre.
Proof.
  intros H pre. apply (@contract_verifies_prefix toy_keccak toy_nonzero); [done..|].
  vm_compute. reflexivity.
Defined.

Lemma contract_prefix_sound_witness :
  let H : Hasher := toy_keccak in
  0 < 2 < len longer_history /\
  expansion_of (hash_leaf <$> shorter_history) = expansion_of (hash_leaf <$> take (Z.to_nat 2) longer_history) /\
  merkle (hash_leaf <$> shorter_history) = merkle (hash_leaf <$> take (Z.to_nat 2) longer_history).
Proof.
  intros H. apply (@contract_prefix_sound toy_keccak toy_nonzero toy_injective _ _ _ [hash_leaf 13]); [|done..].
  vm_compute. reflexivity.
Defined.
