(* ===== verification/CommitChain.v ===== *)
(** * Prefixes of prefixes

    The contract checks that the root of a bisection commits to a prefix of the end root
    of the edge, and nothing more: that the start root commits to a prefix of the root of
    the bisection is not checked.  It follows, for edges between the heights the contract
    uses, from what was checked before; this file shows how. *)

From S2P Require Import Prelude Bits PrefixProofs MerkleSpec PrefixComplete PrefixSound MerkleContract.

Section chains.
Context `{Hasher} `{!HasherNonzero} `{!HasherInjective}.

(** ** Appending as carrying *)

Fixpoint carry (x : Hash) (me : list Hash) : list Hash :=
  match me with
  | [] => [x]
  | h :: me' => if h =? zero_hash then x :: me' else zero_hash :: carry (hash_node h x) me'
  end.

(** [r] is [me] with a complete subtree of root [x] appended at level [j]. *)
Definition adds (j : nat) (x : Hash) (me r : list Hash) : Prop :=
  x <> zero_hash /\ exists me', me' <> [] /\ me = replicate j zero_hash ++ me' /\
    r = replicate j zero_hash ++ carry x me'.

Lemma append_loop_carry level me : forall i x, level <= i -> x <> zero_hash ->
  exists nx acc, append_loop level i x me = Ok (nx, acc) /\ length nx = length me /\
    carry x me = if acc =? zero_hash then nx else nx ++ [acc].
Proof.
  induction me as [|h me IH]; intros i x Hi Hx; cbn [append_loop carry].
  { exists [], x. by rewrite eqb_zero_false. }
  destruct (Z.ltb_spec i level); [lia|]. rewrite (eqb_zero_false x) by done. destruct (h =? zero_hash).
  - rewrite append_loop_zero by lia. by exists (x :: me), zero_hash.
  - destruct (IH (i + 1) (hash_node h x)) as (nx & acc & -> & El & ->); [lia|apply keccak_nonzero|].
    exists (zero_hash :: nx), acc. cbn. split_and!; [done|by rewrite El|]. by destruct (acc =? zero_hash).
Qed.

(** Appending succeeds only above empty levels. *)
Lemma append_loop_empty level me : forall i x r, 0 <= i -> append_loop level i x me = Ok r ->
  i <= level -> level <= i + len me -> take (Z.to_nat (level - i)) me = replicate (Z.to_nat (level - i)) zero_hash.
Proof.
  induction me as [|h me IH]; intros i x r Hi E Hl Hlt.
  { unfold len in Hlt. cbn in Hlt. replace (level - i) with 0 by lia. done. }
  cbn [append_loop] in E. destruct (Z.ltb_spec i level); [|by replace (level - i) with 0 by lia].
  destruct (Z.eqb_spec h zero_hash) as [->|]; [|done]. unfold mbind, res_bind in E.
  destruct (append_loop level (i + 1) x me) as [r'| | |] eqn:E'; try done.
  assert (El : len (zero_hash :: me) = len me + 1) by (unfold len; cbn [length]; lia).
  replace (Z.to_nat (level - i)) with (S (Z.to_nat (level - (i + 1)))) by lia. cbn [take replicate].
  rewrite (IH (i + 1) x r'); [done|lia|done|lia|lia].
Qed.

Lemma bval_carry me : forall x, x <> zero_hash -> bval (carry x me) = bval me + 1.
Proof.
  induction me as [|h me IH]; intros x Hx; cbn [carry bval].
  { unfold is_zero. by rewrite eqb_zero_false. }
  unfold is_zero. destruct (h =? zero_hash); cbn [bval]; unfold is_zero.
  - rewrite eqb_zero_false by done. lia.
  - rewrite IH by apply keccak_nonzero. change (zero_hash =? zero_hash) with true. cbn. lia.
Qed.

Lemma canonical_app l me : me <> [] -> canonical (l ++ me) <-> canonical me.
Proof.
  intros Hne. unfold canonical. rewrite !last_level_lookup, length_app.
  destruct me as [|h me]; [done|]. cbn [length]. rewrite lookup_app_r by lia.
  by replace (pred (length l + S (length me)) - length l)%nat with (pred (S (length me))) by lia.
Qed.

Lemma carry_nonempty x me : carry x me <> [].
Proof. destruct me; cbn; [done|]. by destruct (_ =? _). Qed.

Lemma canonical_carry me : forall x, x <> zero_hash -> canonical me -> canonical (carry x me).
Proof.
  induction me as [|h me IH]; intros x Hx Hc; cbn [carry].
  { unfold canonical. cbn. congruence. }
  destruct (h =? zero_hash).
  - destruct me as [|h' me]; [unfold canonical; cbn; congruence|exact Hc].
  - apply (canonical_app [zero_hash]); [apply carry_nonempty|].
    apply IH; [apply keccak_nonzero|by apply canonical_tail in Hc].
Qed.

Lemma bval_zeros j me : bval (replicate j zero_hash ++ me) = 2 ^ Z.of_nat j * bval me.
Proof.
  rewrite bval_app. replace (len (replicate j zero_hash)) with (Z.of_nat j) by (unfold len; by rewrite length_replicate).
  replace (bval (replicate j zero_hash)) with 0; [lia|]. induction j as [|j IH]; [done|]. cbn [replicate bval].
  rewrite <- IH. done.
Qed.

Lemma adds_canonical j x me r : adds j x me r -> canonical me ->
  canonical r /\ bval r = bval me + 2 ^ Z.of_nat j /\ r <> [].
Proof.
  intros (Hx & me' & Hne & -> & ->) Hc. rewrite canonical_app in Hc by done. split_and!.
  - apply canonical_app; [apply carry_nonempty|]. by apply canonical_carry.
  - rewrite !bval_zeros, bval_carry by done. lia.
  - intros E. apply app_eq_nil in E as [_ E]. by apply carry_nonempty in E.
Qed.

Lemma append_adds me j x r :
  me <> [] -> canonical me -> (j < 64)%nat -> bval me + 2 ^ Z.of_nat j < two64 ->
  appendCompleteSubTree me (Z.of_nat j) x = Ok r <-> adds j x me r.
Proof.
  intros Hne Hc Hj Hlt. destruct (append_agrees me (Z.of_nat j) x r Hne Hc) as [-> Hres]; [lia|done|].
  pose proof (canonical_log2 me Hne) as [Hlog _]. destruct (Hlog Hc) as [Elog Hpos].
  assert (0 < 2 ^ Z.of_nat j) by (apply Z.pow_pos_nonneg; lia).
  assert (H64 : len me <= 64).
  { assert (Z.log2 (bval me) < 64) by (apply Z.log2_lt_pow2; rewrite <- ?two64_pow; lia). lia. }
  assert (Hval : forall me', me' <> [] -> me = replicate j zero_hash ++ me' -> x <> zero_hash ->
    AppendCompleteSubTree me (Z.of_nat j) x =
      if MAX_LEVEL + 1 <=? len (replicate j zero_hash ++ carry x me') then Err ErrLevelTooHigh
      else Ok (replicate j zero_hash ++ carry x me')).
  { intros me' Hne' E Hx. unfold AppendCompleteSubTree. rewrite (eqb_zero_false x) by done.
    destruct (Z.leb_spec MAX_LEVEL (Z.of_nat j)); [unfold MAX_LEVEL in *; lia|].
    destruct (Z.ltb_spec MAX_LEVEL (len me)); [unfold MAX_LEVEL in *; lia|].
    destruct (Z.eqb_spec (len me) 0); [destruct me; [done|unfold len in *; cbn [length] in *; lia]|].
    assert (Hlen : len me = Z.of_nat j + len me') by (rewrite E, len_app; unfold len; by rewrite length_replicate).
    assert (0 < len me') by (unfold len; destruct me'; [done|cbn [length]; lia]).
    destruct (Z.leb_spec (len me) (Z.of_nat j)); [lia|]. rewrite E, (append_loop_skip _ _ _ j 0) by lia.
    destruct (append_loop_carry (Z.of_nat j) me' (Z.of_nat j) x) as (nx & acc & -> & _ & ->); [lia|done|].
    cbn [mbind res_bind]. destruct (acc =? zero_hash); [done|]. by rewrite <- app_assoc. }
  split.
  - intros E. assert (Hx : x <> zero_hash /\ Z.of_nat j < len me /\ exists r', append_loop (Z.of_nat j) 0 x me = Ok r').
    { unfold AppendCompleteSubTree in E. destruct (_ <=? _); [done|]. destruct (Z.eqb_spec x zero_hash); [done|].
      destruct (_ <? _); [done|]. destruct (Z.eqb_spec (len me) 0);
        [destruct me; [done|unfold len in *; cbn [length] in *; lia]|].
      destruct (Z.leb_spec (len me) (Z.of_nat j)); [done|]. unfold mbind, res_bind in E.
      destruct (append_loop (Z.of_nat j) 0 x me); try done. eauto. }
    destruct Hx as (Hx & Hjl & r' & El). apply append_loop_empty in El; [|lia..]. rewrite Z.sub_0_r, Nat2Z.id in El.
    split; [done|]. exists (drop j me).
    assert (Ed : me = replicate j zero_hash ++ drop j me) by (by rewrite <- El, take_drop).
    assert (drop j me <> []).
    { intros E'. apply (f_equal length) in E'. rewrite length_drop in E'. unfold len in *. cbn in E'. lia. }
    rewrite (Hval _ ltac:(done) Ed Hx) in E. destruct (_ <=? _); [done|]. by injection E as <-.
  - intros (Hx & me' & Hne' & E & ->). rewrite (Hval _ Hne' E Hx).
    destruct (adds_canonical j x me (replicate j zero_hash ++ carry x me')) as (Hcr & Hbr & Hnr); [|done|].
    { split; [done|]. eauto. }
    apply canonical_log2 in Hcr as [El _]; [|done]. rewrite Hbr in El.
    assert (Z.log2 (bval me + 2 ^ Z.of_nat j) < 64) by (apply Z.log2_lt_pow2; rewrite <- ?two64_pow; lia).
    by destruct (Z.leb_spec (MAX_LEVEL + 1) (len (replicate j zero_hash ++ carry x me'))); [unfold MAX_LEVEL in *; lia|].
Qed.

(** Same shape and same result: same start. *)
Lemma carry_inj me : forall me' x x', shape me = shape me' -> carry x me = carry x' me' -> me = me' /\ x = x'.
Proof.
  induction me as [|h me IH]; intros [|h' me'] x x' Hs E; try done.
  { by injection E as ->. }
  injection Hs as Hh Hs. cbn [carry] in E. unfold is_zero in Hh. destruct (Z.eqb_spec h zero_hash) as [->|Hn].
  - symmetry in Hh. apply Z.eqb_eq in Hh. subst h'. change (zero_hash =? zero_hash) with true in E.
    by injection E as -> ->.
  - rewrite <- Hh in E. injection E as E. destruct (IH _ _ _ Hs E) as [-> En]. by apply hash_node_inj in En as [-> ->].
Qed.

Lemma adds_inj j x x' me me' r : shape me = shape me' -> adds j x me r -> adds j x' me' r -> me = me'.
Proof.
  intros Hs (_ & m & _ & -> & ->) (_ & m' & _ & -> & E). apply app_inv_head in E.
  unfold shape in Hs. rewrite !fmap_app in Hs. apply app_inv_head in Hs.
  by destruct (carry_inj _ _ _ _ Hs E) as [-> _].
Qed.

(** ** The appends of a verification *)

Inductive path (e : Z) : Z -> list Hash -> list Hash -> Prop :=
| path_end me : path e e me me
| path_step s j x me me1 me2 :
    s < e -> append_level s e = Z.of_nat j -> adds j x me me1 -> path e (s + 2 ^ Z.of_nat j) me1 me2 ->
    path e s me me2.

Lemma append_while_path proof e : forall fuel s me i r j,
  append_while fuel proof e me s i = Ok (r, j) -> me <> [] -> canonical me -> bval me = s -> s <= e < two64 ->
  path e s me r.
Proof.
  induction fuel as [|fuel IH]; intros s me i r j E Hne Hc Hs He; [done|]. cbn [append_while] in E.
  pose proof (bval_bound me). destruct (Z.ltb_spec s e) as [Hlt|]; cycle 1.
  { injection E as <- _. replace e with s by lia. constructor. }
  rewrite maximumAppendBetween_go in E by lia. cbn [mbind res_bind] in E.
  destruct (append_level_spec s e ltac:(lia) ltac:(lia)) as (Hk & _ & Hle). cbv zeta in *.
  destruct (proof !! i) as [p|]; [|done].
  assert (0 < 2 ^ append_level s e) by (apply Z.pow_pos_nonneg; lia).
  destruct (Z_of_nat_complete (append_level s e)) as [n En]; [lia|]. rewrite En in *.
  apply res_bind_ok in E as (exp & Ea & E). apply append_adds in Ea; [|done|done|lia|lia].
  destruct (adds_canonical _ _ _ _ Ea Hc) as (Hc1 & Hb1 & Hne1).
  apply res_bind_ok in E as (s' & [Es _]%checked_inv & E). apply res_bind_ok in E as (_ & _ & E).
  assert (Esh : u256 (Z.shiftl 1 (Z.of_nat n)) = 2 ^ Z.of_nat n).
  { rewrite Z.shiftl_1_l. unfold u256. apply Z.mod_small. assert (two64 < two256) by done. lia. }
  rewrite Esh in Es. subst s'. eapply path_step; [lia|done|exact Ea|]. eapply IH; [exact E|done|done|lia|lia].
Qed.

Lemma path_append_while e s me r :
  path e s me r -> me <> [] -> canonical me -> bval me = s -> e < two64 ->
  exists proof, forall pre, append_while (S (length proof)) (pre ++ proof) e me s (length pre)
    = Ok (r, (length pre + length proof)%nat).
Proof.
  induction 1 as [me|s j x me me1 me2 Hlt Hj Ha Hp IH]; intros Hne Hc Hs He.
  { exists []. intros pre. cbn [length append_while]. rewrite Z.ltb_irrefl, Nat.add_0_r. done. }
  pose proof (bval_bound me). destruct (adds_canonical _ _ _ _ Ha Hc) as (Hc1 & Hb1 & Hne1).
  destruct IH as [proof Hrun]; [done|done|lia|done|]. exists (x :: proof). intros pre. cbn [length].
  remember (S (length proof)) as fuel eqn:Ef. cbn [append_while]. destruct (Z.ltb_spec s e); [|lia]. rewrite maximumAppendBetween_go by lia. cbn [mbind res_bind].
  destruct (append_level_spec s e ltac:(lia) ltac:(lia)) as (Hk & _ & Hle). cbv zeta in *. rewrite Hj in *.
  assert (0 < 2 ^ Z.of_nat j) by (apply Z.pow_pos_nonneg; lia).
  rewrite lookup_app_r, Nat.sub_diag by lia. cbn [lookup list_lookup].
  assert (Ea : appendCompleteSubTree me (Z.of_nat j) x = Ok me1) by (apply append_adds; [done|done|lia|lia|done]).
  rewrite Ea. cbn [mbind res_bind]. assert (two64 < two256) by done.
  assert (Esh : u256 (Z.shiftl 1 (Z.of_nat j)) = 2 ^ Z.of_nat j).
  { rewrite Z.shiftl_1_l. unfold u256. apply Z.mod_small. lia. }
  rewrite Esh, checked_ok by (change (2 ^ 256) with two256; lia). cbn [mbind res_bind].
  rewrite (proj2 (Z.leb_le _ e)) by lia. cbn [require mbind res_bind].
  specialize (Hrun (pre ++ [x])). rewrite length_app in Hrun. cbn [length] in Hrun.
  rewrite <- app_assoc in Hrun. cbn [app] in Hrun. rewrite Nat.add_1_r in Hrun. rewrite Hrun. do 2 f_equal. lia.
Qed.

(** ** Dyadic intervals *)

Lemma ctz_unique x q c : 0 <= q -> 0 <= c -> x = (2 * q + 1) * 2 ^ c -> TrailingZeros64 x = c.
Proof.
  intros Hq Hc E. assert (0 < 2 ^ c) by (apply Z.pow_pos_nonneg; lia).
  destruct (TrailingZeros64_spec x ltac:(nia)) as (q' & Hq' & E' & Hc').
  assert (Hodd : forall u v y z, 0 <= y < z -> (2 * u + 1) * 2 ^ y = (2 * v + 1) * 2 ^ z -> False).
  { intros u v y z Hyz Eyz. assert (0 < 2 ^ y) by (apply Z.pow_pos_nonneg; lia).
    assert (2 * u + 1 = 2 * ((2 * v + 1) * 2 ^ (z - y - 1))); [|lia].
    apply (Z.mul_reg_r _ _ (2 ^ y)); [lia|]. rewrite Eyz.
    replace (2 ^ z) with (2 ^ 1 * 2 ^ (z - y - 1) * 2 ^ y) by (rewrite <- !Z.pow_add_r by lia; f_equal; lia). ring. }
  rewrite E in E' at 1. destruct (Z.lt_trichotomy c (TrailingZeros64 x)) as [Hlt|[->|Hlt]]; [exfalso|done|exfalso].
  - by eapply (Hodd q q' c (TrailingZeros64 x)); [lia|].
  - by eapply (Hodd q' q (TrailingZeros64 x) c); [lia|].
Qed.

(** Strictly inside a dyadic interval the level is the lowest bit of the size. *)
Lemma level_inside q k i e :
  0 <= q -> (i < k)%nat -> q * 2 ^ Z.of_nat k + 2 ^ Z.of_nat k <= e -> e < two64 ->
  append_level (q * 2 ^ Z.of_nat k + 2 ^ Z.of_nat i) e = Z.of_nat i.
Proof.
  intros Hq Hi He H64. set (K := 2 ^ Z.of_nat k) in *. set (I := 2 ^ Z.of_nat i).
  assert (HI : 0 < I) by (apply Z.pow_pos_nonneg; lia).
  assert (EK : K = 2 ^ (Z.of_nat k - Z.of_nat i - 1) * 2 * I).
  { unfold K, I. change 2 with (2 ^ 1) at 3. rewrite <- !Z.pow_add_r by lia. f_equal. lia. }
  set (J := 2 ^ (Z.of_nat k - Z.of_nat i - 1)) in *. assert (HJ : 0 < J) by (apply Z.pow_pos_nonneg; lia).
  set (s := q * K + I). assert (Hse : 0 <= s < e) by (unfold s; nia).
  assert (Hctz : TrailingZeros64 s = Z.of_nat i).
  { apply (ctz_unique _ (q * J)); [nia|lia|]. unfold s. rewrite EK. fold I. ring. }
  unfold append_level. destruct (diff_bit_decomp s e Hse) as (h & ra & rb & D). cbv zeta in D.
  pose proof (diff_bit_nonneg s e) as Hd0. set (d := diff_bit s e) in *.
  destruct D as (Es & Ee & Hra & Hrb & Hh & Hp).
  assert (HP2 : 2 ^ (d + 1) = 2 * 2 ^ d) by (rewrite Z.pow_add_r by lia; lia).
  assert (Ey : s mod 2 ^ (d + 1) = ra).
  { rewrite HP2, Es. replace (2 * h * 2 ^ d + ra) with (ra + h * (2 * 2 ^ d)) by lia.
    rewrite Z.mod_add, Z.mod_small by lia. done. }
  rewrite Ey. destruct (Z.eqb_spec ra 0) as [E0|Hne].
  - exfalso. rewrite E0 in Es. assert (Hdi : d + 1 <= Z.of_nat i).
    { assert (Hs0 : 0 < h) by nia. destruct (TrailingZeros64_spec h Hs0) as (q' & Hq' & E' & Hc').
      assert (TrailingZeros64 s = TrailingZeros64 h + (d + 1)); [|lia].
      apply (ctz_unique _ q'); [lia|lia|]. rewrite Z.pow_add_r, Z.mul_assoc, <- E', HP2, Es by lia. ring. }
    assert (HD : exists D, I = D * (2 * 2 ^ d) /\ 0 < D).
    { exists (2 ^ (Z.of_nat i - (d + 1))). split; [|apply Z.pow_pos_nonneg; lia].
      rewrite <- HP2, <- Z.pow_add_r by lia. unfold I. f_equal. lia. }
    destruct HD as (D & ED & HD0). assert (e < s + 2 * 2 ^ d) by lia.
    assert (s + 2 * 2 ^ d <= q * K + K); [|lia]. unfold s. rewrite EK. nia.
  - assert (Hra0 : 0 < ra) by lia. destruct (TrailingZeros64_spec ra Hra0) as (q' & Hq' & E' & Hc').
    pose proof (TrailingZeros64_lt ra d Hra0 ltac:(lia)) as Hlt. rewrite <- Hctz. symmetry.
    apply (ctz_unique _ (h * 2 ^ (d - TrailingZeros64 ra) + q')); [|done|].
    + assert (0 < 2 ^ (d - TrailingZeros64 ra)) by (apply Z.pow_pos_nonneg; lia). nia.
    + set (t := TrailingZeros64 ra) in *.
      assert (E2 : 2 ^ d = 2 ^ (d - t) * 2 ^ t) by (rewrite <- Z.pow_add_r by lia; f_equal; lia).
      transitivity (2 * h * 2 ^ d + (2 * q' + 1) * 2 ^ t); [by rewrite <- E'|]. rewrite E2. ring.
Qed.

(** The appends at the levels from [i] up to [k]. *)
Inductive ladder (k : nat) : nat -> list Hash -> list Hash -> Prop :=
| ladder_end me : ladder k k me me
| ladder_step i x me me1 me2 : (i < k)%nat -> adds i x me me1 -> ladder k (S i) me1 me2 -> ladder k i me me2.

Lemma path_ladder q k e i me me' :
  0 <= q -> q * 2 ^ Z.of_nat k + 2 ^ Z.of_nat k <= e -> e < two64 -> (i <= k)%nat ->
  path e (q * 2 ^ Z.of_nat k + 2 ^ Z.of_nat i) me me' <->
  exists mb, ladder k i me mb /\ path e (q * 2 ^ Z.of_nat k + 2 ^ Z.of_nat k) mb me'.
Proof.
  intros Hq He H64 Hi. remember (k - i)%nat as n eqn:En. revert i me Hi En.
  induction n as [|n IH]; intros i me Hi En.
  { replace i with k by lia. split; [intros Hp; exists me; split; [constructor|done]|].
    intros (mb & Hl & Hp). inversion Hl; subst; [done|lia]. }
  assert (Hik : (i < k)%nat) by lia. pose proof (level_inside q k i e Hq Hik He H64) as Hlev.
  assert (Hnext : q * 2 ^ Z.of_nat k + 2 ^ Z.of_nat i + 2 ^ Z.of_nat i = q * 2 ^ Z.of_nat k + 2 ^ Z.of_nat (S i)).
  { rewrite Nat2Z.inj_succ, Z.pow_succ_r by lia. lia. }
  assert (Hlt : 2 ^ Z.of_nat i < 2 ^ Z.of_nat k) by (apply Z.pow_lt_mono_r; lia).
  split.
  - intros Hp. inversion Hp as [|s j x ? me1 ? Hs Hj Ha Hp']; subst; [lia|].
    rewrite Hlev in Hj. apply Nat2Z.inj in Hj. subst j. rewrite Hnext in Hp'.
    apply IH in Hp' as (mb & Hl & Hp'); [|lia..]. exists mb. split; [|done]. by econstructor.
  - intros (mb & Hl & Hp). inversion Hl as [|? x ? me1 ? _ Ha Hl']; subst; [lia|].
    eapply path_step; [lia|exact Hlev|exact Ha|]. rewrite Hnext. apply IH; [lia..|]. eauto.
Qed.

(** The last append is that of a leaf. *)
Lemma path_last e me me' : 0 <= e -> e + 1 < two64 -> path (e + 1) e me me' <-> exists x, adds 0 x me me'.
Proof.
  intros Hpos H64. assert (Hl : append_level e (e + 1) = 0).
  { destruct (append_level_spec e (e + 1) ltac:(lia) ltac:(lia)) as (Hk & _ & Hle). cbv zeta in *.
    destruct (Z.eq_dec (append_level e (e + 1)) 0) as [|Hn]; [done|].
    assert (2 ^ 1 <= 2 ^ append_level e (e + 1)) by (apply Z.pow_le_mono_r; lia). lia. }
  split.
  - intros Hp. inversion Hp as [|s j x ? me1 ? Hs Hj Ha Hp']; subst; [lia|]. rewrite Hl in Hj.
    destruct j; [|lia]. change (2 ^ Z.of_nat 0) with 1 in Hp'.
    inversion Hp' as [|s' ? ? ? ? ? Hs']; subst; [by exists x|lia].
  - intros [x Ha]. eapply (path_step _ _ 0); [lia|done|exact Ha|]. constructor.
Qed.

(** ** Commitments to prefixes *)

(** A root that is shown to commit to a prefix of what another one commits to. *)
Definition commits_prefix (preRoot : Hash) (preHeight : Z) (postRoot : Hash) (postHeight : Z) : Prop :=
  exists pre proof, verifyPrefixProof preRoot (preHeight + 1) postRoot (postHeight + 1) pre proof = Ok tt.

Lemma commits_path a s r e : 0 <= s -> e + 1 < two64 ->
  commits_prefix a s r e <->
  s < e /\ exists me me', me <> [] /\ canonical me /\ bval me = s + 1 /\ root me = Ok a /\
    path (e + 1) (s + 1) me me' /\ root me' = Ok r.
Proof.
  intros Hs He. split.
  - intros (pre & proof & (Hpos & Er & Et & Hlt & exp & Ew & Ex)%verifyPrefixProof_ok).
    destruct (root_guards _ _ Er) as [Hne H64].
    assert (Hc : canonical pre) by (eapply append_while_canonical; [exact Ew|lia..|done]).
    rewrite treeSize_bval in Et by done. injection Et as Et. split; [lia|].
    exists pre, exp. split_and!; try done. eapply append_while_path; [exact Ew|done|done|done|lia].
  - intros (Hlt & me & me' & Hne & Hc & Hb & Er & Hp & Er').
    destruct (path_append_while _ _ _ _ Hp Hne Hc Hb ltac:(lia)) as [proof Hrun]. exists me, proof.
    apply verifyPrefixProof_ok. destruct (root_guards _ _ Er) as [_ H64].
    split_and!; [lia|done|rewrite treeSize_bval by done; by rewrite Hb|lia|].
    exists me'. split; [exact (Hrun [])|done].
Qed.

Lemma canonical_shape me me' : canonical me -> canonical me' -> bval me = bval me' -> shape me = shape me'.
Proof. apply bval_shape. Qed.

Lemma path_canonical e s me me' : path e s me me' -> canonical me -> bval me = s -> canonical me' /\ bval me' = e.
Proof.
  induction 1 as [me|s j x me me1 me2 _ _ Ha _ IH]; intros Hc Hb; [done|].
  destruct (adds_canonical _ _ _ _ Ha Hc) as (Hc1 & Hb1 & _). apply IH; [done|lia].
Qed.

Lemma path_inj e s me1 r : path e s me1 r -> forall me2, path e s me2 r -> 
  canonical me1 -> canonical me2 -> bval me1 = s -> bval me2 = s -> me1 = me2.
Proof.
  induction 1 as [me|s j x me me1 me2 Hlt Hj Ha Hp IH]; intros m Hm Hc Hc' Hb Hb'.
  - inversion Hm; subst; [done|lia].
  - inversion Hm as [|? j' x' ? m1 ? Hlt' Hj' Ha' Hp']; subst; [lia|].
    assert (j' = j) by lia. subst j'. destruct (adds_canonical _ _ _ _ Ha Hc) as (Hc1 & Hb1 & _).
    destruct (adds_canonical _ _ _ _ Ha' Hc') as (Hc1' & Hb1' & _).
    assert (m1 = me1) as -> by (symmetry; apply IH; [done|done|done|done|lia]).
    eapply adds_inj; [|exact Ha|exact Ha']. apply canonical_shape; [done|done|lia].
Qed.

(** The prefix of a height is determined by the root of the whole. *)
Lemma commits_unique a a' s r e : 0 <= s -> e + 1 < two64 ->
  commits_prefix a s r e -> commits_prefix a' s r e -> a = a'.
Proof.
  intros Hs He. rewrite !commits_path by done.
  intros (_ & me & M & Hne & Hc & Hb & Er & Hp & Ex) (_ & me' & M' & Hne' & Hc' & Hb' & Er' & Hp' & Ex').
  destruct (path_canonical _ _ _ _ Hp Hc Hb) as [HcM HbM].
  destruct (path_canonical _ _ _ _ Hp' Hc' Hb') as [HcM' HbM'].
  apply root_Root in Ex, Ex'. assert (M = M') as <- by (eapply Root_inj; [|done|done]; apply canonical_shape; done || lia).
  assert (me = me') as <- by (eapply path_inj; done). congruence.
Qed.

Lemma ladder_canonical k i me me' : ladder k i me me' -> canonical me ->
  canonical me' /\ bval me' = bval me + 2 ^ Z.of_nat k - 2 ^ Z.of_nat i.
Proof.
  induction 1 as [me|i x me me1 me2 _ Ha _ IH]; intros Hc; [split; [done|lia]|].
  destruct (adds_canonical _ _ _ _ Ha Hc) as (Hc1 & Hb1 & _). destruct (IH Hc1) as [Hc2 Hb2]. split; [done|].
  rewrite Hb2, Hb1, Nat2Z.inj_succ, Z.pow_succ_r by lia. lia.
Qed.

Lemma ladder_split k i me me' : ladder (S k) i me me' -> (i <= k)%nat ->
  exists mb x, ladder k i me mb /\ adds k x mb me'.
Proof.
  induction 1 as [me|i x me me1 me2 Hi Ha Hl IH]; intros Hik; [lia|].
  destruct (decide (i = k)) as [->|Hne].
  - inversion Hl as [|? ? ? ? ? Hbad]; subst; [|lia]. exists me, x. split; [constructor|done].
  - destruct IH as (mb & y & Hl' & Ha'); [lia|]. exists mb, y. split; [|done]. econstructor; [lia|done|done].
Qed.

(** Climbing from a subtree in an otherwise empty lower part makes a larger subtree. *)
Lemma ladder_collapse k i me me' : ladder k i me me' -> forall G G2 h,
  G = replicate k zero_hash ++ G2 -> G2 <> [] -> adds i h G me -> exists h', adds k h' G me'.
Proof.
  induction 1 as [me|i x me me1 me2 Hi Ha Hl IH]; intros G G2 h EG HG2 Hh; [by exists h|].
  apply (IH G G2 (hash_node h x)); [done|done|]. split; [apply keccak_nonzero|].
  exists (replicate (k - S i) zero_hash ++ G2).
  assert (Erep : forall l : list Hash, replicate k zero_hash ++ l =
    replicate (S i) zero_hash ++ replicate (k - S i) zero_hash ++ l).
  { intros l. rewrite app_assoc, <- replicate_add. do 2 f_equal. lia. }
  split_and!; [by destruct (replicate (k - S i) zero_hash)|by rewrite EG, Erep|].
  destruct Hh as (Hh0 & m & _ & Em & ->). rewrite EG, Erep in Em.
  assert (Es : forall l : list Hash, replicate (S i) zero_hash ++ l = replicate i zero_hash ++ zero_hash :: l).
  { intros l. rewrite replicate_S_end, <- app_assoc. done. }
  rewrite Es in Em. apply app_inv_head in Em. subst m. cbn [carry] in Ha.
  change (zero_hash =? zero_hash) with true in Ha. cbn iota in Ha.
  destruct Ha as (_ & m & _ & Em & ->). apply app_inv_head in Em. subst m. cbn [carry].
  rewrite eqb_zero_false by done. by rewrite Es.
Qed.

Lemma low_levels_zero k me : (2 ^ Z.of_nat k | bval me) -> me <> [] -> canonical me ->
  exists G2, me = replicate k zero_hash ++ G2 /\ G2 <> [].
Proof.
  revert me. induction k as [|k IH]; intros me Hd Hne Hc; [by exists me|].
  destruct me as [|h me]; [done|]. rewrite Nat2Z.inj_succ, Z.pow_succ_r in Hd by lia.
  destruct Hd as [q Hq]. cbn [bval] in Hq. unfold is_zero in Hq. destruct (Z.eqb_spec h zero_hash) as [->|]; [|lia].
  destruct me as [|h' me]; [by destruct Hc|].
  destruct (IH (h' :: me)) as (G2 & E & HG); [exists q; lia|done|by apply canonical_tail in Hc|].
  exists G2. rewrite E. done.
Qed.

(** The expansion at the middle is that before its last leaf with the leaf appended. *)
Lemma last_leaf q k me me2 mb F x' : 0 <= q -> canonical me2 -> bval me2 = (2 * q + 1) * 2 ^ Z.of_nat k + 1 -> me2 <> [] ->
  ladder k 0 me F -> adds k x' F mb -> ladder k 0 me2 mb -> canonical F -> bval F = (2 * q + 1) * 2 ^ Z.of_nat k ->
  exists z, adds 0 z F me2.
Proof.
  intros Hq Hc2 Hbv2 Hne2 HlF HaF Hl2 HcF HbF. destruct k as [|k].
  - inversion HlF; subst; [|lia]. inversion Hl2; subst; [|lia]. eauto.
  - destruct me2 as [|z tl]; [done|]. set (middle := (2 * q + 1) * 2 ^ Z.of_nat (S k)) in *.
    assert (Heven : exists c, middle = 2 * c /\ 0 < c).
    { exists ((2 * q + 1) * 2 ^ Z.of_nat k). assert (0 < 2 ^ Z.of_nat k) by (apply Z.pow_pos_nonneg; lia).
      split; [|nia]. unfold middle. rewrite Nat2Z.inj_succ, Z.pow_succ_r by lia. ring. }
    destruct Heven as (c & Ec & Hc0). cbn [bval] in Hbv2. unfold is_zero in Hbv2.
    destruct (Z.eqb_spec z zero_hash) as [|Hz]; [lia|].
    assert (Htl : tl <> []) by (intros ->; cbn in Hbv2; lia).
    assert (HG : adds 0 z (zero_hash :: tl) (z :: tl)) by (split; [done|]; by exists (zero_hash :: tl)).
    assert (HcG : canonical (zero_hash :: tl)).
    { apply (canonical_app [zero_hash]); [done|]. exact (proj1 (canonical_app [z] tl Htl) Hc2). }
    assert (HbG : bval (zero_hash :: tl) = middle) by (cbn [bval]; unfold is_zero; change (zero_hash =? zero_hash) with true; cbn iota; lia).
    destruct (low_levels_zero (S k) (zero_hash :: tl)) as (G2 & EG & HG2); [|done|done|].
    { rewrite HbG. by exists (2 * q + 1). }
    destruct (ladder_collapse _ _ _ _ Hl2 _ _ _ EG HG2 HG) as [h' Hh'].
    assert (F = zero_hash :: tl) as -> by (eapply adds_inj; [|exact HaF|exact Hh']; apply canonical_shape; done || lia).
    by exists z.
Qed.

(** Bisection keeps the order of the commitments, for a collision-free hash: when, of
    an edge between the heights [q * 2^(k+1)] and [(q+1) * 2^(k+1)], the start root and
    the root of the middle are both shown to commit to a prefix of the end root, then the
    start root commits to a prefix of the root of the middle.  This is why the contract
    needs to check the proof against the end root only. *)
Lemma bisection_keeps_prefix q k a m r :
  0 <= q -> (q + 1) * 2 ^ Z.of_nat (S k) + 1 < two64 ->
  let start := q * 2 ^ Z.of_nat (S k) in
  let middle := start + 2 ^ Z.of_nat k in
  let finish := start + 2 ^ Z.of_nat (S k) in
  commits_prefix a start r finish -> commits_prefix m middle r finish -> commits_prefix a start m middle.
Proof.
  intros Hq H64 start middle finish.
  assert (HK : 2 ^ Z.of_nat (S k) = 2 * 2 ^ Z.of_nat k) by (rewrite Nat2Z.inj_succ, Z.pow_succ_r by lia; lia).
  assert (Hk : 0 < 2 ^ Z.of_nat k) by (apply Z.pow_pos_nonneg; lia).
  assert (Em : middle = (2 * q + 1) * 2 ^ Z.of_nat k) by (unfold middle, start; rewrite HK; ring).
  assert (Ef : finish = middle + 2 ^ Z.of_nat k) by (unfold finish, middle; lia).
  assert (Hb : 0 <= start /\ finish + 1 < two64) by (unfold finish, start; nia). destruct Hb as [Hs0 Hf64].
  rewrite !commits_path by lia.
  intros (_ & me & M & Hne & Hc & Hbv & Er & Hp & Ex) (_ & me2 & M2 & Hne2 & Hc2 & Hbv2 & Er2 & Hp2 & Ex2).
  change (start + 1) with (start + 2 ^ Z.of_nat 0) in Hp. change (middle + 1) with (middle + 2 ^ Z.of_nat 0) in Hp2.
  unfold start in Hp. apply path_ladder in Hp as (mb & Hl & Hlast); [|lia|unfold finish, start; lia|lia|lia].
  rewrite Em in Hp2. apply path_ladder in Hp2 as (mb2 & Hl2 & Hlast2); [|lia|lia|lia|lia].
  fold start in Hlast. fold finish in Hlast. rewrite <- Em, <- Ef in Hlast2.
  apply path_last in Hlast as [x Ha]; [|lia|lia]. apply path_last in Hlast2 as [x2 Ha2]; [|lia|lia].
  destruct (ladder_canonical _ _ _ _ Hl Hc) as [Hcb Hbb]. destruct (ladder_canonical _ _ _ _ Hl2 Hc2) as [Hcb2 Hbb2].
  change (2 ^ Z.of_nat 0) with 1 in *.
  destruct (adds_canonical _ _ _ _ Ha Hcb) as (HcM & HbM & _). destruct (adds_canonical _ _ _ _ Ha2 Hcb2) as (HcM2 & HbM2 & _).
  apply root_Root in Ex, Ex2.
  assert (M = M2) as <- by (eapply Root_inj; [|done|done]; apply canonical_shape; done || lia).
  assert (mb = mb2) as <- by (eapply adds_inj; [|exact Ha|exact Ha2]; apply canonical_shape; done || lia).
  apply ladder_split in Hl as (F & x' & HlF & HaF); [|lia].
  destruct (ladder_canonical _ _ _ _ HlF Hc) as [HcF HbF]. change (2 ^ Z.of_nat 0) with 1 in *.
  split; [lia|]. exists me, me2. split_and!; try done.
  assert (Hgoal : exists z, adds 0 z F me2).
  { eapply (last_leaf q k); done || lia. }
  destruct Hgoal as [z Hz]. change (start + 1) with (start + 2 ^ Z.of_nat 0).
  assert (Es : start = (2 * q) * 2 ^ Z.of_nat k) by (unfold start; rewrite HK; ring).
  rewrite Es. apply path_ladder; [lia|rewrite <- Es; unfold middle; lia|lia|lia|].
  exists F. split; [done|]. rewrite <- Es. apply path_last; [lia|lia|]. by exists z.
Qed.

End chains.
