(* ===== verification/EdgeContract.v ===== *)
(** * The edge challenge manager contract

    [contracts/src/challengeV2]: the libraries [ChallengeEdgeLib] and
    [EdgeChallengeManagerLib] and the contract [EdgeChallengeManager] that the validator
    talks to.  A call is a computation on the storage that may revert; a revert keeps
    nothing of what was written before it ([transaction]).  A storage mapping is total:
    an entry that was never written is zero, and an edge exists when its creation block
    is not.  The assertion chain, the one-step prover, the token and the ABI decoder are
    interfaces. *)

From S2P Require Import Prelude Bits PrefixProofs InclusionProofs History Protocol Contracts MerkleContract.

(** A custom error; its arguments are only reported. *)
Definition revert {A} (name : string) : res A := Err (ErrNew name).

Module ChallengeEdgeLib.

Inductive EdgeType := Block | BigStep | SmallStep.
#[global] Instance EdgeType_eq_dec : EqDecision EdgeType.
Proof. solve_decision. Defined.

(** The value of an entry of the mapping that was never written. *)
Definition no_edge : ChallengeEdge := {|
  EdgeOriginId := 0; StartHistoryRoot := 0; StartHeight := 0; EndHistoryRoot := 0; EndHeight := 0;
  LowerChildId := 0; UpperChildId := 0; EdgeClaimId := 0; Staker := 0; EdgeCreatedAtBlock := 0;
  EdgeConfirmedAtBlock := 0; ContractStatus := EdgePending; EdgeLevel := 0; Refunded := false |}.

Definition newEdgeChecks (originId startHistoryRoot : Hash) (startHeight : Z) (endHistoryRoot : Hash)
    (endHeight : Z) : res unit :=
  if originId =? 0 then revert "EmptyOriginId"
  else if endHeight <=? startHeight then revert "InvalidHeights"
  else if startHistoryRoot =? 0 then revert "EmptyStartRoot"
  else if endHistoryRoot =? 0 then revert "EmptyEndRoot"
  else Ok tt.

(** [uint64(block.number)] truncates. *)
Definition newLayerZeroEdge (blockNumber : Z) (originId startHistoryRoot : Hash) (startHeight : Z)
    (endHistoryRoot : Hash) (endHeight : Z) (claimId : Hash) (staker : Address) (level : Z) : res ChallengeEdge :=
  if staker =? 0 then revert "EmptyStaker"
  else if claimId =? 0 then revert "EmptyClaimId"
  else
    newEdgeChecks originId startHistoryRoot startHeight endHistoryRoot endHeight ;;
    Ok {| EdgeOriginId := originId; StartHeight := startHeight; StartHistoryRoot := startHistoryRoot;
          EndHeight := endHeight; EndHistoryRoot := endHistoryRoot; LowerChildId := 0; UpperChildId := 0;
          EdgeCreatedAtBlock := u64 blockNumber; EdgeClaimId := claimId; Staker := staker;
          ContractStatus := EdgePending; EdgeLevel := level; Refunded := false; EdgeConfirmedAtBlock := 0 |}.

Definition newChildEdge (blockNumber : Z) (originId startHistoryRoot : Hash) (startHeight : Z)
    (endHistoryRoot : Hash) (endHeight : Z) (level : Z) : res ChallengeEdge :=
  newEdgeChecks originId startHistoryRoot startHeight endHistoryRoot endHeight ;;
  Ok {| EdgeOriginId := originId; StartHeight := startHeight; StartHistoryRoot := startHistoryRoot;
        EndHeight := endHeight; EndHistoryRoot := endHistoryRoot; LowerChildId := 0; UpperChildId := 0;
        EdgeCreatedAtBlock := u64 blockNumber; EdgeClaimId := 0; Staker := 0;
        ContractStatus := EdgePending; EdgeLevel := level; Refunded := false; EdgeConfirmedAtBlock := 0 |}.

(** [abi.encodePacked]: the level is one byte, the other components are words. *)
Definition mutualIdComponent `{Hasher} (level : Z) (originId : Hash) (startHeight : Z) (startHistoryRoot : Hash)
    (endHeight : Z) : Hash :=
  Keccak256Hash [Raw [level]; Word originId; Word startHeight; Word startHistoryRoot; Word endHeight].
Definition mutualId `{Hasher} (ce : ChallengeEdge) : Hash :=
  mutualIdComponent (EdgeLevel ce) (EdgeOriginId ce) (StartHeight ce) (StartHistoryRoot ce) (EndHeight ce).
Definition idComponent `{Hasher} (level : Z) (originId : Hash) (startHeight : Z) (startHistoryRoot : Hash)
    (endHeight : Z) (endHistoryRoot : Hash) : EdgeId :=
  Keccak256Hash [Word (mutualIdComponent level originId startHeight startHistoryRoot endHeight); Word endHistoryRoot].
Definition id `{Hasher} (edge : ChallengeEdge) : EdgeId :=
  idComponent (EdgeLevel edge) (EdgeOriginId edge) (StartHeight edge) (StartHistoryRoot edge) (EndHeight edge)
    (EndHistoryRoot edge).

Definition exists_ (edge : ChallengeEdge) : bool := negb (EdgeCreatedAtBlock edge =? 0).

Definition length (edge : ChallengeEdge) : res Z :=
  len ← checked 256 (EndHeight edge - StartHeight edge);
  if len =? 0 then revert "EdgeNotExists" else Ok len.

Definition setChildren (edge : ChallengeEdge) (lowerChildId upperChildId : EdgeId) : res ChallengeEdge :=
  if negb (LowerChildId edge =? 0) || negb (UpperChildId edge =? 0) then revert "ChildrenAlreadySet"
  else Ok {| EdgeOriginId := EdgeOriginId edge; StartHistoryRoot := StartHistoryRoot edge;
    StartHeight := StartHeight edge; EndHistoryRoot := EndHistoryRoot edge; EndHeight := EndHeight edge;
    LowerChildId := lowerChildId; UpperChildId := upperChildId;
    EdgeClaimId := EdgeClaimId edge; Staker := Staker edge; EdgeCreatedAtBlock := EdgeCreatedAtBlock edge;
    EdgeConfirmedAtBlock := EdgeConfirmedAtBlock edge; ContractStatus := ContractStatus edge;
    EdgeLevel := EdgeLevel edge; Refunded := Refunded edge |}.

Definition setConfirmed (blockNumber : Z) (edge : ChallengeEdge) : res ChallengeEdge :=
  if negb (bool_decide (ContractStatus edge = EdgePending)) then revert "EdgeNotPending"
  else Ok {| EdgeOriginId := EdgeOriginId edge; StartHistoryRoot := StartHistoryRoot edge;
    StartHeight := StartHeight edge; EndHistoryRoot := EndHistoryRoot edge; EndHeight := EndHeight edge;
    LowerChildId := LowerChildId edge; UpperChildId := UpperChildId edge;
    EdgeClaimId := EdgeClaimId edge; Staker := Staker edge; EdgeCreatedAtBlock := EdgeCreatedAtBlock edge;
    EdgeConfirmedAtBlock := u64 blockNumber; ContractStatus := EdgeConfirmed;
    EdgeLevel := EdgeLevel edge; Refunded := Refunded edge |}.

Definition isLayerZero (edge : ChallengeEdge) : bool := negb (EdgeClaimId edge =? 0) && negb (Staker edge =? 0).

Definition setRefunded (edge : ChallengeEdge) : res ChallengeEdge :=
  if negb (bool_decide (ContractStatus edge = EdgeConfirmed)) then revert "EdgeNotConfirmed"
  else if negb (isLayerZero edge) then revert "EdgeNotLayerZero"
  else if Refunded edge then revert "EdgeAlreadyRefunded"
  else Ok {| EdgeOriginId := EdgeOriginId edge; StartHistoryRoot := StartHistoryRoot edge;
    StartHeight := StartHeight edge; EndHistoryRoot := EndHistoryRoot edge; EndHeight := EndHeight edge;
    LowerChildId := LowerChildId edge; UpperChildId := UpperChildId edge;
    EdgeClaimId := EdgeClaimId edge; Staker := Staker edge; EdgeCreatedAtBlock := EdgeCreatedAtBlock edge;
    EdgeConfirmedAtBlock := EdgeConfirmedAtBlock edge; ContractStatus := ContractStatus edge;
    EdgeLevel := EdgeLevel edge; Refunded := true |}.

(** [numBigStepLevels + 1] is a checked [uint8]. *)
Definition levelToType (level numBigStepLevels : Z) : res EdgeType :=
  if level =? 0 then Ok Block
  else if level <=? numBigStepLevels then Ok BigStep
  else
    last ← checked 8 (numBigStepLevels + 1);
    if level =? last then Ok SmallStep else revert "LevelTooHigh".

End ChallengeEdgeLib.

Import ChallengeEdgeLib (EdgeType, Block, BigStep, SmallStep).

(** ** Interfaces of the other contracts *)

(** [IAssertionChain]: views of the rollup at its state [R]. *)
Class IAssertionChain (R : Type) := {
  validateAssertionHash : R -> Hash -> SolExecutionState -> Hash -> Hash -> res unit;
  isPending : R -> Hash -> res bool;
  isFirstChild : R -> Hash -> res bool;
  getFirstChildCreationBlock : R -> Hash -> res Z;
  getSecondChildCreationBlock : R -> Hash -> res Z;
  validateConfig : R -> Hash -> ConfigData -> res unit;
  bridge : R -> Address;
}.

(** [IOneStepProofEntry]. *)
Class IOneStepProofEntry := {
  getMachineHash : SolExecutionState -> res Hash;
  proveOneStep : ExecutionContext -> Z -> Hash -> list Z -> res Hash;
}.

(** [IERC20] with [SafeERC20], called by this contract, on the state [T] of the token. *)
Class IERC20 (T : Type) := {
  balanceOf : T -> Address -> Z;
  safeTransferFrom : T -> Address -> Address -> Z -> res T;
  safeTransfer : T -> Address -> Z -> res T;
}.

(** [abi.decode] at the three argument types the contract decodes. *)
Class AbiDecode := {
  decodePrefixProof : list Z -> res (list Hash * list Hash);
  decodeBlockProof : list Z -> res (list Hash * ExecutionStateData * ExecutionStateData);
  decodeSubchallengeProof : list Z -> res (Hash * Hash * list Hash * list Hash * list Hash);
}.

(** ** The store *)

Record EdgeStore := {
  edges : gmap EdgeId ChallengeEdge;
  firstRivals : gmap Hash Hash;
  confirmedRivals : gmap Hash EdgeId;
}.

Record EdgeAddedData := {
  AddedEdgeId : EdgeId;
  AddedMutualId : Hash;
  AddedOriginId : Hash;
  AddedClaimId : Hash;
  AddedLength : Z;
  AddedLevel : Z;
  AddedHasRival : bool;
  AddedIsLayerZero : bool;
}.

Record AssertionReferenceData := {
  assertionHash : Hash;
  predecessorId : Hash;
  ardIsPending : bool;
  hasSibling : bool;
  startState : SolExecutionState;
  endState : SolExecutionState;
}.

(** The fields of [AssertionReferenceData memory ard] before it is assigned. *)
Definition no_state : SolExecutionState :=
  {| SolGlobal := {| Bytes32Vals := (0, 0); U64Vals := (0, 0) |}; SolMachineStatus := 0 |}.
Definition no_ard : AssertionReferenceData := {|
  assertionHash := 0; predecessorId := 0; ardIsPending := false; hasSibling := false;
  startState := no_state; endState := no_state |}.

Module EdgeChallengeManagerLib.
Import ChallengeEdgeLib.

(** Reading the mappings. *)
Definition edge_at (s : EdgeStore) (i : EdgeId) : ChallengeEdge := default no_edge (edges s !! i).
Definition firstRival_at (s : EdgeStore) (m : Hash) : Hash := default 0 (firstRivals s !! m).
Definition confirmedRival_at (s : EdgeStore) (m : Hash) : EdgeId := default 0 (confirmedRivals s !! m).

(** Writing them. *)
Definition put_edge (i : EdgeId) (e : ChallengeEdge) (s : EdgeStore) : EdgeStore :=
  {| edges := <[i := e]> (edges s); firstRivals := firstRivals s; confirmedRivals := confirmedRivals s |}.
Definition put_firstRival (m h : Hash) (s : EdgeStore) : EdgeStore :=
  {| edges := edges s; firstRivals := <[m := h]> (firstRivals s); confirmedRivals := confirmedRivals s |}.
Definition put_confirmedRival (m : Hash) (i : EdgeId) (s : EdgeStore) : EdgeStore :=
  {| edges := edges s; firstRivals := firstRivals s; confirmedRivals := <[m := i]> (confirmedRivals s) |}.

Section lib.
Context `{Hasher} `{IOneStepProofEntry} `{AbiDecode} (blockNumber : Z) (msgSender : Address).

(** [keccak256(abi.encodePacked("UNRIVALED"))] *)
Definition UNRIVALED : Hash := Keccak256Hash [Raw [85; 78; 82; 73; 86; 65; 76; 69; 68]].

Definition get_ (store : EdgeStore) (edgeId : EdgeId) : res ChallengeEdge :=
  if exists_ (edge_at store edgeId) then Ok (edge_at store edgeId) else revert "EdgeNotExists".

Definition add (edge : ChallengeEdge) : M EdgeStore EdgeAddedData :=
  let eId := id edge in
  store ← get;
  if exists_ (edge_at store eId) then fail (ErrNew "EdgeAlreadyExists")
  else
    modify (put_edge eId edge) ;;
    let mutualId := mutualIdComponent (EdgeLevel edge) (EdgeOriginId edge) (StartHeight edge)
      (StartHistoryRoot edge) (EndHeight edge) in
    let firstRival := firstRival_at store mutualId in
    (if firstRival =? 0 then modify (put_firstRival mutualId UNRIVALED)
     else if firstRival =? UNRIVALED then modify (put_firstRival mutualId eId)
     else mret tt) ;;
    store ← get;
    len ← lift (length (edge_at store eId));
    mret {| AddedEdgeId := eId; AddedMutualId := mutualId; AddedOriginId := EdgeOriginId edge;
            AddedClaimId := EdgeClaimId edge; AddedLength := len; AddedLevel := EdgeLevel edge;
            AddedHasRival := negb (firstRival =? 0); AddedIsLayerZero := negb (EdgeClaimId edge =? 0) |}.

Definition hasRival (store : EdgeStore) (edgeId : EdgeId) : res bool :=
  if negb (exists_ (edge_at store edgeId)) then revert "EdgeNotExists"
  else
    let firstRival := firstRival_at store (mutualId (edge_at store edgeId)) in
    if firstRival =? 0 then revert "EmptyFirstRival" else Ok (negb (firstRival =? UNRIVALED)).

Definition hasLengthOneRival (store : EdgeStore) (edgeId : EdgeId) : res bool :=
  rival ← hasRival store edgeId;
  if (rival : bool) then len ← length (edge_at store edgeId); Ok (len =? 1) else Ok false.

(** The subtractions are checked [uint64]. *)
Definition timeUnrivaled (store : EdgeStore) (edgeId : EdgeId) : res Z :=
  if negb (exists_ (edge_at store edgeId)) then revert "EdgeNotExists"
  else
    let firstRival := firstRival_at store (mutualId (edge_at store edgeId)) in
    if firstRival =? 0 then revert "EmptyFirstRival"
    else if firstRival =? UNRIVALED
    then checked 64 (u64 blockNumber - EdgeCreatedAtBlock (edge_at store edgeId))
    else if negb (exists_ (edge_at store firstRival)) then revert "EdgeNotExists"
    else
      let firstRivalCreatedAtBlock := EdgeCreatedAtBlock (edge_at store firstRival) in
      let edgeCreatedAtBlock := EdgeCreatedAtBlock (edge_at store edgeId) in
      if edgeCreatedAtBlock <? firstRivalCreatedAtBlock
      then checked 64 (firstRivalCreatedAtBlock - edgeCreatedAtBlock) else Ok 0.

Definition nextEdgeLevel (level numBigStepLevel : Z) : res Z :=
  nextLevel ← checked 8 (level + 1);
  _ ← levelToType nextLevel numBigStepLevel;
  Ok nextLevel.

Definition isPowerOfTwo (x : Z) : bool := if x =? 0 then false else Z.land x (x - 1) =? 0.

(** *** Creating layer zero edges *)

Definition layerZeroTypeSpecificChecks (store : EdgeStore) (args : CreateEdgeArgs) (ard : AssertionReferenceData)
    (numBigStepLevel : Z) : res (Hash * Hash * list Hash * Hash) :=
  eType ← levelToType (ArgsLevel args) numBigStepLevel;
  if bool_decide (eType = Block) then
    let originId := predecessorId ard in
    if assertionHash ard =? 0 then revert "AssertionHashEmpty"
    else if negb (assertionHash ard =? ArgsClaimId args) then revert "AssertionHashMismatch"
    else if negb (ardIsPending ard) then revert "AssertionNotPending"
    else if negb (hasSibling ard) then revert "AssertionNoSibling"
    else if len (ArgsProof args) =? 0 then revert "EmptyEdgeSpecificProof"
    else
      '(inclusionProof, _, _) ← decodeBlockProof (ArgsProof args);
      if SolMachineStatus (startState ard) =? MachineStatusRunning then revert "EmptyStartMachineStatus"
      else if SolMachineStatus (endState ard) =? MachineStatusRunning then revert "EmptyEndMachineStatus"
      else
        startStateHash ← getMachineHash (startState ard);
        endStateHash ← getMachineHash (endState ard);
        Ok (startStateHash, endStateHash, inclusionProof, originId)
  else
    rival ← hasLengthOneRival store (ArgsClaimId args);
    if negb rival then revert "ClaimEdgeNotLengthOneRival"
    else
      let claimEdge := edge_at store (ArgsClaimId args) in
      let originId := mutualId claimEdge in
      if negb (bool_decide (ContractStatus claimEdge = EdgePending)) then revert "ClaimEdgeNotPending"
      else
        next ← nextEdgeLevel (EdgeLevel claimEdge) numBigStepLevel;
        if negb (ArgsLevel args =? next) then revert "ClaimEdgeInvalidLevel"
        else if len (ArgsProof args) =? 0 then revert "EmptyEdgeSpecificProof"
        else
          '(startState, endState, claimStartInclusionProof, claimEndInclusionProof, edgeInclusionProof)
            ← decodeSubchallengeProof (ArgsProof args);
          _ ← verifyInclusionProof (StartHistoryRoot claimEdge) startState (StartHeight claimEdge)
                claimStartInclusionProof;
          _ ← verifyInclusionProof (EndHistoryRoot claimEdge) endState (EndHeight claimEdge) claimEndInclusionProof;
          Ok (startState, endState, edgeInclusionProof, originId).

Definition layerZeroCommonChecks (startState endState : Hash) (inclusionProof : list Hash) (args : CreateEdgeArgs)
    (expectedEndHeight : Z) : res Hash :=
  leaf ← appendLeaf [] startState;
  startHistoryRoot ← root leaf;
  if negb (isPowerOfTwo expectedEndHeight) then revert "NotPowerOfTwo"
  else if negb (ArgsEndHeight args =? expectedEndHeight) then revert "InvalidEndHeight"
  else
    _ ← verifyInclusionProof (ArgsEndHistoryRoot args) endState (ArgsEndHeight args) inclusionProof;
    if len (ArgsPrefixProof args) =? 0 then revert "EmptyPrefixProof"
    else
      '(preExpansion, preProof) ← decodePrefixProof (ArgsPrefixProof args);
      postSize ← checked 256 (ArgsEndHeight args + 1);
      _ ← verifyPrefixProof startHistoryRoot 1 (ArgsEndHistoryRoot args) postSize preExpansion preProof;
      Ok startHistoryRoot.

Definition createLayerZeroEdge (args : CreateEdgeArgs) (ard : AssertionReferenceData) (expectedEndHeight : Z)
    (numBigStepLevel : Z) : M EdgeStore EdgeAddedData :=
  store ← get;
  '(startState, endState, inclusionProof, originId) ←
    lift (layerZeroTypeSpecificChecks store args ard numBigStepLevel);
  startHistoryRoot ← lift (layerZeroCommonChecks startState endState inclusionProof args expectedEndHeight);
  ce ← lift (newLayerZeroEdge blockNumber originId startHistoryRoot 0 (ArgsEndHistoryRoot args) (ArgsEndHeight args)
               (ArgsClaimId args) msgSender (ArgsLevel args));
  add ce.

(** The loop of [getPrevAssertionHash] down the levels. *)
Fixpoint prev_loop (fuel : nat) (store : EdgeStore) (edge : ChallengeEdge) : res Hash :=
  match fuel with
  | O => NoFuel
  | S fuel' =>
      if 0 <? EdgeLevel edge then
        edge' ← get_ store (firstRival_at store (EdgeOriginId edge));
        prev_loop fuel' store edge'
      else Ok (EdgeOriginId edge)
  end.

Definition getPrevAssertionHash (fuel : nat) (store : EdgeStore) (edgeId : EdgeId) : res Hash :=
  edge ← get_ store edgeId;
  prev_loop fuel store edge.

(** *** Bisection *)

Definition mandatoryBisectionHeight (start end_ : Z) : res Z :=
  diff ← checked 256 (end_ - start);
  if diff <? 2 then revert "HeightDiffLtTwo"
  else if diff =? 2 then Ok (start + 1)
  else
    mostSignificantSharedBit ← mostSignificantBit (Z.lxor (end_ - 1) start);
    let mask := u256 (Z.shiftl (two256 - 1) mostSignificantSharedBit) in
    Ok (Z.land (end_ - 1) mask).

Definition bisectEdge (edgeId : EdgeId) (bisectionHistoryRoot : Hash) (prefixProof : list Z)
    : M EdgeStore (EdgeId * option EdgeAddedData * EdgeAddedData) :=
  store ← get;
  if negb (bool_decide (ContractStatus (edge_at store edgeId) = EdgePending)) then fail (ErrNew "EdgeNotPending")
  else
    rival ← lift (hasRival store edgeId);
    if negb rival then fail (ErrNew "EdgeUnrivaled")
    else
      let ce := edge_at store edgeId in
      middleHeight ← lift (mandatoryBisectionHeight (StartHeight ce) (EndHeight ce));
      '(preExpansion, proof) ← lift (decodePrefixProof prefixProof);
      preSize ← lift (checked 256 (middleHeight + 1));
      postSize ← lift (checked 256 (EndHeight ce + 1));
      lift (verifyPrefixProof bisectionHistoryRoot preSize (EndHistoryRoot ce) postSize preExpansion proof) ;;
      lowerChild ← lift (newChildEdge blockNumber (EdgeOriginId ce) (StartHistoryRoot ce) (StartHeight ce)
                           bisectionHistoryRoot middleHeight (EdgeLevel ce));
      let lowerChildId := id lowerChild in
      lowerChildAdded ← (if negb (exists_ (edge_at store lowerChildId)) then d ← add lowerChild; mret (Some d)
                         else mret None);
      upperChild ← lift (newChildEdge blockNumber (EdgeOriginId ce) bisectionHistoryRoot middleHeight
                           (EndHistoryRoot ce) (EndHeight ce) (EdgeLevel ce));
      upperChildAdded ← add upperChild;
      store ← get;
      edge ← lift (setChildren (edge_at store edgeId) lowerChildId (AddedEdgeId upperChildAdded));
      modify (put_edge edgeId edge) ;;
      mret (lowerChildId, lowerChildAdded, upperChildAdded).

(** *** Confirmation *)

Definition setConfirmedRival (edgeId : EdgeId) : M EdgeStore unit :=
  store ← get;
  let mutual := mutualId (edge_at store edgeId) in
  if negb (confirmedRival_at store mutual =? 0) then fail (ErrNew "RivalEdgeConfirmed")
  else modify (put_confirmedRival mutual edgeId).

(** [setConfirmedRival(store, edgeId); store.edges[edgeId].setConfirmed();] *)
Definition confirm (edgeId : EdgeId) : M EdgeStore unit :=
  setConfirmedRival edgeId ;;
  store ← get;
  edge ← lift (setConfirmed blockNumber (edge_at store edgeId));
  modify (put_edge edgeId edge).

(** A child that exists and is confirmed. *)
Definition child_confirmed (store : EdgeStore) (childId : EdgeId) : res unit :=
  if negb (exists_ (edge_at store childId)) then revert "EdgeNotExists"
  else if negb (bool_decide (ContractStatus (edge_at store childId) = EdgeConfirmed)) then revert "EdgeNotConfirmed"
  else Ok tt.

Definition confirmEdgeByChildren (edgeId : EdgeId) : M EdgeStore unit :=
  store ← get;
  if negb (exists_ (edge_at store edgeId)) then fail (ErrNew "EdgeNotExists")
  else
    lift (child_confirmed store (LowerChildId (edge_at store edgeId))) ;;
    lift (child_confirmed store (UpperChildId (edge_at store edgeId))) ;;
    confirm edgeId.

Definition checkClaimIdLink (store : EdgeStore) (edgeId claimingEdgeId : EdgeId) (numBigStepLevel : Z) : res unit :=
  if negb (mutualId (edge_at store edgeId) =? EdgeOriginId (edge_at store claimingEdgeId))
  then revert "OriginIdMutualIdMismatch"
  else
    next ← nextEdgeLevel (EdgeLevel (edge_at store edgeId)) numBigStepLevel;
    if negb (next =? EdgeLevel (edge_at store claimingEdgeId)) then revert "EdgeLevelInvalid" else Ok tt.

Definition confirmEdgeByClaim (edgeId claimingEdgeId : EdgeId) (numBigStepLevel : Z) : M EdgeStore unit :=
  store ← get;
  if negb (exists_ (edge_at store edgeId)) then fail (ErrNew "EdgeNotExists")
  else
    lift (child_confirmed store claimingEdgeId) ;;
    lift (checkClaimIdLink store edgeId claimingEdgeId numBigStepLevel) ;;
    if negb (edgeId =? EdgeClaimId (edge_at store claimingEdgeId)) then fail (ErrNew "EdgeClaimMismatch")
    else confirm edgeId.

(** The loop over the ancestors: every one must be the parent of the previous edge or the
    edge it claims. *)
Fixpoint ancestor_loop (store : EdgeStore) (numBigStepLevel : Z) (currentEdgeId : EdgeId) (total : Z)
    (ancestorEdgeIds : list EdgeId) : res Z :=
  match ancestorEdgeIds with
  | [] => Ok total
  | a :: rest =>
      e ← get_ store a;
      if (LowerChildId e =? currentEdgeId) || (UpperChildId e =? currentEdgeId) then
        t ← timeUnrivaled store (id e);
        total' ← checked 64 (total + t);
        ancestor_loop store numBigStepLevel a total' rest
      else if a =? EdgeClaimId (edge_at store currentEdgeId) then
        _ ← checkClaimIdLink store a currentEdgeId numBigStepLevel;
        t ← timeUnrivaled store (id e);
        total' ← checked 64 (total + t);
        ancestor_loop store numBigStepLevel a total' rest
      else revert "EdgeNotAncestor"
  end.

Definition confirmEdgeByTime (edgeId : EdgeId) (ancestorEdgeIds : list EdgeId)
    (claimedAssertionUnrivaledBlocks confirmationThresholdBlock numBigStepLevel : Z) : M EdgeStore Z :=
  store ← get;
  if negb (exists_ (edge_at store edgeId)) then fail (ErrNew "EdgeNotExists")
  else
    t ← lift (timeUnrivaled store edgeId);
    total ← lift (ancestor_loop store numBigStepLevel edgeId t ancestorEdgeIds);
    totalTimeUnrivaled ← lift (checked 64 (total + claimedAssertionUnrivaledBlocks));
    if totalTimeUnrivaled <? confirmationThresholdBlock then fail (ErrNew "InsufficientConfirmationBlocks")
    else confirm edgeId ;; mret totalTimeUnrivaled.

Definition confirmEdgeByOneStepProof (edgeId : EdgeId) (beforeHash : Hash) (proof : list Z)
    (execCtx : ExecutionContext) (beforeHistoryInclusionProof afterHistoryInclusionProof : list Hash)
    (numBigStepLevel : Z) : M EdgeStore unit :=
  store ← get;
  e ← lift (get_ store edgeId);
  let machineStep := StartHeight e in
  eType ← lift (levelToType (EdgeLevel (edge_at store edgeId)) numBigStepLevel);
  if negb (bool_decide (eType = SmallStep)) then fail (ErrNew "EdgeTypeNotSmallStep")
  else
    len ← lift (length (edge_at store edgeId));
    if negb (len =? 1) then fail (ErrNew "EdgeNotLengthOne")
    else
      lift (verifyInclusionProof (StartHistoryRoot (edge_at store edgeId)) beforeHash machineStep
              beforeHistoryInclusionProof) ;;
      afterHash ← lift (proveOneStep execCtx machineStep beforeHash proof);
      next ← lift (checked 256 (machineStep + 1));
      lift (verifyInclusionProof (EndHistoryRoot (edge_at store edgeId)) afterHash next
              afterHistoryInclusionProof) ;;
      confirm edgeId.

End lib.
End EdgeChallengeManagerLib.

(** ** The contract *)

(** The events of [IEdgeChallengeManager]. *)
Inductive EdgeEvent :=
| EdgeAdded (added : EdgeAddedData)
| EdgeBisected (edgeId lowerChildId upperChildId : EdgeId) (lowerChildAlreadyExists : bool)
| EdgeConfirmedByChildren (edgeId : EdgeId) (mutual : Hash)
| EdgeConfirmedByClaim (edgeId : EdgeId) (mutual : Hash) (claimingEdgeId : EdgeId)
| EdgeConfirmedByTime (edgeId : EdgeId) (mutual : Hash) (totalTimeUnrivaled : Z)
| EdgeConfirmedByOneStepProof (edgeId : EdgeId) (mutual : Hash)
| EdgeRefunded (edgeId : EdgeId) (mutual : Hash) (token : Address) (amount : Z).

(** The state variables of the contract other than the store. *)
Record Settings := {
  initialized : bool;
  excessStakeReceiver : Address;
  stakeToken : Address;
  stakeAmount : Z;
  challengePeriodBlocks : Z;
  assertionChain : Address;
  oneStepProofEntry : Address;
  LAYERZERO_BLOCKEDGE_HEIGHT : Z;
  LAYERZERO_BIGSTEPEDGE_HEIGHT : Z;
  LAYERZERO_SMALLSTEPEDGE_HEIGHT : Z;
  NUM_BIGSTEP_LEVEL : Z;
}.

(** The state a transaction sees: the contract, the rollup and the token it calls, and
    the events it has emitted. *)
Record World (R T : Type) := {
  settings : Settings;
  store : EdgeStore;
  rollup : R;
  token : T;
  emitted : list EdgeEvent;
}.
Arguments settings {R T}.
Arguments store {R T}.
Arguments rollup {R T}.
Arguments token {R T}.
Arguments emitted {R T}.

Module EdgeChallengeManager.
Import ChallengeEdgeLib (levelToType, isLayerZero, mutualId, setRefunded, exists_, idComponent, mutualIdComponent).
Import EdgeChallengeManagerLib (edge_at, get_, firstRival_at, confirmedRival_at, put_edge).
Module Lib := EdgeChallengeManagerLib.

Section contract.
Context `{Hasher} `{IOneStepProofEntry} `{AbiDecode} {R T : Type} `{IAssertionChain R} `{IERC20 T}.
Context (this : Address) (blockNumber : Z) (msgSender : Address).

Definition put_store (s : EdgeStore) (w : World R T) : World R T := {|
  settings := settings w; store := s; rollup := rollup w; token := token w; emitted := emitted w |}.
Definition put_token (t : T) (w : World R T) : World R T := {|
  settings := settings w; store := store w; rollup := rollup w; token := t; emitted := emitted w |}.
Definition put_settings (c : Settings) (w : World R T) : World R T := {|
  settings := c; store := store w; rollup := rollup w; token := token w; emitted := emitted w |}.
Definition emit (e : EdgeEvent) : M (World R T) unit := modify (fun w => {|
  settings := settings w; store := store w; rollup := rollup w; token := token w; emitted := emitted w ++ [e] |}).

(** A call of the library on the store of the contract. *)
Definition on_store {A} (m : M EdgeStore A) : M (World R T) A := fun w =>
  let '(r, s) := m (store w) in (r, put_store s w).

Definition getLayerZeroEndHeight (c : Settings) (eType : EdgeType) : Z :=
  match eType with
  | Block => LAYERZERO_BLOCKEDGE_HEIGHT c
  | BigStep => LAYERZERO_BIGSTEPEDGE_HEIGHT c
  | SmallStep => LAYERZERO_SMALLSTEPEDGE_HEIGHT c
  end.

(** [initializer]: the contract is initialized once. *)
Definition initialize (_assertionChain : Address) (_challengePeriodBlocks : Z) (_oneStepProofEntry : Address)
    (layerZeroBlockEdgeHeight layerZeroBigStepEdgeHeight layerZeroSmallStepEdgeHeight : Z)
    (_stakeToken : Address) (_stakeAmount : Z) (_excessStakeReceiver : Address) (_numBigStepLevel : Z)
    : M (World R T) unit :=
  w ← get;
  if initialized (settings w) then fail (ErrNew "Initializable: contract is already initialized")
  else if _assertionChain =? 0 then fail (ErrNew "EmptyAssertionChain")
  else if _oneStepProofEntry =? 0 then fail (ErrNew "EmptyOneStepProofEntry")
  else if _challengePeriodBlocks =? 0 then fail (ErrNew "EmptyChallengePeriod")
  else if _excessStakeReceiver =? 0 then fail (ErrNew "EmptyStakeReceiver")
  else if negb (Lib.isPowerOfTwo layerZeroBlockEdgeHeight) then fail (ErrNew "NotPowerOfTwo")
  else if negb (Lib.isPowerOfTwo layerZeroBigStepEdgeHeight) then fail (ErrNew "NotPowerOfTwo")
  else if negb (Lib.isPowerOfTwo layerZeroSmallStepEdgeHeight) then fail (ErrNew "NotPowerOfTwo")
  else if _numBigStepLevel =? 0 then fail (ErrNew "ZeroBigStepLevels")
  else if 253 <? _numBigStepLevel then fail (ErrNew "BigStepLevelsTooMany")
  else modify (put_settings {|
    initialized := true; excessStakeReceiver := _excessStakeReceiver; stakeToken := _stakeToken;
    stakeAmount := _stakeAmount; challengePeriodBlocks := _challengePeriodBlocks;
    assertionChain := _assertionChain; oneStepProofEntry := _oneStepProofEntry;
    LAYERZERO_BLOCKEDGE_HEIGHT := layerZeroBlockEdgeHeight;
    LAYERZERO_BIGSTEPEDGE_HEIGHT := layerZeroBigStepEdgeHeight;
    LAYERZERO_SMALLSTEPEDGE_HEIGHT := layerZeroSmallStepEdgeHeight;
    NUM_BIGSTEP_LEVEL := _numBigStepLevel |}).

(** The assertion data of a block edge, read from the assertion chain. *)
Definition reference_data (r : R) (args : CreateEdgeArgs) : res AssertionReferenceData :=
  if len (ArgsProof args) =? 0 then revert "EmptyEdgeSpecificProof"
  else
    '(_, predecessorStateData, claimStateData) ← decodeBlockProof (ArgsProof args);
    _ ← validateAssertionHash r (ArgsClaimId args) (DataExecutionState claimStateData)
          (DataPrevAssertionHash claimStateData) (DataInboxAcc claimStateData);
    _ ← validateAssertionHash r (DataPrevAssertionHash claimStateData) (DataExecutionState predecessorStateData)
          (DataPrevAssertionHash predecessorStateData) (DataInboxAcc predecessorStateData);
    pending ← isPending r (ArgsClaimId args);
    second ← getSecondChildCreationBlock r (DataPrevAssertionHash claimStateData);
    Ok {| assertionHash := ArgsClaimId args; predecessorId := DataPrevAssertionHash claimStateData;
          ardIsPending := pending; hasSibling := 0 <? second;
          startState := DataExecutionState predecessorStateData; endState := DataExecutionState claimStateData |}.

(** Staking is disabled by a zero token or a zero amount. *)
Definition staking (c : Settings) : bool := negb (stakeToken c =? 0) && negb (stakeAmount c =? 0).

Definition createLayerZeroEdge (args : CreateEdgeArgs) : M (World R T) EdgeId :=
  w ← get;
  let c := settings w in
  eType ← lift (levelToType (ArgsLevel args) (NUM_BIGSTEP_LEVEL c));
  let expectedEndHeight := getLayerZeroEndHeight c eType in
  ard ← lift (if bool_decide (eType = Block) then reference_data (rollup w) args else Ok no_ard);
  edgeAdded ← on_store (Lib.createLayerZeroEdge blockNumber msgSender args ard expectedEndHeight (NUM_BIGSTEP_LEVEL c));
  (if staking c then
     let receiver := if AddedHasRival edgeAdded then excessStakeReceiver c else this in
     t ← lift (safeTransferFrom (token w) msgSender receiver (stakeAmount c));
     modify (put_token t)
   else mret tt) ;;
  emit (EdgeAdded edgeAdded) ;;
  mret (AddedEdgeId edgeAdded).

Definition bisectEdge (edgeId : EdgeId) (bisectionHistoryRoot : Hash) (prefixProof : list Z)
    : M (World R T) (EdgeId * EdgeId) :=
  '(lowerChildId, lowerChildAdded, upperChildAdded) ←
    on_store (Lib.bisectEdge blockNumber edgeId bisectionHistoryRoot prefixProof);
  (match lowerChildAdded with Some d => emit (EdgeAdded d) | None => mret tt end) ;;
  emit (EdgeAdded upperChildAdded) ;;
  emit (EdgeBisected edgeId lowerChildId (AddedEdgeId upperChildAdded)
          (match lowerChildAdded with Some _ => false | None => true end)) ;;
  mret (lowerChildId, AddedEdgeId upperChildAdded).

Definition confirmEdgeByChildren (edgeId : EdgeId) : M (World R T) unit :=
  on_store (Lib.confirmEdgeByChildren blockNumber edgeId) ;;
  w ← get;
  emit (EdgeConfirmedByChildren edgeId (mutualId (edge_at (store w) edgeId))).

Definition confirmEdgeByClaim (edgeId claimingEdgeId : EdgeId) : M (World R T) unit :=
  w ← get;
  on_store (Lib.confirmEdgeByClaim blockNumber edgeId claimingEdgeId (NUM_BIGSTEP_LEVEL (settings w))) ;;
  w ← get;
  emit (EdgeConfirmedByClaim edgeId (mutualId (edge_at (store w) edgeId)) claimingEdgeId).

(** The blocks the claimed assertion spent unrivaled; the difference is a checked [uint64]. *)
Definition assertion_blocks (r : R) (claimId : Hash) (claimStateData : ExecutionStateData) : res Z :=
  first ← isFirstChild r claimId;
  if (first : bool) then
    _ ← validateAssertionHash r claimId (DataExecutionState claimStateData)
          (DataPrevAssertionHash claimStateData) (DataInboxAcc claimStateData);
    second ← getSecondChildCreationBlock r (DataPrevAssertionHash claimStateData);
    firstBlock ← getFirstChildCreationBlock r (DataPrevAssertionHash claimStateData);
    checked 64 (second - firstBlock)
  else Ok 0.

Definition confirmEdgeByTime (edgeId : EdgeId) (ancestorEdges : list EdgeId) (claimStateData : ExecutionStateData)
    : M (World R T) unit :=
  w ← get;
  let lastEdgeId := default edgeId (list.last ancestorEdges) in
  topEdge ← lift (get_ (store w) lastEdgeId);
  topLevelType ← lift (levelToType (EdgeLevel topEdge) (NUM_BIGSTEP_LEVEL (settings w)));
  if negb (bool_decide (topLevelType = Block)) then fail (ErrNew "EdgeTypeNotBlock")
  else if negb (isLayerZero topEdge) then fail (ErrNew "EdgeNotLayerZero")
  else
    assertionBlocks ← lift (assertion_blocks (rollup w) (EdgeClaimId topEdge) claimStateData);
    totalTimeUnrivaled ← on_store (Lib.confirmEdgeByTime blockNumber edgeId ancestorEdges assertionBlocks
      (challengePeriodBlocks (settings w)) (NUM_BIGSTEP_LEVEL (settings w)));
    w ← get;
    emit (EdgeConfirmedByTime edgeId (mutualId (edge_at (store w) edgeId)) totalTimeUnrivaled).

(** A level is at most 255, so that 256 steps down are enough. *)
Definition level_fuel : nat := 256.

Definition confirmEdgeByOneStepProof (edgeId : EdgeId) (beforeHash : Hash) (proof : list Z) (prevConfig : ConfigData)
    (beforeHistoryInclusionProof afterHistoryInclusionProof : list Hash) : M (World R T) unit :=
  w ← get;
  prevAssertionHash ← lift (Lib.getPrevAssertionHash level_fuel (store w) edgeId);
  lift (validateConfig (rollup w) prevAssertionHash prevConfig) ;;
  let execCtx := {| MaxInboxMessagesRead := NextInboxPosition prevConfig; CtxBridge := bridge (rollup w);
                    InitialWasmModuleRoot := CfgWasmModuleRoot prevConfig |} in
  on_store (Lib.confirmEdgeByOneStepProof blockNumber edgeId beforeHash proof execCtx
    beforeHistoryInclusionProof afterHistoryInclusionProof (NUM_BIGSTEP_LEVEL (settings w))) ;;
  w ← get;
  emit (EdgeConfirmedByOneStepProof edgeId (mutualId (edge_at (store w) edgeId))).

Definition refundStake (edgeId : EdgeId) : M (World R T) unit :=
  w ← get;
  edge ← lift (get_ (store w) edgeId);
  refunded ← lift (setRefunded edge);
  on_store (modify (put_edge edgeId refunded)) ;;
  (if staking (settings w) then
     t ← lift (safeTransfer (token w) (Staker edge) (stakeAmount (settings w)));
     modify (put_token t)
   else mret tt) ;;
  w ← get;
  emit (EdgeRefunded edgeId (mutualId (edge_at (store w) edgeId)) (stakeToken (settings w)) (stakeAmount (settings w))).

(** *** Views *)

Definition getEdge (w : World R T) (edgeId : EdgeId) : res ChallengeEdge := get_ (store w) edgeId.
Definition edgeExists (w : World R T) (edgeId : EdgeId) : bool := exists_ (edge_at (store w) edgeId).
Definition edgeLength (w : World R T) (edgeId : EdgeId) : res Z :=
  e ← get_ (store w) edgeId; ChallengeEdgeLib.length e.
Definition hasRival (w : World R T) (edgeId : EdgeId) : res bool := Lib.hasRival (store w) edgeId.
Definition hasLengthOneRival (w : World R T) (edgeId : EdgeId) : res bool := Lib.hasLengthOneRival (store w) edgeId.
Definition timeUnrivaled (w : World R T) (edgeId : EdgeId) : res Z := Lib.timeUnrivaled blockNumber (store w) edgeId.
Definition getPrevAssertionHash (w : World R T) (edgeId : EdgeId) : res Hash :=
  Lib.getPrevAssertionHash level_fuel (store w) edgeId.
Definition firstRival (w : World R T) (mutualId : Hash) : Hash := firstRival_at (store w) mutualId.
Definition confirmedRival (w : World R T) (mutualId : Hash) : EdgeId := confirmedRival_at (store w) mutualId.

(** *** Transactions *)

(** A transaction that reverts leaves the state as it was. *)
Definition transaction {A} (m : M (World R T) A) : M (World R T) A := fun w =>
  match m w with
  | (Ok a, w') => (Ok a, w')
  | (r, _) => (r, w)
  end.

(** The calls that change the state of an initialized contract. *)
Inductive Call :=
| CreateLayerZeroEdge (args : CreateEdgeArgs)
| BisectEdge (edgeId : EdgeId) (bisectionHistoryRoot : Hash) (prefixProof : list Z)
| ConfirmEdgeByChildren (edgeId : EdgeId)
| ConfirmEdgeByClaim (edgeId claimingEdgeId : EdgeId)
| ConfirmEdgeByTime (edgeId : EdgeId) (ancestorEdges : list EdgeId) (claimStateData : ExecutionStateData)
| ConfirmEdgeByOneStepProof (edgeId : EdgeId) (beforeHash : Hash) (proof : list Z) (prevConfig : ConfigData)
    (before after : list Hash)
| RefundStake (edgeId : EdgeId).

Definition run (c : Call) : M (World R T) unit :=
  match c with
  | CreateLayerZeroEdge args => createLayerZeroEdge args ;; mret tt
  | BisectEdge i r p => bisectEdge i r p ;; mret tt
  | ConfirmEdgeByChildren i => confirmEdgeByChildren i
  | ConfirmEdgeByClaim i j => confirmEdgeByClaim i j
  | ConfirmEdgeByTime i l d => confirmEdgeByTime i l d
  | ConfirmEdgeByOneStepProof i h p c q r => confirmEdgeByOneStepProof i h p c q r
  | RefundStake i => refundStake i
  end.

End contract.
End EdgeChallengeManager.
