(* ===== verification/Rollup.v ===== *)
(** * The rollup contract

    [RollupCore.sol], [RollupUserLogic.sol] and the functions of [RollupAdminLogic.sol] that change
    the state of the rollup: assertions, their stakers, and the funds the stakers can
    withdraw.  The bridge, the challenge manager that is asked for the winner of a challenge and
    the token are arguments.  A call gives the new state or reverts. *)

From S2P Require Import Prelude Bits PrefixProofs Protocol Contracts MerkleContract.

(** ** Data *)

(** [AssertionStatus]. *)
Definition NodeNone : Z := 0.
Definition NodePending : Z := 1.
Definition NodeConfirmed : Z := 2.

Record StakerInfo := {
  amountStaked : Z;
  latestStakedAssertion : Hash;
  stakerIndex : Z;
  stakerIsStaked : bool;
}.

Inductive RollupEvent :=
| AssertionCreated (assertionHash parentAssertionHash : Hash) (assertion : AssertionInputs) (afterInboxBatchAcc : Hash)
    (inboxMaxCount : Z) (wasmModuleRoot : Hash) (requiredStake : Z) (challengeManager : Address) (confirmPeriodBlocks : Z)
| AssertionConfirmed (assertionHash blockHash sendRoot : Hash)
| UserStakeUpdated (user : Address) (initialBalance finalBalance : Z)
| UserWithdrawableFundsUpdated (user : Address) (initialBalance finalBalance : Z)
| OwnerFunctionCalled (id : Z)
| RollupInitialized (machineHash : Hash) (chainId : Z).

(** The storage that only the owner of the rollup changes. *)
Record RollupParams := {
  confirmPeriodBlocks : Z;
  baseStake : Z;
  wasmModuleRoot : Hash;
  challengeManager : Address;
  challengeGracePeriodBlocks : Z;
  bridgeAddress : Address;
  loserStakeEscrow : Address;
  minimumAssertionPeriod : Z;
  isValidator : gset Address;
  rollupDeploymentBlock : Z;
  validatorWhitelistDisabled : bool;
  anyTrustFastConfirmer : Address;
  paused : bool;
}.

Record Rollup := {
  params : RollupParams;
  latestConfirmed : Hash;
  assertions : gmap Hash AssertionNode;
  stakerList : list Address;
  stakerMap : gmap Address StakerInfo;
  withdrawableFunds : gmap Address Z;
  totalWithdrawableFunds : Z;
  sendRoots : gmap Hash Hash;
  rollupEvents : list RollupEvent;
}.

(** What a call finds around it: the block, the sender, and the accumulators of the sequencer inbox
    of the bridge. *)
Record Env := {
  blockNumber : Z;
  msgSender : Address;
  sequencerInboxAccs : list Hash;
}.

(** The storage that was not written to yet. *)
Definition no_assertion : AssertionNode := {|
  FirstChildBlock := 0; SecondChildBlock := 0; NodeCreatedAtBlock := 0; IsFirstChild := false; NodeStatus := NodeNone;
  ConfigHash := 0 |}.
Definition no_staker : StakerInfo := {|
  amountStaked := 0; latestStakedAssertion := 0; stakerIndex := 0; stakerIsStaked := false |}.

(** The parameters with one of them changed. *)
Definition with_paused (x : bool) (p : RollupParams) : RollupParams := {|
  confirmPeriodBlocks := confirmPeriodBlocks p; baseStake := baseStake p; wasmModuleRoot := wasmModuleRoot p;
  challengeManager := challengeManager p; challengeGracePeriodBlocks := challengeGracePeriodBlocks p;
  bridgeAddress := bridgeAddress p; loserStakeEscrow := loserStakeEscrow p;
  minimumAssertionPeriod := minimumAssertionPeriod p; isValidator := isValidator p;
  rollupDeploymentBlock := rollupDeploymentBlock p; validatorWhitelistDisabled := validatorWhitelistDisabled p;
  anyTrustFastConfirmer := anyTrustFastConfirmer p; paused := x |}.
Definition with_validators (x : gset Address) (p : RollupParams) : RollupParams := {|
  confirmPeriodBlocks := confirmPeriodBlocks p; baseStake := baseStake p; wasmModuleRoot := wasmModuleRoot p;
  challengeManager := challengeManager p; challengeGracePeriodBlocks := challengeGracePeriodBlocks p;
  bridgeAddress := bridgeAddress p; loserStakeEscrow := loserStakeEscrow p;
  minimumAssertionPeriod := minimumAssertionPeriod p; isValidator := x;
  rollupDeploymentBlock := rollupDeploymentBlock p; validatorWhitelistDisabled := validatorWhitelistDisabled p;
  anyTrustFastConfirmer := anyTrustFastConfirmer p; paused := paused p |}.
Definition with_minimum (x : Z) (p : RollupParams) : RollupParams := {|
  confirmPeriodBlocks := confirmPeriodBlocks p; baseStake := baseStake p; wasmModuleRoot := wasmModuleRoot p;
  challengeManager := challengeManager p; challengeGracePeriodBlocks := challengeGracePeriodBlocks p;
  bridgeAddress := bridgeAddress p; loserStakeEscrow := loserStakeEscrow p; minimumAssertionPeriod := x;
  isValidator := isValidator p; rollupDeploymentBlock := rollupDeploymentBlock p;
  validatorWhitelistDisabled := validatorWhitelistDisabled p; anyTrustFastConfirmer := anyTrustFastConfirmer p;
  paused := paused p |}.
Definition with_period (x : Z) (p : RollupParams) : RollupParams := {|
  confirmPeriodBlocks := x; baseStake := baseStake p; wasmModuleRoot := wasmModuleRoot p;
  challengeManager := challengeManager p; challengeGracePeriodBlocks := challengeGracePeriodBlocks p;
  bridgeAddress := bridgeAddress p; loserStakeEscrow := loserStakeEscrow p;
  minimumAssertionPeriod := minimumAssertionPeriod p; isValidator := isValidator p;
  rollupDeploymentBlock := rollupDeploymentBlock p; validatorWhitelistDisabled := validatorWhitelistDisabled p;
  anyTrustFastConfirmer := anyTrustFastConfirmer p; paused := paused p |}.
Definition with_stake (x : Z) (p : RollupParams) : RollupParams := {|
  confirmPeriodBlocks := confirmPeriodBlocks p; baseStake := x; wasmModuleRoot := wasmModuleRoot p;
  challengeManager := challengeManager p; challengeGracePeriodBlocks := challengeGracePeriodBlocks p;
  bridgeAddress := bridgeAddress p; loserStakeEscrow := loserStakeEscrow p;
  minimumAssertionPeriod := minimumAssertionPeriod p; isValidator := isValidator p;
  rollupDeploymentBlock := rollupDeploymentBlock p; validatorWhitelistDisabled := validatorWhitelistDisabled p;
  anyTrustFastConfirmer := anyTrustFastConfirmer p; paused := paused p |}.
Definition with_escrow (x : Address) (p : RollupParams) : RollupParams := {|
  confirmPeriodBlocks := confirmPeriodBlocks p; baseStake := baseStake p; wasmModuleRoot := wasmModuleRoot p;
  challengeManager := challengeManager p; challengeGracePeriodBlocks := challengeGracePeriodBlocks p;
  bridgeAddress := bridgeAddress p; loserStakeEscrow := x; minimumAssertionPeriod := minimumAssertionPeriod p;
  isValidator := isValidator p; rollupDeploymentBlock := rollupDeploymentBlock p;
  validatorWhitelistDisabled := validatorWhitelistDisabled p; anyTrustFastConfirmer := anyTrustFastConfirmer p;
  paused := paused p |}.
Definition with_root (x : Hash) (p : RollupParams) : RollupParams := {|
  confirmPeriodBlocks := confirmPeriodBlocks p; baseStake := baseStake p; wasmModuleRoot := x;
  challengeManager := challengeManager p; challengeGracePeriodBlocks := challengeGracePeriodBlocks p;
  bridgeAddress := bridgeAddress p; loserStakeEscrow := loserStakeEscrow p;
  minimumAssertionPeriod := minimumAssertionPeriod p; isValidator := isValidator p;
  rollupDeploymentBlock := rollupDeploymentBlock p; validatorWhitelistDisabled := validatorWhitelistDisabled p;
  anyTrustFastConfirmer := anyTrustFastConfirmer p; paused := paused p |}.
Definition with_whitelist (x : bool) (p : RollupParams) : RollupParams := {|
  confirmPeriodBlocks := confirmPeriodBlocks p; baseStake := baseStake p; wasmModuleRoot := wasmModuleRoot p;
  challengeManager := challengeManager p; challengeGracePeriodBlocks := challengeGracePeriodBlocks p;
  bridgeAddress := bridgeAddress p; loserStakeEscrow := loserStakeEscrow p;
  minimumAssertionPeriod := minimumAssertionPeriod p; isValidator := isValidator p;
  rollupDeploymentBlock := rollupDeploymentBlock p; validatorWhitelistDisabled := x;
  anyTrustFastConfirmer := anyTrustFastConfirmer p; paused := paused p |}.
Definition with_confirmer (x : Address) (p : RollupParams) : RollupParams := {|
  confirmPeriodBlocks := confirmPeriodBlocks p; baseStake := baseStake p; wasmModuleRoot := wasmModuleRoot p;
  challengeManager := challengeManager p; challengeGracePeriodBlocks := challengeGracePeriodBlocks p;
  bridgeAddress := bridgeAddress p; loserStakeEscrow := loserStakeEscrow p;
  minimumAssertionPeriod := minimumAssertionPeriod p; isValidator := isValidator p;
  rollupDeploymentBlock := rollupDeploymentBlock p; validatorWhitelistDisabled := validatorWhitelistDisabled p;
  anyTrustFastConfirmer := x; paused := paused p |}.
Definition with_manager (x : Address) (p : RollupParams) : RollupParams := {|
  confirmPeriodBlocks := confirmPeriodBlocks p; baseStake := baseStake p; wasmModuleRoot := wasmModuleRoot p;
  challengeManager := x; challengeGracePeriodBlocks := challengeGracePeriodBlocks p;
  bridgeAddress := bridgeAddress p; loserStakeEscrow := loserStakeEscrow p;
  minimumAssertionPeriod := minimumAssertionPeriod p; isValidator := isValidator p;
  rollupDeploymentBlock := rollupDeploymentBlock p; validatorWhitelistDisabled := validatorWhitelistDisabled p;
  anyTrustFastConfirmer := anyTrustFastConfirmer p; paused := paused p |}.

(** ** Hashes *)

Section rollup.
Context `{Hasher}.
Implicit Types r : Rollup.

(** The bytes of an address. *)
Definition address_bytes (a : Address) : list Z :=
  (fun i => Z.land (Z.shiftr a (8 * Z.of_nat i)) 255) <$> rev (seq 0 20).

(** [RollupLib.assertionHash]. *)
Definition assertionHash (parentAssertionHash : Hash) (afterState : SolExecutionState) (inboxAcc : Hash) : Hash :=
  Keccak256Hash [Word parentAssertionHash; Word (ExecutionHash afterState); Word inboxAcc].

Definition configHash (c : ConfigData) : Hash :=
  Keccak256Hash [Word (CfgWasmModuleRoot c); Word (CfgRequiredStake c); Raw (address_bytes (CfgChallengeManager c));
                 Raw (u64ToBe (CfgConfirmPeriodBlocks c)); Raw (u64ToBe (NextInboxPosition c))].

Definition validateConfigHash (c : ConfigData) (hash : Hash) : res unit :=
  require (hash =? configHash c) "CONFIG_HASH_MISMATCH".

(** ** Storage *)

Definition assertion_at r (h : Hash) : AssertionNode := default no_assertion (assertions r !! h).
Definition staker_at r (a : Address) : StakerInfo := default no_staker (stakerMap r !! a).
Definition funds_at r (a : Address) : Z := default 0 (withdrawableFunds r !! a).

Definition put_assertion (h : Hash) (n : AssertionNode) r : Rollup := {|
  params := params r; latestConfirmed := latestConfirmed r; assertions := <[h := n]> (assertions r);
  stakerList := stakerList r; stakerMap := stakerMap r; withdrawableFunds := withdrawableFunds r;
  totalWithdrawableFunds := totalWithdrawableFunds r; sendRoots := sendRoots r; rollupEvents := rollupEvents r |}.
Definition put_latest (h : Hash) r : Rollup := {|
  params := params r; latestConfirmed := h; assertions := assertions r;
  stakerList := stakerList r; stakerMap := stakerMap r; withdrawableFunds := withdrawableFunds r;
  totalWithdrawableFunds := totalWithdrawableFunds r; sendRoots := sendRoots r; rollupEvents := rollupEvents r |}.
Definition put_stakers (l : list Address) (m : gmap Address StakerInfo) r : Rollup := {|
  params := params r; latestConfirmed := latestConfirmed r; assertions := assertions r;
  stakerList := l; stakerMap := m; withdrawableFunds := withdrawableFunds r;
  totalWithdrawableFunds := totalWithdrawableFunds r; sendRoots := sendRoots r; rollupEvents := rollupEvents r |}.
Definition put_funds (a : Address) (x total : Z) r : Rollup := {|
  params := params r; latestConfirmed := latestConfirmed r; assertions := assertions r;
  stakerList := stakerList r; stakerMap := stakerMap r; withdrawableFunds := <[a := x]> (withdrawableFunds r);
  totalWithdrawableFunds := total; sendRoots := sendRoots r; rollupEvents := rollupEvents r |}.
Definition put_params (p : RollupParams) r : Rollup := {|
  params := p; latestConfirmed := latestConfirmed r; assertions := assertions r;
  stakerList := stakerList r; stakerMap := stakerMap r; withdrawableFunds := withdrawableFunds r;
  totalWithdrawableFunds := totalWithdrawableFunds r; sendRoots := sendRoots r; rollupEvents := rollupEvents r |}.
Definition log_event (e : RollupEvent) r : Rollup := {|
  params := params r; latestConfirmed := latestConfirmed r; assertions := assertions r;
  stakerList := stakerList r; stakerMap := stakerMap r; withdrawableFunds := withdrawableFunds r;
  totalWithdrawableFunds := totalWithdrawableFunds r; sendRoots := sendRoots r; rollupEvents := rollupEvents r ++ [e] |}.

(** [Outbox.updateSendRoot], called by the rollup. *)
Definition updateSendRoot (root l2BlockHash : Hash) r : Rollup := {|
  params := params r; latestConfirmed := latestConfirmed r; assertions := assertions r;
  stakerList := stakerList r; stakerMap := stakerMap r; withdrawableFunds := withdrawableFunds r;
  totalWithdrawableFunds := totalWithdrawableFunds r; sendRoots := <[root := l2BlockHash]> (sendRoots r);
  rollupEvents := rollupEvents r |}.

Definition put_staker (a : Address) (s : StakerInfo) r : Rollup := put_stakers (stakerList r) (<[a := s]> (stakerMap r)) r.

(** ** [AssertionNodeLib] *)

Definition with_status (s : Z) (n : AssertionNode) : AssertionNode := {|
  FirstChildBlock := FirstChildBlock n; SecondChildBlock := SecondChildBlock n; NodeCreatedAtBlock := NodeCreatedAtBlock n;
  IsFirstChild := IsFirstChild n; NodeStatus := s; ConfigHash := ConfigHash n |}.

Definition createAssertion (block : Z) (isFirst : bool) (config : Hash) : AssertionNode := {|
  FirstChildBlock := 0; SecondChildBlock := 0; NodeCreatedAtBlock := u64 block; IsFirstChild := isFirst;
  NodeStatus := NodePending; ConfigHash := config |}.

Definition childCreated (block : Z) (n : AssertionNode) : AssertionNode :=
  if FirstChildBlock n =? 0 then {|
    FirstChildBlock := u64 block; SecondChildBlock := SecondChildBlock n; NodeCreatedAtBlock := NodeCreatedAtBlock n;
    IsFirstChild := IsFirstChild n; NodeStatus := NodeStatus n; ConfigHash := ConfigHash n |}
  else if SecondChildBlock n =? 0 then {|
    FirstChildBlock := FirstChildBlock n; SecondChildBlock := u64 block; NodeCreatedAtBlock := NodeCreatedAtBlock n;
    IsFirstChild := IsFirstChild n; NodeStatus := NodeStatus n; ConfigHash := ConfigHash n |}
  else n.

Definition requireExists (n : AssertionNode) : res unit :=
  require (negb (NodeStatus n =? NodeNone)) "ASSERTION_NOT_EXIST".

(** ** [RollupCore] *)

Definition getAssertionStorage r (h : Hash) : res AssertionNode :=
  _ ← require (negb (h =? 0)) "ASSERTION_ID_CANNOT_BE_ZERO";
  Ok (assertion_at r h).

Definition getFirstChildCreationBlock r (h : Hash) : res Z := n ← getAssertionStorage r h; Ok (FirstChildBlock n).
Definition getSecondChildCreationBlock r (h : Hash) : res Z := n ← getAssertionStorage r h; Ok (SecondChildBlock n).
Definition isFirstChild r (h : Hash) : res bool := n ← getAssertionStorage r h; Ok (IsFirstChild n).
Definition isPending r (h : Hash) : res bool := n ← getAssertionStorage r h; Ok (NodeStatus n =? NodePending).

Definition validateAssertionHash (h : Hash) (st : SolExecutionState) (prevAssertionHash inboxAcc : Hash) : res unit :=
  require (h =? assertionHash prevAssertionHash st inboxAcc) "INVALID_ASSERTION_HASH".

Definition validateConfig r (h : Hash) (c : ConfigData) : res unit :=
  n ← getAssertionStorage r h; validateConfigHash c (ConfigHash n).

Definition isStaked r (a : Address) : bool := stakerIsStaked (staker_at r a).

Definition genesisAssertionHash : Hash :=
  assertionHash 0 {| SolGlobal := {| Bytes32Vals := (0, 0); U64Vals := (0, 0) |}; SolMachineStatus := MachineStatusFinished |} 0.

Definition initializeCore (initialAssertion : AssertionNode) (h : Hash) r : Rollup :=
  put_latest h (put_assertion h (with_status NodeConfirmed initialAssertion) r).

Definition confirmAssertionInternal (h parentAssertionHash : Hash) (confirmState : SolExecutionState) (inboxAcc : Hash) r
    : res Rollup :=
  assertion ← getAssertionStorage r h;
  _ ← require (NodeStatus assertion =? NodePending) "NOT_PENDING";
  _ ← require (h =? assertionHash parentAssertionHash confirmState inboxAcc) "CONFIRM_DATA";
  let '(blockHash, sendRoot) := Bytes32Vals (SolGlobal confirmState) in
  let r := updateSendRoot sendRoot blockHash r in
  let r := put_assertion h (with_status NodeConfirmed assertion) (put_latest h r) in
  Ok (log_event (AssertionConfirmed h blockHash sendRoot) r).

Definition createNewStake (stakerAddress : Address) (depositAmount : Z) r : Rollup :=
  let index := u64 (len (stakerList r)) in
  let r' := put_stakers (stakerList r ++ [stakerAddress])
    (<[stakerAddress := {| amountStaked := depositAmount; latestStakedAssertion := latestConfirmed r;
                           stakerIndex := index; stakerIsStaked := true |}]> (stakerMap r)) r in
  log_event (UserStakeUpdated stakerAddress 0 depositAmount) r'.

Definition with_amount (x : Z) (s : StakerInfo) : StakerInfo := {|
  amountStaked := x; latestStakedAssertion := latestStakedAssertion s; stakerIndex := stakerIndex s;
  stakerIsStaked := stakerIsStaked s |}.
Definition with_latest (h : Hash) (s : StakerInfo) : StakerInfo := {|
  amountStaked := amountStaked s; latestStakedAssertion := h; stakerIndex := stakerIndex s;
  stakerIsStaked := stakerIsStaked s |}.
Definition with_index (i : Z) (s : StakerInfo) : StakerInfo := {|
  amountStaked := amountStaked s; latestStakedAssertion := latestStakedAssertion s; stakerIndex := i;
  stakerIsStaked := stakerIsStaked s |}.

Definition increaseStakeBy (stakerAddress : Address) (amountAdded : Z) r : res Rollup :=
  let staker := staker_at r stakerAddress in
  finalStaked ← checked 256 (amountStaked staker + amountAdded);
  Ok (log_event (UserStakeUpdated stakerAddress (amountStaked staker) finalStaked)
        (put_staker stakerAddress (with_amount finalStaked staker) r)).

Definition increaseWithdrawableFunds (account : Address) (amount : Z) r : res Rollup :=
  let initialWithdrawable := funds_at r account in
  finalWithdrawable ← checked 256 (initialWithdrawable + amount);
  total ← checked 256 (totalWithdrawableFunds r + amount);
  Ok (log_event (UserWithdrawableFundsUpdated account initialWithdrawable finalWithdrawable)
        (put_funds account finalWithdrawable total r)).

Definition withdrawFunds (account : Address) r : res (Z * Rollup) :=
  let amount := funds_at r account in
  total ← checked 256 (totalWithdrawableFunds r - amount);
  Ok (amount, log_event (UserWithdrawableFundsUpdated account amount 0) (put_funds account 0 total r)).

Definition reduceStakeTo (stakerAddress : Address) (target : Z) r : res Rollup :=
  let staker := staker_at r stakerAddress in
  let current := amountStaked staker in
  _ ← require (target <=? current) "TOO_LITTLE_STAKE";
  let amountWithdrawn := current - target in
  r' ← increaseWithdrawableFunds stakerAddress amountWithdrawn (put_staker stakerAddress (with_amount target staker) r);
  Ok (log_event (UserStakeUpdated stakerAddress current target) r').

(** A read or write past the end of the list panics. *)
Definition deleteStaker (stakerAddress : Address) r : res Rollup :=
  let staker := staker_at r stakerAddress in
  _ ← require (stakerIsStaked staker) "NOT_STAKED";
  let i := stakerIndex staker in
  match list.last (stakerList r) with
  | None => Err (ErrNew "Panic(0x11)")
  | Some moved =>
      if negb (i <? len (stakerList r)) then Err (ErrNew "Panic(0x32)")
      else
        let list1 := <[Z.to_nat i := moved]> (stakerList r) in
        let map1 := <[moved := with_index i (staker_at r moved)]> (stakerMap r) in
        Ok (put_stakers (take (length list1 - 1) list1) (delete stakerAddress map1) r)
  end.

Definition withdrawStaker (stakerAddress : Address) r : res Rollup :=
  let initialStaked := amountStaked (staker_at r stakerAddress) in
  r' ← increaseWithdrawableFunds stakerAddress initialStaked r;
  r'' ← deleteStaker stakerAddress r';
  Ok (log_event (UserStakeUpdated stakerAddress initialStaked 0) r'').

Definition requireInactiveStaker (stakerAddress : Address) r : res unit :=
  _ ← require (isStaked r stakerAddress) "NOT_STAKED";
  let lastestAssertion := latestStakedAssertion (staker_at r stakerAddress) in
  n ← getAssertionStorage r lastestAssertion;
  require ((lastestAssertion =? latestConfirmed r) || (0 <? FirstChildBlock n)) "STAKE_ACTIVE".

(** *** New assertions *)

(** The inbox position through which the assertion after the new one must read, and the accumulator of the batches
    that the new one has read. *)
Definition inbox_checks (env : Env) (assertion : AssertionInputs) : res (Z * Hash) :=
  let before := U64Vals (SolGlobal (InputsBeforeState assertion)) in
  let after := U64Vals (SolGlobal (InputsAfterState assertion)) in
  let status := SolMachineStatus (InputsAfterState assertion) in
  let next := NextInboxPosition (BeforeConfigData (InputsBeforeStateData assertion)) in
  let afterInboxPosition := after.1 in
  let prevInboxPosition := before.1 in
  _ ← require (prevInboxPosition <=? afterInboxPosition) "INBOX_BACKWARDS";
  _ ← require (afterInboxPosition <=? next) "INBOX_TOO_FAR";
  _ ← require (prevInboxPosition <? next) "NEXT_INBOX_BACKWARDS";
  _ ← (if status =? MachineStatusErrored then
         if 0 <? after.2 then require (negb (afterInboxPosition =? next)) "POSITION_TOO_FAR" else Ok tt
       else if status =? MachineStatusFinished then
         _ ← require (afterInboxPosition =? next) "INVALID_FINISHED_INBOX";
         require (after.2 =? 0) "NON_ZERO_FINISHED_POS_IN_MSG"
       else Err (ErrNew "INVALID_STATUS"));
  let currentInboxPosition := len (sequencerInboxAccs env) in
  _ ← require (afterInboxPosition <=? currentInboxPosition) "INBOX_PAST_END";
  _ ← require (next <=? currentInboxPosition) "INBOX_NOT_POPULATED";
  nextInboxPosition ← (if afterInboxPosition =? currentInboxPosition then checked 256 (currentInboxPosition + 1)
                       else Ok currentInboxPosition);
  _ ← require (negb (afterInboxPosition =? 0)) "EMPTY_INBOX_COUNT";
  match sequencerInboxAccs env !! Z.to_nat (afterInboxPosition - 1) with
  | Some acc => Ok (nextInboxPosition, acc)
  | None => Err (ErrNew "Panic(0x32)")
  end.

(** The context of an assertion that is created now. *)
Definition config_now r (nextInboxPosition : Z) : ConfigData := {|
  CfgWasmModuleRoot := wasmModuleRoot (params r);
  CfgRequiredStake := baseStake (params r);
  CfgChallengeManager := challengeManager (params r);
  CfgConfirmPeriodBlocks := confirmPeriodBlocks (params r);
  NextInboxPosition := u64 nextInboxPosition |}.

Definition createNewAssertion (env : Env) (assertion : AssertionInputs) (prevAssertionHash expectedAssertionHash : Hash) r
    : res (Hash * Rollup) :=
  prev ← getAssertionStorage r prevAssertionHash;
  let before := InputsBeforeStateData assertion in
  _ ← validateConfigHash (BeforeConfigData before) (ConfigHash prev);
  let status := SolMachineStatus (InputsAfterState assertion) in
  _ ← require ((status =? MachineStatusFinished) || (status =? MachineStatusErrored)) "BAD_AFTER_STATUS";
  _ ← require (assertionHash (PrevPrevAssertionHash before) (InputsBeforeState assertion) (SequencerBatchAcc before)
               =? prevAssertionHash) "INVALID_BEFORE_STATE";
  _ ← require (SolMachineStatus (InputsBeforeState assertion) =? MachineStatusFinished) "BAD_PREV_STATUS";
  '(nextInboxPosition, sequencerBatchAcc) ← inbox_checks env assertion;
  let newAssertionHash := assertionHash prevAssertionHash (InputsAfterState assertion) sequencerBatchAcc in
  _ ← require ((newAssertionHash =? expectedAssertionHash) || (expectedAssertionHash =? 0)) "UNEXPECTED_ASSERTION_HASH";
  seen ← getAssertionStorage r newAssertionHash;
  _ ← require (NodeStatus seen =? NodeNone) "ASSERTION_SEEN";
  let newAssertion := createAssertion (blockNumber env) (FirstChildBlock prev =? 0)
    (configHash (config_now r nextInboxPosition)) in
  let r := put_assertion prevAssertionHash (childCreated (blockNumber env) prev) r in
  let r := put_assertion newAssertionHash newAssertion r in
  Ok (newAssertionHash, log_event (AssertionCreated newAssertionHash prevAssertionHash assertion sequencerBatchAcc
    nextInboxPosition (wasmModuleRoot (params r)) (baseStake (params r)) (challengeManager (params r))
    (confirmPeriodBlocks (params r))) r).

(** ** [RollupUserLogic] *)

Definition onlyValidator (env : Env) r : res unit :=
  require (bool_decide (msgSender env ∈ isValidator (params r)) || validatorWhitelistDisabled (params r)) "NOT_VALIDATOR".
Definition whenNotPaused r : res unit := require (negb (paused (params r))) "Pausable: paused".
Definition whenPaused r : res unit := require (paused (params r)) "Pausable: not paused".

Definition VALIDATOR_AFK_BLOCKS : Z := 201600.

(** The sums are [uint256]. *)
Definition validatorIsAfk (env : Env) r : res bool :=
  n ← getAssertionStorage r (latestConfirmed r);
  if NodeCreatedAtBlock n =? 0 then Ok false
  else if 0 <? FirstChildBlock n then Ok (FirstChildBlock n + VALIDATOR_AFK_BLOCKS <? blockNumber env)
  else Ok (NodeCreatedAtBlock n + VALIDATOR_AFK_BLOCKS <? blockNumber env).

Definition removeWhitelistAfterFork (chainIdChanged : bool) r : res Rollup :=
  _ ← require (negb (validatorWhitelistDisabled (params r))) "WHITELIST_DISABLED";
  _ ← require chainIdChanged "CHAIN_ID_NOT_CHANGED";
  Ok (put_params (with_whitelist true (params r)) r).

Definition removeWhitelistAfterValidatorAfk (env : Env) r : res Rollup :=
  _ ← require (negb (validatorWhitelistDisabled (params r))) "WHITELIST_DISABLED";
  afk ← validatorIsAfk env r;
  _ ← require afk "VALIDATOR_NOT_AFK";
  Ok (put_params (with_whitelist true (params r)) r).

(** [getEdge manager edgeId] is the view of the challenge manager at an address. *)
Definition challenge_won (env : Env) (getEdge : Address -> Hash -> res ChallengeEdge) (h winningEdgeId : Hash)
    (manager : Address) r : res unit :=
  winningEdge ← getEdge manager winningEdgeId;
  _ ← require (EdgeClaimId winningEdge =? h) "NOT_WINNER";
  _ ← require (bool_decide (ContractStatus winningEdge = EdgeConfirmed)) "EDGE_NOT_CONFIRMED";
  _ ← require (negb (EdgeConfirmedAtBlock winningEdge =? 0)) "ZERO_CONFIRMED_AT_BLOCK";
  grace ← checked 64 (EdgeConfirmedAtBlock winningEdge + challengeGracePeriodBlocks (params r));
  require (grace <=? blockNumber env) "CHALLENGE_GRACE_PERIOD_NOT_PASSED".

Definition confirmAssertion (env : Env) (getEdge : Address -> Hash -> res ChallengeEdge) (h prevAssertionHash : Hash)
    (confirmState : SolExecutionState) (winningEdgeId : Hash) (prevConfig : ConfigData) (inboxAcc : Hash) r : res Rollup :=
  _ ← onlyValidator env r;
  _ ← whenNotPaused r;
  assertion ← getAssertionStorage r h;
  prev ← getAssertionStorage r prevAssertionHash;
  _ ← validateConfigHash prevConfig (ConfigHash prev);
  deadline ← checked 64 (NodeCreatedAtBlock assertion + CfgConfirmPeriodBlocks prevConfig);
  _ ← require (deadline <=? blockNumber env) "BEFORE_DEADLINE";
  _ ← require (prevAssertionHash =? latestConfirmed r) "PREV_NOT_LATEST_CONFIRMED";
  _ ← (if 0 <? SecondChildBlock prev then challenge_won env getEdge h winningEdgeId (CfgChallengeManager prevConfig) r
       else Ok tt);
  confirmAssertionInternal h prevAssertionHash confirmState inboxAcc r.

Definition newStake (env : Env) (depositAmount : Z) r : res Rollup :=
  _ ← onlyValidator env r;
  _ ← whenNotPaused r;
  _ ← require (negb (isStaked r (msgSender env))) "ALREADY_STAKED";
  Ok (createNewStake (msgSender env) depositAmount r).

Definition prev_of (assertion : AssertionInputs) : Hash :=
  assertionHash (PrevPrevAssertionHash (InputsBeforeStateData assertion)) (InputsBeforeState assertion)
    (SequencerBatchAcc (InputsBeforeStateData assertion)).

(** The stake of all children but the first goes to the escrow. *)
Definition escrow_loser (newAssertionHash : Hash) (requiredStake : Z) r : res Rollup :=
  n ← getAssertionStorage r newAssertionHash;
  if negb (IsFirstChild n) then increaseWithdrawableFunds (loserStakeEscrow (params r)) requiredStake r else Ok r.

Definition stakeOnNewAssertion (env : Env) (assertion : AssertionInputs) (expectedAssertionHash : Hash) r : res Rollup :=
  _ ← onlyValidator env r;
  _ ← whenNotPaused r;
  _ ← (if expectedAssertionHash =? 0 then Ok tt
       else
         n ← getAssertionStorage r expectedAssertionHash;
         require (NodeStatus n =? NodeNone) "EXPECTED_ASSERTION_SEEN");
  let staker := staker_at r (msgSender env) in
  let requiredStake := CfgRequiredStake (BeforeConfigData (InputsBeforeStateData assertion)) in
  _ ← require (stakerIsStaked staker) "NOT_STAKED";
  _ ← require (requiredStake <=? amountStaked staker) "INSUFFICIENT_STAKE";
  let prevAssertion := prev_of assertion in
  prev ← getAssertionStorage r prevAssertion;
  _ ← requireExists prev;
  let lastAssertion := latestStakedAssertion staker in
  _ ← (if lastAssertion =? prevAssertion then Ok tt
       else
         n ← getAssertionStorage r lastAssertion;
         require (0 <? FirstChildBlock n) "STAKED_ON_ANOTHER_BRANCH");
  timeSincePrev ← checked 256 (blockNumber env - NodeCreatedAtBlock prev);
  _ ← require (minimumAssertionPeriod (params r) <=? timeSincePrev) "TIME_DELTA";
  '(newAssertionHash, r) ← createNewAssertion env assertion prevAssertion expectedAssertionHash r;
  let r := put_staker (msgSender env) (with_latest newAssertionHash (staker_at r (msgSender env))) r in
  escrow_loser newAssertionHash requiredStake r.

Definition returnOldDeposit (env : Env) r : res Rollup :=
  _ ← onlyValidator env r;
  _ ← whenNotPaused r;
  _ ← requireInactiveStaker (msgSender env) r;
  withdrawStaker (msgSender env) r.

Definition reduceDeposit (env : Env) (target : Z) r : res Rollup :=
  _ ← onlyValidator env r;
  _ ← whenNotPaused r;
  _ ← requireInactiveStaker (msgSender env) r;
  reduceStakeTo (msgSender env) target r.

Definition fastConfirmAssertion (env : Env) (h parentAssertionHash : Hash) (confirmState : SolExecutionState) (inboxAcc : Hash) r
    : res Rollup :=
  _ ← whenNotPaused r;
  _ ← require (msgSender env =? anyTrustFastConfirmer (params r)) "NOT_FAST_CONFIRMER";
  confirmAssertionInternal h parentAssertionHash confirmState inboxAcc r.

Definition fastConfirmNewAssertion (env : Env) (assertion : AssertionInputs) (expectedAssertionHash : Hash) r : res Rollup :=
  _ ← whenNotPaused r;
  _ ← require (negb (expectedAssertionHash =? 0)) "EXPECTED_ASSERTION_HASH";
  expected ← getAssertionStorage r expectedAssertionHash;
  let prevAssertion := prev_of assertion in
  prev ← getAssertionStorage r prevAssertion;
  _ ← requireExists prev;
  r ← (if NodeStatus expected =? NodeNone then
         '(newAssertionHash, r) ← createNewAssertion env assertion prevAssertion expectedAssertionHash r;
         escrow_loser newAssertionHash (CfgRequiredStake (BeforeConfigData (InputsBeforeStateData assertion))) r
       else Ok r);
  i ← checked 64 ((U64Vals (SolGlobal (InputsAfterState assertion))).1 - 1);
  match sequencerInboxAccs env !! Z.to_nat i with
  | Some acc => fastConfirmAssertion env expectedAssertionHash prevAssertion (InputsAfterState assertion) acc r
  | None => Err (ErrNew "Panic(0x32)")
  end.

Definition addToDeposit (env : Env) (stakerAddress : Address) (tokenAmount : Z) r : res Rollup :=
  _ ← onlyValidator env r;
  _ ← whenNotPaused r;
  _ ← require (isStaked r stakerAddress) "NOT_STAKED";
  increaseStakeBy stakerAddress tokenAmount r.

Definition newStakeOnNewAssertion (env : Env) (tokenAmount : Z) (assertion : AssertionInputs) (expectedAssertionHash : Hash) r
    : res Rollup :=
  r ← newStake env tokenAmount r;
  stakeOnNewAssertion env assertion expectedAssertionHash r.

Definition withdrawStakerFunds (env : Env) r : res (Z * Rollup) :=
  _ ← whenNotPaused r;
  '(amount, r) ← withdrawFunds (msgSender env) r;
  _ ← require (0 <? amount) "NO_FUNDS_TO_WITHDRAW";
  Ok (amount, r).

End rollup.

(** ** [RollupAdminLogic] *)

Section admin.
Context `{Hasher}.
Implicit Types r : Rollup.

Definition owner_call (n : Z) (p : RollupParams) r : Rollup := log_event (OwnerFunctionCalled n) (put_params p r).

(** [Pausable._pause] and [_unpause] check the flag they change. *)
Definition pause r : res Rollup := _ ← whenNotPaused r; Ok (owner_call 3 (with_paused true (params r)) r).
Definition resume r : res Rollup := _ ← whenPaused r; Ok (owner_call 4 (with_paused false (params r)) r).

Fixpoint set_validators (l : list (Address * bool)) (v : gset Address) : gset Address :=
  match l with
  | [] => v
  | (a, b) :: l' => set_validators l' (if b then {[a]} ∪ v else v ∖ {[a]})
  end.

Definition setValidator (validator : list Address) (val : list bool) r : res Rollup :=
  _ ← require (0 <? len validator) "EMPTY_ARRAY";
  _ ← require (len validator =? len val) "WRONG_LENGTH";
  Ok (owner_call 6 (with_validators (set_validators (zip validator val) (isValidator (params r))) (params r)) r).

Definition setMinimumAssertionPeriod (newPeriod : Z) r : res Rollup := Ok (owner_call 8 (with_minimum newPeriod (params r)) r).
Definition setConfirmPeriodBlocks (newConfirmPeriod : Z) r : res Rollup :=
  _ ← require (0 <? newConfirmPeriod) "INVALID_CONFIRM_PERIOD";
  Ok (owner_call 9 (with_period newConfirmPeriod (params r)) r).
Definition setBaseStake (newBaseStake : Z) r : res Rollup := Ok (owner_call 12 (with_stake newBaseStake (params r)) r).

Fixpoint refund_loop (stakers : list Address) r : res Rollup :=
  match stakers with
  | [] => Ok r
  | a :: stakers' =>
      _ ← requireInactiveStaker a r;
      r ← reduceStakeTo a 0 r;
      refund_loop stakers' r
  end.

Definition forceRefundStaker (stakers : list Address) r : res Rollup :=
  _ ← whenPaused r;
  _ ← require (0 <? len stakers) "EMPTY_ARRAY";
  r ← refund_loop stakers r;
  Ok (log_event (OwnerFunctionCalled 22) r).

Definition forceCreateAssertion (env : Env) (prevAssertionHash : Hash) (assertion : AssertionInputs)
    (expectedAssertionHash : Hash) r : res Rollup :=
  _ ← whenPaused r;
  '(_, r) ← createNewAssertion env assertion prevAssertionHash expectedAssertionHash r;
  Ok (log_event (OwnerFunctionCalled 23) r).

Definition forceConfirmAssertion (h parentAssertionHash : Hash) (confirmState : SolExecutionState) (inboxAcc : Hash) r
    : res Rollup :=
  _ ← whenPaused r;
  r ← confirmAssertionInternal h parentAssertionHash confirmState inboxAcc r;
  Ok (log_event (OwnerFunctionCalled 24) r).

(** [admin] is the owner of the proxy. *)
Definition setLoserStakeEscrow (admin newLoserStakerEscrow : Address) r : res Rollup :=
  _ ← require (negb (newLoserStakerEscrow =? admin)) "INVALID_ESCROW";
  Ok (owner_call 25 (with_escrow newLoserStakerEscrow (params r)) r).
Definition setWasmModuleRoot (newWasmModuleRoot : Hash) r : res Rollup :=
  Ok (owner_call 26 (with_root newWasmModuleRoot (params r)) r).
Definition setValidatorWhitelistDisabled (b : bool) r : res Rollup := Ok (owner_call 30 (with_whitelist b (params r)) r).
Definition setAnyTrustFastConfirmer (a : Address) r : res Rollup := Ok (owner_call 31 (with_confirmer a (params r)) r).
Definition setChallengeManager (a : Address) r : res Rollup := Ok (owner_call 32 (with_manager a (params r)) r).

(** The rollup that [initialize] sets up; what it does to the other contracts is left out. *)
Definition initialize (env : Env) (admin owner : Address) (chainId : Z) (p : RollupParams) (genesis : SolExecutionState) (genesisInboxCount : Z)
    : res Rollup :=
  _ ← require (negb (loserStakeEscrow p =? admin)) "INVALID_ESCROW_ADMIN";
  _ ← require (negb (loserStakeEscrow p =? owner)) "INVALID_ESCROW_OWNER";
  let p := {| confirmPeriodBlocks := confirmPeriodBlocks p; baseStake := baseStake p; wasmModuleRoot := wasmModuleRoot p;
    challengeManager := challengeManager p; challengeGracePeriodBlocks := challengeGracePeriodBlocks p;
    bridgeAddress := bridgeAddress p; loserStakeEscrow := loserStakeEscrow p; minimumAssertionPeriod := 75; isValidator := ∅;
    rollupDeploymentBlock := blockNumber env; validatorWhitelistDisabled := false;
    anyTrustFastConfirmer := anyTrustFastConfirmer p; paused := false |} in
  let genesisHash := assertionHash 0 genesis 0 in
  let count := len (sequencerInboxAccs env) in
  currentInboxCount ← (if count =? genesisInboxCount then checked 256 (count + 1) else Ok count);
  let r := {| params := p; latestConfirmed := 0; assertions := ∅; stakerList := []; stakerMap := ∅;
    withdrawableFunds := ∅; totalWithdrawableFunds := 0; sendRoots := ∅; rollupEvents := [] |} in
  let initialAssertion := createAssertion (blockNumber env) true (configHash (config_now r currentInboxCount)) in
  let empty := {| SolGlobal := {| Bytes32Vals := (0, 0); U64Vals := (0, 0) |}; SolMachineStatus := MachineStatusRunning |} in
  let inputs := {| InputsBeforeStateData := {| PrevPrevAssertionHash := 0; SequencerBatchAcc := 0;
      BeforeConfigData := {| CfgWasmModuleRoot := 0; CfgRequiredStake := 0; CfgChallengeManager := 0;
                             CfgConfirmPeriodBlocks := 0; NextInboxPosition := 0 |} |};
    InputsBeforeState := empty; InputsAfterState := genesis |} in
  let r := log_event (AssertionCreated genesisHash 0 inputs 0 currentInboxCount (wasmModuleRoot p) (baseStake p)
    (challengeManager p) (confirmPeriodBlocks p)) (initializeCore initialAssertion genesisHash r) in
  Ok (log_event (RollupInitialized (wasmModuleRoot p) chainId) r).

End admin.

(** ** Calls *)

Inductive UserCall :=
| ConfirmAssertion (h prevAssertionHash : Hash) (confirmState : SolExecutionState) (winningEdgeId : Hash)
    (prevConfig : ConfigData) (inboxAcc : Hash)
| StakeOnNewAssertion (assertion : AssertionInputs) (expectedAssertionHash : Hash)
| NewStakeOnNewAssertion (tokenAmount : Z) (assertion : AssertionInputs) (expectedAssertionHash : Hash)
| ReturnOldDeposit
| ReduceDeposit (target : Z)
| AddToDeposit (stakerAddress : Address) (tokenAmount : Z)
| WithdrawStakerFunds
| FastConfirmAssertion (h parentAssertionHash : Hash) (confirmState : SolExecutionState) (inboxAcc : Hash)
| FastConfirmNewAssertion (assertion : AssertionInputs) (expectedAssertionHash : Hash)
| RemoveWhitelistAfterFork (chainIdChanged : bool)
| RemoveWhitelistAfterValidatorAfk.

Inductive AdminCall :=
| Pause
| Resume
| SetValidator (validator : list Address) (val : list bool)
| SetMinimumAssertionPeriod (newPeriod : Z)
| SetConfirmPeriodBlocks (newConfirmPeriod : Z)
| SetBaseStake (newBaseStake : Z)
| ForceRefundStaker (stakers : list Address)
| ForceCreateAssertion (prevAssertionHash : Hash) (assertion : AssertionInputs) (expectedAssertionHash : Hash)
| ForceConfirmAssertion (h parentAssertionHash : Hash) (confirmState : SolExecutionState) (inboxAcc : Hash)
| SetLoserStakeEscrow (newLoserStakerEscrow : Address)
| SetWasmModuleRoot (newWasmModuleRoot : Hash)
| SetValidatorWhitelistDisabled (b : bool)
| SetAnyTrustFastConfirmer (a : Address)
| SetChallengeManager (a : Address).

(** The stake token as the rollup calls it: transfers of a sender to the rollup, and of the rollup. *)
Class RollupToken (T : Type) := {
  receiveTokens : T -> Address -> Z -> res T;
  sendTokens : T -> Address -> Z -> res T;
}.

Section calls.
Context `{Hasher} {T : Type} `{RollupToken T}.

Definition run_user (env : Env) (getEdge : Address -> Hash -> res ChallengeEdge) (call : UserCall) (r : Rollup) (t : T)
    : res (Rollup * T) :=
  match call with
  | ConfirmAssertion h prev st e c acc => r ← confirmAssertion env getEdge h prev st e c acc r; Ok (r, t)
  | StakeOnNewAssertion a x => r ← stakeOnNewAssertion env a x r; Ok (r, t)
  | NewStakeOnNewAssertion n a x =>
      r ← newStakeOnNewAssertion env n a x r; t ← receiveTokens t (msgSender env) n; Ok (r, t)
  | ReturnOldDeposit => r ← returnOldDeposit env r; Ok (r, t)
  | ReduceDeposit n => r ← reduceDeposit env n r; Ok (r, t)
  | AddToDeposit a n => r ← addToDeposit env a n r; t ← receiveTokens t (msgSender env) n; Ok (r, t)
  | WithdrawStakerFunds => '(n, r) ← withdrawStakerFunds env r; t ← sendTokens t (msgSender env) n; Ok (r, t)
  | FastConfirmAssertion h prev st acc => r ← fastConfirmAssertion env h prev st acc r; Ok (r, t)
  | FastConfirmNewAssertion a x => r ← fastConfirmNewAssertion env a x r; Ok (r, t)
  | RemoveWhitelistAfterFork b => r ← removeWhitelistAfterFork b r; Ok (r, t)
  | RemoveWhitelistAfterValidatorAfk => r ← removeWhitelistAfterValidatorAfk env r; Ok (r, t)
  end.

Definition run_admin (env : Env) (admin : Address) (call : AdminCall) (r : Rollup) : res Rollup :=
  match call with
  | Pause => pause r
  | Resume => resume r
  | SetValidator l v => setValidator l v r
  | SetMinimumAssertionPeriod n => setMinimumAssertionPeriod n r
  | SetConfirmPeriodBlocks n => setConfirmPeriodBlocks n r
  | SetBaseStake n => setBaseStake n r
  | ForceRefundStaker l => forceRefundStaker l r
  | ForceCreateAssertion prev a x => forceCreateAssertion env prev a x r
  | ForceConfirmAssertion h prev st acc => forceConfirmAssertion h prev st acc r
  | SetLoserStakeEscrow a => setLoserStakeEscrow admin a r
  | SetWasmModuleRoot x => setWasmModuleRoot x r
  | SetValidatorWhitelistDisabled b => setValidatorWhitelistDisabled b r
  | SetAnyTrustFastConfirmer a => setAnyTrustFastConfirmer a r
  | SetChallengeManager a => setChallengeManager a r
  end.

End calls.
