(* ===== verification/RollupSpec.v ===== *)
(** * The assertions of the rollup

    What a transaction can do to the assertions of the rollup, the invariant this keeps, and
    the chain of the confirmed assertions. *)

From S2P Require Import Prelude Bits PrefixProofs Protocol Contracts MerkleContract Rollup.

(** ** Changes of the assertions *)

Section changes.
Context `{Hasher}.
Implicit Types r : Rollup.

(** A step of the assertions in a block: none, a new child of an assertion, or the
    confirmation of a pending one.  In a step that is [fair] the parent of the assertion is the one that
    was confirmed last. *)
Inductive astep (fair : bool) (b : Z) r r' : Prop :=
| astep_same : assertions r' = assertions r -> latestConfirmed r' = latestConfirmed r -> astep fair b r r'
| astep_create p st acc cfg (h := assertionHash p st acc) : p <> 0 -> h <> 0 ->
    configHash cfg = ConfigHash (assertion_at r p) -> NodeStatus (assertion_at r h) = NodeNone ->
    (exists c, assertions r' = <[h := createAssertion b (FirstChildBlock (assertion_at r p) =? 0) (configHash c)]>
      (<[p := childCreated b (assertion_at r p)]> (assertions r))) ->
    latestConfirmed r' = latestConfirmed r -> astep fair b r r'
| astep_confirm p st acc (h := assertionHash p st acc) : h <> 0 ->
    NodeStatus (assertion_at r h) = NodePending -> (fair = true -> p = latestConfirmed r) ->
    assertions r' = <[h := with_status NodeConfirmed (assertion_at r h)]> (assertions r) ->
    latestConfirmed r' = h -> astep fair b r r'.

(** The functions that leave the assertions alone. *)
Definition quiet r r' : Prop := assertions r' = assertions r /\ latestConfirmed r' = latestConfirmed r /\ params r' = params r.

#[global] Instance quiet_preorder : PreOrder quiet.
Proof. split; [done|]. intros r1 r2 r3 (? & ? & ?) (? & ? & ?). split_and!; congruence. Qed.

Lemma storage_ok r h n : getAssertionStorage r h = Ok n -> h <> 0 /\ n = assertion_at r h.
Proof. unfold getAssertionStorage, require. destruct (Z.eqb_spec h 0); [done|]. cbn. by intros [= <-]. Qed.

Lemma increaseFunds_quiet a n r r' : increaseWithdrawableFunds a n r = Ok r' -> quiet r r'.
Proof. unfold increaseWithdrawableFunds. intros (? & _ & Hr)%res_bind_ok. apply res_bind_ok in Hr as (? & _ & [= <-]). done. Qed.

Lemma reduceStake_quiet a n r r' : reduceStakeTo a n r = Ok r' -> quiet r r'.
Proof.
  unfold reduceStakeTo. intros (? & _ & Hr)%res_bind_ok. apply res_bind_ok in Hr as (? & Hq%increaseFunds_quiet & [= <-]).
  destruct Hq as (? & ? & ?). done.
Qed.

Lemma deleteStaker_quiet a r r' : deleteStaker a r = Ok r' -> quiet r r'.
Proof. unfold deleteStaker. intros (? & _ & Hr)%res_bind_ok. destruct (list.last _); [|done]. case_match; [done|]. by injection Hr as <-. Qed.

Lemma withdrawStaker_quiet a r r' : withdrawStaker a r = Ok r' -> quiet r r'.
Proof.
  unfold withdrawStaker. intros (? & H1%increaseFunds_quiet & Hr)%res_bind_ok.
  apply res_bind_ok in Hr as (? & H2%deleteStaker_quiet & [= <-]). etrans; [exact H1|exact H2].
Qed.

Lemma escrow_quiet h n r r' : escrow_loser h n r = Ok r' -> quiet r r'.
Proof.
  unfold escrow_loser. intros (m & _ & Hr)%res_bind_ok. destruct (negb _); [by apply increaseFunds_quiet in Hr|].
  by injection Hr as <-.
Qed.

Lemma refund_quiet l : forall r r', refund_loop l r = Ok r' -> quiet r r'.
Proof.
  induction l as [|a l IH]; intros r r' Hr; cbn [refund_loop] in Hr; [by injection Hr as <-|].
  apply res_bind_ok in Hr as (? & _ & Hr). apply res_bind_ok in Hr as (r1 & H1%reduceStake_quiet & Hr).
  etrans; [exact H1|by apply IH].
Qed.

Lemma create_astep env a p x r h r' fair : createNewAssertion env a p x r = Ok (h, r') ->
  astep fair (blockNumber env) r r' /\ params r' = params r /\ NodeStatus (assertion_at r h) = NodeNone /\
  NodeStatus (assertion_at r' h) = NodePending /\ exists st acc, h = assertionHash p st acc.
Proof.
  unfold createNewAssertion. intros (prev & [Hp ->]%storage_ok & Hr)%res_bind_ok.
  apply res_bind_ok in Hr as ([] & Hcfg & Hr). apply res_bind_ok in Hr as (? & _ & Hr). apply res_bind_ok in Hr as (? & _ & Hr).
  apply res_bind_ok in Hr as (? & _ & Hr). apply res_bind_ok in Hr as ([next acc] & _ & Hr). apply res_bind_ok in Hr as (? & _ & Hr).
  apply res_bind_ok in Hr as (seen & [Hh ->]%storage_ok & Hr). apply res_bind_ok in Hr as ([] & Hs & [= <- <-]).
  apply require_ok, Z.eqb_eq in Hs. unfold validateConfigHash in Hcfg. apply require_ok, Z.eqb_eq in Hcfg.
  split_and!; try done; [|unfold assertion_at; cbn; by rewrite lookup_insert_eq|by do 2 eexists].
  eapply (astep_create _ _ _ _ p (InputsAfterState a) acc); [done|done|by symmetry|done|by eexists|done].
Qed.

Lemma confirm_astep h p st acc r r' fair b : confirmAssertionInternal h p st acc r = Ok r' ->
  (fair = true -> p = latestConfirmed r) ->
  astep fair b r r' /\ params r' = params r /\ h = assertionHash p st acc /\ NodeStatus (assertion_at r h) = NodePending /\
  NodeStatus (assertion_at r' h) = NodeConfirmed.
Proof.
  unfold confirmAssertionInternal. intros (n & [Hh ->]%storage_ok & Hr)%res_bind_ok Hf.
  apply res_bind_ok in Hr as ([] & Hp & Hr). apply res_bind_ok in Hr as ([] & Hd & Hr). apply require_ok, Z.eqb_eq in Hp, Hd.
  destruct (Bytes32Vals (SolGlobal st)) as [bh sr]. injection Hr as <-. subst h.
  split_and!; try done; [|unfold assertion_at; cbn; by rewrite lookup_insert_eq].
  by eapply astep_confirm.
Qed.

(** Confirmations that follow the latest confirmed assertion. *)
Definition fair_user (call : UserCall) : bool :=
  match call with FastConfirmAssertion _ _ _ _ | FastConfirmNewAssertion _ _ => false | _ => true end.
Definition fair_admin (call : AdminCall) : bool :=
  match call with ForceConfirmAssertion _ _ _ _ => false | _ => true end.

Definition asteps (fair : bool) (b : Z) : relation Rollup := rtc (astep fair b).

Lemma quiet_asteps fair b r r' : quiet r r' -> asteps fair b r r'.
Proof. intros (? & ? & _). apply rtc_once. by apply astep_same. Qed.

Lemma stakeOn_asteps env a x r r' : stakeOnNewAssertion env a x r = Ok r' ->
  asteps true (blockNumber env) r r' /\ params r' = params r.
Proof.
  unfold stakeOnNewAssertion. intros Hr. do 8 (apply res_bind_ok in Hr as (? & _ & Hr)).
  apply res_bind_ok in Hr as (? & _ & Hr). apply res_bind_ok in Hr as (? & _ & Hr).
  apply res_bind_ok in Hr as ([h r1] & Hc & Hq%escrow_quiet).
  destruct (create_astep _ _ _ _ _ _ _ true Hc) as (Hs & Ep & _). split.
  - eapply rtc_l; [exact Hs|]. apply (quiet_asteps _ _ _ _). etrans; [|exact Hq]. done.
  - destruct Hq as (_ & _ & ->). exact Ep.
Qed.

Lemma fastConfirm_asteps env h p st acc r r' : fastConfirmAssertion env h p st acc r = Ok r' ->
  asteps false (blockNumber env) r r' /\ params r' = params r.
Proof.
  unfold fastConfirmAssertion. intros (? & _ & Hr)%res_bind_ok. apply res_bind_ok in Hr as (? & _ & Hr).
  destruct (confirm_astep _ _ _ _ _ _ false (blockNumber env) Hr) as (Hs & Ep & _); [done|]. split; [by apply rtc_once|done].
Qed.

Lemma fastConfirmNew_asteps env a x r r' : fastConfirmNewAssertion env a x r = Ok r' ->
  asteps false (blockNumber env) r r' /\ params r' = params r.
Proof.
  unfold fastConfirmNewAssertion. intros Hr. do 5 (apply res_bind_ok in Hr as (? & _ & Hr)).
  apply res_bind_ok in Hr as (r1 & H1 & Hr). apply res_bind_ok in Hr as (? & _ & Hr). case_match; [|done].
  apply fastConfirm_asteps in Hr as [H2 E2].
  assert (Hx : asteps false (blockNumber env) r r1 /\ params r1 = params r).
  { case_match; [|by injection H1 as <-]. apply res_bind_ok in H1 as ([h r0] & Hc & Hq%escrow_quiet).
    destruct (create_astep _ _ _ _ _ _ _ false Hc) as (Hs & Ep & _). split; [|destruct Hq as (_ & _ & ->); exact Ep].
    eapply rtc_l; [exact Hs|]. by apply quiet_asteps. }
  destruct Hx as [H3 E3]. split; [by etrans|congruence].
Qed.

(** What a transaction of anybody does to the assertions. *)
Lemma run_user_asteps {T} `{RollupToken T} env getEdge call r (t : T) r' t' :
  run_user env getEdge call r t = Ok (r', t') ->
  asteps (fair_user call) (blockNumber env) r r' /\ bridgeAddress (params r') = bridgeAddress (params r).
Proof.
  assert (Hq : forall f q, quiet r q -> asteps f (blockNumber env) r q /\ bridgeAddress (params q) = bridgeAddress (params r)).
  { intros f q Hq. split; [by apply quiet_asteps|]. destruct Hq as (_ & _ & ->). done. }
  destruct call; cbn [run_user fair_user]; intros (r1 & Hr & Hx)%res_bind_ok.
  - injection Hx as <- <-. unfold confirmAssertion in Hr. do 7 (apply res_bind_ok in Hr as (? & _ & Hr)).
    apply res_bind_ok in Hr as ([] & Hl & Hr). apply require_ok, Z.eqb_eq in Hl. apply res_bind_ok in Hr as (? & _ & Hr).
    destruct (confirm_astep _ _ _ _ _ _ true (blockNumber env) Hr) as (Hs & -> & _); [done|]. split; [by apply rtc_once|done].
  - injection Hx as <- <-. apply stakeOn_asteps in Hr as [Hs ->]. done.
  - apply res_bind_ok in Hx as (? & _ & [= <- <-]). unfold newStakeOnNewAssertion in Hr.
    apply res_bind_ok in Hr as (r2 & H2 & Hr). apply stakeOn_asteps in Hr as [Hs ->]. unfold newStake in H2.
    do 3 (apply res_bind_ok in H2 as (? & _ & H2)). injection H2 as <-. split; [|done].
    etrans; [|exact Hs]. by apply quiet_asteps.
  - injection Hx as <- <-. unfold returnOldDeposit in Hr. do 3 (apply res_bind_ok in Hr as (? & _ & Hr)).
    apply Hq. by eapply withdrawStaker_quiet.
  - injection Hx as <- <-. unfold reduceDeposit in Hr. do 3 (apply res_bind_ok in Hr as (? & _ & Hr)).
    apply Hq. by eapply reduceStake_quiet.
  - apply res_bind_ok in Hx as (? & _ & [= <- <-]). unfold addToDeposit in Hr. do 3 (apply res_bind_ok in Hr as (? & _ & Hr)).
    unfold increaseStakeBy in Hr. apply res_bind_ok in Hr as (? & _ & [= <-]). by apply Hq.
  - destruct r1 as [n r1]. apply res_bind_ok in Hx as (? & _ & [= <- <-]). unfold withdrawStakerFunds, withdrawFunds in Hr.
    apply res_bind_ok in Hr as (? & _ & Hr). apply res_bind_ok in Hr as ([? ?] & Hw & Hr). apply res_bind_ok in Hr as (? & _ & [= <- <-]).
    apply res_bind_ok in Hw as (? & _ & [= <- <-]). by apply Hq.
  - injection Hx as <- <-. apply fastConfirm_asteps in Hr as [Hs ->]. done.
  - injection Hx as <- <-. apply fastConfirmNew_asteps in Hr as [Hs ->]. done.
  - injection Hx as <- <-. unfold removeWhitelistAfterFork in Hr. do 2 (apply res_bind_ok in Hr as (? & _ & Hr)). injection Hr as <-.
    split; [apply rtc_once; by apply astep_same|done].
  - injection Hx as <- <-. unfold removeWhitelistAfterValidatorAfk in Hr. do 3 (apply res_bind_ok in Hr as (? & _ & Hr)). injection Hr as <-.
    split; [apply rtc_once; by apply astep_same|done].
Qed.

(** And one of the owner. *)
Lemma run_admin_asteps env admin call r r' : run_admin env admin call r = Ok r' ->
  asteps (fair_admin call) (blockNumber env) r r' /\ bridgeAddress (params r') = bridgeAddress (params r).
Proof.
  assert (Hset : forall f n p, bridgeAddress p = bridgeAddress (params r) -> asteps f (blockNumber env) r (owner_call n p r) /\
    bridgeAddress (params (owner_call n p r)) = bridgeAddress (params r)).
  { intros f n p Hp. split; [apply rtc_once; by apply astep_same|done]. }
  destruct call; cbn [run_admin fair_admin]; intros Hr; try (injection Hr as <-; by apply Hset).
  - apply res_bind_ok in Hr as (? & _ & [= <-]). by apply Hset.
  - apply res_bind_ok in Hr as (? & _ & [= <-]). by apply Hset.
  - unfold setValidator in Hr. do 2 (apply res_bind_ok in Hr as (? & _ & Hr)). injection Hr as <-. by apply Hset.
  - apply res_bind_ok in Hr as (? & _ & [= <-]). by apply Hset.
  - unfold forceRefundStaker in Hr. do 2 (apply res_bind_ok in Hr as (? & _ & Hr)). apply res_bind_ok in Hr as (r1 & (E1 & E2 & E3)%refund_quiet & [= <-]).
    split; [apply rtc_once; by apply astep_same|cbn; by rewrite E3].
  - unfold forceCreateAssertion in Hr. apply res_bind_ok in Hr as (? & _ & Hr). apply res_bind_ok in Hr as ([h r1] & Hc & [= <-]).
    destruct (create_astep _ _ _ _ _ _ _ true Hc) as (Hs & Ep & _). split; [|cbn; by rewrite Ep].
    eapply rtc_l; [exact Hs|]. apply rtc_once. by apply astep_same.
  - unfold forceConfirmAssertion in Hr. apply res_bind_ok in Hr as (? & _ & Hr). apply res_bind_ok in Hr as (r1 & Hc & [= <-]).
    destruct (confirm_astep _ _ _ _ _ _ false (blockNumber env) Hc) as (Hs & Ep & _); [done|]. split; [|cbn; by rewrite Ep].
    eapply rtc_l; [exact Hs|]. apply rtc_once. by apply astep_same.
  - apply res_bind_ok in Hr as (? & _ & [= <-]). by apply Hset.
Qed.

End changes.

(** ** The invariant of the assertions *)

Section invariant.
Context `{Hasher} `{!HasherNonzero} `{!HasherInjective}.
Implicit Types r : Rollup.

(** The parent of an assertion is the [p] its hash was computed with. *)
Definition child_of (h p : Hash) : Prop := exists st acc, h = assertionHash p st acc.

Lemma child_parent h p p' : child_of h p -> child_of h p' -> p = p'.
Proof. intros (st & acc & ->) (st' & acc' & E). unfold assertionHash in E. apply keccak_inj in E. congruence. Qed.

Record rollup_inv r : Prop := {
  inv_zero : assertions r !! 0 = None;
  inv_status h n : assertions r !! h = Some n -> NodeStatus n <> NodeNone;
  inv_config h n : assertions r !! h = Some n -> ConfigHash n <> 0;
  inv_blocks h n : assertions r !! h = Some n -> 0 <= FirstChildBlock n;
  inv_hash h n : assertions r !! h = Some n -> exists p, child_of h p;
  inv_parent h p n : assertions r !! h = Some n -> child_of h p -> p <> 0 ->
    exists m, assertions r !! p = Some m /\ 0 < FirstChildBlock m;
  inv_known h n : assertions r !! h = Some n -> NodeStatus n = NodePending \/ NodeStatus n = NodeConfirmed;
  inv_latest : NodeStatus (assertion_at r (latestConfirmed r)) = NodeConfirmed;
}.

Lemma config_nonzero c : configHash c <> 0.
Proof. apply keccak_nonzero. Qed.

(** An assertion with a status or a configuration is stored. *)
Lemma status_stored r h : NodeStatus (assertion_at r h) <> NodeNone -> assertions r !! h = Some (assertion_at r h).
Proof. unfold assertion_at. by destruct (assertions r !! h). Qed.
Lemma config_stored r h c : configHash c = ConfigHash (assertion_at r h) -> assertions r !! h = Some (assertion_at r h).
Proof. unfold assertion_at. destruct (assertions r !! h); [done|]. intros E. by destruct (config_nonzero c). Qed.
Lemma none_missing r h : rollup_inv r -> NodeStatus (assertion_at r h) = NodeNone -> assertions r !! h = None.
Proof. unfold assertion_at. intros Hinv. destruct (assertions r !! h) eqn:E; [|done]. by apply (inv_status _ Hinv) in E. Qed.
Lemma stored_at r h n : assertions r !! h = Some n -> assertion_at r h = n.
Proof. unfold assertion_at. by intros ->. Qed.

(** What a node keeps: all but its status and blocks of children that were not set. *)
Record node_later (n m : AssertionNode) : Prop := {
  keep_created : NodeCreatedAtBlock m = NodeCreatedAtBlock n;
  keep_isFirst : IsFirstChild m = IsFirstChild n;
  keep_config : ConfigHash m = ConfigHash n;
  keep_first : FirstChildBlock n <> 0 -> FirstChildBlock m = FirstChildBlock n;
  keep_second : SecondChildBlock n <> 0 -> SecondChildBlock m = SecondChildBlock n;
  keep_confirmed : NodeStatus n = NodeConfirmed -> NodeStatus m = NodeConfirmed;
}.

#[global] Instance node_later_preorder : PreOrder node_later.
Proof.
  split; [by split|]. intros n1 n2 n3 [] []. split; try congruence; auto.
  - intros Hn. rewrite keep_first1; [auto|]. rewrite keep_first0; done.
  - intros Hn. rewrite keep_second1; [auto|]. rewrite keep_second0; done.
Qed.

Lemma child_later b n : node_later n (childCreated b n).
Proof. unfold childCreated. repeat case_match; split; cbn; try done; repeat match goal with E : (_ =? _) = true |- _ => apply Z.eqb_eq in E end; done. Qed.

Lemma child_first b n : 0 < b < two64 -> 0 <= FirstChildBlock n -> 0 < FirstChildBlock (childCreated b n).
Proof.
  intros Hb Hn. unfold childCreated. destruct (Z.eqb_spec (FirstChildBlock n) 0); cbn; [unfold u64; rewrite Z.mod_small; lia|].
  case_match; cbn; lia.
Qed.

Definition nodes_later r r' : Prop :=
  forall h n, assertions r !! h = Some n -> exists m, assertions r' !! h = Some m /\ node_later n m.

#[global] Instance nodes_later_preorder : PreOrder nodes_later.
Proof.
  split; [intros r h n Hn; by exists n|]. intros r1 r2 r3 H12 H23 h n (m & Hm & Hnm)%H12.
  apply H23 in Hm as (k & Hk & Hmk). exists k. split; [done|by etrans].
Qed.

Lemma astep_later fair b r r' : rollup_inv r -> astep fair b r r' -> nodes_later r r'.
Proof.
  intros Hinv [E _|p st acc cfg h Hp Hh Hc Hs [c E] _|p st acc h Hh Hs _ E _] i n Hn; rewrite E.
  - by exists n.
  - apply config_stored in Hc as Hpn. apply (none_missing _ _ Hinv) in Hs.
    rewrite lookup_insert_ne by congruence. destruct (decide (p = i)) as [->|Hi].
    + rewrite lookup_insert_eq. eexists. split; [done|]. rewrite (stored_at _ _ _ Hn). apply child_later.
    + rewrite lookup_insert_ne by done. by exists n.
  - destruct (decide (h = i)) as [<-|Hi]; [|rewrite lookup_insert_ne by done; by exists n].
    rewrite lookup_insert_eq. eexists. split; [done|]. rewrite (stored_at _ _ _ Hn). by split.
Qed.

Lemma confirmed_later r r' h : nodes_later r r' -> NodeStatus (assertion_at r h) = NodeConfirmed ->
  NodeStatus (assertion_at r' h) = NodeConfirmed.
Proof.
  intros Hl Hs. destruct (Hl h _ (status_stored r h ltac:(by rewrite Hs))) as (m & Hm & Hk). rewrite (stored_at _ _ _ Hm).
  by apply (keep_confirmed _ _ Hk).
Qed.

(** A new child. *)
Lemma create_inv b r r' p st acc cfg c (h := assertionHash p st acc) : 0 < b < two64 -> rollup_inv r -> nodes_later r r' ->
  p <> 0 -> h <> 0 -> configHash cfg = ConfigHash (assertion_at r p) -> NodeStatus (assertion_at r h) = NodeNone ->
  assertions r' = <[h := createAssertion b (FirstChildBlock (assertion_at r p) =? 0) (configHash c)]>
    (<[p := childCreated b (assertion_at r p)]> (assertions r)) -> latestConfirmed r' = latestConfirmed r -> rollup_inv r'.
Proof.
  intros Hb Hinv Hl Hp Hh Hc Hs E El. pose proof Hinv as [Hi0 Hi1 Hi2 Hi3 Hi4 Hi5 Hi6 Hi7].
  apply config_stored in Hc as Hpn. apply (none_missing _ _ Hinv) in Hs. assert (Hne : h <> p) by congruence.
  assert (Hat : forall i n, assertions r' !! i = Some n ->
    i = h /\ n = createAssertion b (FirstChildBlock (assertion_at r p) =? 0) (configHash c) \/
    i = p /\ n = childCreated b (assertion_at r p) \/ assertions r !! i = Some n).
  { intros i n. rewrite E, !lookup_insert_Some. naive_solver. }
  pose proof (child_later b (assertion_at r p)) as Hcl.
  assert (Hkeep : forall q m, assertions r !! q = Some m -> 0 < FirstChildBlock m ->
    exists m', assertions r' !! q = Some m' /\ 0 < FirstChildBlock m').
  { intros q m (m' & Hm' & Hk)%Hl Hm. exists m'. split; [done|]. rewrite (keep_first _ _ Hk); lia. }
  split.
  - rewrite E, !lookup_insert_ne; done.
  - intros i n [[-> ->]|[[-> ->]|Hn]]%Hat; [done| |by eapply Hi1]. apply Hi1 in Hpn. unfold childCreated. by repeat case_match.
  - intros i n [[-> ->]|[[-> ->]|Hn]]%Hat; [apply config_nonzero| |by eapply Hi2]. apply Hi2 in Hpn. by rewrite (keep_config _ _ Hcl).
  - intros i n [[-> ->]|[[-> ->]|Hn]]%Hat; [done| |by eapply Hi3]. apply Hi3 in Hpn. pose proof (child_first b _ Hb Hpn). lia.
  - intros i n [[-> ->]|[[-> ->]|Hn]]%Hat; [by exists p, st, acc|by eapply Hi4|by eapply Hi4].
  - intros i q n Hi Hq Hq0. apply Hat in Hi as [[-> ->]|[[-> ->]|Hn]].
    + assert (q = p) as -> by (eapply child_parent; [done|by exists st, acc]).
      exists (childCreated b (assertion_at r p)). rewrite E, lookup_insert_ne, lookup_insert_eq by done.
      split; [done|]. apply child_first; [done|]. by eapply Hi3.
    + destruct (Hi5 _ _ _ Hpn Hq Hq0) as (m & Hm & Hf). eauto.
    + destruct (Hi5 _ _ _ Hn Hq Hq0) as (m & Hm & Hf). eauto.
  - intros i n [[-> ->]|[[-> ->]|Hn]]%Hat; [by left| |by eapply Hi6]. apply Hi6 in Hpn. unfold childCreated. by repeat case_match.
  - rewrite El. by apply (confirmed_later r).
Qed.

(** A confirmation. *)
Lemma confirm_inv r r' h : rollup_inv r -> nodes_later r r' -> h <> 0 -> NodeStatus (assertion_at r h) = NodePending ->
  assertions r' = <[h := with_status NodeConfirmed (assertion_at r h)]> (assertions r) -> latestConfirmed r' = h -> rollup_inv r'.
Proof.
  intros Hinv Hl Hh Hs E El. pose proof Hinv as [Hi0 Hi1 Hi2 Hi3 Hi4 Hi5 Hi6 Hi7].
  assert (Hst : assertions r !! h = Some (assertion_at r h)) by (apply status_stored; by rewrite Hs).
  assert (Hat : forall i n, assertions r' !! i = Some n ->
    exists n0, assertions r !! i = Some n0 /\ (n = n0 \/ n = with_status NodeConfirmed n0)).
  { intros i n. rewrite E, lookup_insert_Some. naive_solver. }
  split.
  - rewrite E, lookup_insert_ne; done.
  - intros i n (n0 & Hn & [->| ->])%Hat; [by eapply Hi1|done].
  - intros i n (n0 & Hn & [->| ->])%Hat; by eapply (Hi2 _ _ Hn).
  - intros i n (n0 & Hn & [->| ->])%Hat; by eapply (Hi3 _ _ Hn).
  - intros i n (n0 & Hn & _)%Hat. by eapply Hi4.
  - intros i q n (n0 & Hn & _)%Hat Hq Hq0. destruct (Hi5 _ _ _ Hn Hq Hq0) as (m & (m' & Hm' & Hk)%Hl & Hf).
    exists m'. split; [done|]. rewrite (keep_first _ _ Hk); lia.
  - intros i n (n0 & Hn & [->| ->])%Hat; [by eapply Hi6|by right].
  - rewrite El. unfold assertion_at at 1. by rewrite E, lookup_insert_eq.
Qed.

Lemma astep_inv fair b r r' : 0 < b < two64 -> astep fair b r r' -> rollup_inv r -> rollup_inv r'.
Proof.
  intros Hb Hst Hinv. pose proof (astep_later _ _ _ _ Hinv Hst) as Hl.
  destruct Hst as [E El|p st acc cfg h Hp Hh Hc Hs [c E] El|p st acc h Hh Hs _ E El].
  - pose proof Hinv as []. by split; unfold assertion_at; rewrite ?E, ?El.
  - by eapply (create_inv b r r' p st acc cfg c).
  - by eapply (confirm_inv r r' h).
Qed.

Lemma asteps_inv fair b r r' : 0 < b < two64 -> asteps fair b r r' -> rollup_inv r -> rollup_inv r' /\ nodes_later r r'.
Proof.
  intros Hb. induction 1 as [r|r1 r2 r3 Hs _ IH]; intros Hinv; [done|].
  destruct (IH (astep_inv _ _ _ _ Hb Hs Hinv)) as [H2 Hl]. split; [done|]. etrans; [by eapply astep_later|done].
Qed.

(** An assertion that is confirmed and not the latest confirmed one never becomes the latest again. *)
Definition passed r (h : Hash) : Prop := NodeStatus (assertion_at r h) = NodeConfirmed /\ latestConfirmed r <> h.

Lemma asteps_passed fair b r r' h : 0 < b < two64 -> asteps fair b r r' -> rollup_inv r -> passed r h -> passed r' h.
Proof.
  intros Hb. induction 1 as [r|r1 r2 r3 Hs _ IH]; intros Hinv [Hst Hl]; [done|].
  apply IH; [by eapply astep_inv|]. split; [by eapply confirmed_later; [eapply astep_later|]|].
  destruct Hs as [_ ->|? ? ? ? ? _ _ _ _ _ ->|p st acc h' _ Hp _ _ ->]; try done. intros ->. by rewrite Hp in Hst.
Qed.

End invariant.

(** ** Transactions *)

Section transactions.
Context `{Hasher} `{!HasherNonzero} `{!HasherInjective} {T : Type} `{RollupToken T}.
Implicit Types (r : Rollup) (x y : Rollup * T).

(** A transaction by anybody or by the owner, in a block whose number fits 64 bits.  In [fair] ones nobody
    uses the powers of the fast confirmer and of the owner to confirm an assertion. *)
Inductive rollup_tx (fair : bool) x y : Prop :=
| tx_user env getEdge call : 0 < blockNumber env < two64 -> (fair = true -> fair_user call = true) ->
    run_user env getEdge call x.1 x.2 = Ok y -> rollup_tx fair x y
| tx_admin env admin call : 0 < blockNumber env < two64 -> (fair = true -> fair_admin call = true) ->
    run_admin env admin call x.1 = Ok y.1 -> y.2 = x.2 -> rollup_tx fair x y.

(** A rollup that was just initialized. *)
Definition rollup_start r : Prop :=
  exists env admin owner chainId p genesis count, 0 < blockNumber env < two64 /\
    initialize env admin owner chainId p genesis count = Ok r.

Lemma asteps_weaken fair fair' b r r' : (fair = true -> fair' = true) -> asteps fair' b r r' -> asteps fair b r r'.
Proof.
  intros Hf. apply rtc_subrel. intros q q' [E El|p st acc cfg h Hp Hh Hc Hs E El|p st acc h Hh Hs Hl E El].
  - by apply astep_same.
  - by eapply (astep_create _ _ _ _ p st acc cfg).
  - eapply (astep_confirm _ _ _ _ p st acc); auto.
Qed.

Lemma tx_asteps fair x y : rollup_tx fair x y ->
  (exists b, 0 < b < two64 /\ asteps fair b x.1 y.1) /\ bridgeAddress (params y.1) = bridgeAddress (params x.1).
Proof.
  intros [env getEdge call Hb Hf Hr|env admin call Hb Hf Hr _].
  - destruct x as [r t], y as [r' t']. apply run_user_asteps in Hr as [Hs Hbr]. split; [|done].
    exists (blockNumber env). split; [done|]. exact (asteps_weaken _ _ _ _ _ Hf Hs).
  - apply run_admin_asteps in Hr as [Hs Hbr]. split; [|done]. exists (blockNumber env). split; [done|]. exact (asteps_weaken _ _ _ _ _ Hf Hs).
Qed.

Lemma txs_inv fair x y : rtc (rollup_tx fair) x y -> rollup_inv x.1 ->
  rollup_inv y.1 /\ nodes_later x.1 y.1 /\ bridgeAddress (params y.1) = bridgeAddress (params x.1).
Proof.
  induction 1 as [x|x1 x2 x3 Hs _ IH]; intros Hinv; [done|].
  apply tx_asteps in Hs as [(b & Hb & Hs) Hbr]. destruct (asteps_inv _ _ _ _ Hb Hs Hinv) as [Hi2 Hl].
  destruct (IH Hi2) as (Hi3 & Hl' & Hbr'). split_and!; [done|by etrans|congruence].
Qed.

Lemma start_inv r : rollup_start r -> rollup_inv r.
Proof.
  intros (env & admin & owner & cid & p & g & count & Hb & Hi). unfold initialize in Hi.
  apply res_bind_ok in Hi as (? & _ & Hi). apply res_bind_ok in Hi as (? & _ & Hi). apply res_bind_ok in Hi as (? & _ & [= <-]).
  split; cbn.
  - rewrite lookup_insert_ne; [done|]. apply keccak_nonzero.
  - intros h n. rewrite lookup_insert_Some, lookup_empty. naive_solver.
  - intros h n. rewrite lookup_insert_Some, lookup_empty. intros [[_ <-]|[_ ?]]; [apply config_nonzero|done].
  - intros h n. rewrite lookup_insert_Some, lookup_empty. naive_solver.
  - intros h n. rewrite lookup_insert_Some, lookup_empty. intros [[<- _]|[_ ?]]; [|done]. exists 0. by do 2 eexists.
  - intros h q n. rewrite lookup_insert_Some, lookup_empty. intros [[<- _]|[_ ?]] Hq Hq0; [|done].
    exfalso. apply Hq0. eapply child_parent; [exact Hq|by do 2 eexists].
  - intros h n. rewrite lookup_insert_Some, lookup_empty. intros [[_ <-]|[_ ?]]; [by right|done].
  - unfold assertion_at. cbn. by rewrite lookup_insert_eq.
Qed.

(** ** The confirmed assertions *)

(** The confirmed assertions are a chain from the first assertion to the latest confirmed one. *)
Record confirmed_chain r (l : list Hash) : Prop := {
  chain_first : exists g, l !! 0%nat = Some g /\ child_of g 0;
  chain_last : list.last l = Some (latestConfirmed r);
  chain_linked i p h : l !! i = Some p -> l !! S i = Some h -> child_of h p;
  chain_nodup : NoDup l;
  chain_all h : h ∈ l <-> NodeStatus (assertion_at r h) = NodeConfirmed;
}.

Lemma start_chain r : rollup_start r -> confirmed_chain r [latestConfirmed r].
Proof.
  intros (env & admin & owner & cid & p & g & count & Hb & Hi). unfold initialize in Hi.
  apply res_bind_ok in Hi as (? & _ & Hi). apply res_bind_ok in Hi as (? & _ & Hi). apply res_bind_ok in Hi as (? & _ & [= <-]).
  split; cbn.
  - eexists. split; [done|]. by do 2 eexists.
  - done.
  - by intros [|i].
  - apply NoDup_singleton.
  - intros h. rewrite list_elem_of_singleton. unfold assertion_at. cbn.
    destruct (decide (assertionHash 0 g 0 = h)) as [<-|Hn]; [by rewrite lookup_insert_eq|].
    rewrite lookup_insert_ne, lookup_empty by done. by split.
Qed.

Lemma chain_same r r' l : confirmed_chain r l -> latestConfirmed r' = latestConfirmed r ->
  (forall h, NodeStatus (assertion_at r' h) = NodeConfirmed <-> NodeStatus (assertion_at r h) = NodeConfirmed) -> confirmed_chain r' l.
Proof. intros [] E Hs. split; try done; [by rewrite E|]. intros h. by rewrite Hs. Qed.

Lemma astep_chain b r r' l : rollup_inv r -> astep true b r r' -> confirmed_chain r l ->
  exists l', confirmed_chain r' l' /\ l `prefix_of` l'.
Proof.
  intros Hinv [E El|p st acc cfg h Hp Hh Hc Hs [c E] El|p st acc h Hh Hs Hf E El] Hch.
  - exists l. split; [|done]. eapply chain_same; [done|done|]. intros h. unfold assertion_at. by rewrite E.
  - exists l. split; [|done]. eapply chain_same; [done|done|]. intros i. unfold assertion_at at 1. rewrite E.
    apply config_stored in Hc as Hpn. apply (none_missing _ _ Hinv) in Hs as Hn.
    destruct (decide (h = i)) as [<-|Hi]; [rewrite lookup_insert_eq; cbn; by rewrite Hs|]. rewrite lookup_insert_ne by done.
    destruct (decide (p = i)) as [<-|Hi']; [|by rewrite lookup_insert_ne].
    rewrite lookup_insert_eq. cbn. unfold childCreated. by repeat case_match.
  - exists (l ++ [h]). split; [|by apply prefix_app_r]. destruct Hch as [(g & Hg & Hg0) Hla Hli Hnd Hall].
    assert (Hnl : h ∉ l) by (rewrite Hall, Hs; done). split.
    + exists g. split; [|done]. by apply lookup_app_l_Some.
    + by rewrite last_snoc, El.
    + intros i q k Hq Hk. apply lookup_app_Some in Hk as [Hk|[Hlen Hk]].
      * rewrite lookup_app_l in Hq by (apply lookup_lt_Some in Hk; lia). by eapply Hli.
      * destruct (S i - length l)%nat eqn:En; [|done]. injection Hk as <-. exists st, acc.
        rewrite last_lookup in Hla. replace (pred (length l)) with i in Hla by lia.
        rewrite lookup_app_l in Hq by (apply lookup_lt_Some in Hla; lia). rewrite Hla in Hq. injection Hq as <-. unfold h. by rewrite Hf.
    + apply list.NoDup_app. split_and!; [done| |apply NoDup_singleton]. intros k Hk ->%list_elem_of_singleton. done.
    + intros k. rewrite elem_of_app, list_elem_of_singleton, Hall. unfold assertion_at at 2. rewrite E.
      destruct (decide (h = k)) as [<-|Hi]; [rewrite lookup_insert_eq; cbn; naive_solver|].
      rewrite lookup_insert_ne by done. unfold assertion_at. naive_solver.
Qed.

Lemma txs_chain x y l : rtc (rollup_tx true) x y -> rollup_inv x.1 -> confirmed_chain x.1 l ->
  exists l', confirmed_chain y.1 l' /\ l `prefix_of` l'.
Proof.
  intros Hs. revert l. induction Hs as [x|x1 x2 x3 Hs _ IH]; intros l Hinv Hch; [by exists l|].
  apply tx_asteps in Hs as [(b & Hb & Hs) _].
  assert (Hx : rollup_inv x2.1 /\ exists l', confirmed_chain x2.1 l' /\ l `prefix_of` l').
  { clear IH. revert l Hch. induction Hs as [r|r1 r2 r3 Hs _ IH]; intros l Hch; [split; [done|by exists l]|].
    destruct (astep_chain _ _ _ _ Hinv Hs Hch) as (l1 & Hi1 & P1).
    destruct (IH (astep_inv _ _ _ _ Hb Hs Hinv) l1 Hi1) as (Hi2 & l2 & Hi3 & P2). split; [done|]. exists l2. split; [done|by etrans]. }
  destruct Hx as (Hi2 & l1 & Hi3 & P1). destruct (IH l1 Hi2 Hi3) as (l2 & Hi4 & P2). exists l2. split; [done|by etrans].
Qed.

(** Confirmed assertions with the same parent are the same. *)
Lemma chain_siblings r l h h' p : rollup_inv r -> confirmed_chain r l ->
  NodeStatus (assertion_at r h) = NodeConfirmed -> NodeStatus (assertion_at r h') = NodeConfirmed ->
  child_of h p -> child_of h' p -> h = h'.
Proof.
  intros Hinv [(g & Hg & Hg0) _ Hli Hnd Hall] Hh Hh' Hp Hp'.
  assert (Hpos : forall k, NodeStatus (assertion_at r k) = NodeConfirmed -> child_of k p ->
    l !! 0%nat = Some k /\ p = 0 \/ p <> 0 /\ exists i, l !! i = Some p /\ l !! S i = Some k).
  { intros k [[|i] Hi]%Hall%list_elem_of_lookup Hk.
    - left. split; [done|]. assert (k = g) as -> by congruence. by eapply child_parent.
    - right. destruct (lookup_lt_is_Some_2 l i) as [q Hq]; [apply lookup_lt_Some in Hi; lia|].
      assert (p = q) as -> by (eapply child_parent; [done|by eapply Hli]). split; [|by exists i].
      intros ->. apply list_elem_of_lookup_2, Hall in Hq. unfold assertion_at in Hq. by rewrite (inv_zero _ Hinv) in Hq. }
  destruct (Hpos h Hh Hp) as [[E ->]|(Hn & i & Hi & Hi')], (Hpos h' Hh' Hp') as [[E' Ez]|(Hn' & j & Hj & Hj')]; try done; [congruence|].
  assert (i = j) as -> by (eapply NoDup_lookup; eauto). congruence.
Qed.

(** (C6) The rollup confirms one history: while nobody uses the powers of the fast confirmer or the
    owner to confirm, after any sequence of transactions since the rollup was set up the confirmed assertions
    are a chain of parents and children from the first assertion to the latest confirmed one, later
    transactions only extend it, and no assertion has two confirmed children. *)
Theorem confirmed_assertions_are_chain x y z : rollup_start x.1 -> rtc (rollup_tx true) x y -> rtc (rollup_tx true) y z ->
  exists l l', confirmed_chain y.1 l /\ confirmed_chain z.1 l' /\ l `prefix_of` l' /\
  forall h h' p, NodeStatus (assertion_at z.1 h) = NodeConfirmed -> NodeStatus (assertion_at z.1 h') = NodeConfirmed ->
    child_of h p -> child_of h' p -> h = h'.
Proof.
  intros Hx Hy Hz. pose proof (start_inv _ Hx) as Hi. destruct (txs_inv _ _ _ Hy Hi) as (Hiy & _). destruct (txs_inv _ _ _ Hz Hiy) as (Hiz & _).
  destruct (txs_chain _ _ _ Hy Hi (start_chain _ Hx)) as (l & Hl & _). destruct (txs_chain _ _ _ Hz Hiy Hl) as (l' & Hl' & Hp).
  exists l, l'. split_and!; [done..|]. intros h h' p. by eapply chain_siblings.
Qed.

End transactions.
