(* ===== verification/RollupStakes.v ===== *)
(** * The stakes of the rollup

    The rollup can always pay what it owes: the stakes that are locked in the branches that were not confirmed cover the stakes
    that it has promised to the escrow. *)

From S2P Require Import Prelude Bits PrefixProofs Protocol Contracts MerkleContract Rollup RollupSpec.

(** ** Sums over maps *)

Definition msum {A} (f : A -> Z) (m : gmap Z A) : Z := map_fold (fun _ x s => f x + s) 0 m.

Section sums.
Context {A : Type} (f : A -> Z).
Implicit Types m : gmap Z A.

Lemma msum_empty : msum f ∅ = 0.
Proof. apply map_fold_empty. Qed.

Lemma msum_new m k x : m !! k = None -> msum f (<[k := x]> m) = f x + msum f m.
Proof. intros Hk. unfold msum. rewrite map_fold_insert_L; [done| |done]. intros. lia. Qed.

Lemma msum_delete m k : msum f (delete k m) = msum f m - default 0 (f <$> m !! k).
Proof.
  destruct (m !! k) as [x|] eqn:E; cbn; [|rewrite delete_id by done; lia].
  rewrite <- (insert_delete_id m k x E) at 2. rewrite msum_new by apply lookup_delete_eq. lia.
Qed.

Lemma msum_insert m k x : msum f (<[k := x]> m) = msum f m - default 0 (f <$> m !! k) + f x.
Proof. rewrite <- insert_delete_eq, msum_new by apply lookup_delete_eq. rewrite msum_delete. lia. Qed.

Lemma msum_nonneg m : (forall k x, m !! k = Some x -> 0 <= f x) -> 0 <= msum f m.
Proof.
  induction m as [|k x m Hk IH] using map_ind; intros Hm; [by rewrite msum_empty|]. rewrite msum_new by done.
  pose proof (Hm k x ltac:(by rewrite lookup_insert_eq)). assert (0 <= msum f m); [|lia].
  apply IH. intros j y Hj. apply (Hm j). rewrite lookup_insert_ne; [done|]. congruence.
Qed.

Lemma msum_part m k x : (forall k x, m !! k = Some x -> 0 <= f x) -> m !! k = Some x -> f x <= msum f m.
Proof.
  intros Hm Hk. pose proof (msum_delete m k) as E. rewrite Hk in E. cbn in E.
  assert (0 <= msum f (delete k m)); [|lia]. apply msum_nonneg. intros j y [_ Hj]%lookup_delete_Some. eauto.
Qed.

(** Counting. *)
Lemma msum_count m (P : Z * A -> Prop) `{!forall p, Decision (P p)} :
  (forall k x, m !! k = Some x -> f x = if decide (P (k, x)) then 1 else 0) -> msum f m = Z.of_nat (size (filter P m)).
Proof.
  induction m as [|k x m Hk IH] using map_ind; intros Hm; [by rewrite msum_empty, map_filter_empty, map_size_empty|].
  rewrite msum_new by done. rewrite IH; cycle 1.
  { intros j y Hj. apply (Hm j). rewrite lookup_insert_ne; [done|]. congruence. }
  rewrite (Hm k x) by apply lookup_insert_eq. case_decide.
  - rewrite map_filter_insert_True by done. rewrite map_size_insert_None; [lia|]. apply map_lookup_filter_None. by left.
  - rewrite map_filter_insert_False, delete_id by done. lia.
Qed.

End sums.

(** ** The ledger *)

Section stakes.
Context `{Hasher} `{!HasherNonzero} `{!HasherInjective} (stake : Z).
Implicit Types r : Rollup.

Definition staked r : Z := msum amountStaked (stakerMap r).
Definition funds r : Z := msum (fun x => x) (withdrawableFunds r).

(** The children whose stake was promised to the escrow. *)
Definition promised r : Z := msum (fun n => if IsFirstChild n then 0 else 1) (assertions r).

(** An assertion without children. *)
Definition is_leaf (n : AssertionNode) : bool := FirstChildBlock n =? 0.
Definition leaves r : Z := msum (fun n => if is_leaf n then 1 else 0) (assertions r).

(** The stake on an assertion. *)
Definition stakes_on r (h : Hash) : Prop :=
  exists a s, stakerMap r !! a = Some s /\ stakerIsStaked s = true /\ latestStakedAssertion s = h /\ stake <= amountStaked s.

(** The owner has kept the stake. *)
Definition uniform r : Prop := baseStake (params r) = stake /\
  forall h n, assertions r !! h = Some n -> exists c, ConfigHash n = configHash c /\ CfgRequiredStake c = stake.

Record stakes_inv r : Prop := {
  si_rollup : rollup_inv r;
  si_uniform : uniform r;
  si_amounts a s : stakerMap r !! a = Some s -> 0 <= amountStaked s;
  si_funds a x : withdrawableFunds r !! a = Some x -> 0 <= x;
  si_total : funds r = totalWithdrawableFunds r;
  si_tree : leaves r = 1 + promised r;
  si_latest : assertions r !! latestConfirmed r <> None;
  si_locked h n : assertions r !! h = Some n -> is_leaf n = true -> h <> latestConfirmed r -> stakes_on r h;
}.

(** Every assertion of a set has a staker of its own. *)
Lemma stakes_cover (m : gmap Address StakerInfo) : 0 <= stake -> forall L : gset Hash, (forall a s, m !! a = Some s -> 0 <= amountStaked s) ->
  (forall h, h ∈ L -> exists a s, m !! a = Some s /\ latestStakedAssertion s = h /\ stake <= amountStaked s) ->
  stake * Z.of_nat (size L) <= msum amountStaked m.
Proof.
  intros Hs. induction m as [|k x m Hk IH] using map_ind; intros L Hm HL.
  { assert (L = ∅) as ->; [|rewrite size_empty, msum_empty; lia]. apply set_eq. intros h. split; [|set_solver].
    intros (a & s & Ha & _)%HL. by rewrite lookup_empty in Ha. }
  rewrite msum_new by done. pose proof (Hm k x ltac:(by rewrite lookup_insert_eq)) as Hx.
  assert (Hm' : forall a s, m !! a = Some s -> 0 <= amountStaked s).
  { intros a s Ha. apply (Hm a). rewrite lookup_insert_ne; [done|]. congruence. }
  assert (Hin : forall h, h ∈ L -> (latestStakedAssertion x = h /\ stake <= amountStaked x) \/
    exists a s, m !! a = Some s /\ latestStakedAssertion s = h /\ stake <= amountStaked s).
  { intros h (a & s & Ha & Hl & Hle)%HL. apply lookup_insert_Some in Ha as [[-> ->]|[_ Ha]]; [by left|]. right. eauto. }
  destruct (decide (stake <= amountStaked x)) as [Hle|Hn].
  - specialize (IH (L ∖ {[latestStakedAssertion x]}) Hm'). assert (size L <= 1 + size (L ∖ {[latestStakedAssertion x]}))%nat.
    { rewrite <- (size_singleton (C := gset Hash) (latestStakedAssertion x)), <- size_union by set_solver.
      apply subseteq_size. intros h Hh. destruct (decide (h = latestStakedAssertion x)); set_solver. }
    assert (stake * Z.of_nat (size (L ∖ {[latestStakedAssertion x]})) <= msum amountStaked m); [|nia].
    apply IH. intros h [Hh Hne]%elem_of_difference. destruct (Hin h Hh) as [[E _]|?]; [set_solver|done].
  - assert (stake * Z.of_nat (size L) <= msum amountStaked m); [|lia]. apply IH; [done|].
    intros h Hh. destruct (Hin h Hh) as [[_ ?]|?]; [lia|done].
Qed.

(** The stakes that are locked cover what was promised. *)
Lemma locked_covers r : 0 <= stake -> stakes_inv r -> stake * promised r <= staked r.
Proof.
  intros Hs Hr. pose proof (si_tree _ Hr) as Ht.
  set (L := dom (filter (fun p : Hash * AssertionNode => is_leaf p.2 = true) (assertions r)) ∖ {[latestConfirmed r]} : gset Hash).
  assert (Hsize : leaves r <= 1 + Z.of_nat (size L)).
  { unfold leaves. rewrite (msum_count _ _ (fun p : Hash * AssertionNode => is_leaf p.2 = true)); cycle 1.
    { intros k x _. cbn. by destruct (is_leaf x). }
    rewrite <- size_dom. assert (Hle : (size (dom (filter (fun p : Hash * AssertionNode => is_leaf p.2 = true) (assertions r)) : gset Hash) <= 1 + size L)%nat); [|lia].
    rewrite <- (size_singleton (C := gset Hash) (latestConfirmed r)), <- size_union by set_solver.
    apply subseteq_size. intros h Hh. destruct (decide (h = latestConfirmed r)); set_solver. }
  assert (stake * Z.of_nat (size L) <= staked r); [|nia].
  apply stakes_cover; [done|by apply si_amounts|]. intros h [Hh Hne]%elem_of_difference.
  apply elem_of_dom in Hh as [n [Hn Hl]%map_lookup_filter_Some]. cbn in Hl.
  destruct (si_locked _ Hr _ _ Hn Hl) as (a & s & Ha & _ & He & Hle); [set_solver|]. eauto.
Qed.

(** What the rollup would have to pay out, less the stakes that are lost. *)
Definition liability r : Z := staked r + totalWithdrawableFunds r - stake * promised r.

(** ** Changes of the stakers and of the funds *)

(** A staker that is free to leave. *)
Definition inactive r (a : Address) : Prop := forall s h n, stakerMap r !! a = Some s -> stakerIsStaked s = true ->
  latestStakedAssertion s = h -> assertions r !! h = Some n -> is_leaf n = true -> h = latestConfirmed r.

(** All others keep their stake. *)
Definition keeps r r' : Prop := forall a s, stakerMap r !! a = Some s -> inactive r a \/
  exists s', stakerMap r' !! a = Some s' /\ stakerIsStaked s' = stakerIsStaked s /\
    latestStakedAssertion s' = latestStakedAssertion s /\ amountStaked s <= amountStaked s'.

Lemma rollup_inv_same r r' : assertions r' = assertions r -> latestConfirmed r' = latestConfirmed r -> rollup_inv r -> rollup_inv r'.
Proof. intros E El []. by split; unfold assertion_at; rewrite ?E, ?El. Qed.

Lemma money_inv r r' : stakes_inv r -> quiet r r' -> keeps r r' ->
  (forall a s, stakerMap r' !! a = Some s -> 0 <= amountStaked s) ->
  (forall a x, withdrawableFunds r' !! a = Some x -> 0 <= x) -> funds r' = totalWithdrawableFunds r' ->
  stakes_inv r' /\ promised r' = promised r.
Proof.
  intros Hr (Ea & El & Ep) Hk Hs Hf Ht. split; [|unfold promised; by rewrite Ea].
  split; try done; unfold uniform, leaves, promised; rewrite ?Ea, ?El, ?Ep.
  - by eapply rollup_inv_same, si_rollup.
  - apply (si_uniform _ Hr).
  - apply (si_tree _ Hr).
  - apply (si_latest _ Hr).
  - intros h n Hn Hl Hne. destruct (si_locked _ Hr _ _ Hn Hl Hne) as (a & s & Ha & His & Hla & Hle).
    destruct (Hk _ _ Ha) as [Hin|(s' & Hs' & Ei & E' & Hle')]; [destruct (Hne (Hin _ _ _ Ha His Hla Hn Hl))|].
    exists a, s'. split_and!; [done|congruence|congruence|lia].
Qed.

Lemma keeps_same r r' : stakerMap r' = stakerMap r -> keeps r r'.
Proof. intros E a s Ha. right. exists s. by rewrite E. Qed.

Lemma log_inv e r : stakes_inv r -> stakes_inv (log_event e r).
Proof.
  intros Hr. destruct (money_inv r (log_event e r)) as [Hr' _]; try done; [by apply keeps_same|apply (si_amounts _ Hr)|
    apply (si_funds _ Hr)|apply (si_total _ Hr)].
Qed.

Lemma fund_inv a n r r' : increaseWithdrawableFunds a n r = Ok r' -> 0 <= n -> stakes_inv r ->
  stakes_inv r' /\ quiet r r' /\ stakerMap r' = stakerMap r /\ liability r' = liability r + n.
Proof.
  intros Hi Hn Hr. pose proof (increaseFunds_quiet _ _ _ _ Hi) as Hq. unfold increaseWithdrawableFunds in Hi.
  apply res_bind_ok in Hi as (? & [-> Hb]%checked_inv & Hi). apply res_bind_ok in Hi as (? & [-> Hb']%checked_inv & [= <-]).
  pose proof (si_total _ Hr) as Ht. unfold funds in Ht.
  edestruct (money_inv r) as [Hr' Ep]; [done|exact Hq|by apply keeps_same|apply (si_amounts _ Hr)| | |].
  - cbn. intros b x [[_ <-]|[_ Hx]]%lookup_insert_Some; [lia|]. by eapply (si_funds _ Hr).
  - unfold funds. cbn. rewrite msum_insert. unfold funds_at. destruct (withdrawableFunds r !! a); cbn; lia.
  - split_and!; try done. unfold liability. rewrite Ep. cbn. unfold staked. cbn. lia.
Qed.

(** A staker is replaced. *)
Lemma staker_inv a s r r' : stakes_inv r -> quiet r r' -> stakerMap r' = <[a := s]> (stakerMap r) ->
  withdrawableFunds r' = withdrawableFunds r -> totalWithdrawableFunds r' = totalWithdrawableFunds r ->
  0 <= amountStaked s ->
  inactive r a \/ (stakerIsStaked s = stakerIsStaked (staker_at r a) /\ latestStakedAssertion s = latestStakedAssertion (staker_at r a) /\
    amountStaked (staker_at r a) <= amountStaked s) ->
  stakes_inv r' /\ liability r' = liability r - amountStaked (staker_at r a) + amountStaked s.
Proof.
  intros Hr Hq Em Ef Et Hs Hk. destruct (money_inv r r') as [Hr' Ep]; try done.
  - intros b x Hb. destruct (decide (b = a)) as [->|Hne]; [|right; exists x; by rewrite Em, lookup_insert_ne].
    destruct Hk as [Hk|Hk]; [by left|]. right. exists s. rewrite Em, lookup_insert_eq. unfold staker_at in Hk. by rewrite Hb in Hk.
  - intros b x. rewrite Em. intros [[_ <-]|[_ Hx]]%lookup_insert_Some; [done|]. by eapply (si_amounts _ Hr).
  - rewrite Ef. apply (si_funds _ Hr).
  - unfold funds. rewrite Ef, Et. apply (si_total _ Hr).
  - split; [done|]. unfold liability, staked. rewrite Ep, Et, Em, msum_insert. unfold staker_at.
    destruct (stakerMap r !! a); cbn; lia.
Qed.

Lemma inactive_ok a r : stakes_inv r -> requireInactiveStaker a r = Ok tt -> inactive r a.
Proof.
  intros Hr Hq. unfold requireInactiveStaker in Hq. apply res_bind_ok in Hq as (? & _ & Hq).
  apply res_bind_ok in Hq as (n & [_ ->]%storage_ok & Hq). apply require_ok, orb_true_iff in Hq.
  intros s h m Hs His <- Hm Hl. unfold staker_at in Hq. rewrite Hs in Hq. cbn in Hq. rewrite Z.eqb_eq, Z.ltb_lt in Hq.
  destruct Hq as [Hq|Hq]; [done|]. rewrite (stored_at _ _ _ Hm) in Hq. apply Z.eqb_eq in Hl. lia.
Qed.

Lemma amount_nonneg a r : stakes_inv r -> 0 <= amountStaked (staker_at r a).
Proof. intros Hr. unfold staker_at. destruct (stakerMap r !! a) eqn:E; cbn; [|lia]. by eapply (si_amounts _ Hr). Qed.

Lemma reduce_inv a n r r' : reduceStakeTo a n r = Ok r' -> 0 <= n -> inactive r a -> stakes_inv r ->
  stakes_inv r' /\ liability r' = liability r.
Proof.
  intros Hr Hn Hin Hinv. unfold reduceStakeTo in Hr. apply res_bind_ok in Hr as ([] & Hle & Hr). apply require_ok, Z.leb_le in Hle.
  apply res_bind_ok in Hr as (r1 & Hf & [= <-]).
  destruct (staker_inv a (with_amount n (staker_at r a)) r (put_staker a (with_amount n (staker_at r a)) r)) as [Ha1 E1]; try done; [by left|].
  destruct (fund_inv _ _ _ _ Hf) as (Ha2 & _ & Em & E2); [lia|done|].
  split; [|change (liability r1 = liability r); cbn in E1; lia]. by apply log_inv.
Qed.

Lemma delete_inv a r r' : deleteStaker a r = Ok r' -> inactive r a -> stakes_inv r ->
  stakes_inv r' /\ liability r' = liability r - amountStaked (staker_at r a).
Proof.
  intros Hd Hin Hr. pose proof (deleteStaker_quiet _ _ _ Hd) as Hq. unfold deleteStaker in Hd. apply res_bind_ok in Hd as (? & _ & Hd).
  destruct (list.last (stakerList r)) as [moved|]; [|done]. destruct (negb _); [done|]. injection Hd as <-.
  edestruct (money_inv r) as [Hr' Ep]; [done|exact Hq| | |apply (si_funds _ Hr)|apply (si_total _ Hr)|].
  - intros b s Hb. destruct (decide (b = a)) as [->|Hne]; [by left|]. right. cbn. rewrite lookup_delete_ne by done.
    destruct (decide (moved = b)) as [->|Hm]; [|rewrite lookup_insert_ne by done; by exists s].
    rewrite lookup_insert_eq. eexists. split; [done|]. unfold staker_at. by rewrite Hb.
  - cbn. intros b s [_ Hb]%lookup_delete_Some. apply lookup_insert_Some in Hb as [[_ <-]|[_ Hb]]; [|by eapply (si_amounts _ Hr)].
    by apply amount_nonneg.
  - split; [done|]. unfold liability, staked. rewrite Ep. cbn. rewrite msum_delete, msum_insert. unfold staker_at.
    destruct (decide (moved = a)) as [->|Hm]; [rewrite lookup_insert_eq; destruct (stakerMap r !! a); cbn; lia|].
    rewrite lookup_insert_ne by done. destruct (stakerMap r !! moved), (stakerMap r !! a); cbn; lia.
Qed.

Lemma withdrawStaker_inv a r r' : withdrawStaker a r = Ok r' -> inactive r a -> stakes_inv r ->
  stakes_inv r' /\ liability r' = liability r.
Proof.
  intros Hw Hin Hr. unfold withdrawStaker in Hw. apply res_bind_ok in Hw as (r1 & Hf & Hw). apply res_bind_ok in Hw as (r2 & Hd & [= <-]).
  destruct (fund_inv _ _ _ _ Hf (amount_nonneg a r Hr) Hr) as (Ha1 & (Ea & El & _) & Em & E1).
  destruct (delete_inv _ _ _ Hd) as [Ha2 E2]; [|done|].
  { intros s h n. rewrite Em, Ea, El. apply Hin. }
  unfold staker_at in E2. rewrite Em in E2. fold (staker_at r a) in E2.
  split; [|change (liability r2 = liability r); lia]. by apply log_inv.
Qed.

(** ** New assertions *)

(** What a new assertion is, and what was checked of the configuration of its parent. *)
Lemma create_shape env a p x r h r1 : createNewAssertion env a p x r = Ok (h, r1) ->
  exists next acc, h = assertionHash p (InputsAfterState a) acc /\ p <> 0 /\ h <> 0 /\
  configHash (BeforeConfigData (InputsBeforeStateData a)) = ConfigHash (assertion_at r p) /\ NodeStatus (assertion_at r h) = NodeNone /\
  assertions r1 = <[h := createAssertion (blockNumber env) (FirstChildBlock (assertion_at r p) =? 0) (configHash (config_now r next))]>
    (<[p := childCreated (blockNumber env) (assertion_at r p)]> (assertions r)) /\
  latestConfirmed r1 = latestConfirmed r /\ params r1 = params r /\ stakerMap r1 = stakerMap r /\
  withdrawableFunds r1 = withdrawableFunds r /\ totalWithdrawableFunds r1 = totalWithdrawableFunds r.
Proof.
  unfold createNewAssertion. intros (prev & [Hp ->]%storage_ok & Hr)%res_bind_ok.
  apply res_bind_ok in Hr as ([] & Hcfg & Hr). do 3 apply res_bind_ok in Hr as (? & _ & Hr).
  apply res_bind_ok in Hr as ([next acc] & _ & Hr). apply res_bind_ok in Hr as (? & _ & Hr).
  apply res_bind_ok in Hr as (seen & [Hh ->]%storage_ok & Hr). apply res_bind_ok in Hr as ([] & Hs & [= <- <-]).
  apply require_ok, Z.eqb_eq in Hs. unfold validateConfigHash in Hcfg. apply require_ok, Z.eqb_eq in Hcfg.
  exists next, acc. by split_and!.
Qed.

Lemma required_stake c r p : stakes_inv r -> configHash c = ConfigHash (assertion_at r p) -> CfgRequiredStake c = stake.
Proof.
  intros Hr Hc. destruct (proj2 (si_uniform _ Hr) p _ (config_stored _ _ _ Hc)) as (c' & E & <-).
  rewrite E in Hc. unfold configHash in Hc. apply keccak_inj in Hc. congruence.
Qed.

Section grow.
Context (env : Env) (a : AssertionInputs) (p x h : Hash) (who : Address) (r r1 r2 : Rollup).
Hypothesis Hb : 0 < blockNumber env < two64.
Hypothesis Hr : stakes_inv r.
Hypothesis Hcreate : createNewAssertion env a p x r = Ok (h, r1).
Hypothesis Hstk : stakerIsStaked (staker_at r who) = true.
Hypothesis Hamt : stake <= amountStaked (staker_at r who).
Hypothesis Hlast : latestStakedAssertion (staker_at r who) = p \/
  0 < FirstChildBlock (assertion_at r (latestStakedAssertion (staker_at r who))).
Hypothesis E2 : r2 = put_staker who (with_latest h (staker_at r1 who)) r1.

Lemma staker_here : stakerMap r !! who = Some (staker_at r who).
Proof. unfold staker_at in *. by destruct (stakerMap r !! who). Qed.

Let leaf_p := FirstChildBlock (assertion_at r p) =? 0.

(** The counts after the new assertion. *)
Lemma grow_counts : leaves r2 = leaves r + (if leaf_p then 0 else 1) /\ promised r2 = promised r + (if leaf_p then 0 else 1).
Proof.
  destruct (create_shape _ _ _ _ _ _ _ Hcreate) as (next & acc & Eh & Hp & Hh & Hc & Hn & Ea & El & Epar & Em & Ef & Et).
  apply config_stored in Hc as Hpn. apply (none_missing _ _ (si_rollup _ Hr)) in Hn.
  assert (Hne : p <> h) by congruence. assert (Hpos := inv_blocks _ (si_rollup _ Hr) _ _ Hpn).
  assert (Hlf : is_leaf (childCreated (blockNumber env) (assertion_at r p)) = false).
  { unfold is_leaf. pose proof (child_first (blockNumber env) _ Hb Hpos). destruct (Z.eqb_spec (FirstChildBlock (childCreated (blockNumber env) (assertion_at r p))) 0); lia. }
  subst r2. unfold leaves, promised. cbn. rewrite Ea, !msum_insert, !lookup_insert_ne, Hn, Hpn by done. cbn. rewrite Hlf.
  rewrite (keep_isFirst _ _ (child_later (blockNumber env) (assertion_at r p))). change (is_leaf (assertion_at r p)) with leaf_p. fold leaf_p.
  destruct leaf_p; lia.
Qed.

Lemma grow_inv : stakes_inv r2 /\ liability r2 = liability r - (if leaf_p then 0 else stake) /\ assertions r2 !! h = Some (assertion_at r2 h) /\
  IsFirstChild (assertion_at r2 h) = leaf_p.
Proof.
  destruct grow_counts as [Cl Cp].
  destruct (create_shape _ _ _ _ _ _ _ Hcreate) as (next & acc & Eh & Hp & Hh & Hc & Hn & Ea & El & Epar & Em & Ef & Et).
  pose proof (config_stored _ _ _ Hc) as Hpn. pose proof (none_missing _ _ (si_rollup _ Hr) Hn) as Hn'.
  assert (Es : staker_at r1 who = staker_at r who) by (unfold staker_at; by rewrite Em). rewrite Es in E2.
  assert (Ea2 : assertions r2 = assertions r1) by (by subst r2).
  assert (Em2 : stakerMap r2 = <[who := with_latest h (staker_at r who)]> (stakerMap r)) by (subst r2; cbn; by rewrite Em).
  assert (Hlk : forall i n, assertions r2 !! i = Some n -> is_leaf n = true -> i = h \/ i <> p /\ assertions r !! i = Some n).
  { intros i n. rewrite Ea2, Ea, !lookup_insert_Some. intros [[-> _]|[_ [[-> <-]|[Hi Hx]]]] Hlf; [by left| |auto].
    pose proof (child_first (blockNumber env) _ Hb (inv_blocks _ (si_rollup _ Hr) _ _ Hpn)). apply Z.eqb_eq in Hlf. lia. }
  split_and!.
  - split.
    + eapply (astep_inv true (blockNumber env) r); [done| |apply (si_rollup _ Hr)].
      rewrite Eh in Ea, Hn, Hh. eapply (astep_create _ _ _ _ p (InputsAfterState a) acc _); try done; [|by subst r2]. exists (config_now r next). by rewrite Ea2.
    + destruct (si_uniform _ Hr) as [Eb Hu]. split; [subst r2; cbn; by rewrite Epar|]. intros i n. rewrite Ea2, Ea, !lookup_insert_Some.
      intros [[_ <-]|[_ [[_ <-]|[_ Hi]]]]; [by exists (config_now r next)| |by eapply Hu].
      rewrite (keep_config _ _ (child_later _ _)). by eapply Hu.
    + intros b s. rewrite Em2. intros [[_ <-]|[_ Hx]]%lookup_insert_Some; [cbn; by apply amount_nonneg|]. by eapply (si_amounts _ Hr).
    + subst r2. cbn. rewrite Ef. apply (si_funds _ Hr).
    + subst r2. unfold funds. cbn. rewrite Ef, Et. apply (si_total _ Hr).
    + rewrite Cl, Cp, (si_tree _ Hr). destruct leaf_p; lia.
    + pose proof (si_latest _ Hr) as Hl. subst r2. cbn. rewrite El, Ea. intros [Hx _]%lookup_insert_None. by apply lookup_insert_None in Hx as [Hx _].
    + intros i n Hi Hlf Hne. destruct (Hlk _ _ Hi Hlf) as [->|[Hip Hi0]].
      { exists who, (with_latest h (staker_at r who)). rewrite Em2, lookup_insert_eq. done. }
      assert (El2 : latestConfirmed r2 = latestConfirmed r) by (by subst r2). rewrite El2 in Hne.
      destruct (si_locked _ Hr _ _ Hi0 Hlf Hne) as (b & s & Hb' & His & Hla & Hle). exists b, s. rewrite Em2, lookup_insert_ne; [done|].
      intros <-. rewrite staker_here in Hb'. injection Hb' as <-. apply Z.eqb_eq in Hlf.
      destruct Hlast as [E|Hpos]; [congruence|]. rewrite Hla, (stored_at _ _ _ Hi0) in Hpos. lia.
  - unfold liability, staked. rewrite Cp, Em2, msum_insert, staker_here. cbn. subst r2. cbn. rewrite Et. destruct leaf_p; lia.
  - unfold assertion_at. rewrite Ea2, Ea, lookup_insert_eq. done.
  - unfold assertion_at. by rewrite Ea2, Ea, lookup_insert_eq.
Qed.

End grow.

Lemma stakeOn_inv env a x r r' : 0 <= stake -> 0 < blockNumber env < two64 -> stakeOnNewAssertion env a x r = Ok r' -> stakes_inv r ->
  stakes_inv r' /\ liability r' = liability r.
Proof.
  intros Hst Hb Hs Hr. unfold stakeOnNewAssertion in Hs. do 3 apply res_bind_ok in Hs as (? & _ & Hs).
  apply res_bind_ok in Hs as ([] & Hstk%require_ok & Hs). apply res_bind_ok in Hs as ([] & Hamt & Hs). apply require_ok, Z.leb_le in Hamt.
  do 2 apply res_bind_ok in Hs as (? & _ & Hs). apply res_bind_ok in Hs as ([] & Hlast & Hs). do 2 apply res_bind_ok in Hs as (? & _ & Hs).
  apply res_bind_ok in Hs as ([h r1] & Hc & Hs).
  destruct (create_shape _ _ _ _ _ _ _ Hc) as (_ & _ & _ & _ & Hh & Hcfg & _).
  pose proof (required_stake _ _ _ Hr Hcfg) as Ereq. rewrite Ereq in *.
  assert (Hl : latestStakedAssertion (staker_at r (msgSender env)) = prev_of a \/
    0 < FirstChildBlock (assertion_at r (latestStakedAssertion (staker_at r (msgSender env))))).
  { destruct (Z.eqb_spec (latestStakedAssertion (staker_at r (msgSender env))) (prev_of a)); [by left|]. right.
    apply res_bind_ok in Hlast as (m & [_ ->]%storage_ok & Hlast). by apply require_ok, Z.ltb_lt in Hlast. }
  destruct (grow_inv env a (prev_of a) x h (msgSender env) r r1 _ Hb Hr Hc Hstk Hamt Hl eq_refl) as (Ha2 & EL & Hsto & Ef).
  unfold escrow_loser in Hs. apply res_bind_ok in Hs as (n & [_ ->]%storage_ok & Hs). rewrite Ef in Hs.
  destruct (FirstChildBlock (assertion_at r (prev_of a)) =? 0); cbn [negb] in Hs.
  - injection Hs as <-. split; [done|]. rewrite EL. lia.
  - destruct (fund_inv _ _ _ _ Hs Hst Ha2) as (Ha3 & _ & _ & E3). split; [done|]. rewrite E3, EL. lia.
Qed.

(** A confirmation after the latest confirmed assertion. *)
Lemma confirm_stakes p st acc r r' (h := assertionHash p st acc) : stakes_inv r -> confirmAssertionInternal h p st acc r = Ok r' ->
  p = latestConfirmed r -> stakes_inv r' /\ liability r' = liability r.
Proof.
  intros Hr Hc Hp. destruct (confirm_astep _ _ _ _ _ _ true 1 Hc (fun _ => Hp)) as (Hs & Epar & _ & Hpend & _).
  assert (Hinv : rollup_inv r') by (eapply astep_inv; [|exact Hs|apply (si_rollup _ Hr)]; done). clear Hs.
  assert (Hst : assertions r !! h = Some (assertion_at r h)) by (apply status_stored; by rewrite Hpend).
  unfold confirmAssertionInternal in Hc. apply res_bind_ok in Hc as (? & [_ ->]%storage_ok & Hc). do 2 apply res_bind_ok in Hc as (? & _ & Hc).
  destruct (Bytes32Vals (SolGlobal st)) as [bh sr]. injection Hc as <-.
  assert (Hlk : forall i n, (<[h := with_status NodeConfirmed (assertion_at r h)]> (assertions r)) !! i = Some n ->
    exists n0, assertions r !! i = Some n0 /\ is_leaf n = is_leaf n0 /\ ConfigHash n = ConfigHash n0).
  { intros i n. rewrite lookup_insert_Some. intros [[<- <-]|[_ Hi]]; [by exists (assertion_at r h)|by exists n]. }
  split; [split; [done|..]|].
  - destruct (si_uniform _ Hr) as [Eb Hu]. split; [done|]. cbn. intros i n (n0 & Hn & _ & ->)%Hlk. by eapply Hu.
  - apply (si_amounts _ Hr).
  - apply (si_funds _ Hr).
  - apply (si_total _ Hr).
  - pose proof (si_tree _ Hr) as Ht. unfold leaves, promised in *. cbn. rewrite !msum_insert, Hst. cbn.
    unfold is_leaf in *. cbn. lia.
  - cbn. by rewrite lookup_insert_eq.
  - cbn. intros i n (n0 & Hn & El & _)%Hlk Hlf Hne. rewrite El in Hlf. apply (si_locked _ Hr _ _ Hn Hlf). intros Ei. subst i.
    destruct (inv_parent _ (si_rollup _ Hr) h p _ Hst) as (m & Hm & Hpos); [by exists st, acc| |].
    { intros Ep. rewrite Ep in Hp. rewrite <- Hp, (inv_zero _ (si_rollup _ Hr)) in Hn. done. }
    rewrite Hp, Hn in Hm. injection Hm as <-. apply Z.eqb_eq in Hlf. lia.
  - unfold liability, staked, promised. cbn. rewrite msum_insert, Hst. cbn. lia.
Qed.

Lemma newStake_inv env n r r' : newStake env n r = Ok r' -> 0 <= n -> stakes_inv r -> stakes_inv r' /\ liability r' <= liability r + n.
Proof.
  intros Hs Hn Hr. unfold newStake in Hs. do 2 apply res_bind_ok in Hs as (? & _ & Hs). apply res_bind_ok in Hs as ([] & Hns & [= <-]).
  apply require_ok, negb_true_iff in Hns. unfold isStaked in Hns. pose proof (amount_nonneg (msgSender env) r Hr).
  edestruct (staker_inv (msgSender env) {| amountStaked := n; latestStakedAssertion := latestConfirmed r;
    stakerIndex := u64 (len (stakerList r)); stakerIsStaked := true |} r (createNewStake (msgSender env) n r)) as [Hr' El];
    [done|done|done|done|done|done| |].
  - left. intros s h m Hs His. unfold staker_at in Hns. rewrite Hs in Hns. cbn in Hns. congruence.
  - split; [done|]. cbn in El. lia.
Qed.

Lemma addToDeposit_inv env a n r r' : addToDeposit env a n r = Ok r' -> 0 <= n -> stakes_inv r -> stakes_inv r' /\ liability r' = liability r + n.
Proof.
  intros Hs Hn Hr. unfold addToDeposit in Hs. do 3 apply res_bind_ok in Hs as (? & _ & Hs). unfold increaseStakeBy in Hs.
  apply res_bind_ok in Hs as (f & [-> Hf]%checked_inv & [= <-]).
  edestruct (staker_inv a (with_amount (amountStaked (staker_at r a) + n) (staker_at r a)) r) as [Hr' El]; [done| | | | | | |split; [exact Hr'|rewrite El; cbn; lia]];
    try done; [cbn; lia|]. right. cbn. split_and!; [done|done|lia].
Qed.

Lemma withdrawFunds_inv a n r r' : withdrawFunds a r = Ok (n, r') -> stakes_inv r -> stakes_inv r' /\ liability r' = liability r - n /\ n = funds_at r a.
Proof.
  intros Hs Hr. unfold withdrawFunds in Hs. apply res_bind_ok in Hs as (t & [-> Ht]%checked_inv & [= <- <-]).
  pose proof (si_total _ Hr) as Et. unfold funds in Et.
  set (r' := log_event _ _). destruct (money_inv r r') as [Hr' Ep];
    [done|done|by apply keeps_same|apply (si_amounts _ Hr)| | |split; [exact Hr'|]].
  - cbn. intros b x [[_ <-]|[_ Hx]]%lookup_insert_Some; [lia|]. by eapply (si_funds _ Hr).
  - unfold funds. cbn. rewrite msum_insert. unfold funds_at. destruct (withdrawableFunds r !! a); cbn; lia.
  - split; [|done]. unfold liability. rewrite Ep. cbn. unfold staked. cbn. lia.
Qed.

Lemma refund_inv l : forall r r', refund_loop l r = Ok r' -> stakes_inv r -> stakes_inv r' /\ liability r' = liability r.
Proof.
  induction l as [|a l IH]; intros r r' Hl Hr; cbn [refund_loop] in Hl; [by injection Hl as <-|].
  apply res_bind_ok in Hl as ([] & Hi & Hl). apply res_bind_ok in Hl as (r1 & Ha1 & Hl).
  destruct (reduce_inv _ _ _ _ Ha1) as [Hr1 E1]; [lia|by apply inactive_ok|done|]. destruct (IH _ _ Hl Hr1) as [Hr2 E2]. split; [done|lia].
Qed.

Lemma params_inv p r : stakes_inv r -> baseStake p = baseStake (params r) -> stakes_inv (put_params p r).
Proof.
  intros Hr Eb. pose proof Hr as [Hi [Eu ?] ? ? ? ? ? ?]. split; try done; [by apply (rollup_inv_same r)|].
  split; [cbn; congruence|done].
Qed.

End stakes.

(** ** Transactions *)

(** The token of the stakes, as the rollup at [this] sees it. *)
Class RollupTokenLaws {T : Type} `{RollupToken T} (this : Address) (balance : T -> Z) : Prop := {
  balance_range t : 0 <= balance t < 2 ^ 256;
  receive_balance t t' a n : a <> this -> receiveTokens t a n = Ok t' -> balance t + n <= balance t';
  send_balance t t' a n : sendTokens t a n = Ok t' -> balance t - n <= balance t';
  send_succeeds t a n : 0 <= n <= balance t -> exists t', sendTokens t a n = Ok t';
}.

(** Amounts are unsigned; the fast confirmer, and the owner's power to change the stake or to create and confirm
    assertions, are left out. *)
Definition paid_user (call : UserCall) : bool :=
  fair_user call && match call with
  | NewStakeOnNewAssertion n _ _ | ReduceDeposit n | AddToDeposit _ n => 0 <=? n
  | _ => true
  end.
Definition paid_admin (call : AdminCall) : bool :=
  match call with SetBaseStake _ | ForceCreateAssertion _ _ _ | ForceConfirmAssertion _ _ _ _ => false | _ => true end.

Section paid.
Context `{Hasher} `{!HasherNonzero} `{!HasherInjective} {T : Type} `{RollupToken T} (this : Address) (balance : T -> Z).
Context `{!RollupTokenLaws this balance} (stake : Z).
Hypothesis Hstake : 0 <= stake.
Implicit Types x y : Rollup * T.

Inductive paid_tx x y : Prop :=
| paid_by_user env getEdge call : 0 < blockNumber env < two64 -> msgSender env <> this -> paid_user call = true ->
    run_user env getEdge call x.1 x.2 = Ok y -> paid_tx x y
| paid_by_admin env admin call : paid_admin call = true -> run_admin env admin call x.1 = Ok y.1 -> y.2 = x.2 -> paid_tx x y
| paid_elsewhere : y.1 = x.1 -> balance x.2 <= balance y.2 -> paid_tx x y.

(** The rollup holds what it would have to pay. *)
Definition solvent x : Prop := stakes_inv stake x.1 /\ liability stake x.1 <= balance x.2.

Lemma solvent_user env getEdge call x y : 0 < blockNumber env < two64 -> msgSender env <> this -> paid_user call = true ->
  run_user env getEdge call x.1 x.2 = Ok y -> solvent x -> solvent y.
Proof.
  destruct x as [r t], y as [r' t']. intros Hb Hme Hp Hr [Hinv Hl]. unfold solvent. cbn [fst snd] in *.
  assert (Hq : forall q, (stakes_inv stake q /\ liability stake q = liability stake r) -> stakes_inv stake q /\ liability stake q <= balance t).
  { intros q [Hq ->]. done. }
  apply andb_true_iff in Hp as [Hf Hp]. destruct call; try done; cbn [run_user] in Hr; apply res_bind_ok in Hr as (q & Hr & Hx).
  - injection Hx as <- <-. apply Hq. unfold confirmAssertion in Hr. do 7 apply res_bind_ok in Hr as (? & _ & Hr).
    apply res_bind_ok in Hr as ([] & Hla & Hr). apply require_ok, Z.eqb_eq in Hla. apply res_bind_ok in Hr as (? & _ & Hr).
    destruct (confirm_astep _ _ _ _ _ _ false 1 Hr) as (_ & _ & -> & _); [done|]. by eapply confirm_stakes.
  - injection Hx as <- <-. apply Hq. by eapply stakeOn_inv.
  - apply res_bind_ok in Hx as (t1 & Ht & [= <- <-]). apply Z.leb_le in Hp. unfold newStakeOnNewAssertion in Hr.
    apply res_bind_ok in Hr as (r1 & Ha1 & Hr). destruct (newStake_inv _ _ _ _ _ Ha1 Hp Hinv) as [Hr1 L1].
    destruct (stakeOn_inv _ _ _ _ _ _ Hstake Hb Hr Hr1) as [Hr2 L2]. apply receive_balance in Ht; [|done]. split; [done|lia].
  - injection Hx as <- <-. apply Hq. unfold returnOldDeposit in Hr. do 2 apply res_bind_ok in Hr as (? & _ & Hr).
    apply res_bind_ok in Hr as ([] & Hi & Hr). eapply withdrawStaker_inv; [done|by eapply inactive_ok|done].
  - injection Hx as <- <-. apply Hq. unfold reduceDeposit in Hr. do 2 apply res_bind_ok in Hr as (? & _ & Hr).
    apply res_bind_ok in Hr as ([] & Hi & Hr). apply Z.leb_le in Hp. eapply reduce_inv; [done|done|by eapply inactive_ok|done].
  - apply res_bind_ok in Hx as (t1 & Ht & [= <- <-]). apply Z.leb_le in Hp.
    destruct (addToDeposit_inv _ _ _ _ _ _ Hr Hp Hinv) as [Hr1 L1]. apply receive_balance in Ht; [|done]. split; [done|lia].
  - destruct q as [n q]. apply res_bind_ok in Hx as (t1 & Ht & [= <- <-]). unfold withdrawStakerFunds in Hr.
    apply res_bind_ok in Hr as (? & _ & Hr). apply res_bind_ok in Hr as ([m q1] & Hw & Hr). apply res_bind_ok in Hr as (? & _ & [= <- <-]).
    destruct (withdrawFunds_inv _ _ _ _ _ Hw Hinv) as (Hr1 & L1 & _). apply send_balance in Ht. split; [done|lia].
  - injection Hx as <- <-. unfold removeWhitelistAfterFork in Hr. do 2 apply res_bind_ok in Hr as (? & _ & Hr). injection Hr as <-.
    apply Hq. split; [by apply params_inv|done].
  - injection Hx as <- <-. unfold removeWhitelistAfterValidatorAfk in Hr. do 3 apply res_bind_ok in Hr as (? & _ & Hr). injection Hr as <-.
    apply Hq. split; [by apply params_inv|done].
Qed.

Lemma solvent_admin env admin call r r' : paid_admin call = true -> run_admin env admin call r = Ok r' -> stakes_inv stake r ->
  stakes_inv stake r' /\ liability stake r' = liability stake r.
Proof.
  intros Hp Hr Hinv.
  assert (Hset : forall n p, baseStake p = baseStake (params r) -> stakes_inv stake (owner_call n p r) /\ liability stake (owner_call n p r) = liability stake r).
  { intros n p Eb. split; [|done]. by apply log_inv, params_inv. }
  destruct call; try done; cbn [run_admin] in Hr; try (injection Hr as <-; by apply Hset).
  - unfold pause in Hr. apply res_bind_ok in Hr as (? & _ & [= <-]). by apply Hset.
  - unfold resume in Hr. apply res_bind_ok in Hr as (? & _ & [= <-]). by apply Hset.
  - unfold setValidator in Hr. do 2 apply res_bind_ok in Hr as (? & _ & Hr). injection Hr as <-. by apply Hset.
  - unfold setConfirmPeriodBlocks in Hr. apply res_bind_ok in Hr as (? & _ & [= <-]). by apply Hset.
  - unfold forceRefundStaker in Hr. do 2 apply res_bind_ok in Hr as (? & _ & Hr). apply res_bind_ok in Hr as (r1 & Hl & [= <-]).
    destruct (refund_inv _ _ _ _ Hl Hinv) as [Hr1 E1]. split; [by apply log_inv|done].
  - unfold setLoserStakeEscrow in Hr. apply res_bind_ok in Hr as (? & _ & [= <-]). by apply Hset.
Qed.

Lemma solvent_tx x y : paid_tx x y -> solvent x -> solvent y.
Proof.
  intros [env getEdge call Hb Hme Hp Hr|env admin call Hp Hr Et|Er Hb] Hs.
  - by eapply solvent_user.
  - destruct Hs as [Hi Hl]. destruct (solvent_admin _ _ _ _ _ Hp Hr Hi) as [Hi' El]. split; [done|]. rewrite El, Et. lia.
  - destruct Hs as [Hi Hl]. unfold solvent. rewrite Er. split; [done|lia].
Qed.

Lemma start_stakes r : rollup_start r -> baseStake (params r) = stake -> stakes_inv stake r /\ liability stake r = 0.
Proof.
  intros Hs Eb. pose proof (start_inv _ Hs) as Hi. destruct Hs as (env & admin & owner & cid & p & g & count & Hb & Hr). unfold initialize in Hr.
  apply res_bind_ok in Hr as (? & _ & Hr). apply res_bind_ok in Hr as (? & _ & Hr). apply res_bind_ok in Hr as (k & _ & [= <-]).
  split; [split; [done|..]|].
  - split; [done|]. cbn. intros h n. rewrite lookup_insert_Some, lookup_empty. intros [[_ <-]|[_ ?]]; [|done]. eexists. split; [done|]. exact Eb.
  - done.
  - done.
  - done.
  - unfold leaves, promised. cbn. rewrite !msum_new, !msum_empty by done. done.
  - cbn. by rewrite lookup_insert_eq.
  - cbn. intros h n. rewrite lookup_insert_Some, lookup_empty. naive_solver.
  - unfold liability, staked, promised. cbn. rewrite msum_new, !msum_empty by done. cbn. lia.
Qed.

(** (C7) The rollup can pay what it owes: with a token that follows the standard and while the owner keeps the
    amount of the stake and nobody uses the powers to create and confirm assertions without a
    stake, after any sequence of transactions the rollup holds at least the sum of the funds that the stakers and the escrow can
    withdraw, and everybody who has such funds can withdraw all of them while the rollup is not paused. *)
Theorem rollup_pays (x y : Rollup * T) : rollup_start x.1 -> baseStake (params x.1) = stake -> rtc paid_tx x y ->
  totalWithdrawableFunds y.1 = funds y.1 /\ totalWithdrawableFunds y.1 <= balance y.2 /\
  forall env getEdge, whenNotPaused y.1 = Ok tt -> 0 < funds_at y.1 (msgSender env) ->
    exists r t, run_user env getEdge WithdrawStakerFunds y.1 y.2 = Ok (r, t) /\ funds_at r (msgSender env) = 0 /\
      sendTokens y.2 (msgSender env) (funds_at y.1 (msgSender env)) = Ok t.
Proof.
  intros Hx Eb Hxy. destruct (start_stakes _ Hx Eb) as [Hi Hl]. assert (Hsx : solvent x).
  { split; [done|]. pose proof (balance_range x.2). lia. }
  clear Hx Eb Hi Hl. assert (Hsy : solvent y). { induction Hxy; [done|]. apply IHHxy. by eapply solvent_tx. }
  destruct Hsy as [Hi Hl]. pose proof (locked_covers _ _ Hstake Hi) as Hc. unfold liability in Hl. pose proof (si_total _ _ Hi) as Et.
  assert (Hle : totalWithdrawableFunds y.1 <= balance y.2) by lia. split_and!; [done|done|]. intros env getEdge Hnp Hf.
  assert (Hpart : funds_at y.1 (msgSender env) <= totalWithdrawableFunds y.1).
  { rewrite <- Et. unfold funds_at in *. destruct (withdrawableFunds y.1 !! msgSender env) as [n|] eqn:En; [|done].
    apply (msum_part (fun z => z) _ (msgSender env)); [apply (si_funds _ _ Hi)|done]. }
  destruct (send_succeeds y.2 (msgSender env) (funds_at y.1 (msgSender env))) as [t Ht]; [lia|].
  pose proof (balance_range y.2). cbn [run_user]. unfold withdrawStakerFunds, withdrawFunds. rewrite Hnp. cbn [mbind res_bind].
  rewrite checked_ok by lia. cbn [mbind res_bind]. rewrite (proj2 (Z.ltb_lt _ _) Hf). cbn [require mbind res_bind]. rewrite Ht. cbn [mbind res_bind].
  do 2 eexists. split_and!; [done| |done]. unfold funds_at. cbn. by rewrite lookup_insert_eq.
Qed.

End paid.
