(* ===== verification/Machine.v ===== *)
(** * The simple machine

    [testing/mocks/state-provider/execution_engine.go], the machine that the end-to-end
    tests run challenges about, and [SimpleOneStepProofEntry], the contract that proves its
    steps.  A block ends when the first byte of the hash of the machine is zero or when
    a batch is read, and the machine stops there. *)

From S2P Require Import Prelude Bits PrefixProofs Protocol Contracts MerkleContract EdgeContract.

(** [steps] is the number of steps since the start of the block; no limit on the batches
    is the [nil] integer. *)
Record SimpleMachine := {
  step : Z;
  state : ExecutionState;
  maxBatchesRead : option Z;
}.

Definition NewSimpleMachine (startingState : ExecutionState) (maxBatches : option Z) : SimpleMachine :=
  {| step := 0; state := startingState; maxBatchesRead := maxBatches |}.

Definition stepsPerBatch : Z := 2000.

(** The first byte of a 32-byte word. *)
Definition first_byte (h : Hash) : Z := Z.land (Z.shiftr h 248) 255.

(** [binary.BigEndian.Uint64]. *)
Definition u64FromBe (bytes : list Z) : Z := fold_left (fun x b => 256 * x + b) bytes 0.

Section machine.
Context `{Hasher}.
Implicit Types m : SimpleMachine.

Definition CurrentStepNum m : Z := step m.
Definition GetExecutionState m : ExecutionState := state m.

(** [SimpleMachine.Hash]. *)
Definition MachineHash m : Hash := GlobalHash (GlobalState (GetExecutionState m)).

(** Batches are left to read. *)
Definition batches_left m : bool :=
  match maxBatchesRead m with None => true | Some n => Batch (GlobalState (state m)) <? n end.

Definition IsStopped m : bool :=
  if (step m =? 0) && (MachineStatus (state m) =? MachineStatusFinished) && batches_left m then false
  else negb (MachineStatus (state m) =? MachineStatusRunning).

Definition with_step (n : Z) m : SimpleMachine :=
  {| step := n; state := state m; maxBatchesRead := maxBatchesRead m |}.
Definition with_state (s : ExecutionState) m : SimpleMachine :=
  {| step := step m; state := s; maxBatchesRead := maxBatchesRead m |}.

(** The body of the loop of [Step] for a machine that is not stopped. *)
Definition step_once m : SimpleMachine :=
  let gs := GlobalState (state m) in
  let pos := u64 (PosInBatch gs + 1) in
  let s :=
    if pos mod stepsPerBatch =? 0 then
      {| GlobalState := {| BlockHash := BlockHash gs; SendRoot := SendRoot gs; Batch := u64 (Batch gs + 1); PosInBatch := 0 |};
         MachineStatus := MachineStatusFinished |}
    else
      {| GlobalState := {| BlockHash := BlockHash gs; SendRoot := SendRoot gs; Batch := Batch gs; PosInBatch := pos |};
         MachineStatus := MachineStatusRunning |} in
  let s := if first_byte (GlobalHash (GlobalState s)) =? 0
           then {| GlobalState := GlobalState s; MachineStatus := MachineStatusFinished |} else s in
  with_state s (with_step (u64 (step m + 1)) m).

Fixpoint step_loop (steps : nat) m : SimpleMachine :=
  match steps with
  | O => m
  | S steps' => if IsStopped m then with_step (u64 (step m + Z.of_nat steps)) m else step_loop steps' (step_once m)
  end.

(** [SimpleMachine.Step]; its error is always [nil]. *)
Definition Step (steps : Z) m : SimpleMachine := step_loop (Z.to_nat steps) m.

Definition MachineOneStepProof m : list Z :=
  u64ToBe (Batch (GlobalState (state m))) ++ u64ToBe (PosInBatch (GlobalState (state m))).

Definition VerifySimpleMachineOneStepProof (beforeStateRoot claimedAfterStateRoot : Hash) (n : Z)
    (maxBatches : option Z) (proof : list Z) : bool :=
  if negb (len proof =? 16) then false
  else
    let gs := {| BlockHash := zero_hash; SendRoot := zero_hash;
                 Batch := u64FromBe (take 8 proof); PosInBatch := u64FromBe (drop 8 proof) |} in
    let mach := with_step n (NewSimpleMachine {| GlobalState := gs; MachineStatus := MachineStatusRunning |} maxBatches) in
    let mach := if (n =? 0) || (first_byte (MachineHash mach) =? 0)
                then with_state {| GlobalState := gs; MachineStatus := MachineStatusFinished |} mach else mach in
    if negb (MachineHash mach =? beforeStateRoot) then false
    else MachineHash (Step 1 mach) =? claimedAfterStateRoot.

(** ** The one step proof contract *)

(** [Deserialize.u64]: reading past the end panics. *)
Definition deserialize_u64 (proof : list Z) (offset : Z) : res (Z * Z) :=
  if len proof <? offset + 8 then revert "Panic(0x32)"
  else Ok (u64FromBe (take 8 (drop (Z.to_nat offset) proof)), offset + 8).

(** [SimpleOneStepProofEntry.proveOneStep]; the additions are checked [uint64]. *)
Definition simple_proveOneStep (execCtx : ExecutionContext) (n : Z) (beforeHash : Hash) (proof : list Z) : res Hash :=
  if len proof =? 0 then revert "EMPTY_PROOF"
  else
    '(batch, offset) ← deserialize_u64 proof 0;
    '(pos, _) ← deserialize_u64 proof offset;
    if (0 <? n) && ((first_byte beforeHash =? 0) || (pos =? 0)) then Ok beforeHash
    else if MaxInboxMessagesRead execCtx <=? batch then Ok beforeHash
    else
      let gs b p := {| BlockHash := zero_hash; SendRoot := zero_hash; Batch := b; PosInBatch := p |} in
      if negb (GlobalHash (gs batch pos) =? beforeHash) then revert "BAD_PROOF"
      else
        pos' ← checked 64 (pos + 1);
        if pos' mod stepsPerBatch =? 0 then
          batch' ← checked 64 (batch + 1);
          Ok (GlobalHash (gs batch' 0))
        else Ok (GlobalHash (gs batch pos')).

(** [SimpleOneStepProofEntry.getMachineHash]. *)
Definition simple_getMachineHash (execState : SolExecutionState) : res Hash :=
  if negb (SolMachineStatus execState =? MachineStatusFinished) then revert "BAD_MACHINE_STATUS"
  else Ok (GlobalHash (GoGlobalStateFromSolidity (SolGlobal execState))).

Definition SimpleOneStepProofEntry : IOneStepProofEntry := {|
  getMachineHash := simple_getMachineHash;
  proveOneStep := simple_proveOneStep;
|}.

End machine.

(** ** Runs of a machine *)

Lemma u64FromBe_ToBe x : is_u64 x -> u64FromBe (u64ToBe x) = x.
Proof.
  intros Hx. unfold u64ToBe, u64FromBe, is_u64, two64 in *. cbn [fmap list_fmap fold_left].
  change 255 with (Z.ones 8). rewrite !Z.land_ones, !Z.shiftr_div_pow2 by lia.
  change (2 ^ (8 * 7)) with 72057594037927936. change (2 ^ (8 * 6)) with 281474976710656.
  change (2 ^ (8 * 5)) with 1099511627776. change (2 ^ (8 * 4)) with 4294967296. change (2 ^ (8 * 3)) with 16777216.
  change (2 ^ (8 * 2)) with 65536. change (2 ^ (8 * 1)) with 256. change (2 ^ (8 * 0)) with 1. change (2 ^ 8) with 256.
  Z.div_mod_to_equations. lia.
Qed.

Lemma length_u64ToBe x : length (u64ToBe x) = 8%nat.
Proof. done. Qed.

Section runs.
Context `{Hasher}.
Implicit Types m : SimpleMachine.

(** What the machine of a block keeps: it runs in the middle of a batch, or it has
    finished; after the start of the block it has then stopped at the end of a batch,
    at a hash that ends the block, or because it has read all batches. *)
Record machine_ok m : Prop := {
  ok_steps : 0 <= step m;
  ok_words : BlockHash (GlobalState (state m)) = zero_hash /\ SendRoot (GlobalState (state m)) = zero_hash;
  ok_batch : is_u64 (Batch (GlobalState (state m)));
  ok_pos : 0 <= PosInBatch (GlobalState (state m)) < stepsPerBatch;
  ok_limit : exists n, maxBatchesRead m = Some n /\ is_u64 n;
  ok_status : MachineStatus (state m) = MachineStatusFinished \/ MachineStatus (state m) = MachineStatusRunning;
  ok_running : MachineStatus (state m) = MachineStatusRunning ->
    PosInBatch (GlobalState (state m)) <> 0 /\ first_byte (MachineHash m) <> 0 /\ batches_left m = true;
  ok_stopped : 0 < step m -> MachineStatus (state m) = MachineStatusFinished ->
    PosInBatch (GlobalState (state m)) = 0 \/ first_byte (MachineHash m) = 0 \/ batches_left m = false;
}.

(** The states a block of a backend with [n] batches can start in: the machine has
    finished the block before, or has run out of opcodes in the middle of a batch. *)
Definition start_ok (n : Z) (s : ExecutionState) : Prop :=
  BlockHash (GlobalState s) = zero_hash /\ SendRoot (GlobalState s) = zero_hash /\ is_u64 (Batch (GlobalState s)) /\
  0 <= PosInBatch (GlobalState s) < stepsPerBatch /\
  (MachineStatus s = MachineStatusFinished \/
   MachineStatus s = MachineStatusRunning /\ PosInBatch (GlobalState s) <> 0 /\
     first_byte (GlobalHash (GlobalState s)) <> 0 /\ Batch (GlobalState s) < n).

Lemma new_machine_ok s n : start_ok n s -> is_u64 n -> machine_ok (NewSimpleMachine s (Some n)).
Proof.
  intros (H1 & H2 & H3 & H4 & H5) Hn. split; cbn; try done; [by eauto|by destruct H5 as [?|(? & _)]; [left|right]|].
  intros E. destruct H5 as [E'|(_ & ? & ? & Hlt)]; [by rewrite E' in E|]. split_and!; [done..|]. by apply Z.ltb_lt.
Qed.

(** The inbox limit of the contract and that of the machine agree on whether the batch of
    the machine may be read. *)
Definition limit_agrees m (ctx : ExecutionContext) : Prop :=
  (Batch (GlobalState (state m)) <? MaxInboxMessagesRead ctx) = batches_left m.

Lemma same_limit m ctx : maxBatchesRead m = Some (MaxInboxMessagesRead ctx) -> limit_agrees m ctx.
Proof. unfold limit_agrees, batches_left. by intros ->. Qed.

Lemma running_left m : machine_ok m -> IsStopped m = false -> batches_left m = true.
Proof.
  intros Hm. unfold IsStopped. destruct (batches_left m) eqn:E; [done|]. rewrite andb_false_r.
  rewrite negb_false_iff. intros Hr%Z.eqb_eq. destruct (ok_running _ Hm Hr) as (_ & _ & ?). congruence.
Qed.

Lemma step_once_ok m : machine_ok m -> IsStopped m = false -> step m + 1 < two64 ->
  machine_ok (step_once m) /\ step (step_once m) = step m + 1.
Proof.
  intros Hm Hs Hlt. pose proof (running_left m Hm Hs) as Hleft. destruct Hm as [H1 [H2 H2'] H3 H4 (n & Hn & Hnu) _ _ _].
  unfold batches_left in Hleft. rewrite Hn in Hleft. apply Z.ltb_lt in Hleft. unfold is_u64, stepsPerBatch in *.
  unfold step_once, stepsPerBatch. rewrite (u64_small (step m + 1)) by lia. rewrite (u64_small (_ + 1)) by (unfold two64; lia).
  split; [|done]. set (gs := GlobalState (state m)) in *.
  destruct (Z.eqb_spec ((PosInBatch gs + 1) mod 2000) 0) as [E|E].
  - rewrite (u64_small (Batch gs + 1)) by lia. cbn [GlobalState].
    destruct (first_byte (GlobalHash _) =? 0) eqn:Ef; split; cbn; try done; unfold is_u64, stepsPerBatch; try lia; eauto.
  - assert (PosInBatch gs + 1 < 2000).
    { destruct (Z.eq_dec (PosInBatch gs + 1) 2000) as [E'|]; [by rewrite E' in E|lia]. } cbn [GlobalState].
    destruct (Z.eqb_spec (first_byte (GlobalHash {| BlockHash := BlockHash gs; SendRoot := SendRoot gs; Batch := Batch gs;
      PosInBatch := PosInBatch gs + 1 |})) 0) as [Ef|Ef]; split; cbn; try done; unfold is_u64, stepsPerBatch; try lia; eauto.
    intros _. split_and!; [lia|done|]. unfold batches_left. cbn. rewrite Hn. apply Z.ltb_lt. fold gs. lia.
Qed.

Lemma stopped_not_running m : IsStopped m = true -> MachineStatus (state m) <> MachineStatusRunning.
Proof. intros Hs Hr. unfold IsStopped in Hs. rewrite Hr in Hs. cbn in Hs. by rewrite andb_false_r in Hs. Qed.

(** A machine that has stopped at the start of a block has read all batches. *)
Lemma stopped_at_start m : step m = 0 -> MachineStatus (state m) = MachineStatusFinished -> IsStopped m = true ->
  batches_left m = false.
Proof. intros E Ef Hs. unfold IsStopped in Hs. rewrite E, Ef in Hs. cbn in Hs. by destruct (batches_left m). Qed.

(** A machine that has stopped stays where it is. *)
Lemma stopped_later m n : IsStopped m = true -> 0 <= step m -> 0 < n -> step m + n < two64 ->
  IsStopped (with_step (u64 (step m + n)) m) = true.
Proof.
  intros Hs%stopped_not_running H0 Hn Hlt. rewrite u64_small by lia. unfold IsStopped. cbn.
  destruct (Z.eqb_spec (step m + n) 0); [lia|]. cbn. by apply negb_true_iff, Z.eqb_neq.
Qed.

Lemma stopped_ok m n : machine_ok m -> IsStopped m = true -> 0 < n -> step m + n < two64 ->
  machine_ok (with_step (u64 (step m + n)) m).
Proof.
  intros Hm Hs Hn Hlt. pose proof (ok_steps _ Hm). rewrite u64_small by lia.
  destruct Hm as [H1 H2 H3 H4 H5 H6 H7 H8]. split; cbn; try done; [lia|]. intros _ Hf.
  destruct (Z.eq_dec (step m) 0) as [E|E]; [|apply H8; [lia|done]]. right. right. exact (stopped_at_start m E Hf Hs).
Qed.

(** The machine of the next block starts where that of the last block is. *)
Lemma restart_ok m : machine_ok m -> machine_ok (with_step 0 m).
Proof. intros []. by split. Qed.

Lemma step_loop_ok n : forall m, machine_ok m -> step m + Z.of_nat n < two64 ->
  machine_ok (step_loop n m) /\ step (step_loop n m) = step m + Z.of_nat n.
Proof.
  induction n as [|n IH]; intros m Hm Hlt; [cbn; split; [done|lia]|]. cbn [step_loop].
  destruct (IsStopped m) eqn:Hs.
  - split; [by apply stopped_ok; [..|lia|]|].
    cbn [with_step step]. pose proof (ok_steps _ Hm). apply u64_small. lia.
  - destruct (step_once_ok m Hm Hs ltac:(lia)) as [H1 E]. destruct (IH (step_once m) H1 ltac:(lia)) as [H2 E2].
    split; [done|lia].
Qed.

(** Stepping in two goes is stepping in one. *)
Lemma step_loop_add a b : forall m, 0 <= step m -> step m + Z.of_nat (a + b) < two64 ->
  step_loop (a + b) m = step_loop b (step_loop a m).
Proof.
  induction a as [|a IH]; intros m Hm Hlt; [done|]. cbn [Nat.add step_loop]. destruct (IsStopped m) eqn:Hs.
  - destruct b as [|b]; [by rewrite Nat.add_0_r|].
    pose proof (stopped_later m (Z.of_nat (S a)) Hs Hm ltac:(lia) ltac:(lia)) as Hst. cbn [step_loop]. rewrite Hst.
    unfold with_step. cbn [step state maxBatchesRead]. f_equal.
    rewrite (u64_small (step m + Z.of_nat (S a))) by lia. f_equal. lia.
  - apply IH; change (step (step_once m)) with (u64 (step m + 1)); rewrite u64_small by lia; lia.
Qed.

Lemma Step_add m a b : 0 <= step m -> 0 <= a -> 0 <= b -> step m + a + b < two64 -> Step (a + b) m = Step b (Step a m).
Proof.
  intros Hm Ha Hb Hlt. unfold Step. rewrite Z2Nat.inj_add by lia. apply step_loop_add; [done|lia].
Qed.

Lemma Step_ok m n : machine_ok m -> 0 <= n -> step m + n < two64 ->
  machine_ok (Step n m) /\ step (Step n m) = step m + n.
Proof. intros Hm Hn Hlt. destruct (step_loop_ok (Z.to_nat n) m Hm ltac:(lia)) as [H1 H2]. split; [done|]. unfold Step. lia. Qed.

(** ** Proofs of a step *)

Lemma proof_parts m : machine_ok m ->
  len (MachineOneStepProof m) = 16 /\
  u64FromBe (take 8 (MachineOneStepProof m)) = Batch (GlobalState (state m)) /\
  u64FromBe (drop 8 (MachineOneStepProof m)) = PosInBatch (GlobalState (state m)).
Proof.
  intros Hm. pose proof (ok_pos _ Hm) as Hp. unfold stepsPerBatch in Hp. unfold MachineOneStepProof.
  split; [unfold len; by rewrite length_app, !length_u64ToBe|].
  change 8%nat with (length (u64ToBe (Batch (GlobalState (state m))))). rewrite take_app_length, drop_app_length.
  split; apply u64FromBe_ToBe; [apply (ok_batch _ Hm)|unfold is_u64, two64; lia].
Qed.

Lemma state_parts m : machine_ok m -> GlobalState (state m) = {| BlockHash := zero_hash; SendRoot := zero_hash;
  Batch := Batch (GlobalState (state m)); PosInBatch := PosInBatch (GlobalState (state m)) |}.
Proof. intros Hm. destruct (ok_words _ Hm) as [E1 E2]. destruct (GlobalState (state m)). cbn in *. congruence. Qed.

Lemma Step_one m : Step 1 m = if IsStopped m then with_step (u64 (step m + 1)) m else step_once m.
Proof. unfold Step. change (Z.to_nat 1) with 1%nat. cbn [step_loop]. by destruct (IsStopped m). Qed.

(** The hash of a machine after one more step. *)
Lemma step_once_hash m : machine_ok m -> batches_left m = true ->
  MachineHash (step_once m) =
  let gs b p := {| BlockHash := zero_hash; SendRoot := zero_hash; Batch := b; PosInBatch := p |} in
  let b := Batch (GlobalState (state m)) in let p := PosInBatch (GlobalState (state m)) + 1 in
  if p mod stepsPerBatch =? 0 then GlobalHash (gs (b + 1) 0) else GlobalHash (gs b p).
Proof.
  intros Hm Hleft. unfold batches_left in Hleft.
  destruct (ok_limit _ Hm) as (n & Hn & Hnu). rewrite Hn in Hleft. apply Z.ltb_lt in Hleft.
  destruct (ok_words _ Hm) as [E1 E2]. pose proof (ok_pos _ Hm). pose proof (ok_batch _ Hm). unfold is_u64, stepsPerBatch in *.
  unfold MachineHash, step_once, GetExecutionState, stepsPerBatch. cbn [with_state with_step state]. rewrite E1, E2.
  rewrite (u64_small (PosInBatch _ + 1)), (u64_small (Batch _ + 1)) by (unfold two64 in *; lia).
  destruct (_ mod 2000 =? 0); cbn [GlobalState]; by destruct (first_byte _ =? 0).
Qed.

Lemma deserialized m : machine_ok m ->
  deserialize_u64 (MachineOneStepProof m) 0 = Ok (Batch (GlobalState (state m)), 8) /\
  deserialize_u64 (MachineOneStepProof m) 8 = Ok (PosInBatch (GlobalState (state m)), 16).
Proof.
  intros Hm. destruct (proof_parts m Hm) as (El & Eb & Ep). unfold deserialize_u64. rewrite El. cbn [Z.ltb Z.compare Z.add].
  change (drop (Z.to_nat 0) (MachineOneStepProof m)) with (MachineOneStepProof m). rewrite Eb. split; [done|].
  change (Z.to_nat 8) with 8%nat. rewrite take_ge; [by rewrite Ep|]. rewrite length_drop. unfold len in El. lia.
Qed.

(** While batches are left the contract moves the machine on, unless it is told a step in
    the middle of the block and sees that the block has ended. *)
Lemma proveOneStep_advances m ctx k : machine_ok m -> limit_agrees m ctx ->
  batches_left m = true ->
  (0 <? k) && ((first_byte (MachineHash m) =? 0) || (PosInBatch (GlobalState (state m)) =? 0)) = false ->
  simple_proveOneStep ctx k (MachineHash m) (MachineOneStepProof m) = Ok (MachineHash (step_once m)).
Proof.
  intros Hm Hlim Hleft Hgo. destruct (proof_parts m Hm) as (El & _ & _). destruct (deserialized m Hm) as [D1 D2].
  pose proof (ok_pos _ Hm) as Hpos. pose proof (ok_batch _ Hm) as Hbatch. unfold is_u64, stepsPerBatch in *.
  unfold simple_proveOneStep. rewrite El, D1. cbn [Z.eqb mbind res_bind]. rewrite D2. cbn [mbind res_bind]. rewrite Hgo.
  rewrite step_once_hash by done. cbv zeta. unfold limit_agrees in Hlim. rewrite Hleft in Hlim. apply Z.ltb_lt in Hlim.
  destruct (Z.leb_spec (MaxInboxMessagesRead ctx) (Batch (GlobalState (state m)))); [lia|].
  assert (Eh : GlobalHash {| BlockHash := zero_hash; SendRoot := zero_hash; Batch := Batch (GlobalState (state m));
    PosInBatch := PosInBatch (GlobalState (state m)) |} = MachineHash m) by (by rewrite <- state_parts).
  rewrite Eh, Z.eqb_refl. cbn [negb].
  rewrite (checked_ok 64 (PosInBatch _ + 1)) by (rewrite <- two64_pow; unfold two64; lia). cbn [mbind res_bind].
  destruct (ok_limit _ Hm) as (n & Hn & Hnu). unfold batches_left in Hleft. rewrite Hn in Hleft.
  apply Z.ltb_lt in Hleft. unfold is_u64 in Hnu.
  destruct (_ mod stepsPerBatch =? 0); [|done]. rewrite checked_ok by (rewrite <- two64_pow; lia). done.
Qed.

Lemma proveOneStep_steps m ctx : machine_ok m -> step m + 1 < two64 -> limit_agrees m ctx ->
  simple_proveOneStep ctx (step m) (MachineHash m) (MachineOneStepProof m) = Ok (MachineHash (Step 1 m)).
Proof.
  intros Hm Hlt Hlim. destruct (proof_parts m Hm) as (El & _ & _). destruct (deserialized m Hm) as [D1 D2].
  assert (Hnone : batches_left m = false -> MaxInboxMessagesRead ctx <= Batch (GlobalState (state m))).
  { unfold limit_agrees in Hlim. intros Hl. rewrite Hl in Hlim. by apply Z.ltb_ge in Hlim. }
  pose proof (ok_pos _ Hm) as Hpos. pose proof (ok_batch _ Hm) as Hbatch. pose proof (ok_steps _ Hm) as Hst. unfold is_u64, stepsPerBatch in *.
  rewrite Step_one. assert (Hstop : IsStopped m = true -> MachineHash (with_step (u64 (step m + 1)) m) = MachineHash m) by done.
  destruct (IsStopped m) eqn:Hs.
  - unfold simple_proveOneStep. rewrite El, D1. cbn [Z.eqb mbind res_bind]. rewrite D2. cbn [mbind res_bind].
    rewrite Hstop by done. destruct (Z.ltb_spec 0 (step m)) as [Hp|Hp].
    + assert (Hfin : MachineStatus (state m) = MachineStatusFinished).
      { destruct (ok_status _ Hm); [done|]. by apply stopped_not_running in Hs. }
      destruct (ok_stopped _ Hm Hp Hfin) as [E|[E|E]]; cbn [andb].
      * rewrite E. by rewrite orb_true_r.
      * rewrite E. done.
      * apply Hnone in E. destruct (_ || _); [done|].
        by destruct (Z.leb_spec (MaxInboxMessagesRead ctx) (Batch (GlobalState (state m)))); [|lia].
    + assert (Hfin : MachineStatus (state m) = MachineStatusFinished).
      { destruct (ok_status _ Hm); [done|]. by apply stopped_not_running in Hs. }
      pose proof (Hnone (stopped_at_start m ltac:(lia) Hfin Hs)) as E. cbn [andb].
      by destruct (Z.leb_spec (MaxInboxMessagesRead ctx) (Batch (GlobalState (state m)))); [|lia].
  - apply proveOneStep_advances; try done; [by apply running_left|].
    destruct (Z.ltb_spec 0 (step m)); [|done]. unfold IsStopped in Hs. destruct (Z.eqb_spec (step m) 0); [lia|]. cbn in Hs.
    apply negb_false_iff, Z.eqb_eq in Hs. destruct (ok_running _ Hm Hs) as (Hp & Hf & _).
    by rewrite (proj2 (Z.eqb_neq _ _) Hp), (proj2 (Z.eqb_neq _ _) Hf).
Qed.

(** The contract only asks whether the step is the first one; where the answer is wrong the
    step is proved as well if the machine has not stopped, or has no batches left to read. *)
Lemma proveOneStep_at m ctx k : machine_ok m -> step m + 1 < two64 -> limit_agrees m ctx ->
  (0 <? k) = (0 <? step m) \/ k = 0 /\ IsStopped m = false \/ batches_left m = false ->
  simple_proveOneStep ctx k (MachineHash m) (MachineOneStepProof m) = Ok (MachineHash (Step 1 m)).
Proof.
  intros Hm Hlt Hlim [E|[[-> Hs]|Hl]].
  - rewrite <- (proveOneStep_steps m ctx) by done. unfold simple_proveOneStep. by rewrite E.
  - rewrite Step_one, Hs. apply proveOneStep_advances; [done|done|by apply running_left|done].
  - destruct (IsStopped m) eqn:Hs; [|by rewrite running_left in Hl]. rewrite Step_one, Hs.
    destruct (proof_parts m Hm) as (El & _ & _). destruct (deserialized m Hm) as [D1 D2].
    unfold simple_proveOneStep. rewrite El, D1. cbn [Z.eqb mbind res_bind]. rewrite D2. cbn [mbind res_bind].
    unfold limit_agrees in Hlim. rewrite Hl in Hlim. apply Z.ltb_ge in Hlim.
    destruct (_ && _); [done|]. by destruct (Z.leb_spec (MaxInboxMessagesRead ctx) (Batch (GlobalState (state m)))); [|lia].
Qed.

Lemma Step_limit k m : maxBatchesRead (Step k m) = maxBatchesRead m.
Proof.
  unfold Step. generalize (Z.to_nat k) as j. intros j. revert m. induction j as [|j IH]; intros m; [done|].
  cbn [step_loop]. destruct (IsStopped m); [done|]. by rewrite IH.
Qed.

Lemma step_once_pos m : 0 <= PosInBatch (GlobalState (state m)) < stepsPerBatch ->
  is_u64 (PosInBatch (GlobalState (state (step_once m)))) /\
  PosInBatch (GlobalState (state (step_once m))) <> PosInBatch (GlobalState (state m)).
Proof.
  intros Hp. unfold stepsPerBatch in *. unfold step_once, stepsPerBatch, is_u64. cbn [with_state with_step state].
  rewrite (u64_small (PosInBatch _ + 1)) by (unfold two64; lia).
  destruct (Z.eqb_spec ((PosInBatch (GlobalState (state m)) + 1) mod 2000) 0) as [E|E]; cbn [GlobalState];
    destruct (first_byte _ =? 0); cbn; split; try (unfold two64; lia).
  all: intros E'; rewrite <- E' in E; by vm_compute in E.
Qed.

(** (C19) The contract proves the steps of the machine: for every machine of a block, which
    starts where the block before has finished or has run out of opcodes, run for
    any number of steps, with the number of batches as the inbox limit of the contract, given the number of the step, the hash of the machine and its
    proof, [SimpleOneStepProofEntry] returns the hash of the machine after one more step,
    also where the machine has stopped at the end of a batch, at the end of a block or
    for want of batches. *)
Theorem proveOneStep_correct s n k ctx : start_ok n s -> is_u64 n -> 0 <= k -> k + 1 < two64 ->
  MaxInboxMessagesRead ctx = n ->
  let m := Step k (NewSimpleMachine s (Some n)) in
  simple_proveOneStep ctx k (MachineHash m) (MachineOneStepProof m) = Ok (MachineHash (Step 1 m)).
Proof.
  intros Hs Hn Hk Hlt Hctx m. destruct (Step_ok _ k (new_machine_ok s n Hs Hn) Hk) as [Hm Est]; [cbn; lia|]. cbn in Est.
  fold m in Hm, Est. assert (Hlim : limit_agrees m ctx).
  { apply same_limit. unfold m. rewrite Step_limit. cbn. congruence. }
  pose proof (proveOneStep_steps m ctx Hm ltac:(lia) Hlim) as E. by rewrite Est in E.
Qed.

Lemma GlobalHash_pos `{!HasherInjective} s s' : is_u64 (PosInBatch s) -> is_u64 (PosInBatch s') ->
  GlobalHash s = GlobalHash s' -> PosInBatch s = PosInBatch s'.
Proof.
  intros Hs Hs' E. unfold GlobalHash in E. apply keccak_inj in E. assert (Hb : u64ToBe (PosInBatch s) = u64ToBe (PosInBatch s')) by congruence.
  by rewrite <- (u64FromBe_ToBe _ Hs), <- (u64FromBe_ToBe _ Hs'), Hb.
Qed.

(** The verifier next to the machine does not: it restarts a machine that has stopped at
    the end of a batch or for want of batches, and so accepts the steps of the machine
    exactly where the machine has not stopped in this way. *)
Theorem verifier_restarts_machine `{!HasherInjective} m : machine_ok m -> step m + 1 < two64 ->
  (step m = 0 -> MachineStatus (state m) = MachineStatusFinished) ->
  VerifySimpleMachineOneStepProof (MachineHash m) (MachineHash (Step 1 m)) (step m) (maxBatchesRead m)
    (MachineOneStepProof m) = true <->
  (IsStopped m = true -> step m = 0 \/ first_byte (MachineHash m) = 0).
Proof.
  intros Hm Hlt Hst. destruct (proof_parts m Hm) as (El & Eb & Ep). pose proof (ok_steps _ Hm). pose proof (ok_pos _ Hm) as Hpos.
  unfold VerifySimpleMachineOneStepProof. rewrite El. cbn [Z.eqb negb]. rewrite Eb, Ep, <- (state_parts m Hm).
  set (run := with_step (step m) (NewSimpleMachine {| GlobalState := GlobalState (state m); MachineStatus := MachineStatusRunning |}
    (maxBatchesRead m))). change (MachineHash run) with (MachineHash m).
  assert (Hsame : forall x, MachineStatus (state m) = x ->
    {| step := step m; state := {| GlobalState := GlobalState (state m); MachineStatus := x |}; maxBatchesRead := maxBatchesRead m |} = m).
  { intros x <-. by destruct m as [? [] ?]. }
  destruct ((step m =? 0) || (first_byte (MachineHash m) =? 0)) eqn:Eor.
  - assert (Hor : step m = 0 \/ first_byte (MachineHash m) = 0) by (by rewrite orb_true_iff, !Z.eqb_eq in Eor).
    assert (Hfin : MachineStatus (state m) = MachineStatusFinished).
    { destruct (Z.eq_dec (step m) 0); [by apply Hst|]. destruct Hor as [|Hf]; [done|].
      destruct (ok_status _ Hm) as [|Hr]; [done|]. by destruct (ok_running _ Hm Hr) as (_ & ? & _). }
    unfold with_state, run. cbn. rewrite Hsame, !Z.eqb_refl by done. done.
  - apply orb_false_iff in Eor as [E1%Z.eqb_neq E2%Z.eqb_neq]. change (MachineHash run) with (MachineHash m). rewrite Z.eqb_refl. cbn [negb].
    destruct (Z.eq_dec (MachineStatus (state m)) MachineStatusRunning) as [Hr|Hr].
    + unfold run, with_step, NewSimpleMachine. cbn [maxBatchesRead state]. rewrite Hsame, Z.eqb_refl by done.
      split; [|done]. intros _ Hs. unfold IsStopped in Hs. rewrite Hr in Hs. cbn in Hs. by rewrite andb_false_r in Hs.
    + assert (Hs : IsStopped m = true).
      { unfold IsStopped. rewrite (proj2 (Z.eqb_neq _ _) E1). cbn. by apply negb_true_iff, Z.eqb_neq. }
      rewrite !Step_one, Hs. change (IsStopped run) with (if (step m =? 0) && (MachineStatusRunning =? MachineStatusFinished) && batches_left run then false else false).
      rewrite (proj2 (Z.eqb_neq _ _) E1). cbn [andb]. split; [|intros Hx; destruct (Hx eq_refl); done].
      intros E%Z.eqb_eq. exfalso. change (MachineHash (with_step (u64 (step m + 1)) m)) with (MachineHash m) in E.
      destruct (step_once_pos run Hpos) as [Hu Hne]. destruct Hne. apply (GlobalHash_pos (GlobalState (state (step_once run)))
        (GlobalState (state m))); [done| |done]. unfold is_u64, stepsPerBatch, two64 in *. lia.
Qed.

(** ** The step the challenge manager passes on *)

Import ChallengeEdgeLib EdgeChallengeManagerLib.

(** A pending edge of length one is confirmed by a proof of its step. *)
Lemma one_step_confirms `{IOneStepProofEntry} b i e s levels h proof ctx before after next :
  edges s !! i = Some e -> exists_ e = true -> levelToType (EdgeLevel e) levels = Ok SmallStep ->
  is_u64 (StartHeight e) -> EndHeight e = StartHeight e + 1 ->
  ContractStatus e = EdgePending -> confirmedRival_at s (mutualId e) = 0 ->
  verifyInclusionProof (StartHistoryRoot e) h (StartHeight e) before = Ok tt ->
  proveOneStep ctx (StartHeight e) h proof = Ok next ->
  verifyInclusionProof (EndHistoryRoot e) next (EndHeight e) after = Ok tt ->
  exists s' e', confirmEdgeByOneStepProof b i h proof ctx before after levels s = (Ok tt, s') /\
    edges s' !! i = Some e' /\ ContractStatus e' = EdgeConfirmed.
Proof.
  intros Hi Hx Hlv Hst Een Hpe Hcr Hv1 Hp Hv2. unfold is_u64, two64 in Hst.
  assert (He : edge_at s i = e) by (unfold edge_at; by rewrite Hi).
  unfold confirmEdgeByOneStepProof, get_, mbind, M_bind, get, lift, fail. rewrite He, Hx, Hlv. cbn [negb].
  rewrite bool_decide_eq_true_2 by done. cbn [negb].
  unfold length. rewrite Een. replace (StartHeight e + 1 - StartHeight e) with 1 by lia.
  change (checked 256 1) with (Ok 1). cbn [mbind res_bind]. cbn [Z.eqb negb]. cbn [Pos.eqb negb].
  rewrite Hv1, Hp, checked_ok by lia. cbv beta iota. rewrite Een in Hv2. rewrite Hv2.
  unfold confirm, setConfirmedRival, mbind, M_bind, get, modify, fail, lift. rewrite He, Hcr. cbn [Z.eqb negb].
  change (edge_at (put_confirmedRival (mutualId e) i s) i) with (edge_at s i). rewrite He. unfold setConfirmed.
  rewrite bool_decide_eq_true_2 by done. do 2 eexists. split; [reflexivity|]. cbn. by rewrite lookup_insert_eq.
Qed.

#[local] Existing Instance SimpleOneStepProofEntry.

(** (C20) The challenge manager can confirm a step the machine does not take.  It passes the
    height of the edge within its small step challenge on as the step of the machine, so
    that the first step of every small step challenge is proved as the first step of a
    block: for a machine that has stopped in the block with batches left to read, an edge
    at height zero that claims that the machine goes on is confirmed by the one step
    proof, although the machine has stopped and its next hash is another one. *)
Theorem restarted_step_confirmed `{!HasherInjective} m ctx b i e s levels before after :
  machine_ok m -> step m + 1 < two64 -> IsStopped m = true -> 0 < step m -> batches_left m = true ->
  maxBatchesRead m = Some (MaxInboxMessagesRead ctx) ->
  edges s !! i = Some e -> exists_ e = true -> levelToType (EdgeLevel e) levels = Ok SmallStep ->
  StartHeight e = 0 -> EndHeight e = 1 -> ContractStatus e = EdgePending -> confirmedRival_at s (mutualId e) = 0 ->
  verifyInclusionProof (StartHistoryRoot e) (MachineHash m) 0 before = Ok tt ->
  verifyInclusionProof (EndHistoryRoot e) (MachineHash (step_once m)) 1 after = Ok tt ->
  (confirmEdgeByOneStepProof b i (MachineHash m) (MachineOneStepProof m) ctx before after levels s).1 = Ok tt /\
  MachineHash (step_once m) <> MachineHash (Step 1 m).
Proof.
  intros Hm Hlt Hs Hp Hleft Hmax Hi Hx Hlv Est Een Hpe Hcr Hv1 Hv2. split.
  - edestruct (one_step_confirms b i e s levels (MachineHash m) (MachineOneStepProof m) ctx before after (MachineHash (step_once m)))
      as (s' & e' & -> & _); rewrite ?Est, ?Een; try done.
    exact (proveOneStep_advances m ctx 0 Hm (same_limit m ctx Hmax) Hleft eq_refl).
  - rewrite Step_one, Hs. change (MachineHash (with_step (u64 (step m + 1)) m)) with (MachineHash m).
    pose proof (ok_pos _ Hm) as Hpos. destruct (step_once_pos m Hpos) as [Hu Hne]. intros E. destruct Hne.
    apply (GlobalHash_pos (GlobalState (state (step_once m))) (GlobalState (state m))); [done| |done].
    unfold is_u64, stepsPerBatch, two64 in *. lia.
Qed.

End runs.

(** ** Examples *)

Module ToyMachine.

(** A hash whose first byte is never zero, so that blocks end with their batch. *)
#[local] Instance marked_keccak : Hasher := fun cs => 2 ^ 256 * Zpos (encode cs) + 2 ^ 248.

Lemma marked_injective : HasherInjective.
Proof.
  intros cs ds E. unfold Keccak256Hash, marked_keccak in E. assert (encode cs = encode ds) as E' by lia.
  by apply (inj encode) in E'.
Qed.

Definition s0 : ExecutionState := {|
  GlobalState := {| BlockHash := zero_hash; SendRoot := zero_hash; Batch := 3; PosInBatch := 1990 |};
  MachineStatus := MachineStatusFinished |}.
Definition ctx : ExecutionContext := {| MaxInboxMessagesRead := 9; CtxBridge := 0; InitialWasmModuleRoot := 0 |}.

(** The machine stops after ten steps, at the end of the batch. *)
Definition stopped : SimpleMachine := Step 12 (NewSimpleMachine s0 (Some 9)).

Lemma start : start_ok 9 s0.
Proof. split_and!; try by vm_compute. by left. Qed.

Lemma toy_stopped_ok : machine_ok stopped /\ step stopped = 12.
Proof. apply Step_ok; [apply new_machine_ok; [exact start|by vm_compute]|done|by vm_compute]. Qed.

(** The first edge of a small step challenge, whose claim is that the machine goes on. *)
Definition edge : ChallengeEdge := {|
  EdgeOriginId := 1; StartHistoryRoot := hash_leaf (MachineHash stopped); StartHeight := 0;
  EndHistoryRoot := hash_node (hash_leaf (MachineHash stopped)) (hash_leaf (MachineHash (step_once stopped)));
  EndHeight := 1; LowerChildId := 0; UpperChildId := 0; EdgeClaimId := 0; Staker := 0; EdgeCreatedAtBlock := 5;
  EdgeConfirmedAtBlock := 0; ContractStatus := EdgePending; EdgeLevel := 2; Refunded := false |}.
Definition edge_id : EdgeId := ChallengeEdgeLib.id edge.
Definition store : EdgeStore := {| edges := {[edge_id := edge]}; firstRivals := ∅; confirmedRivals := ∅ |}.

End ToyMachine.

Lemma proveOneStep_correct_witness :
  let H : Hasher := ToyMachine.marked_keccak in
  let m := Step 9 (NewSimpleMachine ToyMachine.s0 (Some 9)) in
  IsStopped m = false /\ IsStopped (Step 1 m) = true /\
  simple_proveOneStep ToyMachine.ctx 9 (MachineHash m) (MachineOneStepProof m) = Ok (MachineHash (Step 1 m)).
Proof.
  intros H m. split; [vm_compute; reflexivity|]. split; [vm_compute; reflexivity|].
  apply (@proveOneStep_correct ToyMachine.marked_keccak ToyMachine.s0 9 9 ToyMachine.ctx);
    [exact ToyMachine.start|by vm_compute|done|by vm_compute|done].
Defined.

Lemma restarted_step_confirmed_witness :
  let H : Hasher := ToyMachine.marked_keccak in
  (@EdgeChallengeManagerLib.confirmEdgeByOneStepProof H SimpleOneStepProofEntry 7 ToyMachine.edge_id
     (MachineHash ToyMachine.stopped) (MachineOneStepProof ToyMachine.stopped) ToyMachine.ctx []
     [hash_leaf (MachineHash ToyMachine.stopped)] 1 ToyMachine.store).1 = Ok tt /\
  MachineHash (step_once ToyMachine.stopped) <> MachineHash (Step 1 ToyMachine.stopped).
Proof.
  intros H. apply (@restarted_step_confirmed ToyMachine.marked_keccak ToyMachine.marked_injective ToyMachine.stopped
    ToyMachine.ctx 7 ToyMachine.edge_id ToyMachine.edge ToyMachine.store 1 [] [hash_leaf (MachineHash ToyMachine.stopped)]);
    [exact (proj1 ToyMachine.toy_stopped_ok)|vm_compute; reflexivity..].
Defined.
