(* ===== verification/Backend.v ===== *)
(** * The state provider of the end-to-end tests

    [testing/mocks/state-provider]: a backend that runs the simple machine block by block,
    keeps the state at the start of every block, and answers the requests of the history
    commitment provider from them.  A backend can be made to diverge from a block and a
    step on, to play the other side of a challenge. *)

From S2P Require Import Prelude Bits PrefixProofs Protocol Provider Chain Machine.

(** [L2StateBackend] without the embedded provider. *)
Record L2StateBackend := {
  stateRoots : list Hash;
  executionStates : list ExecutionState;
  machineAtBlock : Z -> res SimpleMachine;
  maxWavmOpcodes : Z;
  blockDivergenceHeight : Z;
  posInBatchDivergence : Z;
  machineDivergenceStep : Z;
  forceMachineBlockCompat : bool;
  maliciousMachineIndex : Z;
  numBigSteps : Z;
  numBatches : Z;
  leafHeights : list Z;
}.

Definition Opt : Type := L2StateBackend -> L2StateBackend.

Definition LevelZeroBlockEdgeHeight : Z := Z.shiftl 1 5.
Definition LevelZeroBigStepEdgeHeight : Z := Z.shiftl 1 5.
Definition LevelZeroSmallStepEdgeHeight : Z := Z.shiftl 1 5.

Definition default_heights : list Z :=
  [LevelZeroBlockEdgeHeight; LevelZeroBigStepEdgeHeight; LevelZeroSmallStepEdgeHeight].

(** An element of a slice; a read past its end panics. *)
Definition slice_at {A} (l : list A) (i : Z) : res A :=
  match l !! Z.to_nat i with Some x => Ok x | None => Panic SliceIndexOutOfRange end.

(** Writes to a byte of a 32-byte word, the most significant one first. *)
Definition set_byte (h : Hash) (i : Z) (b : Z) : res Hash :=
  if i <? 32 then
    let at_ := 8 * (31 - i) in
    Ok (Z.lor (Z.ldiff h (Z.shiftl 255 at_)) (Z.shiftl b at_))
  else Panic SliceIndexOutOfRange.

Definition with_global (f : GoGlobalState -> GoGlobalState) (s : ExecutionState) : ExecutionState :=
  {| GlobalState := f (GlobalState s); MachineStatus := MachineStatus s |}.
Definition with_pos (pos : Z) (s : ExecutionState) : ExecutionState :=
  with_global (fun g => {| BlockHash := BlockHash g; SendRoot := SendRoot g; Batch := Batch g; PosInBatch := pos |}) s.
Definition with_hash (h : Hash) (s : ExecutionState) : ExecutionState :=
  with_global (fun g => {| BlockHash := h; SendRoot := SendRoot g; Batch := Batch g; PosInBatch := PosInBatch g |}) s.

(** [state.GlobalState.BlockHash[i] = 1]. *)
Definition mark (i : Z) (s : ExecutionState) : res ExecutionState :=
  h ← set_byte (BlockHash (GlobalState s)) i 1;
  Ok (with_hash h s).

Section backend.
Context `{Hasher}.
Implicit Types s : L2StateBackend.

Definition with_roots (roots : list Hash) (states : list ExecutionState) s : L2StateBackend := {|
  stateRoots := roots; executionStates := states; machineAtBlock := machineAtBlock s;
  maxWavmOpcodes := maxWavmOpcodes s; blockDivergenceHeight := blockDivergenceHeight s;
  posInBatchDivergence := posInBatchDivergence s; machineDivergenceStep := machineDivergenceStep s;
  forceMachineBlockCompat := forceMachineBlockCompat s; maliciousMachineIndex := maliciousMachineIndex s;
  numBigSteps := numBigSteps s; numBatches := numBatches s; leafHeights := leafHeights s |}.

(** ** Options *)

Definition WithMaxWavmOpcodesPerBlock (maxOpcodes : Z) : Opt := fun s => {|
  stateRoots := stateRoots s; executionStates := executionStates s; machineAtBlock := machineAtBlock s;
  maxWavmOpcodes := maxOpcodes; blockDivergenceHeight := blockDivergenceHeight s;
  posInBatchDivergence := posInBatchDivergence s; machineDivergenceStep := machineDivergenceStep s;
  forceMachineBlockCompat := forceMachineBlockCompat s; maliciousMachineIndex := maliciousMachineIndex s;
  numBigSteps := numBigSteps s; numBatches := numBatches s; leafHeights := leafHeights s |}.

Definition WithMachineDivergenceStep (divergenceStep : Z) : Opt := fun s => {|
  stateRoots := stateRoots s; executionStates := executionStates s; machineAtBlock := machineAtBlock s;
  maxWavmOpcodes := maxWavmOpcodes s; blockDivergenceHeight := blockDivergenceHeight s;
  posInBatchDivergence := posInBatchDivergence s; machineDivergenceStep := divergenceStep;
  forceMachineBlockCompat := forceMachineBlockCompat s; maliciousMachineIndex := maliciousMachineIndex s;
  numBigSteps := numBigSteps s; numBatches := numBatches s; leafHeights := leafHeights s |}.

Definition WithBlockDivergenceHeight (divergenceHeight : Z) : Opt := fun s => {|
  stateRoots := stateRoots s; executionStates := executionStates s; machineAtBlock := machineAtBlock s;
  maxWavmOpcodes := maxWavmOpcodes s; blockDivergenceHeight := divergenceHeight;
  posInBatchDivergence := posInBatchDivergence s; machineDivergenceStep := machineDivergenceStep s;
  forceMachineBlockCompat := forceMachineBlockCompat s; maliciousMachineIndex := maliciousMachineIndex s;
  numBigSteps := numBigSteps s; numBatches := numBatches s; leafHeights := leafHeights s |}.

(** The product is an [int64]. *)
Definition WithDivergentBlockHeightOffset (blockHeightOffset : Z) : Opt := fun s => {|
  stateRoots := stateRoots s; executionStates := executionStates s; machineAtBlock := machineAtBlock s;
  maxWavmOpcodes := maxWavmOpcodes s; blockDivergenceHeight := blockDivergenceHeight s;
  posInBatchDivergence := int64 (u64 (blockHeightOffset * 150)); machineDivergenceStep := machineDivergenceStep s;
  forceMachineBlockCompat := forceMachineBlockCompat s; maliciousMachineIndex := maliciousMachineIndex s;
  numBigSteps := numBigSteps s; numBatches := numBatches s; leafHeights := leafHeights s |}.

Definition WithMachineAtBlockProvider (f : Z -> res SimpleMachine) : Opt := fun s => {|
  stateRoots := stateRoots s; executionStates := executionStates s; machineAtBlock := f;
  maxWavmOpcodes := maxWavmOpcodes s; blockDivergenceHeight := blockDivergenceHeight s;
  posInBatchDivergence := posInBatchDivergence s; machineDivergenceStep := machineDivergenceStep s;
  forceMachineBlockCompat := forceMachineBlockCompat s; maliciousMachineIndex := maliciousMachineIndex s;
  numBigSteps := numBigSteps s; numBatches := numBatches s; leafHeights := leafHeights s |}.

Definition WithForceMachineBlockCompat : Opt := fun s => {|
  stateRoots := stateRoots s; executionStates := executionStates s; machineAtBlock := machineAtBlock s;
  maxWavmOpcodes := maxWavmOpcodes s; blockDivergenceHeight := blockDivergenceHeight s;
  posInBatchDivergence := posInBatchDivergence s; machineDivergenceStep := machineDivergenceStep s;
  forceMachineBlockCompat := true; maliciousMachineIndex := maliciousMachineIndex s;
  numBigSteps := numBigSteps s; numBatches := numBatches s; leafHeights := leafHeights s |}.

Definition WithLayerZeroHeights (heights : LayerZeroHeights) (bigSteps : Z) : Opt := fun s => {|
  stateRoots := stateRoots s; executionStates := executionStates s; machineAtBlock := machineAtBlock s;
  maxWavmOpcodes := maxWavmOpcodes s; blockDivergenceHeight := blockDivergenceHeight s;
  posInBatchDivergence := posInBatchDivergence s; machineDivergenceStep := machineDivergenceStep s;
  forceMachineBlockCompat := forceMachineBlockCompat s; maliciousMachineIndex := maliciousMachineIndex s;
  numBigSteps := numBigSteps s; numBatches := numBatches s;
  leafHeights := [Chain.BlockChallengeHeight heights]
    ++ replicate (Z.to_nat bigSteps) (BigStepChallengeHeight heights) ++ [SmallStepChallengeHeight heights] |}.

Definition WithMaliciousMachineIndex (index : Z) : Opt := fun s => {|
  stateRoots := stateRoots s; executionStates := executionStates s; machineAtBlock := machineAtBlock s;
  maxWavmOpcodes := maxWavmOpcodes s; blockDivergenceHeight := blockDivergenceHeight s;
  posInBatchDivergence := posInBatchDivergence s; machineDivergenceStep := machineDivergenceStep s;
  forceMachineBlockCompat := forceMachineBlockCompat s; maliciousMachineIndex := index;
  numBigSteps := numBigSteps s; numBatches := numBatches s; leafHeights := leafHeights s |}.

Definition WithNumBatchesRead (n : Z) : Opt := fun s => {|
  stateRoots := stateRoots s; executionStates := executionStates s; machineAtBlock := machineAtBlock s;
  maxWavmOpcodes := maxWavmOpcodes s; blockDivergenceHeight := blockDivergenceHeight s;
  posInBatchDivergence := posInBatchDivergence s; machineDivergenceStep := machineDivergenceStep s;
  forceMachineBlockCompat := forceMachineBlockCompat s; maliciousMachineIndex := maliciousMachineIndex s;
  numBigSteps := numBigSteps s; numBatches := n; leafHeights := leafHeights s |}.

Definition apply_opts (opts : list Opt) s : L2StateBackend := fold_left (fun s o => o s) opts s.

(** ** Construction *)

Definition NewWithMockedStateRoots (roots : list Hash) (opts : list Opt) : res L2StateBackend :=
  if len roots =? 0 then Err (ErrNew "no state roots provided")
  else Ok (apply_opts opts {|
    stateRoots := roots; executionStates := [];
    machineAtBlock := fun _ => Err (ErrNew "state manager created with New() cannot provide machines");
    maxWavmOpcodes := 0; blockDivergenceHeight := 0; posInBatchDivergence := 0; machineDivergenceStep := 0;
    forceMachineBlockCompat := false; maliciousMachineIndex := 0; numBigSteps := 1; numBatches := 0;
    leafHeights := default_heights |}).

(** What a backend records of the state of the machine at the start of a block. *)
Definition recorded_state s (block : Z) (state : ExecutionState) : res ExecutionState :=
  if 0 <? blockDivergenceHeight s then
    let state := if block =? blockDivergenceHeight s
                 then with_pos (u64 (PosInBatch (GlobalState state) - u64 (posInBatchDivergence s))) state
                 else state in
    if blockDivergenceHeight s <=? block then mark (maliciousMachineIndex s) state else Ok state
  else Ok state.

(** The loop over the blocks, with the state roots and the execution states it appends to. *)
Fixpoint block_loop (fuel : nat) s (maxBatches : Z) (nextMachineState : ExecutionState) (block : Z)
    (roots : list Hash) (states : list ExecutionState) : res (list Hash * list ExecutionState) :=
  match fuel with
  | O => NoFuel
  | S fuel' =>
      let machine := NewSimpleMachine nextMachineState (Some maxBatches) in
      let state := GetExecutionState machine in
      if negb (MachineHash machine =? GlobalHash (GlobalState state))
      then Err (ErrNew "machine at block %v has hash %v but we expected hash %v")
      else
        state ← recorded_state s block state;
        let machHash := if 0 <? blockDivergenceHeight s then ComputeSimpleMachineChallengeHash state
                        else MachineHash machine in
        let roots := roots ++ [machHash] in
        let states := states ++ [state] in
        if IsStopped machine || (numBatches s <=? Batch (GlobalState state)) then Ok (roots, states)
        else
          let machine := Step (maxWavmOpcodes s) machine in
          block_loop fuel' s maxBatches (GetExecutionState machine) (u64 (block + 1)) roots states
  end.

(** The machine of a block of a backend with these states; the last state stands for the
    blocks after it. *)
Definition simple_machine_at (states : list ExecutionState) (maxBatches : Z) (block : Z) : res SimpleMachine :=
  let block := if len states <=? block then u64 (len states - 1) else block in
  st ← slice_at states block;
  Ok (NewSimpleMachine st (Some maxBatches)).

Definition zero_state : ExecutionState := {|
  GlobalState := {| BlockHash := zero_hash; SendRoot := zero_hash; Batch := 0; PosInBatch := 0 |};
  MachineStatus := MachineStatusFinished |}.

Definition NewForSimpleMachine (fuel : nat) (opts : list Opt) : res L2StateBackend :=
  let s := apply_opts opts {|
    stateRoots := []; executionStates := []; machineAtBlock := fun _ => Panic NilDereference;
    maxWavmOpcodes := 0; blockDivergenceHeight := 0; posInBatchDivergence := 0; machineDivergenceStep := 0;
    forceMachineBlockCompat := false; maliciousMachineIndex := 0; numBigSteps := 0; numBatches := 1;
    leafHeights := default_heights |} in
  levels ← slice_from (leafHeights s) 1;
  let s := WithMaxWavmOpcodesPerBlock (fold_left (fun total h => u64 (total * h)) levels 1) s in
  if maxWavmOpcodes s =? 0 then Err (ErrNew "maxWavmOpcodes cannot be zero")
  else if (0 <? blockDivergenceHeight s) && (machineDivergenceStep s =? 0)
  then Err (ErrNew "machineDivergenceStep cannot be zero if blockDivergenceHeight is non-zero")
  else
    let maxBatches := int64 (numBatches s) in
    '(roots, states) ← block_loop fuel s maxBatches zero_state 0 (stateRoots s) (executionStates s);
    Ok (WithMachineAtBlockProvider (simple_machine_at states maxBatches) (with_roots roots states s)).

(** ** Execution states *)

Definition ExecutionStateAfterBatchCount s (batchCount : Z) : res ExecutionState :=
  if len (executionStates s) =? 0 then Err (ErrNew "no execution states")
  else if len (executionStates s) <=? batchCount
  then Err (ErrNew "message number %v is greater than number of execution states %v")
  else match list_find (fun st => Batch (GlobalState st) = batchCount) (executionStates s) with
       | Some (_, st) => Ok st
       | None => Err (ErrNew "no execution state at message number %d found")
       end.

Definition AgreesWithExecutionState s (state : ExecutionState) : res unit :=
  if existsb (fun r => Equals r state) (executionStates s) then Ok tt else Err ErrNoExecutionState.

(** The loop of [statesUpTo] over the state roots from index [i] on. *)
Fixpoint states_loop s (end_ toBatch i : Z) (roots states : list Hash) (lastState : Hash) : res (list Hash * Hash) :=
  match roots with
  | [] => Ok (states, lastState)
  | state :: roots' =>
      if end_ <? i then Ok (states, lastState)
      else
        let states := states ++ [state] in
        if len (executionStates s) =? 0 then states_loop s end_ toBatch (u64 (i + 1)) roots' states state
        else
          st ← slice_at (executionStates s) i;
          let gs := GlobalState st in
          if toBatch <=? Batch gs then
            if (toBatch <? Batch gs) || (0 <? PosInBatch gs)
            then Err (ErrNew "overran next batch count %v with global state batch %v position %v")
            else Ok (states, state)
          else states_loop s end_ toBatch (u64 (i + 1)) roots' states state
  end.

Definition statesUpTo s (blockStart blockEnd fromBatch toBatch : Z) : res (list Hash) :=
  if blockEnd <? blockStart then Err (ErrNew "end block %v is less than start block %v")
  else
    let startIndex := match list_find (fun st => Batch (GlobalState st) = fromBatch) (executionStates s) with
                      | Some (i, _) => Z.of_nat i | None => 0 end in
    let start := u64 (startIndex + blockStart) in
    let end_ := u64 (start + blockEnd) in
    let desiredStatesLen := int64 (u64 (u64 (blockEnd - blockStart) + 1)) in
    '(states, lastState) ← states_loop s end_ toBatch start (drop (Z.to_nat start) (stateRoots s)) [] zero_hash;
    Ok (states ++ replicate (Z.to_nat (desiredStatesLen - len states)) lastState).

(** ** Machine hashes *)

Definition maybeDivergeState s (state : ExecutionState) (block n : Z) : res ExecutionState :=
  state ← (if (u64 (block + 1) =? blockDivergenceHeight s) && (n =? maxWavmOpcodes s)
           then slice_at (executionStates s) (u64 (block + 1)) else Ok state);
  if (blockDivergenceHeight s <? u64 (block + 1)) || (machineDivergenceStep s <=? n)
  then mark (maliciousMachineIndex s) state else Ok state.

Definition getMachineHash_diverged s (machine : SimpleMachine) (block : Z) : res Hash :=
  if (blockDivergenceHeight s =? 0) || (u64 (block + 1) <? blockDivergenceHeight s) then Ok (MachineHash machine)
  else
    state ← maybeDivergeState s (GetExecutionState machine) block (CurrentStepNum machine);
    Ok (ComputeSimpleMachineChallengeHash state).

Definition getMachineHash s (machine : SimpleMachine) (block : Z) : res Hash :=
  if forceMachineBlockCompat s && (CurrentStepNum machine =? 0) then slice_at (stateRoots s) block
  else if forceMachineBlockCompat s && (CurrentStepNum machine =? maxWavmOpcodes s)
  then slice_at (stateRoots s) (u64 (block + 1))
  else getMachineHash_diverged s machine block.

Fixpoint hashes_loop (n : nat) s (stepSize block : Z) (machine : SimpleMachine) (hashes : list Hash)
    : res (list Hash) :=
  match n with
  | O => Ok hashes
  | S n' =>
      let machine := Step stepSize machine in
      h ← getMachineHash s machine block;
      hashes_loop n' s stepSize block machine (hashes ++ [h])
  end.

Definition CollectMachineHashes s (cfg : HashCollectorConfig) : res (list Hash) :=
  machine ← machineAtBlock s (Provider.BlockChallengeHeight cfg);
  let machine := Step (MachineStartIndex cfg) machine in
  h ← getMachineHash s machine (Provider.BlockChallengeHeight cfg);
  hashes_loop (Z.to_nat (NumDesiredHashes cfg - 1)) s (StepSize cfg) (Provider.BlockChallengeHeight cfg) machine [h].

Definition CollectProof s (wasmModuleRoot : Hash) (fromBatch blockChallengeHeight machineIndex : Z) : res (list Z) :=
  machine ← machineAtBlock s blockChallengeHeight;
  Ok (MachineOneStepProof (Step machineIndex machine)).

Definition L2MessageStatesUpTo s (from : Z) (upTo : option Z) (fromBatch toBatch : Z) : res (list Hash) :=
  to ← match upTo with Some to => Ok to | None => slice_at (leafHeights s) 0 end;
  statesUpTo s from to fromBatch toBatch.

(** The provider embedded in the backend; the encoder of proofs and the order of the
    hashing workers are parameters. *)
Definition backend_provider (pack : list Hash -> list Hash -> res (list Z)) (sched : nat -> list nat) s
    : HistoryCommitmentProvider := {|
  Provider.L2MessageStatesUpTo := L2MessageStatesUpTo s;
  Provider.CollectMachineHashes := CollectMachineHashes s;
  Provider.CollectProof := CollectProof s;
  PackProofArgs := pack;
  challengeLeafHeights := leafHeights s;
  schedule := sched |}.

End backend.
