(* ===== verification/BackendSpec.v ===== *)
(** * What the backend of the tests computes

    The construction of a backend ends and records one state per block; a diverging
    backend agrees with the honest one exactly below its divergence height; the honest
    backend implements the collectors the provider relies on, its commitments agree
    across the challenge levels, and its one step proofs are accepted by the contract where
    the inbox limits agree. *)

From S2P Require Import Prelude Bits PrefixProofs MerkleSpec InclusionProofs History Protocol Provider ProviderSpec Chain Contracts MerkleContract EdgeContract Machine Backend.

(** ** Progress of the machine *)

(** The number of steps a state is away from the first one. *)
Definition position (st : ExecutionState) : Z :=
  stepsPerBatch * Batch (GlobalState st) + PosInBatch (GlobalState st).

Section progress.
Context `{Hasher}.
Implicit Types m : SimpleMachine.

(** Where a machine is after a run: in the same batch, or finished at the start of the next one. *)
Definition same_or_next (st st' : ExecutionState) : Prop :=
  Batch (GlobalState st') = Batch (GlobalState st) \/
  (Batch (GlobalState st') = Batch (GlobalState st) + 1 /\ PosInBatch (GlobalState st') = 0 /\
   MachineStatus st' = MachineStatusFinished).

Lemma step_once_position m : machine_ok m -> batches_left m = true ->
  position (state (step_once m)) = position (state m) + 1 /\ same_or_next (state m) (state (step_once m)).
Proof.
  intros Hm Hleft. unfold batches_left in Hleft. destruct (ok_limit _ Hm) as (n & Hn & Hnu). rewrite Hn in Hleft.
  apply Z.ltb_lt in Hleft. pose proof (ok_pos _ Hm). pose proof (ok_batch _ Hm). unfold is_u64, stepsPerBatch in *.
  unfold step_once, position, same_or_next, stepsPerBatch. cbn [with_state with_step state].
  rewrite (u64_small (PosInBatch _ + 1)), (u64_small (Batch _ + 1)) by (unfold two64 in *; lia).
  set (gs := GlobalState (state m)) in *.
  destruct (Z.eqb_spec ((PosInBatch gs + 1) mod 2000) 0) as [E|E]; cbn [GlobalState].
  - assert (PosInBatch gs = 1999) by (Z.div_mod_to_equations; lia).
    destruct (first_byte _ =? 0); cbn; (split; [lia|right; done]).
  - destruct (first_byte _ =? 0); cbn; (split; [lia|by left]).
Qed.

Lemma step_loop_position j : forall m n, machine_ok m -> maxBatchesRead m = Some n ->
  step m + Z.of_nat j < two64 -> position (state m) <= stepsPerBatch * n ->
  let st := state (step_loop j m) in
  position (state m) + (if IsStopped m then 0 else Z.min 1 (Z.of_nat j)) <= position st <= stepsPerBatch * n /\
  same_or_next (state m) st.
Proof.
  induction j as [|j IH]; intros m n Hm Hn Hlt Hpos; cbn [step_loop]; cbv zeta.
  { split; [destruct (IsStopped m); cbn; lia|by left]. }
  destruct (IsStopped m) eqn:Hs; [split; [cbn; lia|by left]|].
  pose proof (running_left m Hm Hs) as Hleft. destruct (step_once_position m Hm Hleft) as [Ep Hsn].
  destruct (step_once_ok m Hm Hs ltac:(lia)) as [Hm' Est].
  unfold batches_left in Hleft. rewrite Hn in Hleft. apply Z.ltb_lt in Hleft.
  assert (Hpos' : position (state (step_once m)) <= stepsPerBatch * n).
  { rewrite Ep. unfold position, stepsPerBatch in *. pose proof (ok_pos _ Hm). unfold stepsPerBatch in *. lia. }
  destruct Hsn as [Eb|(Eb & E0 & Ef)].
  - destruct (IH (step_once m) n Hm' Hn ltac:(lia) Hpos') as [Hr Hsn].
    split; [destruct (IsStopped (step_once m)); lia|]. unfold same_or_next in *. by rewrite Eb in Hsn.
  - assert (Hst : IsStopped (step_once m) = true).
    { unfold IsStopped. rewrite Ef. destruct (Z.eqb_spec (step (step_once m)) 0); [pose proof (ok_steps _ Hm); lia|done]. }
    assert (Es : state (step_loop j (step_once m)) = state (step_once m)).
    { destruct j; cbn [step_loop]; [done|]. by rewrite Hst. }
    rewrite Es. split; [lia|]. by right.
Qed.

(** A machine that has stopped keeps its state. *)
Lemma Step_stopped k m : IsStopped m = true -> state (Step k m) = state m.
Proof. intros Hs. unfold Step. destruct (Z.to_nat k); cbn [step_loop]; [done|]. by rewrite Hs. Qed.

Lemma Step_num k m : 0 <= k -> 0 <= step m -> step m + k < two64 -> step (Step k m) = step m + k.
Proof.
  intros Hk. unfold Step. replace k with (Z.of_nat (Z.to_nat k)) at 1 3 by lia. generalize (Z.to_nat k) as j. clear k Hk. intros j.
  revert m. induction j as [|j IH]; intros m Hm Hlt; cbn [step_loop]; [lia|]. destruct (IsStopped m).
  - cbn. apply u64_small. lia.
  - assert (E1 : step (step_once m) = step m + 1) by (apply u64_small; lia). rewrite IH; lia.
Qed.

End progress.

(** ** The blocks of a backend *)

Section blocks.
Context `{Hasher}.
Variables (n k : Z).
Hypothesis limit_u64 : 0 <= n < 2 ^ 63.
Hypothesis opcodes_u64 : 0 < k < two64 - 1.

Definition block_machine (st : ExecutionState) : SimpleMachine := NewSimpleMachine st (Some n).

(** The loop ends at the block that starts in this state. *)
Definition ends (st : ExecutionState) : bool := IsStopped (block_machine st) || (n <=? Batch (GlobalState st)).

(** The states at the starts of the blocks from a state on. *)
Inductive blocks : ExecutionState -> list ExecutionState -> Prop :=
| blocks_last st : ends st = true -> blocks st [st]
| blocks_next st l : ends st = false -> blocks (state (Step k (block_machine st))) l -> blocks st (st :: l).

(** What holds of the state at the start of a block. *)
Definition block_ok (st : ExecutionState) : Prop :=
  machine_ok (block_machine st) /\ position st <= stepsPerBatch * n.

Lemma zero_block_ok : block_ok zero_state.
Proof.
  split.
  - apply new_machine_ok; [split_and!; [by vm_compute..|by left]|]. unfold is_u64. assert (2 ^ 63 < two64) by by vm_compute. lia.
  - unfold position, zero_state, stepsPerBatch. cbn. lia.
Qed.

Lemma next_block_ok st : block_ok st -> ends st = false ->
  block_ok (state (Step k (block_machine st))) /\
  position st < position (state (Step k (block_machine st))) /\
  same_or_next st (state (Step k (block_machine st))).
Proof.
  intros [Hm Hp] He. unfold ends in He. apply orb_false_iff in He as [Hs _].
  destruct (Step_ok _ k Hm) as [Hm' Est]; [lia|cbn; lia|].
  destruct (step_loop_position (Z.to_nat k) (block_machine st) n Hm eq_refl) as [Hr Hsn]; [cbn; lia|done|].
  rewrite Hs in Hr. change (step_loop (Z.to_nat k) (block_machine st)) with (Step k (block_machine st)) in *.
  change (state (block_machine st)) with st in *. split_and!; [|lia|done]. split; [|lia].
  pose proof (restart_ok _ Hm') as Hr'. unfold block_machine, NewSimpleMachine, with_step in *.
  by rewrite Step_limit in Hr'.
Qed.

Lemma blocks_ok st l : blocks st l -> block_ok st -> Forall block_ok l.
Proof.
  induction 1 as [st He|st l He _ IH]; intros Hok; [by apply Forall_singleton|]. constructor; [done|].
  apply IH. by destruct (next_block_ok st Hok He).
Qed.

Lemma blocks_head st l : blocks st l -> l !! 0%nat = Some st.
Proof. by destruct 1. Qed.

(** Consecutive states are joined by a run of the machine. *)
Lemma blocks_step st l : blocks st l -> forall i a, l !! i = Some a -> (S i < length l)%nat ->
  ends a = false /\ l !! S i = Some (state (Step k (block_machine a))).
Proof.
  induction 1 as [st He|st l He Hl IH]; intros i a Hi Hlt.
  { simpl in Hlt. lia. }
  destruct i as [|i].
  - injection Hi as <-. split; [done|]. by apply blocks_head in Hl.
  - apply (IH i a Hi). simpl in Hlt. lia.
Qed.

Lemma blocks_end st l : blocks st l -> exists a, l !! (length l - 1)%nat = Some a /\ ends a = true.
Proof.
  induction 1 as [st He|st l He Hl (a & Ha & Hend)]; [by exists st|]. exists a. split; [|done]. cbn [length].
  destruct l; [done|]. cbn [length] in *. by replace (S (S (length l)) - 1)%nat with (S (S (length l) - 1)) by lia.
Qed.

(** The loop ends where all batches have been read. *)
Lemma ends_position st : block_ok st -> ends st = true <-> Batch (GlobalState st) = n /\ PosInBatch (GlobalState st) = 0.
Proof.
  intros [Hm Hp]. pose proof (ok_pos _ Hm) as Hpos. unfold position, stepsPerBatch in *. change (state (block_machine st)) with st in *.
  unfold ends. rewrite orb_true_iff, Z.leb_le. split.
  - assert (Hend : Batch (GlobalState st) >= n -> Batch (GlobalState st) = n /\ PosInBatch (GlobalState st) = 0) by lia.
    intros [Hs|Hge]; [|by apply Hend; lia]. apply Hend. destruct (ok_status _ Hm) as [Hf|Hr]; [|by apply stopped_not_running in Hs].
    pose proof (stopped_at_start (block_machine st) eq_refl Hf Hs) as Hl. unfold batches_left in Hl. cbn in Hl. apply Z.ltb_ge in Hl. lia.
  - intros [E _]. right. lia.
Qed.

(** The machine of the last block does not move. *)
Lemma ends_stopped st : block_ok st -> ends st = true -> IsStopped (block_machine st) = true.
Proof.
  intros Hok He. pose proof He as E. apply ends_position in E as [E _]; [|done]. unfold ends in He.
  apply orb_true_iff in He as [|_]; [done|]. destruct Hok as [Hm _]. unfold IsStopped.
  assert (Hl : batches_left (block_machine st) = false) by (apply Z.ltb_ge; cbn; lia). rewrite Hl, andb_false_r.
  apply negb_true_iff, Z.eqb_neq. intros Hr. destruct (ok_running _ Hm Hr) as (_ & _ & Hl'). congruence.
Qed.

(** There is one state per block and at most one block per step. *)
Lemma blocks_exist fuel : forall st, block_ok st -> stepsPerBatch * n - position st < Z.of_nat fuel ->
  exists l, blocks st l /\ n - Batch (GlobalState st) + 1 <= len l <= stepsPerBatch * n - position st + 1.
Proof.
  induction fuel as [|fuel IH]; intros st Hok Hf; [destruct Hok; lia|]. destruct (ends st) eqn:He.
  { exists [st]. split; [by constructor|]. apply ends_position in He as [E1 E2]; [|done].
    unfold position, stepsPerBatch, len. simpl. lia. }
  destruct (next_block_ok st Hok He) as (Hok' & Hp & Hsn). destruct (IH _ Hok' ltac:(lia)) as (l & Hl & Hlen).
  exists (st :: l). split; [by constructor|]. change (len (st :: l)) with (Z.of_nat (S (length l))). unfold len in Hlen.
  split; [|lia]. destruct Hsn as [E|[E _]]; lia.
Qed.

End blocks.

(** ** The construction of a backend *)

(** A byte of a word that is set to one makes the word differ from zero. *)
Lemma set_byte_nonzero h i : 0 <= i < 32 -> exists h', set_byte h i 1 = Ok h' /\ h' <> zero_hash.
Proof.
  intros Hi. unfold set_byte. destruct (Z.ltb_spec i 32); [|lia]. eexists; split; [done|]. intros E.
  assert (Hb : Z.testbit (Z.lor (Z.ldiff h (Z.shiftl 255 (8 * (31 - i)))) (Z.shiftl 1 (8 * (31 - i)))) (8 * (31 - i)) = true).
  { rewrite Z.lor_spec, Z.shiftl_spec by lia. by rewrite Z.sub_diag, orb_true_r. }
  rewrite E in Hb. unfold zero_hash in Hb. by rewrite Z.testbit_0_l in Hb.
Qed.

(** A backend records what the machine does below its divergence height and marked states from there on. *)
Definition records (s : L2StateBackend) (block : Z) (st r : ExecutionState) : Prop :=
  if (0 <? blockDivergenceHeight s) && (blockDivergenceHeight s <=? block)
  then BlockHash (GlobalState r) <> zero_hash /\ Batch (GlobalState r) = Batch (GlobalState st) else r = st.

Lemma recorded_state_ok s block st : 0 <= maliciousMachineIndex s < 32 ->
  exists r, recorded_state s block st = Ok r /\ records s block st r.
Proof.
  intros Hi. unfold recorded_state, records. destruct (0 <? blockDivergenceHeight s); [|by eexists]. cbn [andb].
  destruct (blockDivergenceHeight s <=? block) eqn:E.
  - set (st' := if block =? blockDivergenceHeight s then _ else st). unfold mark.
    destruct (set_byte_nonzero (BlockHash (GlobalState st')) (maliciousMachineIndex s) Hi) as (h & -> & Hh).
    eexists; split; [reflexivity|]. split; [exact Hh|]. unfold st'. by destruct (block =? _).
  - apply Z.leb_gt in E. destruct (Z.eqb_spec block (blockDivergenceHeight s)); [lia|]. by eexists.
Qed.

Lemma records_batch s block st r : records s block st r -> Batch (GlobalState r) = Batch (GlobalState st).
Proof. unfold records. case_match; [by intros [_ ?]|by intros ->]. Qed.

Lemma records_honest s block st r : blockDivergenceHeight s = 0 -> records s block st r -> r = st.
Proof. intros E. unfold records. by rewrite E. Qed.

Section construction.
Context `{Hasher}.

Definition state_root (st : ExecutionState) : Hash := GlobalHash (GlobalState st).

(** The loop goes through the blocks of the machine, whatever the backend records. *)
Lemma block_loop_runs s n : forall st l, numBatches s = n -> 0 <= maliciousMachineIndex s < 32 ->
  blocks n (maxWavmOpcodes s) st l -> forall fuel block roots states, (length l <= fuel)%nat ->
  0 <= block -> block + len l < two64 ->
  exists rs, block_loop fuel s n st block roots states = Ok (roots ++ (state_root <$> rs), states ++ rs) /\
    length rs = length l /\
    forall i a r, l !! i = Some a -> rs !! i = Some r -> records s (block + Z.of_nat i) a r.
Proof.
  intros st l Hn Hi Hl. induction Hl as [st He|st l He Hl IH]; intros fuel block roots states Hf Hb Hlt;
    (destruct fuel as [|fuel]; [simpl in Hf; lia|]); cbn [block_loop].
  all: change (MachineHash (NewSimpleMachine st (Some n)) =? GlobalHash (GlobalState (GetExecutionState (NewSimpleMachine st (Some n)))))
    with (state_root st =? state_root st); rewrite Z.eqb_refl; cbn [negb].
  all: change (GetExecutionState (NewSimpleMachine st (Some n))) with st.
  all: destruct (recorded_state_ok s block st Hi) as (r & Er & Hr); rewrite Er; cbn [mbind res_bind].
  all: assert (Eh : (if 0 <? blockDivergenceHeight s then ComputeSimpleMachineChallengeHash r
         else MachineHash (NewSimpleMachine st (Some n))) = state_root r)
    by (destruct (0 <? blockDivergenceHeight s) eqn:Ed; [done|]; unfold records in Hr; rewrite Ed in Hr; cbn in Hr; by subst r).
  all: rewrite Eh, Hn, (records_batch _ _ _ _ Hr).
  all: change (IsStopped (NewSimpleMachine st (Some n)) || (n <=? Batch (GlobalState st))) with (ends n st); rewrite He.
  - exists [r]. split_and!; [done|done|]. intros [|i] a r' Ha Hr'; [|done]. cbn in Ha, Hr'. injection Ha as <-. injection Hr' as <-.
    by rewrite Z.add_0_r.
  - change (len (st :: l)) with (Z.of_nat (S (length l))) in Hlt. rewrite u64_small by lia.
    destruct (IH fuel (block + 1) (roots ++ [state_root r]) (states ++ [r])) as (rs & Eq & El & Hrs);
      [simpl in Hf; lia|lia|unfold len; lia|].
    exists (r :: rs). split_and!; [|simpl; lia|].
    + change (GetExecutionState (Step (maxWavmOpcodes s) (NewSimpleMachine st (Some n))))
        with (state (Step (maxWavmOpcodes s) (block_machine n st))). rewrite Eq. by rewrite fmap_cons, <- !app_assoc.
    + intros [|i] a r' Ha Hr'; cbn in Ha, Hr'; [injection Ha as <-; injection Hr' as <-; by rewrite Z.add_0_r|].
      replace (block + Z.of_nat (S i)) with (block + 1 + Z.of_nat i) by lia. by apply Hrs.
Qed.

(** The backend that the options configure, before it runs the machine. *)
Definition configured (opts : list Opt) : L2StateBackend := apply_opts opts {|
  stateRoots := []; executionStates := []; machineAtBlock := fun _ => Panic NilDereference;
  maxWavmOpcodes := 0; blockDivergenceHeight := 0; posInBatchDivergence := 0; machineDivergenceStep := 0;
  forceMachineBlockCompat := false; maliciousMachineIndex := 0; numBigSteps := 0; numBatches := 1;
  leafHeights := default_heights |}.

(** The options make sense: the heights are positive and the opcodes of a block are a
    [uint64], the index is one of a word, a divergence has a step, and the number of batches is
    an [int64]. *)
Record config_ok (opts : list Opt) : Prop := {
  ok_fresh : stateRoots (configured opts) = [] /\ executionStates (configured opts) = [];
  ok_levels : leafHeights (configured opts) <> [];
  ok_heights : positive (leafHeights (configured opts)) /\ product_from (leafHeights (configured opts)) 1 < two64 - 1;
  ok_index : 0 <= maliciousMachineIndex (configured opts) < 32;
  ok_divergence : 0 < blockDivergenceHeight (configured opts) -> machineDivergenceStep (configured opts) <> 0;
  ok_batches : 0 <= numBatches (configured opts) /\ stepsPerBatch * numBatches (configured opts) + 1 < 2 ^ 63;
}.

(** The steps of a whole block. *)
Definition block_opcodes (opts : list Opt) : Z := product_from (leafHeights (configured opts)) 1.

Lemma NewForSimpleMachine_runs opts : config_ok opts ->
  let s := configured opts in
  exists l rs b, blocks (numBatches s) (block_opcodes opts) zero_state l /\
    numBatches s + 1 <= len l <= stepsPerBatch * numBatches s + 1 /\
    NewForSimpleMachine (Z.to_nat (stepsPerBatch * numBatches s + 1)) opts = Ok b /\
    b = WithMachineAtBlockProvider (simple_machine_at rs (numBatches s)) (with_roots (state_root <$> rs) rs
          (WithMaxWavmOpcodesPerBlock (block_opcodes opts) s)) /\
    length rs = length l /\
    (forall i a r, l !! i = Some a -> rs !! i = Some r -> records s (Z.of_nat i) a r).
Proof.
  intros [[F1 F2] Hlv [Hpos Hfit] Hi Hd [Hb0 Hb]] s. fold s in F1, F2, Hlv, Hpos, Hfit, Hi, Hd, Hb0, Hb. unfold block_opcodes. fold s.
  set (n := numBatches s) in *. set (k := product_from (leafHeights s) 1) in *. unfold stepsPerBatch in *. change (2 ^ 63) with 9223372036854775808 in *.
  assert (Hk : 0 < k) by (by apply product_from_pos).
  destruct (blocks_exist n k ltac:(lia) (Z.to_nat (2000 * n + 1)) zero_state)
    as (l & Hl & Hlen); [apply zero_block_ok; change (2 ^ 63) with 9223372036854775808; lia|
      change (position zero_state) with 0; unfold stepsPerBatch; lia|].
  change (position zero_state) with 0 in Hlen. change (Batch (GlobalState zero_state)) with 0 in Hlen. unfold stepsPerBatch in Hlen.
  destruct (block_loop_runs (WithMaxWavmOpcodesPerBlock k s) n zero_state l eq_refl Hi Hl (Z.to_nat (2000 * n + 1)) 0 [] [])
    as (rs & Eq & El & Hrs); [unfold len in *; lia|lia|unfold two64; lia|].
  exists l, rs, (WithMachineAtBlockProvider (simple_machine_at rs n) (with_roots (state_root <$> rs) rs (WithMaxWavmOpcodesPerBlock k s))).
  split_and!; [done|lia|lia| |done|done|done].
  unfold NewForSimpleMachine. fold (configured opts). fold s.
  assert (Es : slice_from (leafHeights s) 1 = Ok (drop 1 (leafHeights s))).
  { unfold slice_from. destruct (leafHeights s); [done|]. destruct (Z.ltb_spec (len (z :: l0)) 1) as [Hc|]; [|done]. unfold len in Hc; simpl in Hc; lia. }
  rewrite Es. cbn [mbind res_bind]. rewrite fold_mul_wrap; [|by apply Forall_drop|lia|unfold k, product_from in Hfit; lia].
  change (fold_left Z.mul (drop 1 (leafHeights s)) 1) with k. cbv zeta.
  change (maxWavmOpcodes (WithMaxWavmOpcodesPerBlock k s)) with k.
  change (blockDivergenceHeight (WithMaxWavmOpcodesPerBlock k s)) with (blockDivergenceHeight s).
  change (machineDivergenceStep (WithMaxWavmOpcodesPerBlock k s)) with (machineDivergenceStep s).
  destruct (Z.eqb_spec k 0); [lia|].
  destruct ((0 <? blockDivergenceHeight s) && (machineDivergenceStep s =? 0)) eqn:Ed.
  { apply andb_prop in Ed as [E1%Z.ltb_lt E2%Z.eqb_eq]. by destruct (Hd E1). }
  change (numBatches (WithMaxWavmOpcodesPerBlock k s)) with n. change (stateRoots (WithMaxWavmOpcodesPerBlock k s)) with (stateRoots s).
  change (executionStates (WithMaxWavmOpcodesPerBlock k s)) with (executionStates s). rewrite F1, F2.
  assert (En : int64 n = n) by (unfold int64; destruct (Z.ltb_spec n 9223372036854775808); lia). rewrite En, Eq. done.
Qed.

End construction.

(** ** The honest backend *)

Section honest.
Context `{Hasher}.

(** A backend that runs the machine and does not diverge. *)
Record honest (b : L2StateBackend) : Prop := {
  h_blocks : blocks (numBatches b) (maxWavmOpcodes b) zero_state (executionStates b);
  h_roots : stateRoots b = state_root <$> executionStates b;
  h_machine : machineAtBlock b = simple_machine_at (executionStates b) (numBatches b);
  h_honest : blockDivergenceHeight b = 0 /\ forceMachineBlockCompat b = false;
  h_opcodes : maxWavmOpcodes b = product_from (leafHeights b) 1;
  h_heights : positive (leafHeights b) /\ product_from (leafHeights b) 1 < two64 - 1;
  h_batches : 0 <= numBatches b < 2 ^ 63;
  h_length : numBatches b + 1 <= len (executionStates b) < 2 ^ 63;
}.

Lemma NewForSimpleMachine_honest opts : config_ok opts ->
  blockDivergenceHeight (configured opts) = 0 -> forceMachineBlockCompat (configured opts) = false ->
  exists b, NewForSimpleMachine (Z.to_nat (stepsPerBatch * numBatches (configured opts) + 1)) opts = Ok b /\ honest b /\
    leafHeights b = leafHeights (configured opts) /\ numBatches b = numBatches (configured opts).
Proof.
  intros Hok Hd Hc. destruct (NewForSimpleMachine_runs opts Hok) as (l & rs & b & Hl & Hlen & Eb & -> & El & Hrs).
  assert (rs = l) as ->.
  { apply list_eq. intros i. destruct (l !! i) as [a|] eqn:Ea.
    - destruct (lookup_lt_is_Some_2 rs i) as [r Er]; [rewrite El; by eapply lookup_lt_Some|].
      rewrite Er. f_equal. by eapply records_honest, Hrs.
    - apply lookup_ge_None. apply lookup_ge_None in Ea. lia. }
  eexists. split; [exact Eb|]. split; [|done]. destruct Hok as [_ _ Hh _ _ [Hb0 Hb]].
  unfold stepsPerBatch in *. split; try done; cbn -[Z.pow]; lia.
Qed.

Variable b : L2StateBackend.
Hypothesis Hb : honest b.

Lemma opcodes_bound : 0 < maxWavmOpcodes b < two64 - 1.
Proof.
  rewrite (h_opcodes _ Hb). pose proof (product_from_pos (leafHeights b) 1 (proj1 (h_heights _ Hb))).
  pose proof (proj2 (h_heights _ Hb)). lia.
Qed.

Lemma states_ok : Forall (block_ok (numBatches b)) (executionStates b).
Proof.
  eapply blocks_ok; [exact opcodes_bound|exact (h_blocks _ Hb)|]. apply zero_block_ok. exact (h_batches _ Hb).
Qed.

(** The state at the start of a block, the last one for all later blocks. *)
Definition block_state (block : nat) : ExecutionState :=
  default zero_state (executionStates b !! Nat.min block (length (executionStates b) - 1)).

Definition machine_at (block : Z) : SimpleMachine := block_machine (numBatches b) (block_state (Z.to_nat block)).

Lemma states_nonempty : (0 < length (executionStates b))%nat.
Proof. pose proof (h_length _ Hb). pose proof (h_batches _ Hb). unfold len in *. lia. Qed.

Lemma block_state_lookup i :
  executionStates b !! Nat.min i (length (executionStates b) - 1) = Some (block_state i).
Proof.
  pose proof states_nonempty. unfold block_state.
  destruct (lookup_lt_is_Some_2 (executionStates b) (Nat.min i (length (executionStates b) - 1))) as [st ->]; [lia|done].
Qed.

Lemma machineAtBlock_eq block : machineAtBlock b block = Ok (machine_at block).
Proof.
  rewrite (h_machine _ Hb). unfold simple_machine_at, slice_at, machine_at. pose proof states_nonempty.
  pose proof (h_length _ Hb) as Hl. pose proof (block_state_lookup (Z.to_nat block)) as E. unfold len in *.
  change (2 ^ 63) with 9223372036854775808 in Hl.
  destruct (Z.leb_spec (Z.of_nat (length (executionStates b))) block).
  - rewrite u64_small by (unfold two64; lia). rewrite Nat.min_r in E by lia.
    replace (Z.to_nat (Z.of_nat (length (executionStates b)) - 1)) with (length (executionStates b) - 1)%nat by lia. by rewrite E.
  - rewrite Nat.min_l in E by lia. by rewrite E.
Qed.

Lemma machine_at_ok block : machine_ok (machine_at block).
Proof. destruct (Forall_lookup_1 _ _ _ _ states_ok (block_state_lookup (Z.to_nat block))). done. Qed.

(** The machine of a block, run for a whole block, is where the next block starts. *)
Lemma whole_block block : 0 <= block ->
  state (Step (maxWavmOpcodes b) (machine_at block)) = block_state (Z.to_nat (block + 1)).
Proof.
  intros Hblock. pose proof states_nonempty. pose proof (block_state_lookup (Z.to_nat block)) as E.
  replace (Z.to_nat (block + 1)) with (S (Z.to_nat block)) by lia.
  destruct (decide (S (Z.to_nat block) < length (executionStates b))%nat) as [Hlt|Hge].
  - destruct (blocks_step _ _ _ _ (h_blocks _ Hb) _ _ E) as [_ E']; [lia|].
    pose proof (block_state_lookup (S (Z.to_nat block))) as E''. rewrite Nat.min_l in E', E'' by lia.
    rewrite E' in E''. by injection E''.
  - destruct (blocks_end _ _ _ _ (h_blocks _ Hb)) as (a & Ha & Hend).
    assert (Eq : block_state (S (Z.to_nat block)) = block_state (Z.to_nat block))
      by (unfold block_state; by rewrite !Nat.min_r by lia).
    rewrite Eq. rewrite Nat.min_r, Ha in E by lia. injection E as ->.
    rewrite Step_stopped; [done|]. apply ends_stopped; [|done].
    apply (Forall_lookup_1 _ _ _ _ states_ok Ha).
Qed.

(** *** The collectors *)

Definition machine_hash (wasm fromBatch block opcode : Z) : Hash := MachineHash (Step opcode (machine_at block)).

Lemma getMachineHash_honest m block : getMachineHash b m block = Ok (MachineHash m).
Proof.
  destruct (h_honest _ Hb) as [E1 E2]. unfold getMachineHash, getMachineHash_diverged. by rewrite E1, E2.
Qed.

Lemma hashes_loop_eq j stepSize block : forall m hashes, 0 <= stepSize -> 0 <= step m ->
  step m + stepSize * Z.of_nat j < two64 ->
  hashes_loop j b stepSize block m hashes =
  Ok (hashes ++ ((fun i => MachineHash (Step (stepSize * Z.of_nat (S i)) m)) <$> seq 0 j)).
Proof.
  induction j as [|j IH]; intros m hashes Hs H0 Hlt; cbn [hashes_loop].
  { by rewrite app_nil_r. }
  rewrite getMachineHash_honest. cbn [mbind res_bind].
  pose proof (Step_num stepSize m Hs H0 ltac:(nia)) as Est.
  rewrite IH by lia. f_equal. rewrite <- app_assoc. f_equal. cbn [seq fmap list_fmap].
  rewrite <- fmap_S_seq, <- list_fmap_compose. cbn [app]. f_equal; [by rewrite Z.mul_1_r|].
  apply list_fmap_ext. intros i x Hx. apply lookup_seq in Hx as [-> Hi]. cbn [compose]. rewrite <- Step_add by nia.
  do 2 f_equal. lia.
Qed.

Lemma honest_collector pack sched : collector_spec (backend_provider pack sched b) machine_hash.
Proof.
  intros cfg H0 Hs Hn Hlt. cbn [Provider.CollectMachineHashes backend_provider]. unfold CollectMachineHashes.
  rewrite machineAtBlock_eq. cbn [mbind res_bind]. rewrite getMachineHash_honest. cbn [mbind res_bind].
  destruct (Step_ok (machine_at (Provider.BlockChallengeHeight cfg)) (MachineStartIndex cfg) (machine_at_ok _) H0)
    as [Hm Est]; [cbn; nia|]. cbn [step machine_at block_machine NewSimpleMachine] in Est.
  rewrite hashes_loop_eq by (rewrite ?Est; nia). f_equal.
  replace (Z.to_nat (NumDesiredHashes cfg)) with (S (Z.to_nat (NumDesiredHashes cfg - 1))) by lia.
  cbn [seq fmap list_fmap app]. rewrite <- fmap_S_seq, <- list_fmap_compose. f_equal.
  - unfold machine_hash. by rewrite Z.mul_0_r, Z.add_0_r.
  - apply list_fmap_ext. intros i x Hx. apply lookup_seq in Hx as [-> Hi]. cbn [compose]. unfold machine_hash.
    rewrite <- Step_add by (cbn [step machine_at block_machine NewSimpleMachine]; nia). done.
Qed.

(** *** States of blocks *)

Lemma states_loop_eq e st suf : blocks (numBatches b) (maxWavmOpcodes b) st suf ->
  forall pre states lst, executionStates b = pre ++ suf -> block_ok (numBatches b) st -> len (executionStates b) < two64 ->
  let l := take (Z.to_nat (e + 1 - len pre)) (state_root <$> suf) in
  states_loop b e (numBatches b) (len pre) (state_root <$> suf) states lst = Ok (states ++ l, default lst (list.last l)).
Proof.
  assert (Hne : (len (executionStates b) =? 0) = false) by (apply Z.eqb_neq; pose proof states_nonempty; unfold len; lia).
  assert (Hat : forall pre (st : ExecutionState) l, slice_at (pre ++ st :: l) (len pre) = Ok st).
  { intros pre st' l. unfold slice_at, len. by rewrite Nat2Z.id, list_lookup_middle. }
  induction 1 as [st He|st l He Hl IH]; intros pre states lst Ee Hok Hlt; cbn [fmap list_fmap states_loop]; cbv zeta;
    (destruct (Z.ltb_spec e (len pre)); [replace (Z.to_nat (e + 1 - len pre)) with 0%nat by lia; cbn; by rewrite app_nil_r|]).
  all: replace (Z.to_nat (e + 1 - len pre)) with (S (Z.to_nat (e + 1 - (len pre + 1)))) by lia; cbn [take].
  all: rewrite Hne; rewrite Ee at 1; rewrite Hat; cbn [mbind res_bind].
  - rewrite take_nil. apply ends_position in He as [E1 E2]; [|done]. rewrite E1, E2, Z.leb_refl, Z.ltb_irrefl. done.
  - pose proof He as He'. unfold ends in He'. apply orb_false_iff in He' as [_ ->].
    rewrite Ee in Hlt. unfold len in Hlt. rewrite length_app in Hlt. simpl in Hlt. rewrite u64_small by (unfold len; lia).
    specialize (IH (pre ++ [st]) (states ++ [state_root st]) (state_root st)). unfold len in IH |- *. rewrite length_app in IH.
    change (length [st]) with 1%nat in IH. rewrite Nat2Z.inj_add in IH. change (Z.of_nat 1) with 1 in IH. cbv zeta in IH.
    rewrite IH; [|by rewrite <- app_assoc|by apply (next_block_ok _ _ opcodes_bound st Hok He)|rewrite Ee, length_app; simpl; lia].
    rewrite <- app_assoc. cbn [app]. do 2 f_equal.
    destruct (take _ (state_root <$> l)) as [|x xs]; [done|]. cbn [list.last]. by destruct (list.last (x :: xs)) eqn:El; [|apply last_None in El].
Qed.

Definition block_leaf (block : nat) : Hash := state_root (block_state block).

Lemma block_leaf_lookup i : (state_root <$> executionStates b) !! Nat.min i (length (executionStates b) - 1) = Some (block_leaf i).
Proof. by rewrite list_lookup_fmap, block_state_lookup. Qed.

(** From the first batch to the last one the states of the blocks are listed up to the
    requested height, the last state as often as needed. *)
Lemma statesUpTo_eq e : 0 <= e < 2 ^ 63 - 1 ->
  statesUpTo b 0 e 0 (numBatches b) = Ok (block_leaf <$> seq 0 (Z.to_nat (e + 1))).
Proof.
  intros He. change (2 ^ 63 - 1) with 9223372036854775807 in He. unfold statesUpTo.
  pose proof (h_length _ Hb) as Hlen. change (2 ^ 63) with 9223372036854775808 in Hlen. pose proof states_nonempty.
  destruct (Z.ltb_spec e 0); [lia|].
  assert (Ef : list_find (fun st => Batch (GlobalState st) = 0) (executionStates b) = Some (0%nat, zero_state)).
  { pose proof (blocks_head _ _ _ _ (h_blocks _ Hb)) as E. destruct (executionStates b) as [|st l]; [done|]. by injection E as ->. }
  rewrite Ef. change (u64 (Z.of_nat 0 + 0)) with 0. rewrite Z.add_0_l, Z.sub_0_r, (u64_small e), (u64_small (e + 1)) by (unfold two64; lia).
  assert (Ei : int64 (e + 1) = e + 1) by (unfold int64; destruct (Z.ltb_spec (e + 1) 9223372036854775808); lia). rewrite Ei.
  rewrite drop_0, (h_roots _ Hb).
  pose proof (states_loop_eq e zero_state _ (h_blocks _ Hb) [] [] zero_hash eq_refl) as El. change (len []) with 0 in El.
  cbv zeta in El. rewrite Z.sub_0_r in El. rewrite El; [|apply zero_block_ok, (h_batches _ Hb)|unfold two64; lia]. clear El.
  cbn [mbind res_bind app]. f_equal. set (roots := state_root <$> executionStates b).
  assert (Hr : length roots = length (executionStates b)) by apply length_fmap.
  apply list_eq_same_length with (n := Z.to_nat (e + 1)).
  { by rewrite length_fmap, length_seq. }
  { unfold len. rewrite length_app, length_replicate, length_take. lia. }
  intros i x y Hi. rewrite fmap_seq_lookup by done. unfold block_leaf. intros Hx [= <-]. pose proof (block_leaf_lookup i) as Eb.
  fold roots in Eb. unfold block_leaf in Eb. destruct (decide (i < length roots)%nat) as [Hlt|Hge].
  - rewrite lookup_app_l, lookup_take_lt in Hx by (rewrite ?length_take; lia). rewrite Nat.min_l in Eb by lia. congruence.
  - rewrite take_ge in Hx by lia. rewrite lookup_app_r in Hx by lia. apply lookup_replicate in Hx as [Ex _].
    rewrite Nat.min_r in Eb by lia. rewrite last_lookup in Ex. replace (pred (length roots)) with (length (executionStates b) - 1)%nat in Ex by lia.
    rewrite Eb in Ex. by cbn in Ex.
Qed.

End honest.

(** ** What the honest backend promises *)

Section promises.
Context `{Hasher}.

Lemma heights_of_backend pack sched b : honest b -> heights_ok (backend_provider pack sched b).
Proof. intros Hb. exact (h_heights _ Hb). Qed.

(** A subchallenge of a block starts and ends with the states of the block and the next one. *)
Lemma block_endpoints pack sched b h e wasm leaf : honest b -> len (leafHeights b) < two64 -> leafHeights b !! 1%nat = Some leaf ->
  0 <= h < e -> e < 2 ^ 63 - 1 ->
  exists parent child first last,
  historyCommitmentImpl (backend_provider pack sched b) {|
    ReqWasmModuleRoot := wasm; FromBatch := 0; ToBatch := numBatches b;
    UpperChallengeOriginHeights := []; FromHeight := 0; UpToHeight := Some e |} = Ok parent /\
  historyCommitmentImpl (backend_provider pack sched b) {|
    ReqWasmModuleRoot := wasm; FromBatch := 0; ToBatch := numBatches b;
    UpperChallengeOriginHeights := [h]; FromHeight := 0; UpToHeight := None |} = Ok child /\
  child !! 0%nat = Some first /\ parent !! Z.to_nat h = Some first /\
  child !! (length child - 1)%nat = Some last /\ parent !! Z.to_nat (h + 1) = Some last.
Proof.
  intros Hb Hlen El Hh He. set (p := backend_provider pack sched b). pose proof (heights_of_backend pack sched b Hb) as Hok.
  fold p in Hok. set (req := {| ReqWasmModuleRoot := wasm; FromBatch := 0; ToBatch := numBatches b;
    UpperChallengeOriginHeights := [h]; FromHeight := 0; UpToHeight := None |}).
  pose proof (leaf_height_bound p 1 leaf Hok ltac:(lia) El) as Hleaf.
  assert (Hv : valid_request p req) by (split_and!; [done|done|by intros [|[|i]] x; try lia]).
  destruct (historyCommitmentImpl_succeeds p (machine_hash b) req h [] leaf Hok Hlen (honest_collector b Hb pack sched) Hv eq_refl El)
    as [child Ec]; [cbn; lia|].
  destruct (historyCommitmentImpl_spec p (machine_hash b) req h [] child Hok Hlen (honest_collector b Hb pack sched) Hv eq_refl Ec)
    as (leaf' & El' & _ & Echild). change (challengeLeafHeights p) with (leafHeights b) in El'. change (length [h]) with 1%nat in *.
  rewrite El in El'. injection El' as <-. cbn [UpToHeight FromHeight ReqWasmModuleRoot FromBatch req default] in Echild.
  exists (block_leaf b <$> seq 0 (Z.to_nat (e + 1))), child, (block_leaf b (Z.to_nat h)), (block_leaf b (Z.to_nat (h + 1))).
  assert (E0 : machine_index p [h] 0 = 0) by (unfold machine_index; cbn [app opcode_index_loop]; lia).
  split_and!; [|done| | | |].
  - unfold historyCommitmentImpl, validateOriginHeights. cbn [UpperChallengeOriginHeights].
    destruct (Z.ltb_spec (len (challengeLeafHeights p) - 1) (len (@nil Z))) as [Hc|_].
    { unfold p, len in Hc. apply lookup_lt_Some in El. simpl in Hc. lia. }
    cbn [mbind res_bind FromHeight UpToHeight FromBatch ToBatch]. unfold p. cbn [Provider.L2MessageStatesUpTo backend_provider].
    unfold L2MessageStatesUpTo. cbn [mbind res_bind]. apply statesUpTo_eq; [done|lia].
  - rewrite Echild, fmap_seq_lookup by (unfold id; lia). f_equal. rewrite E0, Z.mul_0_r. unfold machine_hash. done.
  - rewrite fmap_seq_lookup by lia. done.
  - rewrite Echild, length_fmap, length_seq, fmap_seq_lookup by (unfold id; lia). f_equal. unfold machine_hash, block_leaf.
    rewrite <- whole_block by (done || lia). unfold MachineHash, GetExecutionState, state_root. do 4 f_equal.
    rewrite (h_opcodes _ Hb), (product_from_cons _ _ _ El), E0. unfold step_of, id. cbn [challengeLeafHeights p backend_provider].
    replace (Z.of_nat (Z.to_nat (leaf - 0 + 1) - 1)) with leaf by lia. lia.
  - rewrite fmap_seq_lookup by lia. done.
Qed.

(** The origin of a subchallenge at any level. *)
Lemma level_endpoints pack sched b upper leaf leaf' h e wasm fb tb : honest b -> (upper = [] -> fb = 0 /\ tb = numBatches b) -> len (leafHeights b) < two64 ->
  let p := backend_provider pack sched b in
  origins_ok p upper -> leafHeights b !! length upper = Some leaf -> leafHeights b !! S (length upper) = Some leaf' ->
  0 <= h < e -> e <= leaf -> leaf < 2 ^ 63 - 1 ->
  exists parent child first last,
  historyCommitmentImpl p {|
    ReqWasmModuleRoot := wasm; FromBatch := fb; ToBatch := tb;
    UpperChallengeOriginHeights := upper; FromHeight := 0; UpToHeight := Some e |} = Ok parent /\
  historyCommitmentImpl p {|
    ReqWasmModuleRoot := wasm; FromBatch := fb; ToBatch := tb;
    UpperChallengeOriginHeights := upper ++ [h]; FromHeight := 0; UpToHeight := None |} = Ok child /\
  child !! 0%nat = Some first /\ parent !! Z.to_nat h = Some first /\
  child !! (length child - 1)%nat = Some last /\ parent !! Z.to_nat (h + 1) = Some last.
Proof.
  intros Hb Hbat Hlen p Hor El El' Hh He Hleaf. destruct upper as [|b0 rest].
  { destruct (Hbat eq_refl) as [-> ->]. apply (block_endpoints pack sched b h e wasm leaf'); try done; lia. }
  pose proof (heights_of_backend pack sched b Hb) as Hok. fold p in Hok. pose proof (honest_collector b Hb pack sched) as Hcol. fold p in Hcol.
  pose proof (leaf_height_bound p (S (length (b0 :: rest))) leaf' Hok ltac:(lia) El') as Hleaf'.
  destruct (historyCommitmentImpl_succeeds p (machine_hash b) {|
    ReqWasmModuleRoot := wasm; FromBatch := fb; ToBatch := tb;
    UpperChallengeOriginHeights := b0 :: rest; FromHeight := 0; UpToHeight := Some e |} b0 rest leaf Hok Hlen Hcol) as [parent Ep];
    [split_and!; [done|by intros ? [= <-]; lia|done]|done|done|cbn; lia|].
  destruct (historyCommitmentImpl_succeeds p (machine_hash b) {|
    ReqWasmModuleRoot := wasm; FromBatch := fb; ToBatch := tb;
    UpperChallengeOriginHeights := b0 :: rest ++ [h]; FromHeight := 0; UpToHeight := None |} b0 (rest ++ [h]) leaf' Hok Hlen Hcol) as [child Ec].
  { split_and!; [done|done|]. apply (origins_ok_snoc p (b0 :: rest) h leaf); [done|done|lia]. }
  { done. }
  { cbn [length] in El' |- *. rewrite length_app, Nat.add_1_r. exact El'. }
  { cbn. lia. }
  destruct (subchallenge_endpoints p (machine_hash b) wasm fb tb (b0 :: rest) h e parent child Hok Hlen Hcol)
    as (first & last & Hfl); try done. exists parent, child, first, last. done.
Qed.

(** The commitment of a level up to a height, and its last leaf. *)
Lemma commitment_at `{!HasherNonzero} pack sched b wasm fb tb b0 rest leaf e : honest b -> len (leafHeights b) < two64 ->
  let p := backend_provider pack sched b in
  schedules_ok p -> origins_ok p (b0 :: rest) -> leafHeights b !! length (b0 :: rest) = Some leaf -> 0 <= e <= leaf ->
  exists c, HistoryCommitment p {|
    ReqWasmModuleRoot := wasm; FromBatch := fb; ToBatch := tb;
    UpperChallengeOriginHeights := b0 :: rest; FromHeight := 0; UpToHeight := Some e |} = Ok c /\
  Height c = e /\ LastLeaf c = MachineHash (Step (machine_index p (b0 :: rest) e) (machine_at b b0)) /\
  CalculateRootFromProof (LastLeafProof c) e (LastLeaf c) = Ok (Merkle c).
Proof.
  intros Hb Hlen p Hs Hor El He. pose proof (heights_of_backend pack sched b Hb) as Hok. fold p in Hok.
  pose proof (honest_collector b Hb pack sched) as Hcol. fold p in Hcol.
  set (req := {| ReqWasmModuleRoot := wasm; FromBatch := fb; ToBatch := tb;
    UpperChallengeOriginHeights := b0 :: rest; FromHeight := 0; UpToHeight := Some e |}).
  assert (Hv : valid_request p req) by (split_and!; [done|by intros ? [= <-]; lia|done]).
  destruct (historyCommitmentImpl_succeeds p (machine_hash b) req b0 rest leaf Hok Hlen Hcol Hv eq_refl El) as [hs Ehs]; [cbn; lia|].
  destruct (historyCommitmentImpl_spec p (machine_hash b) req b0 rest hs Hok Hlen Hcol Hv eq_refl Ehs) as (lf & Elf & Hr & Eq).
  cbn [UpToHeight FromHeight default req id] in Eq, Hr.
  pose proof (leaf_height_bound p (length (b0 :: rest)) leaf Hok ltac:(simpl; lia) El) as Hleaf.
  assert (Hl : length hs = Z.to_nat (e - 0 + 1)) by (rewrite Eq, length_fmap, length_seq; done).
  destruct (New_commitment_spec p hs Hs) as (c & Ec & Hc); [intros ->; simpl in Hl; lia|unfold len; lia|].
  assert (Eh : HistoryCommitment p req = Ok c) by (unfold HistoryCommitment; rewrite Ehs; exact Ec).
  exists c. split; [done|].
  destruct (HistoryCommitment_leaves p (machine_hash b) req b0 rest c Hok Hlen Hcol Hs Hv eq_refl eq_refl Eh) as (lf2 & _ & _ & E2 & _ & E3).
  cbn [UpToHeight default req id] in E2, E3. split_and!; [done|exact E3|].
  destruct Hc as (_ & _ & _ & _ & _ & Hc). by rewrite E2 in Hc.
Qed.

(** The data for a one step proof of the last level. *)
Lemma one_step_data `{!HasherNonzero} pack sched b wasm fb tb b0 rest leaf k : honest b -> len (leafHeights b) < two64 ->
  let p := backend_provider pack sched b in
  schedules_ok p -> origins_ok p (b0 :: rest) -> S (length (b0 :: rest)) = length (leafHeights b) ->
  leafHeights b !! length (b0 :: rest) = Some leaf -> 0 <= k < leaf ->
  let m := Step (machine_index p (b0 :: rest) k) (machine_at b b0) in
  exists c1 c2,
  OneStepProofData p wasm fb tb (b0 :: rest) 0 k =
    Ok ({| BeforeHash := MachineHash m; AfterHash := MachineHash (Step 1 m); OneStepProof := MachineOneStepProof m |},
        LastLeafProof c1, LastLeafProof c2) /\
  (forall e c, (e = k /\ c = c1) \/ (e = k + 1 /\ c = c2) -> HistoryCommitment p {|
    ReqWasmModuleRoot := wasm; FromBatch := fb; ToBatch := tb;
    UpperChallengeOriginHeights := b0 :: rest; FromHeight := 0; UpToHeight := Some e |} = Ok c) /\
  CalculateRootFromProof (LastLeafProof c1) k (MachineHash m) = Ok (Merkle c1) /\
  CalculateRootFromProof (LastLeafProof c2) (k + 1) (MachineHash (Step 1 m)) = Ok (Merkle c2) /\
  machine_ok m /\ step m = machine_index p (b0 :: rest) k /\ step m + 1 < two64 /\ k <= step m.
Proof.
  intros Hb Hlen p Hs Hor Hlev El Hk m. pose proof (heights_of_backend pack sched b Hb) as Hok. fold p in Hok.
  assert (Hclh : challengeLeafHeights p <> []) by (unfold p; cbn; by intros E; rewrite E in El).
  pose proof (leaf_height_bound p (length (b0 :: rest)) leaf Hok ltac:(simpl; lia) El) as Hleaf.
  assert (Est : step_of p (length (b0 :: rest)) = 1) by (unfold step_of, p; cbn [challengeLeafHeights backend_provider]; apply product_from_end; lia).
  pose proof (machine_index_bound p (b0 :: rest) k leaf Hok ltac:(done) Hor El ltac:(lia)) as B1.
  pose proof (machine_index_bound p (b0 :: rest) 0 leaf Hok ltac:(done) Hor El ltac:(lia)) as B0.
  pose proof (machine_index_step p (b0 :: rest) k ltac:(done) Hclh) as Ek. rewrite Est in Ek. pose proof (proj2 Hok) as Hfit.
  assert (Ek1 : machine_index p (b0 :: rest) (k + 1) = machine_index p (b0 :: rest) k + 1).
  { rewrite (machine_index_step p _ (k + 1)), Est by done. lia. }
  destruct (Step_ok (machine_at b b0) (machine_index p (b0 :: rest) k)) as [Hm Enum]; [by apply machine_at_ok|lia|change (step (machine_at b b0)) with 0; lia|].
  cbn [step machine_at block_machine NewSimpleMachine Z.add] in Enum. fold m in Hm, Enum.
  destruct (commitment_at pack sched b wasm fb tb b0 rest leaf k Hb Hlen Hs Hor El ltac:(lia)) as (c1 & Ec1 & _ & L1 & P1).
  destruct (commitment_at pack sched b wasm fb tb b0 rest leaf (k + 1) Hb Hlen Hs Hor El ltac:(lia)) as (c2 & Ec2 & _ & L2 & P2).
  fold p in L1, L2, Ec1, Ec2. fold m in L1. rewrite Ek1, Step_add in L2 by (change (step (machine_at b b0)) with 0; lia). fold m in L2. rewrite L1 in P1. rewrite L2 in P2.
  exists c1, c2. split_and!; try done; try lia.
  - unfold OneStepProofData. rewrite (u64_small (k + 1)) by lia. rewrite Ec2. cbn [mbind res_bind]. rewrite Ec1. cbn [mbind res_bind].
    rewrite (proj2 (computeMachineStartIndex_spec p (b0 :: rest) 0 (machine_index p (b0 :: rest) 0))).
    2: { split; [done|]. split; [unfold is_u64; lia|by right]. }
    cbn [mbind res_bind]. rewrite u64_small by lia. replace (machine_index p (b0 :: rest) 0 + k) with (machine_index p (b0 :: rest) k) by lia.
    unfold p. cbn [Provider.CollectProof backend_provider]. unfold CollectProof. rewrite machineAtBlock_eq by done. cbn [mbind res_bind].
    by rewrite L1, L2.
  - intros e c [[-> ->]|[-> ->]]; done.
Qed.

End promises.

(** ** Theorems about backends *)

Section claims.
Context `{Hasher}.

Lemma blocks_det n k st l l' : blocks n k st l -> blocks n k st l' -> l = l'.
Proof.
  intros Hl. revert l'. induction Hl as [st He|st l He _ IH]; intros l' Hl'; inversion Hl'; subst; try congruence.
  f_equal. by apply IH.
Qed.

Lemma blocks_find n k st l : 0 < k < two64 - 1 -> blocks n k st l -> block_ok n st -> forall c, Batch (GlobalState st) < c <= n ->
  exists i a, list_find (fun x => Batch (GlobalState x) = c) l = Some (i, a) /\ Batch (GlobalState a) = c /\
    PosInBatch (GlobalState a) = 0 /\ MachineStatus a = MachineStatusFinished.
Proof.
  intros Hk Hl. induction Hl as [st He|st l He Hl IH]; intros Hok c Hc.
  { apply ends_position in He as [E _]; [|done]. lia. }
  destruct (next_block_ok n k Hk st Hok He) as (Hok' & _ & Hsn). cbn [list_find]. rewrite decide_False by lia.
  set (st' := state (Step k (block_machine n st))) in *.
  destruct (decide (Batch (GlobalState st') = c)) as [E|E].
  - destruct Hsn as [E'|(_ & E0 & Ef)]; [lia|]. pose proof (blocks_head _ _ _ _ Hl) as Eh.
    destruct l as [|x l]; [done|]. injection Eh as ->. cbn [list_find]. rewrite decide_True by done. cbn. by eexists _, _.
  - destruct (IH Hok' c) as (i & a & Ei & Ha).
    { destruct Hsn as [E'|[E' _]]; lia. }
    rewrite Ei. cbn. by eexists _, _.
Qed.

(** The state of the chain at the start of a batch. *)
Definition batch_state (batch : Z) : ExecutionState := {|
  GlobalState := {| BlockHash := zero_hash; SendRoot := zero_hash; Batch := batch; PosInBatch := 0 |};
  MachineStatus := MachineStatusFinished |}.

Lemma honest_batches b c : honest b -> 0 <= c <= numBatches b ->
  ExecutionStateAfterBatchCount b c = Ok (batch_state c) /\ AgreesWithExecutionState b (batch_state c) = Ok tt.
Proof.
  intros Hb Hc. pose proof (h_length _ Hb) as Hlen.
  assert (Hf : exists i, list_find (fun x => Batch (GlobalState x) = c) (executionStates b) = Some (i, batch_state c)).
  { destruct (Z.eq_dec c 0) as [->|Hn].
    - pose proof (blocks_head _ _ _ _ (h_blocks _ Hb)) as E. destruct (executionStates b) as [|st l]; [done|].
      injection E as ->. by exists 0%nat.
    - destruct (blocks_find _ _ _ _ (opcodes_bound b Hb) (h_blocks _ Hb) (zero_block_ok _ (h_batches _ Hb)) c)
        as (i & a & Ei & E1 & E2 & E3); [cbn; lia|]. exists i. rewrite Ei. do 2 f_equal.
      apply list_find_Some in Ei as (Ea & _). destruct (Forall_lookup_1 _ _ _ _ (states_ok b Hb) Ea) as [Hm _].
      pose proof (state_parts _ Hm) as Es. destruct a as [gs ms]. cbn in *. unfold batch_state. by rewrite Es, E1, E2, E3. }
  destruct Hf as [i Ei]. split.
  - unfold ExecutionStateAfterBatchCount. destruct (Z.eqb_spec (len (executionStates b)) 0); [lia|].
    destruct (Z.leb_spec (len (executionStates b)) c); [lia|]. by rewrite Ei.
  - unfold AgreesWithExecutionState. assert (E : existsb (fun r => Equals r (batch_state c)) (executionStates b) = true).
    { apply existsb_exists. exists (batch_state c). apply list_find_Some in Ei as (Ea & _). apply list_elem_of_lookup_2 in Ea.
      split; [by apply list_elem_of_In|]. unfold Equals, GlobalEquals. by rewrite Z.eqb_refl, bool_decide_true. }
    by rewrite E.
Qed.

(** (C23) The construction of an honest backend ends: for positive heights whose product fits in a
    [uint64] and a number of batches such that their steps are an [int64],
    [NewForSimpleMachine] returns a backend after at most one block per step, and for every
    number of batches up to the one configured [ExecutionStateAfterBatchCount] finds the state at the
    start of the next batch, a state that [AgreesWithExecutionState] accepts. *)
Theorem honest_backend_built opts : config_ok opts ->
  blockDivergenceHeight (configured opts) = 0 -> forceMachineBlockCompat (configured opts) = false ->
  let n := numBatches (configured opts) in
  exists b, NewForSimpleMachine (Z.to_nat (stepsPerBatch * n + 1)) opts = Ok b /\
    n + 1 <= len (executionStates b) <= stepsPerBatch * n + 1 /\
    forall c, 0 <= c <= n ->
      ExecutionStateAfterBatchCount b c = Ok (batch_state c) /\ AgreesWithExecutionState b (batch_state c) = Ok tt.
Proof.
  intros Hok Hd Hc n. destruct (NewForSimpleMachine_honest opts Hok Hd Hc) as (b & Eb & Hb & _ & En).
  destruct (NewForSimpleMachine_runs opts Hok) as (l & rs & b' & _ & Hlen & Eb' & E & El & _).
  rewrite Eb in Eb'. injection Eb' as <-. exists b. split; [done|]. split.
  - rewrite E. cbn [executionStates WithMachineAtBlockProvider with_roots]. unfold len in *. by rewrite El.
  - intros c Hcn. apply honest_batches; [done|]. unfold n in Hcn. lia.
Qed.

Lemma state_root_hash `{!HasherInjective} st st' : state_root st = state_root st' ->
  BlockHash (GlobalState st) = BlockHash (GlobalState st').
Proof. unfold state_root, GlobalHash. intros E%keccak_inj. congruence. Qed.

(** A diverging backend disagrees from its divergence height on: built with the same
    heights and number of batches as an honest one, a backend with a divergence height ends its
    blocks where the honest one does, and its state root of a block is that of the honest
    backend exactly if the block is below the divergence height. *)
Theorem backends_diverge `{!HasherInjective} opts opts' :
  config_ok opts -> config_ok opts' ->
  blockDivergenceHeight (configured opts) = 0 -> 0 < blockDivergenceHeight (configured opts') ->
  leafHeights (configured opts) = leafHeights (configured opts') -> numBatches (configured opts) = numBatches (configured opts') ->
  let fuel := Z.to_nat (stepsPerBatch * numBatches (configured opts) + 1) in
  exists b b', NewForSimpleMachine fuel opts = Ok b /\ NewForSimpleMachine fuel opts' = Ok b' /\
    length (stateRoots b) = length (stateRoots b') /\
    forall i r r', stateRoots b !! i = Some r -> stateRoots b' !! i = Some r' ->
      (r = r' <-> Z.of_nat i < blockDivergenceHeight (configured opts')).
Proof.
  intros Hok Hok' Hd Hd' Eh En fuel.
  destruct (NewForSimpleMachine_runs opts Hok) as (l & rs & b & Hl & Hlen & Eb & -> & El & Hrs).
  destruct (NewForSimpleMachine_runs opts' Hok') as (l' & rs' & b' & Hl' & _ & Eb' & -> & El' & Hrs').
  unfold block_opcodes in Hl, Hl'. rewrite Eh, En in Hl. pose proof (blocks_det _ _ _ _ _ Hl Hl') as <-.
  eexists _, _. split; [exact Eb|]. unfold fuel. rewrite En. split; [exact Eb'|].
  cbn [stateRoots WithMachineAtBlockProvider with_roots]. rewrite !length_fmap. split; [congruence|].
  intros i r r'. rewrite !list_lookup_fmap. intros (st & Est & ->)%fmap_Some (st' & Est' & ->)%fmap_Some.
  destruct (lookup_lt_is_Some_2 l i) as [a Ea]; [rewrite <- El; by eapply lookup_lt_Some|].
  pose proof (Hrs _ _ _ Ea Est) as Hr. apply records_honest in Hr as ->; [|done].
  pose proof (Hrs' _ _ _ Ea Est') as Hr'. unfold records in Hr'. rewrite (proj2 (Z.ltb_lt _ _) Hd') in Hr'. cbn [andb] in Hr'.
  destruct (Z.leb_spec (blockDivergenceHeight (configured opts')) (Z.of_nat i)) as [Hge|Hlt]; [|by subst].
  split; [|lia]. intros E%state_root_hash. exfalso. destruct Hr' as [Hne _]. apply Hne. rewrite <- E.
  destruct Hok' as [_ _ [Hp Hf] _ _ [Hb0 Hb]].
  assert (Hall : Forall (block_ok (numBatches (configured opts'))) l).
  { eapply blocks_ok; [|exact Hl|].
    - split; [by apply product_from_pos|exact Hf].
    - apply zero_block_ok. unfold stepsPerBatch in Hb. lia. }
  destruct (Forall_lookup_1 _ _ _ _ Hall Ea) as [Hm _]. apply (ok_words _ Hm).
Qed.

(** (C22) The commitments of an honest backend agree across all challenge levels: at every level above
    the last, both the commitment of the level up to a height and the full commitment of the
    subchallenge opened at a height below it are computed, the first leaf of the subchallenge is
    the leaf at that height and its last leaf the one after it.  Between the levels of the machine this
    holds whatever batches the challenge is from and to; between the level of the blocks and
    the one below it holds for the challenge of all batches, from the first to the last. *)
Theorem honest_levels_agree opts pack sched upper leaf leaf' h e wasm fromBatch toBatch :
  config_ok opts -> blockDivergenceHeight (configured opts) = 0 -> forceMachineBlockCompat (configured opts) = false ->
  let n := numBatches (configured opts) in
  let levels := leafHeights (configured opts) in
  (upper = [] -> fromBatch = 0 /\ toBatch = n) ->
  len levels < two64 -> levels !! length upper = Some leaf -> levels !! S (length upper) = Some leaf' ->
  (forall i x, (1 <= i)%nat -> upper !! i = Some x -> exists l, levels !! i = Some l /\ 0 <= x < l) ->
  0 <= h < e -> e <= leaf -> leaf < 2 ^ 63 - 1 ->
  exists b parent child first last, NewForSimpleMachine (Z.to_nat (stepsPerBatch * n + 1)) opts = Ok b /\
  historyCommitmentImpl (backend_provider pack sched b) {|
    ReqWasmModuleRoot := wasm; FromBatch := fromBatch; ToBatch := toBatch;
    UpperChallengeOriginHeights := upper; FromHeight := 0; UpToHeight := Some e |} = Ok parent /\
  historyCommitmentImpl (backend_provider pack sched b) {|
    ReqWasmModuleRoot := wasm; FromBatch := fromBatch; ToBatch := toBatch;
    UpperChallengeOriginHeights := upper ++ [h]; FromHeight := 0; UpToHeight := None |} = Ok child /\
  child !! 0%nat = Some first /\ parent !! Z.to_nat h = Some first /\
  child !! (length child - 1)%nat = Some last /\ parent !! Z.to_nat (h + 1) = Some last.
Proof.
  intros Hok Hd Hc n levels Hbat Hlen El El' Hor Hh He Hleaf.
  destruct (NewForSimpleMachine_honest opts Hok Hd Hc) as (b & Eb & Hb & Ev & En). fold n in En. fold levels in Ev.
  destruct (level_endpoints pack sched b upper leaf leaf' h e wasm fromBatch toBatch Hb) as (parent & child & first & last & Hfl);
    try (by rewrite Ev); try done.
  { by rewrite En. }
  { intros i x Hi Hx. cbn [challengeLeafHeights backend_provider]. rewrite Ev. by apply Hor. }
  exists b, parent, child, first, last. split; [exact Eb|exact Hfl].
Qed.

Import EdgeChallengeManagerLib.
#[local] Existing Instance SimpleOneStepProofEntry.

(** The entry of the challenge manager: with the configuration of the assertion of the challenge it passes the
    proof on to the store. *)
Lemma confirmation_enters `{AbiDecode} {R T} `{IAssertionChain R} `{IERC20 T} this now me (w : World R T) i a cfg h proof before after s' :
  EdgeChallengeManager.getPrevAssertionHash w i = Ok a -> validateConfig (rollup w) a cfg = Ok tt ->
  confirmEdgeByOneStepProof now i h proof {| MaxInboxMessagesRead := NextInboxPosition cfg; CtxBridge := bridge (rollup w);
    InitialWasmModuleRoot := CfgWasmModuleRoot cfg |} before after (NUM_BIGSTEP_LEVEL (settings w)) (store w) = (Ok tt, s') ->
  exists w', EdgeChallengeManager.run this now me (EdgeChallengeManager.ConfirmEdgeByOneStepProof i h proof cfg before after) w = (Ok tt, w') /\
    store w' = s'.
Proof.
  intros Ha Hv Hc. cbn [EdgeChallengeManager.run]. unfold EdgeChallengeManager.confirmEdgeByOneStepProof, mbind, M_bind, get, lift.
  unfold EdgeChallengeManager.getPrevAssertionHash in Ha. rewrite Ha, Hv. unfold EdgeChallengeManager.on_store. rewrite Hc.
  eexists. split; [reflexivity|done].
Qed.

(** (C21) The one step proofs of an honest backend are accepted by the contract: at every height
    of the last challenge level, whatever batches the challenge is from and to, the provider of the backend computes the two commitments and the
    data of the proof; and the transaction the validator sends with this data confirms
    a pending small step edge with these commitments, provided that no rival of it is confirmed, that the
    transaction carries the configuration of the assertion the challenge is about, that the inbox limit of
    that configuration and the number of batches of the backend agree on whether the batch of the
    machine at the step may be read, and
    that the machine has not stopped with batches left to read at the
    start of a small step challenge that is not the first one of the block. *)
Theorem honest_step_confirmed `{!HasherNonzero} `{AbiDecode} {R T} `{IAssertionChain R} `{IERC20 T}
    opts pack sched wasm fromBatch toBatch b0 rest leaf k :
  config_ok opts -> blockDivergenceHeight (configured opts) = 0 -> forceMachineBlockCompat (configured opts) = false ->
  let n := numBatches (configured opts) in
  let levels := leafHeights (configured opts) in
  len levels < two64 -> (forall j, valid_schedule j (sched j)) -> S (length (b0 :: rest)) = length levels ->
  levels !! length (b0 :: rest) = Some leaf ->
  (forall i x, (1 <= i)%nat -> (b0 :: rest) !! i = Some x -> exists l, levels !! i = Some l /\ 0 <= x < l) ->
  0 <= k < leaf ->
  exists b m0 before after c1 c2, NewForSimpleMachine (Z.to_nat (stepsPerBatch * n + 1)) opts = Ok b /\
  machineAtBlock b b0 = Ok m0 /\
  let p := backend_provider pack sched b in
  let request e := {| ReqWasmModuleRoot := wasm; FromBatch := fromBatch; ToBatch := toBatch;
    UpperChallengeOriginHeights := b0 :: rest; FromHeight := 0; UpToHeight := Some e |} in
  let m := Step (machine_index p (b0 :: rest) k) m0 in
  HistoryCommitment p (request k) = Ok c1 /\ HistoryCommitment p (request (k + 1)) = Ok c2 /\
  OneStepProofData p wasm fromBatch toBatch (b0 :: rest) 0 k =
    Ok ({| BeforeHash := MachineHash m; AfterHash := MachineHash (Step 1 m); OneStepProof := MachineOneStepProof m |},
        before, after) /\
  forall this now me (w : World R T) i e a cfg,
    edges (store w) !! i = Some e -> ChallengeEdgeLib.exists_ e = true ->
    ChallengeEdgeLib.levelToType (EdgeLevel e) (NUM_BIGSTEP_LEVEL (settings w)) = Ok ChallengeEdgeLib.SmallStep ->
    StartHeight e = k -> EndHeight e = k + 1 -> StartHistoryRoot e = Merkle c1 -> EndHistoryRoot e = Merkle c2 ->
    ContractStatus e = EdgePending -> confirmedRival_at (store w) (ChallengeEdgeLib.mutualId e) = 0 ->
    EdgeChallengeManager.getPrevAssertionHash w i = Ok a -> validateConfig (rollup w) a cfg = Ok tt ->
    let batch := Batch (GlobalState (state m)) in
    (batch < NextInboxPosition cfg <-> batch < n) ->
    0 < k \/ step m = 0 \/ IsStopped m = false \/ n <= batch ->
    exists w' e', EdgeChallengeManager.run this now me
        (EdgeChallengeManager.ConfirmEdgeByOneStepProof i (MachineHash m) (MachineOneStepProof m) cfg before after) w = (Ok tt, w') /\
      edges (store w') !! i = Some e' /\ ContractStatus e' = EdgeConfirmed.
Proof.
  intros Hok Hd Hc n levels Hlen Hs Hlev El Hor Hk.
  destruct (NewForSimpleMachine_honest opts Hok Hd Hc) as (b & Eb & Hb & Ev & En). fold n in En. fold levels in Ev.
  destruct (one_step_data pack sched b wasm fromBatch toBatch b0 rest leaf k Hb) as (c1 & c2 & Ed & Ec & P1 & P2 & Hm & Est & Hlt & Hge);
    try (by rewrite Ev); try done.
  { intros i x Hi Hx. cbn [challengeLeafHeights backend_provider]. rewrite Ev. by apply Hor. }
  exists b, (machine_at b b0), (LastLeafProof c1), (LastLeafProof c2), c1, c2.
  split; [exact Eb|]. split; [by apply machineAtBlock_eq|]. intros p request m. fold p in Ed, Ec, P1, P2, Hm, Est, Hlt, Hge.
  fold m in Ed, P1, P2, Hm, Est, Hlt, Hge.
  split; [apply Ec; by left|]. split; [apply Ec; by right|]. split; [exact Ed|].
  intros this now me w i e a cfg Hi Hx Ht Hst Hen Hr1 Hr2 Hpe Hcr Ha Hv batch Hlim Hcond. pose proof (ok_steps _ Hm).
  assert (Hleft : batches_left m = (batch <? n)) by (unfold batches_left, m; rewrite Step_limit; cbn; by rewrite En).
  assert (Hku : is_u64 k) by (unfold is_u64; lia).
  edestruct (one_step_confirms now i e (store w) (NUM_BIGSTEP_LEVEL (settings w)) (MachineHash m) (MachineOneStepProof m)
    {| MaxInboxMessagesRead := NextInboxPosition cfg; CtxBridge := bridge (rollup w);
       InitialWasmModuleRoot := CfgWasmModuleRoot cfg |} (LastLeafProof c1) (LastLeafProof c2) (MachineHash (Step 1 m)))
    as (s' & e' & E & Hi' & Hcf); rewrite ?Hst, ?Hen, ?Hr1, ?Hr2; try done.
  - by apply verifyInclusionProof_go.
  - apply proveOneStep_at; [done|done| |].
    { unfold limit_agrees. rewrite Hleft. cbn [MaxInboxMessagesRead]. fold batch.
      destruct (Z.ltb_spec batch (NextInboxPosition cfg)), (Z.ltb_spec batch n); done || lia. }
    destruct (Z.ltb_spec 0 k); [left; symmetry; apply Z.ltb_lt; lia|]. assert (k = 0) as -> by lia.
    destruct Hcond as [?|[E0|[Hns|Hl]]]; [lia|left; by rewrite E0|right; by left|right; right].
    rewrite Hleft. by apply Z.ltb_ge.
  - apply verifyInclusionProof_go; [unfold is_u64; lia|done].
  - destruct (confirmation_enters this now me w i a cfg _ _ _ _ s' Ha Hv E) as (w' & Er & <-). by exists w', e'.
Qed.

End claims.

(** ** Examples *)

Module ToyBackend.

Definition heights : LayerZeroHeights := {|
  Chain.BlockChallengeHeight := 256; BigStepChallengeHeight := 4; SmallStepChallengeHeight := 4 |}.
Definition opts : list Opt := [WithLayerZeroHeights heights 1; WithNumBatchesRead 2].
Definition evil : list Opt := opts ++ [WithBlockDivergenceHeight 3; WithMachineDivergenceStep 5; WithDivergentBlockHeightOffset (-1)].
Definition pack (a b : list Hash) : res (list Z) := Ok (a ++ b).

Lemma opts_ok : config_ok opts.
Proof. split; try done. by split; [repeat constructor|]. Qed.

Lemma evil_ok : config_ok evil.
Proof. split; try done. by split; [repeat constructor|]. Qed.

Lemma sched_ok j : valid_schedule j (seq 0 j).
Proof. exists 1%nat. split; [lia|]. by rewrite worker_writes_cover by lia. Qed.

(** A challenge manager with an edge of the small step level, whose challenge goes back through
    the rivaled edges 2 and 3 to the assertion 500. *)
Definition decoder : AbiDecode := {|
  decodePrefixProof _ := Err (ErrNew "no data"); decodeBlockProof _ := Err (ErrNew "no data");
  decodeSubchallengeProof _ := Err (ErrNew "no data") |}.
Definition config : ConfigData := {| CfgWasmModuleRoot := 7; CfgRequiredStake := 1; CfgChallengeManager := 9;
  CfgConfirmPeriodBlocks := 100; NextInboxPosition := 2 |}.
Definition assertions : IAssertionChain unit := {|
  validateAssertionHash _ _ _ _ _ := Ok tt; isPending _ _ := Ok true; isFirstChild _ _ := Ok true;
  getFirstChildCreationBlock _ _ := Ok 3; getSecondChildCreationBlock _ _ := Ok 8;
  validateConfig _ h cfg := if (h =? 500) && (NextInboxPosition cfg =? 2) then Ok tt else Err (ErrNew "CONFIG_HASH");
  bridge _ := 6 |}.
Definition tokens : IERC20 unit := {|
  balanceOf _ _ := 0; safeTransferFrom t _ _ _ := Ok t; safeTransfer t _ _ := Ok t |}.
Definition edge_of_level (level origin start : Z) (r1 r2 : Hash) : ChallengeEdge := {|
  EdgeOriginId := origin; StartHistoryRoot := r1; StartHeight := start; EndHistoryRoot := r2; EndHeight := start + 1;
  LowerChildId := 0; UpperChildId := 0; EdgeClaimId := 0; Staker := 0; EdgeCreatedAtBlock := 5;
  EdgeConfirmedAtBlock := 0; ContractStatus := EdgePending; EdgeLevel := level; Refunded := false |}.
Definition step_edge : Hash -> Hash -> ChallengeEdge := edge_of_level 2 20 2.
Definition world (r1 r2 : Hash) : World unit unit := {|
  settings := {| initialized := true; excessStakeReceiver := 4; stakeToken := 0; stakeAmount := 0; challengePeriodBlocks := 20;
    assertionChain := 8; oneStepProofEntry := 3; LAYERZERO_BLOCKEDGE_HEIGHT := 256; LAYERZERO_BIGSTEPEDGE_HEIGHT := 4;
    LAYERZERO_SMALLSTEPEDGE_HEIGHT := 4; NUM_BIGSTEP_LEVEL := 1 |};
  store := {| edges := <[1 := step_edge r1 r2]> (<[2 := edge_of_level 1 30 3 0 0]> {[3 := edge_of_level 0 500 150 0 0]});
    firstRivals := <[20 := 2]> {[30 := 3]}; confirmedRivals := ∅ |};
  rollup := tt; token := tt; emitted := [] |}.

(** A configuration in which every batch is one block. *)
Definition small : list Opt := [WithLayerZeroHeights {| Chain.BlockChallengeHeight := 4; BigStepChallengeHeight := 64;
  SmallStepChallengeHeight := 64 |} 1; WithNumBatchesRead 2].

End ToyBackend.

Lemma honest_backend_built_witness :
  let H : Hasher := toy_keccak in
  exists b, NewForSimpleMachine (Z.to_nat 4001) ToyBackend.opts = Ok b /\
    ExecutionStateAfterBatchCount b 2 = Ok (batch_state 2).
Proof.
  intros H. destruct (@honest_backend_built toy_keccak ToyBackend.opts ToyBackend.opts_ok eq_refl eq_refl) as (b & Eb & _ & Hb).
  exists b. split; [exact Eb|]. apply Hb. vm_compute. split; discriminate.
Defined.

Lemma backends_diverge_witness :
  let H : Hasher := toy_keccak in
  exists b b', NewForSimpleMachine (Z.to_nat 4001) ToyBackend.opts = Ok b /\
    NewForSimpleMachine (Z.to_nat 4001) ToyBackend.evil = Ok b' /\
    forall i r r', stateRoots b !! i = Some r -> stateRoots b' !! i = Some r' -> (r = r' <-> Z.of_nat i < 3).
Proof.
  intros H. destruct (@backends_diverge toy_keccak toy_injective ToyBackend.opts ToyBackend.evil ToyBackend.opts_ok ToyBackend.evil_ok)
    as (b & b' & Eb & Eb' & _ & Hd); [done..|].
  exists b, b'. split; [exact Eb|]. split; [exact Eb'|exact Hd].
Defined.

Lemma honest_levels_agree_witness :
  let H : Hasher := toy_keccak in
  exists b parent child first, NewForSimpleMachine (Z.to_nat 4001) ToyBackend.opts = Ok b /\
  historyCommitmentImpl (backend_provider ToyBackend.pack (seq 0) b) {|
    ReqWasmModuleRoot := 7; FromBatch := 0; ToBatch := 2;
    UpperChallengeOriginHeights := []; FromHeight := 0; UpToHeight := Some 200 |} = Ok parent /\
  historyCommitmentImpl (backend_provider ToyBackend.pack (seq 0) b) {|
    ReqWasmModuleRoot := 7; FromBatch := 0; ToBatch := 2;
    UpperChallengeOriginHeights := [150]; FromHeight := 0; UpToHeight := None |} = Ok child /\
  child !! 0%nat = Some first /\ parent !! 150%nat = Some first.
Proof.
  intros H. destruct (@honest_levels_agree toy_keccak ToyBackend.opts ToyBackend.pack (seq 0) [] 256 4 150 200 7 0 2 ToyBackend.opts_ok)
    as (b & parent & child & first & last & Eb & Ep & Ec & E1 & E2 & _); [done..|].
  exists b, parent, child, first. split; [exact Eb|]. split; [exact Ep|]. split; [exact Ec|]. split; [exact E1|exact E2].
Defined.

(** The honest edge of the third small step of a small step challenge of block 150, below the
    rivaled edges of the levels above, confirmed by the one step proof. *)
Lemma honest_step_confirmed_witness :
  let H : Hasher := toy_keccak in
  exists b before after h proof w,
  NewForSimpleMachine (Z.to_nat 4001) ToyBackend.opts = Ok b /\
  (exists after', OneStepProofData (backend_provider ToyBackend.pack (seq 0) b) 7 0 2 [150; 3] 0 2 =
     Ok ({| BeforeHash := h; AfterHash := after'; OneStepProof := proof |}, before, after)) /\
  exists w' e', @EdgeChallengeManager.run H SimpleOneStepProofEntry ToyBackend.decoder unit unit ToyBackend.assertions ToyBackend.tokens
      9 30 5 (EdgeChallengeManager.ConfirmEdgeByOneStepProof 1 h proof ToyBackend.config before after) w = (Ok tt, w') /\
    edges (store w') !! 1 = Some e' /\ ContractStatus e' = EdgeConfirmed.
Proof.
  intros H. destruct (@honest_step_confirmed toy_keccak toy_nonzero ToyBackend.decoder unit unit ToyBackend.assertions ToyBackend.tokens
    ToyBackend.opts ToyBackend.pack (seq 0) 7 0 2 150 [3] 4 2
    ToyBackend.opts_ok) as (b & m0 & before & after & c1 & c2 & Eb & _ & Hrest);
    [reflexivity|reflexivity|vm_compute; reflexivity|exact ToyBackend.sched_ok|reflexivity|reflexivity| |lia|].
  - intros [|[|i]] x Hi Hx; [lia| |done]. injection Hx as <-. exists 4. split; [reflexivity|lia].
  - destruct Hrest as (_ & _ & Ed & Hconf).
    destruct (Hconf 9 30 5 (ToyBackend.world (Merkle c1) (Merkle c2)) 1 (ToyBackend.step_edge (Merkle c1) (Merkle c2)) 500 ToyBackend.config)
      as (w' & e' & Er & He); [reflexivity..|done|left; lia|].
    exists b, before, after. do 3 eexists. split; [exact Eb|]. split; [by eexists|]. exists w', e'. exact (conj Er He).
Defined.

(** The block level starts at the first state of the batch a challenge is from, the levels below it
    at the first block of all: in a challenge from the second batch on, the subchallenge of the first
    block does not start with the first leaf of the block level. *)
Example later_batches_disagree :
  let H : Hasher := ToyMachine.marked_keccak in
  exists b parent child, NewForSimpleMachine 4 ToyBackend.small = Ok b /\
  historyCommitmentImpl (backend_provider ToyBackend.pack (seq 0) b) {|
    ReqWasmModuleRoot := 7; FromBatch := 1; ToBatch := 2;
    UpperChallengeOriginHeights := []; FromHeight := 0; UpToHeight := Some 1 |} = Ok parent /\
  historyCommitmentImpl (backend_provider ToyBackend.pack (seq 0) b) {|
    ReqWasmModuleRoot := 7; FromBatch := 1; ToBatch := 2;
    UpperChallengeOriginHeights := [0]; FromHeight := 0; UpToHeight := Some 0 |} = Ok child /\
  parent !! 0%nat <> child !! 0%nat.
Proof.
  intros H. eexists _, _, _. split; [vm_compute; reflexivity|]. split; [vm_compute; reflexivity|].
  split; [vm_compute; reflexivity|]. vm_compute. discriminate.
Qed.

(** A range of blocks that does not start at zero is longer than its heights: the loop of
    [statesUpTo] adds the end height to the start. *)
Example later_ranges_too_long :
  let H : Hasher := toy_keccak in
  exists b states, NewWithMockedStateRoots [11; 12; 13; 14; 15; 16] [] = Ok b /\
  statesUpTo b 1 3 0 1 = Ok states /\ states = [12; 13; 14; 15].
Proof. intros H. eexists _, _. split; [reflexivity|]. split; vm_compute; reflexivity. Qed.
