(* ===== verification/EdgeContractSpec.v ===== *)
(** * What the edge challenge manager contract guarantees

    Every state-changing call of the contract is a sequence of four elementary steps on
    the store: adding an edge, linking it to its children, confirming it, and marking its
    stake as refunded.  The invariant of the store is proved by induction on these
    steps. *)

From S2P Require Import Prelude Bits PrefixProofs MerkleSpec PrefixSound InclusionProofs History Protocol Contracts MerkleContract CommitChain EdgeContract.
Import ChallengeEdgeLib EdgeChallengeManagerLib.

(** ** Identifiers *)

Section ids.
Context `{Hasher} `{!HasherNonzero} `{!HasherInjective}.

Lemma mutual_inj e e' : mutualId e = mutualId e' ->
  EdgeLevel e = EdgeLevel e' /\ EdgeOriginId e = EdgeOriginId e' /\ StartHeight e = StartHeight e' /\
  StartHistoryRoot e = StartHistoryRoot e' /\ EndHeight e = EndHeight e'.
Proof. unfold mutualId, mutualIdComponent. intros E. apply keccak_inj in E. by injection E as -> -> -> -> ->. Qed.

Lemma id_mutual e : id e = Keccak256Hash [Word (mutualId e); Word (EndHistoryRoot e)].
Proof. done. Qed.

Lemma id_inj e e' : id e = id e' <-> mutualId e = mutualId e' /\ EndHistoryRoot e = EndHistoryRoot e'.
Proof.
  rewrite !id_mutual. split; [|by intros [-> ->]]. intros E. apply keccak_inj in E. by injection E as -> ->.
Qed.

Lemma id_nonzero e : id e <> 0.
Proof. apply keccak_nonzero. Qed.

Lemma unrivaled_nonzero : UNRIVALED <> 0.
Proof. apply keccak_nonzero. Qed.

Lemma unrivaled_not_id e : UNRIVALED <> id e.
Proof. rewrite id_mutual. unfold UNRIVALED. intros E. by apply keccak_inj in E. Qed.

End ids.

(** ** Elementary steps *)

Section steps.
Context `{Hasher}.

(** Recording the mutual id of a new edge. *)
Definition record_rival (e : ChallengeEdge) (s : EdgeStore) : EdgeStore :=
  let f := firstRival_at s (mutualId e) in
  if f =? 0 then put_firstRival (mutualId e) UNRIVALED s
  else if f =? UNRIVALED then put_firstRival (mutualId e) (id e) s
  else s.

Definition insert_edge (e : ChallengeEdge) (s : EdgeStore) : EdgeStore := record_rival e (put_edge (id e) e s).

(** The height of the layer zero edges of a level. *)
Definition layer_height (c : Settings) (level : Z) : Z :=
  match levelToType level (NUM_BIGSTEP_LEVEL c) with
  | Ok t => EdgeChallengeManager.getLayerZeroEndHeight c t
  | _ => 0
  end.

(** What holds of an edge by itself, at block [b]. *)
Record edge_ok (c : Settings) (b : Z) (e : ChallengeEdge) : Prop := {
  ok_origin : EdgeOriginId e <> 0;
  ok_heights : 0 <= StartHeight e < EndHeight e;
  ok_roots : StartHistoryRoot e <> 0 /\ EndHistoryRoot e <> 0;
  ok_top : EndHeight e <= layer_height c (EdgeLevel e);
  ok_created : 0 < EdgeCreatedAtBlock e <= b;
  ok_level : 0 <= EdgeLevel e <= NUM_BIGSTEP_LEVEL c + 1;
  ok_staker : EdgeClaimId e = 0 <-> Staker e = 0;
  ok_layer_zero : EdgeClaimId e <> 0 <-> StartHeight e = 0 /\ EndHeight e = layer_height c (EdgeLevel e);
  ok_refunded : Refunded e = true -> ContractStatus e = EdgeConfirmed /\ isLayerZero e = true;
}.

(** At least two edges with this mutual id have been created. *)
Definition rivaled (s : EdgeStore) (m : Hash) : Prop :=
  firstRival_at s m <> 0 /\ firstRival_at s m <> UNRIVALED.

(** The level below: an edge above the block level has as its origin the mutual id of
    rivaled edges of length one, and a layer zero edge claims one of them. *)
Definition origin_ok (s : EdgeStore) (e : ChallengeEdge) : Prop :=
  0 < EdgeLevel e ->
  rivaled s (EdgeOriginId e) /\
  (exists i claim, edges s !! i = Some claim /\ mutualId claim = EdgeOriginId e /\
    EdgeLevel claim = EdgeLevel e - 1 /\ EndHeight claim = StartHeight claim + 1 /\
    (EdgeClaimId e <> 0 -> EdgeClaimId e = i)).

(** [l] and [u] are the halves of [e]. *)
Record halves (e l u : ChallengeEdge) : Prop := {
  halves_middle : mandatoryBisectionHeight (StartHeight e) (EndHeight e) = Ok (EndHeight l);
  halves_level : EdgeLevel l = EdgeLevel e /\ EdgeLevel u = EdgeLevel e;
  halves_origin : EdgeOriginId l = EdgeOriginId e /\ EdgeOriginId u = EdgeOriginId e;
  halves_start : StartHeight l = StartHeight e /\ StartHistoryRoot l = StartHistoryRoot e;
  halves_meet : EndHeight l = StartHeight u /\ EndHistoryRoot l = StartHistoryRoot u;
  halves_end : EndHeight u = EndHeight e /\ EndHistoryRoot u = EndHistoryRoot e;
}.

(** The parts of an edge that change: its children, its status, its refund. *)
Definition updated (e : ChallengeEdge) (l u : EdgeId) (confirmedAt : Z) (status : EdgeStatus) (refunded : bool)
    : ChallengeEdge := {|
  EdgeOriginId := EdgeOriginId e; StartHistoryRoot := StartHistoryRoot e;
  StartHeight := StartHeight e; EndHistoryRoot := EndHistoryRoot e; EndHeight := EndHeight e;
  LowerChildId := l; UpperChildId := u; EdgeClaimId := EdgeClaimId e; Staker := Staker e;
  EdgeCreatedAtBlock := EdgeCreatedAtBlock e; EdgeConfirmedAtBlock := confirmedAt;
  ContractStatus := status; EdgeLevel := EdgeLevel e; Refunded := refunded |}.
Definition with_children (e : ChallengeEdge) (l u : EdgeId) : ChallengeEdge :=
  updated e l u (EdgeConfirmedAtBlock e) (ContractStatus e) (Refunded e).
Definition with_status (e : ChallengeEdge) (b : Z) : ChallengeEdge :=
  updated e (LowerChildId e) (UpperChildId e) b EdgeConfirmed (Refunded e).
Definition with_refund (e : ChallengeEdge) : ChallengeEdge :=
  updated e (LowerChildId e) (UpperChildId e) (EdgeConfirmedAtBlock e) (ContractStatus e) true.

(** The edges a bisection creates. *)
Definition half (b : Z) (e : ChallengeEdge) (startRoot : Hash) (start : Z) (endRoot : Hash) (end_ : Z)
    : ChallengeEdge := {|
  EdgeOriginId := EdgeOriginId e; StartHistoryRoot := startRoot; StartHeight := start;
  EndHistoryRoot := endRoot; EndHeight := end_; LowerChildId := 0; UpperChildId := 0; EdgeClaimId := 0;
  Staker := 0; EdgeCreatedAtBlock := b; EdgeConfirmedAtBlock := 0; ContractStatus := EdgePending;
  EdgeLevel := EdgeLevel e; Refunded := false |}.
Definition lower_half (b : Z) (e : ChallengeEdge) (root : Hash) (mid : Z) : ChallengeEdge :=
  half b e (StartHistoryRoot e) (StartHeight e) root mid.
Definition upper_half (b : Z) (e : ChallengeEdge) (root : Hash) (mid : Z) : ChallengeEdge :=
  half b e root mid (EndHistoryRoot e) (EndHeight e).

(** A new edge: nothing has happened to it yet. *)
Definition fresh (b : Z) (e : ChallengeEdge) : Prop :=
  ContractStatus e = EdgePending /\ LowerChildId e = 0 /\ UpperChildId e = 0 /\ Refunded e = false /\
  EdgeCreatedAtBlock e = b.

(** The lower half is shared with a rival that was bisected at the same root. *)
Definition ensure_edge (e : ChallengeEdge) (s : EdgeStore) : EdgeStore :=
  match edges s !! id e with Some _ => s | None => insert_edge e s end.

Inductive store_step (c : Settings) (b : Z) (s : EdgeStore) : EdgeStore -> Prop :=
| step_claim e :
    edges s !! id e = None -> edge_ok c b e -> fresh b e -> origin_ok s e -> EdgeClaimId e <> 0 ->
    commits_prefix (StartHistoryRoot e) (StartHeight e) (EndHistoryRoot e) (EndHeight e) ->
    store_step c b s (insert_edge e s)
| step_bisect i e root mid :
    edges s !! i = Some e -> ContractStatus e = EdgePending ->
    rivaled s (mutualId e) -> LowerChildId e = 0 -> UpperChildId e = 0 ->
    mandatoryBisectionHeight (StartHeight e) (EndHeight e) = Ok mid -> StartHeight e < mid < EndHeight e ->
    root <> 0 -> commits_prefix root mid (EndHistoryRoot e) (EndHeight e) ->
    edges (ensure_edge (lower_half b e root mid) s) !! id (upper_half b e root mid) = None ->
    store_step c b s
      (put_edge i (with_children e (id (lower_half b e root mid)) (id (upper_half b e root mid)))
        (insert_edge (upper_half b e root mid) (ensure_edge (lower_half b e root mid) s)))
| step_confirm i e :
    edges s !! i = Some e -> ContractStatus e = EdgePending -> confirmedRival_at s (mutualId e) = 0 ->
    store_step c b s (put_edge i (with_status e b) (put_confirmedRival (mutualId e) i s))
| step_refund i e :
    edges s !! i = Some e -> ContractStatus e = EdgeConfirmed -> isLayerZero e = true -> Refunded e = false ->
    store_step c b s (put_edge i (with_refund e) s).

(** ** The invariant *)

(** The record of the rivals with a mutual id: none, a single edge, or the second edge
    that was created; every edge but the first was created no earlier than that one. *)
Definition rival_ok (s : EdgeStore) (m : Hash) : Prop :=
  (firstRival_at s m = 0 /\ forall i e, edges s !! i = Some e -> mutualId e <> m) \/
  (firstRival_at s m = UNRIVALED /\ exists i e, edges s !! i = Some e /\ mutualId e = m /\
    forall j e', edges s !! j = Some e' -> mutualId e' = m -> j = i) \/
  (exists r er i e, firstRival_at s m = r /\ edges s !! r = Some er /\ mutualId er = m /\
    edges s !! i = Some e /\ mutualId e = m /\ i <> r /\ EdgeCreatedAtBlock e <= EdgeCreatedAtBlock er /\
    forall j e', edges s !! j = Some e' -> mutualId e' = m -> j <> i -> EdgeCreatedAtBlock er <= EdgeCreatedAtBlock e').

Definition children_ok (s : EdgeStore) (e : ChallengeEdge) : Prop :=
  LowerChildId e = 0 /\ UpperChildId e = 0 \/
  (rivaled s (mutualId e) /\
   exists l u, edges s !! LowerChildId e = Some l /\ edges s !! UpperChildId e = Some u /\ halves e l u).

Record store_inv (c : Settings) (b : Z) (s : EdgeStore) : Prop := {
  inv_edge i e : edges s !! i = Some e -> id e = i /\ edge_ok c b e;
  inv_rival m : rival_ok s m;
  inv_confirmed i e : edges s !! i = Some e ->
    ContractStatus e = EdgeConfirmed <-> confirmedRival_at s (mutualId e) = i;
  inv_winner m : confirmedRival_at s m <> 0 ->
    exists e, edges s !! confirmedRival_at s m = Some e /\ mutualId e = m;
  inv_origin i e : edges s !! i = Some e -> origin_ok s e;
  inv_children i e : edges s !! i = Some e -> children_ok s e;
}.

End steps.

(** ** Stores with the same edges up to what changes *)

Section similar.
Context `{Hasher}.

Definition same_data (e e' : ChallengeEdge) : Prop :=
  exists l u k status refunded, e' = updated e l u k status refunded.

#[local] Instance same_data_refl : Reflexive same_data.
Proof. intros []. repeat eexists. Qed.

Lemma same_data_ids e e' : same_data e e' -> id e' = id e /\ mutualId e' = mutualId e.
Proof. by intros (? & ? & ? & ? & ? & ->). Qed.

(** The stores have the same edges up to their status and the same first rivals. *)
Definition similar (s s' : EdgeStore) : Prop :=
  (forall i e, edges s !! i = Some e -> exists e', edges s' !! i = Some e' /\ same_data e e') /\
  (forall i e', edges s' !! i = Some e' -> exists e, edges s !! i = Some e /\ same_data e e') /\
  firstRivals s' = firstRivals s.

Lemma similar_put i e e' s : edges s !! i = Some e -> same_data e e' -> similar s (put_edge i e' s).
Proof.
  intros Hi He. unfold similar. split_and!; [| |done]; intros j x Hj; cbn [put_edge edges] in *.
  - destruct (decide (j = i)) as [->|Hn]; [rewrite lookup_insert_eq; simplify_eq; eauto|].
    rewrite lookup_insert_ne by done. eexists. split; [done|reflexivity].
  - destruct (decide (j = i)) as [->|Hn]; [rewrite lookup_insert_eq in Hj; simplify_eq; eauto|].
    rewrite lookup_insert_ne in Hj by done. eexists. split; [done|reflexivity].
Qed.

Lemma similar_rival s s' m : similar s s' -> rival_ok s m -> rival_ok s' m.
Proof.
  intros (Hto & Hfrom & Ef) Hr. unfold rival_ok, firstRival_at in *. rewrite Ef.
  assert (Hback : forall j e', edges s' !! j = Some e' -> exists e, edges s !! j = Some e /\
    mutualId e' = mutualId e /\ EdgeCreatedAtBlock e' = EdgeCreatedAtBlock e).
  { intros j e' Hj. destruct (Hfrom _ _ Hj) as (e & He & ? & ? & ? & ? & ? & ->). eauto. }
  assert (Hforth : forall j e, edges s !! j = Some e -> exists e', edges s' !! j = Some e' /\
    mutualId e' = mutualId e /\ EdgeCreatedAtBlock e' = EdgeCreatedAtBlock e).
  { intros j e Hj. destruct (Hto _ _ Hj) as (e' & He & ? & ? & ? & ? & ? & ->). eauto. }
  destruct Hr as [[E Hn]|[(E & i & e & Hi & Hm & Hu)|(r & er & i & e & E & Hr & Hmr & Hi & Hm & Hne & Hle & Hu)]].
  - left. split; [done|]. intros i e' Hi. destruct (Hback _ _ Hi) as (e & He & -> & _). eauto.
  - right; left. split; [done|]. destruct (Hforth _ _ Hi) as (e' & He' & Em & _).
    exists i, e'. split_and!; [done|congruence|]. intros j x Hj Hx.
    destruct (Hback _ _ Hj) as (x0 & Hx0 & Ex & _). eapply Hu; [done|congruence].
  - right; right. destruct (Hforth _ _ Hi) as (e' & He' & Em & Ec).
    destruct (Hforth _ _ Hr) as (er' & Her' & Emr & Ecr). exists r, er', i, e'.
    split_and!; try done; try congruence; try lia. intros j x Hj Hx Hji.
    destruct (Hback _ _ Hj) as (x0 & Hx0 & Ex & Ecx). rewrite Ecr, Ecx. eapply Hu; [done|congruence|done].
Qed.

Lemma similar_origin s s' e e' : similar s s' -> same_data e e' -> origin_ok s e -> origin_ok s' e'.
Proof.
  intros (Hto & _ & Ef) (? & ? & ? & ? & ? & ->) Ho Hl. cbn in Hl. destruct (Ho Hl) as (Hr & i & claim & Hi & Hm & Hlv & Hen & Hc).
  unfold rivaled, firstRival_at in *. rewrite Ef. split; [done|].
  destruct (Hto _ _ Hi) as (claim' & Hi' & ? & ? & ? & ? & ? & ->). exists i. eexists. split; [exact Hi'|]. done.
Qed.

Lemma similar_children s s' e : similar s s' -> children_ok s e -> children_ok s' e.
Proof.
  intros (Hto & _ & Ef) [Hz|(Hf & l & u & Hl & Hu & Hh)]; [by left|right].
  split; [unfold rivaled, firstRival_at in *; by rewrite Ef|].
  destruct (Hto _ _ Hl) as (l' & Hl' & ? & ? & ? & ? & ? & ->).
  destruct (Hto _ _ Hu) as (u' & Hu' & ? & ? & ? & ? & ? & ->).
  do 2 eexists. split_and!; [done..|]. destruct Hh. by split.
Qed.

End similar.

(** ** The steps preserve the invariant *)

Section preservation.
Context `{Hasher} `{!HasherNonzero} `{!HasherInjective}.

Lemma edges_insert e s : edges (insert_edge e s) = <[id e := e]> (edges s).
Proof. unfold insert_edge, record_rival. by repeat case_match. Qed.

Lemma confirmed_insert e s m : confirmedRival_at (insert_edge e s) m = confirmedRival_at s m.
Proof. unfold insert_edge, record_rival. by repeat case_match. Qed.

Lemma firstRival_insert e s m :
  firstRival_at (insert_edge e s) m =
  if decide (m = mutualId e) then
    if firstRival_at s m =? 0 then UNRIVALED
    else if firstRival_at s m =? UNRIVALED then id e else firstRival_at s m
  else firstRival_at s m.
Proof.
  unfold insert_edge, record_rival.
  change (firstRival_at (put_edge (id e) e s) (mutualId e)) with (firstRival_at s (mutualId e)).
  destruct (decide (m = mutualId e)) as [->|Hne].
  - destruct (_ =? 0); [|destruct (_ =? UNRIVALED); [|done]]; unfold firstRival_at, put_firstRival; cbn;
      by rewrite lookup_insert_eq.
  - destruct (_ =? 0); [|destruct (_ =? UNRIVALED); [|done]]; unfold firstRival_at, put_firstRival; cbn;
      by rewrite lookup_insert_ne by done.
Qed.

Lemma rivaled_insert e s m : rivaled s m -> rivaled (insert_edge e s) m.
Proof.
  intros [Hr1 Hr2]. unfold rivaled. rewrite firstRival_insert. case_decide; [|done].
  by rewrite (proj2 (Z.eqb_neq _ 0)), (proj2 (Z.eqb_neq _ UNRIVALED)) by done.
Qed.

Lemma origin_insert e s x : edges s !! id e = None -> origin_ok s x -> origin_ok (insert_edge e s) x.
Proof.
  intros Hn Ho Hl. destruct (Ho Hl) as (Hr & i & claim & Hi & Hrest). split; [by apply rivaled_insert|].
  exists i, claim. split; [|done]. rewrite edges_insert, lookup_insert_ne by congruence. done.
Qed.

Lemma children_insert e s x : edges s !! id e = None -> children_ok s x -> children_ok (insert_edge e s) x.
Proof.
  intros Hn [Hz|(Hr & l & u & Hl & Hu & Hh)]; [by left|right]. split; [by apply rivaled_insert|].
  exists l, u. rewrite edges_insert, !lookup_insert_ne by congruence. done.
Qed.

Lemma rival_insert c b e s m :
  store_inv c b s -> edges s !! id e = None -> EdgeCreatedAtBlock e = b -> rival_ok (insert_edge e s) m.
Proof.
  intros Hinv Hn Hb. pose proof (inv_rival _ _ _ Hinv m) as Hr.
  assert (Hat : forall i x, edges (insert_edge e s) !! i = Some x -> i = id e /\ x = e \/ edges s !! i = Some x).
  { intros i x. rewrite edges_insert, lookup_insert_Some. intros [[-> ->]|[_ ?]]; auto. }
  assert (Hold : forall i x, edges s !! i = Some x -> edges (insert_edge e s) !! i = Some x).
  { intros i x Hi. rewrite edges_insert, lookup_insert_ne; [done|congruence]. }
  assert (Hnew : edges (insert_edge e s) !! id e = Some e) by (by rewrite edges_insert, lookup_insert_eq).
  assert (Hpast : forall i x, edges s !! i = Some x -> EdgeCreatedAtBlock x <= b).
  { intros i x Hi. apply (inv_edge _ _ _ Hinv) in Hi as [_ Hok]. apply ok_created in Hok. lia. }
  unfold rival_ok. rewrite firstRival_insert. destruct (decide (m = mutualId e)) as [->|Hm]; cycle 1.
  { destruct Hr as [[E Hnone]|[(E & i & x & Hi & Hx & Hu)|(r & er & i & x & E & Hr & Hmr & Hi & Hx & Hne & Hle & Hu)]].
    - left. split; [done|]. intros i x [[-> ->]|Hi]%Hat; [congruence|eauto].
    - right; left. split; [done|]. exists i, x. split_and!; [by apply Hold|done|].
      intros j y [[-> ->]|Hj]%Hat Hy; [congruence|eauto].
    - right; right. exists r, er, i, x. split_and!; try done; [by apply Hold..|].
      intros j y [[-> ->]|Hj]%Hat Hy; [congruence|eauto]. }
  destruct Hr as [[E Hnone]|[(E & i & x & Hi & Hx & Hu)|(r & er & i & x & E & Hr & Hmr & Hi & Hx & Hne & Hle & Hu)]].
  - rewrite E. right; left. split; [done|]. exists (id e), e. split_and!; [done..|].
    intros j y [[-> ->]|Hj]%Hat Hy; [done|]. by destruct (Hnone _ _ Hj).
  - rewrite E, (proj2 (Z.eqb_neq _ 0)), Z.eqb_refl by apply unrivaled_nonzero. right; right.
    exists (id e), e, i, x. split_and!; try done; [by apply Hold|congruence|rewrite Hb; eauto|].
    intros j y [[-> ->]|Hj]%Hat Hy Hji; [done|]. by destruct (Hji (Hu _ _ Hj Hy)).
  - destruct (inv_edge _ _ _ Hinv _ _ Hr) as [Er _]. rewrite E, <- Er.
    rewrite (proj2 (Z.eqb_neq _ 0)), (proj2 (Z.eqb_neq _ UNRIVALED));
      [|intros E'; by apply (unrivaled_not_id er)|apply id_nonzero].
    right; right. exists r, er, i, x. rewrite Er. split_and!; try done; [by apply Hold..|].
    intros j y [[-> ->]|Hj]%Hat Hy Hji; [rewrite Hb; eauto|eauto].
Qed.

Lemma inv_insert c b e s :
  store_inv c b s -> edges s !! id e = None -> edge_ok c b e -> fresh b e -> origin_ok s e ->
  store_inv c b (insert_edge e s).
Proof.
  intros Hinv Hn Hok (Hp & Hl & Hu & Hf & Hb) Ho. split.
  - intros i x. rewrite edges_insert, lookup_insert_Some.
    intros [[<- <-]|[_ Hi]]; [done|by apply (inv_edge _ _ _ Hinv)].
  - intros m. by eapply rival_insert.
  - intros i x. rewrite confirmed_insert, edges_insert, lookup_insert_Some.
    intros [[<- <-]|[_ Hi]]; [|by apply (inv_confirmed _ _ _ Hinv)]. rewrite Hp. split; [done|]. intros E.
    destruct (inv_winner _ _ _ Hinv (mutualId e)) as (y & Hy & _); [rewrite E; apply id_nonzero|].
    rewrite E in Hy. congruence.
  - intros m. rewrite confirmed_insert. intros Hm. destruct (inv_winner _ _ _ Hinv m Hm) as (y & Hy & Em).
    exists y. rewrite edges_insert, lookup_insert_ne by congruence. done.
  - intros i x. rewrite edges_insert, lookup_insert_Some.
    intros [[<- <-]|[_ Hi]]; apply origin_insert; try done. by apply (inv_origin _ _ _ Hinv) in Hi.
  - intros i x. rewrite edges_insert, lookup_insert_Some.
    intros [[<- <-]|[_ Hi]]; [by left|]. apply children_insert; [done|]. by apply (inv_children _ _ _ Hinv) in Hi.
Qed.

Lemma edge_ok_updated c b e l u k status refunded :
  edge_ok c b e -> (refunded = true -> status = EdgeConfirmed /\ isLayerZero e = true) ->
  edge_ok c b (updated e l u k status refunded).
Proof. intros [] Hr. by split. Qed.

(** Changing the children or the refund of an edge. *)
Lemma inv_put c b s i e l u k refunded :
  store_inv c b s -> edges s !! i = Some e ->
  let e' := updated e l u k (ContractStatus e) refunded in
  (refunded = true -> ContractStatus e = EdgeConfirmed /\ isLayerZero e = true) -> children_ok s e' ->
  store_inv c b (put_edge i e' s).
Proof.
  intros Hinv Hi e' Hr Hc. destruct (inv_edge _ _ _ Hinv _ _ Hi) as [Hid Hok].
  assert (Hs : similar s (put_edge i e' s)) by (eapply similar_put; [done|by repeat eexists]).
  split; unfold put_edge at 1; cbn [edges].
  - intros j x. rewrite lookup_insert_Some. intros [[<- <-]|[_ Hj]]; [|by apply (inv_edge _ _ _ Hinv)].
    split; [done|]. by apply edge_ok_updated.
  - intros m. eapply similar_rival; [done|]. apply (inv_rival _ _ _ Hinv).
  - intros j x. rewrite lookup_insert_Some. intros [[<- <-]|[_ Hj]]; [|by apply (inv_confirmed _ _ _ Hinv)].
    apply (inv_confirmed _ _ _ Hinv _ _ Hi).
  - intros m Hm. destruct (inv_winner _ _ _ Hinv m Hm) as (y & Hy & Em).
    destruct Hs as (Hto & _). destruct (Hto _ _ Hy) as (y' & Hy' & ? & ? & ? & ? & ? & ->). eauto.
  - intros j x Hj. destruct Hs as (Hto & Hfrom & Ef) eqn:Es. destruct (Hfrom _ _ Hj) as (x0 & Hx0 & Hx).
    eapply similar_origin; [exact Hs|done|]. by apply (inv_origin _ _ _ Hinv) in Hx0.
  - intros j x. rewrite lookup_insert_Some. intros [[<- <-]|[_ Hj]]; (eapply similar_children; [exact Hs|]);
      [done|]. by apply (inv_children _ _ _ Hinv) in Hj.
Qed.

Lemma inv_confirm c b s i e :
  store_inv c b s -> edges s !! i = Some e -> ContractStatus e = EdgePending ->
  confirmedRival_at s (mutualId e) = 0 ->
  store_inv c b (put_edge i (with_status e b) (put_confirmedRival (mutualId e) i s)).
Proof.
  intros Hinv Hi Hp Hz. destruct (inv_edge _ _ _ Hinv _ _ Hi) as [Hid Hok].
  set (s1 := put_confirmedRival (mutualId e) i s). set (e' := with_status e b).
  assert (Hs : similar s (put_edge i e' s1)).
  { pose proof (similar_put i e e' s Hi) as Hs. apply Hs. by repeat eexists. }
  assert (Hconf : forall m, confirmedRival_at (put_edge i e' s1) m =
    if decide (m = mutualId e) then i else confirmedRival_at s m).
  { intros m. unfold confirmedRival_at. cbn. case_decide; subst; [by rewrite lookup_insert_eq|].
    by rewrite lookup_insert_ne. }
  split.
  - intros j x. cbn [put_edge s1 put_confirmedRival edges]. rewrite lookup_insert_Some.
    intros [[<- <-]|[_ Hj]]; [|by apply (inv_edge _ _ _ Hinv)].
    split; [done|]. apply edge_ok_updated; [done|]. intros Hrf. by destruct (ok_refunded _ _ _ Hok Hrf).
  - intros m. eapply similar_rival; [done|]. apply (inv_rival _ _ _ Hinv).
  - intros j x. rewrite Hconf. cbn [put_edge s1 put_confirmedRival edges]. rewrite lookup_insert_Some.
    intros [[<- <-]|[Hne Hj]]; [rewrite decide_True by done; done|].
    rewrite (inv_confirmed _ _ _ Hinv _ _ Hj). destruct (decide (mutualId x = mutualId e)) as [E|]; [|done].
    rewrite E, Hz. destruct (inv_edge _ _ _ Hinv _ _ Hj) as [Hx _]. split; [|congruence].
    intros E0. by destruct (id_nonzero x); congruence.
  - intros m. rewrite Hconf. destruct Hs as (Hto & _). intros Hm. case_decide as Em.
    + destruct (Hto _ _ Hi) as (y & Hy & ? & ? & ? & ? & ? & ->). subst m. eauto.
    + destruct (inv_winner _ _ _ Hinv m Hm) as (y & Hy & Ey).
      destruct (Hto _ _ Hy) as (y' & Hy' & ? & ? & ? & ? & ? & ->). eauto.
  - intros j x Hj. destruct (Hs) as (_ & Hfrom & _). destruct (Hfrom _ _ Hj) as (x0 & Hx0 & Hx).
    eapply similar_origin; [exact Hs|done|]. by apply (inv_origin _ _ _ Hinv) in Hx0.
  - intros j x. cbn [put_edge s1 put_confirmedRival edges]. rewrite lookup_insert_Some.
    intros [[<- <-]|[_ Hj]]; (eapply similar_children; [exact Hs|]).
    + apply (inv_children _ _ _ Hinv) in Hi as [Hc|(Hr & l & u & Hl & Hu & Hh)]; [by left|right].
      split; [done|]. exists l, u. split_and!; [done..|]. destruct Hh. by split.
    + by apply (inv_children _ _ _ Hinv) in Hj.
Qed.

Lemma half_ok c b e startRoot start endRoot end_ :
  edge_ok c b e -> StartHeight e <= start < end_ -> end_ <= EndHeight e ->
  start <> StartHeight e \/ end_ <> EndHeight e -> startRoot <> 0 -> endRoot <> 0 -> edge_ok c b (half b e startRoot start endRoot end_).
Proof.
  intros Hok Hs He Hne Hsr Her. destruct Hok. split; cbn; try done; try lia.
Qed.

Lemma half_origin s b e startRoot start endRoot end_ :
  origin_ok s e -> origin_ok s (half b e startRoot start endRoot end_).
Proof.
  intros Ho Hl. destruct (Ho Hl) as (Hr & i & claim & Hi & Hm & Hlv & Hen & _). split; [done|].
  exists i, claim. cbn. done.
Qed.

Lemma half_fresh b e startRoot start endRoot end_ : fresh b (half b e startRoot start endRoot end_).
Proof. done. Qed.

Lemma lookup_ensure e s i x : edges s !! i = Some x -> edges (ensure_edge e s) !! i = Some x.
Proof.
  intros Hi. unfold ensure_edge. destruct (edges s !! id e) eqn:E; [done|].
  rewrite edges_insert, lookup_insert_ne by congruence. done.
Qed.

Lemma rivaled_ensure e s m : rivaled s m -> rivaled (ensure_edge e s) m.
Proof. unfold ensure_edge. case_match; [done|]. apply rivaled_insert. Qed.

Lemma inv_ensure c b e s :
  store_inv c b s -> edge_ok c b e -> fresh b e -> origin_ok s e ->
  store_inv c b (ensure_edge e s) /\ exists x, edges (ensure_edge e s) !! id e = Some x /\ id x = id e.
Proof.
  intros Hinv Hok Hf Ho. unfold ensure_edge. destruct (edges s !! id e) as [x|] eqn:E.
  - split; [done|]. exists x. split; [done|]. by apply (inv_edge _ _ _ Hinv) in E as [? _].
  - split; [by apply inv_insert|]. exists e. by rewrite edges_insert, lookup_insert_eq.
Qed.

Lemma halves_of b e l root mid :
  mandatoryBisectionHeight (StartHeight e) (EndHeight e) = Ok mid ->
  id l = id (lower_half b e root mid) -> halves e l (upper_half b e root mid).
Proof.
  intros Hm Hl. apply id_inj in Hl as [Hl Er]. apply mutual_inj in Hl as (E1 & E2 & E3 & E4 & E5).
  cbn in *. split; cbn; rewrite ?E5; auto.
Qed.

Lemma step_inv c b s s' : store_step c b s s' -> store_inv c b s -> store_inv c b s'.
Proof.
  intros Hst Hinv. destruct Hst as [e Hn Hok Hf Ho Hcl Hp|i e root mid Hi Hp Hr Hl Hu Hm Hmid Hroot Hpre Hn|i e Hi Hp Hz|
    i e Hi Hc Hl Hr].
  - by apply inv_insert.
  - destruct (inv_edge _ _ _ Hinv _ _ Hi) as [Hid Hok]. pose proof (inv_origin _ _ _ Hinv _ _ Hi) as Ho.
    destruct (inv_ensure c b (lower_half b e root mid) s) as [Hinv1 (l & Hlow & Hlid)];
      [done|apply half_ok; try lia; try done; by apply (ok_roots _ _ _ Hok)|done|by apply half_origin|].
    set (s1 := ensure_edge (lower_half b e root mid) s) in *. set (up := upper_half b e root mid) in *.
    assert (Hi1 : edges s1 !! i = Some e) by (by apply lookup_ensure).
    assert (Hinv2 : store_inv c b (insert_edge up s1)).
    { apply inv_insert; [done|done|apply half_ok; try lia; try done; by apply (ok_roots _ _ _ Hok)|done|].
      apply half_origin. by eapply (inv_origin _ _ _ Hinv1). }
    assert (Hi2 : forall j x, edges s1 !! j = Some x -> edges (insert_edge up s1) !! j = Some x).
    { intros j x Hj. rewrite edges_insert, lookup_insert_ne by congruence. done. }
    apply (inv_put c b _ i e); [done|by apply Hi2| |].
    + intros Hrf. split; [by apply (ok_refunded _ _ _ Hok)|]. by apply (ok_refunded _ _ _ Hok).
    + right. split; [by apply rivaled_insert, rivaled_ensure|]. exists l, up.
      split_and!; [by apply Hi2|cbn; by rewrite edges_insert, lookup_insert_eq|].
      destruct (halves_of b e l root mid Hm Hlid). by split.
  - by apply inv_confirm.
  - apply (inv_put c b s i e); [done|done|done|].
    destruct (inv_children _ _ _ Hinv _ _ Hi) as [Hch|(Hrv & l & u & Hl' & Hu' & Hh)]; [by left|right].
    split; [done|]. exists l, u. split_and!; [done..|]. destruct Hh. by split.
Qed.

(** Time passes. *)
Lemma inv_later c b b' s : b <= b' -> store_inv c b s -> store_inv c b' s.
Proof.
  intros Hb [Hedge ? ? ? ? ?]. split; try done. intros i e Hi. destruct (Hedge i e Hi) as [Hid []].
  split; [done|]. split; try done. lia.
Qed.

Lemma inv_empty c b : store_inv c b {| edges := ∅; firstRivals := ∅; confirmedRivals := ∅ |}.
Proof. split; try done. intros m. by left. Qed.

End preservation.

(** ** The operations are steps *)

Lemma length_ok e n : length e = Ok n -> n = EndHeight e - StartHeight e /\ n <> 0.
Proof.
  unfold length. intros Hl. invert_run. apply checked_inv in E as [-> _]. injection Hl as <-.
  apply Z.eqb_neq in Heqb. lia.
Qed.

Section operations.
Context `{Hasher} `{!HasherNonzero} `{!HasherInjective} `{IOneStepProofEntry} `{AbiDecode}.
Context (c : Settings) (blockNumber : Z) (msgSender : Address).
Hypothesis Hblock : 0 < blockNumber < two64.

Lemma block_u64 : u64 blockNumber = blockNumber.
Proof. apply u64_small. lia. Qed.

Section at_store.
Context (s : EdgeStore) (Hinv : store_inv c blockNumber s).

Lemma exists_lookup i : exists_ (edge_at s i) = true <-> edges s !! i = Some (edge_at s i).
Proof.
  unfold edge_at. destruct (edges s !! i) as [e|] eqn:E; cbn; [|done]. split; [done|]. intros _.
  apply (inv_edge _ _ _ Hinv) in E as [_ Hok]. apply ok_created in Hok. unfold exists_.
  by destruct (Z.eqb_spec (EdgeCreatedAtBlock e) 0); [lia|].
Qed.

Lemma not_exists_lookup i : exists_ (edge_at s i) = false <-> edges s !! i = None.
Proof.
  destruct (edges s !! i) as [e|] eqn:E.
  - split; [|done]. intros Hx. destruct (exists_lookup i) as [_ Hy]. unfold edge_at in *. rewrite E in *.
    cbn in *. rewrite Hy in Hx by done. done.
  - split; [done|]. intros _. unfold edge_at. by rewrite E.
Qed.

Lemma add_ok e d s' :
  add e s = (Ok d, s') -> edges s !! id e = None /\ s' = insert_edge e s /\ AddedEdgeId d = id e /\
  AddedMutualId d = mutualId e /\ AddedHasRival d = negb (firstRival_at s (mutualId e) =? 0).
Proof.
  unfold add. intros Hr. invert_run; (apply not_exists_lookup in Heqb; split; [done|]);
    unfold insert_edge, record_rival;
    change (firstRival_at (put_edge (id e) e s) (mutualId e)) with (firstRival_at s (mutualId e));
    unfold mutualId; by rewrite Heqb0, ?Heqb1.
Qed.

(** *** Views *)

Lemma get_ok_lookup i e : get_ s i = Ok e <-> edges s !! i = Some e.
Proof.
  unfold get_. split.
  - destruct (exists_ (edge_at s i)) eqn:E; [|done]. apply exists_lookup in E. by intros [= <-].
  - intros Hi. assert (E : edge_at s i = e) by (unfold edge_at; by rewrite Hi).
    rewrite E. replace (exists_ e) with true; [done|]. symmetry. rewrite <- E. apply exists_lookup. by rewrite E.
Qed.

Lemma edge_at_lookup i e : edges s !! i = Some e -> edge_at s i = e.
Proof. unfold edge_at. by intros ->. Qed.

Lemma hasRival_rivaled i e : edges s !! i = Some e ->
  exists r, hasRival s i = Ok r /\ (r = true <-> rivaled s (mutualId e)).
Proof.
  intros Hi. pose proof (proj2 (exists_lookup i)) as Hx. rewrite (edge_at_lookup _ _ Hi) in Hx.
  unfold hasRival. rewrite (edge_at_lookup _ _ Hi), Hx by done. cbn [negb].
  destruct (inv_rival _ _ _ Hinv (mutualId e)) as [[_ Hnone]|[(E & _)|(r & er & j & x & E & Hr & _)]].
  - by destruct (Hnone _ _ Hi).
  - rewrite E, (proj2 (Z.eqb_neq _ 0)), Z.eqb_refl by apply unrivaled_nonzero. exists false.
    split; [done|]. unfold rivaled. rewrite E. split; [done|]. intros [_ []]. done.
  - apply (inv_edge _ _ _ Hinv) in Hr as [<- _]. unfold rivaled. rewrite E.
    rewrite (proj2 (Z.eqb_neq _ 0)), (proj2 (Z.eqb_neq _ UNRIVALED)); cbn [negb];
      [|intros E'; by apply (unrivaled_not_id er)|apply id_nonzero].
    exists true. split; [done|]. split; [|done]. intros _. split; [apply id_nonzero|].
    intros E'. by apply (unrivaled_not_id er).
Qed.

Lemma hasRival_true i : hasRival s i = Ok true -> exists e, edges s !! i = Some e /\ rivaled s (mutualId e).
Proof.
  intros Hr. assert (Hx : exists_ (edge_at s i) = true).
  { unfold hasRival in Hr. by destruct (exists_ (edge_at s i)). }
  apply exists_lookup in Hx. destruct (hasRival_rivaled _ _ Hx) as (r & E & Hv). rewrite Hr in E.
  injection E as <-. eexists. split; [done|]. by apply Hv.
Qed.

Lemma hasLengthOneRival_true i : hasLengthOneRival s i = Ok true ->
  exists e, edges s !! i = Some e /\ rivaled s (mutualId e) /\ EndHeight e = StartHeight e + 1.
Proof.
  unfold hasLengthOneRival. intros Hr. invert_run. destruct (hasRival_true _ E) as (e & Hi & Hv).
  exists e. split_and!; [done..|]. rewrite (edge_at_lookup _ _ Hi) in E0. apply length_ok in E0 as [-> _].
  injection Hr as Hr. apply Z.eqb_eq in Hr. lia.
Qed.

End at_store.

(** *** Changes *)

Context (Hlevels : 0 <= NUM_BIGSTEP_LEVEL c <= 253).

Lemma levelToType_range level t : 0 <= level -> levelToType level (NUM_BIGSTEP_LEVEL c) = Ok t ->
  0 <= level <= NUM_BIGSTEP_LEVEL c + 1 /\ (t = Block <-> level = 0).
Proof.
  intros Hl. unfold levelToType. destruct (Z.eqb_spec level 0) as [->|]; [intros [= <-]; split; [lia|done]|].
  destruct (Z.leb_spec level (NUM_BIGSTEP_LEVEL c)); [intros [= <-]; split; [lia|by split]|].
  intros Ht. invert_run. apply checked_inv in E as [-> _].
  apply Z.eqb_eq in Heqb. injection Ht as <-. split; [lia|by split].
Qed.

Lemma nextEdgeLevel_ok level next : nextEdgeLevel level (NUM_BIGSTEP_LEVEL c) = Ok next -> next = level + 1.
Proof.
  unfold nextEdgeLevel. intros Hn. invert_run. apply checked_inv in E as [-> _]. congruence.
Qed.

Lemma typeSpecific_origin s args ard st en proof origin :
  store_inv c blockNumber s -> 0 <= ArgsLevel args ->
  layerZeroTypeSpecificChecks s args ard (NUM_BIGSTEP_LEVEL c) = Ok (st, en, proof, origin) ->
  ArgsLevel args <= NUM_BIGSTEP_LEVEL c + 1 /\
  (0 < ArgsLevel args -> rivaled s origin /\ exists claim, edges s !! ArgsClaimId args = Some claim /\
    mutualId claim = origin /\ EdgeLevel claim = ArgsLevel args - 1 /\ EndHeight claim = StartHeight claim + 1).
Proof.
  intros Hinv Hl Hc. unfold layerZeroTypeSpecificChecks in Hc. invert_run.
  - apply levelToType_range in E as [Hr Ht]; [|done]. apply bool_decide_eq_true in Heqb.
    apply Ht in Heqb. split; [lia|]. lia.
  - apply levelToType_range in E as [Hr _]; [|done]. split; [lia|]. intros _.
    apply negb_false_iff in Heqb0. subst. destruct (hasLengthOneRival_true _ Hinv _ E0) as (e & Hi & Hv & He).
    rewrite (edge_at_lookup _ _ _ Hi) in *. injection Hc as <- <- <- <-. split; [done|]. exists e.
    split_and!; [done|done| |done]. apply nextEdgeLevel_ok in E1. apply negb_false_iff, Z.eqb_eq in Heqb2. lia.
Qed.

Lemma commonChecks_prefix st en proof args expected r :
  layerZeroCommonChecks st en proof args expected = Ok r ->
  ArgsEndHeight args = expected /\ commits_prefix r 0 (ArgsEndHistoryRoot args) (ArgsEndHeight args).
Proof.
  unfold layerZeroCommonChecks. intros Hc. invert_run. injection Hc as ->.
  apply negb_false_iff, Z.eqb_eq in Heqb0. split; [done|]. apply checked_inv in E3 as [-> _]. destruct x3. by do 2 eexists.
Qed.

Lemma createLayerZeroEdge_step args ard d s s' :
  store_inv c blockNumber s -> 0 <= ArgsLevel args ->
  createLayerZeroEdge blockNumber msgSender args ard (layer_height c (ArgsLevel args)) (NUM_BIGSTEP_LEVEL c) s
    = (Ok d, s') ->
  exists e, s' = insert_edge e s /\ store_step c blockNumber s s' /\ edges s !! id e = None /\
    edge_ok c blockNumber e /\ fresh blockNumber e /\ AddedEdgeId d = id e /\ AddedHasRival d = negb (firstRival_at s (mutualId e) =? 0) /\ Staker e = msgSender /\
    EdgeLevel e = ArgsLevel args /\ EdgeClaimId e = ArgsClaimId args /\ EndHistoryRoot e = ArgsEndHistoryRoot args /\
    StartHeight e = 0 /\ EndHeight e = ArgsEndHeight args /\ exists st en proof,
      layerZeroTypeSpecificChecks s args ard (NUM_BIGSTEP_LEVEL c) = Ok (st, en, proof, EdgeOriginId e) /\
      layerZeroCommonChecks st en proof args (layer_height c (ArgsLevel args)) = Ok (StartHistoryRoot e).
Proof.
  intros Hinv Hlv0 Hr. unfold createLayerZeroEdge in Hr. invert_run.
  destruct (typeSpecific_origin _ _ _ _ _ _ _ Hinv Hlv0 E0) as [Hlv Hor].
  destruct (commonChecks_prefix _ _ _ _ _ _ E) as [Hend Hpre].
  destruct (add_ok _ Hinv _ _ _ Hr) as (Hn & -> & Hid & _ & Hhas). clear Hr.
  unfold newLayerZeroEdge, newEdgeChecks in E1. rewrite block_u64 in E1.
  destruct (Z.eqb_spec msgSender 0); [done|]. destruct (Z.eqb_spec (ArgsClaimId args) 0); [done|].
  destruct (Z.eqb_spec z 0); [done|]. destruct (Z.leb_spec (ArgsEndHeight args) 0); [done|].
  destruct (Z.eqb_spec x 0); [done|]. destruct (Z.eqb_spec (ArgsEndHistoryRoot args) 0); [done|].
  injection E1 as <-. match goal with |- exists e, insert_edge ?x s = _ /\ _ => set (ce := x) in * end.
  assert (Hok : edge_ok c blockNumber ce) by (split; cbn; try done; try lia).
  exists ce. split_and!; try done; [|by do 3 eexists].
  apply step_claim; [done|done|done| |done|done].
  - intros Hl. cbn in Hl. destruct (Hor Hl) as (Hrv & claim & Hi & Hm & Hcl & He). split; [done|].
    exists (ArgsClaimId args), claim. cbn. done.
Qed.

Lemma newChildEdge_half e sr st er en x :
  newChildEdge blockNumber (EdgeOriginId e) sr st er en (EdgeLevel e) = Ok x ->
  x = half blockNumber e sr st er en /\ st < en /\ sr <> 0 /\ er <> 0.
Proof.
  unfold newChildEdge, newEdgeChecks. rewrite block_u64. intros Hn.
  destruct (EdgeOriginId e =? 0); [done|]. destruct (Z.leb_spec en st); [done|].
  destruct (Z.eqb_spec sr 0); [done|]. destruct (Z.eqb_spec er 0); [done|]. by injection Hn as <-.
Qed.

Lemma setChildren_with e l u x :
  setChildren e l u = Ok x -> x = with_children e l u /\ LowerChildId e = 0 /\ UpperChildId e = 0.
Proof.
  unfold setChildren. destruct (Z.eqb_spec (LowerChildId e) 0), (Z.eqb_spec (UpperChildId e) 0); cbn; try done.
  by intros [= <-].
Qed.

Lemma add_or_keep e s o s' : store_inv c blockNumber s ->
  (if negb (exists_ (edge_at s (id e))) then d ← add e; mret (Some d) else mret None) s = (Ok o, s') ->
  s' = ensure_edge e s /\ (o = None <-> edges s !! id e <> None).
Proof.
  intros Hinv. unfold ensure_edge. destruct (exists_ (edge_at s (id e))) eqn:Ex; cbn [negb]; intros Hr; invert_run.
  - apply (exists_lookup _ Hinv) in Ex. by rewrite Ex.
  - destruct (add_ok _ Hinv _ _ _ E) as (Hn & -> & _). rewrite Hn. by split.
Qed.

(** The middle is strictly inside, as the two halves are not empty. *)
Lemma bisectEdge_step i root proof s r s' :
  store_inv c blockNumber s -> bisectEdge blockNumber i root proof s = (Ok r, s') ->
  exists e mid, edges s !! i = Some e /\ store_step c blockNumber s s' /\
    mandatoryBisectionHeight (StartHeight e) (EndHeight e) = Ok mid /\
    s' = put_edge i (with_children e (id (lower_half blockNumber e root mid)) (id (upper_half blockNumber e root mid)))
      (insert_edge (upper_half blockNumber e root mid) (ensure_edge (lower_half blockNumber e root mid) s)) /\
    fst (fst r) = id (lower_half blockNumber e root mid) /\ AddedEdgeId (snd r) = id (upper_half blockNumber e root mid) /\
    edges (ensure_edge (lower_half blockNumber e root mid) s) !! id (upper_half blockNumber e root mid) = None.
Proof.
  intros Hinv Hr. unfold bisectEdge in Hr.
  apply bind_ok in Hr as (? & ? & [-> ->]%get_ok & Hr).
  destruct (bool_decide _) eqn:Hp in Hr; [|done]. apply bool_decide_eq_true in Hp. cbn [negb] in Hr.
  apply bind_ok in Hr as (rv & ? & [Hrv ->]%lift_ok & Hr). destruct rv; [|done]. cbn [negb] in Hr.
  apply (hasRival_true _ Hinv) in Hrv as (e & Hi & Hrv). rewrite (edge_at_lookup _ _ _ Hi) in *.
  apply bind_ok in Hr as (mid & ? & [Hm ->]%lift_ok & Hr).
  apply bind_ok in Hr as ([pre pf] & ? & [Hd ->]%lift_ok & Hr).
  apply bind_ok in Hr as (n1 & ? & [[-> _]%checked_inv ->]%lift_ok & Hr).
  apply bind_ok in Hr as (n2 & ? & [[-> _]%checked_inv ->]%lift_ok & Hr).
  apply bind_ok in Hr as ([] & ? & [Hv ->]%lift_ok & Hr).
  apply bind_ok in Hr as (low & ? & [(-> & Hlt1 & Hsr & Hrt)%newChildEdge_half ->]%lift_ok & Hr).
  apply bind_ok in Hr as (o & s1 & [-> _]%add_or_keep & Hr); [|done].
  apply bind_ok in Hr as (up & ? & [(-> & Hlt2 & _ & Her)%newChildEdge_half ->]%lift_ok & Hr).
  fold (lower_half blockNumber e root mid) in *. fold (upper_half blockNumber e root mid) in *.
  destruct (inv_edge _ _ _ Hinv _ _ Hi) as [Hid Hok]. pose proof (inv_origin _ _ _ Hinv _ _ Hi) as Ho.
  destruct (inv_ensure c blockNumber (lower_half blockNumber e root mid) s) as [Hinv1 _];
    [done|apply half_ok; try lia; try done; by apply (ok_roots _ _ _ Hok)|done|by apply half_origin|].
  apply bind_ok in Hr as (d & s2 & (Hn & -> & Hd' & _)%(add_ok _ Hinv1) & Hr).
  assert (Hi1 := lookup_ensure (lower_half blockNumber e root mid) _ _ _ Hi).
  apply bind_ok in Hr as (? & ? & [-> ->]%get_ok & Hr).
  erewrite edge_at_lookup in Hr; [|rewrite edges_insert, lookup_insert_ne by congruence; exact Hi1].
  apply bind_ok in Hr as (x & ? & [(-> & Hl & Hu)%setChildren_with ->]%lift_ok & Hr).
  apply bind_ok in Hr as (? & ? & ->%modify_ok & Hr). apply ret_ok in Hr as [-> ->]. cbn [fst snd].
  rewrite Hd'. exists e, mid. split_and!; [done| |done..].
  apply step_bisect; try done. by exists pre, pf.
Qed.

Lemma confirm_step i s s' :
  store_inv c blockNumber s -> edges s !! i <> None -> confirm blockNumber i s = (Ok tt, s') ->
  exists e, edges s !! i = Some e /\ store_step c blockNumber s s' /\
    s' = put_edge i (with_status e blockNumber) (put_confirmedRival (mutualId e) i s).
Proof.
  intros Hinv Hx Hr. destruct (edges s !! i) as [e|] eqn:Hi; [|done]. exists e. split; [done|].
  apply bind_ok in Hr as ([] & s1 & Hset & Hr). unfold setConfirmedRival in Hset.
  apply bind_ok in Hset as (? & ? & [-> ->]%get_ok & Hset). rewrite (edge_at_lookup _ _ _ Hi) in Hset.
  destruct (Z.eqb_spec (confirmedRival_at s (mutualId e)) 0) as [Hz|]; [|done]. apply modify_ok in Hset as ->.
  apply bind_ok in Hr as (? & ? & [-> ->]%get_ok & Hr).
  change (edge_at (put_confirmedRival (mutualId e) i s) i) with (edge_at s i) in Hr.
  rewrite (edge_at_lookup _ _ _ Hi) in Hr. apply bind_ok in Hr as (x & ? & [Hc ->]%lift_ok & ->%modify_ok).
  unfold setConfirmed in Hc. rewrite block_u64 in Hc. case_bool_decide as Hp; [|done]. injection Hc as <-.
  split; [|done]. by apply step_confirm.
Qed.

End operations.
