(* ===== verification/EdgeContractHistory.v ===== *)
(** * The contract over time

    Sequences of transactions by anybody, at any blocks, on the edge challenge manager
    contract: the invariant holds throughout, edges and confirmations are permanent, and
    the views the validator reads are what they stand for. *)

From S2P Require Import Prelude Bits PrefixProofs MerkleSpec PrefixSound Containers InclusionProofs History Protocol Provider ChallengeTree ChallengeTreeSpec Contracts MerkleContract CommitChain EdgeContract EdgeContractSpec.
Import ChallengeEdgeLib EdgeChallengeManagerLib EdgeContract.
Import EdgeChallengeManager (transaction, run, Call, CreateLayerZeroEdge, on_store, put_store, getLayerZeroEndHeight, staking).

(** ** Initialization *)

(** What [initialize] establishes about the parameters. *)
Record settings_ok (c : Settings) : Prop := {
  ok_num : 0 < NUM_BIGSTEP_LEVEL c <= 253;
  ok_block_height : isPowerOfTwo (LAYERZERO_BLOCKEDGE_HEIGHT c) = true;
  ok_bigstep_height : isPowerOfTwo (LAYERZERO_BIGSTEPEDGE_HEIGHT c) = true;
  ok_smallstep_height : isPowerOfTwo (LAYERZERO_SMALLSTEPEDGE_HEIGHT c) = true;
  ok_period : challengePeriodBlocks c <> 0;
}.

Section history.
Context `{Hasher} `{!HasherNonzero} `{!HasherInjective} `{IOneStepProofEntry} `{AbiDecode}.
Context {R T : Type} `{IAssertionChain R} `{IERC20 T} (this : Address).
Implicit Types w : World R T.

Lemma initialize_settings chain period osp h0 h1 h2 tok amount receiver n w w' :
  0 <= n -> EdgeChallengeManager.initialize chain period osp h0 h1 h2 tok amount receiver n w = (Ok tt, w') ->
  settings_ok (settings w') /\ store w' = store w.
Proof.
  intros Hn. unfold EdgeChallengeManager.initialize, get, modify, mbind, M_bind, fail.
  destruct (initialized _); [done|]. destruct (chain =? 0); [done|]. destruct (osp =? 0); [done|].
  destruct (Z.eqb_spec period 0); [done|]. destruct (receiver =? 0); [done|].
  destruct (isPowerOfTwo h0) eqn:E0; [|done]. destruct (isPowerOfTwo h1) eqn:E1; [|done].
  destruct (isPowerOfTwo h2) eqn:E2; [|done]. cbn [negb]. destruct (Z.eqb_spec n 0); [done|].
  destruct (Z.ltb_spec 253 n); [done|]. intros [= <-]. split; [|done]. by split; cbn; try done; lia.
Qed.

(** ** Transactions *)

(** The level of a new edge is a [uint8]. *)
Definition call_ok (call : Call) : Prop :=
  match call with CreateLayerZeroEdge args => 0 <= ArgsLevel args | _ => True end.

Lemma on_store_ok {A} (m : M EdgeStore A) w a w' :
  on_store m w = (Ok a, w') -> exists s, m (store w) = (Ok a, s) /\ w' = put_store s w.
Proof. unfold on_store. destruct (m (store w)) as [r s]. intros [= -> <-]. eauto. Qed.

Lemma child_confirmed_exists c b s i x : store_inv c b s -> child_confirmed s i = Ok x ->
  exists e, EdgeContract.edges s !! i = Some e /\ ContractStatus e = EdgeConfirmed.
Proof.
  intros Hinv. unfold child_confirmed. destruct (exists_ (edge_at s i)) eqn:E; [|done]. cbn [negb].
  apply (exists_lookup _ _ _ Hinv) in E. case_bool_decide; [|done]. eauto.
Qed.

(** What a successful call does to the state: one step of the store. *)
Definition moves (b : Z) w w' : Prop :=
  settings w' = settings w /\ rollup w' = rollup w /\ store_step (settings w) b (store w) (store w').

Section calls.
Context (b : Z) (sender : Address) (w : World R T).
Hypothesis Hs : settings_ok (settings w).
Hypothesis Hb : 0 < b < two64.
Hypothesis Hinv : store_inv (settings w) b (store w).

(** A confirmation of the library ends in [confirm] of an edge that exists. *)
Definition confirms_edge {A} (m : M EdgeStore A) (i : EdgeId) : Prop :=
  forall a s', m (store w) = (Ok a, s') ->
    EdgeContract.edges (store w) !! i <> None /\ confirm b i (store w) = (Ok tt, s').

Lemma some_exists i : exists_ (edge_at (store w) i) = true -> EdgeContract.edges (store w) !! i <> None.
Proof. intros E. apply (exists_lookup _ _ _ Hinv) in E. by rewrite E. Qed.

Lemma children_confirms i : confirms_edge (confirmEdgeByChildren b i) i.
Proof.
  intros [] s' Hr. unfold confirmEdgeByChildren in Hr. apply bind_ok in Hr as (? & ? & [-> ->]%get_ok & Hr).
  destruct (exists_ _) eqn:E; [|done]. cbn [negb] in Hr. split; [by apply some_exists|].
  apply bind_ok in Hr as (? & ? & [_ ->]%lift_ok & Hr). by apply bind_ok in Hr as (? & ? & [_ ->]%lift_ok & Hr).
Qed.

Lemma claim_confirms i j n : confirms_edge (confirmEdgeByClaim b i j n) i.
Proof.
  intros [] s' Hr. unfold confirmEdgeByClaim in Hr. apply bind_ok in Hr as (? & ? & [-> ->]%get_ok & Hr).
  destruct (exists_ _) eqn:E; [|done]. cbn [negb] in Hr. split; [by apply some_exists|].
  apply bind_ok in Hr as (? & ? & [_ ->]%lift_ok & Hr). apply bind_ok in Hr as (? & ? & [_ ->]%lift_ok & Hr).
  by destruct (negb _).
Qed.

Lemma time_confirms i l t p n : confirms_edge (confirmEdgeByTime b i l t p n) i.
Proof.
  intros a s' Hr. unfold confirmEdgeByTime in Hr. apply bind_ok in Hr as (? & ? & [-> ->]%get_ok & Hr).
  destruct (exists_ _) eqn:E; [|done]. cbn [negb] in Hr. split; [by apply some_exists|].
  do 3 apply bind_ok in Hr as (? & ? & [_ ->]%lift_ok & Hr). destruct (_ <? _); [done|].
  by apply bind_ok in Hr as ([] & s1 & Hc & [-> ->]%ret_ok).
Qed.

Lemma proof_confirms i h p x l l' n : confirms_edge (confirmEdgeByOneStepProof b i h p x l l' n) i.
Proof.
  intros [] s' Hr. unfold confirmEdgeByOneStepProof in Hr. apply bind_ok in Hr as (? & ? & [-> ->]%get_ok & Hr).
  apply bind_ok in Hr as (? & ? & [E ->]%lift_ok & Hr). apply (get_ok_lookup _ _ _ Hinv) in E.
  split; [by rewrite E|]. apply bind_ok in Hr as (? & ? & [_ ->]%lift_ok & Hr). destruct (negb _); [done|].
  apply bind_ok in Hr as (? & ? & [_ ->]%lift_ok & Hr). destruct (negb _); [done|].
  do 4 apply bind_ok in Hr as (? & ? & [_ ->]%lift_ok & Hr). done.
Qed.

Lemma confirms_moves {A} (m : M EdgeStore A) i (e : EdgeEvent) a w1 w2 :
  confirms_edge m i -> on_store m w = (Ok a, w1) -> EdgeChallengeManager.emit e w1 = (Ok tt, w2) ->
  moves b w w2 /\ token w2 = token w /\ exists x, EdgeContract.edges (store w) !! i = Some x /\
    store w2 = put_edge i (with_status x b) (put_confirmedRival (mutualId x) i (store w)).
Proof.
  intros Hm (s & Hr & ->)%on_store_ok ->%modify_ok. destruct (Hm _ _ Hr) as [Hx Hc].
  destruct (confirm_step _ _ Hb _ _ _ Hinv Hx Hc) as (x & Hi & Hst & ->). split_and!; try done. by exists x.
Qed.

(** What was checked of the claim of a block edge: the assertion was pending, with a sibling, the edge has its
    parent as origin and starts from the state of the parent. *)
Record claim_checked (c : Settings) (r : R) (e : ChallengeEdge) : Prop := {
  checked_pending : isPending r (EdgeClaimId e) = Ok true;
  checked_sibling : exists k, getSecondChildCreationBlock r (EdgeOriginId e) = Ok k /\ 0 < k;
  checked_claim : exists st acc, validateAssertionHash r (EdgeClaimId e) st (EdgeOriginId e) acc = Ok tt;
  checked_start : exists st prev acc m leaf, validateAssertionHash r (EdgeOriginId e) st prev acc = Ok tt /\
    getMachineHash st = Ok m /\ appendLeaf [] m = Ok leaf /\ root leaf = Ok (StartHistoryRoot e);
  checked_heights : StartHeight e = 0 /\ EndHeight e = layer_height c 0;
}.

(** What a call does to the store and to the token. *)
Inductive effect (call : Call) w' : Prop :=
| effect_claim e : EdgeContract.edges (store w) !! id e = None -> edge_ok (settings w) b e -> fresh b e ->
    EdgeClaimId e <> 0 -> store w' = insert_edge e (store w) ->
    (if staking (settings w) then
       safeTransferFrom (token w) sender
         (if firstRival_at (store w) (mutualId e) =? 0 then this else excessStakeReceiver (settings w))
         (stakeAmount (settings w)) = Ok (token w')
     else token w' = token w) ->
    (EdgeLevel e = 0 -> claim_checked (settings w) (rollup w) e) -> effect call w'
| effect_bisect i e root mid : EdgeContract.edges (store w) !! i = Some e -> token w' = token w ->
    EdgeContract.edges (ensure_edge (lower_half b e root mid) (store w)) !! id (upper_half b e root mid) = None ->
    store w' = put_edge i (with_children e (id (lower_half b e root mid)) (id (upper_half b e root mid)))
      (insert_edge (upper_half b e root mid) (ensure_edge (lower_half b e root mid) (store w))) -> effect call w'
| effect_confirm i e : EdgeContract.edges (store w) !! i = Some e -> token w' = token w ->
    store w' = put_edge i (with_status e b) (put_confirmedRival (mutualId e) i (store w)) -> effect call w'
| effect_refund i e : call = EdgeChallengeManager.RefundStake i -> EdgeContract.edges (store w) !! i = Some e ->
    ContractStatus e = EdgeConfirmed -> isLayerZero e = true -> Refunded e = false ->
    store w' = put_edge i (with_refund e) (store w) ->
    (if staking (settings w) then safeTransfer (token w) (Staker e) (stakeAmount (settings w)) = Ok (token w')
     else token w' = token w) -> effect call w'.

(** A block edge is only created when its claim was checked. *)
Lemma create_checked args t ard st en proof e :
  ArgsLevel args = 0 -> levelToType (ArgsLevel args) (NUM_BIGSTEP_LEVEL (settings w)) = Ok t ->
  (if bool_decide (t = Block) then EdgeChallengeManager.reference_data (rollup w) args else Ok no_ard) = Ok ard ->
  EdgeClaimId e = ArgsClaimId args -> EdgeLevel e = ArgsLevel args -> edge_ok (settings w) b e -> StartHeight e = 0 ->
  layerZeroTypeSpecificChecks (store w) args ard (NUM_BIGSTEP_LEVEL (settings w)) = Ok (st, en, proof, EdgeOriginId e) ->
  layerZeroCommonChecks st en proof args (layer_height (settings w) (ArgsLevel args)) = Ok (StartHistoryRoot e) ->
  EndHeight e = ArgsEndHeight args -> claim_checked (settings w) (rollup w) e.
Proof.
  intros El Et Ea Hcl Hlv Hok Hst Ht Hcm Hen. rewrite El in Et. injection Et as <-. rewrite bool_decide_true in Ea by done.
  unfold EdgeChallengeManager.reference_data in Ea. destruct (len (ArgsProof args) =? 0) eqn:Elen; [done|].
  apply res_bind_ok in Ea as ([[? pre] cl] & Hdec & Ea). apply res_bind_ok in Ea as ([] & Hv & Ea). apply res_bind_ok in Ea as ([] & Hv' & Ea).
  apply res_bind_ok in Ea as (p & Hp & Ea). apply res_bind_ok in Ea as (k & Hk & [= <-]).
  unfold layerZeroTypeSpecificChecks in Ht. rewrite El in Ht.
  cbn [levelToType Z.eqb mbind res_bind assertionHash ardIsPending hasSibling predecessorId startState endState] in Ht.
  rewrite bool_decide_true in Ht by done.
  destruct (ArgsClaimId args =? 0); [done|]. rewrite Z.eqb_refl in Ht. cbn [negb] in Ht. destruct p; [|done]. cbn [negb] in Ht. destruct (Z.ltb_spec 0 k) as [Hk0|]; [|done].
  rewrite Elen, Hdec in Ht. cbn [negb mbind res_bind] in Ht. destruct (_ =? MachineStatusRunning); [done|]. destruct (_ =? MachineStatusRunning); [done|].
  apply res_bind_ok in Ht as (m & Hm & Ht). apply res_bind_ok in Ht as (? & _ & [= -> _ _ Ho]).
  pose proof (commonChecks_prefix _ _ _ _ _ _ Hcm) as [He _]. unfold layerZeroCommonChecks in Hcm.
  apply res_bind_ok in Hcm as (leaf & Hlf & Hcm). apply res_bind_ok in Hcm as (rt & Hrt & Hcm).
  assert (rt = StartHistoryRoot e) as ->.
  { destruct (negb _); [done|]. destruct (negb _); [done|]. apply res_bind_ok in Hcm as (? & _ & Hcm). destruct (len (ArgsPrefixProof args) =? 0); [done|].
    apply res_bind_ok in Hcm as ([? ?] & _ & Hcm). apply res_bind_ok in Hcm as (? & _ & Hcm). by apply res_bind_ok in Hcm as (? & _ & [= ->]). }
  split; rewrite ?Hcl, <- ?Ho; eauto 10. split; [done|]. by rewrite Hen, He, El.
Qed.

Lemma create_moves args i w' :
  0 <= ArgsLevel args -> EdgeChallengeManager.createLayerZeroEdge this b sender args w = (Ok i, w') ->
  moves b w w' /\ effect (CreateLayerZeroEdge args) w'.
Proof.
  intros Hl Hr. unfold EdgeChallengeManager.createLayerZeroEdge in Hr.
  apply bind_ok in Hr as (? & ? & [-> ->]%get_ok & Hr).
  apply bind_ok in Hr as (t & ? & [Et ->]%lift_ok & Hr). apply bind_ok in Hr as (ard & ? & [Ea ->]%lift_ok & Hr).
  apply bind_ok in Hr as (d & ? & (s & Hst & ->)%on_store_ok & Hr).
  apply bind_ok in Hr as ([] & w1 & Hpay & Hr). apply bind_ok in Hr as ([] & w2 & ->%modify_ok & [-> ->]%ret_ok).
  assert (Eh : getLayerZeroEndHeight (settings w) t = layer_height (settings w) (ArgsLevel args))
    by (unfold layer_height; by rewrite Et). rewrite Eh in Hst.
  destruct (createLayerZeroEdge_step (settings w) _ sender Hb ltac:(pose proof (ok_num _ Hs); lia) _ _ _ _ _ Hinv Hl Hst)
    as (e & -> & Hstep & Hn & Hok & Hf & _ & Hrv & Hsd & Hlv & Hcl & _ & Hs0 & He0 & st & en & proof & Ht & Hcm).
  assert (Hpd : EdgeLevel e = 0 -> claim_checked (settings w) (rollup w) e).
  { intros E0. eapply create_checked; try done; congruence. }
  assert (Hz : EdgeClaimId e <> 0).
  { intros E0. unfold createLayerZeroEdge in Hst. rewrite Hcl in E0.
    apply bind_ok in Hst as (? & ? & [-> ->]%get_ok & Hst). apply bind_ok in Hst as ([[[? ?] ?] ?] & ? & [_ ->]%lift_ok & Hst).
    apply bind_ok in Hst as (? & ? & [_ ->]%lift_ok & Hst). apply bind_ok in Hst as (ce & ? & [Hnew ->]%lift_ok & _).
    unfold newLayerZeroEdge in Hnew. rewrite E0 in Hnew. by destruct (sender =? 0). }
  rewrite Hrv in Hpay. destruct (staking (settings w)) eqn:Hstk.
  - apply bind_ok in Hpay as (tk & ? & [Htk ->]%lift_ok & ->%modify_ok). split; [done|].
    apply (effect_claim _ _ e); try done. rewrite Hstk. by destruct (firstRival_at (store w) (mutualId e) =? 0).
  - apply ret_ok in Hpay as [_ ->]. split; [done|]. apply (effect_claim _ _ e); try done. by rewrite Hstk.
Qed.

Lemma bisect_moves i root proof r w' :
  EdgeChallengeManager.bisectEdge b i root proof w = (Ok r, w') ->
  moves b w w' /\ effect (EdgeChallengeManager.BisectEdge i root proof) w'.
Proof.
  intros Hr. unfold EdgeChallengeManager.bisectEdge in Hr.
  apply bind_ok in Hr as ([[l o] u] & ? & (s & Hst & ->)%on_store_ok & Hr).
  apply bind_ok in Hr as ([] & w1 & Hl & Hr). apply bind_ok in Hr as ([] & w2 & ->%modify_ok & Hr).
  apply bind_ok in Hr as ([] & w3 & ->%modify_ok & [_ ->]%ret_ok).
  destruct (bisectEdge_step _ _ Hb _ _ _ _ _ _ Hinv Hst) as (e & mid & Hi & Hstep & _ & -> & _ & _ & Hn).
  destruct o as [o|]; [apply modify_ok in Hl as ->|apply ret_ok in Hl as [_ ->]]; (split; [done|]);
    by apply (effect_bisect _ _ i e root mid).
Qed.

Lemma refund_moves i w' :
  EdgeChallengeManager.refundStake i w = (Ok tt, w') ->
  moves b w w' /\ effect (EdgeChallengeManager.RefundStake i) w'.
Proof.
  intros Hr. unfold EdgeChallengeManager.refundStake in Hr. apply bind_ok in Hr as (? & ? & [-> ->]%get_ok & Hr).
  apply bind_ok in Hr as (e & ? & [He ->]%lift_ok & Hr). apply (get_ok_lookup _ _ _ Hinv) in He.
  apply bind_ok in Hr as (x & ? & [Hx ->]%lift_ok & Hr).
  unfold setRefunded in Hx. case_bool_decide as Hc; [|done]. cbn [negb] in Hx.
  destruct (isLayerZero e) eqn:Hz; [|done]. destruct (Refunded e) eqn:Hf; [done|]. injection Hx as <-.
  apply bind_ok in Hr as (? & ? & (s & Hm & ->)%on_store_ok & Hr). apply modify_ok in Hm as ->.
  apply bind_ok in Hr as ([] & w1 & Hpay & Hr). apply bind_ok in Hr as (? & ? & [-> ->]%get_ok & ->%modify_ok).
  assert (Hst : store_step (settings w) b (store w) (put_edge i (with_refund e) (store w))) by (by apply step_refund).
  destruct (staking (settings w)) eqn:Hstk.
  - apply bind_ok in Hpay as (tk & ? & [Htk ->]%lift_ok & ->%modify_ok). split; [done|].
    apply (effect_refund _ _ i e); try done. by rewrite Hstk.
  - apply ret_ok in Hpay as [_ ->]. split; [done|]. apply (effect_refund _ _ i e); try done. by rewrite Hstk.
Qed.

(** The edge a call confirms. *)
Definition confirms_call (call : Call) : option EdgeId :=
  match call with
  | EdgeChallengeManager.ConfirmEdgeByChildren i | EdgeChallengeManager.ConfirmEdgeByClaim i _
  | EdgeChallengeManager.ConfirmEdgeByTime i _ _ | EdgeChallengeManager.ConfirmEdgeByOneStepProof i _ _ _ _ _ => Some i
  | _ => None
  end.

Lemma run_confirms call i w' : confirms_call call = Some i -> run this b sender call w = (Ok tt, w') ->
  moves b w w' /\ token w' = token w /\ exists x, EdgeContract.edges (store w) !! i = Some x /\
    store w' = put_edge i (with_status x b) (put_confirmedRival (mutualId x) i (store w)).
Proof.
  intros Hc Hr. destruct call as [args|? root proof|?|? j|? l d|? h p q l l'|?]; cbn [run confirms_call] in *;
    try done; injection Hc as ->.
  - apply bind_ok in Hr as (? & w1 & Hon & Hr). apply bind_ok in Hr as (? & ? & [-> ->]%get_ok & Hr).
    by eapply confirms_moves; [apply children_confirms|..].
  - apply bind_ok in Hr as (? & ? & [-> ->]%get_ok & Hr).
    apply bind_ok in Hr as (? & w1 & Hon & Hr). apply bind_ok in Hr as (? & ? & [-> ->]%get_ok & Hr).
    by eapply confirms_moves; [apply claim_confirms|..].
  - unfold EdgeChallengeManager.confirmEdgeByTime in Hr. apply bind_ok in Hr as (? & ? & [-> ->]%get_ok & Hr).
    apply bind_ok in Hr as (? & ? & [_ ->]%lift_ok & Hr). apply bind_ok in Hr as (? & ? & [_ ->]%lift_ok & Hr).
    do 2 (destruct (negb _); [done|]). apply bind_ok in Hr as (? & ? & [_ ->]%lift_ok & Hr).
    apply bind_ok in Hr as (? & w1 & Hon & Hr). apply bind_ok in Hr as (? & ? & [-> ->]%get_ok & Hr).
    by eapply confirms_moves; [apply time_confirms|..].
  - unfold EdgeChallengeManager.confirmEdgeByOneStepProof in Hr. apply bind_ok in Hr as (? & ? & [-> ->]%get_ok & Hr).
    do 2 apply bind_ok in Hr as (? & ? & [_ ->]%lift_ok & Hr).
    apply bind_ok in Hr as (? & w1 & Hon & Hr). apply bind_ok in Hr as (? & ? & [-> ->]%get_ok & Hr).
    by eapply confirms_moves; [apply proof_confirms|..].
Qed.

(** Every successful call is one step of the store, of one of four kinds. *)
Lemma run_effect call w' : call_ok call -> run this b sender call w = (Ok tt, w') -> moves b w w' /\ effect call w'.
Proof.
  intros Hc Hr. destruct (confirms_call call) as [i|] eqn:Ei.
  { destruct (run_confirms _ _ _ Ei Hr) as (Hm & Ht & x & Hx & Es). split; [done|]. by apply (effect_confirm _ _ i x). }
  destruct call as [args|i root proof|i|i j|i l d|i h p q l l'|i]; cbn [run] in Hr; try done.
  - apply bind_ok in Hr as (? & ? & Hr & [_ ->]%ret_ok). by eapply create_moves.
  - apply bind_ok in Hr as (? & ? & Hr & [_ ->]%ret_ok). by eapply bisect_moves.
  - by apply refund_moves.
Qed.

End calls.

(** ** Sequences of transactions *)

(** Between two transactions only the other contracts change; none of them can take
    tokens from the contract, which approves nobody.  The contract does not call itself. *)
Definition elsewhere w w' : Prop :=
  settings w' = settings w /\ store w' = store w /\ balanceOf (token w) this <= balanceOf (token w') this.

Inductive tx_step : Z * World R T -> Z * World R T -> Prop :=
| tx_call b w b' w1 sender call r w' :
    b <= b' -> 0 < b' < two64 -> elsewhere w w1 -> call_ok call -> sender <> this ->
    transaction (run this b' sender call) w1 = (r, w') -> tx_step (b, w) (b', w')
| tx_elsewhere b w b' w' : b <= b' -> 0 < b' < two64 -> elsewhere w w' -> tx_step (b, w) (b', w').

Definition empty_store : EdgeStore := {| EdgeContract.edges := ∅; firstRivals := ∅; confirmedRivals := ∅ |}.

(** The states of a contract that was initialized with the settings [c]. *)
Definition reachable (c : Settings) (x : Z * World R T) : Prop :=
  exists b w, settings w = c /\ store w = empty_store /\ rtc tx_step (b, w) x.

Lemma reachable_later c x y : reachable c x -> rtc tx_step x y -> reachable c y.
Proof. intros (b & w & Ec & Es & Hr) Hxy. exists b, w. split_and!; try done. by etrans. Qed.

(** A transaction has no effect or makes one step. *)
Lemma tx_moves b w b' w' :
  settings_ok (settings w) -> tx_step (b, w) (b', w') -> store_inv (settings w) b (store w) ->
  settings w' = settings w /\
  (store w' = store w \/ store_step (settings w) b' (store w) (store w')).
Proof.
  intros Hs Ht Hinv.
  inversion Ht as [? ? ? w1 sender call r ? Hb Hlt (Es & Est & Hbal) Hc _ Hr|? ? ? ? ? ? (Es & Est & _)]; subst; [|by auto].
  assert (Hinv1 : store_inv (settings w1) b' (store w1)) by (rewrite Es, Est; by eapply inv_later).
  unfold transaction in Hr. destruct (run this b' sender call w1) as [[[]| | |] w2] eqn:E; injection Hr as <- <-;
    try (rewrite Es, Est; by auto).
  destruct (run_effect b' sender w1 ltac:(by rewrite Es) Hlt Hinv1 call w2 Hc E) as [(E1 & _ & Hst) _].
  rewrite Es, Est in *. auto.
Qed.

Lemma tx_invariant x y : tx_step x y -> settings_ok (settings x.2) -> store_inv (settings x.2) x.1 (store x.2) ->
  settings y.2 = settings x.2 /\ store_inv (settings y.2) y.1 (store y.2).
Proof.
  destruct x as [b w], y as [b' w']. intros Ht Hs Hinv. cbn [fst snd] in *.
  assert (b <= b') by (by inversion Ht).
  destruct (tx_moves _ _ _ _ Hs Ht Hinv) as (E & [E'|Hst]); rewrite E; (split; [done|]).
  - rewrite E'. by eapply inv_later.
  - eapply step_inv; [exact Hst|]. by eapply inv_later.
Qed.

Lemma txs_invariant x y : rtc tx_step x y -> settings_ok (settings x.2) -> store_inv (settings x.2) x.1 (store x.2) ->
  settings y.2 = settings x.2 /\ store_inv (settings y.2) y.1 (store y.2).
Proof.
  induction 1 as [x|x y z Hxy _ IH]; intros Hs Hinv; [done|].
  destruct (tx_invariant _ _ Hxy Hs Hinv) as [E Hy]. destruct IH as [E' Hz]; [by rewrite E|done|].
  split; [congruence|done].
Qed.

Lemma reachable_inv c b w : settings_ok c -> reachable c (b, w) -> settings w = c /\ store_inv c b (store w).
Proof.
  intros Hc (b0 & w0 & E0 & Es & Hr). destruct (txs_invariant _ _ Hr) as [E Hinv]; cbn in *;
    [by rewrite E0|rewrite Es; apply inv_empty|]. rewrite E, E0 in *. done.
Qed.

(** (C11) The invariant of the contract: after any sequence of transactions by anybody, each
    of which may revert, at any non-decreasing blocks, on a contract initialized with
    valid parameters, with the rollup and the token doing as they please in between,
    every edge is stored under its id, lies inside the height of its level, is a layer
    zero edge exactly when it spans its level, has both or no children, which are its
    halves, and above the block level has a rivaled edge of length one below it; the
    first rival of a mutual id is the second edge that was created with it; and an edge
    is confirmed exactly when it is the confirmed rival of its mutual id. *)
Theorem contract_invariant c b w :
  settings_ok c -> reachable c (b, w) -> store_inv c b (store w).
Proof. intros Hc Hr. by apply reachable_inv. Qed.

(** ** Permanence *)

(** What a later store keeps of an earlier one. *)
Record evolves (s s' : EdgeStore) : Prop := {
  evolves_edge i e : EdgeContract.edges s !! i = Some e ->
    exists e', EdgeContract.edges s' !! i = Some e' /\ same_data e e' /\
      (ContractStatus e = EdgeConfirmed -> ContractStatus e' = EdgeConfirmed) /\
      (Refunded e = true -> Refunded e' = true) /\
      (LowerChildId e <> 0 -> LowerChildId e' = LowerChildId e /\ UpperChildId e' = UpperChildId e);
  evolves_winner m : confirmedRival_at s m <> 0 -> confirmedRival_at s' m = confirmedRival_at s m;
  evolves_rival m : rivaled s m -> firstRival_at s' m = firstRival_at s m;
}.

#[export] Instance evolves_preorder : PreOrder evolves.
Proof.
  split.
  - intros s. split; try done. intros i e Hi. exists e. split_and!; try done. destruct e. repeat eexists.
  - intros s1 s2 s3 [He Hw Hr] [He' Hw' Hr']. split.
    + intros i e Hi. destruct (He _ _ Hi) as (e1 & Hi1 & (? & ? & ? & ? & ? & E1) & Hc1 & Hf1 & Hl1).
      destruct (He' _ _ Hi1) as (e2 & Hi2 & (? & ? & ? & ? & ? & E2) & Hc2 & Hf2 & Hl2).
      exists e2. split_and!; auto; [subst; by repeat eexists|].
      intros Hl. destruct (Hl1 Hl) as [El Eu]. destruct Hl2 as [El' Eu']; [congruence|]. split; congruence.
    + intros m Hm. rewrite Hw'; [by apply Hw|]. by rewrite Hw.
    + intros m Hm. assert (E := Hr m Hm). rewrite Hr'; [done|]. unfold rivaled in *. by rewrite E.
Qed.

Lemma evolves_insert e s : EdgeContract.edges s !! id e = None -> evolves s (insert_edge e s).
Proof.
  intros Hn. split.
  - intros i x Hi. exists x. rewrite edges_insert, lookup_insert_ne by congruence.
    split_and!; try done. destruct x. repeat eexists.
  - intros m _. apply confirmed_insert.
  - intros m [Hr1 Hr2]. rewrite firstRival_insert. case_decide; [|done].
    by rewrite (proj2 (Z.eqb_neq _ 0)), (proj2 (Z.eqb_neq _ UNRIVALED)) by done.
Qed.

Lemma evolves_ensure e s : evolves s (ensure_edge e s).
Proof. unfold ensure_edge. destruct (_ !! _) eqn:E; [reflexivity|by apply evolves_insert]. Qed.

Lemma evolves_put i e l u k status refunded s :
  EdgeContract.edges s !! i = Some e ->
  (ContractStatus e = EdgeConfirmed -> status = EdgeConfirmed) -> (Refunded e = true -> refunded = true) ->
  (LowerChildId e <> 0 -> l = LowerChildId e /\ u = UpperChildId e) ->
  evolves s (put_edge i (updated e l u k status refunded) s).
Proof.
  intros Hi Hc Hf Hl. split; [|done..]. intros j x Hj. cbn [put_edge EdgeContract.edges].
  destruct (decide (j = i)) as [->|Hne].
  - rewrite lookup_insert_eq. simplify_eq. eexists. split; [done|]. split_and!; try done. by repeat eexists.
  - rewrite lookup_insert_ne by done. exists x. split_and!; try done. destruct x. repeat eexists.
Qed.

Lemma step_evolves c b s s' : store_step c b s s' -> evolves s s'.
Proof.
  intros Hst. destruct Hst as [e Hn _ _ _ _ _|i e root mid Hi _ _ Hl Hu _ _ _ _ Hn|i e Hi Hp Hz|i e Hi Hc _ Hr].
  - by apply evolves_insert.
  - etrans; [apply (evolves_ensure (lower_half b e root mid))|]. etrans; [by apply evolves_insert|].
    apply evolves_put; try done. rewrite edges_insert, lookup_insert_ne; [by apply lookup_ensure|].
    intros E. apply (lookup_ensure (lower_half b e root mid)) in Hi. congruence.
  - assert (Hput : evolves s (put_edge i (with_status e b) s)) by (by apply evolves_put).
    destruct Hput as [He _ Hr]. split; [done| |done]. intros m Hm. unfold confirmedRival_at. cbn.
    rewrite lookup_insert_ne; [done|]. intros <-. done.
  - apply evolves_put; try done.
Qed.

Lemma txs_evolve x y : rtc tx_step x y -> settings_ok (settings x.2) -> store_inv (settings x.2) x.1 (store x.2) ->
  evolves (store x.2) (store y.2).
Proof.
  induction 1 as [x|[b w] [b' w'] z Hxy _ IH]; intros Hs Hinv; [reflexivity|]. cbn [fst snd] in *.
  destruct (tx_invariant _ _ Hxy Hs Hinv) as [E Hy]. cbn [fst snd] in *.
  destruct (tx_moves _ _ _ _ Hs Hxy Hinv) as (_ & [E'|Hst]).
  - rewrite <- E'. apply IH; [by rewrite E|done].
  - etrans; [by eapply step_evolves|]. apply IH; [by rewrite E|done].
Qed.

Lemma winner_unique c b w b' w' i e j e' :
  settings_ok c -> reachable c (b, w) -> rtc tx_step (b, w) (b', w') ->
  EdgeContract.edges (store w) !! i = Some e -> ContractStatus e = EdgeConfirmed ->
  EdgeContract.edges (store w') !! j = Some e' -> ContractStatus e' = EdgeConfirmed -> mutualId e' = mutualId e ->
  j = i /\ same_data e e'.
Proof.
  intros Hc Hr Hrw Hi He Hj He' Hm. destruct (reachable_inv _ _ _ Hc Hr) as [Es Hinv].
  rewrite <- Es in Hinv, Hc. destruct (txs_invariant _ _ Hrw Hc Hinv) as [Es' Hinv']. cbn [fst snd] in *.
  destruct (txs_evolve _ _ Hrw Hc Hinv) as [Hedge _ _]. cbn [fst snd] in *.
  destruct (Hedge _ _ Hi) as (x & Hx & Hsame & Hcx & _).
  apply (inv_confirmed _ _ _ Hinv' _ _ Hj) in He'. specialize (Hcx He).
  apply (inv_confirmed _ _ _ Hinv' _ _ Hx) in Hcx. destruct (same_data_ids _ _ Hsame) as [_ Emx].
  assert (j = i) by congruence. subst j. split; [done|]. congruence.
Qed.

(** (C10) Only one edge of a group of rivals ever wins: when an edge is confirmed at some
    point of the life of the contract, it is still there and confirmed at every later
    point, with the same commitments, and every edge with its mutual id that is confirmed
    at that point is this edge. *)
Theorem one_winner c b w b' w' i e :
  settings_ok c -> reachable c (b, w) -> rtc tx_step (b, w) (b', w') ->
  EdgeContract.edges (store w) !! i = Some e -> ContractStatus e = EdgeConfirmed ->
  exists e', EdgeContract.edges (store w') !! i = Some e' /\ ContractStatus e' = EdgeConfirmed /\ same_data e e' /\
    forall j x, EdgeContract.edges (store w') !! j = Some x -> ContractStatus x = EdgeConfirmed ->
      mutualId x = mutualId e -> j = i.
Proof.
  intros Hc Hr Hrw Hi He. destruct (reachable_inv _ _ _ Hc Hr) as [Es Hinv]. pose proof Hc as Hc'.
  rewrite <- Es in Hinv, Hc'. destruct (txs_evolve _ _ Hrw Hc' Hinv) as [Hedge _ _]. cbn [fst snd] in *.
  destruct (Hedge _ _ Hi) as (x & Hx & Hsame & Hcx & _). exists x. split_and!; auto.
  intros j y Hj Hy Hm. by eapply (winner_unique c b w b' w').
Qed.

(** ** The time an edge is unrivaled *)

(** The earliest of the other edges with a mutual id, and the time until it came. *)
Lemma timeUnrivaled_earliest c b s i e :
  store_inv c b s -> 0 < b < two64 -> EdgeContract.edges s !! i = Some e ->
  exists t, timeUnrivaled b s i = Ok t /\
    ((forall j x, EdgeContract.edges s !! j = Some x -> mutualId x = mutualId e -> j = i) /\
       t = b - EdgeCreatedAtBlock e \/
     exists j x, EdgeContract.edges s !! j = Some x /\ mutualId x = mutualId e /\ j <> i /\
       (forall j' x', EdgeContract.edges s !! j' = Some x' -> mutualId x' = mutualId e -> j' <> i ->
          EdgeCreatedAtBlock x <= EdgeCreatedAtBlock x') /\
       t = Z.max 0 (EdgeCreatedAtBlock x - EdgeCreatedAtBlock e)).
Proof.
  intros Hinv Hb Hi. unfold timeUnrivaled. rewrite (edge_at_lookup _ _ _ Hi).
  assert (Hex : forall j x, EdgeContract.edges s !! j = Some x -> exists_ x = true).
  { intros j x Hj. rewrite <- (edge_at_lookup _ _ _ Hj). apply (exists_lookup _ _ _ Hinv). by rewrite (edge_at_lookup _ _ _ Hj). }
  assert (Hcr : forall j x, EdgeContract.edges s !! j = Some x -> 0 < EdgeCreatedAtBlock x <= b).
  { intros j x Hj. apply (inv_edge _ _ _ Hinv) in Hj as [_ Hok]. by apply ok_created in Hok. }
  rewrite (Hex _ _ Hi). cbn [negb]. pose proof (Hcr _ _ Hi).
  destruct (inv_rival _ _ _ Hinv (mutualId e)) as [[_ Hnone]|[(E & k & x & Hk & Hx & Hu)|
    (r & er & k & x & E & Hr & Hmr & Hk & Hx & Hne & Hle & Hu)]].
  - by destruct (Hnone _ _ Hi).
  - rewrite E, (proj2 (Z.eqb_neq _ 0)), Z.eqb_refl by apply unrivaled_nonzero.
    rewrite (u64_small b) by lia. rewrite checked_ok by (rewrite <- two64_pow; lia).
    eexists. split; [done|]. left. split; [|done]. intros j y Hj Hy.
    rewrite (Hu _ _ Hi eq_refl). by eapply Hu.
  - destruct (inv_edge _ _ _ Hinv _ _ Hr) as [Er _]. rewrite E, <- Er.
    rewrite (proj2 (Z.eqb_neq _ 0)), (proj2 (Z.eqb_neq _ UNRIVALED));
      [|intros E'; by apply (unrivaled_not_id er)|apply id_nonzero]. rewrite Er.
    rewrite (edge_at_lookup _ _ _ Hr), (Hex _ _ Hr). cbn [negb]. pose proof (Hcr _ _ Hr).
    destruct (decide (i = k)) as [->|Hik].
    + assert (x = e) as -> by congruence. exists (Z.max 0 (EdgeCreatedAtBlock er - EdgeCreatedAtBlock e)). split.
      * destruct (Z.ltb_spec (EdgeCreatedAtBlock e) (EdgeCreatedAtBlock er)); [|f_equal; lia].
        rewrite checked_ok by (rewrite <- two64_pow; lia). f_equal. lia.
      * right. exists r, er. split_and!; try done; auto; eauto.
    + exists 0. specialize (Hu _ _ Hi eq_refl Hik) as Hei. split.
      * by destruct (Z.ltb_spec (EdgeCreatedAtBlock e) (EdgeCreatedAtBlock er)); [lia|].
      * right. exists k, x. split_and!; try done; [|lia]. intros j' x' Hj' Hx' Hn.
        destruct (decide (j' = k)) as [->|Hjk]; [simplify_eq; lia|].
        specialize (Hu _ _ Hj' Hx' Hjk). lia.
Qed.

(** (C14) The timers of the validator are those of the contract: when the tree of the
    validator has recorded the creation blocks of exactly the edges the contract stores
    with the mutual id of an edge, the local timer the tree computes at a block is the
    time unrivaled that the contract reports for the edge at that block. *)
Theorem timers_agree c b w i e (eg : Edge) (t : HonestChallengeTree) :
  settings_ok c -> reachable c (b, w) -> 0 < b < two64 ->
  EdgeContract.edges (store w) !! i = Some e ->
  Protocol.Id eg = i -> Protocol.MutualId eg = mutualId e -> Protocol.CreatedAtBlock eg = Ok (EdgeCreatedAtBlock e) ->
  (forall j k, mutuals_of t (mutualId e) !! j = Some k <->
     exists x, EdgeContract.edges (store w) !! j = Some x /\ mutualId x = mutualId e /\ k = EdgeCreatedAtBlock x) ->
  (localTimer eg b t).1 = EdgeChallengeManager.timeUnrivaled b w i.
Proof.
  intros Hc Hr Hb Hi Hid Hm Hcr Ht. destruct (reachable_inv _ _ _ Hc Hr) as [_ Hinv].
  destruct (inv_edge _ _ _ Hinv _ _ Hi) as [_ Hok]. apply ok_created in Hok.
  destruct (localTimer_run eg b (EdgeCreatedAtBlock e) t Hcr ltac:(lia) ltac:(lia)) as (t' & -> & _).
  cbn [fst]. unfold timer_of. rewrite Hcr.
  assert (Hin : forall j k, (j, k) ∈ rivals_of t eg <-> j <> i /\
    exists x, EdgeContract.edges (store w) !! j = Some x /\ mutualId x = mutualId e /\ k = EdgeCreatedAtBlock x).
  { intros j k. unfold rivals_of. rewrite list_elem_of_filter, elem_of_map_to_list, Hm, Hid. by rewrite Ht. }
  unfold EdgeChallengeManager.timeUnrivaled.
  destruct (timeUnrivaled_earliest _ _ _ _ _ Hinv Hb Hi) as (v & -> & Hv). f_equal.
  pose proof (earliest_spec t eg) as He. destruct (earliest t eg) as [m|].
  - destruct He as [([j k] & Ek & (Hj & x & Hx & Hmx & ->)%Hin)%list_elem_of_fmap Hall]. cbn in Ek. subst m.
    destruct Hv as [[Hu _]|(j' & x' & Hx' & Hmx' & Hj' & Hu & ->)]; [by destruct (Hj (Hu _ _ Hx Hmx))|].
    assert (EdgeCreatedAtBlock x <= EdgeCreatedAtBlock x').
    { apply (Hall (j', EdgeCreatedAtBlock x')), Hin. eauto. }
    specialize (Hu _ _ Hx Hmx Hj). apply (inv_edge _ _ _ Hinv) in Hx as [_ Hox]. apply ok_created in Hox. lia.
  - destruct Hv as [[_ ->]|(j' & x' & Hx' & Hmx' & Hj' & Hu & ->)]; [lia|].
    assert (Hbad : (j', EdgeCreatedAtBlock x') ∈ rivals_of t eg) by (apply Hin; eauto).
    rewrite He in Hbad. by apply not_elem_of_nil in Hbad.
Qed.

(** ** The assertion at the root of a challenge *)

Lemma prev_loop_total c b s : store_inv c b s ->
  forall (n : nat) e, 0 <= EdgeLevel e <= Z.of_nat n -> origin_ok s e ->
  exists h, (forall fuel e', EdgeLevel e' = EdgeLevel e -> EdgeOriginId e' = EdgeOriginId e ->
    prev_loop (S n + fuel) s e' = Ok h) /\
    exists i x, (0 < EdgeLevel e -> EdgeContract.edges s !! i = Some x /\ EdgeLevel x = 0) /\
      h = if 0 <? EdgeLevel e then EdgeOriginId x else EdgeOriginId e.
Proof.
  intros Hinv n. induction n as [|n IH]; intros e Hl Ho.
  { exists (EdgeOriginId e). assert (El : EdgeLevel e = 0) by lia. split.
    - intros fuel e' E1 E2. cbn [Nat.add prev_loop]. rewrite E1, El, E2. done.
    - exists 0, e. rewrite El. split; [lia|done]. }
  destruct (Z.ltb_spec 0 (EdgeLevel e)) as [Hpos|Hz]; cycle 1.
  { exists (EdgeOriginId e). split; [|exists 0, e; split; [lia|done]]. intros fuel e' E1 E2. cbn [Nat.add prev_loop].
    rewrite E1, E2. by destruct (Z.ltb_spec 0 (EdgeLevel e)); [lia|]. }
  destruct (Ho Hpos) as (Hrv & i & claim & Hi & Hm & Hlv & _).
  assert (Hfr : exists x, EdgeContract.edges s !! firstRival_at s (EdgeOriginId e) = Some x /\
    EdgeLevel x = EdgeLevel claim /\ EdgeOriginId x = EdgeOriginId claim).
  { destruct Hrv as [Hr1 Hr2].
    destruct (inv_rival _ _ _ Hinv (EdgeOriginId e)) as [[E _]|[(E & _)|(r & er & k & x & -> & Hr & Hmr & _)]]; [done..|].
    exists er. split; [done|]. rewrite <- Hm in Hmr. apply mutual_inj in Hmr as (? & ? & _). done. }
  destruct Hfr as (x & Hx & Elx & Eox).
  destruct (IH claim) as (h & Hh & k & y & Hy & Eh); [lia|by apply (inv_origin _ _ _ Hinv) in Hi|].
  exists h. split.
  - intros fuel e' E1 E2. change (S (S n) + fuel)%nat with (S (S n + fuel)). cbn [prev_loop].
    rewrite E1, E2. destruct (Z.ltb_spec 0 (EdgeLevel e)); [|lia].
    apply (get_ok_lookup _ _ _ Hinv) in Hx. rewrite Hx. by apply Hh.
  - destruct (Z.ltb_spec 0 (EdgeLevel claim)) as [Hc'|Hc'].
    + exists k, y. split; [|done]. intros _. by apply Hy.
    + exists i, claim. split; [|done]. intros _. split; [done|].
      apply (inv_edge _ _ _ Hinv) in Hi as [_ Hok]. apply ok_level in Hok. lia.
Qed.

(** The root of a challenge: for every edge of the contract [getPrevAssertionHash]
    returns, and its loop down the levels needs no more steps than there are levels.  The
    result is the same for the halves of an edge and for a layer zero edge and the edge
    it claims, so that all the edges of a challenge lead to the same assertion. *)
Theorem getPrevAssertionHash_total c b w i e :
  settings_ok c -> reachable c (b, w) -> EdgeContract.edges (store w) !! i = Some e ->
  exists h, EdgeChallengeManager.getPrevAssertionHash w i = Ok h /\
    (EdgeLevel e = 0 -> h = EdgeOriginId e) /\
    (LowerChildId e <> 0 ->
       EdgeChallengeManager.getPrevAssertionHash w (LowerChildId e) = Ok h /\
       EdgeChallengeManager.getPrevAssertionHash w (UpperChildId e) = Ok h) /\
    (0 < EdgeLevel e -> EdgeClaimId e <> 0 -> EdgeChallengeManager.getPrevAssertionHash w (EdgeClaimId e) = Ok h).
Proof.
  intros Hc Hr Hi. destruct (reachable_inv _ _ _ Hc Hr) as [_ Hinv].
  destruct (inv_edge _ _ _ Hinv _ _ Hi) as [_ Hok]. pose proof (ok_level _ _ _ Hok). pose proof (ok_num _ Hc).
  pose proof (inv_origin _ _ _ Hinv _ _ Hi) as Ho.
  destruct (prev_loop_total _ _ _ Hinv 254 e ltac:(lia) Ho) as (h & Hh & k & x & _ & Eh).
  assert (Hrun : forall j y, EdgeContract.edges (store w) !! j = Some y -> EdgeLevel y = EdgeLevel e ->
    EdgeOriginId y = EdgeOriginId e -> EdgeChallengeManager.getPrevAssertionHash w j = Ok h).
  { intros j y Hj E1 E2. unfold EdgeChallengeManager.getPrevAssertionHash, getPrevAssertionHash.
    apply (get_ok_lookup _ _ _ Hinv) in Hj. rewrite Hj. by apply (Hh 1%nat). }
  exists h. split_and!.
  - by eapply Hrun.
  - intros E. rewrite Eh, E. done.
  - intros Hl. destruct (inv_children _ _ _ Hinv _ _ Hi) as [[? _]|(_ & l & u & Hlo & Hup & [_ [] [] _ _ _])]; [done|].
    split; by eapply Hrun.
  - intros Hpos Hcl. destruct (Ho Hpos) as (Hrv & j & claim & Hj & Hm & Hlv & _ & Ej). rewrite (Ej Hcl).
    unfold EdgeChallengeManager.getPrevAssertionHash, getPrevAssertionHash.
    destruct (prev_loop_total _ _ _ Hinv 253 claim ltac:(lia) ltac:(by apply (inv_origin _ _ _ Hinv) in Hj))
      as (h' & Hh' & _). assert (Hj' := Hj). apply (get_ok_lookup _ _ _ Hinv) in Hj'. rewrite Hj'.
    transitivity (Ok h'); [by apply (Hh' 2%nat)|]. specialize (Hh 0%nat e eq_refl eq_refl).
    change (255 + 0)%nat with (S 254) in Hh. cbn [prev_loop] in Hh. destruct (Z.ltb_spec 0 (EdgeLevel e)); [|lia].
    apply res_bind_ok in Hh as (x' & Hx' & Hh). apply (get_ok_lookup _ _ _ Hinv) in Hx'. rewrite <- Hh. symmetry.
    apply (Hh' 0%nat);
      (destruct Hrv as [Hr1 Hr2];
       destruct (inv_rival _ _ _ Hinv (EdgeOriginId e)) as [[E _]|[(E & _)|(r & er & n & y & E & Hr' & Hmr & _)]]; [done..|];
       rewrite E in Hx'; simplify_eq; rewrite <- Hm in Hmr; apply mutual_inj in Hmr as (? & ? & _); done).
Qed.

End history.
