(* ===== verification/EdgeContractReplay.v ===== *)
(** * Confirmations over time

    The validator tries a confirmation before it sends it, and when the mined transaction
    has failed it replays the call to learn why.  What a confirmation needs stays true
    once it is, with the one exception that only one of the rivals can be confirmed:
    a confirmation that was tried with success and fails later fails for good. *)

From S2P Require Import Prelude PrefixProofs Protocol Contracts MerkleContract CommitChain EdgeContract EdgeContractSpec EdgeContractHistory.
Import ChallengeEdgeLib EdgeChallengeManagerLib.
Import EdgeChallengeManager (run, Call, assertion_blocks, level_fuel).

(** What the contract relies on of the rollup: what it says about an assertion that was
    pending does not change, and the parent of a first child has a first child. *)
Class AssertionLaws {R : Type} `{IAssertionChain R} (later : relation R) : Prop := {
  later_preorder :: PreOrder later;
  later_isFirstChild r0 r r' h x : isPending r0 h = Ok true -> later r0 r -> later r r' ->
    isFirstChild r h = Ok x -> isFirstChild r' h = Ok x;
  later_validate r r' h st prev acc : later r r' ->
    validateAssertionHash r h st prev acc = Ok tt -> validateAssertionHash r' h st prev acc = Ok tt;
  later_firstBlock r r' h k : later r r' -> k <> 0 ->
    getFirstChildCreationBlock r h = Ok k -> getFirstChildCreationBlock r' h = Ok k;
  later_secondBlock r r' h k : later r r' -> k <> 0 ->
    getSecondChildCreationBlock r h = Ok k -> getSecondChildCreationBlock r' h = Ok k;
  later_config r r' h cfg : later r r' -> validateConfig r h cfg = Ok tt -> validateConfig r' h cfg = Ok tt;
  later_bridge r r' : later r r' -> bridge r' = bridge r;
  first_child_block r h st prev acc k : isFirstChild r h = Ok true ->
    validateAssertionHash r h st prev acc = Ok tt -> getFirstChildCreationBlock r prev = Ok k -> 0 < k;
}.

(** ** Stores that grow *)

Section extension.
Context `{Hasher} `{!HasherNonzero} `{!HasherInjective} (c : Settings).

Lemma stored_nonzero b s i e : store_inv c b s -> edges s !! i = Some e -> i <> 0.
Proof. intros Hinv Hi ->. apply (inv_edge _ _ _ Hinv) in Hi as [E _]. by apply id_nonzero in E. Qed.

Lemma children_both b s i e : store_inv c b s -> edges s !! i = Some e -> UpperChildId e <> 0 -> LowerChildId e <> 0.
Proof.
  intros Hinv Hi Hu. destruct (inv_children _ _ _ Hinv _ _ Hi) as [[_ ?]|(_ & l & u & Hl & _)]; [done|].
  by eapply stored_nonzero.
Qed.

(** A store at a block and one at a later block of the same contract. *)
Record extends (x y : Z * EdgeStore) : Prop := {
  ext_inv : store_inv c x.1 x.2;
  ext_inv' : store_inv c y.1 y.2;
  ext_block : 0 < x.1 <= y.1 /\ y.1 < two64;
  ext_evolves : evolves x.2 y.2;
  ext_new i e : edges y.2 !! i = Some e -> edges x.2 !! i = None -> x.1 <= EdgeCreatedAtBlock e;
}.

Lemma step_new b s s' i e : store_step c b s s' -> edges s' !! i = Some e -> edges s !! i = None ->
  EdgeCreatedAtBlock e = b.
Proof.
  intros Hst He Hn.
  destruct Hst as [x Hx _ Hf _ _ _|j x root mid Hj _ _ _ _ _ _ _ _ _|j x Hj _ _|j x Hj _ _ _]; cbn [put_edge put_confirmedRival edges] in He.
  - rewrite edges_insert, lookup_insert_Some in He. destruct He as [[_ <-]|[_ He]]; [|congruence]. apply Hf.
  - rewrite lookup_insert_ne in He by congruence. rewrite edges_insert, lookup_insert_Some in He.
    destruct He as [[_ <-]|[_ He]]; [done|]. unfold ensure_edge in He. destruct (edges s !! id _); [congruence|].
    rewrite edges_insert, lookup_insert_Some in He. destruct He as [[_ <-]|[_ He]]; [done|congruence].
  - rewrite lookup_insert_ne in He by congruence. congruence.
  - rewrite lookup_insert_ne in He by congruence. congruence.
Qed.

Section two.
Context (x y : Z * EdgeStore).
Hypothesis Hxy : extends x y.

Lemma ext_edge i e : edges x.2 !! i = Some e -> exists e', edges y.2 !! i = Some e' /\ same_data e e' /\
  (ContractStatus e = EdgeConfirmed -> ContractStatus e' = EdgeConfirmed) /\
  (LowerChildId e <> 0 -> LowerChildId e' = LowerChildId e /\ UpperChildId e' = UpperChildId e).
Proof.
  intros Hi. destruct (evolves_edge _ _ (ext_evolves _ _ Hxy) _ _ Hi) as (e' & He & Hs & Hc & _ & Hl).
  by exists e'.
Qed.

Lemma ext_get i e : get_ x.2 i = Ok e -> exists e', get_ y.2 i = Ok e' /\ same_data e e'.
Proof.
  intros Hi%(get_ok_lookup _ _ _ (ext_inv _ _ Hxy)). destruct (ext_edge _ _ Hi) as (e' & He & Hs & _).
  exists e'. split; [by apply (get_ok_lookup _ _ _ (ext_inv' _ _ Hxy))|done].
Qed.

Lemma ext_exists i : exists_ (edge_at x.2 i) = true -> exists_ (edge_at y.2 i) = true /\ same_data (edge_at x.2 i) (edge_at y.2 i).
Proof.
  intros Hi%(exists_lookup _ _ _ (ext_inv _ _ Hxy)). destruct (ext_edge _ _ Hi) as (e' & He & Hs & _).
  rewrite (edge_at_lookup _ _ _ He). split; [|done]. rewrite <- (edge_at_lookup _ _ _ He).
  apply (exists_lookup _ _ _ (ext_inv' _ _ Hxy)). by rewrite (edge_at_lookup _ _ _ He).
Qed.

Lemma ext_child i : child_confirmed x.2 i = Ok tt -> child_confirmed y.2 i = Ok tt.
Proof.
  intros Hc. destruct (child_confirmed_exists _ _ _ _ _ (ext_inv _ _ Hxy) Hc) as (e & Hi & Hs).
  destruct (ext_edge _ _ Hi) as (e' & He & _ & Hcf & _). unfold child_confirmed.
  assert (Hx : exists_ (edge_at y.2 i) = true).
  { apply (exists_lookup _ _ _ (ext_inv' _ _ Hxy)). by rewrite (edge_at_lookup _ _ _ He). }
  rewrite Hx, (edge_at_lookup _ _ _ He). cbn [negb]. by rewrite bool_decide_eq_true_2 by auto.
Qed.

(** The time an edge is unrivaled never decreases. *)
Lemma ext_time i e t : edges x.2 !! i = Some e -> timeUnrivaled x.1 x.2 i = Ok t ->
  exists t', timeUnrivaled y.1 y.2 i = Ok t' /\ 0 <= t <= t'.
Proof.
  intros Hi Ht. destruct (ext_block _ _ Hxy) as [Hb1 Hb2]. destruct (ext_edge _ _ Hi) as (e' & He & Hs & _).
  destruct (timeUnrivaled_earliest _ x.1 x.2 i e (ext_inv _ _ Hxy) ltac:(lia) Hi) as (t0 & E0 & Hv).
  assert (t0 = t) as -> by congruence.
  destruct (timeUnrivaled_earliest _ y.1 y.2 i e' (ext_inv' _ _ Hxy) ltac:(lia) He) as (t' & E' & Hv').
  exists t'. split; [done|]. destruct (same_data_ids _ _ Hs) as [_ Em]. rewrite Em in Hv'.
  assert (Ec : EdgeCreatedAtBlock e' = EdgeCreatedAtBlock e) by (by destruct Hs as (? & ? & ? & ? & ? & ->)). rewrite Ec in Hv'.
  pose proof (ok_created _ _ _ (proj2 (inv_edge _ _ _ (ext_inv _ _ Hxy) _ _ Hi))) as Hce.
  assert (Hnew : forall j r, edges y.2 !! j = Some r ->
    (exists r0, edges x.2 !! j = Some r0 /\ mutualId r0 = mutualId r /\ EdgeCreatedAtBlock r0 = EdgeCreatedAtBlock r) \/
    x.1 <= EdgeCreatedAtBlock r).
  { intros j r Hj. destruct (edges x.2 !! j) as [r0|] eqn:E; [left; exists r0|right; by eapply ext_new].
    destruct (ext_edge _ _ E) as (r1 & Hr1 & (? & ? & ? & ? & ? & ->) & _). simplify_eq. done. }
  destruct Hv as [[Hu ->]|(j & r & Hj & Hm & Hne & Hmin & ->)].
  - destruct Hv' as [[_ ->]|(j & r & Hj & Hm & Hne & _ & ->)]; [lia|].
    destruct (Hnew _ _ Hj) as [(r0 & Hr0 & Hm0 & _)|]; [|lia]. destruct Hne. apply (Hu _ _ Hr0). congruence.
  - destruct (ext_edge _ _ Hj) as (r' & Hj' & (? & ? & ? & ? & ? & ->) & _).
    destruct Hv' as [[Hu _]|(k & r2 & Hk & Hmk & Hnk & _ & ->)]; [by destruct Hne; apply (Hu _ _ Hj' Hm)|].
    assert (EdgeCreatedAtBlock r <= EdgeCreatedAtBlock r2); [|lia].
    pose proof (ok_created _ _ _ (proj2 (inv_edge _ _ _ (ext_inv _ _ Hxy) _ _ Hj))) as Hcr.
    destruct (Hnew _ _ Hk) as [(r0 & Hr0 & Hm0 & <-)|]; [|lia]. apply (Hmin k); congruence.
Qed.

(** A link from an edge to the level above it. *)
Lemma ext_claim_link i j n : exists_ (edge_at x.2 i) = true -> exists_ (edge_at x.2 j) = true ->
  checkClaimIdLink x.2 i j n = checkClaimIdLink y.2 i j n.
Proof.
  intros Hi Hj. destruct (ext_exists _ Hi) as [_ (? & ? & ? & ? & ? & Ei)].
  destruct (ext_exists _ Hj) as [_ (? & ? & ? & ? & ? & Ej)]. unfold checkClaimIdLink. by rewrite Ei, Ej.
Qed.

(** The loop down to the assertion goes through the same edges. *)
Lemma ext_prev fuel : forall i e e' h, edges x.2 !! i = Some e -> same_data e e' ->
  prev_loop fuel x.2 e = Ok h -> prev_loop fuel y.2 e' = Ok h.
Proof.
  induction fuel as [|fuel IH]; intros i e e' h Hi Hs Hp; [done|]. cbn [prev_loop] in *.
  assert (El : EdgeLevel e' = EdgeLevel e /\ EdgeOriginId e' = EdgeOriginId e) by (by destruct Hs as (? & ? & ? & ? & ? & ->)).
  destruct El as [-> ->]. destruct (Z.ltb_spec 0 (EdgeLevel e)) as [Hl|]; [|done].
  destruct (inv_origin _ _ _ (ext_inv _ _ Hxy) _ _ Hi Hl) as [Hrv _].
  apply res_bind_ok in Hp as (r & Hr & Hp). rewrite (evolves_rival _ _ (ext_evolves _ _ Hxy) _ Hrv).
  destruct (ext_get _ _ Hr) as (r' & -> & Hsr). apply (get_ok_lookup _ _ _ (ext_inv _ _ Hxy)) in Hr. by eapply IH.
Qed.

End two.
End extension.

(** ** What a confirmation checks *)

Section guards.
Context `{Hasher} `{IOneStepProofEntry} `{AbiDecode} {R T : Type} `{IAssertionChain R} `{IERC20 T}.
Context (this : Address) (sender : Address).
Implicit Types w : World R T.

(** The checks of a confirmation that come before the edge is marked. *)
Definition guard (b : Z) w (call : Call) : res unit :=
  let s := store w in
  let n := NUM_BIGSTEP_LEVEL (settings w) in
  match call with
  | EdgeChallengeManager.ConfirmEdgeByChildren i =>
      if negb (exists_ (edge_at s i)) then revert "EdgeNotExists"
      else
        _ ← child_confirmed s (LowerChildId (edge_at s i));
        child_confirmed s (UpperChildId (edge_at s i))
  | EdgeChallengeManager.ConfirmEdgeByClaim i j =>
      if negb (exists_ (edge_at s i)) then revert "EdgeNotExists"
      else
        _ ← child_confirmed s j;
        _ ← checkClaimIdLink s i j n;
        if negb (i =? EdgeClaimId (edge_at s j)) then revert "EdgeClaimMismatch" else Ok tt
  | EdgeChallengeManager.ConfirmEdgeByTime i l d =>
      top ← get_ s (default i (list.last l));
      ty ← levelToType (EdgeLevel top) n;
      if negb (bool_decide (ty = Block)) then revert "EdgeTypeNotBlock"
      else if negb (isLayerZero top) then revert "EdgeNotLayerZero"
      else
        blocks ← assertion_blocks (rollup w) (EdgeClaimId top) d;
        if negb (exists_ (edge_at s i)) then revert "EdgeNotExists"
        else
          t ← timeUnrivaled b s i;
          total ← ancestor_loop b s n i t l;
          sum ← checked 64 (total + blocks);
          if sum <? challengePeriodBlocks (settings w) then revert "InsufficientConfirmationBlocks" else Ok tt
  | EdgeChallengeManager.ConfirmEdgeByOneStepProof i h proof cfg before after =>
      prev ← getPrevAssertionHash level_fuel s i;
      _ ← validateConfig (rollup w) prev cfg;
      e ← get_ s i;
      ty ← levelToType (EdgeLevel (edge_at s i)) n;
      if negb (bool_decide (ty = SmallStep)) then revert "EdgeTypeNotSmallStep"
      else
        len ← length (edge_at s i);
        if negb (len =? 1) then revert "EdgeNotLengthOne"
        else
          _ ← verifyInclusionProof (StartHistoryRoot (edge_at s i)) h (StartHeight e) before;
          afterHash ← proveOneStep {| MaxInboxMessagesRead := NextInboxPosition cfg; CtxBridge := bridge (rollup w);
                                      InitialWasmModuleRoot := CfgWasmModuleRoot cfg |} (StartHeight e) h proof;
          next ← checked 256 (StartHeight e + 1);
          verifyInclusionProof (EndHistoryRoot (edge_at s i)) afterHash next after
  | _ => revert "not a confirmation"
  end.

(** One check of a run that was unfolded; the confirmation itself is left as it is. *)
#[local] Ltac destruct_check :=
  match goal with
  | |- context [match ?x with _ => _ end] =>
      lazymatch x with
      | context [match _ with _ => _ end] => fail
      | context [confirm] => fail
      | _ => destruct x eqn:?
      end
  end.

Lemma run_guard call i b w : confirms_call call = Some i ->
  (run this b sender call w).1 = Ok tt <-> guard b w call = Ok tt /\ (confirm b i (store w)).1 = Ok tt.
Proof.
  intros Hc. destruct call; cbn [confirms_call] in Hc; try done; injection Hc as ->; cbn [run guard];
    unfold EdgeChallengeManager.confirmEdgeByChildren, EdgeChallengeManager.confirmEdgeByClaim,
      EdgeChallengeManager.confirmEdgeByTime, EdgeChallengeManager.confirmEdgeByOneStepProof,
      EdgeChallengeManager.on_store, EdgeChallengeManager.emit, confirmEdgeByChildren, confirmEdgeByClaim,
      EdgeChallengeManager.Lib.confirmEdgeByChildren, EdgeChallengeManager.Lib.confirmEdgeByClaim,
      EdgeChallengeManager.Lib.confirmEdgeByTime, EdgeChallengeManager.Lib.confirmEdgeByOneStepProof;
    unfold mbind, M_bind, res_bind, lift, get, modify, fail, mret, M_ret.
  all: repeat first [progress cbn [fst snd negb] | destruct_check].
  all: try (split; [done|by intros [? _]]).
  all: repeat match goal with x : unit |- _ => destruct x end; change EdgeChallengeManager.Lib.confirm with confirm.
  all: destruct (confirm b i (store w)) as [[[]| | |] ?]; cbn [fst snd]; naive_solver.
Qed.

End guards.

Section replay.
Context `{Hasher} `{!HasherNonzero} `{!HasherInjective} `{IOneStepProofEntry} `{AbiDecode}.
Context {R T : Type} `{IAssertionChain R} `{IERC20 T} (this sender : Address).
Context (later : relation R) `{!AssertionLaws later} (c : Settings).
Hypothesis Hc : settings_ok c.
Implicit Types w : World R T.

(** The assertion was pending before. *)
Definition known (r : R) (h : Hash) : Prop := exists r0, later r0 r /\ isPending r0 h = Ok true.

Lemma known_later r r' h : later r r' -> known r h -> known r' h.
Proof. intros Hr (r0 & Hr0 & Hp). exists r0. split; [by etrans|done]. Qed.

(** The blocks an assertion was unrivaled do not change. *)
Lemma assertion_blocks_later r r' h d n : known r h -> later r r' -> assertion_blocks r h d = Ok n -> assertion_blocks r' h d = Ok n.
Proof.
  intros (r0 & Hr0 & Hp0) Hr Hb. unfold assertion_blocks in *. apply res_bind_ok in Hb as (f & Ef & Hb).
  rewrite (later_isFirstChild _ _ _ _ _ Hp0 Hr0 Hr Ef). cbn [mbind res_bind]. destruct f; [|done].
  apply res_bind_ok in Hb as ([] & Ev & Hb). rewrite (later_validate _ _ _ _ _ _ Hr Ev). cbn [mbind res_bind].
  apply res_bind_ok in Hb as (k2 & E2 & Hb). apply res_bind_ok in Hb as (k1 & E1 & Hb).
  pose proof (first_child_block _ _ _ _ _ _ Ef Ev E1) as Hk1. assert (Hk := Hb). apply checked_inv in Hk as [En Hk].
  rewrite (later_secondBlock _ _ _ k2 Hr ltac:(lia) E2). cbn [mbind res_bind].
  by rewrite (later_firstBlock _ _ _ k1 Hr ltac:(lia) E1).
Qed.

(** A later state of the contract and of the rollup. *)
Definition tx_later (x y : Z * World R T) : Prop := tx_step this x y /\ later (rollup x.2) (rollup y.2).
Definition grows : relation (Z * World R T) := rtc tx_later.

Lemma grows_txs x y : grows x y -> rtc (tx_step this) x y.
Proof. apply rtc_subrel. by intros ? ? [? _]. Qed.

Lemma grows_rollup x y : grows x y -> later (rollup x.2) (rollup y.2).
Proof. induction 1 as [|? ? ? [_ Hl] _ IH]; [done|]. by etrans. Qed.

(** The states of a contract that was initialized with the settings [c], next to a rollup
    that keeps its promises. *)
Definition lawful (x : Z * World R T) : Prop :=
  exists b w, settings w = c /\ store w = empty_store /\ grows (b, w) x.

Lemma lawful_reachable x : lawful x -> reachable this c x.
Proof. intros (b & w & Ec & Es & Hg). exists b, w. split_and!; try done. by apply grows_txs. Qed.

Lemma lawful_grows x y : lawful x -> grows x y -> lawful y.
Proof. intros (b & w & Ec & Es & Hg) Hxy. exists b, w. split_and!; try done. by etrans. Qed.

(** The claim of a block edge was checked once. *)
Definition was_checked (r : R) (e : ChallengeEdge) : Prop := exists r0, later r0 r /\ claim_checked c r0 e.
Definition claims_known w : Prop := forall i e, edges (store w) !! i = Some e -> EdgeLevel e = 0 -> EdgeClaimId e <> 0 ->
  was_checked (rollup w) e.

Lemma was_checked_known r e : was_checked r e -> known r (EdgeClaimId e).
Proof. intros (r0 & Hl & Hk). exists r0. split; [done|]. by apply (checked_pending _ _ _ Hk). Qed.

Lemma was_checked_later r r' e e' : later r r' -> same_data e e' -> was_checked r e -> was_checked r' e'.
Proof. intros Hr (? & ? & ? & ? & ? & ->) (r0 & Hl & []). exists r0. split; [by etrans|by split]. Qed.

Lemma claims_step x y : tx_later x y -> settings x.2 = c -> store_inv (settings x.2) x.1 (store x.2) ->
  claims_known x.2 -> claims_known y.2.
Proof.
  destruct x as [b w], y as [b' w']. intros [Ht Hl] Ec Hinv Hk i e Hi Hlv Hcl. cbn [fst snd] in *.
  assert (Hs : settings_ok (settings w)) by (by rewrite Ec).
  destruct (edges (store w) !! i) as [e0|] eqn:E0.
  { pose proof (txs_evolve this _ _ (rtc_once _ _ Ht) Hs Hinv) as Hev. cbn [fst snd] in Hev.
    destruct (evolves_edge _ _ Hev _ _ E0) as (e1 & He1 & Hsd & _). rewrite Hi in He1. injection He1 as <-.
    apply (was_checked_later (rollup w) _ e0); [done..|]. destruct Hsd as (? & ? & ? & ? & ? & ->). by apply (Hk i). }
  destruct (tx_invariant this _ _ Ht Hs Hinv) as [_ Hinv']. cbn [fst snd] in Hinv'.
  inversion Ht as [? ? ? w1 sender' call r ? Hbb Hlt (Es & Est & Hbal) Hok _ Hr|? ? ? ? ? ? (Es & Est & _)]; subst; [|congruence].
  assert (Hcw : settings_ok (settings w1)) by (by rewrite Es).
  assert (Hinv1 : store_inv (settings w1) b' (store w1)) by (rewrite Es, Est; by eapply inv_later).
  unfold EdgeChallengeManager.transaction in Hr. destruct (run this b' sender' call w1) as [[[]| | |] w2] eqn:Er; injection Hr as _ <-; try congruence.
  destruct (run_effect this b' sender' w1 Hcw Hlt Hinv1 call w2 Hok Er) as [(_ & Erl & _) Heff].
  assert (Hn : edges (store w1) !! i = None) by (by rewrite Est). clear Er.
  destruct Heff as [x _ _ _ _ Ex _ Hp|j x root mid Hj _ _ Ex|j x Hj _ Ex|j x _ Hj _ _ _ Ex _]; rewrite Ex in Hi; cbn [put_edge put_confirmedRival edges] in Hi.
  - rewrite edges_insert, lookup_insert_Some in Hi. destruct Hi as [[_ <-]|[_ Hi]]; [|congruence].
    exists (rollup w1). rewrite Erl. split; [done|]. rewrite <- Ec, <- Es. by apply Hp.
  - rewrite lookup_insert_ne in Hi by congruence. rewrite edges_insert, lookup_insert_Some in Hi.
    destruct Hi as [[_ <-]|[_ Hi]]; [done|]. unfold ensure_edge in Hi. destruct (edges (store w1) !! id _); [congruence|].
    rewrite edges_insert, lookup_insert_Some in Hi. destruct Hi as [[_ <-]|[_ Hi]]; [done|congruence].
  - rewrite lookup_insert_ne in Hi by congruence. congruence.
  - rewrite lookup_insert_ne in Hi by congruence. congruence.
Qed.

Lemma claims_grow x y : grows x y -> settings x.2 = c -> store_inv (settings x.2) x.1 (store x.2) ->
  claims_known x.2 -> claims_known y.2.
Proof.
  induction 1 as [x|x y z Hxy _ IH]; intros Ec Hinv Hk; [done|].
  destruct (tx_invariant this _ _ (proj1 Hxy)) as [E Hy]; [by rewrite Ec|done|].
  apply IH; [by rewrite E|done|by apply (claims_step x)].
Qed.

Lemma lawful_claims x : lawful x -> claims_known x.2.
Proof.
  intros (b & w & Ec & Es & Hg). apply (claims_grow _ _ Hg); cbn [fst snd]; [done|rewrite Es; apply inv_empty|].
  intros i e Hi. by rewrite Es in Hi.
Qed.

Lemma txs_new x y : rtc (tx_step this) x y -> settings_ok (settings x.2) -> store_inv (settings x.2) x.1 (store x.2) ->
  x.1 <= y.1 /\ (0 < x.1 -> x.1 < two64 -> 0 < y.1 < two64) /\
  forall i e, edges (store y.2) !! i = Some e -> edges (store x.2) !! i = None -> x.1 <= EdgeCreatedAtBlock e.
Proof.
  induction 1 as [x|[b w] [b' w'] z Hxy Hyz IH]; intros Hs Hinv; [split_and!; [lia|lia|congruence]|].
  destruct (tx_invariant this _ _ Hxy Hs Hinv) as [E Hy]. cbn [fst snd] in *.
  destruct IH as (Hle & Hpos & Hnew); [by rewrite E|done|].
  assert (Hb : b <= b' /\ 0 < b' < two64) by (by inversion Hxy).
  split_and!; [lia|intros; apply Hpos; lia|]. intros i e Hi Hn.
  destruct (edges (store w') !! i) as [e1|] eqn:E1; [|specialize (Hnew _ _ Hi E1); lia].
  destruct (tx_moves this _ _ _ _ Hs Hxy Hinv) as (_ & [Es|Hst]); [rewrite Es in E1; congruence|].
  pose proof (step_new _ _ _ _ _ _ Hst E1 Hn).
  destruct (txs_evolve this _ _ Hyz) as [Hev _ _]; [cbn; by rewrite E|done|]. cbn [fst snd] in *.
  destruct (Hev _ _ E1) as (e2 & He2 & (? & ? & ? & ? & ? & ->) & _). simplify_eq. cbn. lia.
Qed.

Lemma grows_extends x y : reachable this c x -> 0 < x.1 < two64 -> grows x y ->
  extends c (x.1, store x.2) (y.1, store y.2) /\ reachable this c y /\ settings y.2 = c /\ 0 < y.1 < two64.
Proof.
  destruct x as [b w], y as [b' w']. intros Hr Hb Hrt%grows_txs. cbn [fst snd] in *.
  destruct (reachable_inv this _ _ _ Hc Hr) as [Es Hinv]. subst c.
  destruct (txs_invariant this _ _ Hrt Hc Hinv) as [Es' Hinv']. cbn [fst snd] in *.
  destruct (txs_new _ _ Hrt Hc Hinv) as (Hle & Hpos & Hnew). cbn [fst snd] in *.
  pose proof (txs_evolve this _ _ Hrt Hc Hinv) as Hev. cbn [fst snd] in *. rewrite Es' in *.
  assert (0 < b' < two64) by (apply Hpos; lia).
  split; [|split; [by eapply reachable_later|done]]. split; cbn [fst snd]; try done. lia.
Qed.

(** The states of a confirmation: when it was tried, and at two later points. *)
Section sandwich.
Context (x y z : Z * EdgeStore).
Hypothesis Hxy : extends c x y.
Hypothesis Hyz : extends c y z.
Let n := NUM_BIGSTEP_LEVEL c.

(** An ancestor is the parent of the edge or the edge it claims. *)
Definition linked (s : EdgeStore) (a cur : EdgeId) (e : ChallengeEdge) : Prop :=
  LowerChildId e = cur \/ UpperChildId e = cur \/
  (a = EdgeClaimId (edge_at s cur) /\ checkClaimIdLink s a cur n = Ok tt).

Lemma ancestor_cons b s a cur total rest v : ancestor_loop b s n cur total (a :: rest) = Ok v <->
  exists e t, get_ s a = Ok e /\ linked s a cur e /\ timeUnrivaled b s (id e) = Ok t /\
    0 <= total + t < 2 ^ 64 /\ ancestor_loop b s n a (total + t) rest = Ok v.
Proof.
  cbn [ancestor_loop]. split.
  - intros (e & He & Hr)%res_bind_ok. exists e.
    assert (Hgo : forall t, timeUnrivaled b s (id e) = Ok t ->
      (total' ← checked 64 (total + t); ancestor_loop b s n a total' rest) = Ok v ->
      0 <= total + t < 2 ^ 64 /\ ancestor_loop b s n a (total + t) rest = Ok v).
    { intros t _ (? & [-> Hk]%checked_inv & Hv)%res_bind_ok. done. }
    destruct ((LowerChildId e =? cur) || (UpperChildId e =? cur)) eqn:El.
    + apply res_bind_ok in Hr as (t & Ht & Hr). exists t. split_and!; try done; [|by apply Hgo..].
      apply orb_true_iff in El as [E%Z.eqb_eq|E%Z.eqb_eq]; unfold linked; auto.
    + destruct (Z.eqb_spec a (EdgeClaimId (edge_at s cur))); [|done].
      apply res_bind_ok in Hr as ([] & Hl & Hr). apply res_bind_ok in Hr as (t & Ht & Hr).
      exists t. split_and!; try done; [|by apply Hgo..]. unfold linked; auto.
  - intros (e & t & -> & Hl & Ht & Hk & Hv). cbn [mbind res_bind].
    assert (Hgo : (t ← timeUnrivaled b s (id e); total' ← checked 64 (total + t); ancestor_loop b s n a total' rest) = Ok v).
    { rewrite Ht. cbn [mbind res_bind]. rewrite checked_ok by done. done. }
    destruct ((LowerChildId e =? cur) || (UpperChildId e =? cur)) eqn:El; [done|].
    apply orb_false_iff in El as [E1%Z.eqb_neq E2%Z.eqb_neq]. destruct Hl as [?|[?|[-> Hl]]]; [done..|].
    by rewrite Z.eqb_refl, Hl.
Qed.

Lemma ext_linked a cur e e' : edges x.2 !! a = Some e -> edges y.2 !! a = Some e' -> edges x.2 !! cur <> None ->
  linked x.2 a cur e -> linked y.2 a cur e'.
Proof.
  intros Ha Ha' Hcur Hl. destruct (ext_edge _ _ _ Hxy _ _ Ha) as (e1 & He1 & Hs & _ & Hch). simplify_eq.
  destruct (edges x.2 !! cur) as [ec|] eqn:Ecur; [|done].
  assert (Hnz : cur <> 0).
  { by eapply stored_nonzero; [apply (ext_inv _ _ _ Hxy)|]. }
  destruct Hl as [Hl|[Hl|[Hl Hk]]]; unfold linked.
  - left. rewrite (proj1 (Hch ltac:(congruence))). done.
  - right. left. assert (Hlo : LowerChildId e <> 0); [|by rewrite (proj2 (Hch Hlo))].
    apply (children_both _ _ _ _ _ (ext_inv _ _ _ Hxy) Ha). congruence.
  - right. right. destruct (ext_edge _ _ _ Hxy _ _ Ecur) as (ec' & Hec' & (? & ? & ? & ? & ? & E) & _).
    rewrite (edge_at_lookup _ _ _ Ecur) in Hl. rewrite (edge_at_lookup _ _ _ Hec'), E. split; [done|].
    rewrite <- (ext_claim_link _ _ _ Hxy); [done| |]; apply (exists_lookup _ _ _ (ext_inv _ _ _ Hxy));
      [by rewrite (edge_at_lookup _ _ _ Ha)|by rewrite (edge_at_lookup _ _ _ Ecur)].
Qed.

(** The time of the ancestors lies between the times before and after. *)
Lemma ancestors_between l : forall cur t1 t2 t3 v1 v3, edges x.2 !! cur <> None -> 0 <= t1 <= t2 -> t2 <= t3 ->
  ancestor_loop x.1 x.2 n cur t1 l = Ok v1 -> ancestor_loop z.1 z.2 n cur t3 l = Ok v3 ->
  exists v2, ancestor_loop y.1 y.2 n cur t2 l = Ok v2 /\ v2 <= v3 /\ v1 <= v2.
Proof.
  induction l as [|a l IH]; intros cur t1 t2 t3 v1 v3 Hcur H12 H23 Hv1 Hv3.
  { cbn in *. simplify_eq. exists t2. split_and!; try done. lia. }
  apply ancestor_cons in Hv1 as (e1 & d1 & Ha1%(get_ok_lookup _ _ _ (ext_inv _ _ _ Hxy)) & Hl & Hd1 & Hk1 & Hv1).
  apply ancestor_cons in Hv3 as (e3 & d3 & Ha3%(get_ok_lookup _ _ _ (ext_inv' _ _ _ Hyz)) & _ & Hd3 & Hk3 & Hv3).
  destruct (ext_edge _ _ _ Hxy _ _ Ha1) as (e2 & Ha2 & Hs & _).
  rewrite (proj1 (inv_edge _ _ _ (ext_inv _ _ _ Hxy) _ _ Ha1)) in Hd1.
  rewrite (proj1 (inv_edge _ _ _ (ext_inv' _ _ _ Hyz) _ _ Ha3)) in Hd3.
  destruct (ext_time _ _ _ Hxy _ _ _ Ha1 Hd1) as (d2 & Hd2 & Hd12).
  destruct (ext_time _ _ _ Hyz _ _ _ Ha2 Hd2) as (d & Hd & Hd23). assert (d = d3) as -> by congruence.
  destruct (IH a (t1 + d1) (t2 + d2) (t3 + d3) v1 v3) as (v2 & Hv2 & Hle); [congruence|lia|lia|done|done|].
  exists v2. split; [|done]. apply ancestor_cons. exists e2, d2.
  rewrite (proj1 (inv_edge _ _ _ (ext_inv' _ _ _ Hxy) _ _ Ha2)).
  split_and!; try done; [by apply (get_ok_lookup _ _ _ (ext_inv' _ _ _ Hxy))| |lia|lia].
  by apply (ext_linked _ _ e1).
Qed.

End sandwich.

(** Of three states of the contract, the later ones reached from the earlier ones. *)
Section guards_between.
Context (x y z : Z * World R T) (i : EdgeId).
Hypothesis Exy : extends c (x.1, store x.2) (y.1, store y.2).
Hypothesis Eyz : extends c (y.1, store y.2) (z.1, store z.2).
Hypothesis Rxy : later (rollup x.2) (rollup y.2).
Hypothesis Ryz : later (rollup y.2) (rollup z.2).
Hypothesis Hknown : claims_known x.2.
Hypothesis Esx : settings x.2 = c.
Hypothesis Esy : settings y.2 = c.
Hypothesis Esz : settings z.2 = c.

Lemma confirmed_child_exists j : child_confirmed (store x.2) j = Ok tt -> exists_ (edge_at (store x.2) j) = true.
Proof. unfold child_confirmed. by destruct (exists_ _). Qed.

Lemma children_between : guard x.1 x.2 (EdgeChallengeManager.ConfirmEdgeByChildren i) = Ok tt ->
  guard y.1 y.2 (EdgeChallengeManager.ConfirmEdgeByChildren i) = Ok tt.
Proof.
  cbn [guard]. destruct (exists_ (edge_at (store x.2) i)) eqn:Ei; [|done]. cbn [negb].
  destruct (ext_exists _ _ _ Exy _ Ei) as [Ei2 _]. cbn [fst snd] in Ei2. rewrite Ei2. cbn [negb]. intros ([] & Hlo & Hup)%res_bind_ok.
  apply (exists_lookup _ _ _ (ext_inv _ _ _ Exy)) in Ei. cbn [fst snd] in *.
  destruct (ext_edge _ _ _ Exy _ _ Ei) as (e' & He & _ & _ & Hch). cbn [fst snd] in *. rewrite (edge_at_lookup _ _ _ He).
  destruct (child_confirmed_exists _ _ _ _ _ (ext_inv _ _ _ Exy) Hlo) as (lo & Hlo' & _).
  apply (stored_nonzero _ _ _ _ _ (ext_inv _ _ _ Exy)) in Hlo'. destruct (Hch Hlo') as [-> ->].
  apply (ext_child _ _ _ Exy) in Hlo, Hup. cbn [fst snd] in *. by rewrite Hlo, Hup.
Qed.

Lemma claim_between j : guard x.1 x.2 (EdgeChallengeManager.ConfirmEdgeByClaim i j) = Ok tt ->
  guard y.1 y.2 (EdgeChallengeManager.ConfirmEdgeByClaim i j) = Ok tt.
Proof.
  cbn [guard]. rewrite Esx, Esy. destruct (exists_ (edge_at (store x.2) i)) eqn:Ei; [|done]. cbn [negb].
  destruct (ext_exists _ _ _ Exy _ Ei) as [Ei2 _]. cbn [fst snd] in Ei2. rewrite Ei2. cbn [negb]. intros ([] & Hj & Hl)%res_bind_ok.
  apply res_bind_ok in Hl as ([] & Hl & Hcl). 
  pose proof (ext_child _ _ _ Exy _ Hj) as Hj2. cbn [fst snd] in Hj2. rewrite Hj2. cbn [mbind res_bind].
  apply confirmed_child_exists in Hj. pose proof (ext_claim_link _ _ _ Exy _ _ (NUM_BIGSTEP_LEVEL c) Ei Hj) as El.
  cbn [fst snd] in El. rewrite <- El, Hl. cbn [mbind res_bind].
  destruct (ext_exists _ _ _ Exy _ Hj) as [_ (? & ? & ? & ? & ? & E)]. cbn [fst snd] in *. by rewrite E.
Qed.

Lemma time_between l d : guard x.1 x.2 (EdgeChallengeManager.ConfirmEdgeByTime i l d) = Ok tt ->
  guard z.1 z.2 (EdgeChallengeManager.ConfirmEdgeByTime i l d) = Ok tt ->
  guard y.1 y.2 (EdgeChallengeManager.ConfirmEdgeByTime i l d) = Ok tt.
Proof.
  cbn [guard]. rewrite Esx, Esy, Esz. intros (top & Htop & Hx)%res_bind_ok (top3 & Htop3 & Hz)%res_bind_ok.
  destruct (ext_get _ _ _ Exy _ _ Htop) as (top2 & Htop2 & (? & ? & ? & ? & ? & E2)).
  destruct (ext_get _ _ _ Eyz _ _ Htop2) as (top3' & Htop3' & (? & ? & ? & ? & ? & E3)). cbn [fst snd] in *.
  rewrite Htop2. assert (top3' = top3) as -> by congruence. subst top2 top3. cbn [mbind res_bind] in *. cbn [updated EdgeLevel EdgeClaimId] in *.
  change (isLayerZero (updated _ _ _ _ _ _)) with (isLayerZero top) in *.
  apply res_bind_ok in Hx as (ty & Hty & Hx). rewrite Hty in *. cbn [mbind res_bind] in *.
  destruct (bool_decide (ty = Block)) eqn:Hbl; [|done]. destruct (isLayerZero top) eqn:Hlz; [|done]. cbn [negb] in *.
  assert (Hkn : known (rollup x.2) (EdgeClaimId top)).
  { apply bool_decide_eq_true in Hbl. subst ty. assert (Ht := Htop). apply (get_ok_lookup _ _ _ (ext_inv _ _ _ Exy)) in Ht.
    cbn [fst snd] in Ht. apply was_checked_known, (Hknown _ _ Ht).
    - unfold levelToType in Hty. destruct (Z.eqb_spec (EdgeLevel top) 0); [done|]. by invert_run.
    - unfold isLayerZero in Hlz. apply andb_prop in Hlz as [Hl _]. by apply negb_true_iff, Z.eqb_neq in Hl. }
  apply res_bind_ok in Hx as (n & Hn & Hx).
  pose proof (assertion_blocks_later _ _ _ _ _ Hkn Rxy Hn) as Hn2.
  rewrite (assertion_blocks_later _ _ _ _ _ (known_later _ _ _ Rxy Hkn) Ryz Hn2) in Hz. rewrite Hn2. cbn [mbind res_bind] in *.
  destruct (exists_ (edge_at (store x.2) i)) eqn:Ei; [|done]. destruct (ext_exists _ _ _ Exy _ Ei) as [Ei2 _].
  destruct (ext_exists _ _ _ Eyz _ Ei2) as [Ei3 _]. cbn [fst snd] in *. rewrite Ei2. rewrite Ei3 in Hz. cbn [negb] in *.
  apply res_bind_ok in Hx as (t1 & Ht1 & Hx). apply res_bind_ok in Hx as (v1 & Hv1 & Hx).
  apply res_bind_ok in Hx as (k1 & [-> Hk1]%checked_inv & Hx). apply res_bind_ok in Hz as (t3 & Ht3 & Hz).
  apply res_bind_ok in Hz as (v3 & Hv3 & Hz). apply res_bind_ok in Hz as (k3 & [-> Hk3]%checked_inv & Hz).
  apply (exists_lookup _ _ _ (ext_inv _ _ _ Exy)) in Ei. apply (exists_lookup _ _ _ (ext_inv _ _ _ Eyz)) in Ei2.
  destruct (ext_time _ _ _ Exy _ _ _ Ei Ht1) as (t2 & Ht2 & Ht12).
  destruct (ext_time _ _ _ Eyz _ _ _ Ei2 Ht2) as (t & Ht & Ht23). cbn [fst snd] in *.
  assert (t = t3) as -> by congruence.
  destruct (ancestors_between _ _ _ Exy Eyz l i t1 t2 t3 v1 v3) as (v2 & Hv2 & Hle1 & Hle2);
    [cbn; by rewrite Ei|lia|lia|done|done|]. cbn [fst snd] in *.
  rewrite Ht2. cbn [mbind res_bind]. rewrite Hv2. cbn [mbind res_bind]. rewrite checked_ok by lia. cbn [mbind res_bind].
  destruct (Z.ltb_spec (v1 + n) (challengePeriodBlocks c)); [done|].
  by destruct (Z.ltb_spec (v2 + n) (challengePeriodBlocks c)); [lia|].
Qed.

Lemma proof_between h p cfg q r : guard x.1 x.2 (EdgeChallengeManager.ConfirmEdgeByOneStepProof i h p cfg q r) = Ok tt ->
  guard y.1 y.2 (EdgeChallengeManager.ConfirmEdgeByOneStepProof i h p cfg q r) = Ok tt.
Proof.
  cbn [guard]. rewrite Esx, Esy. intros (prev & Hprev & Hx)%res_bind_ok.
  apply res_bind_ok in Hx as ([] & Hcfg & Hx). apply res_bind_ok in Hx as (e & He & Hx).
  destruct (ext_get _ _ _ Exy _ _ He) as (e' & He' & Hs). cbn [fst snd] in *.
  assert (Hi := He). apply (get_ok_lookup _ _ _ (ext_inv _ _ _ Exy)) in Hi.
  assert (Hi' := He'). apply (get_ok_lookup _ _ _ (ext_inv' _ _ _ Exy)) in Hi'. cbn [fst snd] in *.
  assert (Hp : getPrevAssertionHash level_fuel (store y.2) i = Ok prev).
  { unfold getPrevAssertionHash in *. rewrite He in Hprev. rewrite He'. cbn [mbind res_bind] in *.
    by eapply (ext_prev _ _ _ Exy). }
  rewrite Hp. cbn [mbind res_bind]. rewrite (later_config _ _ _ _ Rxy Hcfg), He'. cbn [mbind res_bind].
  rewrite (edge_at_lookup _ _ _ Hi'). rewrite (edge_at_lookup _ _ _ Hi) in Hx. rewrite (later_bridge _ _ Rxy).
  by destruct Hs as (? & ? & ? & ? & ? & ->).
Qed.

End guards_between.

(** ** Replays *)

(** An edge can be marked as confirmed when it is pending and has no confirmed rival. *)
Lemma confirm_succeeds b s i e : store_inv c b s -> edges s !! i = Some e ->
  (confirm b i s).1 = Ok tt <-> confirmedRival_at s (mutualId e) = 0.
Proof.
  intros Hinv Hi. unfold confirm, setConfirmedRival, mbind, M_bind, get, modify, fail, lift.
  rewrite (edge_at_lookup _ _ _ Hi). destruct (Z.eqb_spec (confirmedRival_at s (mutualId e)) 0) as [E|E]; cbn [negb]; [|done].
  change (edge_at (put_confirmedRival (mutualId e) i s) i) with (edge_at s i). rewrite (edge_at_lookup _ _ _ Hi).
  unfold setConfirmed. case_bool_decide as Hp; [done|]. destruct (ContractStatus e) eqn:Es; [done|].
  apply (inv_confirmed _ _ _ Hinv _ _ Hi) in Es. rewrite E in Es. by apply (stored_nonzero _ _ _ _ _ Hinv) in Hi.
Qed.

Lemma guard_exists b w call i : store_inv c b (store w) -> confirms_call call = Some i -> guard b w call = Ok tt ->
  exists e, edges (store w) !! i = Some e.
Proof.
  intros Hinv Hi. destruct call; cbn [confirms_call] in Hi; try done; injection Hi as ->; cbn [guard].
  - destruct (exists_ (edge_at (store w) i)) eqn:E; [|done]. apply (exists_lookup _ _ _ Hinv) in E. eauto.
  - destruct (exists_ (edge_at (store w) i)) eqn:E; [|done]. apply (exists_lookup _ _ _ Hinv) in E. eauto.
  - intros (? & _ & Hr)%res_bind_ok. apply res_bind_ok in Hr as (? & _ & Hr).
    destruct (bool_decide _); [|done]. destruct (isLayerZero _); [|done]. cbn [negb] in Hr.
    apply res_bind_ok in Hr as (? & _ & Hr).
    destruct (exists_ (edge_at (store w) i)) eqn:E; [|done]. apply (exists_lookup _ _ _ Hinv) in E. eauto.
  - intros (? & _ & Hr)%res_bind_ok. apply res_bind_ok in Hr as (? & _ & Hr). apply res_bind_ok in Hr as (e & He & _).
    apply (get_ok_lookup _ _ _ Hinv) in He. eauto.
Qed.

Lemma confirmation_final (x y z : Z * World R T) call i :
  confirms_call call = Some i -> lawful x -> 0 < x.1 < two64 -> grows x y -> grows y z ->
  (run this x.1 sender call x.2).1 = Ok tt -> (run this y.1 sender call y.2).1 <> Ok tt ->
  (run this z.1 sender call z.2).1 <> Ok tt.
Proof.
  intros Hi Hlaw Hb Hxy Hyz Hx Hy Hz. destruct Hy. pose proof (lawful_reachable _ Hlaw) as Hr. pose proof (lawful_claims _ Hlaw) as Hkn.
  destruct (grows_extends _ _ Hr Hb Hxy) as (Exy & Hry & Esy & Hby).
  destruct (grows_extends _ _ Hry Hby Hyz) as (Eyz & _ & Esz & _).
  assert (Esx : settings x.2 = c) by (destruct x as [b w]; by eapply reachable_inv).
  apply (run_guard _ _ _ _ _ _ Hi) in Hx as [Gx _]. apply (run_guard _ _ _ _ _ _ Hi) in Hz as [Gz Cz].
  apply (run_guard _ _ _ _ _ _ Hi). assert (Gy : guard y.1 y.2 call = Ok tt).
  { apply grows_rollup in Hxy as Rxy. apply grows_rollup in Hyz as Ryz. destruct call; cbn [confirms_call] in Hi; try done.
    - by apply (children_between x).
    - by apply (claim_between x).
    - by apply (time_between x y z).
    - by apply (proof_between x). }
  split; [done|]. destruct (guard_exists _ _ _ _ (ext_inv' _ _ _ Exy) Hi Gy) as (e & He).
  destruct (ext_edge _ _ _ Eyz _ _ He) as (e' & He' & Hs & _). destruct (same_data_ids _ _ Hs) as [_ Em]. cbn [fst snd] in *.
  apply (confirm_succeeds _ _ _ _ (ext_inv' _ _ _ Eyz) He') in Cz. cbn [fst snd] in *.
  apply (confirm_succeeds _ _ _ _ (ext_inv' _ _ _ Exy) He). cbn [fst snd] in *.
  destruct (Z.eq_dec (confirmedRival_at (store y.2) (mutualId e)) 0) as [|Hn]; [done|].
  pose proof (evolves_winner _ _ (ext_evolves _ _ _ Eyz) _ Hn) as Ew. cbn [fst snd] in Ew. congruence.
Qed.

(** (C13) A confirmation that was tried with success and fails when it is mined fails for
    good: from the state in which the call of the validator was tried, other parties may
    do what they like; when the same call reverts in a later state, it reverts in every
    state after that.  What a confirmation checks only ever becomes true, the time a
    challenge has run included, except that a rival may have been confirmed.  A replay of
    the call therefore tells the validator that the transaction failed. *)
Theorem failed_confirmation_is_final (x y z : Z * World R T) call i :
  confirms_call call = Some i -> lawful x -> 0 < x.1 < two64 -> grows x y -> grows y z ->
  (run this x.1 sender call x.2).1 = Ok tt -> (run this y.1 sender call y.2).1 <> Ok tt ->
  (run this z.1 sender call z.2).1 <> Ok tt.
Proof. apply confirmation_final. Qed.

End replay.
