(* ===== verification/RollupSystem.v ===== *)
(** * The rollup and the challenge manager

    The rollup keeps the promises that the challenge manager relies on, whatever is sent to it, and the challenges
    of the challenge manager decide which assertions the rollup confirms. *)

From S2P Require Import Prelude Bits PrefixProofs MerkleSpec PrefixSound Containers InclusionProofs History Protocol Provider ChallengeTree ChallengeTreeSpec Contracts MerkleContract CommitChain EdgeContract Rollup RollupSpec Machine EdgeContractSpec EdgeContractHistory EdgeContractReplay.
Import ChallengeEdgeLib EdgeChallengeManagerLib EdgeContract.

(** ** The promises of the rollup *)

Section promises.
Context `{Hasher} `{!HasherNonzero} `{!HasherInjective} {S : Type} `{RollupToken S}.
Implicit Types r : Rollup.

(** Any sequence of transactions by anybody, the owner included. *)
Definition rollup_later : relation Rollup := rtc (fun r r' => exists t t' : S, rollup_tx false (r, t) (r', t')).

Lemma rollup_later_inv r r' : rollup_later r r' -> rollup_inv r ->
  rollup_inv r' /\ nodes_later r r' /\ bridgeAddress (params r') = bridgeAddress (params r).
Proof.
  induction 1 as [r|r1 r2 r3 (t & t' & Hs) _ IH]; intros Hinv; [done|].
  destruct (txs_inv _ _ _ (rtc_once _ _ Hs) Hinv) as (Hi2 & Hl & Hb). destruct (IH Hi2) as (Hi3 & Hl' & Hb').
  cbn [fst] in *. split_and!; [done|by etrans|congruence].
Qed.

Lemma rollup_later_passed r r' h : rollup_later r r' -> rollup_inv r -> passed r h -> passed r' h.
Proof.
  induction 1 as [r|r1 r2 r3 (t & t' & Hs) _ IH]; intros Hinv Hp; [done|].
  destruct (txs_inv _ _ _ (rtc_once _ _ Hs) Hinv) as (Hi2 & _). apply tx_asteps in Hs as [(b & Hb & Hs) _].
  apply IH; [done|]. by eapply asteps_passed.
Qed.

(** A rollup with its invariant. *)
Definition RollupChain : Type := { r : Rollup | rollup_inv r }.

#[export] Instance rollup_views : IAssertionChain RollupChain := {|
  validateAssertionHash _ := Rollup.validateAssertionHash;
  isPending x := Rollup.isPending (proj1_sig x);
  isFirstChild x := Rollup.isFirstChild (proj1_sig x);
  getFirstChildCreationBlock x := Rollup.getFirstChildCreationBlock (proj1_sig x);
  getSecondChildCreationBlock x := Rollup.getSecondChildCreationBlock (proj1_sig x);
  validateConfig x := Rollup.validateConfig (proj1_sig x);
  bridge x := bridgeAddress (params (proj1_sig x));
|}.

Definition chain_later : relation RollupChain := fun x y => rollup_later (proj1_sig x) (proj1_sig y).

Lemma chain_nodes x y : chain_later x y -> nodes_later (proj1_sig x) (proj1_sig y).
Proof. intros Hl. apply (rollup_later_inv _ _ Hl (proj2_sig x)). Qed.

(** A stored assertion in a later state. *)
Lemma at_later x y h : chain_later x y -> NodeStatus (assertion_at (proj1_sig x) h) <> NodeNone ->
  node_later (assertion_at (proj1_sig x) h) (assertion_at (proj1_sig y) h).
Proof.
  intros Hl%chain_nodes Hs. apply status_stored in Hs. destruct (Hl _ _ Hs) as (m & Hm & Hk).
  by rewrite (stored_at _ _ _ Hm).
Qed.

Lemma pending_at x h : isPending x h = Ok true -> h <> 0 /\ NodeStatus (assertion_at (proj1_sig x) h) = NodePending.
Proof. cbn. unfold Rollup.isPending. intros (n & [Hh ->]%storage_ok & [= Hp])%res_bind_ok. by apply Z.eqb_eq in Hp. Qed.

(** A node with a nonzero block is stored. *)
Lemma block_stored r h : FirstChildBlock (assertion_at r h) <> 0 \/ SecondChildBlock (assertion_at r h) <> 0 ->
  assertions r !! h = Some (assertion_at r h).
Proof. unfold assertion_at. destruct (assertions r !! h); [done|]. cbn. naive_solver. Qed.

Lemma read_node r h {A} (f : AssertionNode -> A) a : (n ← getAssertionStorage r h; Ok (f n)) = Ok a ->
  h <> 0 /\ f (assertion_at r h) = a.
Proof. intros (n & [Hh ->]%storage_ok & [= <-])%res_bind_ok. done. Qed.

Lemma write_node r h {A} (f : AssertionNode -> A) : h <> 0 -> (n ← getAssertionStorage r h; Ok (f n)) = Ok (f (assertion_at r h)).
Proof. intros Hh. unfold getAssertionStorage, require. by destruct (Z.eqb_spec h 0). Qed.

Lemma rollup_laws : AssertionLaws chain_later.
Proof.
  split.
  - split; [intros x; apply rtc_refl|]. intros x y z Hxy Hyz. unfold chain_later, rollup_later in *; by etrans.
  - intros r0 r r' h v [Hh Hp]%pending_at Hi1 Hi2 [_ Hv]%read_node. cbn. rewrite <- Hv.
    assert (Hi3 : chain_later r0 r') by (unfold chain_later, rollup_later in *; by etrans).
    unfold Rollup.isFirstChild. rewrite write_node by done. f_equal.
    rewrite (keep_isFirst _ _ (at_later _ _ h Hi1 ltac:(by rewrite Hp))), (keep_isFirst _ _ (at_later _ _ h Hi3 ltac:(by rewrite Hp))). done.
  - done.
  - intros r r' h k Hl Hk [Hh Hv]%read_node. cbn. unfold Rollup.getFirstChildCreationBlock. rewrite write_node by done. f_equal.
    assert (Hs : assertions (proj1_sig r) !! h = Some (assertion_at (proj1_sig r) h)) by (apply block_stored; left; congruence).
    destruct (chain_nodes _ _ Hl _ _ Hs) as (m & Hm & Hkeep). rewrite (stored_at _ _ _ Hm), <- Hv. apply (keep_first _ _ Hkeep). congruence.
  - intros r r' h k Hl Hk [Hh Hv]%read_node. cbn. unfold Rollup.getSecondChildCreationBlock. rewrite write_node by done. f_equal.
    assert (Hs : assertions (proj1_sig r) !! h = Some (assertion_at (proj1_sig r) h)) by (apply block_stored; right; congruence).
    destruct (chain_nodes _ _ Hl _ _ Hs) as (m & Hm & Hkeep). rewrite (stored_at _ _ _ Hm), <- Hv. apply (keep_second _ _ Hkeep). congruence.
  - intros r r' h cfg Hl Hv. cbn in *. unfold Rollup.validateConfig in *. apply res_bind_ok in Hv as (n & [Hh ->]%storage_ok & Hv).
    unfold validateConfigHash in Hv. apply require_ok, Z.eqb_eq in Hv.
    pose proof (config_stored _ _ _ (eq_sym Hv)) as Hs. destruct (chain_nodes _ _ Hl _ _ Hs) as (m & Hm & Hkeep).
    unfold getAssertionStorage, require. destruct (Z.eqb_spec h 0); [done|]. cbn. rewrite (stored_at _ _ _ Hm).
    unfold validateConfigHash. apply require_ok. by rewrite (keep_config _ _ Hkeep), Hv, Z.eqb_refl.
  - intros r r' Hl. apply (rollup_later_inv _ _ Hl (proj2_sig r)).
  - intros r h st prev acc k [Hh Hf]%read_node Hv [Hp Hk]%read_node. cbn in Hv. unfold Rollup.validateAssertionHash in Hv.
    apply require_ok, Z.eqb_eq in Hv. destruct (assertions (proj1_sig r) !! h) as [n|] eqn:En; [|unfold assertion_at in Hf; by rewrite En in Hf].
    destruct (inv_parent _ (proj2_sig r) h prev n En) as (m & Hm & Hpos); [by exists st, acc|done|].
    rewrite (stored_at _ _ _ Hm) in Hk. by rewrite <- Hk.
Qed.

(** (C8) The rollup keeps what the challenge manager relies on: after any sequence of transactions by
    anybody, the owner included, whether an assertion is a first child, its children's blocks once they are set,
    its configuration and the bridge stay as they are, and the parent of every first child has a
    first child block. *)
Theorem rollup_keeps_promises : AssertionLaws chain_later.
Proof. exact rollup_laws. Qed.

End promises.

(** ** The winner of a challenge *)

Definition is_address (a : Address) : Prop := 0 <= a < 2 ^ 160.

Lemma address_bytes_inj a b : is_address a -> is_address b -> address_bytes a = address_bytes b -> a = b.
Proof.
  intros Ha Hb E. apply (bytes_inj 20); [done..|]. intros i Hi. unfold address_bytes in E. set (f := fun i : nat => Z.land _ 255) in E at 1. set (g := fun i : nat => Z.land _ 255) in E.
  pose proof (proj1 (@map_ext_in_iff _ _ f g (rev (seq 0 20))) E (Z.to_nat i)) as Hbyte. subst f g. cbn beta in Hbyte. rewrite Z2Nat.id in Hbyte by lia.
  apply Hbyte, in_rev. rewrite rev_involutive. apply in_seq. lia.
Qed.

(** The machine hash of a state depends on what the hash of the state commits to. *)
Class MachineHashLaw `{Hasher} `{IOneStepProofEntry} : Prop :=
  machine_hash_state s s' : ExecutionHash s = ExecutionHash s' -> getMachineHash s = getMachineHash s'.

Section machine_hash.
Context `{Hasher} `{!HasherInjective}.

(** What the hash of a state commits to. *)
Lemma execution_hash_parts s s' : ExecutionHash s = ExecutionHash s' -> SolMachineStatus s = SolMachineStatus s' /\
  GlobalHash (GoGlobalStateFromSolidity (SolGlobal s)) = GlobalHash (GoGlobalStateFromSolidity (SolGlobal s')).
Proof. unfold ExecutionHash. intros E%keccak_inj. split; congruence. Qed.

Lemma global_hash_block s s' : GlobalHash s = GlobalHash s' -> BlockHash s = BlockHash s'.
Proof. unfold GlobalHash. intros E%keccak_inj. congruence. Qed.

(** [OneStepProofEntry.getMachineHash]. *)
Definition finished_tag : list Z := [77; 97; 99; 104; 105; 110; 101; 32; 102; 105; 110; 105; 115; 104; 101; 100; 58].
Definition errored_tag : list Z := [77; 97; 99; 104; 105; 110; 101; 32; 101; 114; 114; 111; 114; 101; 100; 58].
Definition osp_getMachineHash (execState : SolExecutionState) : res Hash :=
  let hash := GlobalHash (GoGlobalStateFromSolidity (SolGlobal execState)) in
  if SolMachineStatus execState =? MachineStatusFinished then Ok (Keccak256Hash [Raw finished_tag; Word hash])
  else if SolMachineStatus execState =? MachineStatusErrored then Ok (Keccak256Hash [Raw errored_tag; Word hash])
  else revert "BAD_MACHINE_STATUS".

(** Both one step proof entries hash what the hash of the state commits to. *)
Lemma osp_machine_hash prove : @MachineHashLaw _ {| getMachineHash := osp_getMachineHash; proveOneStep := prove |}.
Proof. intros s s' [Es Eg]%execution_hash_parts. cbn. unfold osp_getMachineHash. by rewrite Es, Eg. Qed.

Lemma simple_machine_hash : @MachineHashLaw _ SimpleOneStepProofEntry.
Proof. intros s s' [Es Eg]%execution_hash_parts. cbn. unfold simple_getMachineHash. by rewrite Es, Eg. Qed.

End machine_hash.

Section winners.
Context `{Hasher} `{!HasherNonzero} `{!HasherInjective} `{IOneStepProofEntry} `{!MachineHashLaw} `{AbiDecode}.
Context {S T : Type} `{RollupToken S} `{IERC20 T} (this : Address) (c : Settings).
Hypothesis Hc : settings_ok c.
Implicit Types w : World RollupChain T.
#[local] Existing Instance rollup_laws.
Abbreviation later := (chain_later (S := S)).

(** When an edge was confirmed is recorded. *)
Definition dated (b : Z) (s : EdgeStore) : Prop :=
  forall i e, edges s !! i = Some e -> ContractStatus e = EdgeConfirmed -> 0 < EdgeConfirmedAtBlock e <= b.

Lemma step_dated b s s' : store_step c b s s' -> 0 < b -> dated b s -> dated b s'.
Proof.
  intros Hst Hb Hd i e Hi Hcf. unfold dated in Hd.
  assert (Hins : forall x t, fresh b x -> dated b t -> dated b (insert_edge x t)).
  { intros x t (Hp & _) Ht j y. rewrite edges_insert, lookup_insert_Some. intros [[_ <-]|[_ Hj]]; [congruence|by eapply Ht]. }
  destruct Hst as [x _ _ Hf _ _ _|j x root mid Hj Hp _ _ _ _ _ _ _ _|j x Hj _ _|j x Hj Hx _ _]; cbn [put_edge put_confirmedRival edges] in Hi.
  - by eapply Hins.
  - apply lookup_insert_Some in Hi as [[_ <-]|[_ Hi]]; [cbn in Hcf; congruence|]. revert i e Hi Hcf. apply Hins; [apply half_fresh|].
    unfold ensure_edge. destruct (edges s !! id _); [done|]. apply Hins; [apply half_fresh|done].
  - apply lookup_insert_Some in Hi as [[_ <-]|[_ Hi]]; [cbn; lia|by eapply Hd].
  - apply lookup_insert_Some in Hi as [[_ <-]|[_ Hi]]; [cbn; by eapply Hd|by eapply Hd].
Qed.

Lemma txs_dated x y : rtc (tx_step (T := T) this) x y -> settings x.2 = c -> store_inv c x.1 (store x.2) -> dated x.1 (store x.2) ->
  dated y.1 (store (y.2 : World RollupChain T)).
Proof.
  induction 1 as [x|[b w] [b' w'] z Hxy _ IH]; intros Es Hinv Hd; [done|]. cbn [fst snd] in *.
  pose proof Hc as Hcw. rewrite <- Es in Hcw, Hinv.
  destruct (tx_invariant this _ _ Hxy Hcw Hinv) as [Es' Hinv']. cbn [fst snd] in *. rewrite Es', Es in Hinv'.
  assert (Hb : b <= b' /\ 0 < b' < two64) by (by inversion Hxy).
  apply IH; [congruence|done|]. assert (Hd' : dated b' (store w)). { intros i e Hi He. destruct (Hd _ _ Hi He). lia. }
  destruct (tx_moves this _ _ _ _ Hcw Hxy Hinv) as (_ & [->|Hst]); [done|]. rewrite Es in Hst. eapply step_dated; [done|lia|done].
Qed.

Lemma lawful_dated x : lawful this later c x -> dated x.1 (store (x.2 : World RollupChain T)).
Proof.
  intros (b & w & Es & Est & Hg). apply (txs_dated (b, w)); cbn [fst snd]; [by eapply grows_txs|done|rewrite Est; apply inv_empty|].
  intros i e. by rewrite Est.
Qed.

(** The block edges that claim children of one assertion are rivals. *)
Lemma claims_rival r e e' : was_checked later c r e -> was_checked later c r e' -> EdgeLevel e = 0 -> EdgeLevel e' = 0 ->
  EdgeOriginId e = EdgeOriginId e' -> mutualId e = mutualId e'.
Proof.
  intros (r1 & _ & [_ _ _ (st & p & acc & m & lf & Hv & Hm & Hl & Hr) [Hs He]]) (r2 & _ & [_ _ _ (st' & p' & acc' & m' & lf' & Hv' & Hm' & Hl' & Hr') [Hs' He']]) E0 E0' Ho.
  cbn in Hv, Hv'. unfold Rollup.validateAssertionHash in *. apply require_ok, Z.eqb_eq in Hv, Hv'.
  rewrite Ho, Hv' in Hv. unfold Rollup.assertionHash in Hv. apply keccak_inj in Hv. injection Hv as _ Hx _.
  rewrite (machine_hash_state _ _ Hx) in Hm'. rewrite Hm in Hm'. injection Hm' as <-. rewrite Hl in Hl'. injection Hl' as <-.
  rewrite Hr in Hr'. injection Hr' as Hr'. unfold mutualId. by rewrite E0, E0', Ho, Hs, Hs', He, He', Hr'.
Qed.

(** What the rollup sees of the challenge managers, this one and others. *)
Definition managers w (others : Address -> Hash -> res ChallengeEdge) (a : Address) (i : EdgeId) : res ChallengeEdge :=
  if a =? this then EdgeChallengeManager.getEdge w i else others a i.

(** An edge that claims an assertion is a block edge. *)
Lemma claim_block b s i e h p : store_inv c b s -> edges s !! i = Some e -> EdgeClaimId e = h -> child_of h p -> EdgeLevel e = 0.
Proof.
  intros Hinv Hi Hcl (st & acc & ->). destruct (inv_edge _ _ _ Hinv _ _ Hi) as [_ Hok]. pose proof (ok_level _ _ _ Hok).
  destruct (decide (0 < EdgeLevel e)) as [Hlv|]; [|lia]. exfalso.
  destruct (inv_origin _ _ _ Hinv _ _ Hi Hlv) as (_ & j & claim & Hj & _ & _ & _ & Hcid).
  destruct (inv_edge _ _ _ Hinv _ _ Hj) as [Hid _]. rewrite <- Hcid in Hid; [|rewrite Hcl; apply keccak_nonzero].
  rewrite Hcl, id_mutual in Hid. unfold Rollup.assertionHash in Hid. by apply keccak_inj in Hid.
Qed.

(** A claim of the challenge manager in the rollup: the assertion is stored and has its parent and a sibling. *)
Lemma claim_stored r e : was_checked later c r e ->
  child_of (EdgeClaimId e) (EdgeOriginId e) /\ EdgeClaimId e <> 0 /\ EdgeOriginId e <> 0 /\
  0 < SecondChildBlock (assertion_at (proj1_sig r) (EdgeOriginId e)).
Proof.
  intros (r0 & Hl & [[Hh _]%pending_at (k & [Ho Hk]%read_node & Hk0) (st & acc & Hv) _ _]).
  cbn in Hv. unfold Rollup.validateAssertionHash in Hv. apply require_ok, Z.eqb_eq in Hv. split_and!; [by exists st, acc|done|done|].
  assert (Hs : assertions (proj1_sig r0) !! EdgeOriginId e = Some (assertion_at (proj1_sig r0) (EdgeOriginId e))).
  { apply block_stored. right. lia. }
  destruct (chain_nodes _ _ Hl _ _ Hs) as (m & Hm & Hkeep). rewrite (stored_at _ _ _ Hm), (keep_second _ _ Hkeep); lia.
Qed.

Section decided.
Context (x : Z * World RollupChain T) (i : EdgeId) (e : ChallengeEdge) (cfg : ConfigData) (others : Address -> Hash -> res ChallengeEdge).
Hypothesis Hx : lawful this later c x.
Hypothesis Hi : edges (store x.2) !! i = Some e.
Hypothesis Hlv : EdgeLevel e = 0.
Hypothesis Hcl : EdgeClaimId e <> 0.
Hypothesis Hcf : ContractStatus e = EdgeConfirmed.
Let r := proj1_sig (rollup x.2).
Hypothesis Hcfg : Rollup.validateConfig r (EdgeOriginId e) cfg = Ok tt.
Hypothesis Hman : CfgChallengeManager cfg = this /\ is_address this.

Lemma decided_inv : store_inv c x.1 (store x.2) /\ was_checked later c (rollup x.2) e.
Proof.
  split; [|exact (lawful_claims this later c Hc x Hx i e Hi Hlv Hcl)]. destruct x as [b w]. by apply (reachable_inv this _ _ _ Hc), (lawful_reachable this later c (b, w)).
Qed.

Lemma config_here : configHash cfg = ConfigHash (assertion_at r (EdgeOriginId e)).
Proof.
  unfold Rollup.validateConfig, validateConfigHash in Hcfg. apply res_bind_ok in Hcfg as (n & [_ ->]%storage_ok & Hv).
  by apply require_ok, Z.eqb_eq in Hv.
Qed.

(** Another child of the parent cannot be confirmed. *)
Lemma loser_refused env h' st edge cfg' acc r' : h' <> EdgeClaimId e -> is_address (CfgChallengeManager cfg') ->
  confirmAssertion env (managers x.2 others) h' (EdgeOriginId e) st edge cfg' acc r <> Ok r'.
Proof.
  intros Hne Ha Hr. destruct decided_inv as [Hinv Hck]. destruct (claim_stored _ _ Hck) as (Hch & _ & Ho & Hsec). fold r in Hsec.
  unfold confirmAssertion in Hr. do 2 apply res_bind_ok in Hr as (? & _ & Hr).
  apply res_bind_ok in Hr as (n & [Hh' ->]%storage_ok & Hr). apply res_bind_ok in Hr as (prev & [_ ->]%storage_ok & Hr).
  apply res_bind_ok in Hr as ([] & Hv & Hr). do 3 apply res_bind_ok in Hr as (? & _ & Hr).
  apply res_bind_ok in Hr as (? & Hw & Hr). rewrite (proj2 (Z.ltb_lt _ _) Hsec) in Hw.
  assert (Hm : CfgChallengeManager cfg' = this).
  { unfold validateConfigHash in Hv. apply require_ok, Z.eqb_eq in Hv. rewrite <- config_here in Hv. unfold configHash in Hv.
    apply keccak_inj in Hv. destruct Hman as [Em Hta]. rewrite <- Em. apply address_bytes_inj; [done|by rewrite Em|]. congruence. }
  unfold challenge_won in Hw. apply res_bind_ok in Hw as (win & Hg & Hw). unfold managers in Hg. rewrite Hm, Z.eqb_refl in Hg.
  apply (get_ok_lookup _ _ _ Hinv) in Hg. apply res_bind_ok in Hw as ([] & Hwc & Hw). apply require_ok, Z.eqb_eq in Hwc.
  apply res_bind_ok in Hw as ([] & Hws & _). apply require_ok, bool_decide_eq_true in Hws.
  destruct (confirm_astep _ _ _ _ _ _ false 0 Hr) as (_ & _ & Eh & _); [done|].
  assert (Hwlv : EdgeLevel win = 0) by (eapply claim_block; [done|exact Hg|done|by exists st, acc]).
  assert (Hwk : was_checked later c (rollup x.2) win) by (apply (lawful_claims this later c Hc x Hx _ _ Hg Hwlv); congruence).
  destruct (claim_stored _ _ Hwk) as (Hwch & _). rewrite Hwc in Hwch.
  assert (Ho' : EdgeOriginId win = EdgeOriginId e) by (eapply child_parent; [exact Hwch|by exists st, acc]).
  pose proof (claims_rival _ _ _ Hwk Hck Hwlv Hlv Ho') as Emu.
  assert (edge = i); [|congruence].
  apply (inv_confirmed _ _ _ Hinv _ _ Hg) in Hws. apply (inv_confirmed _ _ _ Hinv _ _ Hi) in Hcf. congruence.
Qed.

(** The winner can be, once the periods have passed. *)
Lemma winner_confirmed env : onlyValidator env r = Ok tt -> whenNotPaused r = Ok tt ->
  NodeStatus (assertion_at r (EdgeClaimId e)) = NodePending -> latestConfirmed r = EdgeOriginId e -> 0 <= blockNumber env < two64 ->
  0 <= NodeCreatedAtBlock (assertion_at r (EdgeClaimId e)) + CfgConfirmPeriodBlocks cfg <= blockNumber env ->
  0 <= EdgeConfirmedAtBlock e + challengeGracePeriodBlocks (params r) <= blockNumber env ->
  exists st acc r', confirmAssertion env (managers x.2 others) (EdgeClaimId e) (EdgeOriginId e) st i cfg acc r = Ok r' /\
    latestConfirmed r' = EdgeClaimId e /\ NodeStatus (assertion_at r' (EdgeClaimId e)) = NodeConfirmed.
Proof.
  intros Hval Hpau Hpend Hlat Hblk Hper Hgra. destruct decided_inv as [Hinv Hck].
  destruct (claim_stored _ _ Hck) as ((st & acc & Eh) & _ & Ho & Hsec). fold r in Hsec. exists st, acc.
  pose proof (lawful_dated _ Hx _ _ Hi Hcf) as Hd.
  assert (Hchk : forall z, 0 <= z <= blockNumber env -> checked 64 z = Ok z).
  { intros z Hz. apply checked_ok. unfold two64 in Hblk. lia. }
  assert (Hst : forall h, h <> 0 -> getAssertionStorage r h = Ok (assertion_at r h)).
  { intros h Hh. unfold getAssertionStorage, require. by destruct (Z.eqb_spec h 0). }
  assert (Hw : challenge_won env (managers x.2 others) (EdgeClaimId e) i (CfgChallengeManager cfg) r = Ok tt).
  { unfold challenge_won, managers. rewrite (proj1 Hman), Z.eqb_refl. unfold EdgeChallengeManager.getEdge.
    rewrite (proj2 (get_ok_lookup _ _ _ Hinv _ _) Hi). cbn [mbind res_bind]. rewrite Z.eqb_refl, bool_decide_true by done.
    unfold require. cbn [mbind res_bind]. destruct (Z.eqb_spec (EdgeConfirmedAtBlock e) 0); [lia|]. cbn [negb mbind res_bind].
    rewrite (Hchk _ Hgra). cbn [mbind res_bind]. by rewrite (proj2 (Z.leb_le _ _) (proj2 Hgra)). }
  unfold confirmAssertion. rewrite Hval, Hpau, (Hst _ Hcl), (Hst _ Ho). cbn [mbind res_bind].
  unfold validateConfigHash at 1. rewrite config_here, Z.eqb_refl. cbn [require mbind res_bind]. rewrite (Hchk _ Hper). cbn [mbind res_bind].
  rewrite (proj2 (Z.leb_le _ _) (proj2 Hper)), Hlat, Z.eqb_refl. cbn [require mbind res_bind].
  rewrite (proj2 (Z.ltb_lt _ _) Hsec), Hw. cbn [mbind res_bind]. unfold confirmAssertionInternal. rewrite (Hst _ Hcl). cbn [mbind res_bind].
  rewrite Hpend, <- Eh, !Z.eqb_refl. cbn [require mbind res_bind]. destruct (Bytes32Vals (SolGlobal st)) as [bh sr].
  eexists. split_and!; [done|done|]. unfold assertion_at. cbn. by rewrite lookup_insert_eq.
Qed.

End decided.

(** (C3) A challenge decides between the children of an assertion: in every state of the
    challenge manager next to the rollup, whatever was sent to both before, when a
    block edge that claims an assertion is confirmed, the rollup refuses to confirm any other
    child of the parent of that assertion in the ordinary way, whatever data and edge are
    presented; and when the parent is the latest confirmed assertion, the assertion is
    pending, the rollup is not paused and the periods have
    passed, it confirms the assertion on a call of a validator that presents this edge.  The
    configuration of the parent names this challenge manager. *)
Theorem challenge_decides_assertion (x : Z * World RollupChain T) i e cfg others :
  lawful this later c x -> edges (store x.2) !! i = Some e -> EdgeLevel e = 0 -> EdgeClaimId e <> 0 -> ContractStatus e = EdgeConfirmed ->
  let r := proj1_sig (rollup x.2) in
  Rollup.validateConfig r (EdgeOriginId e) cfg = Ok tt -> CfgChallengeManager cfg = this -> is_address this ->
  (forall env h' st edge cfg' acc r', h' <> EdgeClaimId e -> is_address (CfgChallengeManager cfg') ->
    confirmAssertion env (managers x.2 others) h' (EdgeOriginId e) st edge cfg' acc r <> Ok r') /\
  (forall env, onlyValidator env r = Ok tt -> whenNotPaused r = Ok tt ->
    NodeStatus (assertion_at r (EdgeClaimId e)) = NodePending -> latestConfirmed r = EdgeOriginId e -> 0 <= blockNumber env < two64 ->
    0 <= NodeCreatedAtBlock (assertion_at r (EdgeClaimId e)) + CfgConfirmPeriodBlocks cfg <= blockNumber env ->
    0 <= EdgeConfirmedAtBlock e + challengeGracePeriodBlocks (params r) <= blockNumber env ->
    exists st acc r', confirmAssertion env (managers x.2 others) (EdgeClaimId e) (EdgeOriginId e) st i cfg acc r = Ok r' /\
      latestConfirmed r' = EdgeClaimId e /\ NodeStatus (assertion_at r' (EdgeClaimId e)) = NodeConfirmed).
Proof.
  intros Hx Hi Hlv Hcl Hcf r Hcfg Hman Hadr. split.
  - intros env h' st edge cfg' acc r' Hne Ha. by eapply loser_refused.
  - intros env Hval Hpau Hpend Hlat Hblk Hper Hgra. by eapply winner_confirmed.
Qed.

End winners.
