(* ===== verification/EdgeContractStakes.v ===== *)
(** * The stakes of the contract

    Every layer zero edge is created against a stake.  The stake of the first edge of a
    group of rivals stays with the contract, those of its rivals go to the excess stake
    receiver, and the staker of the edge that wins is refunded.  The contract can always
    pay. *)

From S2P Require Import Prelude PrefixProofs Protocol Contracts MerkleContract CommitChain EdgeContract EdgeContractSpec EdgeContractHistory.
Import ChallengeEdgeLib EdgeChallengeManagerLib.
Import EdgeChallengeManager (run, Call, staking).

(** What [EIP-20] says about the balance of the contract at [this]: a transfer moves the
    amount, and a transfer of what one has to somebody succeeds. *)
Class ERC20Laws {T : Type} `{IERC20 T} (this : Address) : Prop := {
  balance_nonneg (t : T) : 0 <= balanceOf t this;
  transferFrom_moves (t t' : T) from to amount : from <> this -> safeTransferFrom t from to amount = Ok t' ->
    balanceOf t' this = balanceOf t this + (if to =? this then amount else 0);
  transfer_moves (t t' : T) to amount : safeTransfer t to amount = Ok t' ->
    balanceOf t' this = balanceOf t this - (if to =? this then 0 else amount);
  transfer_succeeds (t : T) to amount : to <> 0 -> 0 <= amount <= balanceOf t this ->
    exists t', safeTransfer t to amount = Ok t';
}.

(** ** The groups of rivals whose stake was not paid back *)

Section sets.
Implicit Types (m : Hash) (X Y : gset Hash).

Lemma diff_union_new m X Y : m ∉ Y -> ({[m]} ∪ X) ∖ (∅ ∪ Y) = {[m]} ∪ X ∖ Y.
Proof. set_solver. Qed.

Lemma diff_union_old m X Y : m ∈ X -> ({[m]} ∪ X) ∖ (∅ ∪ Y) = ∅ ∪ X ∖ Y.
Proof. set_solver. Qed.

End sets.

Section groups.
Context `{Hasher}.

Definition groups_where (P : ChallengeEdge -> Prop) `{!forall e, Decision (P e)} (s : EdgeStore) : gset Hash :=
  map_to_set (fun _ e => mutualId e) (filter (fun p => P p.2) (edges s)).

Definition unpaid (s : EdgeStore) : gset Hash :=
  groups_where (fun e => EdgeClaimId e <> 0) s ∖ groups_where (fun e => Refunded e = true) s.

Lemma elem_of_groups P `{!forall e, Decision (P e)} s m :
  m ∈ groups_where P s <-> exists i e, edges s !! i = Some e /\ P e /\ mutualId e = m.
Proof.
  unfold groups_where. rewrite elem_of_map_to_set. split.
  - intros (i & e & [Hi HP]%map_lookup_filter_Some & Hm). eauto.
  - intros (i & e & Hi & HP & Hm). exists i, e. split; [|done]. by apply map_lookup_filter_Some.
Qed.

(** Inserting an edge adds its group. *)
Lemma groups_insert P `{!forall e, Decision (P e)} s e : edges s !! id e = None ->
  groups_where P (insert_edge e s) = (if decide (P e) then {[mutualId e]} else ∅) ∪ groups_where P s.
Proof.
  intros Hn. apply set_eq. intros m. rewrite elem_of_union, !elem_of_groups. split.
  - intros (i & x & Hi & HP & Hm). rewrite edges_insert, lookup_insert_Some in Hi.
    destruct Hi as [[<- <-]|[_ Hi]]; [left|right; eauto]. rewrite decide_True by done. set_solver.
  - intros [Hl|(i & x & Hi & HP & Hm)].
    + case_decide; [|set_solver]. apply elem_of_singleton in Hl as ->. exists (id e), e.
      by rewrite edges_insert, lookup_insert_eq.
    + exists i, x. rewrite edges_insert, lookup_insert_ne by congruence. done.
Qed.

(** Replacing an edge by another with the same ids keeps the groups where the predicate
    does not distinguish the two. *)
Lemma groups_put P `{!forall e, Decision (P e)} s i e e' :
  edges s !! i = Some e -> same_data e e' -> (P e' <-> P e) -> groups_where P (put_edge i e' s) = groups_where P s.
Proof.
  intros Hi Hd HP. destruct (same_data_ids _ _ Hd) as [_ Em]. apply set_eq. intros m. rewrite !elem_of_groups.
  cbn [put_edge edges]. split.
  - intros (j & x & Hj & Hx & Hm). apply lookup_insert_Some in Hj as [[<- <-]|[_ Hj]]; [|by eauto].
    exists i, e. rewrite <- HP, <- Em. done.
  - intros (j & x & Hj & Hx & Hm). destruct (decide (j = i)) as [->|Hn].
    + exists i, e'. rewrite lookup_insert_eq. simplify_eq. rewrite HP, Em. done.
    + exists j, x. by rewrite lookup_insert_ne.
Qed.

Lemma same_updated e l u k st r : same_data e (updated e l u k st r).
Proof. by repeat eexists. Qed.

Lemma unpaid_put s i e l u k st : edges s !! i = Some e ->
  unpaid (put_edge i (updated e l u k st (Refunded e)) s) = unpaid s.
Proof. intros Hi. unfold unpaid. by erewrite !groups_put by (done || apply same_updated). Qed.

(** An edge that was not refunded and makes no claim does not matter. *)
Lemma unpaid_insert s e : edges s !! id e = None -> Refunded e = false -> EdgeClaimId e = 0 ->
  unpaid (insert_edge e s) = unpaid s.
Proof.
  intros Hn Hr Hc. unfold unpaid. rewrite !groups_insert by done.
  rewrite !decide_False by (rewrite ?Hr; auto). by rewrite !union_empty_l_L.
Qed.

Lemma unpaid_ensure s e : Refunded e = false -> EdgeClaimId e = 0 -> unpaid (ensure_edge e s) = unpaid s.
Proof. intros Hr Hc. unfold ensure_edge. destruct (edges s !! id e) eqn:E; [done|by apply unpaid_insert]. Qed.

End groups.

Section stakes.
Context `{Hasher} `{!HasherNonzero} `{!HasherInjective} `{IOneStepProofEntry} `{AbiDecode}.
Context {R T : Type} `{IAssertionChain R} `{IERC20 T} (this : Address) `{!ERC20Laws this}.
Implicit Types w : World R T.

Section one.
Context (c : Settings) (b : Z) (s : EdgeStore).
Hypothesis Hinv : store_inv c b s.

Lemma no_group m : firstRival_at s m = 0 <-> forall i e, edges s !! i = Some e -> mutualId e <> m.
Proof.
  destruct (inv_rival _ _ _ Hinv m) as [[E Hnone]|[(E & k & x & Hk & Hx & _)|(r & er & k & x & E & Hr & Hm & Hk & Hx & _)]].
  - by split.
  - split; [|intros Hno; by destruct (Hno _ _ Hk)]. rewrite E. by intros ?%unrivaled_nonzero.
  - split; [|intros Hno; by destruct (Hno _ _ Hk)]. rewrite E. intros ->.
    apply (inv_edge _ _ _ Hinv) in Hr as [Ei _]. by apply id_nonzero in Ei.
Qed.

(** The rivals of a layer zero edge are layer zero edges. *)
Lemma rival_claims e i x : edge_ok c b e -> EdgeClaimId e <> 0 -> edges s !! i = Some x -> mutualId x = mutualId e ->
  EdgeClaimId x <> 0.
Proof.
  intros Hok Hc Hi (E1 & _ & E3 & _ & E5)%mutual_inj. apply (inv_edge _ _ _ Hinv) in Hi as [_ Hx].
  apply (ok_layer_zero _ _ _ Hx). rewrite E1, E3, E5. by apply (ok_layer_zero _ _ _ Hok).
Qed.

(** The first edge of a group adds the group, its rivals change nothing. *)
Lemma unpaid_claim e : edges s !! id e = None -> edge_ok c b e -> fresh b e -> EdgeClaimId e <> 0 ->
  unpaid (insert_edge e s) = (if firstRival_at s (mutualId e) =? 0 then {[mutualId e]} else ∅) ∪ unpaid s /\
  (firstRival_at s (mutualId e) = 0 -> mutualId e ∉ unpaid s).
Proof.
  intros Hn Hok (_ & _ & _ & Hf & _) Hc. unfold unpaid. rewrite !groups_insert by done.
  rewrite decide_True, decide_False by (done || congruence).
  destruct (Z.eqb_spec (firstRival_at s (mutualId e)) 0) as [E|E].
  - assert (Hno : forall P `{!forall e, Decision (P e)}, mutualId e ∉ groups_where P s).
    { intros P HP. rewrite elem_of_groups. intros (i & x & Hi & _ & Hm). by apply (proj1 (no_group _) E _ _ Hi). }
    split; [apply diff_union_new, Hno|]. intros _ [Hin _]%elem_of_difference. by apply Hno in Hin.
  - split; [|done]. assert (Hin : mutualId e ∈ groups_where (fun e => EdgeClaimId e <> 0) s);
      [|by apply diff_union_old].
    apply elem_of_groups. destruct (inv_rival _ _ _ Hinv (mutualId e)) as [[? _]|[(_ & k & x & Hk & Hx & _)|
      (_ & _ & k & x & _ & _ & _ & Hk & Hx & _)]]; [done|exists k, x..]; split_and!; eauto using rival_claims.
Qed.

(** A refund pays the group of the edge, that was not paid before. *)
Lemma unpaid_refund i e : edges s !! i = Some e -> ContractStatus e = EdgeConfirmed -> isLayerZero e = true ->
  Refunded e = false ->
  mutualId e ∈ unpaid s /\ unpaid (put_edge i (with_refund e) s) = unpaid s ∖ {[mutualId e]}.
Proof.
  intros Hi Hcf Hz Hf. assert (Hcl : EdgeClaimId e <> 0).
  { unfold isLayerZero in Hz. by destruct (Z.eqb_spec (EdgeClaimId e) 0). }
  unfold unpaid. split.
  - apply elem_of_difference. rewrite !elem_of_groups. split; [by exists i, e|].
    intros (j & x & Hj & Hr & Hm). destruct (inv_edge _ _ _ Hinv _ _ Hj) as [_ Hok].
    destruct (ok_refunded _ _ _ Hok Hr) as [Hcx _]. apply (inv_confirmed _ _ _ Hinv _ _ Hj) in Hcx.
    apply (inv_confirmed _ _ _ Hinv _ _ Hi) in Hcf. assert (j = i) by congruence. subst j. congruence.
  - rewrite (groups_put _ _ i e) by (done || apply same_updated). rewrite difference_difference_l_L. f_equal.
    apply set_eq. intros m. rewrite elem_of_union, elem_of_singleton, !elem_of_groups. cbn [put_edge edges]. split.
    + intros (j & x & Hj & Hr & Hm). apply lookup_insert_Some in Hj as [[<- <-]|[_ Hj]]; [by right|left; eauto].
    + intros [(j & x & Hj & Hr & Hm)| ->].
      * exists j, x. rewrite lookup_insert_ne by congruence. done.
      * exists i, (with_refund e). by rewrite lookup_insert_eq.
Qed.

End one.

(** ** Solvency *)

Definition covered (c : Settings) w : Prop :=
  stakeAmount c * Z.of_nat (size (unpaid (store w))) <= balanceOf (token w) this.

Lemma covered_effect b sender w call w' :
  staking (settings w) = true -> 0 <= stakeAmount (settings w) -> sender <> this ->
  store_inv (settings w) b (store w) -> covered (settings w) w ->
  effect this b sender w call w' -> covered (settings w) w'.
Proof.
  unfold covered. intros Hstk Ha Hsd Hinv Hcov
    [e Hn Hok Hf Hcl Ew Hpay|i e root mid Hi Et Hn Ew|i e Hi Et Ew|i e _ Hi Hcf Hz Hr Ew Hpay]; rewrite ?Hstk, ?Ew, ?Et in *.
  - apply transferFrom_moves in Hpay; [|done]. rewrite Hpay.
    destruct (unpaid_claim _ _ _ Hinv e Hn Hok Hf Hcl) as [-> Hnew].
    destruct (Z.eqb_spec (firstRival_at (store w) (mutualId e)) 0) as [E|_].
    + rewrite Z.eqb_refl, size_union, size_singleton by (specialize (Hnew E); set_solver). lia.
    + rewrite union_empty_l_L. destruct (_ =? this); lia.
  - unfold with_children. rewrite unpaid_put.
    + by rewrite unpaid_insert, unpaid_ensure.
    + rewrite edges_insert, lookup_insert_ne; [by apply lookup_ensure|].
      intros E. apply (lookup_ensure (lower_half b e root mid)) in Hi. congruence.
  - unfold with_status. rewrite unpaid_put by done. done.
  - apply transfer_moves in Hpay. rewrite Hpay. destruct (unpaid_refund _ _ _ Hinv i e Hi Hcf Hz Hr) as [Hin ->].
    rewrite size_difference, size_singleton by set_solver.
    assert (1 <= size (unpaid (store w)))%nat.
    { rewrite <- (size_singleton (C := gset Hash) (mutualId e)). apply subseteq_size. set_solver. }
    destruct (_ =? this); nia.
Qed.

Lemma covered_step c x y : settings_ok c -> staking c = true -> 0 <= stakeAmount c ->
  tx_step this x y -> settings x.2 = c -> store_inv c x.1 (store x.2) -> covered c x.2 -> covered c y.2.
Proof.
  destruct x as [b w], y as [b' w']. cbn [fst snd]. intros Hc Hstk Ha Ht E Hinv Hcov. unfold covered in *.
  inversion Ht as [? ? ? w1 sender call r ? Hb Hlt (Es & Est & Hbal) Hok Hsd Hr|? ? ? ? ? ? (Es & Est & Hbal)]; subst;
    [|rewrite Est; lia].
  assert (Hcov1 : covered (settings w) w1) by (unfold covered; rewrite Est; lia).
  unfold EdgeChallengeManager.transaction in Hr.
  destruct (run this b' sender call w1) as [[[]| | |] w2] eqn:Er; injection Hr as <- <-; try exact Hcov1.
  rewrite <- Es in *. assert (Hinv1 : store_inv (settings w1) b' (store w1)) by (rewrite Est; by eapply inv_later).
  destruct (run_effect this b' sender w1 Hc Hlt Hinv1 call w2 Hok Er) as [_ Heff]. by eapply covered_effect.
Qed.

Lemma reachable_covered c b w : settings_ok c -> staking c = true -> 0 <= stakeAmount c ->
  reachable this c (b, w) -> covered c w.
Proof.
  intros Hc Hstk Ha (b0 & w0 & E & Est & Hr). enough (Hall : forall x, rtc (tx_step this) (b0, w0) x ->
    settings x.2 = c /\ store_inv c x.1 (store x.2) /\ covered c x.2) by (by apply (Hall (b, w))).
  clear Hr. intros x Hx. pattern x. revert x Hx. apply rtc_ind_r;
    [cbn [fst snd]|intros [b1 w1] [b2 w2] Hxy Hst (E1 & Hinv & Hcov); cbn [fst snd] in *].
  - split_and!; [done|rewrite Est; apply inv_empty|]. unfold covered. rewrite Est.
    replace (size (unpaid empty_store)) with 0%nat by reflexivity. pose proof (balance_nonneg (token w0)). lia.
  - assert (Hs1 : settings_ok (settings w1)) by (by rewrite E1).
    assert (Hinv1 : store_inv (settings w1) b1 (store w1)) by (by rewrite E1).
    destruct (tx_invariant this _ _ Hst Hs1 Hinv1) as [E2 Hinv2]. cbn [fst snd] in *. rewrite E2, E1 in *.
    split_and!; [done|done|]. by eapply (covered_step c (b1, w1) (b2, w2)).
Qed.

(** (C17) The contract is solvent: with a token that follows the standard, after any
    sequence of transactions by anybody, the contract holds the stake amount for every
    group of rival layer zero edges whose stake was not paid back. *)
Theorem stakes_covered c b w : settings_ok c -> staking c = true -> 0 <= stakeAmount c ->
  reachable this c (b, w) -> covered c w.
Proof. apply reachable_covered. Qed.

(** (C18) The winner gets its stake back: in every reachable state the stake of a confirmed
    layer zero edge that was not refunded can be refunded, by anybody, and the refund
    sends the stake to the staker and marks the edge, so that a second refund fails. *)
Theorem winner_is_refunded c b w i e : settings_ok c -> 0 <= stakeAmount c ->
  reachable this c (b, w) -> edges (store w) !! i = Some e ->
  ContractStatus e = EdgeConfirmed -> isLayerZero e = true -> Refunded e = false ->
  exists w', EdgeChallengeManager.refundStake i w = (Ok tt, w') /\
    edges (store w') !! i = Some (with_refund e) /\
    (if staking c then safeTransfer (token w) (Staker e) (stakeAmount c) = Ok (token w') else token w' = token w) /\
    (EdgeChallengeManager.refundStake i w').1 = Err (ErrNew "EdgeAlreadyRefunded").
Proof.
  intros Hc Ha Hr Hi Hcf Hz Hf. destruct (reachable_inv _ _ _ _ Hc Hr) as [Es Hinv].
  assert (Hpay : staking c = true -> exists t, safeTransfer (token w) (Staker e) (stakeAmount c) = Ok t).
  { intros Hstk. apply transfer_succeeds.
    - unfold isLayerZero in Hz. destruct (Z.eqb_spec (Staker e) 0); [|done]. by rewrite andb_false_r in Hz.
    - pose proof (reachable_covered _ _ _ Hc Hstk Ha Hr) as Hcov. unfold covered in Hcov.
      destruct (unpaid_refund _ _ _ Hinv i e Hi Hcf Hz Hf) as [Hin _].
      assert (1 <= size (unpaid (store w)))%nat; [|nia].
      rewrite <- (size_singleton (C := gset Hash) (mutualId e)). apply subseteq_size.
      by apply singleton_subseteq_l. }
  assert (Hg : get_ (store w) i = Ok e) by (by apply (get_ok_lookup _ _ _ Hinv)).
  assert (Hx : exists_ e = true) by (unfold get_ in Hg; destruct (exists_ (edge_at _ _)) eqn:E; [by injection Hg as <-|done]).
  assert (Hagain : forall w', edges (store w') !! i = Some (with_refund e) ->
    (EdgeChallengeManager.refundStake i w').1 = Err (ErrNew "EdgeAlreadyRefunded")).
  { intros w' Hw. unfold EdgeChallengeManager.refundStake, mbind, M_bind, get, lift.
    unfold get_. rewrite (edge_at_lookup _ _ _ Hw). change (exists_ (with_refund e)) with (exists_ e). rewrite Hx.
    unfold setRefunded. change (isLayerZero (with_refund e)) with (isLayerZero e). cbn [with_refund updated ContractStatus Refunded].
    by rewrite bool_decide_eq_true_2, Hz by done. }
  unfold EdgeChallengeManager.refundStake at 1, mbind, M_bind, get, lift, EdgeChallengeManager.on_store, modify, mret, M_ret.
  rewrite Hg. unfold setRefunded. rewrite bool_decide_eq_true_2, Hz, Hf by done. cbn [negb]. rewrite Es.
  destruct (staking c) eqn:Hstk.
  - destruct (Hpay eq_refl) as [t Et]. rewrite Et. eexists. split; [done|]. cbn.
    split_and!; [by rewrite lookup_insert_eq|done|]. apply Hagain. cbn. by rewrite lookup_insert_eq.
  - eexists. split; [done|]. cbn. split_and!; [by rewrite lookup_insert_eq|done|].
    apply Hagain. cbn. by rewrite lookup_insert_eq.
Qed.

End stakes.
