(* ===== verification/EdgeContractBisect.v ===== *)
(** * Bisections on the contract

    The edges of a level form a binary tree of dyadic intervals whose commitments are
    nested; a bisection that is proved against the end root of an edge therefore never
    collides with another edge. *)

From S2P Require Import Prelude Bits PrefixProofs MerkleSpec PrefixComplete PrefixSound InclusionProofs History Protocol Contracts MerkleContract CommitChain EdgeContract EdgeContractSpec EdgeContractHistory.
Import ChallengeEdgeLib EdgeChallengeManagerLib.

(** ** The height of a bisection *)

Lemma land_mask_256 x k : 0 <= x < two256 -> 0 <= k < 256 ->
  Z.land x (u256 (Z.shiftl (two256 - 1) k)) = x / 2 ^ k * 2 ^ k.
Proof.
  intros Hx Hk. unfold u256. change two256 with (2 ^ 256) in *. change (2 ^ 256 - 1) with (Z.ones 256).
  rewrite <- Z.shiftr_div_pow2, <- Z.shiftl_mul_pow2 by lia. apply Z.bits_inj'. intros n Hn. rewrite Z.land_spec.
  assert (Hhi : 256 <= n -> Z.testbit x n = false).
  { intros Hn'. destruct (Z.eq_dec x 0) as [->|]; [apply Z.bits_0|]. apply Z.bits_above_log2; [lia|].
    assert (Z.log2 x < 256) by (apply Z.log2_lt_pow2; lia). lia. }
  destruct (Z.lt_ge_cases n k).
  - rewrite Z.mod_pow2_bits_low, !Z.shiftl_spec_low by lia. by rewrite andb_false_r.
  - rewrite (Z.shiftl_spec_high _ _ n), Z.shiftr_spec by lia. replace (n - k + k) with n by lia.
    destruct (Z.lt_ge_cases n 256).
    + rewrite Z.mod_pow2_bits_low, Z.shiftl_spec_high, Z.ones_spec_low by lia. by rewrite andb_true_r.
    + by rewrite Hhi by lia.
Qed.

Lemma mandatoryBisectionHeight_point start end_ :
  0 <= start -> end_ < two256 ->
  mandatoryBisectionHeight start end_ =
  if end_ <? start then Err Panic0x11
  else if end_ - start <? 2 then Err (ErrNew "HeightDiffLtTwo") else Ok (bisection_point start end_).
Proof.
  intros Hs He. unfold mandatoryBisectionHeight, checked. change (2 ^ 256) with two256.
  destruct (Z.ltb_spec end_ start).
  { by destruct (Z.leb_spec 0 (end_ - start)); [lia|]. }
  destruct (Z.leb_spec 0 (end_ - start)); [|lia]. destruct (Z.ltb_spec (end_ - start) two256); [|lia].
  cbn [andb mbind res_bind]. destruct (Z.ltb_spec (end_ - start) 2); [done|].
  destruct (Z.eqb_spec (end_ - start) 2) as [E2|].
  { replace end_ with (start + 2) by lia. by rewrite bisection_point_adjacent by lia. }
  assert (Hx : 0 < Z.lxor (end_ - 1) start) by (apply lxor_pos; lia).
  assert (Hd : 0 <= diff_bit start (end_ - 1) < 256).
  { split; [apply diff_bit_nonneg|]. unfold diff_bit. rewrite Z.lxor_comm.
    destruct (Z.eq_dec start 0) as [->|].
    - rewrite Z.lxor_0_r. apply Z.log2_lt_pow2; [lia|]. change (2 ^ 256) with two256. lia.
    - pose proof (Z.log2_lxor (end_ - 1) start ltac:(lia) ltac:(lia)).
      assert (Z.log2 (end_ - 1) < 256) by (apply Z.log2_lt_pow2; change (2 ^ 256) with two256; lia).
      assert (Z.log2 start < 256) by (apply Z.log2_lt_pow2; change (2 ^ 256) with two256; lia). lia. }
  rewrite mostSignificantBit_log2.
  - cbn [mbind res_bind]. rewrite Z.lxor_comm. fold (diff_bit start (end_ - 1)).
    by rewrite land_mask_256 by lia.
  - split; [done|]. change two256 with (2 ^ 256). apply Z.log2_lt_pow2; [done|]. rewrite Z.lxor_comm. apply Hd.
Qed.

(** The contract and the validator bisect at the same height: on heights of 64 bits
    whose sum with two does not overflow, [mandatoryBisectionHeight] succeeds exactly when
    [math.Bisect] does, and with the same height.  The validator therefore commits to the
    middle that the contract expects. *)
Theorem bisection_heights_agree pre post m :
  is_u64 pre -> is_u64 post -> pre + 2 < two64 ->
  mandatoryBisectionHeight pre post = Ok m <-> Bisect pre post = Ok m.
Proof.
  intros Hpre Hpost Hov. unfold is_u64 in *. assert (two64 < two256) by done.
  rewrite mandatoryBisectionHeight_point by lia. destruct (Z.lt_ge_cases post (pre + 2)) as [Hlt|Hge].
  - assert (E : Bisect pre post = Err ErrUnableToBisect).
    { unfold Bisect. rewrite u64_small by lia. by destruct (Z.ltb_spec post (pre + 2)); [|lia]. }
    rewrite E. destruct (Z.ltb_spec post pre); [done|]. by destruct (Z.ltb_spec (post - pre) 2); [|lia].
  - rewrite Bisect_eq by (unfold is_u64; lia). destruct (Z.ltb_spec post pre); [lia|].
    by destruct (Z.ltb_spec (post - pre) 2); [lia|].
Qed.

(** ** Dyadic intervals *)

Definition dyadic (a b : Z) : Prop :=
  exists q (k : nat), 0 <= q /\ a = q * 2 ^ Z.of_nat k /\ b = a + 2 ^ Z.of_nat k.

Lemma dyadic_middle a b : dyadic a b -> a + 2 <= b ->
  exists q (k : nat), 0 <= q /\ a = q * 2 ^ Z.of_nat (S k) /\ b = a + 2 ^ Z.of_nat (S k) /\
    bisection_point a b = a + 2 ^ Z.of_nat k.
Proof.
  intros (q & k & Hq & Ea & Eb) Hab. destruct k as [|k]; [cbn in Eb; lia|].
  exists q, k. split_and!; try done.
  assert (HK : 2 ^ Z.of_nat (S k) = 2 * 2 ^ Z.of_nat k) by (rewrite Nat2Z.inj_succ, Z.pow_succ_r by lia; lia).
  assert (Hp : 0 < 2 ^ Z.of_nat k) by (apply Z.pow_pos_nonneg; lia).
  assert (Ed : diff_bit a (b - 1) = Z.of_nat k).
  { unfold diff_bit. replace (Z.lxor a (b - 1)) with (Z.ones (Z.of_nat (S k))).
    - rewrite Z.ones_equiv. rewrite Z.log2_pred_pow2 by lia. lia.
    - replace (b - 1) with (Z.lor a (Z.ones (Z.of_nat (S k)))).
      + apply Z.bits_inj'. intros n Hn. rewrite Z.lxor_spec, Z.lor_spec.
        destruct (Z.lt_ge_cases n (Z.of_nat (S k))).
        * rewrite Z.ones_spec_low by lia. rewrite Ea, <- Z.shiftl_mul_pow2, Z.shiftl_spec_low by lia. done.
        * rewrite Z.ones_spec_high by lia. by destruct (Z.testbit a n).
      + assert (E0 : Z.land a (Z.ones (Z.of_nat (S k))) = 0) by (rewrite Z.land_ones, Ea, Z.mod_mul by lia; done).
        pose proof (Z.add_lor_land a (Z.ones (Z.of_nat (S k)))) as El. rewrite E0, Z.ones_equiv in *. lia. }
  unfold bisection_point. rewrite Ed.
  replace (b - 1) with ((2 * q + 1) * 2 ^ Z.of_nat k + (2 ^ Z.of_nat k - 1)) by (rewrite Eb, Ea, HK; ring).
  rewrite Z.div_add_l, Z.div_small by lia. rewrite Ea, HK. ring.
Qed.

Lemma dyadic_halves a b m : dyadic a b -> a + 2 <= b -> bisection_point a b = m -> dyadic a m /\ dyadic m b.
Proof.
  intros Hd Hab <-. destruct (dyadic_middle _ _ Hd Hab) as (q & k & Hq & Ea & Eb & ->).
  assert (HK : 2 ^ Z.of_nat (S k) = 2 * 2 ^ Z.of_nat k) by (rewrite Nat2Z.inj_succ, Z.pow_succ_r by lia; lia).
  split; [exists (2 * q), k|exists (2 * q + 1), k]; (split_and!; [lia|rewrite Ea, HK; ring|rewrite ?Eb, ?HK; lia]).
Qed.

Lemma isPowerOfTwo_pow x : 0 <= x -> isPowerOfTwo x = true -> exists k : nat, x = 2 ^ Z.of_nat k.
Proof.
  intros Hx. unfold isPowerOfTwo. destruct (Z.eqb_spec x 0); [done|]. intros E%Z.eqb_eq.
  pose proof (isolated_bit x ltac:(lia)) as Hi. rewrite Z.land_comm in E. rewrite E, Z.lxor_0_l in Hi.
  destruct (TrailingZeros64_spec x ltac:(lia)) as (_ & _ & _ & Hc).
  exists (Z.to_nat (TrailingZeros64 x)). by rewrite Z2Nat.id.
Qed.

(** ** The tree of edges *)

(** The heights are those of a validator, that counts them in 64 bits. *)
Definition heights_fit (c : Settings) : Prop :=
  0 <= LAYERZERO_BLOCKEDGE_HEIGHT c < two64 - 1 /\ 0 <= LAYERZERO_BIGSTEPEDGE_HEIGHT c < two64 - 1 /\
  0 <= LAYERZERO_SMALLSTEPEDGE_HEIGHT c < two64 - 1.

Section tree.
Context `{Hasher} `{!HasherNonzero} `{!HasherInjective} (c : Settings).
Hypothesis Hc : settings_ok c.
Hypothesis Hfit : heights_fit c.

Lemma layer_height_power l : layer_height c l = 0 \/
  layer_height c l < two64 - 1 /\ exists k : nat, layer_height c l = 2 ^ Z.of_nat k.
Proof.
  unfold layer_height. destruct (levelToType l _) as [t| | |]; auto. right.
  destruct Hc, Hfit as (? & ? & ?). destruct t; cbn; (split; [lia|]); apply isPowerOfTwo_pow; done || lia.
Qed.

(** Every edge lies on a dyadic interval, its start root commits to a prefix of its end
    root, and it makes a claim or has a parent. *)
Record tree_inv (s : EdgeStore) : Prop := {
  tree_dyadic i e : edges s !! i = Some e -> dyadic (StartHeight e) (EndHeight e);
  tree_commits i e : edges s !! i = Some e ->
    commits_prefix (StartHistoryRoot e) (StartHeight e) (EndHistoryRoot e) (EndHeight e);
  tree_parent i e : edges s !! i = Some e -> EdgeClaimId e = 0 ->
    exists j p, edges s !! j = Some p /\ LowerChildId p <> 0 /\ (LowerChildId p = i \/ UpperChildId p = i);
}.

Lemma edge_bounds b s i e : store_inv c b s -> edges s !! i = Some e ->
  0 <= StartHeight e < EndHeight e /\ EndHeight e + 1 < two64.
Proof.
  intros Hinv Hi. apply (inv_edge _ _ _ Hinv) in Hi as [_ Hok]. destruct Hok.
  split; [done|]. destruct (layer_height_power (EdgeLevel e)) as [|[? _]]; lia.
Qed.

(** The middle of an edge, and what the proof shows about its halves. *)
Lemma bisect_commits b s i e root mid : store_inv c b s -> tree_inv s -> edges s !! i = Some e ->
  mandatoryBisectionHeight (StartHeight e) (EndHeight e) = Ok mid ->
  commits_prefix root mid (EndHistoryRoot e) (EndHeight e) ->
  dyadic (StartHeight e) mid /\ dyadic mid (EndHeight e) /\
  commits_prefix (StartHistoryRoot e) (StartHeight e) root mid /\
  exists q (k : nat), 0 <= q /\ StartHeight e = q * 2 ^ Z.of_nat (S k) /\
    EndHeight e = StartHeight e + 2 ^ Z.of_nat (S k) /\ mid = StartHeight e + 2 ^ Z.of_nat k.
Proof.
  intros Hinv Ht Hi Hm Hp. destruct (edge_bounds _ _ _ _ Hinv Hi) as [Hh H64].
  assert (two64 < two256) by done. rewrite mandatoryBisectionHeight_point in Hm by lia.
  destruct (Z.ltb_spec (EndHeight e) (StartHeight e)); [lia|].
  destruct (Z.ltb_spec (EndHeight e - StartHeight e) 2); [done|]. injection Hm as Em.
  pose proof (tree_dyadic _ Ht _ _ Hi) as Hd.
  destruct (dyadic_halves _ _ _ Hd ltac:(lia) Em) as [Hd1 Hd2].
  destruct (dyadic_middle _ _ Hd ltac:(lia)) as (q & k & Hq & Ea & Eb & Ep). rewrite Ep in Em.
  split_and!; try done; [|by exists q, k].
  pose proof (tree_commits _ Ht _ _ Hi) as Hpe. subst mid. rewrite Eb in Hp, Hpe. rewrite Ea in *.
  apply (bisection_keeps_prefix q k _ _ (EndHistoryRoot e)); try done.
  rewrite Eb in H64. lia.
Qed.

(** What the invariant says of an edge. *)
Definition in_tree (s : EdgeStore) (i : EdgeId) (e : ChallengeEdge) : Prop :=
  dyadic (StartHeight e) (EndHeight e) /\ commits_prefix (StartHistoryRoot e) (StartHeight e) (EndHistoryRoot e) (EndHeight e) /\
  (EdgeClaimId e = 0 -> exists j p, edges s !! j = Some p /\ LowerChildId p <> 0 /\ (LowerChildId p = i \/ UpperChildId p = i)).

Lemma tree_edges s : (forall i e, edges s !! i = Some e -> in_tree s i e) -> tree_inv s.
Proof. intros Hall. split; intros i e Hi; by destruct (Hall _ _ Hi) as (? & ? & ?); auto. Qed.

(** An edge stays in the tree. *)
Lemma in_tree_later s s' i e e' : tree_inv s -> evolves s s' -> edges s !! i = Some e -> same_data e e' -> in_tree s' i e'.
Proof.
  intros Ht Hev Hi (? & ? & ? & ? & ? & ->). split_and!; [apply (tree_dyadic _ Ht _ _ Hi)|apply (tree_commits _ Ht _ _ Hi)|].
  intros Hcl. destruct (tree_parent _ Ht _ _ Hi Hcl) as (j & p & Hj & Hl & Hor).
  destruct (evolves_edge _ _ Hev _ _ Hj) as (p' & Hj' & _ & _ & _ & Hch).
  destruct (Hch Hl) as [El Eu]. exists j, p'. rewrite El, Eu. done.
Qed.

Lemma claim_in_tree b s i e : edge_ok c b e -> EdgeClaimId e <> 0 ->
  commits_prefix (StartHistoryRoot e) (StartHeight e) (EndHistoryRoot e) (EndHeight e) -> in_tree s i e.
Proof.
  intros Hok Hcl Hp. split_and!; [|done|done]. destruct (ok_layer_zero _ _ _ Hok) as [Hz _]. destruct (Hz Hcl) as [E1 E2].
  rewrite E1, E2. pose proof (ok_heights _ _ _ Hok).
  destruct (layer_height_power (EdgeLevel e)) as [E0|[_ (k & Ek)]]; [lia|]. exists 0, k. rewrite Ek. lia.
Qed.

(** The halves of a bisected edge are in the tree. *)
Lemma halves_in_tree b s i e root mid (lo := lower_half b e root mid) (up := upper_half b e root mid)
    (s' := put_edge i (with_children e (id lo) (id up)) (insert_edge up (ensure_edge lo s))) :
  store_inv c b s -> tree_inv s -> edges s !! i = Some e -> mandatoryBisectionHeight (StartHeight e) (EndHeight e) = Ok mid ->
  commits_prefix root mid (EndHistoryRoot e) (EndHeight e) -> in_tree s' (id lo) lo /\ in_tree s' (id up) up.
Proof.
  intros Hinv Ht Hi Hm Hpre. destruct (bisect_commits _ _ _ _ _ _ Hinv Ht Hi Hm Hpre) as (Hd1 & Hd2 & Hc1 & _).
  assert (Hpar : forall j, j = id lo \/ j = id up -> exists k p, edges s' !! k = Some p /\
    LowerChildId p <> 0 /\ (LowerChildId p = j \/ UpperChildId p = j)).
  { intros j Hj. exists i. unfold s'. cbn [put_edge edges]. rewrite lookup_insert_eq. eexists. split; [done|]. cbn.
    split; [apply id_nonzero|]. destruct Hj; auto. }
  split; split_and!; try done; intros _; apply Hpar; auto.
Qed.

Lemma tree_step b s s' : store_step c b s s' -> store_inv c b s -> tree_inv s -> tree_inv s'.
Proof.
  intros Hst Hinv Ht. assert (Hev := step_evolves _ _ _ _ Hst). apply tree_edges.
  assert (Hold : forall i e e', edges s !! i = Some e -> same_data e e' -> in_tree s' i e') by (intros; by eapply in_tree_later).
  assert (Hrefl : forall e, same_data e e) by (intros []; repeat eexists).
  destruct Hst as [e Hn Hok Hf Ho Hcl Hp|i e root mid Hi Hp Hr Hl Hu Hm Hmid Hroot Hpre Hn|i e Hi Hp Hz|i e Hi Hcf Hl Hr].
  - intros i e'. rewrite edges_insert, lookup_insert_Some. intros [[<- <-]|[_ Hi]]; [by eapply claim_in_tree|eauto].
  - destruct (halves_in_tree _ _ _ _ _ _ Hinv Ht Hi Hm Hpre) as [Hlo Hup].
    intros j x Hj. cbn [put_edge edges] in Hj. apply lookup_insert_Some in Hj as [[<- <-]|[_ Hj]]; [apply (Hold _ e); [done|by repeat eexists]|].
    rewrite edges_insert, lookup_insert_Some in Hj. destruct Hj as [[<- <-]|[_ Hj]]; [done|].
    unfold ensure_edge at 1 in Hj. destruct (edges s !! id (lower_half b e root mid)); [eauto|].
    rewrite edges_insert, lookup_insert_Some in Hj. destruct Hj as [[<- <-]|[_ Hj]]; [done|eauto].
  - intros j x Hj. cbn in Hj. apply lookup_insert_Some in Hj as [[<- <-]|[_ Hj]]; [apply (Hold _ e); [done|by repeat eexists]|eauto].
  - intros j x Hj. cbn in Hj. apply lookup_insert_Some in Hj as [[<- <-]|[_ Hj]]; [apply (Hold _ e); [done|by repeat eexists]|eauto].
Qed.

(** The upper half of an edge that was not bisected does not exist. *)
Lemma upper_half_new b s i e root mid : store_inv c b s -> tree_inv s -> edges s !! i = Some e ->
  LowerChildId e = 0 -> mandatoryBisectionHeight (StartHeight e) (EndHeight e) = Ok mid ->
  commits_prefix root mid (EndHistoryRoot e) (EndHeight e) ->
  edges (ensure_edge (lower_half b e root mid) s) !! id (upper_half b e root mid) = None.
Proof.
  intros Hinv Ht Hi Hl Hm Hp. destruct (edge_bounds _ _ _ _ Hinv Hi) as [Hh H64].
  destruct (bisect_commits _ _ _ _ _ _ Hinv Ht Hi Hm Hp) as (_ & _ & _ & q & k & Hq & Ea & Eb & Em).
  assert (HK : 2 ^ Z.of_nat (S k) = 2 * 2 ^ Z.of_nat k) by (rewrite Nat2Z.inj_succ, Z.pow_succ_r by lia; lia).
  assert (Hk : 0 < 2 ^ Z.of_nat k) by (apply Z.pow_pos_nonneg; lia).
  enough (Hnone : edges s !! id (upper_half b e root mid) = None).
  { unfold ensure_edge. destruct (edges s !! id (lower_half b e root mid)); [done|].
    rewrite edges_insert, lookup_insert_ne; [done|]. intros [E _]%id_inj.
    apply mutual_inj in E as (_ & _ & E & _). cbn in E. lia. }
  destruct (edges s !! id (upper_half b e root mid)) as [x|] eqn:Hx; [|done]. exfalso.
  destruct (inv_edge _ _ _ Hinv _ _ Hx) as [Hid Hok]. apply id_inj in Hid as [Hmu Her].
  apply mutual_inj in Hmu as (X1 & X2 & X3 & X4 & X5). cbn in X1, X2, X3, X4, X5, Her.
  destruct (Z.eq_dec (EdgeClaimId x) 0) as [Hcl|Hcl]; cycle 1.
  { apply (ok_layer_zero _ _ _ Hok) in Hcl as [E _]. lia. }
  destruct (tree_parent _ Ht _ _ Hx Hcl) as (j & p & Hj & Hlp & Hor).
  destruct (inv_children _ _ _ Hinv _ _ Hj) as [[? _]|(_ & l & u & Hlo & Hup & Hhalf)]; [done|].
  destruct (edge_bounds _ _ _ _ Hinv Hj) as [Hhj H64j].
  destruct Hhalf as [Hmj [L1 L2] [O1 O2] [S1 S2] [M1 M2] [E1 E2]].
  pose proof (tree_dyadic _ Ht _ _ Hj) as Hdj.
  assert (two64 < two256) by done. rewrite mandatoryBisectionHeight_point in Hmj by lia.
  destruct (Z.ltb_spec (EndHeight p) (StartHeight p)); [lia|].
  destruct (Z.ltb_spec (EndHeight p - StartHeight p) 2); [done|]. injection Hmj as Emj.
  destruct (dyadic_middle _ _ Hdj ltac:(lia)) as (q' & k' & Hq' & Ea' & Eb' & Ep'). rewrite Emj in Ep'.
  assert (HK' : 2 ^ Z.of_nat (S k') = 2 * 2 ^ Z.of_nat k') by (rewrite Nat2Z.inj_succ, Z.pow_succ_r by lia; lia).
  assert (Hsame : 2 ^ Z.of_nat k' = 2 ^ Z.of_nat k -> k' = k).
  { intros E. apply Z.pow_inj_r in E; lia. }
  destruct Hor as [Hor|Hor].
  - rewrite Hor in Hlo. simplify_eq. assert (k' = k) as -> by (apply Hsame; lia). rewrite HK in Ea, Eb, Ea', Eb'.
    assert (2 * q' = 2 * q + 1); [|lia]. apply (Z.mul_reg_r _ _ (2 ^ Z.of_nat k)); lia.
  - rewrite Hor in Hup. simplify_eq. assert (k' = k) as -> by (apply Hsame; lia).
    assert (Hroots : StartHistoryRoot p = StartHistoryRoot e).
    { pose proof (tree_commits _ Ht _ _ Hj) as P1. pose proof (tree_commits _ Ht _ _ Hi) as P2.
      replace (StartHeight p) with (StartHeight e) in P1 by lia. replace (EndHeight p) with (EndHeight e) in P1 by lia.
      rewrite <- E2, Her in P1. by apply (commits_unique _ _ (StartHeight e) (EndHistoryRoot e) (EndHeight e)); [lia|lia|..]. }
    destruct (inv_edge _ _ _ Hinv _ _ Hj) as [Hidp _]. destruct (inv_edge _ _ _ Hinv _ _ Hi) as [Hide _].
    assert (id p = id e).
    { apply id_inj. split; [|congruence]. unfold mutualId. f_equal; try congruence; lia. }
    assert (j = i) by congruence. subst j. congruence.
Qed.

End tree.

Section reachable.
Context `{Hasher} `{!HasherNonzero} `{!HasherInjective} `{IOneStepProofEntry} `{AbiDecode}.
Context {R T : Type} `{IAssertionChain R} `{IERC20 T} (this : Address) (c : Settings).
Hypothesis Hc : settings_ok c.
Hypothesis Hfit : heights_fit c.
Implicit Types w : World R T.

Lemma reachable_tree b w : reachable this c (b, w) -> tree_inv (store w).
Proof.
  intros (b0 & w0 & Es & Est & Hr). enough (Hall : forall x, rtc (tx_step this) (b0, w0) x ->
    settings x.2 = c /\ store_inv c x.1 (store x.2) /\ tree_inv (store x.2)) by (by apply (Hall (b, w))).
  clear Hr. intros x Hx. pattern x. revert x Hx. apply rtc_ind_r;
    [cbn [fst snd]|intros [b1 w1] [b2 w2] Hxy Hst (E & Hinv & Ht); cbn [fst snd] in *].
  - split_and!; [done|rewrite Est; apply inv_empty|]. rewrite Est. split; intros i e Hi; discriminate Hi.
  - assert (Hs1 : settings_ok (settings w1)) by (by rewrite E). rewrite <- E in Hinv.
    destruct (tx_invariant this _ _ Hst Hs1 Hinv) as [E2 Hinv2]. cbn [fst snd] in *.
    destruct (tx_moves this _ _ _ _ Hs1 Hst Hinv) as (_ & Hm). rewrite E2, E in *.
    split_and!; [done|done|]. destruct Hm as [Em|Hm]; [by rewrite Em|].
    eapply tree_step; [done|done|exact Hm| |done]. assert (b1 <= b2) by (by inversion Hst). by eapply inv_later.
Qed.

(** (C15) The commitments of a challenge are nested, for a collision-free hash: in every
    reachable state, every edge spans a dyadic interval of heights, and its start root is
    shown to commit to a prefix of what its end root commits to.  The contract verifies
    this for layer zero edges; for the lower half of a bisection it checks the root of the
    middle against the end root of the whole edge only. *)
Theorem edges_commit_prefix b w i e :
  reachable this c (b, w) -> edges (store w) !! i = Some e ->
  dyadic (StartHeight e) (EndHeight e) /\
  commits_prefix (StartHistoryRoot e) (StartHeight e) (EndHistoryRoot e) (EndHeight e).
Proof.
  intros Hr Hi. pose proof (reachable_tree _ _ Hr) as Ht.
  split; [by apply (tree_dyadic _ Ht _ _ Hi)|by apply (tree_commits _ Ht _ _ Hi)].
Qed.

Lemma root_loop_nonzero n me : forall i accum, accum <> zero_hash \/ 0 < bval me -> root_loop n i accum me <> zero_hash.
Proof.
  induction me as [|h me IH]; intros i accum Hor; cbn [root_loop bval] in *; [destruct Hor; [done|lia]|].
  apply IH. unfold root_step, is_zero in *. destruct (Z.eqb_spec accum zero_hash) as [->|Ha].
  - destruct Hor as [|Hor]; [done|]. destruct (Z.eqb_spec h zero_hash); [right; lia|left].
    destruct (_ =? _); [done|apply keccak_nonzero].
  - left. destruct (h =? zero_hash); apply keccak_nonzero.
Qed.

Lemma verified_root_nonzero r n r' n' pre proof : verifyPrefixProof r n r' n' pre proof = Ok tt -> r <> 0.
Proof.
  intros (Hpos & Er & Et & _)%verifyPrefixProof_ok. destruct (root_guards _ _ Er) as [_ H64].
  rewrite treeSize_bval in Et by done. injection Et as <-. unfold root, require, mbind, res_bind in Er.
  destruct (_ <? _); [|done]. destruct (_ <=? _); [|done]. injection Er as <-. apply root_loop_nonzero. by right.
Qed.

Lemma add_succeeds b s e : store_inv c b s -> edges s !! id e = None -> edge_ok c b e ->
  EndHeight e < two256 -> exists d, add e s = (Ok d, insert_edge e s) /\ AddedEdgeId d = id e.
Proof.
  intros Hinv Hn Hok Hlt. unfold add, mbind, M_bind, get, modify, lift, mret, M_ret.
  rewrite (proj2 (not_exists_lookup _ _ _ Hinv (id e)) Hn).
  assert (Hlen : forall s', edges s' !! id e = Some e -> length (edge_at s' (id e)) = Ok (EndHeight e - StartHeight e)).
  { intros s' Hs'. rewrite (edge_at_lookup _ _ _ Hs'). destruct (ok_heights _ _ _ Hok). unfold length.
    rewrite checked_ok by (change (2 ^ 256) with two256; lia). cbn [mbind res_bind].
    by destruct (Z.eqb_spec (EndHeight e - StartHeight e) 0); [lia|]. }
  unfold insert_edge, record_rival.
  change (firstRival_at (put_edge (id e) e s) (mutualId e)) with (firstRival_at s (mutualId e)).
  fold (mutualId e). destruct (firstRival_at s (mutualId e) =? 0); [|destruct (firstRival_at s (mutualId e) =? UNRIVALED)];
    (rewrite Hlen by apply lookup_insert_eq); by eexists.
Qed.

Lemma newChildEdge_succeeds b e sr st er en : 0 < b < two64 -> EdgeOriginId e <> 0 -> st < en -> sr <> 0 -> er <> 0 ->
  newChildEdge b (EdgeOriginId e) sr st er en (EdgeLevel e) = Ok (half b e sr st er en).
Proof.
  intros Hb Ho Hlt Hsr Her. unfold newChildEdge, newEdgeChecks. rewrite (u64_small b) by lia.
  destruct (Z.eqb_spec (EdgeOriginId e) 0); [done|]. destruct (Z.leb_spec en st); [lia|].
  destruct (Z.eqb_spec sr 0); [done|]. by destruct (Z.eqb_spec er 0).
Qed.

(** The lower half is added unless it exists. *)
Lemma ensure_succeeds b s l : store_inv c b s -> edge_ok c b l -> EndHeight l < two256 ->
  exists o, (if negb (exists_ (edge_at s (id l))) then d ← add l; mret (Some d) else mret None) s = (Ok o, ensure_edge l s).
Proof.
  intros Hinv Hok Hlt. unfold ensure_edge. destruct (edges s !! id l) eqn:El.
  - assert (Hx : exists_ (edge_at s (id l)) = true).
    { apply (exists_lookup _ _ _ Hinv). by rewrite (edge_at_lookup _ _ _ El). }
    rewrite Hx. by eexists.
  - rewrite (proj2 (not_exists_lookup _ _ _ Hinv _) El). cbn [negb].
    destruct (add_succeeds b s _ Hinv El Hok Hlt) as (d & Ed & _). unfold mbind, M_bind. rewrite Ed. by eexists.
Qed.

Lemma no_upper_child b s i e : store_inv c b s -> edges s !! i = Some e -> LowerChildId e = 0 -> UpperChildId e = 0.
Proof.
  intros Hinv Hi Hl. destruct (inv_children _ _ _ Hinv _ _ Hi) as [[_ ?]|(_ & l & u & Hlo & _)]; [done|].
  rewrite Hl in Hlo. apply (inv_edge _ _ _ Hinv) in Hlo as [E _]. by destruct (id_nonzero l).
Qed.

(** A bisection of an edge that was not bisected yet succeeds. *)
Lemma bisectEdge_succeeds b w i e root mid bytes pre proof :
  reachable this c (b, w) -> 0 < b < two64 ->
  edges (store w) !! i = Some e -> ContractStatus e = EdgePending -> rivaled (store w) (mutualId e) ->
  LowerChildId e = 0 -> mandatoryBisectionHeight (StartHeight e) (EndHeight e) = Ok mid ->
  decodePrefixProof bytes = Ok (pre, proof) ->
  verifyPrefixProof root (mid + 1) (EndHistoryRoot e) (EndHeight e + 1) pre proof = Ok tt ->
  exists o u s', EdgeChallengeManagerLib.bisectEdge b i root bytes (store w) =
    (Ok (id (lower_half b e root mid), o, u), s') /\ AddedEdgeId u = id (upper_half b e root mid).
Proof.
  intros Hr Hb Hi Hp Hrv Hl Hm Hd Hv. destruct (reachable_inv _ _ _ _ Hc Hr) as [_ Hinv].
  pose proof (reachable_tree _ _ Hr) as Ht. set (s := store w) in *.
  destruct (inv_edge _ _ _ Hinv _ _ Hi) as [Hid Hok]. destruct (ok_roots _ _ _ Hok) as [Hsr Her].
  destruct (edge_bounds c Hc Hfit _ _ _ _ Hinv Hi) as [Hh H64].
  assert (Hpre : commits_prefix root mid (EndHistoryRoot e) (EndHeight e)) by (by exists pre, proof).
  pose proof (upper_half_new c Hc Hfit _ _ _ _ _ _ Hinv Ht Hi Hl Hm Hpre) as Hnew.
  destruct (bisect_commits c Hc Hfit _ _ _ _ _ _ Hinv Ht Hi Hm Hpre) as (_ & _ & _ & q & k & Hq & Ea & Eb & Em).
  assert (HK : 2 ^ Z.of_nat (S k) = 2 * 2 ^ Z.of_nat k) by (rewrite Nat2Z.inj_succ, Z.pow_succ_r by lia; lia).
  assert (Hk : 0 < 2 ^ Z.of_nat k) by (apply Z.pow_pos_nonneg; lia).
  assert (Hmid : StartHeight e < mid < EndHeight e) by lia. assert (two64 < two256) by done.
  pose proof (verified_root_nonzero _ _ _ _ _ _ Hv) as Hroot.
  pose proof (no_upper_child _ _ _ _ Hinv Hi Hl) as Hu.
  assert (Hlok : edge_ok c b (lower_half b e root mid)) by (by apply half_ok; try lia).
  assert (Huok : edge_ok c b (upper_half b e root mid)) by (by apply half_ok; try lia).
  destruct (inv_ensure c b (lower_half b e root mid) s) as [Hinv1 _];
    [done|done|done|apply half_origin; by apply (inv_origin _ _ _ Hinv) in Hi|].
  destruct (ensure_succeeds b s _ Hinv Hlok) as [o Hlow]; [cbn; lia|].
  destruct (add_succeeds b _ _ Hinv1 Hnew Huok) as (u & Eu & Hidu); [cbn; lia|].
  destruct (hasRival_rivaled _ _ _ Hinv _ _ Hi) as (rv & Hrv1 & Hrv2).
  assert (rv = true) as -> by (by apply Hrv2).
  unfold EdgeChallengeManagerLib.bisectEdge. unfold mbind at 1, M_bind at 1, get at 1.
  rewrite (edge_at_lookup _ _ _ Hi). rewrite bool_decide_eq_true_2 by done. cbn [negb].
  unfold lift. unfold mbind at 1, M_bind at 1. rewrite Hrv1. cbn [negb].
  unfold mbind at 1, M_bind at 1. rewrite Hm. unfold mbind at 1, M_bind at 1. rewrite Hd.
  unfold mbind at 1, M_bind at 1. rewrite checked_ok by (change (2 ^ 256) with two256; lia).
  unfold mbind at 1, M_bind at 1. rewrite checked_ok by (change (2 ^ 256) with two256; lia).
  unfold mbind at 1, M_bind at 1. rewrite Hv. unfold mbind at 1, M_bind at 1.
  rewrite newChildEdge_succeeds by (done || lia || apply (ok_origin _ _ _ Hok)).
  fold (lower_half b e root mid). unfold mbind at 1, M_bind at 1. rewrite Hlow.
  unfold mbind at 1, M_bind at 1. rewrite newChildEdge_succeeds by (done || lia || apply (ok_origin _ _ _ Hok)).
  fold (upper_half b e root mid). unfold mbind at 1, M_bind at 1. rewrite Eu.
  unfold mbind at 1, M_bind at 1, get at 1. unfold mbind at 1, M_bind at 1.
  erewrite edge_at_lookup; [|rewrite edges_insert, lookup_insert_ne;
    [by apply lookup_ensure|intros E; apply (lookup_ensure (lower_half b e root mid)) in Hi; congruence]].
  unfold setChildren. rewrite Hl, Hu. cbn [Z.eqb negb orb]. unfold mbind, M_bind, modify, mret, M_ret. eauto.
Qed.

(** (C9) An honest bisection is never refused: in every reachable state, for a pending and
    rivaled edge of length at least two that was not bisected, whose end root is the root
    of the leaves up to its end height, the proof the validator generates from its leaves
    for the middle verifies, and [bisectEdge] with the root of the prefix succeeds,
    whatever the other parties have added to the contract before.  In particular the upper
    half never exists already, as the comment in the contract says. *)
Theorem honest_bisection_succeeds b w i e leaves :
  reachable this c (b, w) -> 0 < b < two64 ->
  edges (store w) !! i = Some e -> ContractStatus e = EdgePending -> rivaled (store w) (mutualId e) ->
  LowerChildId e = 0 -> StartHeight e + 2 <= EndHeight e ->
  len leaves = EndHeight e + 1 -> len leaves < 2 ^ 63 -> EndHistoryRoot e = merkle (hash_leaf <$> leaves) ->
  exists mid proof numRead,
    Bisect (StartHeight e) (EndHeight e) = Ok mid /\
    let pre := hash_leaf <$> take (Z.to_nat (mid + 1)) leaves in
    GeneratePrefixProof (mid + 1) (expansion_of pre) (drop (Z.to_nat (mid + 1)) leaves) RootFetcherFromExpansion
      = Ok proof /\
    MerkleExpansionFromCompact proof (mid + 1) = Ok (expansion_of pre, numRead) /\
    (len proof < two64 -> forall bytes,
     decodePrefixProof bytes = Ok (expansion_of pre, drop (Z.to_nat numRead) proof) ->
     exists ids w', EdgeChallengeManager.bisectEdge b i (merkle pre) bytes w = (Ok ids, w')).
Proof.
  intros Hr Hb Hi Hp Hrv Hl Hlen Hn H63 Her. destruct (reachable_inv _ _ _ _ Hc Hr) as [_ Hinv].
  destruct (edge_bounds c Hc Hfit _ _ _ _ Hinv Hi) as [Hh H64]. assert (two64 < two256) by done.
  destruct (bisection_point_spec (StartHeight e) (EndHeight e)) as [Hmid _]; [lia|lia|].
  set (mid := bisection_point (StartHeight e) (EndHeight e)) in *.
  assert (Hm : mandatoryBisectionHeight (StartHeight e) (EndHeight e) = Ok mid).
  { rewrite mandatoryBisectionHeight_point by lia. destruct (Z.ltb_spec (EndHeight e) (StartHeight e)); [lia|].
    by destruct (Z.ltb_spec (EndHeight e - StartHeight e) 2); [lia|]. }
  set (pre := hash_leaf <$> take (Z.to_nat (mid + 1)) leaves).
  assert (Hpre : len pre = mid + 1).
  { unfold pre, len in *. rewrite length_fmap, length_take. lia. }
  assert (Hrest : len (drop (Z.to_nat (mid + 1)) leaves) = EndHeight e - mid).
  { unfold len in *. rewrite length_drop. lia. }
  destruct (contract_accepts_generated pre (drop (Z.to_nat (mid + 1)) leaves)) as (proof & numRead & Eg & Em & Hv).
  - intros E. rewrite E in Hpre. change (@len Hash []) with 0 in Hpre. lia.
  - apply nonzero_leaves.
  - intros E. rewrite E in Hrest. change (@len Hash []) with 0 in Hrest. lia.
  - lia.
  - rewrite Hpre in *. exists mid, proof, numRead. split; [apply Bisect_eq; unfold is_u64; lia|].
    cbv zeta. fold pre. split; [done|]. split; [done|]. intros Hpl bytes Hd. specialize (Hv Hpl).
    unfold pre in Hv at 2. rewrite <- fmap_app, take_drop, <- Her in Hv.
    replace (mid + 1 + len (drop (Z.to_nat (mid + 1)) leaves)) with (EndHeight e + 1) in Hv by lia.
    destruct (bisectEdge_succeeds _ _ _ _ _ _ _ _ _ Hr Hb Hi Hp Hrv Hl Hm Hd Hv) as (o & u & s' & Eb & _).
    unfold EdgeChallengeManager.bisectEdge, EdgeChallengeManager.on_store. unfold mbind at 1, M_bind at 1. cbv beta. rewrite Eb.
    unfold EdgeChallengeManager.emit, modify, mbind, M_bind, mret, M_ret. destruct o; by do 2 eexists.
Qed.

End reachable.
