(* ===== verification/EdgeContractToy.v ===== *)
(** * A challenge on the contract, executed

    Two stakers claim rival assertions, bisect the rival edges, and one of the edges is
    confirmed by time and refunded: the contract evaluated with an executable hash, token,
    decoder and assertion chain.  The runs show that the hypotheses of the theorems about
    the contract can hold. *)

From S2P Require Import Prelude Bits PrefixProofs MerkleSpec PrefixComplete PrefixSound Containers InclusionProofs History Protocol Provider ChallengeTree ChallengeTreeSpec Contracts MerkleContract CommitChain EdgeContract EdgeContractSpec EdgeContractHistory EdgeContractStakes EdgeContractBisect.
Import ChallengeEdgeLib EdgeChallengeManagerLib EdgeContract.
Import EdgeChallengeManager (Call, CreateLayerZeroEdge, BisectEdge, ConfirmEdgeByTime, RefundStake, run, transaction).

Module ToyContract.

#[local] Instance H : Hasher := toy_keccak.

(** The words of a proof: the number of elements of its first list, then both lists. *)
Definition encode_prefix (pre proof : list Hash) : list Z := len pre :: pre ++ proof.

Definition machine (status : Z) : SolExecutionState :=
  {| SolGlobal := {| Bytes32Vals := (0, 0); U64Vals := (0, 0) |}; SolMachineStatus := status |}.
Definition data (status : Z) : ExecutionStateData :=
  {| DataExecutionState := machine status; DataPrevAssertionHash := 500; DataInboxAcc := 0 |}.

#[local] Instance decoder : AbiDecode := {|
  decodePrefixProof ws :=
    match ws with
    | n :: rest => Ok (take (Z.to_nat n) rest, drop (Z.to_nat n) rest)
    | [] => revert "decode"
    end;
  decodeBlockProof ws :=
    match ws with
    | s :: e :: rest => Ok (rest, data s, data e)
    | _ => revert "decode"
    end;
  decodeSubchallengeProof _ := revert "decode";
|}.

(** The hash of a machine is its status here; a step adds one. *)
#[local] Instance machines : IOneStepProofEntry := {|
  getMachineHash s := Ok (SolMachineStatus s);
  proveOneStep _ _ before _ := Ok (before + 1);
|}.

(** The assertions 1001 and 1002 are the children of 500, created at blocks 3 and 8. *)
#[local] Instance assertions : IAssertionChain unit := {|
  validateAssertionHash _ _ _ _ _ := Ok tt;
  isPending _ _ := Ok true;
  isFirstChild _ h := Ok (h =? 1001);
  getFirstChildCreationBlock _ _ := Ok 3;
  getSecondChildCreationBlock _ _ := Ok 8;
  validateConfig _ _ _ := Ok tt;
  bridge _ := 77;
|}.

Definition this : Address := 100.

(** A token with unlimited allowances: the balances of the accounts. *)
Definition balance (t : gmap Address Z) (a : Address) : Z := Z.max 0 (default 0 (t !! a)).
Definition move (t : gmap Address Z) (from to amount : Z) : res (gmap Address Z) :=
  if (amount <? 0) || (balance t from <? amount) then revert "ERC20: transfer amount exceeds balance"
  else
    let t' := <[from := balance t from - amount]> t in
    Ok (<[to := balance t' to + amount]> t').

#[local] Instance tokens : IERC20 (gmap Address Z) := {|
  balanceOf := balance;
  safeTransferFrom := move;
  safeTransfer t := move t this;
|}.

Lemma balance_insert t a b v : 0 <= v -> balance (<[a := v]> t) b = if a =? b then v else balance t b.
Proof.
  intros Hv. unfold balance. destruct (Z.eqb_spec a b) as [->|Hn].
  - rewrite lookup_insert_eq. cbn. lia.
  - by rewrite lookup_insert_ne.
Qed.

Lemma move_spec t from to amount t' : move t from to amount = Ok t' ->
  0 <= amount <= balance t from /\
  balance t' this = balance t this - (if from =? this then amount else 0) + (if to =? this then amount else 0).
Proof.
  unfold move. destruct (Z.ltb_spec amount 0); [done|]. destruct (Z.ltb_spec (balance t from) amount); [done|].
  cbn [orb]. intros [= <-]. split; [lia|].
  assert (Hnn : forall x, 0 <= balance t x) by (intros x; unfold balance; lia).
  pose proof (Hnn to). pose proof (Hnn this).
  assert (Hto : 0 <= balance (<[from := balance t from - amount]> t) to)
    by (rewrite balance_insert by lia; destruct (from =? to); lia).
  rewrite (balance_insert _ to) by lia. rewrite !balance_insert by lia.
  destruct (Z.eqb_spec from to), (Z.eqb_spec to this), (Z.eqb_spec from this); subst; try lia; congruence.
Qed.

#[local] Instance token_laws : ERC20Laws this.
Proof.
  split; cbn.
  - intros t. unfold balance. lia.
  - intros t t' from to amount Hn [_ ->]%move_spec. destruct (Z.eqb_spec from this); [done|]. lia.
  - intros t t' to amount [_ ->]%move_spec. rewrite Z.eqb_refl. destruct (to =? this); lia.
  - intros t to amount _ Ha. unfold move. destruct (Z.ltb_spec amount 0); [lia|].
    destruct (Z.ltb_spec (balance t this) amount); [lia|]. by eexists.
Qed.

(** ** The claims of the two stakers *)

Definition alice : Address := 1.
Definition bob : Address := 2.

(** They agree on the states up to the second. *)
Definition leaves_a : list Hash := [11; 12; 13; 14; 15].
Definition leaves_b : list Hash := [11; 12; 13; 24; 25].

Definition root_of (leaves : list Hash) (n : Z) : Hash := merkle (hash_leaf <$> take (Z.to_nat n) leaves).

(** The proof that the first [n] leaves are a prefix of all. *)
Definition prefix_of (leaves : list Hash) (n : Z) : list Z :=
  let pre := expansion_of (hash_leaf <$> take (Z.to_nat n) leaves) in
  match GeneratePrefixProof n pre (drop (Z.to_nat n) leaves) RootFetcherFromExpansion with
  | Ok proof =>
      match MerkleExpansionFromCompact proof n with
      | Ok (_, numRead) => encode_prefix pre (drop (Z.to_nat numRead) proof)
      | _ => []
      end
  | _ => []
  end.

Definition inclusion_of (leaves : list Hash) (idx : Z) : list Hash :=
  match GenerateInclusionProof (seq 0 5) leaves idx with Ok p => p | _ => [] end.

Definition claim (leaves : list Hash) (assertion : Hash) : CreateEdgeArgs := {|
  ArgsLevel := 0; ArgsEndHistoryRoot := root_of leaves 5; ArgsEndHeight := 4; ArgsClaimId := assertion;
  ArgsPrefixProof := prefix_of leaves 1;
  ArgsProof := 11 :: default 0 (leaves !! 4%nat) :: inclusion_of leaves 4 |}.

(** ** The transactions *)

Definition uninitialized : World unit (gmap Address Z) := {|
  settings := {| initialized := false; excessStakeReceiver := 0; stakeToken := 0; stakeAmount := 0;
    challengePeriodBlocks := 0; assertionChain := 0; oneStepProofEntry := 0; LAYERZERO_BLOCKEDGE_HEIGHT := 0;
    LAYERZERO_BIGSTEPEDGE_HEIGHT := 0; LAYERZERO_SMALLSTEPEDGE_HEIGHT := 0; NUM_BIGSTEP_LEVEL := 0 |};
  store := empty_store; rollup := tt; token := <[alice := 30]> (<[bob := 30]> ∅); emitted := [] |}.

Definition w0 : World unit (gmap Address Z) :=
  (EdgeChallengeManager.initialize 9 7 10 4 2 2 6 10 8 1 uninitialized).2.
Definition c : Settings := settings w0.

Definition tx (t : Z * Address * Call) (x : Z * World unit (gmap Address Z)) : Z * World unit (gmap Address Z) :=
  let '(b, sender, call) := t in (b, (transaction (run this b sender call) x.2).2).

Definition valid_tx (t : Z * Address * Call) (x : Z * World unit (gmap Address Z)) : bool :=
  let '(b, sender, call) := t in
  (x.1 <=? b) && (0 <? b) && (b <? two64) && negb (sender =? this) &&
  match call with CreateLayerZeroEdge args => 0 <=? ArgsLevel args | _ => true end.

Lemma tx_steps t x : valid_tx t x = true -> tx_step this x (tx t x).
Proof.
  destruct t as [[b sender] call], x as [b0 w]. unfold valid_tx, tx. cbn [fst snd].
  rewrite !andb_true_iff, negb_true_iff, Z.eqb_neq, !Z.leb_le, !Z.ltb_lt. intros [[[[Hle Hp] Hlt] Hn] Hc].
  destruct (transaction (run this b sender call) w) as [r w'] eqn:E. cbn [snd].
  apply (tx_call _ _ _ _ w sender call r); try (done || lia).
  by destruct call; [apply Z.leb_le in Hc|..].
Qed.

(** Alice and Bob claim the rival assertions and bisect the rival edges. *)
Definition s1 := tx (10, alice, CreateLayerZeroEdge (claim leaves_a 1001)) (0, w0).
Definition s2 := tx (12, bob, CreateLayerZeroEdge (claim leaves_b 1002)) s1.

Definition root_edge (leaves : list Hash) : EdgeId :=
  idComponent 0 500 0 (root_of leaves 1) 4 (root_of leaves 5).
Definition edge_a : EdgeId := root_edge leaves_a.
Definition edge_b : EdgeId := root_edge leaves_b.

Definition s3 := tx (13, alice, BisectEdge edge_a (root_of leaves_a 3) (prefix_of leaves_a 3)) s2.
Definition s4 := tx (14, bob, BisectEdge edge_b (root_of leaves_b 3) (prefix_of leaves_b 3)) s3.

(** Alice's assertion was unrivaled for five blocks and her edge for two. *)
Definition s5 := tx (20, alice, ConfirmEdgeByTime edge_a [] (data 15)) s4.
Definition s6 := tx (21, bob, RefundStake edge_a) s5.

Lemma toy_settings : settings_ok c.
Proof. split; by vm_compute. Qed.

Lemma toy_fits : heights_fit c.
Proof. by vm_compute. Qed.

Lemma toy_run0 : rtc (tx_step this) (0, w0) s3.
Proof.
  apply (rtc_l _ _ s1); [apply tx_steps; by vm_compute|]. apply (rtc_l _ _ s2); [apply tx_steps; by vm_compute|].
  apply rtc_once, tx_steps. by vm_compute.
Qed.

Lemma toy_run1 : rtc (tx_step this) (0, w0) s4.
Proof. etrans; [apply toy_run0|]. apply rtc_once, tx_steps. by vm_compute. Qed.

Lemma toy_run2 : rtc (tx_step this) s4 s5.
Proof. apply rtc_once, tx_steps. by vm_compute. Qed.

Lemma toy_run3 : rtc (tx_step this) (s5.1, s5.2) (s6.1, s6.2).
Proof. rewrite <- !surjective_pairing. apply rtc_once, tx_steps. by vm_compute. Qed.

Lemma toy_reachable x : rtc (tx_step this) (0, w0) x -> reachable this c x.
Proof. intros Hx. by exists 0, w0. Qed.

Lemma toy_half_bisected : reachable this c (s3.1, s3.2).
Proof. rewrite <- surjective_pairing. apply toy_reachable, toy_run0. Qed.

Lemma toy_bisected : reachable this c (s4.1, s4.2).
Proof. rewrite <- surjective_pairing. apply toy_reachable, toy_run1. Qed.

Lemma toy_confirmed : reachable this c (s5.1, s5.2).
Proof. rewrite <- surjective_pairing. apply toy_reachable. etrans; [apply toy_run1|apply toy_run2]. Qed.

(** The edge [edge_a] in a state. *)
Definition a_in (x : Z * World unit (gmap Address Z)) : ChallengeEdge := edge_at (store x.2) edge_a.

(** The creation blocks of the edges with a mutual id. *)
Definition creations (s : EdgeStore) (m : Hash) : gmap EdgeId Z :=
  EdgeCreatedAtBlock <$> filter (fun p => mutualId p.2 = m) (EdgeContract.edges s).

Lemma creations_spec s m j k : creations s m !! j = Some k <->
  exists x, EdgeContract.edges s !! j = Some x /\ mutualId x = m /\ k = EdgeCreatedAtBlock x.
Proof.
  unfold creations. rewrite lookup_fmap, fmap_Some. split.
  - intros (x & [Hx Hm]%map_lookup_filter_Some & ->). eauto.
  - intros (x & Hx & Hm & ->). exists x. split; [|done]. by apply map_lookup_filter_Some.
Qed.

(** What the tree of a validator has recorded about the group of [edge_a], and that edge. *)
Definition tree : HonestChallengeTree := {|
  ChallengeTree.edges := ∅; mutualIds := {[mutualId (a_in s4) := creations (store s4.2) (mutualId (a_in s4))]};
  topLevelAssertionHash := 1001; totalChallengeLevels := 3; honestRootEdgesByLevel := ∅ |}.
Definition edge : Edge := {|
  Protocol.Id := edge_a; GetChallengeLevel := 0; GetReversedChallengeLevel := 2;
  StartCommitment := (0, root_of leaves_a 1); EndCommitment := (4, root_of leaves_a 5);
  Protocol.CreatedAtBlock := Ok 10; Protocol.MutualId := mutualId (a_in s4); OriginId := 500; ClaimId := Some 1001 |}.

End ToyContract.

(** ** The theorems at the example *)

Import ToyContract.
#[local] Existing Instances H decoder machines assertions tokens token_laws.

Lemma contract_invariant_witness : store_inv c s4.1 (store s4.2) /\ size (EdgeContract.edges (store s4.2)) = 5%nat.
Proof.
  split; [|vm_compute; reflexivity].
  exact (@contract_invariant _ toy_nonzero toy_injective _ _ _ _ _ _ this c s4.1 s4.2 toy_settings toy_bisected).
Defined.

Lemma one_winner_witness :
  ContractStatus (a_in s5) = EdgeConfirmed /\
  exists e', EdgeContract.edges (store s6.2) !! edge_a = Some e' /\ ContractStatus e' = EdgeConfirmed /\
    same_data (a_in s5) e'.
Proof.
  split; [vm_compute; reflexivity|].
  destruct (@one_winner _ toy_nonzero toy_injective _ _ _ _ _ _ this c s5.1 s5.2 s6.1 s6.2 edge_a (a_in s5)
    toy_settings toy_confirmed toy_run3) as (e' & H1 & H2 & H3 & _); [vm_compute; reflexivity..|].
  exists e'. exact (conj H1 (conj H2 H3)).
Defined.

Lemma getPrevAssertionHash_total_witness :
  exists h, EdgeChallengeManager.getPrevAssertionHash s4.2 edge_a = Ok h /\ h = EdgeOriginId (a_in s4).
Proof.
  assert (Ha : EdgeContract.edges (store s4.2) !! edge_a = Some (a_in s4)) by (vm_compute; reflexivity).
  destruct (@getPrevAssertionHash_total _ toy_nonzero toy_injective _ _ _ _ _ _ this c s4.1 s4.2 edge_a (a_in s4)
    toy_settings toy_bisected Ha) as (h & Eh & E0 & _).
  exists h. split; [exact Eh|]. apply E0. vm_compute. reflexivity.
Defined.

Lemma stakes_covered_witness : covered this c s4.2 /\ size (unpaid (store s4.2)) = 1%nat.
Proof.
  split; [|vm_compute; reflexivity].
  apply (@stakes_covered _ toy_nonzero toy_injective _ _ _ _ _ _ this _ c s4.1 s4.2 toy_settings);
    [vm_compute; reflexivity|vm_compute; discriminate|exact toy_bisected].
Defined.

Lemma winner_is_refunded_witness :
  exists w', EdgeChallengeManager.refundStake edge_a s5.2 = (Ok tt, w') /\
    EdgeContract.edges (store w') !! edge_a = Some (with_refund (a_in s5)).
Proof.
  destruct (@winner_is_refunded _ toy_nonzero toy_injective _ _ _ _ _ _ this _ c s5.1 s5.2 edge_a (a_in s5)
    toy_settings) as (w' & E & Hw & _);
    [vm_compute; discriminate|exact toy_confirmed|vm_compute; reflexivity..|].
  exists w'. exact (conj E Hw).
Defined.

Lemma bisection_heights_agree_witness : mandatoryBisectionHeight 5 13 = Ok 8 <-> Bisect 5 13 = Ok 8.
Proof. apply (bisection_heights_agree 5 13 8); done. Defined.

Lemma edges_commit_prefix_witness : dyadic 0 4 /\ commits_prefix (root_of leaves_a 1) 0 (root_of leaves_a 5) 4.
Proof.
  apply (@edges_commit_prefix _ toy_nonzero toy_injective _ _ _ _ _ _ this c toy_settings toy_fits s4.1 s4.2 edge_a (a_in s4)
    toy_bisected). vm_compute. reflexivity.
Defined.

(** Bob's edge after Alice has bisected hers. *)
Lemma honest_bisection_succeeds_witness :
  exists ids w', EdgeChallengeManager.bisectEdge s3.1 edge_b (root_of leaves_b 3) (prefix_of leaves_b 3) s3.2 = (Ok ids, w').
Proof.
  destruct (@honest_bisection_succeeds _ toy_nonzero toy_injective _ _ _ _ _ _ this c toy_settings toy_fits s3.1 s3.2
    edge_b (edge_at (store s3.2) edge_b) leaves_b toy_half_bisected) as (mid & proof & numRead & Em & Eg & Er & Hb);
    [vm_compute; try done..|].
  - vm_compute in Em. injection Em as <-. vm_compute in Eg. injection Eg as <-. vm_compute in Er. injection Er as <-.
    apply Hb; vm_compute; reflexivity.
Defined.

Lemma timers_agree_witness :
  (localTimer edge s4.1 tree).1 = EdgeChallengeManager.timeUnrivaled s4.1 s4.2 edge_a /\
  (localTimer edge s4.1 tree).1 = Ok 2.
Proof.
  split; [|vm_compute; reflexivity].
  apply (@timers_agree _ toy_nonzero toy_injective _ _ _ _ _ _ this c s4.1 s4.2 edge_a (a_in s4) edge tree
    toy_settings toy_bisected); [vm_compute; done..|].
  intros j k. unfold mutuals_of, tree. cbn [mutualIds]. rewrite lookup_singleton_eq. cbn [default]. apply creations_spec.
Defined.
