(* ===== verification/RollupToy.v ===== *)
(** * A rollup with a challenge, executed

    Two validators stake on rival assertions, claim them in the challenge manager, one of the edges is
    confirmed and with it its assertion: the rollup and the challenge manager evaluated together.  The runs show
    that the hypotheses of the theorems about the rollup can hold. *)

From S2P Require Import Prelude Bits PrefixProofs MerkleSpec PrefixComplete PrefixSound Containers InclusionProofs History Protocol Provider ChallengeTree ChallengeTreeSpec Contracts MerkleContract CommitChain EdgeContract Rollup RollupSpec RollupStakes EdgeContractSpec EdgeContractHistory EdgeContractReplay RollupSystem EdgeContractToy.
Import ChallengeEdgeLib EdgeChallengeManagerLib EdgeContract.
Import EdgeChallengeManager (Call, CreateLayerZeroEdge, ConfirmEdgeByTime, run, transaction).

Module ToyRollup.
Import ToyContract (alice, bob, this, move, tokens, claim, leaves_a, leaves_b, root_of).
#[local] Instance H : Hasher := toy_keccak.
#[local] Existing Instances toy_nonzero toy_injective tokens.

Definition rollup_address : Address := 9.
#[local] Instance rollup_token : RollupToken (gmap Address Z) := {|
  receiveTokens t from n := move t from rollup_address n;
  sendTokens t to n := move t rollup_address to n;
|}.

(** A state by its block hash and its inbox position. *)
Definition state (blockHash pos : Z) : SolExecutionState :=
  {| SolGlobal := {| Bytes32Vals := (blockHash, 0); U64Vals := (pos, 0) |}; SolMachineStatus := MachineStatusFinished |}.
Definition genesis : SolExecutionState := state 11 0.

Definition env (b : Z) (sender : Address) (accs : list Hash) : Env :=
  {| blockNumber := b; msgSender := sender; sequencerInboxAccs := accs |}.

Definition setup : RollupParams := {|
  confirmPeriodBlocks := 20; baseStake := 10; wasmModuleRoot := 44; Rollup.challengeManager := this;
  challengeGracePeriodBlocks := 5; bridgeAddress := 77; loserStakeEscrow := 8; minimumAssertionPeriod := 0; isValidator := ∅;
  rollupDeploymentBlock := 0; validatorWhitelistDisabled := false; anyTrustFastConfirmer := 0; paused := false |}.

Definition or_else {A} (d : A) (x : res A) : A := match x with Ok a => a | _ => d end.
Definition blank : Rollup := {| params := setup; latestConfirmed := 0; Rollup.assertions := ∅; stakerList := []; stakerMap := ∅;
  withdrawableFunds := ∅; totalWithdrawableFunds := 0; sendRoots := ∅; rollupEvents := [] |}.
Definition r0 : Rollup := or_else blank (initialize (env 1 90 []) 90 91 412346 setup genesis 0).
Definition genesis_hash : Hash := Rollup.assertionHash 0 genesis 0.

(** The configuration of the first assertion. *)
Definition cfg : ConfigData := {| CfgWasmModuleRoot := 44; CfgRequiredStake := 10; CfgChallengeManager := this;
  CfgConfirmPeriodBlocks := 20; NextInboxPosition := 1 |}.
Definition inputs (blockHash : Z) : AssertionInputs := {|
  InputsBeforeStateData := {| PrevPrevAssertionHash := 0; SequencerBatchAcc := 0; BeforeConfigData := cfg |};
  InputsBeforeState := genesis; InputsAfterState := state blockHash 1 |}.
Definition assertion_a : Hash := Rollup.assertionHash genesis_hash (state 15 1) 70.
Definition assertion_b : Hash := Rollup.assertionHash genesis_hash (state 25 1) 70.

Definition no_manager (a : Address) (i : EdgeId) : res ChallengeEdge := revert "no contract".

Definition R := (Rollup * gmap Address Z)%type.
Definition user (b : Z) (sender : Address) (call : UserCall) (x : R) : res R :=
  run_user (env b sender [70]) no_manager call x.1 x.2.

Definition x0 : R := (r0, <[alice := 30]> (<[bob := 30]> ∅)).
Definition x1 : R := (or_else r0 (run_admin (env 2 91 []) 90 (SetValidator [alice; bob] [true; true]) r0), x0.2).
Definition x2 : R := or_else x1 (user 80 alice (NewStakeOnNewAssertion 10 (inputs 15) 0) x1).
Definition x3 : R := or_else x2 (user 85 bob (NewStakeOnNewAssertion 10 (inputs 25) 0) x2).

Lemma or_else_ok {A} (d : A) (x : res A) : match x with Ok _ => true | _ => false end = true -> x = Ok (or_else d x).
Proof. by destruct x. Qed.

Lemma start0 : rollup_start x0.1.
Proof. exists (env 1 90 []), 90, 91, 412346, setup, genesis, 0. split; [done|]. apply or_else_ok. vm_compute. reflexivity. Qed.

(** A transaction of a validator that succeeds. *)
Lemma user_step b sender call x : 0 < b < two64 -> fair_user call = true ->
  match user b sender call x with Ok _ => true | _ => false end = true -> rollup_tx true x (or_else x (user b sender call x)).
Proof.
  intros Hb Hf Hok. apply (tx_user _ _ _ (env b sender [70]) no_manager call); [done|done|]. by apply or_else_ok.
Qed.

Lemma toy_run : rtc (rollup_tx true) x0 x3.
Proof.
  apply (rtc_l _ _ x1). { apply (tx_admin _ _ _ (env 2 91 []) 90 (SetValidator [alice; bob] [true; true])); [done|done| |done]. apply or_else_ok. vm_compute. reflexivity. }
  apply (rtc_l _ _ x2); [|apply rtc_once]; (apply user_step; [done|done|vm_compute; reflexivity]).
Qed.

(** ** The challenge manager *)

Definition data (blockHash : Z) : ExecutionStateData :=
  if blockHash =? 11 then {| DataExecutionState := genesis; DataPrevAssertionHash := 0; DataInboxAcc := 0 |}
  else {| DataExecutionState := state blockHash 1; DataPrevAssertionHash := genesis_hash; DataInboxAcc := 70 |}.

#[local] Instance decoder : AbiDecode := {|
  decodePrefixProof := @decodePrefixProof ToyContract.decoder;
  decodeBlockProof ws :=
    match ws with
    | s :: e :: rest => Ok (rest, data s, data e)
    | _ => revert "decode"
    end;
  decodeSubchallengeProof _ := revert "decode";
|}.

(** The hash of a machine is the block hash of its state. *)
#[local] Instance machines : IOneStepProofEntry := {|
  getMachineHash s := Ok (Bytes32Vals (SolGlobal s)).1;
  proveOneStep _ _ before _ := Ok (before + 1);
|}.

#[local] Instance machines_law : MachineHashLaw.
Proof.
  intros s s' [_ E]%(execution_hash_parts (H := toy_keccak)). apply (global_hash_block (H := toy_keccak)) in E.
  cbn in E. cbn. by rewrite E.
Qed.

Lemma inv3 : rollup_inv x3.1.
Proof. apply (txs_inv _ _ _ toy_run), start_inv, start0. Qed.

Definition chain : RollupChain := exist _ x3.1 inv3.

Abbreviation later := (chain_later (S := gmap Address Z)).
Definition W := World RollupChain (gmap Address Z).
Definition c : Settings := ToyContract.c.
Definition w0 : W := {| settings := c; store := empty_store; rollup := chain; token := <[alice := 30]> (<[bob := 30]> ∅); emitted := [] |}.

Definition tx (b : Z) (sender : Address) (call : Call) (x : Z * W) : Z * W := (b, (transaction (run this b sender call) x.2).2).

Definition valid (b : Z) (sender : Address) (call : Call) (x : Z * W) : bool :=
  (x.1 <=? b) && (0 <? b) && (b <? two64) && negb (sender =? this) &&
  match call with CreateLayerZeroEdge args => 0 <=? ArgsLevel args | _ => true end.

Definition edge_a : EdgeId := idComponent 0 genesis_hash 0 (root_of leaves_a 1) 4 (root_of leaves_a 5).
Definition y1 : Z * W := tx 88 alice (CreateLayerZeroEdge (claim leaves_a assertion_a)) (0, w0).
Definition y2 : Z * W := tx 92 bob (CreateLayerZeroEdge (claim leaves_b assertion_b)) y1.
Definition y3 : Z * W := tx 95 alice (ConfirmEdgeByTime edge_a [] (data 15)) y2.
Definition won_a : ChallengeEdge := edge_at (store y3.2) edge_a.

Lemma tx_lawful b sender call x : valid b sender call x = true -> lawful this later c x ->
  lawful this later c (tx b sender call x) /\ rollup (tx b sender call x).2 = rollup x.2.
Proof.
  destruct x as [b0 w]. unfold valid, tx. cbn [fst snd].
  rewrite !andb_true_iff, negb_true_iff, Z.eqb_neq, !Z.leb_le, !Z.ltb_lt. intros [[[[Hle Hp] Hlt] Hn] Hc] Hl.
  assert (Hok : call_ok call) by (by destruct call; [apply Z.leb_le in Hc|..]). clear Hc.
  destruct (reachable_inv this _ _ _ ToyContract.toy_settings (lawful_reachable this later c _ Hl)) as [Es Hinv].
  assert (Er : rollup (transaction (run this b sender call) w).2 = rollup w).
  { unfold transaction. destruct (run this b sender call w) as [[[]| | |] w2] eqn:Er; try done. cbn [snd].
    rewrite <- Es in Hinv. assert (Hcw : settings_ok (settings w)) by (rewrite Es; apply ToyContract.toy_settings).
    by destruct (run_effect this b sender w Hcw (conj Hp Hlt) (inv_later _ _ _ _ Hle Hinv) call w2 Hok Er) as [(_ & -> & _) _]. }
  split; [|done]. apply (lawful_grows this later c _ _ Hl). apply rtc_once. split; cbn [snd]; [|rewrite Er; apply rtc_refl].
  destruct (transaction (run this b sender call) w) as [r w'] eqn:E. apply (tx_call _ _ _ _ w sender call r); done || lia.
Qed.

Lemma lawful0 : lawful this later c (0, w0).
Proof. exists 0, w0. split; [done|]. split; [done|]. apply rtc_refl. Qed.

Lemma lawful1 : lawful this later c y1 /\ rollup y1.2 = chain.
Proof. apply (tx_lawful 88 alice); [vm_compute; reflexivity|exact lawful0]. Qed.
Lemma lawful2 : lawful this later c y2 /\ rollup y2.2 = chain.
Proof. rewrite <- (proj2 lawful1). apply (tx_lawful 92 bob); [vm_compute; reflexivity|apply lawful1]. Qed.
Lemma lawful3 : lawful this later c y3 /\ rollup y3.2 = chain.
Proof. rewrite <- (proj2 lawful2). apply (tx_lawful 95 alice); [vm_compute; reflexivity|apply lawful2]. Qed.

(** Alice confirms her assertion with the edge that won. *)
Definition x4 : R := or_else x3 (run_user (env 200 alice [70]) (managers this y3.2 no_manager)
  (ConfirmAssertion assertion_a genesis_hash (state 15 1) edge_a cfg 70) x3.1 x3.2).

Lemma toy_confirm : rtc (rollup_tx true) x3 x4.
Proof.
  apply rtc_once. apply (tx_user _ _ _ (env 200 alice [70]) (managers this y3.2 no_manager)
    (ConfirmAssertion assertion_a genesis_hash (state 15 1) edge_a cfg 70)); [done|done|]. apply or_else_ok. vm_compute. reflexivity.
Qed.

(** ** Stakes *)

(** The balance of the rollup in a token. *)
Definition balance (t : Z) : Z := Z.max 0 (Z.min t (2 ^ 256 - 1)).
#[local] Instance vault : RollupToken Z := {|
  receiveTokens t _ n := if (0 <=? n) && (balance t + n <? 2 ^ 256) then Ok (balance t + n) else revert "ERC20: overflow";
  sendTokens t _ n := if (0 <=? n) && (n <=? balance t) then Ok (balance t - n) else revert "ERC20: transfer amount exceeds balance";
|}.

#[local] Instance vault_laws : RollupTokenLaws rollup_address balance.
Proof.
  split; cbn; unfold balance.
  - intros t. lia.
  - intros t t' _ n _. destruct (Z.leb_spec 0 n), (Z.ltb_spec (Z.max 0 (Z.min t (2 ^ 256 - 1)) + n) (2 ^ 256)); try done. intros [= <-]. lia.
  - intros t t' _ n. destruct (Z.leb_spec 0 n), (Z.leb_spec n (Z.max 0 (Z.min t (2 ^ 256 - 1)))); try done. intros [= <-]. lia.
  - intros t _ n Hn. destruct (Z.leb_spec 0 n), (Z.leb_spec n (Z.max 0 (Z.min t (2 ^ 256 - 1)))); try lia. by eexists.
Qed.

Definition stakes_a : UserCall := NewStakeOnNewAssertion 10 (inputs 15) 0.
Definition stakes_b : UserCall := NewStakeOnNewAssertion 10 (inputs 25) 0.
Definition z0 : Rollup * Z := (r0, 0).
Definition z1 : Rollup * Z := (x1.1, 0).
Definition z2 : Rollup * Z := or_else z1 (run_user (env 80 alice [70]) no_manager stakes_a z1.1 z1.2).
Definition z3 : Rollup * Z := or_else z2 (run_user (env 85 bob [70]) no_manager stakes_b z2.1 z2.2).

Lemma toy_paid : rtc (paid_tx rollup_address balance) z0 z3.
Proof.
  apply (rtc_l _ _ z1).
  { apply (paid_by_admin _ _ _ _ (env 2 91 []) 90 (SetValidator [alice; bob] [true; true])); [done| |done]. apply or_else_ok. vm_compute. reflexivity. }
  apply (rtc_l _ _ z2); [|apply rtc_once].
  - apply (paid_by_user _ _ _ _ (env 80 alice [70]) no_manager stakes_a); [done|done|done|]. apply or_else_ok. vm_compute. reflexivity.
  - apply (paid_by_user _ _ _ _ (env 85 bob [70]) no_manager stakes_b); [done|done|done|]. apply or_else_ok. vm_compute. reflexivity.
Qed.

End ToyRollup.

(** ** The theorems at the example *)

Import ToyRollup.
#[local] Existing Instances H rollup_token decoder machines machines_law vault vault_laws.

Lemma confirmed_assertions_are_chain_witness :
  exists l l', confirmed_chain x3.1 l /\ confirmed_chain x4.1 l' /\ l `prefix_of` l' /\ latestConfirmed x4.1 = assertion_a.
Proof.
  destruct (@confirmed_assertions_are_chain _ toy_nonzero toy_injective _ _ x0 x3 x4 start0 toy_run toy_confirm) as (l & l' & Hl & Hl' & Hp & _).
  exists l, l'. split_and!; [exact Hl|exact Hl'|exact Hp|vm_compute; reflexivity].
Defined.

Lemma rollup_keeps_promises_witness : AssertionLaws (chain_later (S := gmap Address Z)).
Proof. exact (@rollup_keeps_promises _ toy_nonzero toy_injective (gmap Address Z) _). Defined.

(** Bob's assertion is refused, whatever he presents; Alice's is confirmed. *)
Lemma challenge_decides_assertion_witness :
  (forall st edge acc r', confirmAssertion (env 200 2 [70]) (managers 100 y3.2 no_manager) assertion_b genesis_hash st edge cfg acc x3.1 <> Ok r') /\
  exists st acc r', confirmAssertion (env 200 1 [70]) (managers 100 y3.2 no_manager) assertion_a genesis_hash st edge_a cfg acc x3.1 = Ok r'.
Proof.
  destruct (@challenge_decides_assertion H toy_nonzero toy_injective _ _ _ (gmap Address Z) _ _ _ 100 c ToyContract.toy_settings
    y3 edge_a won_a cfg no_manager (proj1 lawful3)) as [Hno Hyes]; [vm_compute; try reflexivity; try discriminate..|]; [split; vm_compute; [discriminate|reflexivity]|].
  assert (Eo : EdgeOriginId won_a = genesis_hash) by (vm_compute; reflexivity).
  assert (Ea : EdgeClaimId won_a = assertion_a) by (vm_compute; reflexivity).
  assert (Er : proj1_sig (rollup y3.2) = x3.1) by (rewrite (proj2 lawful3); reflexivity).
  rewrite <- Eo, <- Ea, <- Er. split.
  - intros st edge acc r'. apply (Hno (env 200 2 [70])); [rewrite Ea; vm_compute; discriminate|split; vm_compute; [discriminate|reflexivity]].
  - destruct (Hyes (env 200 1 [70])) as (st & acc & r' & E & _); [vm_compute; reflexivity..| | | |exists st, acc, r'; exact E];
      (split; vm_compute; [discriminate|reflexivity || discriminate]).
Defined.

(** Bob's stake is promised to the escrow, which can withdraw it. *)
Lemma rollup_pays_witness : totalWithdrawableFunds z3.1 = 10 /\
  exists r t, run_user (env 90 8 [70]) no_manager WithdrawStakerFunds z3.1 z3.2 = Ok (r, t) /\ funds_at r 8 = 0.
Proof.
  destruct (@rollup_pays H toy_nonzero toy_injective Z vault rollup_address balance vault_laws 10 ltac:(lia) z0 z3 start0 eq_refl toy_paid)
    as (_ & _ & Hw).
  split; [vm_compute; reflexivity|].
  destruct (Hw (env 90 8 [70]) no_manager) as (r & t & E & E0 & _); [vm_compute; reflexivity..|]. exists r, t. exact (conj E E0).
Defined.
