(* ===== verification/SolImpl.v ===== *)
(** * The contract wrapper

    [chain-abstraction/sol-implementation]: the protocol interfaces implemented on
    the contract bindings.  Apart from the cache of completed challenges the
    wrapper has no state of its own. *)

From stdpp Require Import sorting.
From S2P Require Import Prelude Bits PrefixProofs Containers InclusionProofs History Protocol Chain Runtime Contracts.

Definition ErrNotFound : error := Sentinel "solimpl.ErrNotFound".
Definition ErrAlreadyExists : error := Sentinel "solimpl.ErrAlreadyExists".
Definition ErrPrevDoesNotExist : error := Sentinel "solimpl.ErrPrevDoesNotExist".
Definition ErrTooLate : error := Sentinel "solimpl.ErrTooLate".

(** [protocol.AssertionStatus(res.Status)] on the values of the contract. *)
Definition status_of (n : Z) : AssertionStatus :=
  if n =? 0 then NoAssertion else if n =? 1 then AssertionPending else AssertionConfirmed.

Record specEdge := {
  id : EdgeId;
  mutualId : Hash;
  miniStaker : option Address;
  inner : ChallengeEdge;
  startHeight : Z;
  endHeight : Z;
  total : Z;
}.

(** The order of the logs: by block number, then by log index. *)
Definition log_le (l1 l2 : Log) : Prop :=
  BlockNumber l1 < BlockNumber l2 \/ BlockNumber l1 = BlockNumber l2 /\ LogIndex l1 <= LogIndex l2.
#[global] Instance log_le_dec : RelDecision log_le.
Proof. intros l1 l2. unfold log_le. apply _. Defined.

Section sol.
Context {W : Type} `{Contracts W} `{Runtime.Context W}.

(** ** Transactions *)

(** The transaction is built and its gas estimated before it is sent; the receipt of
    a failed one is returned when the replay of the call does not fail. *)
Definition transact (tx : Tx) : M W Receipt :=
  wrapM "test execution of tx errored before sending payable tx" (BuildTx tx) ;;
  gas ← wrapM "gas estimation errored for tx with hash %s" (EstimateGas tx);
  SendTx tx gas ;;
  modify Commit ;;
  receipt ← WaitMined tx;
  (if negb (ReceiptStatus receipt =? ReceiptStatusSuccessful)
   then wrapM "transaction errored" (CallContract tx)
   else mret tt) ;;
  mret receipt.

(** ** Assertions *)

(** [AssertionChain.GetAssertion]: the assertion is its id. *)
Definition GetAssertion (assertionHash : AssertionHash) : M W AssertionHash :=
  node ← RollupGetAssertion assertionHash;
  if bool_decide (status_of (NodeStatus node) = NoAssertion)
  then fail (ErrWrap ErrNotFound "assertion with id %#x")
  else mret assertionHash.

Definition GetAssertionStatus (assertionHash : AssertionHash) : M W AssertionStatus :=
  node ← RollupGetAssertion assertionHash;
  mret (status_of (NodeStatus node)).

Definition LatestConfirmed : M W AssertionHash :=
  h ← RollupLatestConfirmed; GetAssertion h.

Definition IsStaked : M W bool := RollupIsStaked.
Definition GenesisAssertionHash : M W Hash := RollupGenesisAssertionHash.

(** [Assertion.inner]. *)
Definition assertion_inner (assertionId : AssertionHash) : M W AssertionNode :=
  node ← RollupGetAssertion assertionId;
  if NodeStatus node =? 0 then fail (ErrWrap ErrNotFound "assertion with id %#x") else mret node.

(** [Assertion.CreatedAtBlock]. *)
Definition AssertionCreatedAtBlock (assertionId : AssertionHash) : M W Z :=
  node ← assertion_inner assertionId; mret (NodeCreatedAtBlock node).

Definition HasSecondChild (assertionId : AssertionHash) : M W bool :=
  node ← assertion_inner assertionId; mret (0 <? SecondChildBlock node).

(** [Assertion.PrevId]: the last of the creation events from the creation block on. *)
Definition PrevId (assertionId : AssertionHash) : M W AssertionHash :=
  createdAtBlock ← AssertionCreatedAtBlock assertionId;
  logs ← FilterLogs {| FromBlock := createdAtBlock; ToBlock := None; QueryTopics := [[assertionCreatedId]] |};
  match list.last logs with
  | None => fail (ErrNew "no assertion creation events found")
  | Some l =>
      creationEvent ← lift (ParseAssertionCreated l);
      mret (EventParentAssertionHash creationEvent)
  end.

Definition creation_info (ethLog : Log) (parsedLog : AssertionCreatedEvent) : AssertionCreatedInfo := {|
  ConfirmPeriodBlocks := EventConfirmPeriodBlocks parsedLog;
  RequiredStake := EventRequiredStake parsedLog;
  ParentAssertionHash := EventParentAssertionHash parsedLog;
  BeforeState := InputsBeforeState (EventAssertion parsedLog);
  AfterState := InputsAfterState (EventAssertion parsedLog);
  InboxMaxCount := EventInboxMaxCount parsedLog;
  AfterInboxBatchAcc := EventAfterInboxBatchAcc parsedLog;
  InfoAssertionHash := EventAssertionHash parsedLog;
  WasmModuleRoot := EventWasmModuleRoot parsedLog;
  InfoChallengeManager := EventChallengeManager parsedLog;
  TransactionHash := LogTxHash ethLog;
  CreationBlock := BlockNumber ethLog;
|}.

Definition ReadAssertionCreationInfo (assertionId : AssertionHash) : M W AssertionCreatedInfo :=
  '(creationBlock, topics) ←
    (if assertionId =? zero_hash then
       rollupDeploymentBlock ← RollupDeploymentBlock;
       if negb (IsUint64 rollupDeploymentBlock)
       then fail (ErrNew "rollup deployment block was not a uint64")
       else mret (rollupDeploymentBlock, [[assertionCreatedId]])
     else
       node ← RollupGetAssertion assertionId;
       mret (NodeCreatedAtBlock node, [[assertionCreatedId]; [assertionId]]));
  logs ← FilterLogs {| FromBlock := creationBlock; ToBlock := Some creationBlock; QueryTopics := topics |};
  match logs with
  | [] => fail (ErrNew "no assertion creation logs found")
  | [ethLog] =>
      parsedLog ← lift (ParseAssertionCreated ethLog);
      mret (creation_info ethLog parsedLog)
  | _ => fail (ErrNew "found multiple instances of requested node")
  end.

(** The events since the latest confirmed assertion. *)
Definition creation_logs : M W (list Log) :=
  latestConfirmed ← LatestConfirmed;
  createdAtBlock ← AssertionCreatedAtBlock latestConfirmed;
  FilterLogs {| FromBlock := createdAtBlock; ToBlock := None; QueryTopics := [[assertionCreatedId]] |}.

(** The scan for the latest log: block number, log index and log of the latest. *)
Definition latest_step (acc : Z * Z * option Log) (l : Log) : Z * Z * option Log :=
  let '(latestBlockNumber, latestLogIndex, _) := acc in
  if Removed l then acc
  else if (latestBlockNumber <? BlockNumber l)
          || ((BlockNumber l =? latestBlockNumber) && (latestLogIndex <=? LogIndex l))
  then (BlockNumber l, LogIndex l, Some l)
  else acc.

Definition LatestCreatedAssertion : M W AssertionHash :=
  logs ← creation_logs;
  let '(_, _, latestLog) := fold_left latest_step logs (0, 0, None) in
  match latestLog with
  | None => fail (ErrNew "no assertion creation events found")
  | Some l =>
      creationEvent ← lift (ParseAssertionCreated l);
      GetAssertion (EventAssertionHash creationEvent)
  end.

(** [sort.Slice] with that order; logs with the same keys do not occur, as a log
    index is unique in its block. *)
Definition LatestCreatedAssertionHashes : M W (list AssertionHash) :=
  logs ← creation_logs;
  mret (omap (fun l => if bool_decide (length (Topics l) < 2)%nat then None
                       else if Removed l then None
                       else Topics l !! 1%nat) (merge_sort log_le logs)).

Definition AssertionUnrivaledBlocks (assertionHash : AssertionHash) : M W Z :=
  wantNode ← RollupGetAssertion assertionHash;
  if NodeStatus wantNode =? 0 then fail (ErrWrap ErrNotFound "assertion with id %#x")
  else if negb (IsFirstChild wantNode) then mret 0
  else
    prevId ← PrevId assertionHash;
    prevNode ← RollupGetAssertion prevId;
    if NodeStatus prevNode =? 0 then fail (ErrWrap ErrNotFound "assertion with id %#x")
    else if SecondChildBlock prevNode =? 0 then
      num ← BackendHeaderByNumber;
      if negb (IsUint64 num) then fail (ErrNew "latest header number is not a uint64")
      else if num <? NodeCreatedAtBlock wantNode
      then fail (ErrNew "assertion creation block %d > latest block number %d for assertion hash %#x")
      else mret (u64 (num - NodeCreatedAtBlock wantNode))
    else if SecondChildBlock prevNode <? FirstChildBlock prevNode
    then fail (ErrNew "first child creation block %d > second child creation block %d for assertion hash %#x")
    else mret (u64 (SecondChildBlock prevNode - FirstChildBlock prevNode)).

(** ** Creating and confirming assertions *)

(** [handleCreateAssertionError] on a non-nil error. *)
Definition handleCreateAssertionError (err : error) : error :=
  let errS := ErrorText err in
  if Contains errS "EXPECTED_ASSERTION_SEEN" then ErrWrap ErrAlreadyExists "commit block hash %#x"
  else if Contains errS "already known" then ErrWrap ErrAlreadyExists "commit block hash %#x"
  else if Contains errS "Assertion already exists" then ErrWrap ErrAlreadyExists "commit block hash %#x"
  else if Contains errS "Assertion does not exist" then ErrPrevDoesNotExist
  else if Contains errS "Too late to create sibling" then ErrTooLate
  else err.

Definition config_data (info : AssertionCreatedInfo) : ConfigData := {|
  CfgWasmModuleRoot := WasmModuleRoot info;
  CfgRequiredStake := RequiredStake info;
  CfgChallengeManager := InfoChallengeManager info;
  CfgConfirmPeriodBlocks := ConfirmPeriodBlocks info;
  NextInboxPosition := u64 (InboxMaxCount info);
|}.

(** The first log an event can be parsed from. *)
Fixpoint first_event {A} (parse : Log -> res A) (logs : list Log) : option A :=
  match logs with
  | [] => None
  | l :: logs' => match parse l with Ok a => Some a | _ => first_event parse logs' end
  end.

Definition createAndStakeOnAssertion (parent : AssertionCreatedInfo) (postState : ExecutionState)
    (stakeFn : AssertionInputs -> Hash -> Tx) : M W AssertionHash :=
  if negb (IsUint64 (InboxMaxCount parent))
  then fail (ErrNew "prev assertion creation info inbox max count not a uint64")
  else if Batch (GlobalState postState) =? 0
  then fail (ErrNew "assertion post state cannot have a batch count of 0, as only genesis can")
  else
    bridgeAddr ← wrapM "could not retrieve bridge address for user rollup logic contract" RollupBridge;
    wrapM "could not initialize bridge at address %#x" (NewIBridgeCaller bridgeAddr) ;;
    inboxBatchAcc ← wrapM "could not get sequencer inbox accummulator at batch %d"
      (SequencerInboxAccs bridgeAddr (u64 (Batch (GlobalState postState) - 1)));
    computedHash ← wrapM "could not compute assertion hash"
      (ComputeAssertionHash (InfoAssertionHash parent) (AsSolidityStruct postState) inboxBatchAcc);
    existingAssertion ← attempt (GetAssertion computedHash);
    match existingAssertion with
    | inl a => mret a
    | inr err =>
        if negb (errors_is err ErrNotFound)
        then fail (ErrWrap err "could not fetch assertion with computed hash %#x")
        else
          receipt ← attempt (transact (stakeFn {|
            InputsBeforeStateData := {|
              PrevPrevAssertionHash := ParentAssertionHash parent;
              SequencerBatchAcc := AfterInboxBatchAcc parent;
              BeforeConfigData := config_data parent |};
            InputsBeforeState := AfterState parent;
            InputsAfterState := AsSolidityStruct postState |} computedHash));
          match receipt with
          | inr err => fail (ErrWrap (handleCreateAssertionError err) "could not create assertion")
          | inl receipt =>
              if len (ReceiptLogs receipt) =? 0 then fail (ErrNew "no logs observed from assertion creation")
              else
                match first_event ParseAssertionCreated (ReceiptLogs receipt) with
                | None => fail (ErrNew "could not find assertion created event in logs")
                | Some assertionCreated => GetAssertion (EventAssertionHash assertionCreated)
                end
          end
    end.

Definition NewStakeOnNewAssertion (parent : AssertionCreatedInfo) (postState : ExecutionState)
    : M W AssertionHash :=
  createAndStakeOnAssertion parent postState (TxNewStakeOnNewAssertion (RequiredStake parent)).
Definition StakeOnNewAssertion (parent : AssertionCreatedInfo) (postState : ExecutionState)
    : M W AssertionHash :=
  createAndStakeOnAssertion parent postState TxStakeOnNewAssertion.

Definition ConfirmAssertionByChallengeWinner (assertionHash : AssertionHash) (winningEdgeId : EdgeId)
    : M W unit :=
  node ← RollupGetAssertion assertionHash;
  if bool_decide (status_of (NodeStatus node) = AssertionConfirmed) then mret tt
  else
    creationInfo ← ReadAssertionCreationInfo assertionHash;
    if ParentAssertionHash creationInfo =? zero_hash then mret tt
    else
      prevCreationInfo ← ReadAssertionCreationInfo (ParentAssertionHash creationInfo);
      latestConfirmed ← LatestConfirmed;
      if negb (ParentAssertionHash creationInfo =? latestConfirmed)
      then fail (ErrNew "parent id %#x is not the latest confirmed assertion %#x")
      else if negb (IsUint64 (InboxMaxCount prevCreationInfo))
      then fail (ErrNew "assertion prev creation info inbox max count was not a uint64")
      else
        receipt ← transact (TxConfirmAssertion assertionHash (ParentAssertionHash creationInfo)
          (AfterState creationInfo) winningEdgeId (config_data prevCreationInfo)
          (AfterInboxBatchAcc creationInfo));
        if len (ReceiptLogs receipt) =? 0
        then fail (ErrNew "no logs observed from assertion confirmation")
        else mret tt.

Definition ConfirmAssertionByTime (assertionHash : AssertionHash) : M W unit :=
  ConfirmAssertionByChallengeWinner assertionHash zero_hash.

(** ** The challenge manager *)

Definition SpecChallengeManager : M W unit :=
  challengeManagerAddr ← RollupChallengeManager; NewEdgeChallengeManager challengeManagerAddr.

Definition GetLayerZeroHeights : M W LayerZeroHeights :=
  h ← LAYERZEROBLOCKEDGEHEIGHT;
  if negb (IsUint64 h) then fail (ErrNew "layer zero block edge height was not a uint64")
  else
    bs ← LAYERZEROBIGSTEPEDGEHEIGHT;
    if negb (IsUint64 bs) then fail (ErrNew "layer zero big step edge height was not a uint64")
    else
      ss ← LAYERZEROSMALLSTEPEDGEHEIGHT;
      if negb (IsUint64 ss) then fail (ErrNew "layer zero small step height was not a uint64")
      else mret {| BlockChallengeHeight := h; BigStepChallengeHeight := bs; SmallStepChallengeHeight := ss |}.

Definition NumBigSteps : M W Z := n ← NUMBIGSTEPLEVEL; mret (u8 n).

Definition LevelZeroBlockEdgeHeight : M W Z :=
  h ← LAYERZEROBLOCKEDGEHEIGHT;
  if negb (IsUint64 h) then fail (ErrNew "level zero block edge height was not a uint64") else mret h.

Definition ChallengePeriodBlocks : M W Z := CallChallengePeriodBlocks.

(** [specChallengeManager.GetEdge]: an edge that does not exist is an error of the
    contract call, so that the option is never empty. *)
Definition GetEdge (edgeId : EdgeId) : M W (option specEdge) :=
  edge ← CallGetEdge edgeId;
  let miniStaker := if Staker edge =? 0 then None else Some (Staker edge) in
  mutual ← CallCalculateMutualId (EdgeLevel edge) (EdgeOriginId edge) (StartHeight edge)
    (StartHistoryRoot edge) (EndHeight edge);
  if negb (IsUint64 (StartHeight edge)) then fail (ErrNew "start height not a uint64")
  else if negb (IsUint64 (EndHeight edge)) then fail (ErrNew "end height not a uint64")
  else
    numbigsteplevel ← NUMBIGSTEPLEVEL;
    mret (Some {| id := edgeId; mutualId := mutual; miniStaker := miniStaker; inner := edge;
                  startHeight := StartHeight edge; endHeight := EndHeight edge;
                  total := u8 (numbigsteplevel + 2) |}).

Definition CalculateEdgeId (challengeLevel : Z) (originId : OriginIdT) (startHeight : Z)
    (startHistoryRoot : Hash) (endHeight : Z) (endHistoryRoot : Hash) : M W EdgeId :=
  CallCalculateEdgeId challengeLevel originId (int64 startHeight) startHistoryRoot (int64 endHeight)
    endHistoryRoot.

(** ** Edges *)

Definition GetChallengeLevel (e : specEdge) : Z := EdgeLevel (inner e).
Definition GetReversedChallengeLevel (e : specEdge) : Z := u8 (total e - 1 - EdgeLevel (inner e)).
Definition GetTotalChallengeLevels (e : specEdge) : Z := total e.
Definition MiniStaker (e : specEdge) : option Address := miniStaker e.
Definition StartCommitment (e : specEdge) : Z * Hash := (startHeight e, StartHistoryRoot (inner e)).
Definition EndCommitment (e : specEdge) : Z * Hash := (endHeight e, EndHistoryRoot (inner e)).
Definition CreatedAtBlock (e : specEdge) : res Z := Ok (EdgeCreatedAtBlock (inner e)).
Definition ClaimId (e : specEdge) : option ClaimIdT :=
  if EdgeClaimId (inner e) =? zero_hash then None else Some (EdgeClaimId (inner e)).

Definition AssertionHashOf (e : specEdge) : M W AssertionHash := CallGetPrevAssertionHash (id e).
Definition TimeUnrivaled (e : specEdge) : M W Z := CallTimeUnrivaled (id e).
Definition HasRival (e : specEdge) : M W bool := CallHasRival (id e).

Definition HasConfirmedRival (e : specEdge) : M W bool :=
  mutualId ← CallCalculateMutualId (EdgeLevel (inner e)) (EdgeOriginId (inner e)) (StartHeight (inner e))
    (StartHistoryRoot (inner e)) (EndHeight (inner e));
  confirmedRival ← CallConfirmedRival mutualId;
  mret (negb (confirmedRival =? zero_hash)).

Definition Status (e : specEdge) : M W EdgeStatus :=
  edge ← CallGetEdge (id e); mret (ContractStatus edge).

Definition HasChildren (e : specEdge) : M W bool :=
  edge ← CallGetEdge (id e);
  mret (negb (LowerChildId edge =? zero_hash) && negb (UpperChildId edge =? zero_hash)).

Definition LowerChild (e : specEdge) : M W (option EdgeId) :=
  edge ← CallGetEdge (id e);
  mret (if LowerChildId edge =? zero_hash then None else Some (LowerChildId edge)).

(** The test is on the lower child. *)
Definition UpperChild (e : specEdge) : M W (option EdgeId) :=
  edge ← CallGetEdge (id e);
  mret (if LowerChildId edge =? zero_hash then None else Some (UpperChildId edge)).

Definition HasLengthOneRival (e : specEdge) : M W bool :=
  ok ← attempt (CallHasLengthOneRival (id e));
  match ok with
  | inl ok => mret ok
  | inr err =>
      if Contains (ErrorText err) "not length 1" then mret false
      else if Contains (ErrorText err) "is unrivaled" then mret false
      else fail err
  end.

Definition Bisect (e : specEdge) (prefixHistoryRoot : Hash) (prefixProof : list Z)
    : M W (specEdge * specEdge) :=
  upperId ← UpperChild e;
  match upperId with
  | Some upperId =>
      upperEdge ← GetEdge upperId;
      match upperEdge with
      | None => fail (ErrNew "could not refresh upper edge after bisecting, got empty result")
      | Some upper =>
          lowerId ← LowerChild e;
          lowerId ← lift (unwrap_opt lowerId);
          lowerEdge ← GetEdge lowerId;
          match lowerEdge with
          | None => fail (ErrNew "could not refresh lower edge after bisecting, got empty result")
          | Some lower => mret (lower, upper)
          end
      end
  | None =>
      transact (TxBisectEdge (id e) prefixHistoryRoot prefixProof) ;;
      someEdge ← GetEdge (id e);
      match someEdge with
      | None => fail (ErrNew "could not refresh edge after bisecting, got empty result")
      | Some e =>
          someLowerChild ← GetEdge (LowerChildId (inner e));
          someUpperChild ← GetEdge (UpperChildId (inner e));
          match someLowerChild, someUpperChild with
          | Some lower, Some upper => mret (lower, upper)
          | _, _ => fail (ErrNew "expected edge to have children post-bisection, but has none")
          end
      end
  end.

(** A confirmation that does nothing for an edge that is confirmed already. *)
Definition unless_confirmed (e : specEdge) (confirm : M W unit) : M W unit :=
  s ← Status e;
  if bool_decide (s = EdgeConfirmed) then mret tt else confirm.

Definition state_data (info : AssertionCreatedInfo) : ExecutionStateData := {|
  DataExecutionState := AfterState info;
  DataPrevAssertionHash := ParentAssertionHash info;
  DataInboxAcc := AfterInboxBatchAcc info;
|}.

Definition ConfirmByTimer (e : specEdge) (ancestorIds : list EdgeId) : M W unit :=
  unless_confirmed e (
    assertionHash ←
      match list.last ancestorIds with
      | Some topLevelAncestorId =>
          topLevelAncestor ← GetEdge topLevelAncestorId;
          match topLevelAncestor with
          | None => fail (ErrNew "did not find edge with id %#x for specified top level ancestor")
          | Some topEdge =>
              if negb (IsBlockChallengeLevel (GetChallengeLevel topEdge))
              then fail (ErrNew "top level ancestor must be a block challenge edge")
              else lift (unwrap_opt (ClaimId topEdge))
          end
      | None => mret (EdgeClaimId (inner e))
      end;
    assertionCreation ← ReadAssertionCreationInfo assertionHash;
    wrapM "could not confirm edge %s with tx and %d ancestors %v"
      (transact (TxConfirmEdgeByTime (id e) ancestorIds (state_data assertionCreation)) ;; mret tt)).

Definition ConfirmByChildren (e : specEdge) : M W unit :=
  unless_confirmed e (transact (TxConfirmEdgeByChildren (id e)) ;; mret tt).

Definition ConfirmByClaim (e : specEdge) (claimId : ClaimIdT) : M W unit :=
  unless_confirmed e (transact (TxConfirmEdgeByClaim (id e) claimId) ;; mret tt).

(** The loop of [TopLevelClaimHeight], from [challengeLevel] down to one. *)
Fixpoint claim_height_loop (challengeLevel : nat) (originId : OriginIdT) (heights : list Z)
    : M W (list Z) :=
  match challengeLevel with
  | O => mret heights
  | S challengeLevel' =>
      w ← get;
      match ContextErr w with
      | Some err => fail err
      | None =>
          rivalId ← CallFirstRival originId;
          source ← wrapM "big step challenge one step fork source does not exist: origin id %#x, rival %#x, challenge level %d"
            (GetEdge rivalId);
          match source with
          | None => fail (ErrNew "source edge is none")
          | Some bigStepEdge =>
              claim_height_loop challengeLevel' (EdgeOriginId (inner bigStepEdge))
                (<[challengeLevel' := fst (StartCommitment bigStepEdge)]> heights)
          end
      end
  end.

Definition TopLevelClaimHeight (e : specEdge) : M W (list Z) :=
  let challengeLevel := GetChallengeLevel e in
  if challengeLevel =? 0 then mret [fst (StartCommitment e)]
  else claim_height_loop (Z.to_nat challengeLevel) (EdgeOriginId (inner e))
         (replicate (Z.to_nat challengeLevel) 0).

(** [AssertionChain.TopLevelAssertion] and [TopLevelClaimHeights]. *)
Definition fetch_edge (edgeId : EdgeId) : M W specEdge :=
  SpecChallengeManager ;;
  edgeOpt ← GetEdge edgeId;
  match edgeOpt with None => fail (ErrNew "edge was nil") | Some e => mret e end.
Definition TopLevelAssertion (edgeId : EdgeId) : M W AssertionHash :=
  e ← fetch_edge edgeId; AssertionHashOf e.
Definition TopLevelClaimHeights (edgeId : EdgeId) : M W (list Z) :=
  e ← fetch_edge edgeId; TopLevelClaimHeight e.

Definition ConfirmEdgeByOneStepProof (tentativeWinnerId : EdgeId) (oneStepData : OneStepData)
    (preHistoryInclusionProof postHistoryInclusionProof : list Hash) : M W unit :=
  edge ← GetEdge tentativeWinnerId;
  edge ← lift (unwrap_opt edge);
  unless_confirmed edge (
    assertionHash ← AssertionHashOf edge;
    creationInfo ← ReadAssertionCreationInfo assertionHash;
    if negb (IsUint64 (InboxMaxCount creationInfo)) then fail (ErrNew "inbox max count not a uint64")
    else
      let machineStep := fst (StartCommitment edge) in
      ospEntryAddr ← CallOneStepProofEntry;
      NewOneStepProofEntryCaller ospEntryAddr ;;
      bridgeAddr ← RollupBridge;
      let execCtx := {| MaxInboxMessagesRead := InboxMaxCount creationInfo; CtxBridge := bridgeAddr;
                        InitialWasmModuleRoot := WasmModuleRoot creationInfo |} in
      wrapM "could not pre-check one step proof at machine step %d: before hash %#x, computed after hash %#x, actual expected after hash %#x"
        (ProveOneStep execCtx (int64 machineStep) (BeforeHash oneStepData) (OneStepProof oneStepData)) ;;
      wrapM "could not confirm one step proof at machine step %d: before hash %#x, computed after hash %#x, actual expected after hash %#x"
        (transact (TxConfirmEdgeByOneStepProof tentativeWinnerId (BeforeHash oneStepData)
          (OneStepProof oneStepData) (config_data creationInfo)
          preHistoryInclusionProof postHistoryInclusionProof)) ;;
      mret tt).

Definition AddBlockChallengeLevelZeroEdge (assertion : AssertionHash) (startCommit endCommit : History)
    (startEndPrefixProof : list Z) : M W specEdge :=
  assertionCreation ← wrapM "could not read assertion %#x creation info" (ReadAssertionCreationInfo assertion);
  prevId ← wrapM "could not get assertion prev id for assertion %#x" (PrevId assertion);
  parentAssertionCreation ← wrapM "could not read parent assertion %#x creation info"
    (ReadAssertionCreationInfo prevId);
  levelZeroBlockHeight ← wrapM "could not get level zero block edge height" LAYERZEROBLOCKEDGEHEIGHT;
  if negb (IsUint64 levelZeroBlockHeight) then fail (ErrNew "level zero block height not a uint64")
  else if negb (Height endCommit =? levelZeroBlockHeight)
  then fail (ErrNew "end commit has unexpected height %v (expected %v)")
  else
    blockEdgeProof ← lift (wrap_err "could not serialize block edge proof"
      (PackBlockEdgeProof (LastLeafProof endCommit) (state_data parentAssertionCreation)
        (state_data assertionCreation)));
    edgeId ← wrapM "could not calculate edge id"
      (CalculateEdgeId NewBlockChallengeLevel (ParentAssertionHash assertionCreation) (Height startCommit)
        (Merkle startCommit) (Height endCommit) (Merkle endCommit));
    someLevelZeroEdge ← attempt (GetEdge edgeId);
    match someLevelZeroEdge with
    | inl (Some e) => mret e
    | _ =>
        receipt ← wrapM "could not create root block challenge edge"
          (transact (TxCreateLayerZeroEdge {|
            ArgsLevel := NewBlockChallengeLevel; ArgsEndHistoryRoot := Merkle endCommit;
            ArgsEndHeight := int64 (Height endCommit); ArgsClaimId := InfoAssertionHash assertionCreation;
            ArgsPrefixProof := startEndPrefixProof; ArgsProof := blockEdgeProof |}));
        if len (ReceiptLogs receipt) =? 0
        then fail (ErrNew "no logs observed from root block challenge edge ")
        else
          match first_event ParseEdgeAdded (ReceiptLogs receipt) with
          | None => fail (ErrNew "could not find edge added event in logs")
          | Some edgeAdded =>
              someLevelZeroEdge ← wrapM "could not get created edge by id: %#x" (GetEdge edgeAdded);
              match someLevelZeroEdge with
              | None => fail (ErrNew "edge with id %#x was not found onchain")
              | Some e => mret e
              end
          end
    end.

Definition AddSubChallengeLevelZeroEdge (challengedEdge : specEdge) (startCommit endCommit : History)
    (startParentInclusionProof endParentInclusionProof : list Hash) (startEndPrefixProof : list Z)
    : M W specEdge :=
  let subChalTyp := Next (GetChallengeLevel challengedEdge) in
  edgeId ← CalculateEdgeId subChalTyp (mutualId challengedEdge) (Height startCommit) (Merkle startCommit)
    (Height endCommit) (Merkle endCommit);
  e ← attempt (GetEdge edgeId);
  match e with
  | inl None => fail (ErrNew "got empty, newly created level zero edge")
  | inl (Some e) => mret e
  | inr _ =>
      subchallengeEdgeProof ← lift (PackSubchallengeEdgeProof (FirstLeaf startCommit) (LastLeaf endCommit)
        startParentInclusionProof endParentInclusionProof (LastLeafProof endCommit));
      transact (TxCreateLayerZeroEdge {|
        ArgsLevel := subChalTyp; ArgsEndHistoryRoot := Merkle endCommit;
        ArgsEndHeight := int64 (Height endCommit); ArgsClaimId := id challengedEdge;
        ArgsPrefixProof := startEndPrefixProof; ArgsProof := subchallengeEdgeProof |}) ;;
      e ← GetEdge edgeId;
      match e with
      | None => fail (ErrNew "got empty, newly created level zero edge")
      | Some e => mret e
      end
  end.

(** ** Completed challenges, with their cache *)

Record AssertionChain := { confirmedChallengesByParentAssertionHash : gmap AssertionHash bool }.
Definition NewAssertionChain : AssertionChain :=
  {| confirmedChallengesByParentAssertionHash := Set_.NewSet |}.

Definition IsChallengeComplete (h : AssertionHash) : M (W * AssertionChain) bool :=
  s ← get;
  if Set_.Has h (confirmedChallengesByParentAssertionHash (snd s)) then mret true
  else
    parentAssertionStatus ← chain (GetAssertionStatus h);
    if negb (bool_decide (parentAssertionStatus = AssertionConfirmed)) then mret false
    else
      latestConfirmed ← chain LatestConfirmed;
      let challengeConfirmed := negb (latestConfirmed =? h) in
      (if challengeConfirmed then
         modify (fun s => (fst s, {| confirmedChallengesByParentAssertionHash :=
           Set_.Insert h (confirmedChallengesByParentAssertionHash (snd s)) |}))
       else mret tt) ;;
      mret challengeConfirmed.

End sol.
