(* ===== verification/SolChain.v ===== *)
(** * The contract wrapper as the chain of the validator

    The interfaces the validator is written against, implemented by the wrapper of
    [sol-implementation]; its state is the world of the contracts with the cache of
    completed challenges. *)

From S2P Require Import Prelude Bits PrefixProofs Containers InclusionProofs History Protocol Provider ChallengeTree Chain Runtime Contracts SolImpl.

(** The read-only view of an edge. *)
Definition edge_of (e : specEdge) : Edge := {|
  Protocol.Id := id e;
  Protocol.GetChallengeLevel := SolImpl.GetChallengeLevel e;
  Protocol.GetReversedChallengeLevel := SolImpl.GetReversedChallengeLevel e;
  Protocol.StartCommitment := SolImpl.StartCommitment e;
  Protocol.EndCommitment := SolImpl.EndCommitment e;
  Protocol.CreatedAtBlock := SolImpl.CreatedAtBlock e;
  Protocol.MutualId := mutualId e;
  Protocol.OriginId := EdgeOriginId (inner e);
  Protocol.ClaimId := SolImpl.ClaimId e;
|}.

(** The edge behind a view.  Its children, staker and status are not part of the
    view: the methods read them from the chain. *)
Definition spec_of (e : Edge) : specEdge :=
  let level := Protocol.GetChallengeLevel e in
  {| id := Protocol.Id e;
     mutualId := Protocol.MutualId e;
     miniStaker := None;
     inner := {|
       EdgeOriginId := Protocol.OriginId e;
       StartHistoryRoot := snd (Protocol.StartCommitment e);
       StartHeight := fst (Protocol.StartCommitment e);
       EndHistoryRoot := snd (Protocol.EndCommitment e);
       EndHeight := fst (Protocol.EndCommitment e);
       LowerChildId := zero_hash; UpperChildId := zero_hash;
       EdgeClaimId := default zero_hash (Protocol.ClaimId e);
       Staker := 0;
       EdgeCreatedAtBlock := match Protocol.CreatedAtBlock e with Ok b => b | _ => 0 end;
       EdgeConfirmedAtBlock := 0;
       ContractStatus := EdgePending;
       EdgeLevel := level;
       Refunded := false |};
     startHeight := fst (Protocol.StartCommitment e);
     endHeight := fst (Protocol.EndCommitment e);
     total := u8 (Protocol.GetReversedChallengeLevel e + level + 1) |}.

Section sol_chain.
Context {W : Type} `{Contracts W} `{Runtime.Context W}.

#[global] Instance sol_context : Runtime.Context (W * AssertionChain) := {|
  ContextErr := fun s => ContextErr (fst s);
  Sleep := fun d s => (Sleep d (fst s), snd s);
|}.

Definition view_edge (m : M W specEdge) : M (W * AssertionChain) Edge := e ← chain m; mret (edge_of e).

#[global] Instance sol_chain : ChainEnv (W * AssertionChain) := {|
  Chain.HasRival e := chain (SolImpl.HasRival (spec_of e));
  Chain.HasLengthOneRival e := chain (SolImpl.HasLengthOneRival (spec_of e));
  Chain.HasConfirmedRival e := chain (SolImpl.HasConfirmedRival (spec_of e));
  Chain.EdgeStatusOf e := chain (SolImpl.Status (spec_of e));
  Chain.AssertionHashOf e := chain (SolImpl.AssertionHashOf (spec_of e));
  Chain.TopLevelClaimHeight e := chain (SolImpl.TopLevelClaimHeight (spec_of e));
  Chain.LowerChildOf e := chain (SolImpl.LowerChild (spec_of e));
  Chain.UpperChildOf e := chain (SolImpl.UpperChild (spec_of e));
  Chain.GetTotalChallengeLevels e := SolImpl.GetTotalChallengeLevels (spec_of e);
  Chain.BisectOnChain e root proof :=
    '(lower, upper) ← chain (SolImpl.Bisect (spec_of e) root proof); mret (edge_of lower, edge_of upper);
  Chain.ConfirmByTimer e ancestors := chain (SolImpl.ConfirmByTimer (spec_of e) ancestors);
  Chain.ConfirmByClaim e claim := chain (SolImpl.ConfirmByClaim (spec_of e) claim);
  Chain.ConfirmByChildren e := chain (SolImpl.ConfirmByChildren (spec_of e));
  Chain.SpecChallengeManager := chain SolImpl.SpecChallengeManager;
  Chain.GetEdge edgeId := e ← chain (SolImpl.GetEdge edgeId); mret (edge_of <$> e);
  Chain.ChallengePeriodBlocks := chain SolImpl.ChallengePeriodBlocks;
  Chain.AddBlockChallengeLevelZeroEdge a s e p := view_edge (SolImpl.AddBlockChallengeLevelZeroEdge a s e p);
  Chain.AddSubChallengeLevelZeroEdge c s e p q r :=
    view_edge (SolImpl.AddSubChallengeLevelZeroEdge (spec_of c) s e p q r);
  Chain.ConfirmEdgeByOneStepProof edgeId d p q := chain (SolImpl.ConfirmEdgeByOneStepProof edgeId d p q);
  Chain.AssertionCreationInfo a := chain (SolImpl.ReadAssertionCreationInfo a);
  Chain.IsChallengeComplete := SolImpl.IsChallengeComplete;
  Chain.ConfirmAssertionByChallengeWinner a edgeId :=
    chain (SolImpl.ConfirmAssertionByChallengeWinner a edgeId);
  Chain.LatestConfirmed := chain SolImpl.LatestConfirmed;
  Chain.AssertionCreatedAtBlock a := chain (SolImpl.AssertionCreatedAtBlock a);
  Chain.HeaderByNumber := chain BackendHeaderByNumber;
|}.

#[global] Instance sol_rollup : RollupEnv (W * AssertionChain) := {|
  rollup_chain := sol_chain;
  Chain.GetLayerZeroHeights := chain SolImpl.GetLayerZeroHeights;
  Chain.NumBigSteps := chain SolImpl.NumBigSteps;
  Chain.CalculateEdgeId l o sh sr eh er := chain (SolImpl.CalculateEdgeId l o sh sr eh er);
  Chain.IsStaked := chain SolImpl.IsStaked;
  Chain.GetAssertion a := chain (SolImpl.GetAssertion a);
  Chain.AssertionPrevId a := chain (SolImpl.PrevId a);
  Chain.GetAssertionStatus a := chain (SolImpl.GetAssertionStatus a);
  Chain.LatestCreatedAssertionHashes := chain SolImpl.LatestCreatedAssertionHashes;
  Chain.NewStakeOnNewAssertion i s := chain (SolImpl.NewStakeOnNewAssertion i s);
  Chain.StakeOnNewAssertion i s := chain (SolImpl.StakeOnNewAssertion i s);
  Chain.ConfirmAssertionByTime a := chain (SolImpl.ConfirmAssertionByTime a);
|}.

(** What the challenge trees read at a state of the world. *)
Definition sol_view (agrees : Z -> HistoryCommitmentRequest -> HistoryClaim -> res bool)
    (w : W) : ChainView := {|
  ChallengeTree.AssertionUnrivaledBlocks h := fst (SolImpl.AssertionUnrivaledBlocks h w);
  ChallengeTree.TopLevelAssertion edgeId := fst (SolImpl.TopLevelAssertion edgeId w);
  ChallengeTree.TopLevelClaimHeights edgeId := fst (SolImpl.TopLevelClaimHeights edgeId w);
  ChallengeTree.ReadAssertionCreationInfo h := fst (SolImpl.ReadAssertionCreationInfo h w);
  ChallengeTree.AgreesWith := agrees;
  ChallengeTree.LowerChild edgeId := fst (CallGetEdge edgeId w) ≫= fun e =>
    Ok (if LowerChildId e =? zero_hash then None else Some (LowerChildId e));
  ChallengeTree.UpperChild edgeId := fst (CallGetEdge edgeId w) ≫= fun e =>
    Ok (if LowerChildId e =? zero_hash then None else Some (UpperChildId e));
  ChallengeTree.CtxErr := ContextErr w;
|}.

End sol_chain.
