(* ===== verification/SolImplSpec.v ===== *)
(** * What the contract wrapper guarantees

    The edges it reads, the outcomes of its transactions, its refinement of the chain
    interface over contracts that keep their promises, its cache of completed challenges, and the
    creation events, parents and claim heights it reports. *)

From stdpp Require Import sorting.
From S2P Require Import Prelude Bits PrefixProofs Containers InclusionProofs History Protocol Chain ChainSpec Runtime Contracts SolImpl SolChain.

(** ** Reading edges *)

Section edges.
Context {W : Type} `{Contracts W}.

(** What a successful [GetEdge] returns. *)
Lemma GetEdge_result i w o w' : SolImpl.GetEdge i w = (Ok o, w') -> exists e, o = Some e /\ id e = i /\
  startHeight e = StartHeight (inner e) /\ endHeight e = EndHeight (inner e) /\
  is_u64 (startHeight e) /\ is_u64 (endHeight e) /\ is_u8 (total e) /\
  (miniStaker e = None <-> Staker (inner e) = 0) /\
  exists w1, CallGetEdge i w = (Ok (inner e), w1).
Proof.
  unfold SolImpl.GetEdge, mbind, M_bind, mret, M_ret. intros HG.
  destruct (CallGetEdge i w) as [[ce| | |] w1]; try done.
  destruct (CallCalculateMutualId _ _ _ _ _ w1) as [[mu| | |] w2]; try done.
  destruct (IsUint64 (StartHeight ce)) eqn:Es; [|done].
  destruct (IsUint64 (EndHeight ce)) eqn:Ee; [|done]. cbn in HG.
  destruct (NUMBIGSTEPLEVEL w2) as [[n| | |] w3]; try done. injection HG as <- <-.
  eexists. split; [done|]. cbn. unfold is_u64, is_u8, u8, IsUint64 in *.
  split_and!; try done; try lia; try (by eexists).
  - apply Z.mod_pos_bound. lia.
  - apply Z.mod_pos_bound. lia.
  - by destruct (Z.eqb_spec (Staker ce) 0).
Qed.

End edges.

(** ** What the contracts promise about confirmation *)

Inductive contract_call {W} `{Contracts W} : forall {A}, M W A -> Prop :=
| call_RollupGetAssertion h : contract_call (RollupGetAssertion h)
| call_RollupLatestConfirmed : contract_call RollupLatestConfirmed
| call_RollupIsStaked : contract_call RollupIsStaked
| call_Genesis : contract_call RollupGenesisAssertionHash
| call_RollupBridge : contract_call RollupBridge
| call_RollupChallengeManager : contract_call RollupChallengeManager
| call_RollupDeploymentBlock : contract_call RollupDeploymentBlock
| call_ComputeAssertionHash h s a : contract_call (ComputeAssertionHash h s a)
| call_NewIBridgeCaller a : contract_call (NewIBridgeCaller a)
| call_SequencerInboxAccs a n : contract_call (SequencerInboxAccs a n)
| call_NewEdgeChallengeManager a : contract_call (NewEdgeChallengeManager a)
| call_GetEdge i : contract_call (CallGetEdge i)
| call_MutualId l o s r e : contract_call (CallCalculateMutualId l o s r e)
| call_EdgeId l o s r e q : contract_call (CallCalculateEdgeId l o s r e q)
| call_ConfirmedRival h : contract_call (CallConfirmedRival h)
| call_HasRival i : contract_call (CallHasRival i)
| call_HasLengthOneRival i : contract_call (CallHasLengthOneRival i)
| call_TimeUnrivaled i : contract_call (CallTimeUnrivaled i)
| call_PrevAssertionHash i : contract_call (CallGetPrevAssertionHash i)
| call_FirstRival h : contract_call (CallFirstRival h)
| call_ChallengePeriodBlocks : contract_call CallChallengePeriodBlocks
| call_NUMBIGSTEPLEVEL : contract_call NUMBIGSTEPLEVEL
| call_BLOCKEDGEHEIGHT : contract_call LAYERZEROBLOCKEDGEHEIGHT
| call_BIGSTEPEDGEHEIGHT : contract_call LAYERZEROBIGSTEPEDGEHEIGHT
| call_SMALLSTEPEDGEHEIGHT : contract_call LAYERZEROSMALLSTEPEDGEHEIGHT
| call_OneStepProofEntry : contract_call CallOneStepProofEntry
| call_NewOneStepProofEntryCaller a : contract_call (NewOneStepProofEntryCaller a)
| call_ProveOneStep c n h p : contract_call (ProveOneStep c n h p)
| call_Header : contract_call BackendHeaderByNumber
| call_FilterLogs q : contract_call (FilterLogs q)
| call_BuildTx tx : contract_call (BuildTx tx)
| call_EstimateGas tx : contract_call (EstimateGas tx)
| call_SendTx tx g : contract_call (SendTx tx g)
| call_Commit : contract_call (modify Commit)
| call_WaitMined tx : contract_call (WaitMined tx)
| call_CallContract tx : contract_call (CallContract tx).

(** The edge a transaction confirms when it succeeds. *)
Definition confirms (tx : Tx) : option EdgeId :=
  match tx with
  | TxConfirmEdgeByTime i _ _ | TxConfirmEdgeByChildren i | TxConfirmEdgeByClaim i _
  | TxConfirmEdgeByOneStepProof i _ _ _ _ _ => Some i
  | _ => None
  end.

Class ContractLaws (W : Type) `{Contracts W} (confirmed : W -> EdgeId -> Prop) : Prop := {
  contract_keeps {A} (m : M W A) : contract_call m -> preserves confirmed m;
  contract_status i w e w' : CallGetEdge i w = (Ok e, w') -> ContractStatus e = EdgeConfirmed -> confirmed w' i;
  contract_mined tx w r w' i : WaitMined tx w = (Ok r, w') -> ReceiptStatus r = ReceiptStatusSuccessful ->
    confirms tx = Some i -> confirmed w' i;
}.

(** ** Transactions *)

Section transactions.
Context {W : Type} `{Contracts W}.

(** The run of a transaction up to its receipt. *)
Definition mined (tx : Tx) (w : W) (r : Receipt) (w' : W) : Prop :=
  exists g w1 w2 w3, BuildTx tx w = (Ok tt, w1) /\ EstimateGas tx w1 = (Ok g, w2) /\
    SendTx tx g w2 = (Ok tt, w3) /\ WaitMined tx (Commit w3) = (Ok r, w').

Lemma transact_ok tx w r w' :
  transact tx w = (Ok r, w') <->
  exists w1, mined tx w r w1 /\
    (ReceiptStatus r = ReceiptStatusSuccessful /\ w' = w1 \/
     ReceiptStatus r <> ReceiptStatusSuccessful /\ CallContract tx w1 = (Ok tt, w')).
Proof.
  unfold transact, mined, mbind, M_bind, wrapM, modify, mret, M_ret. split.
  - destruct (BuildTx tx w) as [[[]| | |] w1] eqn:E1; try done. cbn.
    destruct (EstimateGas tx w1) as [[g| | |] w2] eqn:E2; try done. cbn.
    destruct (SendTx tx g w2) as [[[]| | |] w3] eqn:E3; try done.
    destruct (WaitMined tx (Commit w3)) as [[r1| | |] w4] eqn:E4; try done.
    destruct (Z.eqb_spec (ReceiptStatus r1) ReceiptStatusSuccessful) as [Hs|Hs]; cbn.
    + intros [= <- <-]. exists w4. split; [by eauto 10|by left].
    + destruct (CallContract tx w4) as [[[]| | |] w5] eqn:E5; try done. intros [= <- <-].
      exists w4. split; [by eauto 10|by right].
  - intros (w4 & (g & w1 & w2 & w3 & -> & E2 & E3 & E4) & Hr). cbn. rewrite E2. cbn. rewrite E3, E4.
    destruct Hr as [[-> ->]|[Hs Ec]]; [done|]. rewrite (proj2 (Z.eqb_neq _ _) Hs). cbn. by rewrite Ec.
Qed.

(** Replaying the call of a confirmation that was tried, sent and mined, and failed, fails
    as well. *)
Definition replay_fails : Prop :=
  forall tx w r w1 w2, confirms tx <> None -> mined tx w r w1 -> ReceiptStatus r <> ReceiptStatusSuccessful ->
    CallContract tx w1 <> (Ok tt, w2).

End transactions.
Arguments replay_fails W {_}.

#[local] Hint Extern 1 (preserves _ _) => apply contract_keeps; constructor : keep.

Section refinement.
Context {W : Type} `{Contracts W} `{Runtime.Context W} (confirmed : W -> EdgeId -> Prop).
Context `{!ContractLaws W confirmed}.

Lemma keep_transact tx : preserves confirmed (transact tx).
Proof. unfold transact. keep. Qed.
#[local] Hint Resolve keep_transact : keep.

Lemma keep_sol_GetEdge i : preserves confirmed (SolImpl.GetEdge i).
Proof. unfold SolImpl.GetEdge. keep. Qed.
#[local] Hint Resolve keep_sol_GetEdge : keep.

Lemma keep_CreationInfo i : preserves confirmed (SolImpl.ReadAssertionCreationInfo i).
Proof. unfold SolImpl.ReadAssertionCreationInfo. keep. Qed.
#[local] Hint Resolve keep_CreationInfo : keep.

Lemma keep_sol_latest : preserves confirmed SolImpl.LatestConfirmed.
Proof. unfold SolImpl.LatestConfirmed, SolImpl.GetAssertion. keep. Qed.
#[local] Hint Resolve keep_sol_latest : keep.

Lemma keep_claim_heights n : forall o hs, preserves confirmed (claim_height_loop n o hs).
Proof. induction n as [|n IH]; intros o hs; cbn [claim_height_loop]; keep. Qed.
#[local] Hint Resolve keep_claim_heights : keep.


Lemma keep_unless e m : preserves confirmed m -> preserves confirmed (unless_confirmed e m).
Proof. intros Hm. unfold unless_confirmed, SolImpl.Status. keep. Qed.
#[local] Hint Resolve keep_unless : keep.

(** *** Calls that succeed only when an edge is confirmed *)

Definition ensures {A} (m : M W A) (i : EdgeId) : Prop :=
  forall w a w', m w = (Ok a, w') -> confirmed w' i.

Lemma ensures_bind {A B} (m : M W A) (f : A -> M W B) i :
  (forall a, ensures (f a) i) -> ensures (m ≫= f) i.
Proof.
  intros Hf w b w'. unfold mbind, M_bind. destruct (m w) as [[a| | |] w1]; try done. apply Hf.
Qed.

Lemma ensures_then {A B} (m : M W A) (f : A -> M W B) i :
  ensures m i -> (forall a, preserves confirmed (f a)) -> ensures (m ≫= f) i.
Proof.
  intros Hm Hf w b w'. unfold mbind, M_bind. destruct (m w) as [[a| | |] w1] eqn:E; try done.
  intros Eb. apply Hm in E. specialize (Hf a w1 i E). by rewrite Eb in Hf.
Qed.

Lemma ensures_fail {A} e i : ensures (fail (A:=A) e) i.
Proof. done. Qed.

Lemma ensures_wrapM {A} msg (m : M W A) i : ensures m i -> ensures (wrapM msg m) i.
Proof.
  intros Hm w a w'. unfold wrapM. destruct (m w) as [[| | |] w1] eqn:E; try done. intros [= <- <-]. by eapply Hm.
Qed.

Lemma ensures_unless e m : ensures m (id e) -> ensures (unless_confirmed e m) (id e).
Proof.
  intros Hm w a w'. unfold unless_confirmed, SolImpl.Status, mbind, M_bind, mret, M_ret.
  destruct (CallGetEdge (id e) w) as [[ce| | |] w1] eqn:E; try done.
  case_bool_decide as Hs; [|apply Hm]. intros [= <- <-]. by eapply contract_status.
Qed.

Section replay.
Hypothesis Hreplay : replay_fails W.

Lemma ensures_transact tx i : confirms tx = Some i -> ensures (transact tx) i.
Proof.
  intros Hc w r w' (w1 & Hm & Hr)%transact_ok. destruct Hr as [[Hs ->]|[Hs Hcall]].
  - destruct Hm as (g & w2 & w3 & w4 & _ & _ & _ & E). by eapply contract_mined.
  - by destruct (Hreplay tx w r w1 w' ltac:(congruence) Hm Hs).
Qed.

Lemma ensures_sent tx i : confirms tx = Some i -> ensures (transact tx ;; mret tt) i.
Proof. intros Hc. apply ensures_then; [by apply ensures_transact|intro; keep]. Qed.

Lemma ensures_timer e l : ensures (SolImpl.ConfirmByTimer e l) (id e).
Proof.
  apply ensures_unless. do 2 (apply ensures_bind; intros ?). apply ensures_wrapM, ensures_sent. done.
Qed.
Lemma ensures_children e : ensures (SolImpl.ConfirmByChildren e) (id e).
Proof. by apply ensures_unless, ensures_sent. Qed.
Lemma ensures_claim e c : ensures (SolImpl.ConfirmByClaim e c) (id e).
Proof. by apply ensures_unless, ensures_sent. Qed.

Lemma ensures_osp i d p q : ensures (SolImpl.ConfirmEdgeByOneStepProof i d p q) i.
Proof.
  intros w a w'. unfold SolImpl.ConfirmEdgeByOneStepProof. unfold mbind at 1. unfold M_bind at 1.
  destruct (SolImpl.GetEdge i w) as [[o| | |] w1] eqn:E; try done.
  apply GetEdge_result in E as (e & -> & He & _). subst i. cbn [unwrap_opt].
  unfold mbind at 1, M_bind at 1, lift. apply ensures_unless.
  do 2 (apply ensures_bind; intros ?). case_match; [done|].
  do 4 (apply ensures_bind; intros ?). apply ensures_then; [|intro; keep].
  by apply ensures_wrapM, ensures_transact.
Qed.

End replay.

(** *** The wrapper on its own state *)

Definition on_chain (s : W * AssertionChain) (i : EdgeId) : Prop := confirmed (fst s) i.

Lemma keep_chain {A} (m : M W A) : preserves confirmed m -> preserves on_chain (chain m).
Proof.
  intros Hm [w c] i Hc. specialize (Hm w i Hc). unfold chain, on_chain in *. cbn in *. by destruct (m w).
Qed.

Lemma chain_ensures {A} (m : M W A) i s a s' : ensures m i -> chain m s = (Ok a, s') -> on_chain s' i.
Proof.
  destruct s as [w c]. unfold chain. destruct (m w) as [r w'] eqn:E. intros Hm [= -> <-]. by eapply Hm.
Qed.

Lemma ensures_status e w w' : SolImpl.Status e w = (Ok EdgeConfirmed, w') -> confirmed w' (id e).
Proof.
  unfold SolImpl.Status, mbind, M_bind, mret, M_ret.
  destruct (CallGetEdge (id e) w) as [[ce| | |] w1] eqn:E; try done. intros [= Hs <-]. by eapply contract_status.
Qed.

Lemma keep_sol_bisect e root proof : preserves confirmed (SolImpl.Bisect e root proof).
Proof.
  unfold SolImpl.Bisect, SolImpl.UpperChild, SolImpl.LowerChild. keep.
  match goal with |- preserves _ (match ?x with _ => _ end _) => destruct x end; keep.
Qed.
#[local] Hint Resolve keep_sol_bisect : keep.

Lemma keep_complete a : preserves on_chain (SolImpl.IsChallengeComplete a).
Proof.
  unfold SolImpl.IsChallengeComplete, SolImpl.GetAssertionStatus. keep.
  - apply keep_chain. keep.
  - apply keep_chain. keep.
Qed.

Lemma keep_winner a i : preserves confirmed (SolImpl.ConfirmAssertionByChallengeWinner a i).
Proof. unfold SolImpl.ConfirmAssertionByChallengeWinner. keep. Qed.

#[local] Hint Resolve keep_complete keep_winner : keep.

(** An operation of the wrapper, unfolded down to the calls of the contracts. *)
Ltac keep_op := intros; cbn; unfold view_edge;
  first [apply keep_chain | apply keep_bind; [apply keep_chain|intro] | idtac];
  unfold SolImpl.HasRival, SolImpl.HasLengthOneRival, SolImpl.HasConfirmedRival, SolImpl.Status,
    SolImpl.AssertionHashOf, SolImpl.TopLevelClaimHeight, SolImpl.LowerChild, SolImpl.UpperChild,
    SolImpl.ConfirmByTimer, SolImpl.ConfirmByClaim, SolImpl.ConfirmByChildren, SolImpl.SpecChallengeManager,
    SolImpl.ChallengePeriodBlocks, SolImpl.AddSubChallengeLevelZeroEdge, SolImpl.ConfirmEdgeByOneStepProof,
    SolImpl.CalculateEdgeId, SolImpl.AssertionCreatedAtBlock, SolImpl.assertion_inner; keep.

Lemma sol_confirmation_laws : replay_fails W -> ChainConfirmationLaws (W * AssertionChain) on_chain.
Proof.
  intros Hr. constructor; try solve [keep_op].
  - intros e h p. cbn. apply keep_bind; [apply keep_chain, keep_sol_bisect|intros [??]; keep].
  - apply keep_complete.
  - intros e [w c] s'. cbn. destruct (SolImpl.Status (spec_of e) w) as [r w'] eqn:E. intros [= -> <-].
    by apply (ensures_status (spec_of e)) in E.
  - intros e l w w'. apply chain_ensures, (ensures_timer Hr (spec_of e)).
  - intros e c w w'. apply chain_ensures, (ensures_claim Hr (spec_of e)).
  - intros e w w'. apply chain_ensures, (ensures_children Hr (spec_of e)).
  - intros i d p q w w'. apply chain_ensures, (ensures_osp Hr).
Qed.

End refinement.

(** ** Receipts *)

(** The receipt [transact] returns without error: the transaction was built, its
    gas estimated, sent and mined, and either it succeeded or the replay of its call
    on the latest state did not fail.  In the second case the receipt is the one of
    a failed transaction and no error is reported. *)
Theorem transact_correct {W} `{Contracts W} tx (w : W) r w' :
  transact tx w = (Ok r, w') <->
  exists w1, mined tx w r w1 /\
    (ReceiptStatus r = ReceiptStatusSuccessful /\ w' = w1 \/
     ReceiptStatus r <> ReceiptStatusSuccessful /\ CallContract tx w1 = (Ok tt, w')).
Proof. apply transact_ok. Qed.

(** ** Completed challenges *)

Section completed.
Context {W : Type} `{Contracts W}.
Context (node : W -> Hash -> AssertionNode) (latest : W -> Hash) (evolves : W -> W -> Prop) `{!PreOrder evolves}.

Definition is_confirmed (w : W) (h : AssertionHash) : Prop := status_of (NodeStatus (node w h)) = AssertionConfirmed.

(** The challenge below an assertion is complete: the assertion is confirmed, and it is no
    longer the latest confirmed one. *)
Definition complete (w : W) (h : AssertionHash) : Prop := is_confirmed w h /\ latest w <> h.

(** The chain may move on during a read, which may fail; what it returns is the state of
    the chain after it. *)
Definition reads {A} (m : M W A) (f : W -> A) : Prop :=
  forall w r w', m w = (r, w') -> evolves w w' /\ forall x, r = Ok x -> x = f w'.

Hypothesis read_node : forall h, reads (RollupGetAssertion h) (fun w => node w h).
Hypothesis read_latest : reads RollupLatestConfirmed latest.
Hypothesis confirmed_stable : forall w w' h, evolves w w' -> is_confirmed w h -> is_confirmed w' h.
Hypothesis complete_stable : forall w w' h, evolves w w' -> complete w h -> complete w' h.

(** The chain evolves between the queries of a validator. *)
Inductive session_step : relation (W * AssertionChain) :=
| session_evolve w w' c : evolves w w' -> session_step (w, c) (w', c)
| session_query s h : session_step s (SolImpl.IsChallengeComplete h s).2.

(** The states of a validator since its start. *)
Definition session (s : W * AssertionChain) : Prop := exists w, rtc session_step (w, NewAssertionChain) s.

Definition cached (c : AssertionChain) (h : AssertionHash) : bool :=
  Set_.Has h (confirmedChallengesByParentAssertionHash c).

Definition remember (h : AssertionHash) (c : AssertionChain) : AssertionChain :=
  {| confirmedChallengesByParentAssertionHash := Set_.Insert h (confirmedChallengesByParentAssertionHash c) |}.

Lemma cached_remember h h' c : cached (remember h c) h' = true <-> h' = h \/ cached c h' = true.
Proof.
  unfold cached, remember, Set_.Has, Set_.Insert. cbn. destruct (decide (h' = h)) as [->|Hne].
  - rewrite lookup_insert_eq. cbn. intuition.
  - rewrite lookup_insert_ne by done. intuition.
Qed.

Lemma read_status h : reads (SolImpl.GetAssertionStatus h) (fun w => status_of (NodeStatus (node w h))).
Proof.
  intros w r w'. unfold SolImpl.GetAssertionStatus, mbind, M_bind, mret, M_ret.
  destruct (RollupGetAssertion h w) as [r1 w1] eqn:E. destruct (read_node _ _ _ _ E) as [Hev Hn].
  destruct r1; intros [= <- <-]; split; try done. intros x [= <-]. by rewrite (Hn _ eq_refl).
Qed.

(** The latest confirmed assertion is the one of some moment of the read. *)
Lemma read_latest_confirmed w r w' : SolImpl.LatestConfirmed w = (r, w') ->
  evolves w w' /\ forall h, r = Ok h -> exists w1, evolves w w1 /\ evolves w1 w' /\ h = latest w1.
Proof.
  unfold SolImpl.LatestConfirmed, SolImpl.GetAssertion, mbind, M_bind, mret, M_ret, fail.
  destruct (RollupLatestConfirmed w) as [r1 w1] eqn:E. destruct (read_latest _ _ _ E) as [Hev Hl].
  destruct r1 as [h| | |]; try by intros [= <- <-].
  destruct (RollupGetAssertion h w1) as [r2 w2] eqn:E2. destruct (read_node _ _ _ _ E2) as [Hev2 _].
  assert (evolves w w2) by by etrans.
  destruct r2; try by intros [= <- <-]. case_bool_decide; intros [= <- <-]; split; try done.
  intros h' [= <-]. exists w1. by rewrite (Hl _ eq_refl).
Qed.

(** What one query does. *)
Lemma IsChallengeComplete_step h w c r w' c' : SolImpl.IsChallengeComplete h (w, c) = (r, (w', c')) ->
  evolves w w' /\ (cached c h = true -> r = Ok true) /\
  (r = Ok true -> c' = c /\ w' = w /\ cached c h = true \/ c' = remember h c /\ complete w' h) /\
  (r <> Ok true -> c' = c) /\
  (r = Ok false -> exists w1, evolves w w1 /\ evolves w1 w' /\ ~ complete w1 h).
Proof.
  unfold SolImpl.IsChallengeComplete, mbind, M_bind, get, chain, mret, M_ret, modify. cbn [snd fst].
  destruct (Set_.Has h _) eqn:Eh; [intros [= <- <- <-]; split_and!; try done; by left|].
  destruct (SolImpl.GetAssertionStatus h w) as [r1 w1] eqn:E1. destruct (read_status _ _ _ _ E1) as [Hev1 Hst].
  assert (Hno : cached c h = true -> r = Ok true) by (unfold cached; congruence).
  destruct r1 as [st| | |]; try by intros [= <- <- <-]; split_and!. pose proof (Hst _ eq_refl) as ->.
  case_bool_decide as Hcf; cbn [negb]; [|intros [= <- <- <-]; split_and!; try done; intros _; exists w1; split_and!; try done; by intros [? _]].
  destruct (SolImpl.LatestConfirmed w1) as [r2 w2] eqn:E2. destruct (read_latest_confirmed _ _ _ E2) as [Hev2 Hl].
  assert (evolves w w2) by by etrans.
  destruct r2 as [lc| | |]; try by intros [= <- <- <-]; split_and!. destruct (Hl _ eq_refl) as (v & Hv1 & Hv2 & ->).
  destruct (Z.eqb_spec (latest v) h) as [El|El]; cbn [negb]; intros [= <- <- <-]; split_and!; try done.
  - intros _. exists v. split_and!; [by trans w1|done|]. by intros [_ ?].
  - intros _. right. split; [done|]. apply (complete_stable v); [done|]. split; [|done]. by apply (confirmed_stable w1).
Qed.

(** What a validator remembers as complete is complete. *)
Definition cache_ok (s : W * AssertionChain) : Prop := forall h, cached (snd s) h = true -> complete (fst s) h.

Lemma session_step_ok s s' : session_step s s' ->
  (cache_ok s -> cache_ok s') /\ forall h, cached (snd s) h = true -> cached (snd s') h = true.
Proof.
  destruct 1 as [w w' c He|[w c] h0].
  - split; [|done]. intros Hok h Hc. by apply (complete_stable w); [|apply Hok].
  - destruct (SolImpl.IsChallengeComplete h0 (w, c)) as [r [w' c']] eqn:E.
    destruct (IsChallengeComplete_step _ _ _ _ _ _ E) as (Hev & _ & Ht & Hf & _). unfold cache_ok. cbn [fst snd] in *.
    destruct (decide (r = Ok true)) as [Hr|Hr]; [destruct (Ht Hr) as [(-> & -> & _)|[-> Hh]]; [done|]|rewrite (Hf Hr)].
    + split; [|intros h Hc; apply cached_remember; by right]. intros Hok h [->|Hc]%cached_remember; [done|].
      by apply (complete_stable w); [|apply Hok].
    + split; [|done]. intros Hok h Hc. by apply (complete_stable w); [|apply Hok].
Qed.

Lemma session_steps_ok s s' : rtc session_step s s' ->
  (cache_ok s -> cache_ok s') /\ forall h, cached (snd s) h = true -> cached (snd s') h = true.
Proof.
  induction 1 as [|s s1 s' Hs _ IH]; [done|]. destruct (session_step_ok _ _ Hs) as [H1 H2]. destruct IH as [H3 H4]. auto.
Qed.

Lemma session_cache s : session s -> cache_ok s.
Proof.
  intros [w Hw]. apply (session_steps_ok _ _ Hw). intros h. unfold cached, NewAssertionChain, Set_.Has, Set_.NewSet. cbn.
  by rewrite lookup_empty.
Qed.

(** The validator's answer to the question whether a challenge is complete, cache of
    completed challenges included: whatever it asked before, and however the chain evolves between
    the questions and during this one, provided that confirmed assertions stay confirmed and
    complete challenges stay complete: an answer of yes is true of the chain at the end of the
    question, and every later question about the challenge, whatever happens in between, is answered by yes at once, without reading
    the chain; an answer of no is true of the chain at some moment of the question; and nothing
    is remembered unless the answer is yes. *)
Theorem IsChallengeComplete_correct s h r s' : session s -> SolImpl.IsChallengeComplete h s = (r, s') ->
  (r = Ok true -> complete (fst s') h /\
     forall s'', rtc session_step s' s'' -> SolImpl.IsChallengeComplete h s'' = (Ok true, s'') /\ complete (fst s'') h) /\
  (r = Ok false -> exists w, evolves (fst s) w /\ evolves w (fst s') /\ ~ complete w h) /\
  (r <> Ok true -> snd s' = snd s).
Proof.
  intros Hs E. pose proof (session_cache s Hs) as Hc. destruct (session_step_ok s s') as [Hok _].
  { pose proof (session_query s h) as Hq. by rewrite E in Hq. }
  destruct s as [w c], s' as [w' c']. destruct (IsChallengeComplete_step _ _ _ _ _ _ E) as (_ & _ & Ht & Hf & Hn).
  split_and!; [|done|done]. intros Hr. assert (Hh : cached c' h = true).
  { destruct (Ht Hr) as [(-> & _ & ?)|[-> _]]; [done|]. apply cached_remember. by left. }
  split; [by apply (Hok Hc)|]. intros s'' Hss. destruct (session_steps_ok _ _ Hss) as [Hok2 Hk].
  split; [|by apply (Hok2 (Hok Hc)), Hk].
  specialize (Hk _ Hh). destruct s'' as [w2 c2]. unfold cached in Hk. cbn [snd] in Hk.
  unfold SolImpl.IsChallengeComplete, mbind, M_bind, get, mret, M_ret. cbn [snd]. by rewrite Hk.
Qed.

End completed.

(** ** Creation events *)

(** [eth_getLogs]: the logs of the range whose topics match, in chain order. *)
Definition topic_ok (want : list Hash) (got : option Hash) : bool :=
  match got with Some t => bool_decide (t ∈ want) | None => false end.
Fixpoint topics_ok (want : list (list Hash)) (got : list Hash) : bool :=
  match want with
  | [] => true
  | ws :: want' => topic_ok ws (head got) && topics_ok want' (tail got)
  end.
Definition log_matches (q : FilterQuery) (l : Log) : bool :=
  (FromBlock q <=? BlockNumber l) &&
  match ToBlock q with Some b => BlockNumber l <=? b | None => true end &&
  topics_ok (QueryTopics q) (Topics l).

Lemma last_filter_refine {A} (P Q : A -> bool) (l : list A) x :
  list.last (base.filter (fun a => P a = true) l) = Some x -> Q x = true ->
  list.last (base.filter (fun a => Q a && P a = true) l) = Some x.
Proof.
  intros Hl Hq. rewrite last_Some in *. destruct Hl as [l' Hl].
  exists (base.filter (fun a => Q a = true) l').
  assert (Hf : base.filter (fun a => Q a = true) (base.filter (fun a => P a = true) l) =
    base.filter (fun a => Q a && P a = true) l).
  { rewrite list_filter_filter. apply list_filter_iff. intros a. by rewrite andb_true_iff. }
  rewrite <- Hf, Hl, list.filter_app, filter_cons_True by done. done.
Qed.

Section events.
Context {W : Type} `{Contracts W} (w : W) (logs : list Log).

Definition creations : list Log := base.filter (fun l => topics_ok [[assertionCreatedId]] (Topics l) = true) logs.

Hypothesis get_logs : forall q, FilterLogs q w = (Ok (base.filter (fun l => log_matches q l = true) logs), w).

Lemma creations_from b : FilterLogs {| FromBlock := b; ToBlock := None; QueryTopics := [[assertionCreatedId]] |} w =
  (Ok (base.filter (fun l => (b <=? BlockNumber l) && topics_ok [[assertionCreatedId]] (Topics l) = true) logs), w).
Proof.
  rewrite get_logs. do 2 f_equal. apply list_filter_iff. intros l. unfold log_matches. cbn [FromBlock ToBlock QueryTopics].
  by rewrite andb_true_r.
Qed.

(** [PrevId] answers with the parent of the most recently created assertion: its
    query has no upper end and it reads the last event.  So the parents it reports
    for any two existing assertions are the same one, and the answer is right for the
    latest assertion (and its siblings) only. *)
Theorem PrevId_is_parent_of_latest a node l ev :
  RollupGetAssertion a w = (Ok node, w) -> NodeStatus node <> 0 ->
  list.last creations = Some l -> NodeCreatedAtBlock node <= BlockNumber l ->
  ParseAssertionCreated l = Ok ev ->
  SolImpl.PrevId a w = (Ok (EventParentAssertionHash ev), w).
Proof.
  intros Hn Hs Hl Hb Hp. unfold SolImpl.PrevId, SolImpl.AssertionCreatedAtBlock, SolImpl.assertion_inner.
  unfold mbind, M_bind, lift, mret, M_ret. rewrite Hn, (proj2 (Z.eqb_neq _ _) Hs), creations_from.
  apply (last_filter_refine _ (fun l => NodeCreatedAtBlock node <=? BlockNumber l)) in Hl; [|lia].
  by rewrite Hl, Hp.
Qed.


(** *** The latest created assertion *)

Definition log_key (l : Log) : Z * Z := (BlockNumber l, LogIndex l).

#[local] Instance log_le_total : Total log_le.
Proof. intros l1 l2. unfold log_le. lia. Qed.
#[local] Instance log_le_trans : Transitive log_le.
Proof. intros l1 l2 l3. unfold log_le. lia. Qed.

(** The scan keeps a greatest log of those that are not removed. *)
Lemma latest_scan ls : Forall (fun l => 0 <= BlockNumber l /\ 0 <= LogIndex l) ls ->
  forall b i o, 0 <= b -> 0 <= i ->
  match o with None => b = 0 /\ i = 0 | Some l => log_key l = (b, i) /\ Removed l = false end ->
  let '(_, _, o') := fold_left latest_step ls (b, i, o) in
  match o' with
  | None => o = None /\ Forall (fun l => Removed l = true) ls
  | Some m => Removed m = false /\ (o = Some m \/ m ∈ ls) /\
      (forall l, o = Some l \/ l ∈ ls /\ Removed l = false -> log_le l m)
  end.
Proof.
  induction 1 as [|l ls [Hb Hi] _ IH]; intros b i o Hb0 Hi0 Ho; cbn [fold_left].
  { destruct o as [m|]; [|done]. split_and!; [by destruct Ho|by left|]. intros l [[= ->]|[[]%elem_of_nil _]].
    unfold log_le. lia. }
  destruct (latest_step (b, i, o) l) as [[b1 i1] o1] eqn:E. unfold latest_step in E.
  destruct (Removed l) eqn:El.
  { injection E as <- <- <-. specialize (IH b i o Hb0 Hi0 Ho).
    destruct (fold_left latest_step ls (b, i, o)) as [[? ?] [m|]]; [|split; [apply IH|constructor; [done|apply IH]]].
    destruct IH as (Hm & Hin & Hmax). split_and!; [done| |].
    - destruct Hin; [by left|right; by right].
    - intros l' [Hl'|[[->|Hl']%elem_of_cons Hr]]; [apply Hmax; by left|congruence|apply Hmax; by right]. }
  destruct ((b <? BlockNumber l) || _) eqn:Et; injection E as <- <- <-.
  - specialize (IH _ _ (Some l) Hb Hi (conj eq_refl El)).
    destruct (fold_left latest_step ls _) as [[? ?] [m|]]; [|by destruct IH].
    destruct IH as (Hm & Hin & Hmax). split_and!; [done|right; destruct Hin as [[= ->]|?]; by constructor|].
    assert (Hlm : log_le l m) by (apply Hmax; by left).
    intros l' [Hl'|[[->|Hl']%elem_of_cons Hr]]; [|done|apply Hmax; by right].
    subst o. destruct Ho as [[= <- <-] _]. unfold log_le in *. lia.
  - assert (exists l0, o = Some l0) as [l0 ->] by (destruct o as [l0|]; [by eauto|lia]).
    specialize (IH b i (Some l0) Hb0 Hi0 Ho).
    destruct (fold_left latest_step ls _) as [[? ?] [m|]]; [|by destruct IH].
    destruct IH as (Hm & Hin & Hmax). split_and!; [done|destruct Hin; [by left|right; by constructor]|].
    assert (Hlm : log_le l0 m) by (apply Hmax; by left).
    intros l' [Hl'|[[->|Hl']%elem_of_cons Hr]]; [apply Hmax; by left| |apply Hmax; by right].
    destruct Ho as [[= <- <-] _]. unfold log_le in *. lia.
Qed.


Definition hash_of_log (l : Log) : option AssertionHash :=
  if bool_decide (length (Topics l) < 2)%nat then None else if Removed l then None else Topics l !! 1%nat.

Lemma last_const {A} (xs ys : list A) x : Forall (fun y => y = x) ys -> list.last (xs ++ x :: ys) = Some x.
Proof.
  rewrite last_app_cons. induction 1 as [|y ys -> _ IH]; [done|]. by rewrite last_cons_cons.
Qed.

(** The hash of the greatest log comes last. *)
Lemma last_sorted ls m h :
  (forall l l', l ∈ ls -> l' ∈ ls -> log_key l = log_key l' -> l = l') ->
  m ∈ ls -> hash_of_log m = Some h ->
  (forall l, l ∈ ls -> Removed l = false -> log_le l m) ->
  list.last (omap hash_of_log (merge_sort log_le ls)) = Some h.
Proof.
  intros Hk Hm Hh Hmax. pose proof (merge_sort_Permutation log_le ls) as Hp.
  pose proof (StronglySorted_merge_sort log_le ls) as Hs.
  rewrite <- Hp in Hm. apply list_elem_of_split in Hm as (l1 & l2 & E). rewrite E in Hs |- *.
  rewrite omap_app. cbn. rewrite Hh. apply last_const.
  apply StronglySorted_app_1_r in Hs. apply StronglySorted_inv in Hs as [_ Hs].
  rewrite Forall_forall. intros x Hx. apply list_elem_of_In, list_elem_of_omap in Hx as (l & Hl & Hx).
  assert (Hin : forall y, y ∈ m :: l2 -> y ∈ ls).
  { intros y Hy. rewrite <- Hp, E. apply elem_of_app. by right. }
  rewrite Forall_forall in Hs. pose proof (Hs l (proj1 (list_elem_of_In _ _) Hl)) as Hle.
  assert (Hr : Removed l = false).
  { unfold hash_of_log in Hx. case_bool_decide; [done|]. by destruct (Removed l). }
  assert (Hll : log_le l m) by (apply Hmax; [apply Hin; by right|done]).
  assert (l = m) as ->; [|congruence].
  apply Hk; [apply Hin; by right|apply Hin; by left|]. unfold log_le, log_key in *. f_equal; lia.
Qed.


(** The two readings of the creation events agree: the scan of
    [LatestCreatedAssertion] returns the last of the hashes that
    [LatestCreatedAssertionHashes] sorts, removed logs being skipped by both, and
    fails exactly when there is none. *)
Theorem LatestCreatedAssertion_is_last ls :
  creation_logs w = (Ok ls, w) ->
  Forall (fun l => 0 <= BlockNumber l /\ 0 <= LogIndex l) ls ->
  (forall l l', l ∈ ls -> l' ∈ ls -> log_key l = log_key l' -> l = l') ->
  (forall l, l ∈ ls -> exists ev, ParseAssertionCreated l = Ok ev /\
     Topics l !! 1%nat = Some (EventAssertionHash ev) /\
     SolImpl.GetAssertion (EventAssertionHash ev) w = (Ok (EventAssertionHash ev), w)) ->
  exists hs, SolImpl.LatestCreatedAssertionHashes w = (Ok hs, w) /\
    SolImpl.LatestCreatedAssertion w =
      match list.last hs with
      | Some h => (Ok h, w)
      | None => (Err (ErrNew "no assertion creation events found"), w)
      end.
Proof.
  intros Hl Hpos Hk Hev. exists (omap hash_of_log (merge_sort log_le ls)).
  unfold SolImpl.LatestCreatedAssertionHashes, SolImpl.LatestCreatedAssertion, mbind, M_bind, mret, M_ret.
  rewrite Hl. split; [done|].
  pose proof (latest_scan ls Hpos 0 0 None ltac:(lia) ltac:(lia) (conj eq_refl eq_refl)) as Hs.
  destruct (fold_left latest_step ls (0, 0, None)) as [[? ?] [m|]].
  - destruct Hs as (Hr & [[=]|Hin] & Hmax). destruct (Hev m Hin) as (ev & Hp & Ht & Hg).
    unfold lift. rewrite Hp, Hg. rewrite (last_sorted ls m (EventAssertionHash ev)); [done|done|done| |auto].
    unfold hash_of_log. rewrite Hr, Ht. case_bool_decide; [|done].
    apply lookup_lt_Some in Ht. lia.
  - destruct Hs as [_ Hs]. assert (omap hash_of_log (merge_sort log_le ls) = []) as ->; [|done].
    rewrite <- (merge_sort_Permutation log_le ls) in Hs. induction Hs as [|l l' Hr _ IH]; [done|].
    cbn. unfold hash_of_log at 1. rewrite Hr. by case_bool_decide.
Qed.

End events.

(** ** Claim heights *)

Section claim_heights.
Context {W : Type} `{Contracts W} `{Runtime.Context W} (w : W).
Context (rival : OriginIdT -> EdgeId) (source : OriginIdT -> specEdge).

Hypothesis alive : ContextErr w = None.
Hypothesis read_rival : forall o, CallFirstRival o w = (Ok (rival o), w).
Hypothesis read_source : forall o, SolImpl.GetEdge (rival o) w = (Ok (Some (source o)), w).

(** The origin [n] challenges above. *)
Definition origin_up (n : nat) (o : OriginIdT) : OriginIdT :=
  Nat.iter n (fun o => EdgeOriginId (inner (source o))) o.

Lemma origin_up_S n o : origin_up (S n) o = origin_up n (EdgeOriginId (inner (source o))).
Proof. unfold origin_up. by rewrite Nat.iter_succ_r. Qed.

Lemma claim_height_loop_spec n : forall o hs, (n <= length hs)%nat ->
  exists hs', claim_height_loop n o hs w = (Ok hs', w) /\ length hs' = length hs /\
    (forall k, (k < n)%nat -> hs' !! k = Some (startHeight (source (origin_up (n - 1 - k) o)))) /\
    (forall k, (n <= k)%nat -> hs' !! k = hs !! k).
Proof.
  induction n as [|n IH]; intros o hs Hn; cbn [claim_height_loop].
  { exists hs. split_and!; try done. lia. }
  unfold mbind, M_bind, get, wrapM. rewrite alive, read_rival, read_source. cbn [wrap_err].
  destruct (IH (EdgeOriginId (inner (source o))) (<[n := startHeight (source o)]> hs)) as (hs' & E & Hlen & Hlt & Hge).
  { rewrite length_insert. lia. }
  exists hs'. split_and!.
  - exact E.
  - by rewrite Hlen, length_insert.
  - intros k Hk. destruct (decide (k = n)) as [->|Hne].
    + rewrite Hge, list_lookup_insert_eq by lia. by replace (S n - 1 - n)%nat with 0%nat by lia.
    + rewrite Hlt by lia. replace (S n - 1 - k)%nat with (S (n - 1 - k)) by lia. by rewrite origin_up_S.
  - intros k Hk. rewrite Hge by lia. by rewrite list_lookup_insert_ne by lia.
Qed.

(** [TopLevelClaimHeight] returns without running out of its loop: for a block
    edge the edge's own start height, and for an edge of level [L > 0] one height per
    level above it, the height of level [k] being the start height of the rivaled
    edge found by going up [L - k] challenges through the origins. *)
Theorem TopLevelClaimHeight_correct e :
  0 <= EdgeLevel (inner e) ->
  exists hs, SolImpl.TopLevelClaimHeight e w = (Ok hs, w) /\
    if EdgeLevel (inner e) =? 0 then hs = [startHeight e]
    else len hs = EdgeLevel (inner e) /\
      forall k, 0 <= k < EdgeLevel (inner e) -> hs !! Z.to_nat k =
        Some (startHeight (source (origin_up (Z.to_nat (EdgeLevel (inner e) - 1 - k)) (EdgeOriginId (inner e))))).
Proof.
  intros Hl. unfold SolImpl.TopLevelClaimHeight, SolImpl.GetChallengeLevel. set (l := EdgeLevel (inner e)) in *.
  destruct (Z.eqb_spec l 0) as [->|Hne]; [by eexists|].
  destruct (claim_height_loop_spec (Z.to_nat l) (EdgeOriginId (inner e)) (replicate (Z.to_nat l) 0))
    as (hs & E & Hlen & Hlt & _); [by rewrite length_replicate|].
  exists hs. split; [done|]. rewrite length_replicate in Hlen. unfold len. split; [lia|].
  intros k Hk. rewrite Hlt by lia. do 4 f_equal. lia.
Qed.

End claim_heights.

(** ** Examples *)

Module Toy.

(** A small chain: transactions take effect when they are sent, and the confirmations
    in [refused] are mined as failures, whose replay has a given outcome. *)
Record world := {
  confirmed : gset EdgeId;
  refused : gset EdgeId;
  nodes : gmap Hash AssertionNode;
  latest : Hash;
  logs : list Log;
  block : Z;
}.

Definition confirm (tx : Tx) (w : world) : world :=
  match confirms tx with
  | Some i => if decide (i ∈ refused w) then w else
      {| confirmed := {[i]} ∪ confirmed w; refused := refused w; nodes := nodes w;
         latest := latest w; logs := logs w; block := block w |}
  | None => w
  end.

Definition no_node : AssertionNode := {| FirstChildBlock := 0; SecondChildBlock := 0; NodeCreatedAtBlock := 0;
  IsFirstChild := false; NodeStatus := 0; ConfigHash := 0 |}.
Definition node_at (status block : Z) : AssertionNode := {| FirstChildBlock := 0; SecondChildBlock := 0;
  NodeCreatedAtBlock := block; IsFirstChild := true; NodeStatus := status; ConfigHash := 0 |}.

(** The edges of the chain: edge 100 + k is of level k and has the origin k, whose
    first rival is edge 99 + k. *)
Definition start_of (i : EdgeId) : Z := if i <=? 100 then 1 else if i =? 101 then 4 else 7.
Definition end_of (i : EdgeId) : Z := if i <=? 100 then 2 else if i =? 101 then 5 else 8.
Definition edge_data (i : EdgeId) (w : world) : ChallengeEdge := {|
  EdgeOriginId := i - 100; StartHistoryRoot := 1; StartHeight := start_of i; EndHistoryRoot := 2;
  EndHeight := end_of i; LowerChildId := 0; UpperChildId := 0; EdgeClaimId := 0; Staker := 5;
  EdgeCreatedAtBlock := 1; EdgeConfirmedAtBlock := if decide (i ∈ confirmed w) then 2 else 0;
  ContractStatus := if decide (i ∈ confirmed w) then EdgeConfirmed else EdgePending;
  EdgeLevel := i - 100; Refunded := false |}.

Definition no_state : SolExecutionState :=
  AsSolidityStruct {| GlobalState := {| BlockHash := 0; SendRoot := 0; Batch := 0; PosInBatch := 0 |};
    MachineStatus := 0 |}.
Definition no_config : ConfigData := {| CfgWasmModuleRoot := 0; CfgRequiredStake := 0; CfgChallengeManager := 0;
  CfgConfirmPeriodBlocks := 0; NextInboxPosition := 0 |}.

(** The event is read from the topics: signature, assertion and parent. *)
Definition parse_created (l : Log) : res AssertionCreatedEvent :=
  match Topics l with
  | [_; h; p] => Ok {| EventAssertionHash := h; EventParentAssertionHash := p;
      EventAssertion := {| InputsBeforeStateData := {| PrevPrevAssertionHash := 0; SequencerBatchAcc := 0;
        BeforeConfigData := no_config |}; InputsBeforeState := no_state; InputsAfterState := no_state |};
      EventAfterInboxBatchAcc := 0; EventInboxMaxCount := 0; EventWasmModuleRoot := 0; EventRequiredStake := 0;
      EventChallengeManager := 0; EventConfirmPeriodBlocks := 0 |}
  | _ => Err (ErrNew "not a creation event")
  end.

Definition receipt_of (tx : Tx) (w : world) : Receipt := {|
  ReceiptStatus := match confirms tx with
                   | Some i => if decide (i ∈ confirmed w) then ReceiptStatusSuccessful else 0
                   | None => ReceiptStatusSuccessful
                   end;
  ReceiptLogs := [] |}.

Definition contracts_with (replay : res unit) : Contracts world := {|
  RollupGetAssertion h := w ← get; mret (default no_node (nodes w !! h));
  RollupLatestConfirmed := w ← get; mret (latest w);
  RollupIsStaked := mret true;
  RollupGenesisAssertionHash := mret 1;
  RollupBridge := mret 1;
  RollupChallengeManager := mret 2;
  RollupDeploymentBlock := mret 0;
  ComputeAssertionHash _ _ _ := mret 7;
  assertionCreatedId := 77;
  ParseAssertionCreated := parse_created;
  NewIBridgeCaller _ := mret tt;
  SequencerInboxAccs _ _ := mret 0;
  NewEdgeChallengeManager _ := mret tt;
  CallGetEdge i := w ← get; mret (edge_data i w);
  CallCalculateMutualId _ _ _ _ _ := mret 1;
  CallCalculateEdgeId _ _ _ _ _ _ := mret 100;
  CallConfirmedRival _ := mret 0;
  CallHasRival _ := mret true;
  CallHasLengthOneRival _ := fail (ErrNew "edge is not length 1");
  CallTimeUnrivaled _ := mret 0;
  CallGetPrevAssertionHash _ := mret 1;
  CallFirstRival o := mret (o + 99);
  CallChallengePeriodBlocks := mret 20;
  NUMBIGSTEPLEVEL := mret 1;
  LAYERZEROBLOCKEDGEHEIGHT := mret 32;
  LAYERZEROBIGSTEPEDGEHEIGHT := mret 32;
  LAYERZEROSMALLSTEPEDGEHEIGHT := mret 32;
  CallOneStepProofEntry := mret 3;
  ParseEdgeAdded _ := Err (ErrNew "not an edge event");
  NewOneStepProofEntryCaller _ := mret tt;
  ProveOneStep _ _ _ _ := mret 0;
  PackBlockEdgeProof _ _ _ := Ok [];
  PackSubchallengeEdgeProof _ _ _ _ _ := Ok [];
  BackendHeaderByNumber := w ← get; mret (block w);
  FilterLogs q := w ← get; mret (base.filter (fun l => log_matches q l = true) (logs w));
  BuildTx _ := mret tt;
  EstimateGas _ := mret 21000;
  SendTx tx _ := modify (confirm tx);
  Commit w := w;
  WaitMined tx := w ← get; mret (receipt_of tx w);
  CallContract tx := w ← get;
    lift (if decide (ReceiptStatus (receipt_of tx w) = ReceiptStatusSuccessful) then Ok tt else replay);
|}.
#[global] Instance contracts : Contracts world := contracts_with (Err (ErrNew "execution reverted")).

#[global] Instance context : Runtime.Context world := {| ContextErr _ := None; Sleep _ w := w |}.

Lemma laws : ContractLaws world (fun w i => i ∈ confirmed w).
Proof.
  split.
  - intros A m Hm w i Hi. destruct Hm; try done. cbn. unfold confirm.
    destruct (confirms tx); [|done]. case_decide; [done|]. cbn. set_solver.
  - intros i w e w' [= <- <-] Hs. cbn in *. by case_decide.
  - intros tx w r w' i [= <- <-] Hs Hc. cbn in *. rewrite Hc in Hs. by case_decide.
Qed.

Lemma replays : replay_fails world.
Proof. intros tx w r w1 w2 _ (g & w3 & w4 & w5 & _ & _ & _ & [= <- <-]) Hs Hc. cbv [CallContract contracts contracts_with] in Hc.
  unfold mbind, M_bind, get, lift in Hc. by case_decide. Qed.

(** Two assertions on top of the genesis assertion 1, and 4 on top of 2. *)
Definition log_at (b i h p : Z) : Log := {| BlockNumber := b; LogIndex := i; Removed := false;
  Topics := [77; h; p]; LogTxHash := 0; LogData := [] |}.
Definition w0 : world := {| confirmed := ∅; refused := {[101]};
  nodes := <[1 := node_at 2 5]> (<[2 := node_at 1 10]> (<[3 := node_at 1 11]> {[4 := node_at 1 30]}));
  latest := 1; logs := [log_at 5 0 1 0; log_at 10 0 2 1; log_at 11 3 3 1; log_at 30 1 4 2]; block := 40 |}.


Definition edge_at (i : EdgeId) : specEdge := {| id := i; mutualId := 1; miniStaker := Some 5;
  inner := edge_data i w0; startHeight := start_of i; endHeight := end_of i; total := 3 |}.
Definition s0 : world * AssertionChain := (w0, NewAssertionChain).

(** Confirmed assertions stay confirmed, and complete challenges complete. *)
Definition node_of (w : world) (h : Hash) : AssertionNode := default no_node (nodes w !! h).
Definition evolves (w w' : world) : Prop :=
  forall h, (is_confirmed node_of w h -> is_confirmed node_of w' h) /\
    (complete node_of latest w h -> complete node_of latest w' h).
#[global] Instance evolves_preorder : PreOrder evolves.
Proof. split; [done|]. intros w1 w2 w3 H1 H2 h. destruct (H1 h), (H2 h). auto. Qed.

Lemma toy_read_node h : reads evolves (RollupGetAssertion h) (fun w => node_of w h).
Proof. intros w r w' [= <- <-]. split; [done|]. by intros x [= <-]. Qed.

Lemma toy_read_latest : reads evolves RollupLatestConfirmed latest.
Proof. intros w r w' [= <- <-]. split; [done|]. by intros x [= <-]. Qed.

Definition confirm_second (w : world) : world := {| confirmed := confirmed w; refused := refused w;
  nodes := <[2 := node_at 2 10]> (nodes w); latest := 2; logs := logs w; block := block w |}.

Lemma second_evolves : evolves w0 (confirm_second w0).
Proof.
  assert (Hk : forall h, is_confirmed node_of w0 h -> h = 1).
  { intros h. unfold is_confirmed, node_of, w0. cbn [nodes]. rewrite !lookup_insert. repeat case_decide; try done.
    rewrite lookup_singleton. by case_decide. }
  intros h. split; [intros ->%Hk|intros [->%Hk _]]; [by vm_compute|split; by vm_compute].
Qed.

End Toy.

(** The confirmation of edge 101 is mined as a failure, the replay passes. *)
Lemma transact_correct_witness :
  exists w', @transact _ (Toy.contracts_with (Ok tt)) (TxConfirmEdgeByChildren 101) Toy.w0 =
      (Ok {| ReceiptStatus := 0; ReceiptLogs := [] |}, w') /\ 101 ∉ Toy.confirmed w'.
Proof.
  exists Toy.w0. split; [|by vm_compute].
  apply (@transact_correct _ (Toy.contracts_with (Ok tt))). exists Toy.w0. split; [by exists 21000, Toy.w0, Toy.w0, Toy.w0|].
  right. split; [done|reflexivity].
Defined.

(** Assertion 2 is confirmed between the questions about the challenge below assertion 1. *)
Lemma IsChallengeComplete_correct_witness :
  let later := (Toy.confirm_second Toy.w0, NewAssertionChain) in
  SolImpl.IsChallengeComplete 1 Toy.s0 = (Ok false, Toy.s0) /\
  exists s', SolImpl.IsChallengeComplete 1 later = (Ok true, s') /\ complete Toy.node_of Toy.latest (fst s') 1 /\
    SolImpl.IsChallengeComplete 1 s' = (Ok true, s').
Proof.
  split; [by vm_compute|]. eexists. split; [vm_compute; reflexivity|].
  destruct (@IsChallengeComplete_correct Toy.world Toy.contracts Toy.node_of Toy.latest Toy.evolves _
    Toy.toy_read_node Toy.toy_read_latest (fun w w' h He => proj1 (He h)) (fun w w' h He => proj2 (He h))
    (Toy.confirm_second Toy.w0, NewAssertionChain) 1 (Ok true)
    (SolImpl.IsChallengeComplete 1 (Toy.confirm_second Toy.w0, NewAssertionChain)).2) as (Hy & _ & _).
  - exists Toy.w0. apply rtc_once. constructor. exact Toy.second_evolves.
  - vm_compute. reflexivity.
  - destruct (Hy eq_refl) as [Hc Hl]. split; [exact Hc|]. exact (proj1 (Hl _ (rtc_refl _ _))).
Defined.

(** Assertion 3 was created on top of 1, but its reported parent is 2. *)
Lemma PrevId_is_parent_of_latest_witness :
  SolImpl.PrevId 3 Toy.w0 = (Ok 2, Toy.w0) /\
  option_map EventParentAssertionHash (first_event (fun l => if decide (Topics l !! 1%nat = Some 3)
    then ParseAssertionCreated l else Err (ErrNew "")) (Toy.logs Toy.w0)) = Some 1.
Proof.
  split; [|reflexivity].
  destruct (Toy.parse_created (Toy.log_at 30 1 4 2)) as [ev| | |] eqn:E; try discriminate E.
  rewrite (@PrevId_is_parent_of_latest Toy.world Toy.contracts Toy.w0 (Toy.logs Toy.w0) (fun _ => eq_refl) 3
    (Toy.node_at 1 11) (Toy.log_at 30 1 4 2) ev); [by injection E as <-|done..].
Defined.

Lemma LatestCreatedAssertion_is_last_witness :
  exists hs, SolImpl.LatestCreatedAssertionHashes Toy.w0 = (Ok hs, Toy.w0) /\
    SolImpl.LatestCreatedAssertion Toy.w0 =
      match list.last hs with
      | Some h => (Ok h, Toy.w0)
      | None => (Err (ErrNew "no assertion creation events found"), Toy.w0)
      end.
Proof.
  apply (LatestCreatedAssertion_is_last Toy.w0 (Toy.logs Toy.w0)); [reflexivity|by repeat constructor| |].
  - intros l l' Hl Hl'. cbn in Hl, Hl'. repeat setoid_rewrite elem_of_cons in Hl.
    repeat setoid_rewrite elem_of_cons in Hl'. rewrite elem_of_nil in Hl, Hl'.
    intros Hk. destruct_or?; subst; done.
  - intros l Hl. cbn in Hl. repeat setoid_rewrite elem_of_cons in Hl. rewrite elem_of_nil in Hl.
    destruct_or?; subst; eexists; done.
Defined.

Lemma TopLevelClaimHeight_correct_witness :
  exists e, (SolImpl.GetEdge 102 Toy.w0).1 = Ok (Some e) /\
  exists hs, SolImpl.TopLevelClaimHeight e Toy.w0 = (Ok hs, Toy.w0) /\ len hs = 2.
Proof.
  eexists. split; [reflexivity|].
  edestruct (TopLevelClaimHeight_correct Toy.w0 (fun o => o + 99) (fun o => Toy.edge_at (o + 99))) as (hs & E & H);
    [..|exists hs; split; [exact E|exact (proj1 H)]]; try done.
  intros o. cbn. unfold Toy.edge_at, Toy.edge_data, Toy.start_of, Toy.end_of.
  destruct (o + 99 <=? 100); [reflexivity|]. by destruct (o + 99 =? 101).
Defined.
