(* ===== verification/ContractChain.v ===== *)
(** * The contract behind the bindings

    The calls that the wrapper makes of the generated bindings of the challenge manager,
    as calls of the contract itself: the world is a node that serves a chain on which the
    contract runs, and between any two calls the other parties act.  The rollup contract,
    the event encoding and the gas of a transaction are parameters. *)

From S2P Require Import Prelude Bits PrefixProofs InclusionProofs History Protocol Runtime Chain ChainSpec Contracts MerkleContract CommitChain EdgeContract EdgeContractSpec EdgeContractHistory EdgeContractReplay SolImpl SolChain SolImplSpec.
Import EdgeContract.
Import EdgeChallengeManager (run, transaction, Call).

(** The rollup contract: what the wrapper reads of it, and its transactions, which may call
    the challenge manager's views and the token. *)
Class RollupContract (R T : Type) := {
  rollup_getAssertion : R -> Hash -> res AssertionNode;
  rollup_latestConfirmed : R -> res Hash;
  rollup_isStaked : R -> Address -> res bool;
  rollup_genesis : R -> res Hash;
  rollup_challengeManager : R -> res Address;
  rollup_deploymentBlock : R -> res Z;
  rollup_assertionHash : R -> Hash -> SolExecutionState -> Hash -> res Hash;
  rollup_inboxAcc : R -> Address -> Z -> res Hash;
  rollup_logs : R -> FilterQuery -> res (list Log);
  rollup_call : Tx -> Address -> Z * World R T -> res (R * T);
}.

(** The ABI encoding of logs and of the proofs of an edge, and the gas of a transaction. *)
Class NodeCodec := {
  created_topic : Hash;
  parse_created : Log -> res AssertionCreatedEvent;
  encode_event : Z -> EdgeEvent -> Log;
  parse_added : Log -> res EdgeId;
  pack_block : list Hash -> ExecutionStateData -> ExecutionStateData -> res (list Z);
  pack_subchallenge : Hash -> Hash -> list Hash -> list Hash -> list Hash -> res (list Z);
  gas_of : Tx -> Z;
}.

(** The call of the challenge manager that a transaction makes; the level is a [uint8]. *)
Definition call_of (tx : Tx) : option Call :=
  match tx with
  | TxBisectEdge i root proof => Some (EdgeChallengeManager.BisectEdge i root proof)
  | TxConfirmEdgeByTime i l d => Some (EdgeChallengeManager.ConfirmEdgeByTime i l d)
  | TxConfirmEdgeByChildren i => Some (EdgeChallengeManager.ConfirmEdgeByChildren i)
  | TxConfirmEdgeByClaim i j => Some (EdgeChallengeManager.ConfirmEdgeByClaim i j)
  | TxConfirmEdgeByOneStepProof i h p c q r => Some (EdgeChallengeManager.ConfirmEdgeByOneStepProof i h p c q r)
  | TxCreateLayerZeroEdge args => Some (EdgeChallengeManager.CreateLayerZeroEdge args)
  | TxNewStakeOnNewAssertion _ _ _ | TxStakeOnNewAssertion _ _ | TxConfirmAssertion _ _ _ _ _ _ => None
  end.

Definition encodable (call : Call) : bool :=
  match call with EdgeChallengeManager.CreateLayerZeroEdge args => 0 <=? ArgsLevel args | _ => true end.

Lemma encodable_ok call : encodable call = true -> call_ok call.
Proof. destruct call; cbn; try done. apply Z.leb_le. Qed.

Lemma confirms_call_of tx i : confirms tx = Some i ->
  exists call, call_of tx = Some call /\ confirms_call call = Some i /\ encodable call = true.
Proof. destruct tx; cbn; try done; intros [= <-]; eexists; split_and!; try done. Qed.

Section node.
Context `{Hasher} `{!HasherNonzero} `{!HasherInjective} `{IOneStepProofEntry} `{AbiDecode}.
Context {R T : Type} `{IAssertionChain R} `{IERC20 T} `{RollupContract R T} `{NodeCodec}.
Context (this me : Address) (later : relation R) `{!AssertionLaws later} (c : Settings).
Implicit Types x : Z * World R T.

Definition good x : Prop := lawful this later c x /\ 0 < x.1 < two64.

Lemma good_reachable x : good x -> reachable this c x.
Proof. intros [Hl _]. by eapply lawful_reachable. Qed.

(** What the other parties do before the [k]-th call of the validator. *)
Context (others : nat -> Z * World R T -> Z * World R T).

(** A transaction of the validator in a block. *)
Definition attempt (tx : Tx) x : res unit * World R T :=
  match call_of tx with
  | Some call =>
      if encodable call then transaction (run this x.1 me call) x.2 else (Err (ErrNew "abi: cannot use level"), x.2)
  | None =>
      match rollup_call tx me x with
      | Ok (r, t) => (Ok tt, {| settings := settings x.2; store := store x.2; rollup := r; token := t; emitted := emitted x.2 |})
      | Err e => (Err e, x.2)
      | Panic p => (Panic p, x.2)
      | NoFuel => (NoFuel, x.2)
      end
  end.

Definition receipt_of (tx : Tx) x : Receipt := {|
  ReceiptStatus := match (attempt tx x).1 with Ok _ => ReceiptStatusSuccessful | _ => 0 end;
  ReceiptLogs := encode_event x.1 <$> drop (length (emitted x.2)) (emitted (attempt tx x).2) |}.

Hypothesis Hc : settings_ok c.
Hypothesis Hme : me <> this.
Hypothesis others_grow : forall k x, good x -> grows this later x (others k x).
Hypothesis rollup_grows : forall tx x r t, rollup_call tx me x = Ok (r, t) ->
  later (rollup x.2) r /\ balanceOf (token x.2) this <= balanceOf t this.

Lemma grows_good x y : good x -> grows this later x y -> good y.
Proof.
  intros Hgood Hg. destruct (grows_extends this later c Hc _ _ (good_reachable _ Hgood) (proj2 Hgood) Hg) as (_ & _ & _ & Hb).
  split; [|done]. eapply lawful_grows; [apply Hgood|done].
Qed.

Lemma attempt_grows tx x : good x -> grows this later x (x.1, (attempt tx x).2).
Proof.
  intros Hgood. pose proof (good_reachable _ Hgood) as Hr. destruct Hgood as [_ Hb]. destruct x as [b w]. cbn [fst snd] in *.
  unfold attempt. destruct (reachable_inv this _ _ _ Hc Hr) as [Es Hinv].
  assert (Hrefl : grows this later (b, w) (b, w)) by apply rtc_refl.
  destruct (call_of tx) as [call|].
  - destruct (encodable call) eqn:Ec; [|done]. cbn [fst snd]. apply encodable_ok in Ec.
    destruct (transaction (run this b me call) w) as [r w'] eqn:E. cbn [snd]. apply rtc_once. split.
    + apply (tx_call _ _ _ _ w me call r); done || lia.
    + unfold transaction in E. destruct (run this b me call w) as [[[]| | |] w2] eqn:Er; injection E as <- <-; try done.
      rewrite <- Es in Hinv. assert (Hcw : settings_ok (settings w)) by (by rewrite Es).
      destruct (run_effect this b me w Hcw Hb Hinv call w2 Ec Er) as [(_ & Erl & _) _]. cbn. by rewrite Erl.
  - destruct (rollup_call tx me (b, w)) as [[r t]| | |] eqn:E; try done. cbn [snd].
    apply rollup_grows in E as [Hl Hbal]. apply rtc_once. split; [|done]. by apply tx_elsewhere.
Qed.

(** A node: how many calls it has served, and the chain. *)
Definition Node : Type := { n : nat * (Z * World R T) | good n.2 }.
Definition chain_of (n : Node) : Z * World R T := (proj1_sig n).2.

Definition turn (n : Node) : Node :=
  exist (fun n => good n.2) (S (proj1_sig n).1, others (proj1_sig n).1 (chain_of n))
    (grows_good _ _ (proj2_sig n) (others_grow (proj1_sig n).1 _ (proj2_sig n))).

Definition mine (tx : Tx) (n : Node) : Node :=
  exist (fun n => good n.2) ((proj1_sig n).1, ((chain_of n).1, (attempt tx (chain_of n)).2))
    (grows_good _ _ (proj2_sig n) (attempt_grows tx _ (proj2_sig n))).

(** A call that reads the chain. *)
Definition view {A} (f : Z * World R T -> res A) : M Node A := fun n => (f (chain_of (turn n)), turn n).

(** The call of a transaction on the latest state, without sending it. *)
Definition dry (tx : Tx) : M Node unit := view (fun x => (attempt tx x).1).

#[global] Instance node_contracts : Contracts Node := {|
  RollupGetAssertion h := view (fun x => rollup_getAssertion (rollup x.2) h);
  RollupLatestConfirmed := view (fun x => rollup_latestConfirmed (rollup x.2));
  RollupIsStaked := view (fun x => rollup_isStaked (rollup x.2) me);
  RollupGenesisAssertionHash := view (fun x => rollup_genesis (rollup x.2));
  RollupBridge := view (fun x => Ok (bridge (rollup x.2)));
  RollupChallengeManager := view (fun x => rollup_challengeManager (rollup x.2));
  RollupDeploymentBlock := view (fun x => rollup_deploymentBlock (rollup x.2));
  ComputeAssertionHash h s a := view (fun x => rollup_assertionHash (rollup x.2) h s a);
  assertionCreatedId := created_topic;
  ParseAssertionCreated := parse_created;
  NewIBridgeCaller _ := view (fun _ => Ok tt);
  SequencerInboxAccs a n := view (fun x => rollup_inboxAcc (rollup x.2) a n);
  NewEdgeChallengeManager _ := view (fun _ => Ok tt);
  CallGetEdge i := view (fun x => EdgeChallengeManager.getEdge x.2 i);
  CallCalculateMutualId l o s r e := view (fun _ => Ok (ChallengeEdgeLib.mutualIdComponent l o s r e));
  CallCalculateEdgeId l o s r e q := view (fun _ => Ok (ChallengeEdgeLib.idComponent l o s r e q));
  CallConfirmedRival m := view (fun x => Ok (EdgeChallengeManager.confirmedRival x.2 m));
  CallHasRival i := view (fun x => EdgeChallengeManager.hasRival x.2 i);
  CallHasLengthOneRival i := view (fun x => EdgeChallengeManager.hasLengthOneRival x.2 i);
  CallTimeUnrivaled i := view (fun x => EdgeChallengeManager.timeUnrivaled x.1 x.2 i);
  CallGetPrevAssertionHash i := view (fun x => EdgeChallengeManager.getPrevAssertionHash x.2 i);
  CallFirstRival m := view (fun x => Ok (EdgeChallengeManager.firstRival x.2 m));
  CallChallengePeriodBlocks := view (fun x => Ok (challengePeriodBlocks (settings x.2)));
  NUMBIGSTEPLEVEL := view (fun x => Ok (NUM_BIGSTEP_LEVEL (settings x.2)));
  LAYERZEROBLOCKEDGEHEIGHT := view (fun x => Ok (LAYERZERO_BLOCKEDGE_HEIGHT (settings x.2)));
  LAYERZEROBIGSTEPEDGEHEIGHT := view (fun x => Ok (LAYERZERO_BIGSTEPEDGE_HEIGHT (settings x.2)));
  LAYERZEROSMALLSTEPEDGEHEIGHT := view (fun x => Ok (LAYERZERO_SMALLSTEPEDGE_HEIGHT (settings x.2)));
  CallOneStepProofEntry := view (fun x => Ok (oneStepProofEntry (settings x.2)));
  ParseEdgeAdded := parse_added;
  NewOneStepProofEntryCaller _ := view (fun _ => Ok tt);
  ProveOneStep ctx n h p := view (fun _ => proveOneStep ctx n h p);
  PackBlockEdgeProof := pack_block;
  PackSubchallengeEdgeProof := pack_subchallenge;
  BackendHeaderByNumber := view (fun x => Ok x.1);
  FilterLogs q := view (fun x => rollup_logs (rollup x.2) q);
  BuildTx := dry;
  EstimateGas tx := dry tx ;; mret (gas_of tx);
  SendTx _ _ := view (fun _ => Ok tt);
  Commit := turn;
  WaitMined tx := fun n => (Ok (receipt_of tx (chain_of (turn n))), mine tx (turn n));
  CallContract := dry;
|}.

(** ** The contract keeps the promises of the bindings *)

Definition confirmed_on (n : Node) (i : EdgeId) : Prop :=
  exists e, edges (store (chain_of n).2) !! i = Some e /\ ContractStatus e = EdgeConfirmed.

Lemma confirmed_grows x y i e : good x -> grows this later x y -> edges (store x.2) !! i = Some e ->
  ContractStatus e = EdgeConfirmed -> exists e', edges (store y.2) !! i = Some e' /\ ContractStatus e' = EdgeConfirmed.
Proof.
  intros Hgood Hg Hi He.
  destruct (grows_extends this later c Hc _ _ (good_reachable _ Hgood) (proj2 Hgood) Hg) as (Hext & _).
  destruct (ext_edge _ _ _ Hext _ _ Hi) as (e' & He' & _ & Hcf & _). exists e'. auto.
Qed.

Lemma turn_grows n : grows this later (chain_of n) (chain_of (turn n)).
Proof. apply others_grow, (proj2_sig n). Qed.

Lemma mine_grows tx n : grows this later (chain_of n) (chain_of (mine tx n)).
Proof. apply attempt_grows, (proj2_sig n). Qed.

Lemma call_grows {A} (m : M Node A) n : contract_call m -> grows this later (chain_of n) (chain_of (m n).2).
Proof.
  intros Hm. destruct Hm; try apply turn_grows.
  - cbn. unfold mbind, M_bind, dry, view. pose proof (turn_grows n). by destruct (attempt tx _).1.
  - cbn. etrans; [apply turn_grows|apply mine_grows].
Qed.

Lemma transaction_ok {A} (m : M (World R T) A) w : (transaction m w).1 = (m w).1.
Proof. unfold transaction. by destruct (m w) as [[]?]. Qed.

Lemma attempt_run tx call x : call_of tx = Some call -> encodable call = true ->
  (attempt tx x).1 = (run this x.1 me call x.2).1.
Proof. intros E1 E2. unfold attempt. rewrite E1, E2. apply transaction_ok. Qed.

Lemma node_laws : ContractLaws Node confirmed_on.
Proof.
  split.
  - intros A m Hm n i (e & He & Hcf). by apply (confirmed_grows (chain_of n) _ i e (proj2_sig n) (call_grows m n Hm)).
  - intros i n e n'. cbn. unfold view. intros [= He <-] Hcf. exists e. split; [|done].
    pose proof (good_reachable _ (proj2_sig (turn n))) as Hr. fold (chain_of (turn n)) in Hr.
    destruct (chain_of (turn n)) as [b w]. destruct (reachable_inv this _ _ _ Hc Hr) as [_ Hinv].
    by apply (get_ok_lookup _ _ _ Hinv).
  - intros tx n r n' i E Hs Hcf. destruct (confirms_call_of _ _ Hcf) as (call & E1 & E2 & E3).
    cbv [WaitMined node_contracts] in E. injection E as <- <-. revert Hs. generalize (turn n) as n1. clear n. intros n1 Hs.
    pose proof (good_reachable _ (proj2_sig n1)) as Hr. destruct (proj2_sig n1) as [_ Hb]. unfold confirmed_on, mine, chain_of at 1. cbn [proj1_sig fst snd].
    fold (chain_of n1) in Hr, Hb. destruct (chain_of n1) as [b w]. cbn [fst snd] in *.
    destruct (reachable_inv this _ _ _ Hc Hr) as [Es Hinv]. unfold receipt_of, attempt in *. rewrite E1, E3 in *.
    cbn [ReceiptStatus fst snd] in *. unfold transaction in *. destruct (run this b me call w) as [[[]| | |] w'] eqn:Er; try done.
    rewrite <- Es in Hinv. destruct (run_confirms this b me w Hb Hinv call i w' E2 Er) as (_ & _ & x & Hx & Est). cbn [snd].
    rewrite Est. cbn. rewrite lookup_insert_eq. by eexists.
Qed.

Lemma node_replays : replay_fails Node.
Proof.
  intros tx n r n1 n2 Hcf (g & m1 & m2 & m3 & HB & HE & HS & HW) Hs Hcall.
  destruct (confirms tx) as [i|] eqn:Ei; [|done]. destruct (confirms_call_of _ _ Ei) as (call & E1 & E2 & E3).
  cbv [BuildTx EstimateGas SendTx Commit WaitMined CallContract node_contracts dry view] in HB, HE, HS, HW, Hcall.
  injection HB as HB <-. injection HW as <- <-. injection Hcall as Hcall _. injection HS as <-.
  assert (m2 = turn (turn n)) as ->.
  { unfold mbind, M_bind in HE. destruct (attempt tx _).1 in HE; try done. by injection HE. }
  set (x := turn n) in *. set (y := turn (turn (turn (turn x)))) in *.
  rewrite (attempt_run _ _ _ E1 E3) in HB. rewrite (attempt_run _ _ _ E1 E3) in Hcall. unfold receipt_of in Hs. cbn [ReceiptStatus] in Hs.
  rewrite (attempt_run _ _ _ E1 E3) in Hs. destruct (proj2_sig x) as [Hr Hb].
  refine (confirmation_final this me later c Hc (chain_of x) (chain_of y) (chain_of (turn (mine tx y))) call i
    E2 Hr Hb _ _ HB _ Hcall).
  - do 3 (etrans; [apply turn_grows|]). apply turn_grows.
  - etrans; [apply mine_grows|apply turn_grows].
  - intros E. rewrite E in Hs. done.
Qed.

End node.
