(* ===== verification/EdgeTracker.v ===== *)
(** * Edge trackers

    [challenge-manager/edge-tracker]: one tracker follows one edge; its state
    machine decides at every tick whether to confirm, bisect, open a subchallenge
    or submit a one-step proof.  The chain, the watcher, the challenge manager and
    the state provider are an interface of effectful operations on a world [W]. *)

From S2P Require Import Prelude Bits PrefixProofs Containers Fsm InclusionProofs History Protocol Provider ChallengeTree Chain.

(** ** The states and actions of the machine *)

(** [State] is a [uint8]: [OtherState] are the values without a name. *)
Inductive State :=
| EdgeStarted
| EdgeAtOneStepProof
| EdgeAddingSubchallengeLeaf
| EdgeBisecting
| EdgeConfirming
| EdgeConfirmed
| OtherState (n : Z).

#[global] Instance State_eq_dec : EqDecision State.
Proof. solve_decision. Defined.

#[global] Instance State_string : Stringer State := fun s =>
  match s with
  | EdgeStarted => "started"
  | EdgeAtOneStepProof => "one_step_proof"
  | EdgeAddingSubchallengeLeaf => "adding_subchallenge_leaf"
  | EdgeBisecting => "bisecting"
  | EdgeConfirming => "confirming"
  | EdgeConfirmed => "confirmed"
  | OtherState _ => "invalid"
  end.

Inductive edgeTrackerAction :=
| edgeBackToStart
| edgeHandleOneStepProof
| edgeOpenSubchallengeLeaf
| edgeBisect
| edgeAwaitConfirmation
| edgeConfirm.

#[global] Instance edgeTrackerAction_string : Stringer edgeTrackerAction := fun a =>
  match a with
  | edgeBackToStart => "back_to_start"
  | edgeHandleOneStepProof => "check_one_step_proof"
  | edgeOpenSubchallengeLeaf => "open_subchallenge_leaf"
  | edgeBisect => "bisect"
  | edgeAwaitConfirmation => "await_confirmation"
  | edgeConfirm => "confirm"
  end.

Definition transitions : list (Event edgeTrackerAction State) := [
  {| Typ := edgeBackToStart;
     From := [EdgeBisecting; EdgeStarted; EdgeAtOneStepProof; EdgeAddingSubchallengeLeaf];
     To := EdgeStarted |};
  {| Typ := edgeHandleOneStepProof; From := [EdgeStarted]; To := EdgeAtOneStepProof |};
  {| Typ := edgeOpenSubchallengeLeaf; From := [EdgeStarted; EdgeAddingSubchallengeLeaf];
     To := EdgeAddingSubchallengeLeaf |};
  {| Typ := edgeBisect; From := [EdgeStarted]; To := EdgeBisecting |};
  {| Typ := edgeAwaitConfirmation;
     From := [EdgeStarted; EdgeBisecting; EdgeAddingSubchallengeLeaf; EdgeConfirming];
     To := EdgeConfirming |};
  {| Typ := edgeConfirm;
     From := [EdgeStarted; EdgeConfirming; EdgeConfirmed; EdgeAtOneStepProof];
     To := EdgeConfirmed |}
].

Abbreviation TrackerFsm := (Fsm edgeTrackerAction State).

Definition newEdgeTrackerFsm (startState : State) (fsmOpts : list (TrackerFsm -> TrackerFsm)) : TrackerFsm :=
  Fsm.New startState transitions fsmOpts.

(** ** Trackers *)

Definition errBadOneStepProof : error := Sentinel "edgetracker.errBadOneStepProof".
Definition errNotYetConfirmable : error := Sentinel "edgetracker.errNotYetConfirmable".

Record AssociatedAssertionMetadata := {
  MetaFromBatch : Z;
  MetaToBatch : Z;
  MetaWasmModuleRoot : Hash;
}.

(** The interfaces a tracker holds are the ones of [TrackerEnv] below. *)
Record Tracker := {
  edge : Edge;
  fsm : TrackerFsm;
  fsmOpts : list (TrackerFsm -> TrackerFsm);
  actInterval : Z;
  validatorName : string;
  associatedAssertionMetadata : AssociatedAssertionMetadata;
}.

Definition with_fsm (f : TrackerFsm) (et : Tracker) : Tracker := {|
  edge := edge et; fsm := f; fsmOpts := fsmOpts et; actInterval := actInterval et;
  validatorName := validatorName et; associatedAssertionMetadata := associatedAssertionMetadata et |}.
Definition WithActInterval (d : Z) (et : Tracker) : Tracker := {|
  edge := edge et; fsm := fsm et; fsmOpts := fsmOpts et; actInterval := d;
  validatorName := validatorName et; associatedAssertionMetadata := associatedAssertionMetadata et |}.
Definition WithValidatorName (name : string) (et : Tracker) : Tracker := {|
  edge := edge et; fsm := fsm et; fsmOpts := fsmOpts et; actInterval := actInterval et;
  validatorName := name; associatedAssertionMetadata := associatedAssertionMetadata et |}.
Definition WithFSMOpts (opts : list (TrackerFsm -> TrackerFsm)) (et : Tracker) : Tracker := {|
  edge := edge et; fsm := fsm et; fsmOpts := opts; actInterval := actInterval et;
  validatorName := validatorName et; associatedAssertionMetadata := associatedAssertionMetadata et |}.

(** The machine a tracker has before its options are applied: Go's is nil, and it
    is not used before it is replaced. *)
Definition no_fsm : TrackerFsm := {|
  trackingTransitions := false; transitionsExecuted := [];
  curr := {| SourceEvent := None; Fsm.State := OtherState 0 |};
  validEvents := ∅; validStates := ∅; validTransitions := ∅ |}.

Definition second : Z := 1000000000.

Definition New (e : Edge) (meta : AssociatedAssertionMetadata) (opts : list (Tracker -> Tracker))
    : res Tracker :=
  let tr := fold_left (fun tr o => o tr) opts {|
    edge := e; fsm := no_fsm; fsmOpts := []; actInterval := second; validatorName := "";
    associatedAssertionMetadata := meta |} in
  if actInterval tr =? 0 then Err (ErrNew "edge tracker act interval must be greater than 0")
  else Ok (with_fsm (newEdgeTrackerFsm EdgeStarted (fsmOpts tr)) tr).

(** A tracker for another edge with the configuration of this one. *)
Definition New_like (et : Tracker) (e : Edge) : res Tracker :=
  New e (associatedAssertionMetadata et)
    [WithActInterval (actInterval et); WithValidatorName (validatorName et); WithFSMOpts (fsmOpts et)].

(** ** What a tracker calls *)

(** What a tracker calls besides the chain. *)
Class TrackerEnv (W : Type) := {
  (* protocol.Protocol *)
  tracker_chain :: ChainEnv W;
  (* ConfirmationMetadataChecker *)
  ConfirmedEdgeWithClaimExists : AssertionHash -> ClaimIdT -> W -> option EdgeId;
  HonestPathTimer : AssertionHash -> EdgeId -> M W (Z * list EdgeId * list Z);
  ConfirmableAncestor : AssertionHash -> list Z -> Z -> M W bool;
  AddVerifiedHonestEdge : Edge -> M W unit;
  (* ChallengeTracker *)
  IsTrackingEdge : EdgeId -> W -> bool;
  MarkTrackedEdge : EdgeId -> W -> W;
  (* l2stateprovider.Provider *)
  EnvHistoryCommitment : HistoryCommitmentRequest -> M W History;
  EnvPrefixProof : HistoryCommitmentRequest -> Z -> M W (list Z);
  EnvOneStepProofData :
    Hash -> Z -> Z -> list Z -> Z -> Z -> M W (OneStepData * list Hash * list Hash);
  (* go tracker.Spawn(ctx) *)
  GoSpawn : Tracker -> W -> W;
}.

Section chain_checks.
Context {W : Type} `{ChainEnv W}.

Definition CanOneStepProve (e : Edge) : M W bool :=
  let start := fst (StartCommitment e) in
  let end_ := fst (EndCommitment e) in
  if end_ <=? start then fail (ErrNew "start height %d cannot be >= end height %d")
  else
    mret ((u64 (end_ - start) =? 1) && (GetChallengeLevel e =? u8 (GetTotalChallengeLevels e - 1))).

Definition ChildrenAreConfirmed (e : Edge) : M W bool :=
  lower ← LowerChildOf e;
  upper ← UpperChildOf e;
  match lower, upper with
  | Some lower, Some upper =>
      someLowerEdge ← GetEdge lower;
      someUpperEdge ← GetEdge upper;
      match someLowerEdge, someUpperEdge with
      | Some lowerEdge, Some upperEdge =>
          lowerStatus ← EdgeStatusOf lowerEdge;
          upperStatus ← EdgeStatusOf upperEdge;
          mret (bool_decide (lowerStatus = Protocol.EdgeConfirmed)
                && bool_decide (upperStatus = Protocol.EdgeConfirmed))
      | _, _ => mret false
      end
  | _, _ => mret false
  end.

End chain_checks.

Section tracker.
Context {W : Type} `{TrackerEnv W}.

(** Ignoring the error of a call that is only logged. *)
Definition log_error (m : M W unit) : M W unit := _ ← attempt m; mret tt.

Definition tryToConfirm (et : Tracker) : M W bool :=
  let e := edge et in
  status ← wrapM "could not get edge status" (EdgeStatusOf e);
  if bool_decide (status = Protocol.EdgeConfirmed) then mret true
  else
    '(hasConfirmedRival : bool) ←
      wrapM "could not check if edge has confirmed rival" (HasConfirmedRival e);
    if hasConfirmedRival then mret false
    else
      assertionHash ← wrapM "could not get prev assertion hash" (AssertionHashOf e);
      wrapM "could not get challenge manager" SpecChallengeManager ;;
      '(childrenConfirmed : bool) ←
        wrapM "could not check if children are confirmed" (ChildrenAreConfirmed e);
      if childrenConfirmed then
        wrapM "could not confirm by children" (ConfirmByChildren e) ;; mret true
      else
        w ← get;
        match ConfirmedEdgeWithClaimExists assertionHash (Id e) w with
        | Some claimingEdge =>
            wrapM "could not confirm by claim" (ConfirmByClaim e claimingEdge) ;; mret true
        | None =>
            path ← attempt (HonestPathTimer assertionHash (Id e));
            match path with
            | inr err =>
                if errors_is err ErrNoLowerChildYet then mret false
                else fail (ErrWrap err "could not compute honest path timer")
            | inl (timer, ancestors, _) =>
                chalPeriod ← wrapM "could not check the challenge period length" ChallengePeriodBlocks;
                if chalPeriod <=? timer then
                  wrapM "could not confirm by timer: got timer %d, chal period %d"
                    (ConfirmByTimer e ancestors) ;;
                  mret true
                else fail errNotYetConfirmable
            end
        end.

(** The commitment requests of a tracker differ in their heights only. *)
Definition request (et : Tracker) (upper : list Z) (upTo : option Z) : HistoryCommitmentRequest := {|
  ReqWasmModuleRoot := MetaWasmModuleRoot (associatedAssertionMetadata et);
  FromBatch := MetaFromBatch (associatedAssertionMetadata et);
  ToBatch := MetaToBatch (associatedAssertionMetadata et);
  UpperChallengeOriginHeights := upper;
  FromHeight := 0;
  UpToHeight := upTo;
|}.

Definition DetermineBisectionHistoryWithProof (et : Tracker) : M W (History * list Z) :=
  let startHeight := fst (StartCommitment (edge et)) in
  let endHeight := fst (EndCommitment (edge et)) in
  bisectTo ← lift (wrap_err "determining bisection point errored for %d and %d" (Bisect startHeight endHeight));
  if GetChallengeLevel (edge et) =? NewBlockChallengeLevel then
    historyCommit ← EnvHistoryCommitment (request et [] (Some bisectTo));
    proof ← EnvPrefixProof (request et [] (Some endHeight)) bisectTo;
    mret (historyCommit, proof)
  else
    challengeOriginHeights ← TopLevelClaimHeight (edge et);
    historyCommit ← wrapM "could not produce history commitment"
      (EnvHistoryCommitment (request et challengeOriginHeights (Some bisectTo)));
    proof ← wrapM "could not produce prefix proof"
      (EnvPrefixProof (request et challengeOriginHeights (Some endHeight)) bisectTo);
    mret (historyCommit, proof).

Definition bisect (et : Tracker) : M W (Edge * Edge) :=
  '(historyCommit, proof) ← DetermineBisectionHistoryWithProof et;
  '(firstChild, secondChild) ←
    wrapM "%s could not bisect to height=%d,commit=%s from height=%d,commit=%s"
      (BisectOnChain (edge et) (Merkle historyCommit) proof);
  log_error (AddVerifiedHonestEdge firstChild) ;;
  log_error (AddVerifiedHonestEdge secondChild) ;;
  mret (firstChild, secondChild).

(** The commitments a subchallenge leaf is made of. *)
Record LeafCommitments := {
  startHistory : History;
  endHistory : History;
  startParentCommitment : History;
  endParentCommitment : History;
  startEndPrefixProof : list Z;
}.

Definition block_level_leaf (et : Tracker) (fromBlockChallengeHeight : Z) : M W LeafCommitments :=
  endHistory ← wrapM "could not compute end history commitment"
    (EnvHistoryCommitment (request et [fromBlockChallengeHeight] None));
  startEndPrefixProof ← wrapM "could not compute prefix proof"
    (EnvPrefixProof (request et [fromBlockChallengeHeight] (Some (Height endHistory))) 0);
  startHistory ← EnvHistoryCommitment (request et [fromBlockChallengeHeight] (Some 0));
  endParentCommitment ← EnvHistoryCommitment (request et [] (Some (u64 (fromBlockChallengeHeight + 1))));
  startParentCommitment ← EnvHistoryCommitment (request et [] (Some fromBlockChallengeHeight));
  mret {| startHistory := startHistory; endHistory := endHistory;
          startParentCommitment := startParentCommitment; endParentCommitment := endParentCommitment;
          startEndPrefixProof := startEndPrefixProof |}.

(** [originHeights] and [heights[:len(heights)-1]] are the same heights. *)
Definition sub_level_leaf (et : Tracker) (originHeights : list Z) : M W LeafCommitments :=
  let startHeight := fst (StartCommitment (edge et)) in
  let endHeight := fst (EndCommitment (edge et)) in
  let heights := originHeights ++ [startHeight] in
  endHistory ← wrapM "could not compute child commitment with request %+v"
    (EnvHistoryCommitment (request et heights None));
  startEndPrefixProof ← wrapM "could not compute prefix proof for child with request %+v, up to height %d"
    (EnvPrefixProof (request et heights (Some (Height endHistory))) 0);
  startHistory ← wrapM "could not compute start history commitment with request %+v"
    (EnvHistoryCommitment (request et heights (Some 0)));
  endParentCommitment ← wrapM "could not compute end parent commitment with request %+v, end height %d"
    (EnvHistoryCommitment (request et (take (length heights - 1) heights) (Some endHeight)));
  startParentCommitment ← wrapM "could not compute start parent commitment with request %+v, start height %d"
    (EnvHistoryCommitment (request et (take (length heights - 1) heights) (Some startHeight)));
  mret {| startHistory := startHistory; endHistory := endHistory;
          startParentCommitment := startParentCommitment; endParentCommitment := endParentCommitment;
          startEndPrefixProof := startEndPrefixProof |}.

Definition leaf_commitments (et : Tracker) (originHeights : list Z) : M W LeafCommitments :=
  match originHeights with
  | [] => crash SliceIndexOutOfRange
  | fromBlockChallengeHeight :: _ =>
      if GetChallengeLevel (edge et) =? NewBlockChallengeLevel
      then block_level_leaf et fromBlockChallengeHeight
      else sub_level_leaf et originHeights
  end.

Definition openSubchallengeLeaf (et : Tracker) : M W unit :=
  originHeights ← wrapM "could not get top level claim height" (TopLevelClaimHeight (edge et));
  lc ← leaf_commitments et originHeights;
  SpecChallengeManager ;;
  addedLeaf ← AddSubChallengeLevelZeroEdge (edge et) (startHistory lc) (endHistory lc)
    (LastLeafProof (startParentCommitment lc)) (LastLeafProof (endParentCommitment lc))
    (startEndPrefixProof lc);
  log_error (AddVerifiedHonestEdge addedLeaf) ;;
  tracker ← lift (New_like et addedLeaf);
  modify (GoSpawn tracker).

Definition submitOneStepProof (et : Tracker) : M W unit :=
  originHeights ← wrapM "could not get top level claim height" (TopLevelClaimHeight (edge et));
  let pc := fst (StartCommitment (edge et)) in
  assertionHash ← AssertionHashOf (edge et);
  parentAssertionCreationInfo ← AssertionCreationInfo assertionHash;
  osp ← attempt (EnvOneStepProofData (WasmModuleRoot parentAssertionCreationInfo)
    (MetaFromBatch (associatedAssertionMetadata et)) (MetaToBatch (associatedAssertionMetadata et))
    originHeights 0 pc);
  match osp with
  | inr _ => fail (ErrWrap errBadOneStepProof "could not get one step data: %v")
  | inl (data, beforeStateInclusionProof, afterStateInclusionProof) =>
      SpecChallengeManager ;;
      wrapM "could not confirm one step proof against protocol"
        (ConfirmEdgeByOneStepProof (Id (edge et)) data beforeStateInclusionProof afterStateInclusionProof)
  end.

(** ** The step of a tracker: the world and the tracker's own machine *)

Definition fsm_do (event : edgeTrackerAction) : M (W * Tracker) unit := fun '(w, et) =>
  let '(r, f) := Do (fsm et) event in (r, (w, with_fsm f et)).

(** The errors of [tryToConfirm] are only logged. *)
Definition was_confirmed (et : Tracker) : M (W * Tracker) bool :=
  r ← attempt (chain (tryToConfirm et));
  mret (match r with inl wasConfirmed => wasConfirmed | inr _ => false end).

(** Two new trackers, both created before either is started. *)
Definition spawn_children (et : Tracker) (lowerChild upperChild : Edge) : M (W * Tracker) unit :=
  match New_like et lowerChild, New_like et upperChild with
  | Ok firstTracker, Ok secondTracker =>
      chain (modify (GoSpawn firstTracker)) ;; chain (modify (GoSpawn secondTracker)) ;; fsm_do edgeAwaitConfirmation
  | _, _ => fsm_do edgeBackToStart
  end.

Definition Act : M (W * Tracker) unit :=
  s ← get;
  let et := snd s in
  match Fsm.State (Current (fsm et)) with
  | EdgeStarted =>
      canOsp ← attempt (chain (CanOneStepProve (edge et)));
      match canOsp with
      | inr _ => fsm_do edgeBackToStart
      | inl true => fsm_do edgeHandleOneStepProof
      | inl false =>
          '(wasConfirmed : bool) ← was_confirmed et;
          if wasConfirmed then fsm_do edgeConfirm
          else
            '(hasRival : bool) ← wrapM "could not check presumptive" (chain (HasRival (edge et)));
            if negb hasRival then fsm_do edgeBackToStart
            else
              atOneStepFork ← attempt (chain (HasLengthOneRival (edge et)));
              match atOneStepFork with
              | inr _ => fsm_do edgeBackToStart
              | inl true => fsm_do edgeOpenSubchallengeLeaf
              | inl false => fsm_do edgeBisect
              end
      end
  | EdgeAtOneStepProof =>
      r ← attempt (chain (submitOneStepProof et));
      match r with
      | inr _ => fsm_do edgeBackToStart
      | inl _ => fsm_do edgeConfirm
      end
  | EdgeAddingSubchallengeLeaf =>
      r ← attempt (chain (openSubchallengeLeaf et));
      match r with
      | inr _ => fsm_do edgeBackToStart
      | inl _ => fsm_do edgeAwaitConfirmation
      end
  | EdgeBisecting =>
      r ← attempt (chain (bisect et));
      match r with
      | inr _ => fsm_do edgeBackToStart
      | inl (lowerChild, upperChild) => spawn_children et lowerChild upperChild
      end
  | EdgeConfirming =>
      '(wasConfirmed : bool) ← was_confirmed et;
      if wasConfirmed then fsm_do edgeConfirm else fsm_do edgeAwaitConfirmation
  | EdgeConfirmed => fsm_do edgeConfirm
  | OtherState _ => fail (ErrNew "invalid state: %s")
  end.

Definition ShouldDespawn (et : Tracker) : M W bool :=
  if bool_decide (Fsm.State (Current (fsm et)) = EdgeConfirmed) then mret true
  else
    hasConfirmedRival ← attempt (HasConfirmedRival (edge et));
    match hasConfirmedRival with
    | inr _ => mret false
    | inl true => mret true
    | inl false =>
        r ← attempt (
          assertionHash ← AssertionHashOf (edge et);
          '(_, _, ancestorLocalTimers) ← HonestPathTimer assertionHash (Id (edge et));
          SpecChallengeManager ;;
          challengePeriodBlocks ← ChallengePeriodBlocks;
          ConfirmableAncestor assertionHash ancestorLocalTimers challengePeriodBlocks);
        mret (match r with inl hasConfirmableAncestor => hasConfirmableAncestor | inr _ => false end)
    end.

(** ** The goroutine of a tracker

    A tick of the ticker or the end of the context, in the order they arrive. *)

Inductive signal := Tick | ContextDone.

Fixpoint spawn_loop (signals : list signal) : M (W * Tracker) unit :=
  match signals with
  | [] => mret tt
  | ContextDone :: _ => mret tt
  | Tick :: signals' =>
      s ← get;
      '(despawn : bool) ← chain (ShouldDespawn (snd s));
      if despawn then mret tt
      else _ ← attempt Act; spawn_loop signals'
  end.

Definition Spawn (signals : list signal) : M (W * Tracker) unit :=
  s ← get;
  let id := Id (edge (snd s)) in
  if IsTrackingEdge id (fst s) then mret tt
  else chain (modify (MarkTrackedEdge id)) ;; spawn_loop signals.

End tracker.
