(* ===== verification/EdgeTrackerSpec.v ===== *)
(** * What an edge tracker guarantees

    Its state machine never refuses a step it takes, moves only along the
    documented states, and reports an edge as confirmed only when the protocol does. *)

From S2P Require Import Prelude Bits PrefixProofs Containers Fsm MerkleSpec InclusionProofs History Protocol Provider ProviderSpec ChallengeTree Chain ChainSpec EdgeTracker.

(** ** The steps of the machine *)

(** The states [Act] may move to from a state. *)
Definition act_next (s : State) : list State :=
  match s with
  | EdgeStarted => [EdgeStarted; EdgeAtOneStepProof; EdgeConfirmed; EdgeAddingSubchallengeLeaf; EdgeBisecting]
  | EdgeAtOneStepProof => [EdgeStarted; EdgeConfirmed]
  | EdgeAddingSubchallengeLeaf => [EdgeStarted; EdgeConfirming]
  | EdgeBisecting => [EdgeStarted; EdgeConfirming]
  | EdgeConfirming => [EdgeConfirming; EdgeConfirmed]
  | EdgeConfirmed => [EdgeConfirmed]
  | OtherState n => [OtherState n]
  end.

Definition state_of (et : Tracker) : State := Fsm.State (Current (fsm et)).
Definition tracker_ok (et : Tracker) : Prop := has_table (fsm et) transitions.

Section steps.
Context {W : Type} `{TrackerEnv W}.

(** An event the table allows is carried out. *)
Lemma wp_fsm_do event to Q (w : W) (et : Tracker) :
  tracker_ok et ->
  table_step transitions (to_string event) (to_string (state_of et)) = Some to ->
  (forall f, has_table f transitions -> Fsm.State (Current f) = to -> Q (Ok tt) (w, with_fsm f et)) ->
  wp (fsm_do event) Q (w, et).
Proof.
  intros Hok Hstep HQ. unfold wp, fsm_do. pose proof (Do_has_table (fsm et) transitions event Hok) as Hok'.
  assert (E : Do (fsm et) event = (Ok tt, (Do (fsm et) event).2) /\
              Fsm.State (Current (Do (fsm et) event).2) = to).
  { unfold Do, Current. rewrite (Hok _ _). fold (Current (fsm et)) (state_of et). by rewrite Hstep. }
  destruct E as [E Es], (Do (fsm et) event) as [r f]. injection E as ->. by apply HQ.
Qed.

(** What a step of a tracker leaves behind: the same edge and configuration, and a
    machine with the same table. *)
Definition same_tracker (et et' : Tracker) : Prop :=
  exists f, et' = with_fsm f et /\ has_table f transitions.

(** A step that ends normally took an allowed transition; the only error a step
    returns is the failure to read the rivals, which leaves the machine alone. *)
Definition act_post (et : Tracker) (r : res unit) (s : W * Tracker) : Prop :=
  same_tracker et s.2 /\
  match r with
  | Ok _ => state_of s.2 ∈ act_next (state_of et)
  | Err e =>
      state_of s.2 = state_of et /\
      ((state_of et = EdgeStarted /\ exists cause, e = ErrWrap cause "could not check presumptive") \/
       (exists n, state_of et = OtherState n) /\ e = ErrNew "invalid state: %s")
  | _ => state_of s.2 = state_of et
  end.

Lemma same_tracker_refl et : tracker_ok et -> same_tracker et et.
Proof. exists (fsm et). split; [by destruct et|done]. Qed.

Lemma post_stop et w r :
  tracker_ok et -> (forall a, r <> Ok a) -> (forall e, r <> Err e) -> act_post et r (w, et).
Proof. intros Hok Ho He. split; [by apply same_tracker_refl|]. destruct r; [by destruct (Ho a)|by destruct (He e)|done|done]. Qed.

(** A transition to a state the specification allows ends the step. *)
Lemma wp_do event to (w : W) et :
  tracker_ok et ->
  table_step transitions (to_string event) (to_string (state_of et)) = Some to ->
  to ∈ act_next (state_of et) ->
  wp (fsm_do event) (act_post et) (w, et).
Proof.
  intros Hok Hstep Hin. eapply wp_fsm_do; [done|done|]. intros f Hf Hs.
  split; [by exists f|]. unfold state_of in *. cbn. by rewrite Hs.
Qed.

End steps.

(** Decides the transition named by an event in a known state. *)
Ltac step_to E :=
  eapply wp_do; [done|rewrite E; vm_compute; reflexivity|rewrite E; set_solver].

Section act.
Context {W : Type} `{TrackerEnv W}.

Lemma wp_spawn_children (w : W) et lower upper :
  tracker_ok et -> state_of et = EdgeBisecting ->
  wp (spawn_children et lower upper) (act_post et) (w, et).
Proof.
  intros Hok E. unfold spawn_children.
  destruct (New_like et lower); [|step_to E..]. destruct (New_like et upper); [|step_to E..].
  apply wp_bind, wp_chain. unfold wp at 1. cbn [modify fst snd].
  apply wp_bind, wp_chain. unfold wp at 1. cbn [modify fst snd]. step_to E.
Qed.

(** An environment call whose panic ends the step. *)
Lemma wp_try {A} (m : M W A) (w : W) et (k : A + error -> M (W * Tracker) unit) :
  tracker_ok et ->
  (forall r w', wp (k r) (act_post et) (w', et)) ->
  wp (attempt (chain m) ≫= k) (act_post et) (w, et).
Proof.
  intros Hok Hk. apply wp_bind, wp_attempt, wp_chain, wp_any.
  intros [a|e| |] w'; cbn [stopped]; auto; apply post_stop; done || by intros.
Qed.

Lemma wp_was_confirmed (w : W) et (k : bool -> M (W * Tracker) unit) :
  tracker_ok et ->
  (forall r w', wp (k r) (act_post et) (w', et)) ->
  wp (was_confirmed et ≫= k) (act_post et) (w, et).
Proof.
  intros Hok Hk. apply wp_bind. unfold was_confirmed. apply wp_bind, wp_attempt, wp_chain, wp_any.
  intros [a|e| |] w'; cbn [stopped]; [apply wp_ret..| |]; auto; apply post_stop; done || by intros.
Qed.

Lemma wp_Act (w : W) et : tracker_ok et -> wp Act (act_post et) (w, et).
Proof.
  intros Hok. unfold Act. apply wp_bind, wp_get. cbn [snd]. fold (state_of et).
  destruct (state_of et) eqn:E.
  - apply wp_try; [done|]. intros [[]|] w1; [step_to E| |step_to E].
    apply wp_was_confirmed; [done|]. intros [] w2; [step_to E|].
    apply wp_bind, wp_wrapM, wp_chain, wp_any. intros [hasRival|e| |] w3; cbn [wrap_err stopped].
    2: { split; [by apply same_tracker_refl|]. split; [done|]. left. split; [done|]. by exists e. }
    2-3: apply post_stop; done || by intros.
    destruct hasRival; cbn [negb]; [|step_to E].
    apply wp_try; [done|]. intros [[]|] w4; step_to E.
  - apply wp_try; [done|]. intros [|] w1; step_to E.
  - apply wp_try; [done|]. intros [|] w1; step_to E.
  - apply wp_try; [done|]. intros [[lower upper]|] w1; [by apply wp_spawn_children|step_to E].
  - apply wp_was_confirmed; [done|]. intros [] w1; step_to E.
  - step_to E.
  - apply wp_fail. split; [by apply same_tracker_refl|]. split; [done|]. right. eauto.
Qed.

(** (C24) A tracker's step never asks its machine for a transition the table lacks:
    whatever the chain, the watcher and the state provider answer, [Act] ends in a
    state the specification allows from the current one; the only error it returns
    is the failure to read the rivals of a started edge, and on an error or a panic
    the machine keeps its state.  The edge, the configuration and the table are
    untouched, a confirmed tracker stays confirmed and a confirming one only
    becomes confirmed. *)
Theorem Act_transitions (w : W) et :
  tracker_ok et ->
  let '(r, (w', et')) := Act (w, et) in
  tracker_ok et' /\ edge et' = edge et /\
  match r with
  | Ok _ => state_of et' ∈ act_next (state_of et)
  | Err e =>
      state_of et' = state_of et /\
      ((state_of et = EdgeStarted /\ exists cause, e = ErrWrap cause "could not check presumptive") \/
       (exists n, state_of et = OtherState n) /\ e = ErrNew "invalid state: %s")
  | _ => state_of et' = state_of et
  end.
Proof.
  intros Hok. pose proof (wp_Act w et Hok) as Hp. unfold wp in Hp.
  destruct (Act (w, et)) as [r [w' et']]. cbn [fst snd] in Hp.
  destruct Hp as [(f & E & Hf) Hr]. cbn in E. subst et'. split; [exact Hf|]. split; [reflexivity|]. by destruct r.
Qed.

End act.

(** ** Confirmed on chain *)

(** What a tracker asks of its environment: the promises of the chain, and that its
    other calls do not undo a confirmation. *)
Class ConfirmationLaws (W : Type) `{TrackerEnv W} (confirmed : W -> EdgeId -> Prop) : Prop := {
  tracker_chain_laws :: ChainConfirmationLaws W confirmed;
  keep_HonestPathTimer a id : preserves confirmed (HonestPathTimer a id);
  keep_ConfirmableAncestor a l p : preserves confirmed (ConfirmableAncestor a l p);
  keep_AddVerifiedHonestEdge e : preserves confirmed (AddVerifiedHonestEdge e);
  keep_HistoryCommitment req : preserves confirmed (EnvHistoryCommitment req);
  keep_PrefixProof req h : preserves confirmed (EnvPrefixProof req h);
  keep_OneStepProofData a b c d e f : preserves confirmed (EnvOneStepProofData a b c d e f);
  keep_MarkTrackedEdge id w i : confirmed w i -> confirmed (MarkTrackedEdge id w) i;
  keep_GoSpawn t w i : confirmed w i -> confirmed (GoSpawn t w) i;
}.

#[export] Hint Resolve keep_HonestPathTimer keep_ConfirmableAncestor keep_AddVerifiedHonestEdge
  keep_HistoryCommitment keep_PrefixProof keep_OneStepProofData tracker_chain_laws : keep.

Section confirmed.
Context {W : Type} `{TrackerEnv W} (confirmed : W -> EdgeId -> Prop).
Context `{!ConfirmationLaws W confirmed}.

Lemma keep_log_error m : preserves confirmed m -> preserves confirmed (log_error m).
Proof. intros Hm. unfold log_error. keep. Qed.
Lemma keep_CanOneStepProve e : preserves confirmed (CanOneStepProve e).
Proof. unfold CanOneStepProve. keep. Qed.
Lemma keep_tryToConfirm et : preserves confirmed (tryToConfirm et).
Proof. unfold tryToConfirm, ChildrenAreConfirmed. keep. Qed.
Lemma keep_submitOneStepProof et : preserves confirmed (submitOneStepProof et).
Proof. unfold submitOneStepProof. keep. Qed.
Lemma keep_bisect et : preserves confirmed (bisect et).
Proof. unfold bisect, DetermineBisectionHistoryWithProof, log_error. keep. Qed.
Lemma keep_openSubchallengeLeaf et : preserves confirmed (openSubchallengeLeaf et).
Proof.
  unfold openSubchallengeLeaf, leaf_commitments, block_level_leaf, sub_level_leaf, log_error. keep.
  apply keep_modify. intros w i. apply keep_GoSpawn.
Qed.

(** A successful attempt to confirm has confirmed. *)
Lemma tryToConfirm_confirms et w :
  wp (tryToConfirm et) (fun r w' => r = Ok true -> confirmed w' (Id (edge et))) w.
Proof.
  unfold tryToConfirm. apply wp_bind, wp_wrapM. unfold wp at 1.
  destruct (EdgeStatusOf (edge et) w) as [[st| | |] w1] eqn:Est; cbn; try done.
  case_bool_decide as Hs; [subst; intros _; by eapply status_truthful|].
  apply wp_bind, wp_wrapM, wp_any. intros [[]| | |] w2; cbn; try done.
  apply wp_bind, wp_wrapM, wp_any. intros [a| | |] w3; cbn; try done.
  apply wp_bind, wp_wrapM, wp_any. intros [[]| | |] w4; cbn; try done.
  apply wp_bind, wp_wrapM, wp_any. intros [[]| | |] w5; cbn; try done.
  { apply wp_bind, wp_wrapM. unfold wp. destruct (ConfirmByChildren (edge et) w5) as [[[]| | |] w6] eqn:Ec;
      cbn; try done. intros _. by eapply children_confirm. }
  apply wp_bind, wp_get. destruct (ConfirmedEdgeWithClaimExists a (Id (edge et)) w5) as [c|].
  { apply wp_bind, wp_wrapM. unfold wp. destruct (ConfirmByClaim (edge et) c w5) as [[[]| | |] w6] eqn:Ec;
      cbn; try done. intros _. by eapply claim_confirms. }
  apply wp_bind, wp_attempt, wp_any. intros [[[timer anc] tms]|e| |] w6; cbn; try done;
    [|by destruct (errors_is e ErrNoLowerChildYet)].
  apply wp_bind, wp_wrapM, wp_any. intros [period| | |] w7; cbn; try done.
  destruct (period <=? timer); [|done].
  apply wp_bind, wp_wrapM. unfold wp. destruct (ConfirmByTimer (edge et) anc w7) as [[[]| | |] w8] eqn:Ec;
    cbn; try done. intros _. by eapply timer_confirms.
Qed.

Lemma submitOneStepProof_confirms et w :
  wp (submitOneStepProof et) (fun r w' => r = Ok tt -> confirmed w' (Id (edge et))) w.
Proof.
  unfold submitOneStepProof. apply wp_bind, wp_wrapM, wp_any. intros [hs| | |] w1; cbn; try done.
  apply wp_bind, wp_any. intros [a| | |] w2; cbn; try done.
  apply wp_bind, wp_any. intros [info| | |] w3; cbn; try done.
  apply wp_bind, wp_attempt, wp_any. intros [[[d p] q]| | |] w4; cbn; try done.
  apply wp_bind, wp_any. intros [[]| | |] w5; cbn; try done.
  apply wp_wrapM. unfold wp. destruct (ConfirmEdgeByOneStepProof _ _ _ _ w5) as [[[]| | |] w6] eqn:Ec;
    cbn; try done. intros _. by eapply osp_confirms.
Qed.

(** The tracker's report is truthful. *)
Definition truthful (s : W * Tracker) : Prop :=
  tracker_ok s.2 /\ (state_of s.2 = EdgeConfirmed -> confirmed s.1 (Id (edge s.2))).

Lemma truthful_other (w w' : W) et :
  truthful (w, et) -> state_of et <> EdgeConfirmed -> truthful (w', et).
Proof. intros [Hok _] Hne. by split. Qed.

Lemma do_other event to (w : W) et :
  tracker_ok et -> table_step transitions (to_string event) (to_string (state_of et)) = Some to ->
  to <> EdgeConfirmed -> wp (fsm_do event) (fun _ => truthful) (w, et).
Proof.
  intros Hok Hstep Hne. eapply wp_fsm_do; [done|done|]. intros f Hf Hs. split; [done|].
  unfold state_of. cbn. by rewrite Hs.
Qed.

Lemma do_confirm event to (w : W) et :
  tracker_ok et -> table_step transitions (to_string event) (to_string (state_of et)) = Some to ->
  confirmed w (Id (edge et)) -> wp (fsm_do event) (fun _ => truthful) (w, et).
Proof. intros Hok Hstep Hc. eapply wp_fsm_do; [done|done|]. intros f Hf Hs. by split. Qed.

(** A call in a state that is not the confirmed one. *)
Lemma wp_call {A} (m : M W A) (w : W) et (P : res A -> W -> Prop) (k : A + error -> M (W * Tracker) unit) :
  truthful (w, et) -> state_of et <> EdgeConfirmed -> wp m P w ->
  (forall a w', P (Ok a) w' -> wp (k (inl a)) (fun _ => truthful) (w', et)) ->
  (forall e w', wp (k (inr e)) (fun _ => truthful) (w', et)) ->
  wp (attempt (chain m) ≫= k) (fun _ => truthful) (w, et).
Proof.
  intros Ht Hne Hm Hok Herr. apply wp_bind, wp_attempt, wp_chain. eapply wp_mono; [|exact Hm].
  intros [a|e| |] w' HP; cbn [stopped]; auto; by eapply truthful_other.
Qed.

Lemma wp_confirm_call (w : W) et (k : bool -> M (W * Tracker) unit) :
  truthful (w, et) -> state_of et <> EdgeConfirmed ->
  (forall w', confirmed w' (Id (edge et)) -> wp (k true) (fun _ => truthful) (w', et)) ->
  (forall w', wp (k false) (fun _ => truthful) (w', et)) ->
  wp (was_confirmed et ≫= k) (fun _ => truthful) (w, et).
Proof.
  intros Ht Hne Htrue Hfalse. apply wp_bind. unfold was_confirmed.
  apply wp_bind, wp_attempt, wp_chain. eapply wp_mono; [|apply tryToConfirm_confirms].
  intros [[]|e| |] w' HP; cbn [stopped]; [apply wp_ret; auto..| |]; by eapply truthful_other.
Qed.

Ltac other E := eapply do_other; [done|rewrite E; vm_compute; reflexivity|done].
Ltac confirm E := eapply do_confirm; [done|rewrite E; vm_compute; reflexivity|auto].

Lemma wp_Act_truthful (w : W) et : truthful (w, et) -> wp Act (fun _ => truthful) (w, et).
Proof.
  intros Ht. pose proof Ht as [Hok Hc]. cbn [fst snd] in *.
  unfold Act. apply wp_bind, wp_get. cbn [snd]. fold (state_of et).
  destruct (state_of et) eqn:E.
  - eapply (wp_call _ _ _ (fun _ _ => True)); [done|by rewrite E|by apply wp_any| |intros; other E].
    intros [] w1 _; [other E|].
    apply wp_confirm_call; [by eapply truthful_other; rewrite ?E|by rewrite E| |].
    { intros w2 Hc2. confirm E. }
    intros w2. apply wp_bind, wp_wrapM, wp_chain, wp_any. intros [r|e| |] w3; cbn [wrap_err stopped];
      [|eapply truthful_other; [done|by rewrite E]..].
    destruct r; cbn [negb]; [|other E].
    eapply (wp_call _ _ _ (fun _ _ => True));
      [by eapply truthful_other; rewrite ?E|by rewrite E|by apply wp_any| |intros; other E].
    intros [] w4 _; other E.
  - eapply (wp_call _ _ _ (fun r w' => r = Ok tt -> confirmed w' (Id (edge et))));
      [done|by rewrite E|apply submitOneStepProof_confirms| |intros; other E].
    intros [] w1 Hc1. confirm E.
  - eapply (wp_call _ _ _ (fun _ _ => True)); [done|by rewrite E|by apply wp_any| |intros; other E].
    intros [] w1 _. other E.
  - eapply (wp_call _ _ _ (fun _ _ => True)); [done|by rewrite E|by apply wp_any| |intros; other E].
    intros [lower upper] w1 _. unfold spawn_children.
    destruct (New_like et lower); [|other E..]. destruct (New_like et upper); [|other E..].
    apply wp_bind, wp_chain. unfold wp at 1. cbn [modify fst snd].
    apply wp_bind, wp_chain. unfold wp at 1. cbn [modify fst snd]. other E.
  - apply wp_confirm_call; [done|by rewrite E| |]; intros; [confirm E|other E].
  - confirm E.
  - by apply wp_fail.
Qed.

Lemma wp_spawn_loop (signals : list signal) : forall (w : W) et,
  truthful (w, et) -> wp (spawn_loop signals) (fun _ => truthful) (w, et).
Proof.
  induction signals as [|[] signals IH]; intros w et Ht; [done| |done]. cbn [spawn_loop].
  apply wp_bind, wp_get. cbn [snd]. apply wp_bind, wp_chain.
  assert (Hkeep : preserves confirmed (ShouldDespawn et)) by (unfold ShouldDespawn; keep).
  assert (Ht' : truthful ((ShouldDespawn et w).2, et)).
  { destruct Ht as [Hok Hc]. split; [done|]. intros E. apply Hkeep, Hc, E. }
  unfold wp at 1. destruct (ShouldDespawn et w) as [[[]| | |] w1]; cbn [fst snd stopped] in *; try done.
  apply wp_bind, wp_attempt. pose proof (wp_Act_truthful w1 et Ht') as Ha. unfold wp in Ha |- *.
  destruct (Act (w1, et)) as [[[]|e| |] [w2 et2]]; cbn [fst snd stopped] in *; try done; by apply IH.
Qed.

Lemma wp_Spawn_truthful signals (w : W) et : truthful (w, et) -> wp (Spawn signals) (fun _ => truthful) (w, et).
Proof.
  intros [Hok Hc]. unfold Spawn. apply wp_bind, wp_get. cbn [fst snd].
  destruct (IsTrackingEdge (Id (edge et)) w); [done|].
  apply wp_bind, wp_chain. unfold wp at 1. cbn [modify fst snd]. apply wp_spawn_loop.
  split; [done|]. intros E. cbn. apply keep_MarkTrackedEdge, Hc, E.
Qed.

(** A tracker reports an edge confirmed only when it is: on any chain whose
    confirmation calls confirm and whose status reads are truthful, whatever the
    signals a tracker goroutine receives and whatever every other call answers, a
    tracker that starts out truthful is truthful when its goroutine ends: if its
    machine is in the confirmed state, its edge is confirmed on chain. *)
Theorem Spawn_truthful signals (w : W) et :
  tracker_ok et -> (state_of et = EdgeConfirmed -> confirmed w (Id (edge et))) ->
  let '(r, (w', et')) := Spawn signals (w, et) in
  state_of et' = EdgeConfirmed -> confirmed w' (Id (edge et')).
Proof.
  intros Hok Hc. pose proof (wp_Spawn_truthful signals w et (conj Hok Hc)) as Hw.
  unfold wp in Hw. destruct (Spawn signals (w, et)) as [r [w' et']]. apply Hw.
Qed.

End confirmed.

(** ** Trackers over the history commitment provider *)

Section with_provider.
Context {W : Type} `{TrackerEnv W} `{Hasher} `{!HasherNonzero}.
Variable p : HistoryCommitmentProvider.

(** The state provider of the environment is the provider [p]. *)
Definition uses_provider : Prop :=
  (forall req, EnvHistoryCommitment req = lift (HistoryCommitment p req)) /\
  (forall req h, EnvPrefixProof req h = lift (PrefixProof p req h)).

(** The provider's leaves for the requests of a tracker: one list of which a request
    up to a height takes a prefix. *)
Definition leaves_for (et : Tracker) (upper leaves : list Hash) : Prop :=
  forall h, 0 <= h < len leaves ->
    historyCommitmentImpl p (request et upper (Some h)) = Ok (take (Z.to_nat (h + 1)) leaves).

Lemma bisection_commit et upper leaves start end_ m :
  schedules_ok p -> leaves_for et upper leaves ->
  0 <= start -> start < m < end_ -> end_ < len leaves -> len leaves < 2 ^ 63 ->
  exists hc onlyProof,
    HistoryCommitment p (request et upper (Some m)) = Ok hc /\ Height hc = m /\
    Merkle hc = merkle (hash_leaf <$> take (Z.to_nat (m + 1)) leaves) /\
    PrefixProof p (request et upper (Some end_)) m =
      PackProofArgs p (expansion_of (hash_leaf <$> take (Z.to_nat (m + 1)) leaves)) onlyProof /\
    VerifyPrefixProof {|
      PreRoot := Merkle hc; PreSize := m + 1;
      PostRoot := merkle (hash_leaf <$> take (Z.to_nat (end_ + 1)) leaves); PostSize := end_ + 1;
      PreExpansion := expansion_of (hash_leaf <$> take (Z.to_nat (m + 1)) leaves);
      PrefixProofs.PrefixProof := onlyProof |} = Ok tt.
Proof.
  intros Hs Hl H0s Hm Hend Hlt. change (2 ^ 63) with 9223372036854775808 in *.
  pose proof (Hl m ltac:(lia)) as Em. pose proof (Hl end_ ltac:(lia)) as Ee.
  assert (Lm : len (take (Z.to_nat (m + 1)) leaves) = m + 1) by (unfold len in *; rewrite length_take; lia).
  assert (Le : len (take (Z.to_nat (end_ + 1)) leaves) = end_ + 1) by (unfold len in *; rewrite length_take; lia).
  destruct (New_commitment_spec p (take (Z.to_nat (m + 1)) leaves)) as (hc & Ehc & (Hh & Hmk & _)).
  { done. } { intros E. rewrite E in Lm. unfold len in Lm. simpl in Lm. lia. } { unfold two64. lia. }
  destruct (PrefixProof_succeeds p (request et upper (Some end_)) m _ (end_ + 1) Hs Ee)
    as (onlyProof & Epp & Hv); [|cbn; lia|cbn; lia|lia|lia|].
  { change (2 ^ 63) with 9223372036854775808. lia. }
  rewrite take_take, Nat.min_l in Epp, Hv by lia. rewrite take_take, Nat.min_l in Hv by lia.
  exists hc, onlyProof. unfold HistoryCommitment. rewrite Em. cbn [mbind res_bind].
  split_and!; [done|lia|done|done|]. by rewrite Hmk.
Qed.

(** A tracker can always produce its bisection: for an edge of length at least
    two over a provider that has the leaves of its level, the bisection point lies
    strictly inside the edge, the history committed to is the prefix of the
    validator's leaves up to it, and the prefix proof is found and accepted by the
    verifier against the root at the end of the edge; only the ABI encoding of
    the proof is left to fail. *)
Theorem bisection_succeeds (w : W) et upper leaves :
  uses_provider -> schedules_ok p -> leaves_for et upper leaves ->
  let start := fst (StartCommitment (edge et)) in
  let end_ := fst (EndCommitment (edge et)) in
  0 <= start -> start + 2 <= end_ -> end_ < len leaves -> len leaves < 2 ^ 63 ->
  (if GetChallengeLevel (edge et) =? 0 then upper = []
   else TopLevelClaimHeight (edge et) w = (Ok upper, w)) ->
  (forall pre proof, exists bytes, PackProofArgs p pre proof = Ok bytes) ->
  exists m hc bytes,
    start < m < end_ /\
    DetermineBisectionHistoryWithProof et w = (Ok (hc, bytes), w) /\
    Height hc = m /\ Merkle hc = merkle (hash_leaf <$> take (Z.to_nat (m + 1)) leaves).
Proof.
  intros Hup Hs Hl start end_ H0s Hlen Hend Hlt Hheights Hpack.
  assert (Hb : is_u64 start /\ is_u64 end_ /\ start + 2 < two64).
  { change (2 ^ 63) with 9223372036854775808 in *. unfold is_u64, two64. lia. }
  destruct Hb as (Hu1 & Hu2 & Hu3).
  pose proof (Bisect_eq start end_ Hu1 Hu2 Hu3 Hlen) as Eb. set (m := bisection_point start end_) in *.
  pose proof (Bisect_inside start end_ m Hu1 Hu2 Hu3 Eb) as Hm.
  destruct (bisection_commit et upper leaves start end_ m Hs Hl H0s Hm Hend Hlt)
    as (hc & onlyProof & Ehc & Hh & Hmk & Epp & _).
  destruct (Hpack (expansion_of (hash_leaf <$> take (Z.to_nat (m + 1)) leaves)) onlyProof) as [bytes Ebytes].
  exists m, hc, bytes. split; [done|]. split; [|done]. destruct Hup as [Hh1 Hh2].
  unfold DetermineBisectionHistoryWithProof. fold start end_. rewrite Eb.
  unfold mbind, M_bind, lift at 1, wrap_err at 1. change NewBlockChallengeLevel with 0.
  destruct (GetChallengeLevel (edge et) =? 0).
  - subst upper. rewrite Hh1, Hh2, Ehc, Epp, Ebytes. done.
  - rewrite Hheights. unfold wrapM. rewrite Hh1, Hh2, Ehc, Epp, Ebytes. done.
Qed.

(** The leaf a tracker opens below the block level fits the edge it claims: for
    an edge of length one, with collectors that step machines as documented, the
    first leaf of the new subchallenge is the leaf of the claimed edge at its start
    height and the last one its leaf at its end height, which is what the inclusion
    proofs sent along attest. *)
Theorem subchallenge_leaf_fits machine_hash (w w' : W) et b rest lc :
  uses_provider -> schedules_ok p -> heights_ok p -> len (challengeLeafHeights p) < two64 ->
  collector_spec p machine_hash -> origins_ok p (b :: rest) ->
  0 <= fst (StartCommitment (edge et)) ->
  fst (EndCommitment (edge et)) = fst (StartCommitment (edge et)) + 1 ->
  sub_level_leaf et (b :: rest) w = (Ok lc, w') ->
  FirstLeaf (startHistory lc) = LastLeaf (startParentCommitment lc) /\
  FirstLeaf (startHistory lc) = FirstLeaf (endHistory lc) /\
  LastLeaf (endHistory lc) = LastLeaf (endParentCommitment lc).
Proof.
  intros [Hh1 Hh2] Hs Hok Hlen Hcol Hor Hs0 Hend Hrun. revert Hrun. unfold sub_level_leaf.
  set (s := fst (StartCommitment (edge et))) in *.
  unfold mbind, M_bind, wrapM. rewrite !Hh1. unfold lift.
  replace (take (length ((b :: rest) ++ [s]) - 1) ((b :: rest) ++ [s])) with (b :: rest).
  2: { rewrite length_app. cbn [length]. rewrite Nat.add_sub. symmetry. apply (take_app_length (b :: rest)). }
  destruct (HistoryCommitment p (request et ((b :: rest) ++ [s]) None)) as [eh| | |] eqn:E1; try done.
  cbn [wrap_err]. rewrite Hh2. unfold lift.
  destruct (PrefixProof p _ _) as [pp| | |]; try done. cbn [wrap_err].
  destruct (HistoryCommitment p (request et ((b :: rest) ++ [s]) (Some 0))) as [sh| | |] eqn:E2; try done.
  cbn [wrap_err]. rewrite !Hend.
  destruct (HistoryCommitment p (request et (b :: rest) (Some (s + 1)))) as [ep| | |] eqn:E3; try done.
  cbn [wrap_err].
  destruct (HistoryCommitment p (request et (b :: rest) (Some s))) as [sp| | |] eqn:E4; try done.
  cbn [wrap_err]. intros [= <- _]. cbn.
  assert (Hv : forall u o, (forall e, o = Some e -> 0 <= e) -> origins_ok p u -> valid_request p (request et u o)).
  { intros u o Ho Hu. split_and!; [done|exact Ho|exact Hu]. }
  apply (HistoryCommitment_leaves p machine_hash _ b rest) in E3; try done; [|apply Hv; [intros ? [= <-]; lia|done]].
  apply (HistoryCommitment_leaves p machine_hash _ b rest) in E4; try done; [|apply Hv; [by intros ? [= <-]|done]].
  destruct E3 as (l3 & El3 & Hl3 & _ & _ & L3), E4 as (l4 & El4 & _ & _ & _ & L4). cbn [UpToHeight request default] in Hl3.
  assert (Hor' : origins_ok p (b :: rest ++ [s])).
  { apply (origins_ok_snoc p (b :: rest) s l3); [done|done|simpl in Hl3; lia]. }
  apply (HistoryCommitment_leaves p machine_hash _ b (rest ++ [s])) in E1; try done.
  apply (HistoryCommitment_leaves p machine_hash _ b (rest ++ [s])) in E2;
    try done; [|apply Hv; [by intros ? [= <-]|done]].
  destruct E1 as (l1 & El1 & _ & _ & F1 & L1), E2 as (l2 & El2 & _ & _ & F2 & _).
  cbn [UpToHeight request default ReqWasmModuleRoot FromBatch id] in *.
  assert (Hclh : challengeLeafHeights p <> []) by (by intros E; rewrite E in El3).
  change (b :: rest ++ [s]) with ((b :: rest) ++ [s]) in *.
  rewrite F2, F1, L1, L3, L4. split_and!; [|done|]; f_equal.
  - rewrite machine_index_sub by done. lia.
  - rewrite machine_index_sub, (machine_index_step p (b :: rest) s),
      (machine_index_step p (b :: rest) (s + 1)) by done.
    rewrite length_app, Nat.add_1_r in El1. rewrite (step_of_next p _ _ El1). ring.
Qed.

End with_provider.

(** ** Witnesses: a chain that is the set of its confirmed edges *)

Definition confirm_in (id : EdgeId) : M (gset EdgeId) unit := modify (fun w => {[id]} ∪ w).

#[local] Instance toy_chain : ChainEnv (gset EdgeId) := {|
  HasRival := fun _ => mret true;
  HasLengthOneRival := fun _ => mret false;
  HasConfirmedRival := fun _ => mret false;
  EdgeStatusOf := fun e w =>
    (Ok (if bool_decide (Id e ∈ w) then Protocol.EdgeConfirmed else EdgePending), w);
  AssertionHashOf := fun _ => mret 55;
  TopLevelClaimHeight := fun _ => mret [3];
  LowerChildOf := fun _ => mret None;
  UpperChildOf := fun _ => mret None;
  GetTotalChallengeLevels := fun _ => 3;
  BisectOnChain := fun e _ _ => mret (e, e);
  ConfirmByTimer := fun e _ => confirm_in (Id e);
  ConfirmByClaim := fun e _ => confirm_in (Id e);
  ConfirmByChildren := fun e => confirm_in (Id e);
  SpecChallengeManager := mret tt;
  GetEdge := fun _ => mret None;
  ChallengePeriodBlocks := mret 20;
  AddSubChallengeLevelZeroEdge := fun e _ _ _ _ _ => mret e;
  ConfirmEdgeByOneStepProof := fun id _ _ _ => confirm_in id;
  AssertionCreationInfo := fun _ => fail (ErrNew "no assertion");
  AddBlockChallengeLevelZeroEdge := fun _ _ _ _ => fail (ErrNew "no assertion");
  IsChallengeComplete := fun _ => mret false;
  ConfirmAssertionByChallengeWinner := fun _ _ => mret tt;
  LatestConfirmed := mret 1;
  AssertionCreatedAtBlock := fun _ => mret 1;
  HeaderByNumber := mret 30;
|}.

#[local] Instance toy_env : TrackerEnv (gset EdgeId) := {|
  tracker_chain := toy_chain;
  ConfirmedEdgeWithClaimExists := fun _ _ _ => None;
  HonestPathTimer := fun _ _ => mret (20, [], []);
  ConfirmableAncestor := fun _ _ _ => mret false;
  AddVerifiedHonestEdge := fun _ => mret tt;
  IsTrackingEdge := fun _ _ => false;
  MarkTrackedEdge := fun _ w => w;
  EnvHistoryCommitment := fun req => lift (@HistoryCommitment toy_keccak toy_provider req);
  EnvPrefixProof := fun req h => lift (@PrefixProof toy_keccak toy_provider req h);
  EnvOneStepProofData := fun a b c d e f => lift (@OneStepProofData toy_keccak toy_provider a b c d e f);
  GoSpawn := fun _ w => w;
|}.

Lemma keep_confirm_in id : preserves (fun w i => i ∈ w) (confirm_in id).
Proof. intros w i Hi. cbn. set_solver. Qed.

#[local] Instance toy_laws : ConfirmationLaws (gset EdgeId) (fun w i => i ∈ w).
Proof.
  split; [split|..]; try (by intros; intros w i); try (intros; apply keep_confirm_in);
    try (by intros; cbn); cbn; unfold confirm_in, modify.
  - intros e w w' E. injection E as E ->. by case_bool_decide.
  - intros e l w w' [= <-]. set_solver.
  - intros e c w w' [= <-]. set_solver.
  - intros e w w' [= <-]. set_solver.
  - intros id d p q w w' [= <-]. set_solver.
Qed.

Definition toy_edge (level s e : Z) : Edge := {|
  Id := 9; GetChallengeLevel := level; GetReversedChallengeLevel := 2 - level;
  StartCommitment := (s, 1); EndCommitment := (e, 2); CreatedAtBlock := Ok 1; MutualId := 3;
  OriginId := 4; ClaimId := None |}.

Definition toy_tracker (e : Edge) : Tracker := {|
  edge := e; fsm := newEdgeTrackerFsm EdgeStarted []; fsmOpts := []; actInterval := second;
  validatorName := ""; associatedAssertionMetadata :=
    {| MetaFromBatch := 1; MetaToBatch := 2; MetaWasmModuleRoot := 7 |} |}.

Lemma toy_tracker_ok e : tracker_ok (toy_tracker e).
Proof. intros k src. apply New_transitions. Qed.

Lemma Act_transitions_witness :
  let '(r, (w', et')) := Act ((∅ : gset EdgeId), toy_tracker (toy_edge 0 0 4)) in
  tracker_ok et' /\ edge et' = toy_edge 0 0 4 /\
  match r with
  | Ok _ => state_of et' ∈ act_next EdgeStarted
  | Err e =>
      state_of et' = EdgeStarted /\
      ((EdgeStarted = EdgeStarted /\ exists cause, e = ErrWrap cause "could not check presumptive") \/
       (exists n, EdgeStarted = OtherState n) /\ e = ErrNew "invalid state: %s")
  | _ => state_of et' = EdgeStarted
  end.
Proof. apply (Act_transitions (∅ : gset EdgeId) (toy_tracker (toy_edge 0 0 4))), toy_tracker_ok. Defined.

Lemma Spawn_truthful_witness :
  let '(r, (w', et')) := Spawn [Tick; Tick] ((∅ : gset EdgeId), toy_tracker (toy_edge 0 0 4)) in
  state_of et' = EdgeConfirmed -> Id (edge et') ∈ w'.
Proof.
  apply (Spawn_truthful (fun w i => i ∈ w) [Tick; Tick] ∅ (toy_tracker (toy_edge 0 0 4)));
    [apply toy_tracker_ok|by vm_compute].
Defined.

Lemma bisection_succeeds_witness :
  exists m hc bytes,
    0 < m < 4 /\
    DetermineBisectionHistoryWithProof (toy_tracker (toy_edge 0 0 4)) (∅ : gset EdgeId) = (Ok (hc, bytes), ∅) /\
    Height hc = m /\
    Merkle hc = @merkle toy_keccak (@hash_leaf toy_keccak <$> take (Z.to_nat (m + 1)) [500; 501; 502; 503; 504]).
Proof.
  apply (@bisection_succeeds (gset EdgeId) toy_env toy_keccak toy_nonzero toy_provider ∅
    (toy_tracker (toy_edge 0 0 4)) [] [500; 501; 502; 503; 504]); try done.
  - exact (toy_schedules_ok).
  - intros h Hh. unfold len in Hh. simpl in Hh.
    assert (h = 0 \/ h = 1 \/ h = 2 \/ h = 3 \/ h = 4) as [->|[->|[->|[->| ->]]]] by lia; reflexivity.
  - intros pre proof. eexists. reflexivity.
Defined.

Lemma subchallenge_leaf_fits_witness :
  exists lc,
    @sub_level_leaf _ toy_env (toy_tracker (toy_edge 1 2 3)) [3] ∅ = (Ok lc, ∅) /\
    FirstLeaf (startHistory lc) = LastLeaf (startParentCommitment lc) /\
    FirstLeaf (startHistory lc) = FirstLeaf (endHistory lc) /\
    LastLeaf (endHistory lc) = LastLeaf (endParentCommitment lc).
Proof.
  eexists. split; [vm_compute; reflexivity|].
  eapply (@subchallenge_leaf_fits (gset EdgeId) toy_env toy_keccak toy_nonzero toy_provider toy_machine ∅ ∅
    (toy_tracker (toy_edge 1 2 3)) 3 []); try done.
  - exact toy_schedules_ok.
  - exact toy_heights_ok.
  - by intros [|[|i]] h; try lia.
Defined.
