(* ===== verification/Watcher.v ===== *)
(** * The chain watcher

    [challenge-manager/chain-watcher/watcher.go]: the service that scans the chain
    for edge creations and confirmations, keeps one honest challenge tree per
    challenged assertion, and answers the questions of the edge trackers. *)

From S2P Require Import Prelude Bits PrefixProofs Containers Protocol Provider ChallengeTree Chain Runtime EdgeTracker.

Record trackedChallenge := {
  honestEdgeTree : HonestChallengeTree;
  confirmedLevelZeroEdgeClaimIds : gmap ClaimIdT EdgeId;
}.

(** The interfaces a watcher holds are the ones of [WatcherEnv] below.  A tracked
    challenge is reachable only through its entry, so that an update through the
    pointer is an update of the entry. *)
Record Watcher := {
  pollEventsInterval : Z;
  challenges : gmap AssertionHash trackedChallenge;
  numBigStepLevels : Z;
  initialSyncCompleted : bool;
}.

Definition with_challenges (c : gmap AssertionHash trackedChallenge) (s : Watcher) : Watcher := {|
  pollEventsInterval := pollEventsInterval s; challenges := c;
  numBigStepLevels := numBigStepLevels s; initialSyncCompleted := initialSyncCompleted s |}.
Definition with_synced (s : Watcher) : Watcher := {|
  pollEventsInterval := pollEventsInterval s; challenges := challenges s;
  numBigStepLevels := numBigStepLevels s; initialSyncCompleted := true |}.

Definition New (interval numBigStepLevels : Z) : res Watcher :=
  if interval =? 0 then Err (ErrNew "chain watcher polling interval must be greater than 0")
  else Ok {| pollEventsInterval := interval; challenges := Map.NewMap;
             numBigStepLevels := numBigStepLevels; initialSyncCompleted := false |}.

(** ** What a watcher calls *)

(** A step of an event iterator: its error and the edge id of its event. *)
Abbreviation EventIterator := (list (option error * EdgeId)).

Class WatcherEnv (W : Type) := {
  watcher_chain :: ChainEnv W;
  watcher_ctx :: Runtime.Context W;
  (* what the challenge trees read from the chain and the history checker *)
  view : W -> ChainView;
  (* EdgeManager *)
  TrackEdge : Edge -> M W unit;
  (* challengeV2gen.EdgeChallengeManagerFilterer *)
  NewEdgeChallengeManagerFilterer : M W unit;
  FilterEdgeAdded : Z -> Z -> M W EventIterator;
  FilterEdgeConfirmedByOneStepProof : Z -> Z -> M W EventIterator;
  FilterEdgeConfirmedByTime : Z -> Z -> M W EventIterator;
  FilterEdgeConfirmedByChildren : Z -> Z -> M W EventIterator;
  FilterEdgeConfirmedByClaim : Z -> Z -> M W EventIterator;
}.

(** ** Queries that only read the watcher *)

Definition HonestBlockChallengeRootEdge (assertionHash : AssertionHash) (s : Watcher) : res Edge :=
  match Map.TryGet assertionHash (challenges s) with
  | None => Err (ErrNew "no challenge for assertion hash %#x")
  | Some chal => ChallengeTree.HonestBlockChallengeRootEdge (honestEdgeTree chal)
  end.

Definition ConfirmedEdgeWithClaimExists (topLevelAssertionHash : AssertionHash) (claimId : ClaimIdT)
    (s : Watcher) : option EdgeId :=
  match Map.TryGet topLevelAssertionHash (challenges s) with
  | None => None
  | Some challenge => Map.TryGet claimId (confirmedLevelZeroEdgeClaimIds challenge)
  end.

Definition IsSynced (s : Watcher) : bool := initialSyncCompleted s.

(** The maps are iterated in the order of [map_to_list]; Go leaves it open. *)
Definition GetHonestEdges (s : Watcher) : list Edge :=
  snd (Map.ForEach (fun _ t =>
         Map.ForEach (fun _ edge => modify (fun syncEdges => syncEdges ++ [edge]))
           (map_to_list (GetEdges (honestEdgeTree t))))
       (map_to_list (challenges s)) []).

Section watcher.
Context {W : Type} `{WatcherEnv W}.
(** The bound on the number of calls a retry loop makes. *)
Context (retries : nat).

Abbreviation WM := (M (W * Watcher)).

#[local] Instance watcher_context : Runtime.Context (W * Watcher) := {|
  ContextErr := fun s => ContextErr (fst s);
  Sleep := fun d s => (Sleep d (fst s), snd s);
|}.

Definition self : WM Watcher := s ← get; mret (snd s).
Definition update (f : Watcher -> Watcher) : WM unit := modify (fun s => (fst s, f (snd s))).

(** Calling a method of the tree of a tracked challenge through its pointer. *)
Definition with_tree {A} (h : AssertionHash) (chal : trackedChallenge) (m : TreeM A) : WM A :=
  fun '(w, s) =>
    let '(r, t') := m (honestEdgeTree chal) in
    (r, (w, with_challenges
      (<[h := {| honestEdgeTree := t';
                 confirmedLevelZeroEdgeClaimIds := confirmedLevelZeroEdgeClaimIds chal |}]> (challenges s)) s)).

Definition current_view : WM ChainView := s ← get; mret (view (fst s)).

(** ** Timers *)

Definition errNoChallenge : error := ErrNew "could not get challenge for top level assertion %#x".

Definition ComputeHonestPathTimerByBlockNumber (topLevelAssertionHash : AssertionHash) (edgeId : EdgeId)
    (blockNumber : Z) : WM (Z * list EdgeId * list Z) :=
  s ← self;
  match Map.TryGet topLevelAssertionHash (challenges s) with
  | None => fail errNoChallenge
  | Some chal =>
      v ← current_view;
      '(pathTimer, response) ← with_tree topLevelAssertionHash chal (
        response ← ComputeAncestorsWithTimers v edgeId blockNumber;
        pathTimer ← ComputeHonestPathTimer v edgeId (AncestorLocalTimers response) blockNumber;
        mret (pathTimer, response));
      mret (pathTimer, AncestorEdgeIds response, AncestorLocalTimers response)
  end.

Definition ComputeHonestPathTimer (topLevelAssertionHash : AssertionHash) (edgeId : EdgeId)
    : WM (Z * list EdgeId * list Z) :=
  number ← chain HeaderByNumber;
  if negb (IsUint64 number) then fail (ErrNew "latest block header number is not a uint64")
  else ComputeHonestPathTimerByBlockNumber topLevelAssertionHash edgeId number.

Definition HasConfirmableAncestor (topLevelAssertionHash : AssertionHash) (ancestorLocalTimers : list Z)
    (challengePeriodBlocks : Z) : WM bool :=
  s ← self;
  match Map.TryGet topLevelAssertionHash (challenges s) with
  | None => fail errNoChallenge
  | Some chal =>
      v ← current_view;
      with_tree topLevelAssertionHash chal
        (ChallengeTree.HasConfirmableAncestor v ancestorLocalTimers challengePeriodBlocks)
  end.

(** ** Adding edges *)

(** [w.challenges.TryGet(h)], with a new challenge put when there is none. *)
Definition get_or_create (h : AssertionHash) : WM trackedChallenge :=
  s ← self;
  match Map.TryGet h (challenges s) with
  | Some chal => mret chal
  | None =>
      let tree := ChallengeTree.New h (numBigStepLevels s) in
      let chal := {| honestEdgeTree := tree; confirmedLevelZeroEdgeClaimIds := Map.NewMap |} in
      update (fun s => with_challenges (Map.Put h chal (challenges s)) s) ;;
      mret chal
  end.

Definition AddVerifiedHonestEdge (edge : Edge) : WM unit :=
  assertionHash ← chain (AssertionHashOf edge);
  chal ← get_or_create assertionHash;
  wrapM "could not add honest edge to challenge tree"
    (with_tree assertionHash chal (AddHonestEdge edge)).

Definition AddEdge (edge : Edge) : WM unit :=
  challengeParentAssertionHash ← chain (AssertionHashOf edge);
  '(challengeComplete : bool) ←
    wrapM "could not check if edge with parent assertion hash %#x is part of a completed challenge"
      (chain (IsChallengeComplete challengeParentAssertionHash));
  if challengeComplete then mret tt
  else
    chal ← get_or_create challengeParentAssertionHash;
    v ← current_view;
    agreement ← attempt (with_tree challengeParentAssertionHash chal (ChallengeTree.AddEdge v edge));
    match agreement with
    | inr err =>
        if negb (errors_is err ErrAlreadyBeingTracked)
        then fail (ErrWrap err "could not add edge to challenge tree")
        else mret tt
    | inl agreement => if IsHonestEdge agreement then chain (TrackEdge edge) else mret tt
    end.

(** ** Events *)

(** The body of [GetEdge], [getEdgeFromEvent] and the start of the event handlers. *)
Definition fetch_edge (msg : string) (edgeId : EdgeId) : WM Edge :=
  chain SpecChallengeManager ;;
  edgeOpt ← chain (GetEdge edgeId);
  match edgeOpt with
  | None => fail (ErrNew msg)
  | Some edge => mret edge
  end.

Definition GetEdge (edgeId : EdgeId) : WM Edge := fetch_edge "no edge found with id %#x" edgeId.
Definition getEdgeFromEvent (edgeId : EdgeId) : WM Edge := fetch_edge "no edge found with id %#x" edgeId.

Definition processEdgeAddedEvent (edgeId : EdgeId) : WM unit :=
  edge ← fetch_edge "no edge found with id %#x" edgeId;
  AddEdge edge.

Definition processEdgeConfirmation (edgeId : EdgeId) : WM unit :=
  edge ← fetch_edge "no edge found" edgeId;
  challengeParentAssertionHash ← chain (AssertionHashOf edge);
  match ClaimId edge with
  | None => mret tt
  | Some claimId =>
      s ← self;
      match Map.TryGet challengeParentAssertionHash (challenges s) with
      | None => mret tt
      | Some chal =>
          '(challengeComplete : bool) ←
            wrapM "could not check if edge with parent assertion hash %#x is part of a completed challenge"
              (chain (IsChallengeComplete challengeParentAssertionHash));
          if challengeComplete then mret tt
          else
            (if GetChallengeLevel edge =? NewBlockChallengeLevel
             then chain (ConfirmAssertionByChallengeWinner claimId edgeId)
             else mret tt) ;;
            update (fun s => with_challenges
              (Map.Put challengeParentAssertionHash
                 {| honestEdgeTree := honestEdgeTree chal;
                    confirmedLevelZeroEdgeClaimIds :=
                      Map.Put claimId (Id edge) (confirmedLevelZeroEdgeClaimIds chal) |}
                 (challenges s)) s)
      end
  end.

(** The loop of the event checks.  On an iterator error the wrapped error is the nil
    one of the filter call, so that the loop stops and no error is returned. *)
Fixpoint for_events (process : EdgeId -> WM unit) (it : EventIterator) : WM unit :=
  match it with
  | [] => mret tt
  | (Some _, _) :: _ => mret tt
  | (None, edgeId) :: it' =>
      Runtime.UntilSucceeds retries (process edgeId) [] ;;
      for_events process it'
  end.

Definition checkForEdgeAdded (start end_ : Z) : WM unit :=
  it ← chain (FilterEdgeAdded start end_); for_events processEdgeAddedEvent it.
Definition checkForEdgeConfirmedByOneStepProof (start end_ : Z) : WM unit :=
  it ← chain (FilterEdgeConfirmedByOneStepProof start end_); for_events processEdgeConfirmation it.
Definition checkForEdgeConfirmedByTime (start end_ : Z) : WM unit :=
  it ← chain (FilterEdgeConfirmedByTime start end_); for_events processEdgeConfirmation it.
Definition checkForEdgeConfirmedByChildren (start end_ : Z) : WM unit :=
  it ← chain (FilterEdgeConfirmedByChildren start end_); for_events processEdgeConfirmation it.
Definition checkForEdgeConfirmedByClaim (start end_ : Z) : WM unit :=
  it ← chain (FilterEdgeConfirmedByClaim start end_); for_events processEdgeConfirmation it.

(** ** The service *)

Record filterRange := { startBlockNum : Z; endBlockNum : Z }.

Definition getStartEndBlockNum : WM filterRange :=
  latestConfirmed ← chain LatestConfirmed;
  firstBlock ← chain (AssertionCreatedAtBlock latestConfirmed);
  number ← chain HeaderByNumber;
  if negb (IsUint64 number) then fail (ErrNew "header number is not a uint64")
  else mret {| startBlockNum := firstBlock; endBlockNum := number |}.

(** The challenge manager instance and its filterer. *)
Definition get_filterer : WM unit :=
  Runtime.UntilSucceeds retries (chain SpecChallengeManager) [] ;;
  Runtime.UntilSucceeds retries (chain NewEdgeChallengeManagerFilterer) [].

(** The part of [Start] before polling: the last block scanned. *)
Definition initial_sync : WM Z :=
  scanRange ← Runtime.UntilSucceeds retries getStartEndBlockNum [];
  let fromBlock := startBlockNum scanRange in
  let toBlock := endBlockNum scanRange in
  get_filterer ;;
  Runtime.UntilSucceeds retries (checkForEdgeAdded fromBlock toBlock) [] ;;
  Runtime.UntilSucceeds retries (checkForEdgeConfirmedByOneStepProof fromBlock toBlock) [] ;;
  Runtime.UntilSucceeds retries (checkForEdgeConfirmedByChildren fromBlock toBlock) [] ;;
  Runtime.UntilSucceeds retries (checkForEdgeConfirmedByClaim fromBlock toBlock) [] ;;
  Runtime.UntilSucceeds retries (checkForEdgeConfirmedByTime fromBlock toBlock) [] ;;
  update with_synced ;;
  mret toBlock.

(** The checks of a tick, in their order. *)
Definition poll_checks (fromBlock toBlock : Z) : WM unit :=
  checkForEdgeAdded fromBlock toBlock ;;
  checkForEdgeConfirmedByOneStepProof fromBlock toBlock ;;
  checkForEdgeConfirmedByChildren fromBlock toBlock ;;
  checkForEdgeConfirmedByTime fromBlock toBlock ;;
  checkForEdgeConfirmedByClaim fromBlock toBlock.

(** A tick: [fromBlock] afterwards.  The errors of the checks are only logged and
    leave it alone; an error of [get_filterer] ends the service. *)
Definition poll_once (fromBlock : Z) : WM Z :=
  latestBlock ← attempt (chain HeaderByNumber);
  match latestBlock with
  | inr _ => mret fromBlock
  | inl number =>
      if negb (IsUint64 number) then mret fromBlock
      else
        let toBlock := number in
        if fromBlock =? toBlock then mret fromBlock
        else
          get_filterer ;;
          checks ← attempt (poll_checks fromBlock toBlock);
          mret (match checks with inl _ => toBlock | inr _ => fromBlock end)
  end.

(** The loop over the signals that arrive; the last [fromBlock]. *)
Fixpoint poll_loop (signals : list signal) (fromBlock : Z) : WM Z :=
  match signals with
  | [] => mret fromBlock
  | ContextDone :: _ => mret fromBlock
  | Tick :: signals' => fromBlock ← poll_once fromBlock; poll_loop signals' fromBlock
  end.

Definition serve (signals : list signal) : WM Z := fromBlock ← initial_sync; poll_loop signals fromBlock.

(** Every error ends the service and is only logged. *)
Definition Start (signals : list signal) : WM unit := _ ← attempt (serve signals); mret tt.

(** ** Queries *)

Fixpoint all_edges_loop (it : EventIterator) (edges : list Edge) : WM (list Edge) :=
  match it with
  | [] => mret edges
  | (Some _, _) :: _ => mret []
  | (None, edgeId) :: it' =>
      edge ← Runtime.UntilSucceeds retries (getEdgeFromEvent edgeId) [];
      all_edges_loop it' (edges ++ [edge])
  end.

Definition getAllEdges (start end_ : Z) : WM (list Edge) :=
  it ← chain (FilterEdgeAdded start end_); all_edges_loop it [].

Definition GetEdges : WM (list Edge) :=
  scanRange ← Runtime.UntilSucceeds retries getStartEndBlockNum [];
  get_filterer ;;
  Runtime.UntilSucceeds retries (getAllEdges (startBlockNum scanRange) (endBlockNum scanRange)) [].

Fixpoint confirmed_only (evilEdges evilConfirmedEdges : list Edge) : WM (list Edge) :=
  match evilEdges with
  | [] => mret evilConfirmedEdges
  | evilEdge :: evilEdges' =>
      status ← wrapM "could not get edge status" (chain (EdgeStatusOf evilEdge));
      if bool_decide (status = Protocol.EdgeConfirmed)
      then confirmed_only evilEdges' (evilConfirmedEdges ++ [evilEdge])
      else confirmed_only evilEdges' evilConfirmedEdges
  end.

Definition GetEvilConfirmedEdges : WM (list Edge) :=
  edges ← GetEdges;
  s ← self;
  let honestEdgesMap : gmap Hash Edge :=
    fold_left (fun m honestEdge => <[Id honestEdge := honestEdge]> m) (GetHonestEdges s) ∅ in
  let evilEdges := filter (fun edge => honestEdgesMap !! Id edge = None) edges in
  confirmed_only evilEdges [].

Definition ConfirmableByChildren : string := "confirmable_by_children".
Definition ConfirmableByClaim : string := "confirmable_by_claim".
Definition ConfirmableByTimer : string := "confirmable_by_timer".
Definition ConfirmableByOSP : string := "confirmable_by_osp".

(** How an edge can be confirmed, if it can: the body of the loop. *)
Definition confirmable_by (honestEdge : Edge) : WM (option string) :=
  status ← wrapM "could not get edge status" (chain (EdgeStatusOf honestEdge));
  if bool_decide (status = Protocol.EdgeConfirmed) then mret None
  else
    '(canOsp : bool) ← wrapM "could not check if edge can be one step proven" (chain (CanOneStepProve honestEdge));
    if canOsp then mret (Some ConfirmableByOSP)
    else
      '(hasConfirmedRival : bool) ←
        wrapM "could not check if edge has confirmed rival" (chain (HasConfirmedRival honestEdge));
      if hasConfirmedRival then mret None
      else
        assertionHash ← wrapM "could not get prev assertion hash" (chain (AssertionHashOf honestEdge));
        wrapM "could not get challenge manager" (chain SpecChallengeManager) ;;
        '(childrenConfirmed : bool) ←
          wrapM "could not check if children are confirmed" (chain (ChildrenAreConfirmed honestEdge));
        if childrenConfirmed then mret (Some ConfirmableByChildren)
        else
          s ← self;
          match ConfirmedEdgeWithClaimExists assertionHash (Id honestEdge) s with
          | Some _ => mret (Some ConfirmableByClaim)
          | None =>
              path ← attempt (ComputeHonestPathTimer assertionHash (Id honestEdge));
              match path with
              | inr err =>
                  if errors_is err ErrNoLowerChildYet then mret None
                  else fail (ErrWrap err "could not compute honest path timer")
              | inl (timer, _, _) =>
                  chalPeriod ← wrapM "could not check the challenge period length" (chain ChallengePeriodBlocks);
                  mret (if chalPeriod <=? timer then Some ConfirmableByTimer else None)
              end
          end.

Fixpoint confirmable_edges_loop (honestEdges : list Edge) (confirmableEdges : gmap string (list Edge))
    : WM (gmap string (list Edge)) :=
  match honestEdges with
  | [] => mret confirmableEdges
  | honestEdge :: honestEdges' =>
      how ← confirmable_by honestEdge;
      match how with
      | None => confirmable_edges_loop honestEdges' confirmableEdges
      | Some k =>
          confirmable_edges_loop honestEdges'
            (<[k := default [] (confirmableEdges !! k) ++ [honestEdge]]> confirmableEdges)
      end
  end.

Definition GetHonestConfirmableEdges : WM (gmap string (list Edge)) :=
  s ← self;
  confirmable_edges_loop (GetHonestEdges s)
    {[ ConfirmableByChildren := []; ConfirmableByClaim := []; ConfirmableByTimer := [];
       ConfirmableByOSP := [] ]}.

End watcher.
