(* ===== verification/WatcherSpec.v ===== *)
(** * What the chain watcher guarantees

    Its trees keep their invariants and only grow, whatever the chain answers; on a
    chain without reorganisations it tracks every honest edge of the blocks it has
    scanned, unless an iterator over them fails, and the claims it reports as confirmed
    are confirmed. *)

From S2P Require Import Prelude Bits PrefixProofs Containers Protocol Provider ChallengeTree ChallengeTreeSpec Chain Runtime EdgeTracker Watcher.

(** ** The invariant of a watcher *)

Definition challenge_inv (numBig : Z) (h : AssertionHash) (chal : trackedChallenge) : Prop :=
  tree_inv (honestEdgeTree chal) /\
  topLevelAssertionHash (honestEdgeTree chal) = h /\
  totalChallengeLevels (honestEdgeTree chal) = u8 (numBig + 2).

Definition watcher_inv (s : Watcher) : Prop :=
  map_Forall (challenge_inv (numBigStepLevels s)) (challenges s).

(** A later state of a watcher: challenges, tracked edges and confirmed claims stay. *)
Record watcher_le (s s' : Watcher) : Prop := {
  le_levels : numBigStepLevels s' = numBigStepLevels s;
  le_interval : pollEventsInterval s' = pollEventsInterval s;
  le_synced : initialSyncCompleted s = true -> initialSyncCompleted s' = true;
  le_challenges h chal : challenges s !! h = Some chal ->
    exists chal', challenges s' !! h = Some chal' /\
      grows (honestEdgeTree chal) (honestEdgeTree chal') /\
      dom (confirmedLevelZeroEdgeClaimIds chal) ⊆ dom (confirmedLevelZeroEdgeClaimIds chal');
  le_inv : watcher_inv s -> watcher_inv s';
}.

#[global] Instance watcher_le_preorder : PreOrder watcher_le.
Proof.
  split.
  - intros s. split; try done. intros h chal Hl. by exists chal.
  - intros s1 s2 s3 [L1 I1 S1 C1 V1] [L2 I2 S2 C2 V2]. split; [congruence|congruence|auto| |auto].
    intros h chal (chal2 & (chal3 & H3 & G3 & D3)%C2 & G2 & D2)%C1.
    exists chal3. split; [done|]. split; [by etrans|set_solver].
Qed.

Lemma challenge_grows numBig h t t' c c' :
  grows t t' -> challenge_inv numBig h {| honestEdgeTree := t; confirmedLevelZeroEdgeClaimIds := c |} ->
  challenge_inv numBig h {| honestEdgeTree := t'; confirmedLevelZeroEdgeClaimIds := c' |}.
Proof. intros G (Hi & Ht & Hl). destruct G. split; [|split]; cbn in *; [auto|congruence..]. Qed.

(** Replacing a challenge by a later version of it, or adding a well-formed one. *)
Lemma put_challenge_le h chal' s :
  match challenges s !! h with
  | Some chal =>
      grows (honestEdgeTree chal) (honestEdgeTree chal') /\
      dom (confirmedLevelZeroEdgeClaimIds chal) ⊆ dom (confirmedLevelZeroEdgeClaimIds chal')
  | None => challenge_inv (numBigStepLevels s) h chal'
  end ->
  watcher_le s (with_challenges (<[h := chal']> (challenges s)) s).
Proof.
  intros Hc. split; try done.
  - intros h' chal Hl. cbn. destruct (decide (h' = h)) as [->|].
    + rewrite Hl in Hc. exists chal'. by rewrite lookup_insert_eq.
    + exists chal. by rewrite lookup_insert_ne.
  - intros Hi. unfold watcher_inv. cbn. apply map_Forall_insert_2; [|done].
    destruct (challenges s !! h) as [[t c]|] eqn:E; [|done]. destruct Hc as [G _], chal' as [t' c'].
    by eapply challenge_grows, Hi.
Qed.

(** ** Orders that the service respects *)

(** The calls the service makes. *)
Inductive env_call {W} `{WatcherEnv W} : forall {A}, M W A -> Prop :=
| call_manager : env_call SpecChallengeManager
| call_GetEdge id : env_call (Chain.GetEdge id)
| call_AssertionHashOf e : env_call (AssertionHashOf e)
| call_IsChallengeComplete h : env_call (IsChallengeComplete h)
| call_winner h id : env_call (ConfirmAssertionByChallengeWinner h id)
| call_LatestConfirmed : env_call LatestConfirmed
| call_CreatedAtBlock h : env_call (AssertionCreatedAtBlock h)
| call_Header : env_call HeaderByNumber
| call_TrackEdge e : env_call (TrackEdge e)
| call_filterer : env_call NewEdgeChallengeManagerFilterer
| call_added a b : env_call (FilterEdgeAdded a b)
| call_osp a b : env_call (FilterEdgeConfirmedByOneStepProof a b)
| call_time a b : env_call (FilterEdgeConfirmedByTime a b)
| call_children a b : env_call (FilterEdgeConfirmedByChildren a b)
| call_claim a b : env_call (FilterEdgeConfirmedByClaim a b).

(** A new challenge, or a later version of one with the same confirmed claims. *)
Definition later_challenge (s : Watcher) (h : AssertionHash) (chal' : trackedChallenge) : Prop :=
  match challenges s !! h with
  | Some chal =>
      grows (honestEdgeTree chal) (honestEdgeTree chal') /\
      confirmedLevelZeroEdgeClaimIds chal' = confirmedLevelZeroEdgeClaimIds chal
  | None => challenge_inv (numBigStepLevels s) h chal' /\ confirmedLevelZeroEdgeClaimIds chal' = ∅
  end.

(** A preorder on the states of the service that calls, waiting, updates of the
    trees and the end of the initial sync respect. *)
Class WatcherOrder {W} `{WatcherEnv W} (R : relation (W * Watcher)) : Prop := {
  order_preorder :: PreOrder R;
  order_call {A} (m : M W A) : env_call m -> keeps R (chain m);
  order_sleep w s : R (w, s) (Sleep defaultSleepTime w, s);
  order_tree w s h chal' : later_challenge s h chal' ->
    R (w, s) (w, with_challenges (<[h := chal']> (challenges s)) s);
  order_synced w s : R (w, s) (w, with_synced s);
}.

#[export] Hint Extern 1 (keeps _ (chain _)) => apply order_call; constructor : keeps.

Section steps.
Context {W : Type} `{WatcherEnv W}.

Lemma self_bind {B} (k : Watcher -> M (W * Watcher) B) w s : (self ≫= k) (w, s) = k s (w, s).
Proof. done. Qed.

Lemma view_bind {B} (k : ChainView -> M (W * Watcher) B) w s : (current_view ≫= k) (w, s) = k (view w) (w, s).
Proof. done. Qed.

Lemma New_challenge_inv n h : challenge_inv n h
  {| honestEdgeTree := ChallengeTree.New h n; confirmedLevelZeroEdgeClaimIds := Map.NewMap |}.
Proof. split; [apply New_inv|done]. Qed.

(** [get_or_create] returns the challenge that is then in the watcher. *)
Lemma get_or_create_run h (w : W) s :
  exists chal s', get_or_create h (w, s) = (Ok chal, (w, s')) /\ challenges s' !! h = Some chal /\
    (s' = s \/ later_challenge s h chal /\ s' = with_challenges (<[h := chal]> (challenges s)) s).
Proof.
  unfold get_or_create. rewrite self_bind. unfold Map.TryGet.
  destruct (challenges s !! h) as [chal|] eqn:E; [exists chal, s; auto|].
  do 2 eexists. split; [reflexivity|]. cbn. unfold Map.Put. rewrite lookup_insert_eq. split; [done|].
  right. unfold later_challenge. rewrite E. split; [|done]. split; [apply New_challenge_inv|done].
Qed.

(** Calling a method of the tree of a challenge that is in the watcher. *)
Lemma with_tree_run {A} h chal (m : TreeM A) w s :
  challenges s !! h = Some chal -> keeps grows m ->
  exists chal', later_challenge s h chal' /\ honestEdgeTree chal' = (m (honestEdgeTree chal)).2 /\
    with_tree (W:=W) h chal m (w, s) =
      ((m (honestEdgeTree chal)).1, (w, with_challenges (<[h := chal']> (challenges s)) s)).
Proof.
  intros Hl Hm. specialize (Hm (honestEdgeTree chal)). unfold with_tree, later_challenge. rewrite Hl.
  destruct (m (honestEdgeTree chal)) as [r t']. cbn in *.
  eexists {| honestEdgeTree := t'; confirmedLevelZeroEdgeClaimIds := confirmedLevelZeroEdgeClaimIds chal |}.
  done.
Qed.

End steps.

Section respect.
Context {W : Type} `{WatcherEnv W} (retries : nat) (R : relation (W * Watcher)) `{!WatcherOrder R}.

Lemma keeps_self : keeps R self.
Proof. unfold self. keeps_tac. Qed.

Lemma keeps_view : keeps R current_view.
Proof. unfold current_view. keeps_tac. Qed.

Lemma keeps_retry {A} (m : M (W * Watcher) A) : keeps R m ->
  keeps R (@UntilSucceeds _ (watcher_context (W:=W)) _ retries m []).
Proof. intros Hm. apply keeps_UntilSucceeds; [apply _| |done]. intros [w s]. apply order_sleep. Qed.

Hint Resolve keeps_self keeps_view keeps_retry : keeps.

Lemma get_or_create_keeps h : keeps R (get_or_create h).
Proof.
  intros [w s]. destruct (get_or_create_run h w s) as (chal & s' & -> & _ & [->|[Hl ->]]); [reflexivity|].
  by apply order_tree.
Qed.

Lemma with_tree_keeps {A} h chal (m : TreeM A) w s :
  challenges s !! h = Some chal -> keeps grows m -> R (w, s) (with_tree h chal m (w, s)).2.
Proof.
  intros Hl Hm. destruct (with_tree_run h chal m w s Hl Hm) as (chal' & Hc & _ & ->). by apply order_tree.
Qed.

(** Creating a challenge if needed and going on with it. *)
Lemma create_then {B} h (k : trackedChallenge -> M (W * Watcher) B) :
  (forall chal w s, challenges s !! h = Some chal -> R (w, s) (k chal (w, s)).2) ->
  keeps R (get_or_create h ≫= k).
Proof.
  intros Hk [w s]. pose proof (get_or_create_keeps h (w, s)) as Hg. unfold mbind, M_bind.
  destruct (get_or_create_run h w s) as (chal & s' & -> & Hl & _) in Hg |- *. etrans; [apply Hg|]. by apply Hk.
Qed.

Lemma AddEdge_keeps edge : keeps R (Watcher.AddEdge edge).
Proof.
  unfold Watcher.AddEdge. apply keeps_bind; [apply _|auto with keeps|intros h].
  apply keeps_bind; [apply _|keeps_tac|intros [|]; [keeps_tac|]].
  apply create_then. intros chal w s Hl. rewrite view_bind.
  pose proof (with_tree_keeps h chal (ChallengeTree.AddEdge (view w) edge) w s Hl
    (fun t => AddEdge_grows _ _ t)) as Ht. unfold mbind, M_bind, attempt.
  destruct (with_tree _ _ _ _) as [[[a []]|e|p|] s']; try done; (etrans; [exact Ht|]).
  - apply (order_call (TrackEdge edge)). constructor.
  - destruct (negb _); reflexivity.
Qed.

Lemma AddVerifiedHonestEdge_keeps edge : keeps R (Watcher.AddVerifiedHonestEdge edge).
Proof.
  unfold Watcher.AddVerifiedHonestEdge. apply keeps_bind; [apply _|auto with keeps|intros h].
  apply create_then. intros chal w s Hl.
  pose proof (with_tree_keeps h chal (AddHonestEdge edge) w s Hl (fun t => AddHonestEdge_grows _ t)) as Ht.
  unfold wrapM. by destruct (with_tree _ _ _ _).
Qed.
Hint Resolve AddEdge_keeps AddVerifiedHonestEdge_keeps : keeps.

Lemma processEdgeAddedEvent_keeps id : keeps R (processEdgeAddedEvent id).
Proof. unfold processEdgeAddedEvent, fetch_edge. keeps_tac. Qed.
Hint Resolve processEdgeAddedEvent_keeps : keeps.

Lemma for_events_keeps process it :
  (forall id, (None, id) ∈ it -> keeps R (process id)) -> keeps R (for_events retries process it).
Proof.
  induction it as [|[[e|] id] it IH]; intros Hp; cbn [for_events]; keeps_tac.
  - apply keeps_retry, Hp. by left.
  - apply IH. intros id' Hid. apply Hp. by right.
Qed.

Lemma checkForEdgeAdded_keeps a b : keeps R (checkForEdgeAdded retries a b).
Proof. unfold checkForEdgeAdded. keeps_tac. apply for_events_keeps. auto with keeps. Qed.
Hint Resolve checkForEdgeAdded_keeps : keeps.

Lemma get_filterer_keeps : keeps R (get_filterer retries).
Proof. unfold get_filterer. keeps_tac. Qed.

Lemma range_keeps : keeps R getStartEndBlockNum.
Proof. unfold getStartEndBlockNum. keeps_tac. Qed.
Hint Resolve get_filterer_keeps range_keeps : keeps.

Hypothesis confirmation_keeps : forall a b,
  keeps R (checkForEdgeConfirmedByOneStepProof retries a b) /\
  keeps R (checkForEdgeConfirmedByTime retries a b) /\
  keeps R (checkForEdgeConfirmedByChildren retries a b) /\
  keeps R (checkForEdgeConfirmedByClaim retries a b).

Lemma initial_sync_keeps : keeps R (initial_sync retries).
Proof.
  unfold initial_sync. keeps_tac; try (apply keeps_retry, confirmation_keeps).
  intros [w s]. apply order_synced.
Qed.

Lemma poll_once_keeps fromBlock : keeps R (poll_once retries fromBlock).
Proof. unfold poll_once, poll_checks. keeps_tac; apply confirmation_keeps. Qed.
Hint Resolve initial_sync_keeps poll_once_keeps : keeps.

Lemma poll_loop_keeps signals : forall fromBlock, keeps R (poll_loop retries signals fromBlock).
Proof. induction signals as [|[] signals IH]; intros from; cbn [poll_loop]; keeps_tac. Qed.
Hint Resolve poll_loop_keeps : keeps.

Lemma serve_keeps signals : keeps R (serve retries signals).
Proof. unfold serve. keeps_tac. Qed.
Hint Resolve serve_keeps : keeps.

Lemma Start_keeps signals : keeps R (Start retries signals).
Proof. unfold Start. keeps_tac. Qed.

End respect.

Section growth.
Context {W : Type} `{WatcherEnv W} (retries : nat).

(** Watchers grow; nothing is asked of the world. *)
Definition state_le : relation (W * Watcher) := fun s s' => watcher_le s.2 s'.2.

Lemma keeps_chain {A} (m : M W A) : keeps state_le (chain m).
Proof. intros [w s]. unfold chain. destruct (m w). unfold state_le. cbn. reflexivity. Qed.

#[local] Instance state_le_preorder : PreOrder state_le.
Proof. split; unfold state_le; [intros s; reflexivity|intros s1 s2 s3 H1 H2; by etrans]. Qed.

#[export] Instance state_le_order : WatcherOrder state_le.
Proof.
  split; [apply _|intros; apply keeps_chain|intros; unfold state_le; cbn; reflexivity| |]; intros w s.
  - intros h chal' Hc. apply put_challenge_le. unfold later_challenge in Hc.
    destruct (challenges s !! h); [|by destruct Hc]. destruct Hc as [? ->]. done.
  - split; try done. intros h chal Hl. by exists chal.
Qed.

(** A call leaves the watcher alone: what follows starts from the same one. *)
Lemma after_chain {A B} (m : M W A) (k : A -> M (W * Watcher) B) msg w s :
  (forall a w', watcher_le s (k a (w', s)).2.2) ->
  watcher_le s ((chain m ≫= k) (w, s)).2.2 /\ watcher_le s ((wrapM msg (chain m) ≫= k) (w, s)).2.2.
Proof.
  intros Hk. unfold mbind, M_bind, wrapM, chain.
  destruct (m w) as [[a|e|p|] w']; cbn; split; reflexivity || apply Hk.
Qed.

Lemma put_claim_le h c id chal s :
  challenges s !! h = Some chal ->
  watcher_le s (with_challenges (Map.Put h
    {| honestEdgeTree := honestEdgeTree chal;
       confirmedLevelZeroEdgeClaimIds := Map.Put c id (confirmedLevelZeroEdgeClaimIds chal) |}
    (challenges s)) s).
Proof. intros Hl. apply put_challenge_le. rewrite Hl. cbn. unfold Map.Put. set_solver. Qed.

Lemma processEdgeConfirmation_le id : keeps state_le (processEdgeConfirmation id).
Proof.
  unfold processEdgeConfirmation. apply keeps_bind; [apply _|unfold fetch_edge; keeps_tac|intros edge].
  apply keeps_bind; [apply _|apply keeps_chain|intros h]. destruct (ClaimId edge) as [c|]; [|keeps_tac].
  intros [w s]. rewrite self_bind. unfold Map.TryGet.
  destruct (challenges s !! h) as [chal|] eqn:El; [|reflexivity].
  unfold state_le. cbn [snd]. apply after_chain. intros [|] w1; [reflexivity|].
  destruct (GetChallengeLevel edge =? NewBlockChallengeLevel).
  - apply (after_chain _ _ ""). intros _ w2. by apply put_claim_le.
  - by apply put_claim_le.
Qed.

Lemma confirmation_le a b :
  keeps state_le (checkForEdgeConfirmedByOneStepProof retries a b) /\
  keeps state_le (checkForEdgeConfirmedByTime retries a b) /\
  keeps state_le (checkForEdgeConfirmedByChildren retries a b) /\
  keeps state_le (checkForEdgeConfirmedByClaim retries a b).
Proof.
  unfold checkForEdgeConfirmedByOneStepProof, checkForEdgeConfirmedByTime,
    checkForEdgeConfirmedByChildren, checkForEdgeConfirmedByClaim.
  split_and!; keeps_tac; apply for_events_keeps; try apply _; intros; apply processEdgeConfirmation_le.
Qed.

Lemma reads_grows {A} (m : TreeM A) : keeps (≡) m -> keeps grows m.
Proof. intros Hm t. apply equiv_grows, Hm. Qed.

Lemma path_timer_le h id : keeps state_le (Watcher.ComputeHonestPathTimer h id).
Proof.
  unfold Watcher.ComputeHonestPathTimer. keeps_tac. intros [w s].
  unfold ComputeHonestPathTimerByBlockNumber. rewrite self_bind. unfold Map.TryGet.
  destruct (challenges s !! h) as [chal|] eqn:El; [|reflexivity].
  rewrite view_bind. match goal with |- context [with_tree h chal ?x] => set (m := x) end.
  assert (Hm : keeps grows m).
  { apply reads_grows. subst m. keeps_tac; [apply ComputeAncestorsWithTimers_reads|apply ComputeHonestPathTimer_reads]. }
  pose proof (with_tree_keeps state_le h chal m w s El Hm) as Ht.
  unfold mbind, M_bind. by destruct (with_tree h chal m (w, s)) as [[[]|e|p|] s'].
Qed.

Lemma confirmable_ancestor_le h l p : keeps state_le (Watcher.HasConfirmableAncestor h l p).
Proof.
  intros [w s]. unfold Watcher.HasConfirmableAncestor. rewrite self_bind. unfold Map.TryGet.
  destruct (challenges s !! h) as [chal|] eqn:El; [|reflexivity]. rewrite view_bind.
  apply (with_tree_keeps state_le); [done|]. apply reads_grows, HasConfirmableAncestor_reads.
Qed.

Hint Resolve state_le_order keeps_chain keeps_self keeps_view keeps_retry path_timer_le : keeps.
Hint Resolve get_filterer_keeps range_keeps : keeps.

Lemma GetHonestConfirmableEdges_le : keeps state_le GetHonestConfirmableEdges.
Proof.
  assert (Hc : forall e, keeps state_le (confirmable_by e)) by (intros e; unfold confirmable_by; keeps_tac).
  unfold GetHonestConfirmableEdges. keeps_tac.
  generalize (GetHonestEdges a). intros es. generalize ({[ConfirmableByChildren := []; ConfirmableByClaim := [];
    ConfirmableByTimer := []; ConfirmableByOSP := []]} : gmap string (list Edge)).
  induction es as [|e es IH]; intros m; cbn [confirmable_edges_loop]; keeps_tac.
Qed.

Lemma fetch_edge_le msg id : keeps state_le (fetch_edge msg id).
Proof. unfold fetch_edge. keeps_tac. Qed.

Lemma GetEdges_le : keeps state_le (GetEdges retries).
Proof.
  assert (Ha : forall it es, keeps state_le (all_edges_loop retries it es)).
  { induction it as [|[[e|] id] it IH]; intros es; cbn [all_edges_loop]; keeps_tac.
    apply keeps_retry; [apply _|]. apply fetch_edge_le. }
  unfold GetEdges. keeps_tac. apply keeps_retry; [apply _|]. unfold getAllEdges. keeps_tac.
Qed.

Lemma GetEvilConfirmedEdges_le : keeps state_le (GetEvilConfirmedEdges retries).
Proof.
  assert (Hc : forall l1 l2, keeps state_le (confirmed_only l1 l2)).
  { induction l1 as [|e l1 IH]; intros l2; cbn [confirmed_only]; keeps_tac. }
  unfold GetEvilConfirmedEdges. apply keeps_bind; [apply _|apply GetEdges_le|intros es]. keeps_tac.
Qed.

End growth.

(** ** The states a watcher reaches *)

Section reach.
Context {W : Type} `{WatcherEnv W} (retries : nat).

(** The operations that change a watcher. *)
Inductive watcher_op :=
| OpStart (signals : list signal)
| OpPoll (fromBlock : Z)
| OpAddEdge (edge : Edge)
| OpAddVerifiedHonestEdge (edge : Edge)
| OpProcessEdgeAdded (id : EdgeId)
| OpProcessEdgeConfirmation (id : EdgeId)
| OpPathTimer (h : AssertionHash) (id : EdgeId)
| OpConfirmableAncestor (h : AssertionHash) (timers : list Z) (period : Z)
| OpHonestConfirmableEdges
| OpEvilConfirmedEdges.

Definition run_op (op : watcher_op) (s : W * Watcher) : W * Watcher :=
  match op with
  | OpStart signals => (Start retries signals s).2
  | OpPoll fromBlock => (poll_once retries fromBlock s).2
  | OpAddEdge edge => (Watcher.AddEdge edge s).2
  | OpAddVerifiedHonestEdge edge => (Watcher.AddVerifiedHonestEdge edge s).2
  | OpProcessEdgeAdded id => (processEdgeAddedEvent id s).2
  | OpProcessEdgeConfirmation id => (processEdgeConfirmation id s).2
  | OpPathTimer h id => (Watcher.ComputeHonestPathTimer h id s).2
  | OpConfirmableAncestor h timers period => (Watcher.HasConfirmableAncestor h timers period s).2
  | OpHonestConfirmableEdges => (GetHonestConfirmableEdges s).2
  | OpEvilConfirmedEdges => (GetEvilConfirmedEdges retries s).2
  end.

(** Between the operations the world changes as it likes. *)
Inductive reachable_watcher (interval n : Z) : W -> Watcher -> Prop :=
| watcher_new w s : Watcher.New interval n = Ok s -> reachable_watcher interval n w s
| watcher_world w w' s : reachable_watcher interval n w s -> reachable_watcher interval n w' s
| watcher_step op w s w' s' :
    reachable_watcher interval n w s -> run_op op (w, s) = (w', s') -> reachable_watcher interval n w' s'.

Lemma run_op_le op w s : watcher_le s (run_op op (w, s)).2.
Proof.
  change (state_le (w, s) (run_op op (w, s))). destruct op; cbn [run_op].
  - apply (Start_keeps retries state_le), confirmation_le.
  - apply (poll_once_keeps retries state_le), confirmation_le.
  - apply (AddEdge_keeps state_le).
  - apply (AddVerifiedHonestEdge_keeps state_le).
  - apply (processEdgeAddedEvent_keeps state_le).
  - apply processEdgeConfirmation_le.
  - apply path_timer_le.
  - apply confirmable_ancestor_le.
  - apply GetHonestConfirmableEdges_le.
  - apply GetEvilConfirmedEdges_le.
Qed.

(** Nothing a watcher does loses information: whatever the chain, the history
    checker and the edge manager answer, errors and panics included, every
    operation keeps the challenges of the watcher, the edges their trees track,
    the claims recorded as confirmed and the completed sync, and leaves its
    configuration alone. *)
Theorem watcher_monotone op (w : W) s :
  let '(w', s') := run_op op (w, s) in
  numBigStepLevels s' = numBigStepLevels s /\ pollEventsInterval s' = pollEventsInterval s /\
  (IsSynced s = true -> IsSynced s' = true) /\
  (forall h chal, challenges s !! h = Some chal ->
     exists chal', challenges s' !! h = Some chal' /\
       edges (honestEdgeTree chal) ⊆ edges (honestEdgeTree chal')) /\
  (forall h c, is_Some (ConfirmedEdgeWithClaimExists h c s) -> is_Some (ConfirmedEdgeWithClaimExists h c s')).
Proof.
  pose proof (run_op_le op w s) as Hle. destruct (run_op op (w, s)) as [w' s']. cbn in Hle.
  destruct Hle as [Hn Hi Hs Hc _]. split_and!; [done..| |].
  - intros h chal (chal' & Hl & G & _)%Hc. exists chal'. split; [done|]. apply G.
  - intros h c. unfold ConfirmedEdgeWithClaimExists, Map.TryGet.
    destruct (challenges s !! h) as [chal|] eqn:El; [|by intros [? ?]].
    destruct (Hc _ _ El) as (chal' & -> & _ & Hd). rewrite <- !elem_of_dom. set_solver.
Qed.

(** Every watcher the program can reach is well formed: the tree it keeps for an
    assertion satisfies the invariant of challenge trees, belongs to that assertion
    and has the configured number of levels, and the root edge it reports for the
    assertion is a tracked edge of the block level with a claim. *)
Theorem watcher_reachable_inv interval n (w : W) s :
  reachable_watcher interval n w s ->
  interval <> 0 /\
  (forall h chal, challenges s !! h = Some chal ->
     tree_inv (honestEdgeTree chal) /\ topLevelAssertionHash (honestEdgeTree chal) = h /\
     totalChallengeLevels (honestEdgeTree chal) = u8 (n + 2)) /\
  (forall h e, Watcher.HonestBlockChallengeRootEdge h s = Ok e ->
     is_Some (ClaimId e) /\ GetReversedChallengeLevel e = u8 (u8 (n + 2) - 1) /\
     exists chal, challenges s !! h = Some chal /\ tracked (honestEdgeTree chal) e).
Proof.
  intros Hr. assert (Hinv : interval <> 0 /\ numBigStepLevels s = n /\ watcher_inv s).
  { induction Hr as [w s E|w w' s _ IH|op w s w' s' _ IH E]; [|done|].
    - unfold Watcher.New in E. destruct (Z.eqb_spec interval 0); [done|]. injection E as <-.
      split_and!; [done..|]. apply map_Forall_empty.
    - pose proof (run_op_le op w s) as Hle. rewrite E in Hle. destruct Hle as [Hn _ _ _ Hi]. cbn in *.
      destruct IH as (? & ? & ?). split_and!; [done|congruence|auto]. }
  destruct Hinv as (Hne & Hn & Hinv).
  assert (Hc : forall h chal, challenges s !! h = Some chal -> challenge_inv n h chal).
  { intros h chal Hl. rewrite <- Hn. by apply Hinv. }
  split_and!; [done|exact Hc|]. intros h e. unfold Watcher.HonestBlockChallengeRootEdge, Map.TryGet.
  destruct (challenges s !! h) as [chal|] eqn:El; [|done]. intros He.
  destruct (Hc _ _ El) as (Ht & _ & Htot). apply root_edge_spec in He as (? & ? & ?); [|done].
  rewrite Htot in *. split_and!; [done..|]. by exists chal.
Qed.

End reach.

(** ** A chain without reorganisations

    [ChainModel] is what there is to know about the chain: how it evolves, its head,
    which edges are confirmed and which challenges completed, the immutable data of
    the edges by id, the assertion a challenge edge belongs to, the block that
    emitted the creation of an edge, and the edges the history checker agrees with. *)

Record ChainModel (W : Type) := {
  evolves : relation W;
  head : W -> Z;
  confirmed : W -> EdgeId -> Prop;
  completed : W -> AssertionHash -> Prop;
  the_edge : EdgeId -> Edge;
  the_assertion : Edge -> AssertionHash;
  emitted : Z -> EdgeId -> Prop;
  honest : Edge -> bool;
}.
Arguments evolves {W} _ _ _.
Arguments head {W} _ _.
Arguments confirmed {W} _ _ _.
Arguments completed {W} _ _ _.
Arguments the_edge {W} _ _.
Arguments the_assertion {W} _ _.
Arguments emitted {W} _ _ _.
Arguments honest {W} _ _.

(** The ids an iterator over confirmations delivers are those of confirmed edges. *)
Definition delivers_confirmed {W} (X : ChainModel W) (m : M W EventIterator) : Prop :=
  forall w it w' id, m w = (Ok it, w') -> (None, id) ∈ it -> confirmed X w' id.

Class ChainLaws {W} `{WatcherEnv W} (X : ChainModel W) : Prop := {
  law_preorder :: PreOrder (evolves X);
  law_call {A} (m : M W A) : env_call m -> keeps (evolves X) m;
  law_sleep d w : evolves X w (Sleep d w);
  law_head w w' : evolves X w w' -> head X w <= head X w';
  law_confirmed w w' id : evolves X w w' -> confirmed X w id -> confirmed X w' id;
  law_completed w w' h : evolves X w w' -> completed X w h -> completed X w' h;
  law_edge_id id : Id (the_edge X id) = id;
  law_GetEdge id w e w' : Chain.GetEdge id w = (Ok (Some e), w') -> e = the_edge X id;
  law_AssertionHashOf e w h w' : AssertionHashOf e w = (Ok h, w') -> h = the_assertion X e;
  law_IsChallengeComplete h w w' : IsChallengeComplete h w = (Ok true, w') -> completed X w' h;
  law_HeaderByNumber w n w' : HeaderByNumber w = (Ok n, w') -> n <= head X w';
  law_osp a b : delivers_confirmed X (FilterEdgeConfirmedByOneStepProof a b);
  law_time a b : delivers_confirmed X (FilterEdgeConfirmedByTime a b);
  law_children a b : delivers_confirmed X (FilterEdgeConfirmedByChildren a b);
  law_claim a b : delivers_confirmed X (FilterEdgeConfirmedByClaim a b);
  law_agreement w t e r : check_agreement (view w) t e = Ok r -> IsHonestEdge r = honest X e;
  law_agreement_error w t e err :
    check_agreement (view w) t e = Err err -> errors_is err ErrAlreadyBeingTracked = false;
}.

(** ** Confirmed claims *)

Section claims.
Context {W : Type} `{WatcherEnv W} (retries : nat) (X : ChainModel W) `{!ChainLaws X}.

(** What a recorded claim says: the recorded edge makes the claim, belongs to the
    challenge of the assertion, and is confirmed. *)
Definition claims_ok (st : W * Watcher) : Prop :=
  forall h c id, ConfirmedEdgeWithClaimExists h c st.2 = Some id ->
    ClaimId (the_edge X id) = Some c /\ the_assertion X (the_edge X id) = h /\ confirmed X st.1 id.

(** Records stay right as long as the edges in question are confirmed. *)
Definition claims_le (ids : list EdgeId) : relation (W * Watcher) := fun st st' =>
  evolves X st.1 st'.1 /\
  (Forall (confirmed X st.1) ids -> claims_ok st -> claims_ok st').

#[local] Instance claims_le_preorder ids : PreOrder (claims_le ids).
Proof.
  split; [intros st; split; [reflexivity|done]|].
  intros st1 st2 st3 [E1 C1] [E2 C2]. split; [by etrans|]. intros Hf Hc. apply C2; [|auto].
  revert Hf. apply Forall_impl. intros id. by apply law_confirmed.
Qed.

Lemma claims_ok_same w w' s s' :
  evolves X w w' ->
  (forall h c, ConfirmedEdgeWithClaimExists h c s' = ConfirmedEdgeWithClaimExists h c s) ->
  claims_ok (w, s) -> claims_ok (w', s').
Proof.
  intros Ew Es Hc h c id. cbn. rewrite Es. intros (? & ? & ?)%Hc. split_and!; [done..|].
  by eapply law_confirmed.
Qed.

#[local] Instance claims_le_order ids : WatcherOrder (claims_le ids).
Proof.
  split; [apply _|..].
  - intros A m Hm [w s]. unfold chain. pose proof (law_call m Hm w) as Hw.
    destruct (m w) as [r w']. cbn in *. split; [done|]. intros _. by apply claims_ok_same.
  - intros w s. split; [apply law_sleep|]. intros _. apply claims_ok_same; [apply law_sleep|done].
  - intros w s h chal' Hl. split; [reflexivity|]. intros _. apply claims_ok_same; [reflexivity|].
    intros h' c. unfold ConfirmedEdgeWithClaimExists, Map.TryGet. cbn. unfold later_challenge in Hl.
    destruct (decide (h' = h)) as [->|]; [|by rewrite lookup_insert_ne].
    rewrite lookup_insert_eq. destruct (challenges s !! h); destruct Hl as [_ ->]; [done|apply lookup_empty].
  - intros w s. split; [reflexivity|]. intros _. by apply claims_ok_same.
Qed.

Lemma put_claim_ok w s h c id chal :
  challenges s !! h = Some chal -> ClaimId (the_edge X id) = Some c -> the_assertion X (the_edge X id) = h ->
  confirmed X w id -> claims_ok (w, s) ->
  claims_ok (w, with_challenges (Map.Put h
    {| honestEdgeTree := honestEdgeTree chal;
       confirmedLevelZeroEdgeClaimIds := Map.Put c id (confirmedLevelZeroEdgeClaimIds chal) |}
    (challenges s)) s).
Proof.
  intros Hl Hcl Ha Hcf Hc h' c' id'. unfold ConfirmedEdgeWithClaimExists, Map.TryGet, Map.Put. cbn.
  specialize (Hc h' c' id'). unfold ConfirmedEdgeWithClaimExists, Map.TryGet in Hc. cbn in Hc.
  destruct (decide (h' = h)) as [->|]; [|by rewrite lookup_insert_ne].
  rewrite lookup_insert_eq. cbn. rewrite Hl in Hc. destruct (decide (c' = c)) as [->|].
  - rewrite lookup_insert_eq. by intros [= <-].
  - by rewrite lookup_insert_ne.
Qed.

(** A call of the environment, then a continuation from the same watcher. *)
Lemma claims_after_call {A B} (m : M W A) (k : A -> M (W * Watcher) B) msg ids w s :
  env_call m ->
  (forall a w', m w = (Ok a, w') -> claims_le ids (w', s) (k a (w', s)).2) ->
  claims_le ids (w, s) ((chain m ≫= k) (w, s)).2 /\ claims_le ids (w, s) ((wrapM msg (chain m) ≫= k) (w, s)).2.
Proof.
  intros Hm Hk. pose proof (order_call (R := claims_le ids) m Hm (w, s)) as Hle.
  unfold mbind, M_bind, wrapM, chain in *. destruct (m w) as [[a|e|p|] w']; cbn in *; try done.
  split; (etrans; [apply Hle|by apply Hk]).
Qed.

Lemma fetch_edge_run msg id w s :
  exists r w', fetch_edge msg id (w, s) = (r, (w', s)) /\ evolves X w w' /\
    forall e, r = Ok e -> e = the_edge X id.
Proof.
  unfold fetch_edge, mbind, M_bind, chain. pose proof (law_call SpecChallengeManager ltac:(constructor) w) as E1.
  destruct (SpecChallengeManager w) as [[u|e|p|] w1]; cbn in E1; [|by do 2 eexists..].
  pose proof (law_call (Chain.GetEdge id) ltac:(constructor) w1) as E2.
  destruct (Chain.GetEdge id w1) as [[[e|]|e|p|] w2] eqn:Eg; cbn in E2; (do 2 eexists);
    (split; [reflexivity|]); (split; [by etrans|]); try done.
  intros e' [= <-]. by eapply law_GetEdge.
Qed.

Lemma processEdgeConfirmation_claims id : keeps (claims_le [id]) (processEdgeConfirmation id).
Proof.
  intros [w s]. unfold processEdgeConfirmation. unfold mbind at 1, M_bind at 1.
  destruct (fetch_edge_run "no edge found" id w s) as (r & w1 & -> & Ew & He).
  assert (Hle : claims_le [id] (w, s) (w1, s)) by (split; [done|intros _; by apply claims_ok_same]).
  destruct r as [edge|e|p|]; [|done..]. rewrite (He edge eq_refl). etrans; [exact Hle|].
  apply (claims_after_call _ _ ""); [constructor|]. intros h w2 Eh%law_AssertionHashOf.
  destruct (ClaimId (the_edge X id)) as [c|] eqn:Ec; [|reflexivity]. rewrite self_bind. unfold Map.TryGet.
  destruct (challenges s !! h) as [chal|] eqn:El; [|reflexivity].
  apply claims_after_call; [constructor|]. intros [|] w3 _; [reflexivity|].
  assert (Hput : forall w', claims_le [id] (w', s) (update (fun s => with_challenges (Map.Put h
      {| honestEdgeTree := honestEdgeTree chal;
         confirmedLevelZeroEdgeClaimIds := Map.Put c (Id (the_edge X id)) (confirmedLevelZeroEdgeClaimIds chal) |}
      (challenges s)) s) (w', s)).2).
  { intros w'. split; [reflexivity|]. intros [Hcf _]%Forall_cons_1 Hok. rewrite law_edge_id.
    by apply put_claim_ok. }
  destruct (_ =? _); [|apply Hput]. apply (claims_after_call _ _ ""); [constructor|]. intros _ w4 _. apply Hput.
Qed.

(** A check for confirmations: the ids it processes are those of confirmed edges. *)
Lemma confirmation_check_claims (m : M W EventIterator) :
  env_call m -> delivers_confirmed X m ->
  keeps (claims_le []) (it ← chain m; for_events retries processEdgeConfirmation it).
Proof.
  intros Hm Hd [w s]. apply (claims_after_call _ _ ""); [done|]. intros it w1 Em.
  set (ids := snd <$> filter (fun x => x.1 = None) it).
  assert (Hids : forall id, (None, id) ∈ it <-> id ∈ ids).
  { intros id. unfold ids. rewrite list_elem_of_fmap. split.
    - intros Hid. exists (None, id). by rewrite list_elem_of_filter.
    - intros ([o id'] & -> & [Ho Hid]%list_elem_of_filter). cbn in *. by subst. }
  assert (Hk : claims_le ids (w1, s) (for_events retries processEdgeConfirmation it (w1, s)).2).
  { apply for_events_keeps; [apply _|]. intros id Hid st. destruct (processEdgeConfirmation_claims id st) as [E C].
    split; [done|]. intros Hf. apply C. constructor; [|done]. rewrite Forall_forall in Hf.
    by apply Hf, list_elem_of_In, Hids. }
  destruct Hk as [Ek Ck]. split; [done|]. intros _. apply Ck, Forall_forall.
  intros id Hid%list_elem_of_In%Hids. by eapply Hd.
Qed.

Lemma confirmation_claims a b :
  keeps (claims_le []) (checkForEdgeConfirmedByOneStepProof retries a b) /\
  keeps (claims_le []) (checkForEdgeConfirmedByTime retries a b) /\
  keeps (claims_le []) (checkForEdgeConfirmedByChildren retries a b) /\
  keeps (claims_le []) (checkForEdgeConfirmedByClaim retries a b).
Proof.
  split_and!; apply confirmation_check_claims; try constructor.
  - apply law_osp.
  - apply law_time.
  - apply law_children.
  - apply law_claim.
Qed.

(** (C28) The confirmed claims a watcher reports are right: on a chain without
    reorganisations whose confirmation events are those of confirmed edges, after
    any run of the service from a new watcher, interleaved with any edges added by
    the other components, an edge [ConfirmedEdgeWithClaimExists] reports for an
    assertion and a claim makes that claim, belongs to the challenge of that
    assertion, and is confirmed on chain. *)
Theorem confirmed_claims_truthful (before after : list Edge) signals interval n (w : W) s0 :
  Watcher.New interval n = Ok s0 ->
  let add es st := fold_left (fun st e => (Watcher.AddVerifiedHonestEdge e (Watcher.AddEdge e st).2).2) es st in
  let '(w', s') := add after (Start retries signals (add before (w, s0))).2 in
  forall h c id, ConfirmedEdgeWithClaimExists h c s' = Some id ->
    ClaimId (the_edge X id) = Some c /\ the_assertion X (the_edge X id) = h /\ confirmed X w' id.
Proof.
  intros Hnew add. assert (Hadd : forall es st, claims_le [] st (add es st)).
  { induction es as [|e es IH]; intros st; [reflexivity|]. cbn.
    etrans; [apply (AddEdge_keeps (claims_le []) e)|].
    etrans; [apply (AddVerifiedHonestEdge_keeps (claims_le []) e)|]. apply IH. }
  assert (Hall : claims_le [] (w, s0) (add after (Start retries signals (add before (w, s0))).2)).
  { etrans; [apply Hadd|]. etrans; [|apply Hadd].
    apply (Start_keeps retries (claims_le [])). apply confirmation_claims. }
  destruct (add after _) as [w' s']. destruct Hall as [_ Hok]. apply Hok; [constructor|].
  unfold Watcher.New in Hnew. destruct (interval =? 0); [done|]. injection Hnew as <-.
  intros h c id. unfold ConfirmedEdgeWithClaimExists, Map.TryGet. cbn. unfold Map.NewMap. by rewrite lookup_empty.
Qed.

End claims.

(** ** Scanning misses nothing

    [confirmed_block] is the creation block of the latest confirmed assertion, which only
    moves on, and [iterator_failed] says that an iterator over edge creations has
    ended with an error so far.  An iterator that has not failed delivers all creations
    of its range. *)

Record CreationModel (W : Type) := {
  confirmed_block : W -> Z;
  iterator_failed : W -> Prop;
}.
Arguments confirmed_block {W} _ _.
Arguments iterator_failed {W} _ _.

Class CreationLaws {W} `{WatcherEnv W} (X : ChainModel W) (Y : CreationModel W) : Prop := {
  law_block_moves w w' : evolves X w w' -> confirmed_block Y w <= confirmed_block Y w';
  law_block_read w h w1 b w2 : LatestConfirmed w = (Ok h, w1) -> AssertionCreatedAtBlock h w1 = (Ok b, w2) ->
    confirmed_block Y w <= b <= confirmed_block Y w2;
  law_failed w w' : evolves X w w' -> iterator_failed Y w -> iterator_failed Y w';
  law_FilterEdgeAdded a b w it w' : FilterEdgeAdded a b w = (Ok it, w') -> b <= head X w ->
    iterator_failed Y w' \/
    Forall (fun x => x.1 = None) it /\
    forall block id, emitted X block id -> a <= block <= b -> (None, id) ∈ it;
}.

Section scanning.
Context {W : Type} `{WatcherEnv W} (retries : nat) (X : ChainModel W) (Y : CreationModel W) `{!ChainLaws X} `{!CreationLaws X Y}.

(** The chain evolves and the watcher grows. *)
Definition evo : relation (W * Watcher) := fun st st' => evolves X st.1 st'.1 /\ state_le st st'.

#[local] Instance evo_order : WatcherOrder evo.
Proof.
  split.
  - split; [intros st; split; reflexivity|].
    intros st1 st2 st3 [E1 L1] [E2 L2]. split; by etrans.
  - intros A m Hm [w s]. pose proof (law_call m Hm w) as Hw. pose proof (keeps_chain m (w, s)) as Hs.
    split; [|done]. unfold chain. by destruct (m w).
  - intros w s. split; [apply law_sleep|apply order_sleep].
  - intros w s h chal' Hl. split; [reflexivity|by apply order_tree].
  - intros w s. split; [reflexivity|apply order_synced].
Qed.

Lemma confirmation_evo a b :
  keeps evo (checkForEdgeConfirmedByOneStepProof retries a b) /\
  keeps evo (checkForEdgeConfirmedByTime retries a b) /\
  keeps evo (checkForEdgeConfirmedByChildren retries a b) /\
  keeps evo (checkForEdgeConfirmedByClaim retries a b).
Proof.
  destruct (confirmation_claims retries X a b) as (K1 & K2 & K3 & K4).
  destruct (confirmation_le retries a b) as (L1 & L2 & L3 & L4).
  split_and!; intros st; split; auto; [apply K1|apply K2|apply K3|apply K4].
Qed.

(** An edge the watcher is done with: its challenge is completed, the validator does
    not agree with it, or the tree of its challenge tracks it. *)
Definition handled (st : W * Watcher) (id : EdgeId) : Prop :=
  let e := the_edge X id in
  completed X st.1 (the_assertion X e) \/ honest X e = false \/
  exists chal, challenges st.2 !! the_assertion X e = Some chal /\ is_Some (edges (honestEdgeTree chal) !! id).

Lemma handled_mono st st' id : evo st st' -> handled st id -> handled st' id.
Proof.
  intros [Ew Es] [Hc|[Hh|(chal & Hl & [e He])]]; [left; by eapply law_completed|by right; left|].
  right; right. destruct (le_challenges _ _ Es _ _ Hl) as (chal' & Hl' & G & _). exists chal'. split; [done|].
  exists e. eapply lookup_weaken; [done|]. apply G.
Qed.

Definition scanned (a b : Z) (st : W * Watcher) : Prop :=
  iterator_failed Y st.1 \/ forall block id, emitted X block id -> a <= block <= b -> handled st id.

Lemma scanned_mono a b st st' : evo st st' -> scanned a b st -> scanned a b st'.
Proof.
  intros Hle [Hf|Hs]; [left; eapply law_failed; [apply Hle|done]|]. right. intros block id He Hb. eapply handled_mono; eauto.
Qed.

(** The challenge of an added edge, once its tree has taken a position on it. *)
Lemma handled_tree id w s chal :
  challenges s !! the_assertion X (the_edge X id) = Some chal ->
  honest X (the_edge X id) = false \/ is_Some (edges (honestEdgeTree chal) !! id) -> handled (w, s) id.
Proof. intros Hl [Hh|He]; right; [by left|right]. by exists chal. Qed.

(** The outcome of the tree's [AddEdge] on an edge it takes no position on. *)
Definition undecided {A} (r : res A) : Prop :=
  match r with
  | Ok _ => False
  | Err err => errors_is err ErrAlreadyBeingTracked = false
  | _ => True
  end.

Lemma tree_position w e t :
  honest X e = false \/ is_Some (edges (ChallengeTree.AddEdge (view w) e t).2 !! Id e) \/
  undecided (ChallengeTree.AddEdge (view w) e t).1.
Proof.
  pose proof (AddEdge_tracks (view w) e t) as Ht. pose proof (grows_edges _ _ (AddEdge_grows (view w) e t)) as Hg.
  assert (Hk : is_Some (edges t !! Id e) -> is_Some (edges (ChallengeTree.AddEdge (view w) e t).2 !! Id e)).
  { intros [x Hx]. exists x. by eapply lookup_weaken. }
  destruct (check_agreement (view w) t e) as [a|err|p|] eqn:Ea.
  - apply law_agreement in Ea. destruct (IsHonestEdge a); [|by left]. right; left. by apply Ht.
  - apply law_agreement_error in Ea. destruct Ht as [Ht| ->]; auto.
  - destruct Ht as [Ht| ->]; cbn; auto.
  - destruct Ht as [Ht| ->]; cbn; auto.
Qed.

Lemma AddEdge_handles id w s st' :
  Watcher.AddEdge (the_edge X id) (w, s) = (Ok tt, st') -> handled st' id.
Proof.
  set (e := the_edge X id). unfold Watcher.AddEdge. unfold mbind at 1, M_bind at 1, chain.
  destruct (AssertionHashOf e w) as [[h|?|?|] w1] eqn:Eh; try done. apply law_AssertionHashOf in Eh.
  unfold mbind at 1, M_bind at 1, wrapM. destruct (IsChallengeComplete h w1) as [[[]|?|?|] w2] eqn:Ec; try done.
  { intros [= <-]. left. cbn. fold e. rewrite <- Eh. by eapply law_IsChallengeComplete. }
  cbn [wrap_err]. unfold mbind at 1, M_bind at 1. destruct (get_or_create_run h w2 s) as (chal & s1 & -> & Hl & _).
  rewrite view_bind. unfold mbind, M_bind, attempt.
  destruct (with_tree_run h chal (ChallengeTree.AddEdge (view w2) e) w2 s1 Hl (fun t => AddEdge_grows _ _ t))
    as (chal' & _ & Et & ->).
  pose proof (tree_position w2 e (honestEdgeTree chal)) as Ht. rewrite <- Et in Ht.
  set (s2 := with_challenges _ s1). assert (Hl2 : challenges s2 !! h = Some chal') by apply lookup_insert_eq.
  assert (Hh : forall w', ~ undecided (ChallengeTree.AddEdge (view w2) e (honestEdgeTree chal)).1 ->
    handled (w', s2) id).
  { intros w' Hu. apply (handled_tree id w' s2 chal'); [by rewrite Eh in Hl2|].
    pose proof (law_edge_id (X := X) id) as Ei. fold e in Ei. rewrite Ei in Ht. tauto. }
  destruct (_.1) as [a|err|p|]; cbn [undecided] in Hh; [|destruct (errors_is err _); cbn [negb]|done..].
  - destruct (IsHonestEdge a); [destruct (TrackEdge e w2) as [r w3]; intros [= _ <-]|intros [= <-]]; apply Hh; tauto.
  - intros [= <-]. by apply Hh.
  - done.
Qed.

Lemma processEdgeAddedEvent_handles id st st' :
  processEdgeAddedEvent id st = (Ok tt, st') -> handled st' id.
Proof.
  destruct st as [w s]. unfold processEdgeAddedEvent. unfold mbind, M_bind.
  destruct (fetch_edge_run X "no edge found with id %#x" id w s) as (r & w1 & -> & _ & He).
  destruct r as [e|?|?|]; try done. rewrite (He e eq_refl). apply AddEdge_handles.
Qed.

Lemma retry_ok {A} (m : M (W * Watcher) A) st a st' :
  keeps evo m -> @UntilSucceeds _ (watcher_context (W:=W)) _ retries m [] st = (Ok a, st') ->
  exists st1, evo st st1 /\ m st1 = (Ok a, st').
Proof.
  intros Hm (n & st1 & Hf & _ & He)%UntilSucceeds_ok. exists st1. split; [|done].
  induction Hf as [st|n st st2 st3 e _ E _ IH]; [reflexivity|].
  pose proof (Hm st) as Hst. rewrite E in Hst. etrans; [exact Hst|]. etrans; [|by apply IH].
  destruct st2. apply order_sleep.
Qed.

Lemma for_events_handles it : forall st st',
  Forall (fun x => x.1 = None) it ->
  for_events retries processEdgeAddedEvent it st = (Ok tt, st') ->
  forall id, (None, id) ∈ it -> handled st' id.
Proof.
  induction it as [|[o id0] it IH]; intros st st' Hn; [by intros _ id ?%not_elem_of_nil|].
  apply Forall_cons_1 in Hn as [Ho Hn]. cbn in Ho. subst o. cbn [for_events].
  intros (u & st1 & Hr & Ht)%bind_ok id Hid. destruct u.
  apply retry_ok in Hr as (st0 & _ & Hp%processEdgeAddedEvent_handles); [|apply (processEdgeAddedEvent_keeps evo)].
  apply elem_of_cons in Hid as [[= ->]|Hid]; [|by eapply IH].
  eapply handled_mono; [|exact Hp].
  pose proof (for_events_keeps retries evo processEdgeAddedEvent it
    (fun i _ => processEdgeAddedEvent_keeps evo i) st1) as Hk. by rewrite Ht in Hk.
Qed.

Lemma checkForEdgeAdded_scans a b st st' :
  b <= head X st.1 -> checkForEdgeAdded retries a b st = (Ok tt, st') -> scanned a b st'.
Proof.
  intros Hb (it & st1 & Hf & He)%bind_ok. destruct st as [w s]. unfold chain in Hf.
  destruct (FilterEdgeAdded a b w) as [r w1] eqn:Ef. injection Hf as -> <-.
  apply law_FilterEdgeAdded in Ef as [Hfail|[Hn Hin]]; [| |done].
  - left. eapply law_failed; [|exact Hfail].
    pose proof (for_events_keeps retries evo processEdgeAddedEvent it
      (fun i _ => processEdgeAddedEvent_keeps evo i) (w1, s)) as Hk. rewrite He in Hk. apply Hk.
  - right. intros block id Hem Hr. eapply for_events_handles; eauto.
Qed.

(** A computation that ended normally, and the order it respects. *)
Lemma keeps_ok {A} (m : M (W * Watcher) A) st a st' : keeps evo m -> m st = (Ok a, st') -> evo st st'.
Proof. intros Hm E. specialize (Hm st). by rewrite E in Hm. Qed.

Lemma evo_head st st' : evo st st' -> head X st.1 <= head X st'.1.
Proof. intros [Hw _]. by apply law_head. Qed.

Lemma evo_block st st' : evo st st' -> confirmed_block Y st.1 <= confirmed_block Y st'.1.
Proof. intros [Hw _]. by apply law_block_moves. Qed.

(** One step of a computation that ended normally. *)
Lemma bind_evo {A B} (m : M (W * Watcher) A) (k : A -> M (W * Watcher) B) st b st' :
  keeps evo m -> (m ≫= k) st = (Ok b, st') -> exists a st1, evo st st1 /\ k a st1 = (Ok b, st').
Proof. intros Hm (a & st1 & E & Hk)%bind_ok. exists a, st1. split; [by eapply keeps_ok|done]. Qed.

(** The range of a full scan: it starts at the creation block of the latest confirmed
    assertion, read during the run, and ends at the head. *)
Lemma range_ok st r st' : getStartEndBlockNum st = (Ok r, st') ->
  confirmed_block Y st.1 <= startBlockNum r <= confirmed_block Y st'.1 /\ endBlockNum r <= head X st'.1.
Proof.
  destruct st as [w s]. unfold getStartEndBlockNum.
  intros (h & st1 & H1 & (b & st2 & H2 & (n & st3 & H3 & H4)%bind_ok)%bind_ok)%bind_ok.
  unfold chain in H1. destruct (LatestConfirmed w) as [r1 w1] eqn:E1. injection H1 as -> <-.
  unfold chain in H2. destruct (AssertionCreatedAtBlock h w1) as [r2 w2] eqn:E2. injection H2 as -> <-.
  unfold chain in H3. destruct (HeaderByNumber w2) as [r3 w3] eqn:E3. injection H3 as -> <-.
  destruct (negb (IsUint64 n)); [done|]. injection H4 as <- <-. cbn.
  pose proof (law_block_read w h w1 b w2 E1 E2). pose proof (law_call HeaderByNumber ltac:(constructor) w2) as E.
  rewrite E3 in E. apply law_block_moves in E. cbn in E. split; [lia|]. by eapply law_HeaderByNumber.
Qed.

Lemma initial_sync_scans st toBlock st' :
  initial_sync retries st = (Ok toBlock, st') ->
  exists start, confirmed_block Y st.1 <= start <= confirmed_block Y st'.1 /\
    toBlock <= head X st'.1 /\ IsSynced st'.2 = true /\ scanned start toBlock st'.
Proof.
  unfold initial_sync. intros (r & st1 & H1 & (u & st2 & H2 & (u3 & st3 & H3 & Hrest)%bind_ok)%bind_ok)%bind_ok.
  apply retry_ok in H1 as (st0 & E0 & [Hs He]%range_ok); [|apply (range_keeps evo)]. apply evo_block in E0.
  apply keeps_ok in H2; [|apply (get_filterer_keeps retries evo)]. apply evo_block in H2 as B2. apply evo_head in H2.
  assert (Hk : forall m : M (W * Watcher) unit, keeps evo m ->
    keeps evo (@UntilSucceeds _ (watcher_context (W:=W)) _ retries m []))
    by (intros m; by apply (keeps_retry retries evo)).
  destruct u3. apply keeps_ok in H3 as E3; [|apply Hk, (checkForEdgeAdded_keeps retries evo)].
  apply retry_ok in H3 as (st2' & E2 & Hc); [|apply (checkForEdgeAdded_keeps retries evo)].
  apply checkForEdgeAdded_scans in Hc; [|apply evo_head in E2; lia].
  apply bind_evo in Hrest as (_ & st4 & E4 & Hrest); [|apply Hk, confirmation_evo].
  apply bind_evo in Hrest as (_ & st5 & E5 & Hrest); [|apply Hk, confirmation_evo].
  apply bind_evo in Hrest as (_ & st6 & E6 & Hrest); [|apply Hk, confirmation_evo].
  apply bind_evo in Hrest as (_ & [w7 s7] & E7 & Hrest); [|apply Hk, confirmation_evo].
  injection Hrest as <- <-.
  assert (Hev : evo st3 (w7, with_synced s7)).
  { etrans; [exact E4|]. etrans; [exact E5|]. etrans; [exact E6|]. etrans; [exact E7|apply order_synced]. }
  apply evo_block in Hev as B4. apply evo_block in E3 as B3.
  exists (startBlockNum r). split; [lia|]. split_and!; [|done|by eapply scanned_mono].
  apply evo_head in Hev, E3. lia.
Qed.

Lemma scanned_join start from to st st' :
  evo st st' -> scanned start from st -> scanned from to st' -> scanned start to st'.
Proof.
  intros Hle H1 [Hf|H2]; [by left|]. apply (scanned_mono _ _ _ _ Hle) in H1 as [Hf|H1]; [by left|].
  right. intros block id He Hb. destruct (Z.le_gt_cases block from) as [Hf|Hf].
  - apply (H1 block); [done|lia].
  - apply (H2 block); [done|lia].
Qed.

Lemma poll_once_scans start from st from' st' :
  scanned start from st -> poll_once retries from st = (Ok from', st') ->
  evo st st' /\ scanned start from' st' /\ (from' = from \/ from' <= head X st'.1).
Proof.
  intros Hsc Hp. assert (Hev : evo st st')
    by (eapply keeps_ok; [|exact Hp]; apply (poll_once_keeps retries evo), confirmation_evo).
  assert (Hstay : from' = from -> evo st st' /\ scanned start from' st' /\ (from' = from \/ from' <= head X st'.1)).
  { intros ->. split; [done|]. split; [by eapply scanned_mono|by left]. }
  unfold poll_once in Hp. apply bind_ok in Hp as (latest & st1 & Hh & Hp). destruct st as [w s].
  unfold attempt, chain in Hh. destruct (HeaderByNumber w) as [[n|e|p|] w1] eqn:En; try done;
    injection Hh as <- <-; [|injection Hp as <- _; by apply Hstay].
  apply law_HeaderByNumber in En.
  destruct (negb (IsUint64 n)); [injection Hp as <- _; by apply Hstay|].
  destruct (from =? n); [injection Hp as <- _; by apply Hstay|].
  apply bind_evo in Hp as (_ & st2 & E2 & Hp); [|apply (get_filterer_keeps retries evo)].
  apply evo_head in E2. cbn in E2. apply bind_ok in Hp as (checks & st3 & Hc & Hp). unfold attempt in Hc.
  destruct (poll_checks retries from n st2) as [[u|e|p|] st3'] eqn:Ec; try done;
    injection Hc as <- <-; injection Hp as <- <-; [|by apply Hstay].
  unfold poll_checks in Ec. apply bind_ok in Ec as ([] & st4 & Ha & Ec).
  apply keeps_ok in Ha as E3; [|apply (checkForEdgeAdded_keeps retries evo)].
  apply checkForEdgeAdded_scans in Ha; [|lia].
  assert (E4 : evo st4 st3').
  { eapply keeps_ok; [|exact Ec]. keeps_tac; apply confirmation_evo. }
  split; [done|]. split.
  - eapply scanned_join; [exact Hev|exact Hsc|by eapply scanned_mono].
  - right. apply evo_head in E3, E4. lia.
Qed.

Lemma poll_loop_scans signals start : forall from st from' st',
  scanned start from st -> from <= head X st.1 -> poll_loop retries signals from st = (Ok from', st') ->
  evo st st' /\ scanned start from' st' /\ from' <= head X st'.1.
Proof.
  induction signals as [|[] signals IH]; intros from st from' st' Hsc Hh; cbn [poll_loop];
    [by intros [= <- <-]| |by intros [= <- <-]].
  intros (from1 & st1 & H1 & H2)%bind_ok. eapply poll_once_scans in H1 as (E1 & Hs1 & Hf); [|done].
  eapply IH in H2 as (E2 & ? & ?); [|done|destruct Hf; [subst; apply evo_head in E1; lia|done]].
  split; [by etrans|done].
Qed.

(** (C27) The watcher misses no honest edge: on a chain without reorganisations, if the
    service is still running after any sequence of ticks and has scanned up to a
    block, it is synced, and unless an iterator over edge creations has ended with an
    error in the meantime, every edge created up to the scanned block that the validator
    agrees with is in the challenge tree of its assertion or belongs to a completed challenge,
    from a start block on that is the creation block of the latest confirmed assertion
    at some point of the run, and so neither before the creation block of the one at its
    beginning nor after that of the one at its end.  The scanned block never exceeds the head. *)
Theorem service_misses_nothing signals (w : W) s last w' s' :
  serve retries signals (w, s) = (Ok last, (w', s')) ->
  IsSynced s' = true /\ last <= head X w' /\
  exists start, confirmed_block Y w <= start <= confirmed_block Y w' /\
    (iterator_failed Y w' \/
     forall block id, emitted X block id -> start <= block <= last ->
       honest X (the_edge X id) = true ->
       completed X w' (the_assertion X (the_edge X id)) \/
       exists chal, challenges s' !! the_assertion X (the_edge X id) = Some chal /\
         is_Some (edges (honestEdgeTree chal) !! id)).
Proof.
  unfold serve. intros (from & st1 & (start & Hst & Hh & Hs & Hsc)%initial_sync_scans & Hl)%bind_ok.
  eapply poll_loop_scans in Hl as (Hev & Hsc' & Hh'); [|done..]. apply evo_block in Hev as Hbl.
  split; [by apply (le_synced _ _ (proj2 Hev))|]. split; [done|]. exists start. cbn in *. split; [lia|].
  destruct Hsc' as [Hf|Hsc']; [by left|]. right.
  intros block id He Hb Hhon. destruct (Hsc' block id He Hb) as [?|[Hn|?]]; [by left|congruence|by right].
Qed.

End scanning.

(** An iterator that ends with an error loses edges for good: the check stops without an
    error, so that a tick whose checks go through moves past the range although it has
    not processed the event. *)
Theorem watcher_iterator_error_lost {W} `{WatcherEnv W} retries err id it from to_ (w w1 : W) s :
  FilterEdgeAdded from to_ w = (Ok ((Some err, id) :: it), w1) ->
  checkForEdgeAdded retries from to_ (w, s) = (Ok tt, (w1, s)).
Proof. intros Hf. unfold checkForEdgeAdded, mbind, M_bind, chain. by rewrite Hf. Qed.


(** ** The timers a watcher reports *)

Section timers.
Context {W : Type} `{WatcherEnv W}.

Lemma timer_of_nonneg t b e : 0 <= timer_of t b e.
Proof. unfold timer_of. destruct (CreatedAtBlock e); lia. Qed.

(** (C29) The path timer a watcher reports for a tracked edge is the whole sum: at the
    head block [b], for an edge whose ancestry links up through the levels of its
    challenge, it returns the unrivaled blocks of the assertion plus the local
    timers of the edge and of every ancestor up to the root of the block challenge,
    with the ids and local timers of these ancestors, nearest first. *)
Theorem path_timer_correct h chal e anc a b (w w' : W) s :
  let t := honestEdgeTree chal in
  challenges s !! h = Some chal -> HeaderByNumber w = (Ok b, w') -> is_u64 b ->
  wf_edges (view w') t -> CtxErr (view w') = None -> is_u8 (totalChallengeLevels t) ->
  tracked t e -> 0 <= GetReversedChallengeLevel e ->
  lineage (view w') t (GetReversedChallengeLevel e) e anc ->
  AssertionUnrivaledBlocks (view w') (topLevelAssertionHash t) = Ok a -> 0 <= a ->
  timer_of t b e + a + sum (timer_of t b <$> anc) < two64 ->
  exists s', Watcher.ComputeHonestPathTimer h (Id e) (w, s) =
      (Ok (timer_of t b e + a + sum (timer_of t b <$> anc), Id <$> anc, timer_of t b <$> anc), (w', s')) /\
    watcher_le s s'.
Proof.
  intros t Hl Hb Hr Hwf Hctx Htot He Hlev Hlin Ha Ha0 Hsum.
  pose proof (path_timer_le h (Id e) (w, s)) as Hle.
  destruct (ancestors_run (view w') t e b anc) as (t1 & E1 & Et1); [done..|apply Hr|done|done|done|done|].
  pose proof (path_timer_run (view w') t1 (Id e) (timer_of t b <$> anc) b a) as Hp.
  rewrite Et1 in Hp. unfold tracked in He. rewrite He in Hp.
  assert (Hn : Forall (fun x => 0 <= x) (timer_of t b <$> anc)).
  { apply Forall_forall. intros x (y & -> & _)%list_elem_of_In%list_elem_of_fmap. apply timer_of_nonneg. }
  specialize (Hp Ha Ha0 Hn (proj2 Hr)).
  assert (Hp' : exists t2, ChallengeTree.ComputeHonestPathTimer (view w') (Id e) (timer_of t b <$> anc) b t1 =
    (Ok (timer_of t b e + a + sum (timer_of t b <$> anc)), t2)).
  { destruct (ChallengeTree.ComputeHonestPathTimer _ _ _ _ t1) as [r t2]. exists t2. f_equal. cbn in Hp.
    rewrite Hp; [by rewrite Et1|]. intros e'. rewrite Et1, He. intros [= <-].
    split; [|done]. by apply (wf_created _ _ Hwf). }
  destruct Hp' as (t2 & E2).
  assert (Erun : exists s', Watcher.ComputeHonestPathTimer h (Id e) (w, s) =
    (Ok (timer_of t b e + a + sum (timer_of t b <$> anc), Id <$> anc, timer_of t b <$> anc), (w', s'))).
  { unfold Watcher.ComputeHonestPathTimer, mbind at 1, M_bind at 1, chain. rewrite Hb.
    assert (Hu : IsUint64 b = true) by (unfold IsUint64, is_u64 in *; lia). rewrite Hu. cbn [negb].
    unfold ComputeHonestPathTimerByBlockNumber. rewrite self_bind. unfold Map.TryGet. rewrite Hl, view_bind.
    unfold with_tree, mbind, M_bind. fold t. rewrite E1. cbn [AncestorLocalTimers]. rewrite E2.
    eexists. reflexivity. }
  destruct Erun as (s' & Erun). rewrite Erun in Hle. by exists s'.
Qed.

(** What [AddEdge] does in a challenge that is tracked and not completed. *)
Lemma AddEdge_in_challenge edge h (w w1 w2 : W) s chal :
  challenges s !! h = Some chal ->
  AssertionHashOf edge w = (Ok h, w1) -> IsChallengeComplete h w1 = (Ok false, w2) ->
  let '(r, t') := ChallengeTree.AddEdge (view w2) edge (honestEdgeTree chal) in
  exists s', (exists chal', challenges s' !! h = Some chal' /\ honestEdgeTree chal' = t') /\
    Watcher.AddEdge edge (w, s) =
      match r with
      | Ok a => if IsHonestEdge a then chain (TrackEdge edge) (w2, s') else (Ok tt, (w2, s'))
      | Err e => (if errors_is e ErrAlreadyBeingTracked then Ok tt
                  else Err (ErrWrap e "could not add edge to challenge tree"), (w2, s'))
      | Panic p => (Panic p, (w2, s'))
      | NoFuel => (NoFuel, (w2, s'))
      end.
Proof.
  intros Hl Eh Ec.
  destruct (with_tree_run h chal (ChallengeTree.AddEdge (view w2) edge) w2 s Hl (fun t => AddEdge_grows _ _ t))
    as (chal' & _ & Et & Ew).
  destruct (ChallengeTree.AddEdge (view w2) edge (honestEdgeTree chal)) as [r t'] eqn:Ea. cbn [fst snd] in Et, Ew.
  exists (with_challenges (<[h := chal']> (challenges s)) s).
  split; [exists chal'; split; [apply lookup_insert_eq|done]|].
  unfold Watcher.AddEdge, mbind at 1 2, M_bind at 1 2, chain at 1 2, wrapM. rewrite Eh, Ec. cbn [wrap_err].
  unfold get_or_create, mbind at 1, M_bind at 1. rewrite self_bind. unfold Map.TryGet. rewrite Hl.
  cbn [mret M_ret]. rewrite view_bind. unfold mbind, M_bind, attempt. rewrite Ew.
  destruct r as [a|e|p|]; [|destruct (errors_is e ErrAlreadyBeingTracked)|done..]; [|done..].
  by destruct (IsHonestEdge a).
Qed.

(** An edge whose tracker could not be started is given up: when the edge manager
    fails to track a newly added honest edge, [AddEdge] returns its error, but the
    edge stays in the tree, so that every later call for the same edge returns
    without error and without asking the edge manager again, whatever the tree and
    the chain did in between. *)
Theorem AddEdge_tracking_not_retried edge h (w w1 w2 w3 : W) s chal e :
  challenges s !! h = Some chal ->
  AssertionHashOf edge w = (Ok h, w1) -> IsChallengeComplete h w1 = (Ok false, w2) ->
  (exists a, (ChallengeTree.AddEdge (view w2) edge (honestEdgeTree chal)).1 = Ok a /\ IsHonestEdge a = true) ->
  TrackEdge edge w2 = (Err e, w3) ->
  exists s', Watcher.AddEdge edge (w, s) = (Err e, (w3, s')) /\
    forall v v1 v2 s'', watcher_le s' s'' ->
      AssertionHashOf edge v = (Ok h, v1) -> IsChallengeComplete h v1 = (Ok false, v2) ->
      exists s3, Watcher.AddEdge edge (v, s'') = (Ok tt, (v2, s3)).
Proof.
  intros Hl Eh Ec (a & Ea & Hhon) Et. pose proof (AddEdge_in_challenge edge h w w1 w2 s chal Hl Eh Ec) as Hrun.
  pose proof (AddEdge_ok_tracked _ _ _ _ Ea Hhon) as Htr.
  destruct (ChallengeTree.AddEdge _ _ _) as [r t'] eqn:Er. cbn in Ea. subst r.
  destruct Hrun as (s' & (chal' & Hl' & Et') & Hrun). rewrite Hhon in Hrun. unfold chain in Hrun. rewrite Et in Hrun.
  exists s'. split; [done|]. intros v v1 v2 s'' Hle Eh' Ec'.
  destruct (le_challenges _ _ Hle _ _ Hl') as (chal'' & Hl'' & G & _).
  assert (Hin : is_Some (edges (honestEdgeTree chal'') !! Id edge)).
  { destruct Htr as [x Hx]. exists x. eapply lookup_weaken; [|apply G]. by rewrite Et'. }
  pose proof (AddEdge_in_challenge edge h v v1 v2 s'' chal'' Hl'' Eh' Ec') as Hrun2.
  assert (Ea2 : ChallengeTree.AddEdge (view v2) edge (honestEdgeTree chal'') =
    (Err ErrAlreadyBeingTracked, honestEdgeTree chal'')).
  { unfold ChallengeTree.AddEdge, mbind at 1, M_bind at 1, get, Map.Has. by rewrite bool_decide_true. }
  rewrite Ea2 in Hrun2. destruct Hrun2 as (s3 & _ & ->). by exists s3.
Qed.

End timers.

(** ** A chain on which the laws hold

    The world says whether the edge manager is down.  Block 10 created the root edge
    of the example tree, and the subchallenge edge with id 200 is confirmed. *)

Definition toy_edge (id : EdgeId) : Edge :=
  if id =? 100 then ex_root else if id =? 200 then ex_sub
  else mk_edge id 1 0 0 2 10 id 500 None.

#[local] Instance toy_chain : ChainEnv bool := {|
  HasRival := fun _ => mret false;
  HasLengthOneRival := fun _ => mret false;
  HasConfirmedRival := fun _ => mret false;
  EdgeStatusOf := fun e => mret (if Id e =? 200 then Protocol.EdgeConfirmed else EdgePending);
  AssertionHashOf := fun _ => mret 55;
  TopLevelClaimHeight := fun _ => mret [];
  LowerChildOf := fun _ => mret None;
  UpperChildOf := fun _ => mret None;
  GetTotalChallengeLevels := fun _ => 2;
  BisectOnChain := fun _ _ _ => fail (ErrNew "");
  ConfirmByTimer := fun _ _ => mret tt;
  ConfirmByClaim := fun _ _ => mret tt;
  ConfirmByChildren := fun _ => mret tt;
  SpecChallengeManager := mret tt;
  Chain.GetEdge := fun id => mret (Some (toy_edge id));
  ChallengePeriodBlocks := mret 10;
  AddBlockChallengeLevelZeroEdge := fun _ _ _ _ => fail (ErrNew "");
  AddSubChallengeLevelZeroEdge := fun _ _ _ _ _ _ => fail (ErrNew "");
  ConfirmEdgeByOneStepProof := fun _ _ _ _ => mret tt;
  AssertionCreationInfo := fun _ => mret ex_info;
  IsChallengeComplete := fun _ => mret false;
  ConfirmAssertionByChallengeWinner := fun _ _ => mret tt;
  LatestConfirmed := mret 54;
  AssertionCreatedAtBlock := fun _ => mret 5;
  HeaderByNumber := mret 20;
|}.

#[local] Instance toy_context : Runtime.Context bool := {| ContextErr := fun _ => None; Sleep := fun _ w => w |}.

#[local] Instance toy_watcher_env : WatcherEnv bool := {|
  watcher_chain := toy_chain;
  watcher_ctx := toy_context;
  view := fun _ => ex_view;
  TrackEdge := fun _ w => ((if w then Err (ErrNew "edge manager is down") else Ok tt), w);
  NewEdgeChallengeManagerFilterer := mret tt;
  FilterEdgeAdded := fun a b => mret (if (a <=? 10) && (10 <=? b) then [(None, 100)] else []);
  FilterEdgeConfirmedByOneStepProof := fun a b => mret [(None, 200)];
  FilterEdgeConfirmedByTime := fun a b => mret [];
  FilterEdgeConfirmedByChildren := fun a b => mret [];
  FilterEdgeConfirmedByClaim := fun a b => mret [];
|}.

Definition toy_model : ChainModel bool := {|
  evolves := eq;
  head := fun _ => 20;
  confirmed := fun _ id => id = 200;
  completed := fun _ _ => False;
  the_edge := toy_edge;
  the_assertion := fun _ => 55;
  emitted := fun block id => block = 10 /\ id = 100;
  honest := fun e => snd (EndCommitment e) =? 1000 + fst (EndCommitment e);
|}.

Lemma toy_root_edge_error t err :
  ChallengeTree.HonestBlockChallengeRootEdge t = Err err -> errors_is err ErrAlreadyBeingTracked = false.
Proof.
  unfold ChallengeTree.HonestBlockChallengeRootEdge, Slice.Get, mbind, res_bind.
  destruct (Map.TryGet _ _) as [es|]; [|by intros [= <-]]. destruct (negb _); [by intros [= <-]|].
  destruct (_ <=? _); [done|]. cbn. by destruct (es !! _).
Qed.

(** The agreement check on the example view. *)
Lemma toy_agreement t e :
  match check_agreement ex_view t e with
  | Ok r => IsHonestEdge r = honest toy_model e
  | Err err => errors_is err ErrAlreadyBeingTracked = false
  | _ => True
  end.
Proof.
  unfold check_agreement, mbind, res_bind, wrap_err. cbn [ex_view TopLevelAssertion].
  destruct (negb _); [done|].
  destruct (StartCommitment e) as [sh sc] eqn:Es, (EndCommitment e) as [eh ec] eqn:Ee.
  pose proof (toy_root_edge_error t) as Hroot.
  destruct (ChallengeTree.HonestBlockChallengeRootEdge t) as [root|err|p|];
    destruct (GetChallengeLevel e =? NewBlockChallengeLevel) eqn:El; destruct (ClaimId e) as [c|];
    try destruct (ClaimId root); cbn; rewrite ?Ee; auto;
    by destruct (len [0] =? 0).
Qed.

#[local] Instance toy_chain_laws : ChainLaws toy_model.
Proof.
  split; try done; try apply _.
  - intros A m Hm w. destruct Hm; reflexivity.
  - intros id. cbn. unfold toy_edge. destruct (Z.eqb_spec id 100) as [->|]; [done|].
    by destruct (Z.eqb_spec id 200) as [->|].
  - intros id w e w' [= <- <-]. done.
  - intros e w h w' [= <- <-]. done.
  - intros w n w' [= <- <-]. done.
  - intros a b w it w' id [= <- <-]. by intros [[= ->]|?%not_elem_of_nil]%elem_of_cons.
  - intros a b w it w' id [= <- <-]. by intros ?%not_elem_of_nil.
  - intros a b w it w' id [= <- <-]. by intros ?%not_elem_of_nil.
  - intros a b w it w' id [= <- <-]. by intros ?%not_elem_of_nil.
  - intros w t e r E. pose proof (toy_agreement t e) as Ha. cbn [view toy_watcher_env] in E. by rewrite E in Ha.
  - intros w t e r E. pose proof (toy_agreement t e) as Ha. cbn [view toy_watcher_env] in E. by rewrite E in Ha.
Qed.

(** The latest confirmed assertion stays the one of block 5, and iterators do not fail. *)
Definition toy_creations : CreationModel bool := {| confirmed_block := fun _ => 5; iterator_failed := fun _ => False |}.

#[local] Instance toy_creation_laws : CreationLaws toy_model toy_creations.
Proof.
  split; try done.
  - intros w h w1 b w2 _ [= <- <-]. cbn. lia.
  - intros a b w it w' E _. cbn in E. injection E as <- <-. right. split; [by case_res; repeat constructor|].
    intros block id [-> ->] Hb. rewrite (proj2 (Z.leb_le _ _)), (proj2 (Z.leb_le _ _)) by lia. by left.
Qed.

(** ** Witnesses *)

Definition toy_new : Watcher :=
  {| pollEventsInterval := 1; challenges := Map.NewMap; numBigStepLevels := 0; initialSyncCompleted := false |}.

Definition toy_run : bool * Watcher := run_op 3 (OpStart [Tick; Tick]) (false, toy_new).

Lemma watcher_reachable_inv_witness :
  (1 <> 0) /\
  (forall h chal, challenges toy_run.2 !! h = Some chal ->
     tree_inv (honestEdgeTree chal) /\ topLevelAssertionHash (honestEdgeTree chal) = h /\
     totalChallengeLevels (honestEdgeTree chal) = u8 (0 + 2)) /\
  (forall h e, Watcher.HonestBlockChallengeRootEdge h toy_run.2 = Ok e ->
     is_Some (ClaimId e) /\ GetReversedChallengeLevel e = u8 (u8 (0 + 2) - 1) /\
     exists chal, challenges toy_run.2 !! h = Some chal /\ tracked (honestEdgeTree chal) e).
Proof.
  apply (watcher_reachable_inv 3 1 0 toy_run.1 toy_run.2).
  eapply (watcher_step 3 1 0 (OpStart [Tick; Tick]) false toy_new); [by apply watcher_new|].
  unfold toy_run. by destruct (run_op _ _ _).
Defined.

Lemma confirmed_claims_truthful_witness :
  let add es st := fold_left (fun st e => (Watcher.AddVerifiedHonestEdge e (Watcher.AddEdge e st).2).2) es st in
  let '(w', s') := add [ex_sub] (Start 3 [Tick] (add [ex_root] (false, toy_new))).2 in
  ConfirmedEdgeWithClaimExists 55 102 s' = Some 200 /\
  forall h c id, ConfirmedEdgeWithClaimExists h c s' = Some id ->
    ClaimId (toy_edge id) = Some c /\ 55 = h /\ id = 200.
Proof.
  pose proof (confirmed_claims_truthful 3 toy_model [ex_root] [ex_sub] [Tick] 1 0 false toy_new eq_refl) as Ht.
  cbv zeta in Ht |- *. revert Ht. case_eq (fold_left
    (fun st e => (Watcher.AddVerifiedHonestEdge e (Watcher.AddEdge e st).2).2) [ex_sub]
    (Start 3 [Tick] (fold_left (fun st e => (Watcher.AddVerifiedHonestEdge e (Watcher.AddEdge e st).2).2)
      [ex_root] (false, toy_new))).2). intros w' s' E Ht. split; [|exact Ht].
  apply (f_equal (fun st => ConfirmedEdgeWithClaimExists 55 102 st.2)) in E. cbn [snd] in E. rewrite <- E.
  vm_compute. reflexivity.
Defined.

Lemma service_misses_nothing_witness :
  let s' := (serve 3 [Tick] (false, toy_new)).2.2 in
  IsSynced s' = true /\ honest toy_model (toy_edge 100) = true /\
  exists chal, challenges s' !! 55 = Some chal /\ is_Some (edges (honestEdgeTree chal) !! 100).
Proof.
  intros s'. destruct (@service_misses_nothing bool _ 3 toy_model toy_creations _ _ [Tick] false toy_new 20 false s')
    as (Hs & _ & start & Hst & [[]|Hall]); [vm_compute; reflexivity|].
  split; [exact Hs|]. split; [reflexivity|]. cbn in Hst.
  destruct (Hall 10 100) as [[]|Hc]; [by split|lia|reflexivity|exact Hc].
Defined.

Definition toy_challenge : trackedChallenge :=
  {| honestEdgeTree := ex_tree; confirmedLevelZeroEdgeClaimIds := ∅ |}.
Definition toy_tracking : Watcher := with_challenges {[ 55 := toy_challenge ]} toy_new.

Lemma path_timer_correct_witness :
  exists s', Watcher.ComputeHonestPathTimer 55 201 (false, toy_tracking) =
      (Ok (timer_of ex_tree 20 ex_subchild + 5 + sum (timer_of ex_tree 20 <$> [ex_sub; ex_upper; ex_root]),
           [200; 102; 100], timer_of ex_tree 20 <$> [ex_sub; ex_upper; ex_root]), (false, s')) /\
    watcher_le toy_tracking s'.
Proof.
  apply (path_timer_correct 55 toy_challenge ex_subchild [ex_sub; ex_upper; ex_root] 5 20 false false toy_tracking).
  - vm_compute. reflexivity.
  - reflexivity.
  - unfold is_u64, two64. lia.
  - exact ex_wf.
  - reflexivity.
  - unfold is_u8. cbn. lia.
  - reflexivity.
  - cbn. lia.
  - exact ex_lineage.
  - reflexivity.
  - lia.
  - vm_compute. reflexivity.
Defined.

Definition toy_empty_challenge : trackedChallenge :=
  {| honestEdgeTree := ChallengeTree.New 55 0; confirmedLevelZeroEdgeClaimIds := ∅ |}.
Definition toy_waiting : Watcher := with_challenges {[ 55 := toy_empty_challenge ]} toy_new.

Lemma AddEdge_tracking_not_retried_witness :
  exists s', Watcher.AddEdge ex_root (true, toy_waiting) = (Err (ErrNew "edge manager is down"), (true, s')) /\
    forall v v1 v2 s'', watcher_le s' s'' ->
      AssertionHashOf ex_root v = (Ok 55, v1) -> IsChallengeComplete 55 v1 = (Ok false, v2) ->
      exists s3, Watcher.AddEdge ex_root (v, s'') = (Ok tt, (v2, s3)).
Proof.
  apply (@AddEdge_tracking_not_retried bool toy_watcher_env ex_root 55 true true true true toy_waiting
    toy_empty_challenge (ErrNew _)).
  - vm_compute. reflexivity.
  - reflexivity.
  - reflexivity.
  - eexists. split; [vm_compute; reflexivity|reflexivity].
  - reflexivity.
Defined.
