(* ===== verification/Assertions.v ===== *)
(** * The assertion manager

    [assertions/scanner.go] and [assertions/poster.go]: the service that scans the
    chain for new assertions, answers the ones it disagrees with by a rival and a
    challenge, confirms assertions when their time has come, and posts the latest
    state of the validator.  How much of this it does depends on the validator's
    mode ([challenge-manager/types/mode.go]). *)

From S2P Require Import Prelude Bits PrefixProofs Containers SolImpl Protocol Provider Chain Runtime EdgeTracker.

(** ** Modes: [type Mode uint8] *)

Definition WatchTowerMode : Z := 0.
Definition DefensiveMode : Z := 1.
Definition ResolveMode : Z := 2.
Definition MakeMode : Z := 3.

(** ** State *)

(** The interfaces a manager holds are the ones of [AssertionEnv] below. *)
Record Manager := {
  pollInterval : Z;
  confirmationAttemptInterval : Z;
  averageTimeForBlockCreation : Z;
  managerName : string;
  forksDetectedCount : Z;
  challengesSubmittedCount : Z;
  assertionsProcessedCount : Z;
  postInterval : Z;
  submittedAssertions : gmap Hash bool;
}.

Definition NewManager (name : string) (pollInterval assertionConfirmationAttemptInterval postInterval
    averageTimeForBlockCreation : Z) : res Manager :=
  if pollInterval =? 0 then Err (ErrNew "assertion scanning interval must be greater than 0")
  else if assertionConfirmationAttemptInterval =? 0
  then Err (ErrNew "assertion confirmation attempt interval must be greater than 0")
  else Ok {| pollInterval := pollInterval;
             confirmationAttemptInterval := assertionConfirmationAttemptInterval;
             averageTimeForBlockCreation := averageTimeForBlockCreation; managerName := name;
             forksDetectedCount := 0; challengesSubmittedCount := 0; assertionsProcessedCount := 0;
             postInterval := postInterval; submittedAssertions := Set_.NewSet |}.

Definition with_challenge_submitted (m : Manager) : Manager := {|
  pollInterval := pollInterval m; confirmationAttemptInterval := confirmationAttemptInterval m;
  averageTimeForBlockCreation := averageTimeForBlockCreation m; managerName := managerName m;
  forksDetectedCount := forksDetectedCount m;
  challengesSubmittedCount := u64 (challengesSubmittedCount m + 1);
  assertionsProcessedCount := assertionsProcessedCount m;
  postInterval := postInterval m; submittedAssertions := submittedAssertions m |}.
Definition with_assertion_processed (m : Manager) : Manager := {|
  pollInterval := pollInterval m; confirmationAttemptInterval := confirmationAttemptInterval m;
  averageTimeForBlockCreation := averageTimeForBlockCreation m; managerName := managerName m;
  forksDetectedCount := forksDetectedCount m; challengesSubmittedCount := challengesSubmittedCount m;
  assertionsProcessedCount := u64 (assertionsProcessedCount m + 1);
  postInterval := postInterval m; submittedAssertions := submittedAssertions m |}.
Definition with_submitted (h : AssertionHash) (m : Manager) : Manager := {|
  pollInterval := pollInterval m; confirmationAttemptInterval := confirmationAttemptInterval m;
  averageTimeForBlockCreation := averageTimeForBlockCreation m; managerName := managerName m;
  forksDetectedCount := forksDetectedCount m; challengesSubmittedCount := challengesSubmittedCount m;
  assertionsProcessedCount := assertionsProcessedCount m;
  postInterval := postInterval m; submittedAssertions := Set_.Insert h (submittedAssertions m) |}.

Definition ForksDetected (m : Manager) : Z := forksDetectedCount m.
Definition ChallengesSubmitted (m : Manager) : Z := challengesSubmittedCount m.
Definition AssertionsProcessed (m : Manager) : Z := assertionsProcessedCount m.
(** The set is iterated in the order of [map_to_list]; Go leaves it open. *)
Definition AssertionsSubmittedInProcess (m : Manager) : list Hash := (map_to_list (submittedAssertions m)).*1.

(** ** What a manager calls *)

(** The goroutines the scanner starts for an assertion. *)
Inductive Job :=
| TryConfirmation (h : AssertionHash)
| ProcessCreation (h : AssertionHash).
#[global] Instance Job_eq_dec : EqDecision Job.
Proof. solve_decision. Defined.

Class AssertionEnv (W : Type) := {
  assertion_rollup :: RollupEnv W;
  assertion_ctx :: Runtime.Context W;
  (* l2stateprovider.ExecutionProvider *)
  AgreesWithExecutionState : ExecutionState -> M W unit;
  ExecutionStateAfterBatchCount : Z -> M W ExecutionState;
  (* types.ChallengeManager *)
  ChallengeAssertion : AssertionHash -> M W unit;
  Mode : Z;
  MaxDelaySeconds : Z;
  (* crypto/rand *)
  RandInt : Z -> M W Z;
  (* rollupgen.RollupUserLogicFilterer *)
  NewRollupUserLogicFilterer : M W unit;
  FilterAssertionCreated : Z -> option Z -> M W (list (option error * AssertionHash));
  GoJob : Job -> W -> W;
}.

Section assertions.
Context {W : Type} `{AssertionEnv W}.
(** The bound on the calls of a retry loop and on the steps of the search for an ancestor. *)
Context (retries : nat) (lookback : nat).

Abbreviation AM := (M (W * Manager)).

#[local] Instance manager_context : Runtime.Context (W * Manager) := {|
  ContextErr := fun s => ContextErr (fst s);
  Sleep := fun d s => (Sleep d (fst s), snd s);
|}.

Definition manager : AM Manager := s ← get; mret (snd s).
Definition update_manager (f : Manager -> Manager) : AM unit := modify (fun s => (fst s, f (snd s))).
Definition sleep (d : Z) : M W unit := modify (Sleep d).

Definition canPostRivalAssertion : bool := DefensiveMode <=? Mode.
Definition canPostChallenge : bool := DefensiveMode <=? Mode.

(** [rand.Int] panics unless its bound is positive. *)
Definition randUint64 (max : Z) : M W Z :=
  if max <=? 0 then crash BadArgument
  else
    n ← RandInt max;
    if negb (IsUint64 n) then fail (ErrNew "not a uint64") else mret n.

(** ** Posting *)

Definition PostAssertionBasedOnParent (parentCreationInfo : AssertionCreatedInfo)
    (submitFn : AssertionCreatedInfo -> ExecutionState -> M W AssertionHash) : M W (option AssertionHash) :=
  if negb (IsUint64 (InboxMaxCount parentCreationInfo)) then fail (ErrNew "inbox max count not a uint64")
  else
    let batchCount := InboxMaxCount parentCreationInfo in
    newState ← attempt (ExecutionStateAfterBatchCount batchCount);
    match newState with
    | inr err =>
        if errors_is err ErrChainCatchingUp then mret None
        else fail (ErrWrap err "could not get execution state at batch count %d")
    | inl newState =>
        assertion ← attempt (submitFn parentCreationInfo newState);
        match assertion with
        | inr err =>
            if errors_is err ErrAlreadyExists
            then fail (ErrWrap err "assertion already exists, was unable to post")
            else fail err
        | inl assertion => mret (Some assertion)
        end
    end.

(** Moving the stake or placing a new one, the end of both ways of posting. *)
Definition post_and_record (parent : AssertionCreatedInfo) : AM (option AssertionHash) :=
  '(staked : bool) ← chain IsStaked;
  assertionOpt ← chain (PostAssertionBasedOnParent parent
    (if staked then StakeOnNewAssertion else NewStakeOnNewAssertion));
  match assertionOpt with
  | Some h => update_manager (with_submitted h) ;; mret (Some h)
  | None => mret None
  end.

(** The loop over the hashes in reverse; an error of the agreement check moves on. *)
Fixpoint latest_valid_loop (hashes_rev : list AssertionHash) : M W (option AssertionHash) :=
  match hashes_rev with
  | [] => mret None
  | h :: hashes_rev' =>
      info ← AssertionCreationInfo h;
      agreed ← attempt (AgreesWithExecutionState (GoExecutionStateFromSolidity (AfterState info)));
      match agreed with
      | inl _ => mret (Some h)
      | inr _ => latest_valid_loop hashes_rev'
      end
  end.

Definition findLatestValidAssertion : M W AssertionHash :=
  latestCreatedAssertionHashes ← LatestCreatedAssertionHashes;
  found ← latest_valid_loop (rev latestCreatedAssertionHashes);
  match found with Some h => mret h | None => LatestConfirmed end.

Definition PostAssertion : AM (option AssertionHash) :=
  parentAssertionSeq ← wrapM "could not find latest valid assertion" (chain findLatestValidAssertion);
  parentAssertionCreationInfo ← chain (AssertionCreationInfo parentAssertionSeq);
  post_and_record parentAssertionCreationInfo.

(** An attempt of the posting routine: its errors are only logged. *)
Definition post_tick : AM unit := _ ← attempt PostAssertion; mret tt.

Fixpoint post_loop (signals : list signal) : AM unit :=
  match signals with
  | Tick :: signals' => post_tick ;; post_loop signals'
  | _ => mret tt
  end.

Definition postAssertionRoutine (signals : list signal) : AM unit :=
  if Mode <? MakeMode then mret tt else post_tick ;; post_loop signals.

(** ** Answering an assertion *)

(** From [cursor] up to the latest confirmed assertion or to an agreed ancestor. *)
Fixpoint agreed_ancestor_loop (fuel : nat) (latestConfirmedInfo : AssertionCreatedInfo)
    (agreedWithAncestor cursor : AssertionHash) : M W AssertionCreatedInfo :=
  match fuel with
  | O => lift NoFuel
  | S fuel' =>
      if cursor =? agreedWithAncestor then mret latestConfirmedInfo
      else
        parentCreationInfo ← AssertionCreationInfo cursor;
        agreed ← attempt (AgreesWithExecutionState
          (GoExecutionStateFromSolidity (AfterState parentCreationInfo)));
        match agreed with
        | inl _ => mret parentCreationInfo
        | inr err =>
            if errors_is err ErrNoExecutionState
            then agreed_ancestor_loop fuel' latestConfirmedInfo agreedWithAncestor
                   (ParentAssertionHash parentCreationInfo)
            else fail err
        end
  end.

Definition findLastAgreedWithAncestor (assertionCreationInfo : AssertionCreatedInfo)
    : M W AssertionCreatedInfo :=
  latestConfirmed ← LatestConfirmed;
  latestConfirmedInfo ← AssertionCreationInfo latestConfirmed;
  agreed_ancestor_loop lookback latestConfirmedInfo latestConfirmed (ParentAssertionHash assertionCreationInfo).

Definition maybePostRivalAssertion (creationInfo : AssertionCreatedInfo) : AM (option AssertionHash) :=
  latestAgreedWithAncestor ← chain (findLastAgreedWithAncestor creationInfo);
  post_and_record latestAgreedWithAncestor.

(** The configuration is only logged. *)
Definition logChallengeConfigs : M W unit :=
  SpecChallengeManager ;;
  NumBigSteps ;;
  ChallengePeriodBlocks ;;
  GetLayerZeroHeights ;;
  mret tt.

Definition postRivalAssertionAndChallenge (creationInfo : AssertionCreatedInfo) : AM unit :=
  if negb (IsUint64 (InboxMaxCount creationInfo)) then fail (ErrNew "inbox max count not a uint64")
  else if negb canPostRivalAssertion then mret tt
  else
    correctRivalAssertion ← maybePostRivalAssertion creationInfo;
    match correctRivalAssertion with
    | None => mret tt
    | Some correctClaimedAssertionHash =>
        if negb canPostChallenge then mret tt
        else
          let mds := if 1 <? MaxDelaySeconds then MaxDelaySeconds else 1 in
          randSecs ← chain (randUint64 mds);
          chain (sleep (int64 (u64 (randSecs * second)))) ;;
          chain (ChallengeAssertion correctClaimedAssertionHash) ;;
          _ ← attempt (chain logChallengeConfigs);
          update_manager with_challenge_submitted
    end.

Definition ProcessAssertionCreationEvent (assertionHash : AssertionHash) : AM unit :=
  m ← manager;
  if Set_.Has assertionHash (submittedAssertions m) then mret tt
  else if assertionHash =? zero_hash then mret tt
  else
    creationInfo ← wrapM "could not read assertion creation info for %#x"
      (chain (AssertionCreationInfo assertionHash));
    if ParentAssertionHash creationInfo =? zero_hash then mret tt
    else
      agreed ← attempt (chain (AgreesWithExecutionState
        (GoExecutionStateFromSolidity (AfterState creationInfo))));
      match agreed with
      | inr err =>
          if errors_is err ErrNoExecutionState then
            postRivalAssertionAndChallenge creationInfo ;;
            update_manager with_assertion_processed
          else if errors_is err ErrChainCatchingUp
          then fail (ErrWrap ErrChainCatchingUp "chain still catching up to processed execution state - will reattempt assertion processing when caught up: %w")
          else fail err
      | inl _ => update_manager with_assertion_processed
      end.

(** ** Confirming an assertion *)

(** [time.Duration] arithmetic is on [int64]. *)
Definition wait_time (averageTime blocksLeftForConfirmation : Z) : Z :=
  int64 (u64 (averageTime * int64 blocksLeftForConfirmation)).

(** Every error counts as not confirmed; a panic would unwind. *)
Definition assertionConfirmed (assertionHash : AssertionHash) : AM bool :=
  m ← manager;
  r ← attempt (chain (
    status ← GetAssertionStatus assertionHash;
    match status with
    | NoAssertion => mret false
    | AssertionConfirmed => mret true
    | AssertionPending =>
        creationInfo ← AssertionCreationInfo assertionHash;
        prevCreationInfo ← AssertionCreationInfo (ParentAssertionHash creationInfo);
        currentBlock ← HeaderByNumber;
        if negb (IsUint64 currentBlock) then mret false
        else
          let confirmableAt := u64 (CreationBlock creationInfo + ConfirmPeriodBlocks prevCreationInfo) in
          (if currentBlock <? confirmableAt
           then sleep (wait_time (averageTimeForBlockCreation m) (u64 (confirmableAt - currentBlock)))
           else mret tt) ;;
          ConfirmAssertionByTime assertionHash ;;
          mret true
    end));
  mret (match r with inl confirmed => confirmed | inr _ => false end).

Fixpoint confirmation_loop (signals : list signal) (assertionHash : AssertionHash) : AM unit :=
  match signals with
  | Tick :: signals' =>
      '(confirmed : bool) ← assertionConfirmed assertionHash;
      if confirmed then mret tt else confirmation_loop signals' assertionHash
  | _ => mret tt
  end.

Definition keepTryingAssertionConfirmation (signals : list signal) (assertionHash : AssertionHash) : AM unit :=
  if Mode <? ResolveMode then mret tt else confirmation_loop signals assertionHash.

(** ** Scanning *)

(** The goroutine that processes an assertion. *)
Definition process_creation (assertionHash : AssertionHash) : AM unit :=
  _ ← attempt (Runtime.UntilSucceeds retries (ProcessAssertionCreationEvent assertionHash)
    [WithInterval (60 * second)]);
  mret tt.

(** On an iterator error the message dereferences the end of the range; the wrapped
    error is the nil one of the filter call, so that no error is returned. *)
Fixpoint assertion_events (end_ : option Z) (it : list (option error * AssertionHash)) : AM unit :=
  match it with
  | [] => mret tt
  | (Some _, _) :: _ => match end_ with None => crash NilDereference | Some _ => mret tt end
  | (None, assertionHash) :: it' =>
      chain (modify (GoJob (TryConfirmation assertionHash))) ;;
      chain (modify (GoJob (ProcessCreation assertionHash))) ;;
      assertion_events end_ it'
  end.

Definition checkForAssertionAdded (start : Z) (end_ : option Z) : AM unit :=
  it ← chain (FilterAssertionCreated start end_); assertion_events end_ it.

(** The part of [Start] before polling. *)
Definition first_scan : AM Z :=
  latestConfirmed ← chain LatestConfirmed;
  fromBlock ← chain (AssertionCreatedAtBlock latestConfirmed);
  Runtime.UntilSucceeds retries (chain NewRollupUserLogicFilterer) [] ;;
  Runtime.UntilSucceeds retries (checkForAssertionAdded fromBlock None) [] ;;
  mret fromBlock.

Definition scan_once (fromBlock : Z) : AM Z :=
  latestBlock ← attempt (chain HeaderByNumber);
  match latestBlock with
  | inr _ => mret fromBlock
  | inl toBlock =>
      if negb (IsUint64 toBlock) then mret fromBlock
      else if fromBlock =? toBlock then mret fromBlock
      else Runtime.UntilSucceeds retries (checkForAssertionAdded fromBlock (Some toBlock)) [] ;; mret toBlock
  end.

Fixpoint scan_loop (signals : list signal) (fromBlock : Z) : AM Z :=
  match signals with
  | Tick :: signals' => fromBlock ← scan_once fromBlock; scan_loop signals' fromBlock
  | _ => mret fromBlock
  end.

Definition scan (signals : list signal) : AM Z := fromBlock ← first_scan; scan_loop signals fromBlock.

(** [Start] without the posting goroutine it starts first; every error ends the scan
    and is only logged. *)
Definition Start (signals : list signal) : AM unit := _ ← attempt (scan signals); mret tt.

End assertions.
