(* ===== verification/AssertionsSpec.v ===== *)
(** * What the assertion manager guarantees

    The discipline of the modes, the choice of the parent of a new assertion, the
    answer to an assertion the validator disagrees with, and the coverage of the scan. *)

From S2P Require Import Prelude Bits PrefixProofs Containers SolImpl Protocol Provider Chain Runtime EdgeTracker Assertions.

(** ** The goroutines of a manager

    One attempt each, in the order they happen to run. *)
Inductive activity :=
| Scanning (signals : list signal)
| Processing (h : AssertionHash)
| Confirming (signals : list signal) (h : AssertionHash)
| Posting (signals : list signal).

Section activities.
Context {W : Type} `{AssertionEnv W} (retries lookback : nat).

Definition perform (a : activity) : M (W * Manager) unit :=
  match a with
  | Scanning signals => Start retries signals
  | Processing h => process_creation retries lookback h
  | Confirming signals h => keepTryingAssertionConfirmation signals h
  | Posting signals => postAssertionRoutine signals
  end.

Fixpoint run (activities : list activity) : M (W * Manager) unit :=
  match activities with
  | [] => mret tt
  | a :: activities' => perform a ;; run activities'
  end.

End activities.

(** ** What the calls of a manager respect *)

(** A preorder of worlds that everything but transactions respects. *)
Class ReadsRespect {W} `{AssertionEnv W} (R : relation W) : Prop := {
  reads_preorder :: PreOrder R;
  reads_info h : keeps R (AssertionCreationInfo h);
  reads_latest : keeps R LatestConfirmed;
  reads_created h : keeps R (AssertionCreatedAtBlock h);
  reads_hashes : keeps R LatestCreatedAssertionHashes;
  reads_status h : keeps R (GetAssertionStatus h);
  reads_staked : keeps R IsStaked;
  reads_header : keeps R HeaderByNumber;
  reads_manager : keeps R SpecChallengeManager;
  reads_steps : keeps R NumBigSteps;
  reads_period : keeps R ChallengePeriodBlocks;
  reads_heights : keeps R GetLayerZeroHeights;
  reads_agrees s : keeps R (AgreesWithExecutionState s);
  reads_state b : keeps R (ExecutionStateAfterBatchCount b);
  reads_rand n : keeps R (RandInt n);
  reads_filterer : keeps R NewRollupUserLogicFilterer;
  reads_events s e : keeps R (FilterAssertionCreated s e);
  reads_job j w : R w (GoJob j w);
  reads_sleep d w : R w (Sleep d w);
}.

Definition both {A B} (R : relation A) (S : relation B) : relation (A * B) :=
  fun x y => R x.1 y.1 /\ S x.2 y.2.

#[global] Instance both_preorder {A B} (R : relation A) (S : relation B) `{!PreOrder R} `{!PreOrder S} :
  PreOrder (both R S).
Proof.
  split; [by intros [??]|]. intros [??] [??] [??] [??] [??]. split; by etrans.
Qed.

Lemma keeps_modify {W} (R : relation W) f : (forall w, R w (f w)) -> keeps R (modify f).
Proof. intros Hf w. apply Hf. Qed.

Lemma keeps_crash {W A} (R : relation W) `{!PreOrder R} p : keeps R (crash (A:=A) p).
Proof. intros w. reflexivity. Qed.

Lemma keeps_chain_both {W S A} (R : relation W) (Q : relation S) `{!PreOrder Q} (m : M W A) :
  keeps R m -> keeps (both R Q) (chain m).
Proof. intros Hm [w s]. specialize (Hm w). unfold chain, both. by destruct (m w). Qed.

#[export] Hint Resolve reads_info reads_latest reads_created reads_hashes reads_status reads_staked reads_header
  reads_manager reads_steps reads_period reads_heights reads_agrees reads_state reads_rand reads_filterer
  reads_events : keeps.

Section respect.
Context {W : Type} `{AssertionEnv W} (retries lookback : nat).
Context (R : relation W) (Q : relation Manager) `{!ReadsRespect R} `{!PreOrder Q}.

Hypothesis stakes_respect : DefensiveMode <= Mode ->
  (forall i s, keeps R (StakeOnNewAssertion i s)) /\ (forall i s, keeps R (NewStakeOnNewAssertion i s)).
Hypothesis challenge_respects : DefensiveMode <= Mode -> forall h, keeps R (ChallengeAssertion h).
Hypothesis confirm_respects : ResolveMode <= Mode -> forall h, keeps R (ConfirmAssertionByTime h).
Hypothesis Q_challenge : forall m, Q m (with_challenge_submitted m).
Hypothesis Q_processed : forall m, Q m (with_assertion_processed m).
Hypothesis Q_submitted : forall h m, Q m (with_submitted h m).

#[local] Instance manager_ctx : Runtime.Context (W * Manager) := manager_context.
#[local] Hint Resolve keeps_chain_both : keeps.

Lemma keeps_sleep d : keeps R (sleep d).
Proof. apply keeps_modify, reads_sleep. Qed.
#[local] Hint Resolve keeps_sleep : keeps.

Lemma keeps_update f : (forall m, Q m (f m)) -> keeps (both R Q) (update_manager f).
Proof. intros Hf [w m]. split; [reflexivity|apply Hf]. Qed.

Lemma keeps_manager : keeps (both R Q) manager.
Proof. intros [w m]. reflexivity. Qed.

Lemma keeps_manager_retry {A} (m : M (W * Manager) A) opts :
  keeps (both R Q) m -> keeps (both R Q) (UntilSucceeds retries m opts).
Proof. apply keeps_UntilSucceeds; [apply _|]. intros [w s]. split; [apply reads_sleep|reflexivity]. Qed.
#[local] Hint Resolve keeps_manager_retry keeps_manager : keeps.

Lemma keeps_post_on (staked : bool) p : DefensiveMode <= Mode ->
  keeps R (PostAssertionBasedOnParent p (if staked then StakeOnNewAssertion else NewStakeOnNewAssertion)).
Proof.
  intros [H1 H2]%stakes_respect. unfold PostAssertionBasedOnParent. destruct staked; keeps_tac.
Qed.
#[local] Hint Resolve keeps_post_on : keeps.

Lemma keeps_post_and_record p : DefensiveMode <= Mode -> keeps (both R Q) (post_and_record p).
Proof.
  intros Hm. unfold post_and_record. keeps_tac. by apply keeps_update.
Qed.
#[local] Hint Resolve keeps_post_and_record : keeps.

Lemma keeps_latest_valid hs : keeps R (latest_valid_loop hs).
Proof. induction hs as [|h hs IH]; cbn [latest_valid_loop]; keeps_tac. Qed.
#[local] Hint Resolve keeps_latest_valid : keeps.

Lemma keeps_find_latest : keeps R findLatestValidAssertion.
Proof. unfold findLatestValidAssertion. keeps_tac. Qed.
#[local] Hint Resolve keeps_find_latest : keeps.

Lemma keeps_post_tick : DefensiveMode <= Mode -> keeps (both R Q) post_tick.
Proof. intros Hm. unfold post_tick, PostAssertion. keeps_tac. Qed.

Lemma keeps_post_loop signals : DefensiveMode <= Mode -> keeps (both R Q) (post_loop signals).
Proof.
  intros Hm. pose proof (keeps_post_tick Hm). induction signals as [|[] s IH]; cbn [post_loop]; keeps_tac.
Qed.

Lemma keeps_ancestor_loop fuel i a : forall c, keeps R (agreed_ancestor_loop fuel i a c).
Proof. induction fuel as [|fuel IH]; intros c; cbn [agreed_ancestor_loop]; keeps_tac. Qed.
#[local] Hint Resolve keeps_ancestor_loop : keeps.

Lemma keeps_find_ancestor i : keeps R (findLastAgreedWithAncestor lookback i).
Proof. unfold findLastAgreedWithAncestor. keeps_tac. Qed.
#[local] Hint Resolve keeps_find_ancestor : keeps.

Lemma keeps_logging : keeps R logChallengeConfigs.
Proof. unfold logChallengeConfigs. keeps_tac. Qed.

Lemma keeps_randUint64 n : keeps R (randUint64 n).
Proof. unfold randUint64. keeps_tac. apply keeps_crash, _. Qed.
#[local] Hint Resolve keeps_logging keeps_randUint64 : keeps.

Lemma keeps_rival i : keeps (both R Q) (postRivalAssertionAndChallenge lookback i).
Proof.
  unfold postRivalAssertionAndChallenge, canPostRivalAssertion, canPostChallenge, maybePostRivalAssertion.
  destruct (IsUint64 (InboxMaxCount i)); [|apply keeps_fail, _].
  destruct (Z.leb_spec DefensiveMode Mode) as [Hm|_]; [|apply keeps_ret, _].
  pose proof (challenge_respects Hm). keeps_tac. by apply keeps_update.
Qed.
#[local] Hint Resolve keeps_rival : keeps.

Lemma keeps_process h : keeps (both R Q) (ProcessAssertionCreationEvent lookback h).
Proof. unfold ProcessAssertionCreationEvent. keeps_tac; by apply keeps_update. Qed.
#[local] Hint Resolve keeps_process : keeps.

Lemma keeps_confirmed h : ResolveMode <= Mode -> keeps (both R Q) (assertionConfirmed h).
Proof. intros Hm. pose proof (confirm_respects Hm). unfold assertionConfirmed.
  keeps_tac. apply keeps_chain_both; [apply _|]. keeps_tac.
Qed.

Lemma keeps_confirmation signals h : keeps (both R Q) (keepTryingAssertionConfirmation signals h).
Proof.
  unfold keepTryingAssertionConfirmation. destruct (Z.ltb_spec Mode ResolveMode) as [_|Hm]; [apply keeps_ret, _|].
  pose proof (keeps_confirmed h Hm). induction signals as [|[] s IH]; cbn [confirmation_loop]; keeps_tac.
Qed.

Lemma keeps_events e it : keeps (both R Q) (assertion_events e it).
Proof.
  induction it as [|[[err|] h] it IH]; cbn [assertion_events]; keeps_tac.
  all: first [apply keeps_crash, _|apply keeps_chain_both; [apply _|apply keeps_modify, reads_job]].
Qed.
#[local] Hint Resolve keeps_events : keeps.

Lemma keeps_check s e : keeps (both R Q) (checkForAssertionAdded s e).
Proof. unfold checkForAssertionAdded. keeps_tac. Qed.
#[local] Hint Resolve keeps_check : keeps.

Lemma keeps_scan_loop signals : forall b, keeps (both R Q) (scan_loop retries signals b).
Proof.
  induction signals as [|[] s IH]; intros b; cbn [scan_loop]; unfold scan_once; keeps_tac.
Qed.
#[local] Hint Resolve keeps_scan_loop : keeps.

Lemma keeps_perform a : keeps (both R Q) (perform retries lookback a).
Proof.
  destruct a as [signals|h|signals h|signals]; cbn [perform].
  - unfold Start, scan, first_scan. keeps_tac.
  - unfold process_creation. keeps_tac.
  - apply keeps_confirmation.
  - unfold postAssertionRoutine. destruct (Z.ltb_spec Mode MakeMode); [apply keeps_ret, _|].
    assert (DefensiveMode <= Mode) by (unfold DefensiveMode, MakeMode in *; lia).
    apply keeps_bind; [apply _|by apply keeps_post_tick|intros _; by apply keeps_post_loop].
Qed.

Lemma keeps_run activities : keeps (both R Q) (run retries lookback activities).
Proof.
  induction activities as [|a l IH]; cbn [run]; [apply keeps_ret, _|].
  apply keeps_bind; [apply _|apply keeps_perform|done].
Qed.

End respect.

(** ** The modes *)

Definition anything {A} : relation A := fun _ _ => True.
#[global] Instance anything_preorder {A} : PreOrder (@anything A).
Proof. done. Qed.

(** The assertion manager stays within its mode, whatever its goroutines do and whatever
    the chain answers: any property of the world that reading and waiting respect is
    respected by the manager as a watchtower; from defensive mode on the
    stakes and challenges have to respect it too, and from resolve mode on the
    confirmations by time. *)
Lemma assertions_stay_in_mode {W} `{AssertionEnv W} (R : relation W) retries lookback activities w m :
  ReadsRespect R ->
  (DefensiveMode <= Mode -> (forall i s, keeps R (StakeOnNewAssertion i s)) /\
    (forall i s, keeps R (NewStakeOnNewAssertion i s)) /\ (forall h, keeps R (ChallengeAssertion h))) ->
  (ResolveMode <= Mode -> forall h, keeps R (ConfirmAssertionByTime h)) ->
  R w (run retries lookback activities (w, m)).2.1.
Proof.
  intros HR Hd Hc.
  refine (proj1 (keeps_run retries lookback R anything _ _ _ _ _ _ activities (w, m))); try done.
  - intros Hm. by destruct (Hd Hm) as (? & ? & ?).
  - intros Hm. by destruct (Hd Hm) as (? & ? & ?).
Qed.

(** What a manager's own state goes through. *)
Definition submitted (m : Manager) (h : AssertionHash) : bool := Set_.Has h (submittedAssertions m).
Definition manager_grows (m m' : Manager) : Prop :=
  forksDetectedCount m' = forksDetectedCount m /\
  pollInterval m' = pollInterval m /\ confirmationAttemptInterval m' = confirmationAttemptInterval m /\
  postInterval m' = postInterval m /\ averageTimeForBlockCreation m' = averageTimeForBlockCreation m /\
  forall h, submitted m h = true -> submitted m' h = true.

#[global] Instance manager_grows_preorder : PreOrder manager_grows.
Proof.
  split; [by intros m|]. intros m1 m2 m3 (E1 & E2 & E3 & E4 & E5 & G) (F1 & F2 & F3 & F4 & F5 & G').
  unfold manager_grows. split_and!; try congruence. auto.
Qed.

#[global] Instance anything_reads {W} `{AssertionEnv W} : ReadsRespect (@anything W).
Proof. split; try apply _; done. Qed.

Lemma submit_grows h m : manager_grows m (with_submitted h m).
Proof.
  unfold manager_grows, submitted, with_submitted, Set_.Has, Set_.Insert. cbn. split_and!; try done.
  intros h'. destruct (decide (h = h')) as [->|Hne]; [by rewrite lookup_insert_eq|by rewrite lookup_insert_ne].
Qed.

(** The bookkeeping of a manager over any run of its goroutines: a submitted
    assertion stays recorded, the configuration never changes, and no fork is ever
    counted, so that [ForksDetected] reports zero for ever. *)
Theorem manager_bookkeeping {W} `{AssertionEnv W} retries lookback name poll confirm post average m :
  NewManager name poll confirm post average = Ok m ->
  forall activities w, let m' := (run retries lookback activities (w, m)).2.2 in
    ForksDetected m' = 0 /\ pollInterval m' = poll /\ poll <> 0 /\ confirmationAttemptInterval m' = confirm /\
    confirm <> 0 /\ postInterval m' = post /\
    forall more w' h, submitted m' h = true -> submitted (run retries lookback more (w', m')).2.2 h = true.
Proof.
  assert (Hg : forall activities w m0, manager_grows m0 (run retries lookback activities (w, m0)).2.2).
  { intros activities w m0.
    refine (proj2 (keeps_run retries lookback anything manager_grows _ _ _ _ _ _ activities (w, m0)));
      try done. intros. apply submit_grows. }
  unfold NewManager. destruct (Z.eqb_spec poll 0); [done|]. destruct (Z.eqb_spec confirm 0); [done|].
  intros [= <-] activities w. cbn zeta.
  match goal with |- context [run _ _ activities (w, ?m0)] =>
    destruct (Hg activities w m0) as (E1 & E2 & E3 & E4 & E5 & G) end.
  unfold ForksDetected. rewrite E1, E2, E3, E4. cbn. split_and!; try done.
  intros more w' h. apply Hg.
Qed.

(** ** Choosing a parent *)

Section choices.
Context {W : Type} `{AssertionEnv W} (w : W).
(** A world whose reads answer without changing it. *)
Context (info : AssertionHash -> AssertionCreatedInfo) (opinion : AssertionHash -> res unit) (latest : AssertionHash).

Definition claimed_state (h : AssertionHash) : ExecutionState := GoExecutionStateFromSolidity (AfterState (info h)).

Hypothesis read_info : forall h, AssertionCreationInfo h w = (Ok (info h), w).
Hypothesis read_opinion : forall h, AgreesWithExecutionState (claimed_state h) w = (opinion h, w).
Hypothesis read_latest : LatestConfirmed w = (Ok latest, w).

Definition agreed (h : AssertionHash) : Prop := opinion h = Ok tt.
Definition disagreed (h : AssertionHash) : Prop :=
  exists e, opinion h = Err e /\ errors_is e ErrNoExecutionState = true.

(** [n] steps up from [c] to [h], through assertions the validator disagrees with. *)
Inductive climbs : nat -> AssertionHash -> AssertionHash -> Prop :=
| climbs_here h : climbs 0 h h
| climbs_up n c h : c <> latest -> disagreed c -> climbs n (ParentAssertionHash (info c)) h -> climbs (S n) c h.

Lemma agreed_ancestor_loop_spec n c h fuel : climbs n c h -> h = latest \/ agreed h -> (n < fuel)%nat ->
  agreed_ancestor_loop fuel (info latest) latest c w = (Ok (info h), w).
Proof.
  intros Hc Hh. revert fuel. induction Hc as [h|n c h Hne (e & He & Hn) _ IH]; intros [|fuel] Hf; try lia;
    cbn [agreed_ancestor_loop].
  - destruct (Z.eqb_spec h latest) as [->|Hne]; [done|]. destruct Hh as [?|Ha]; [done|].
    unfold mbind, M_bind, attempt. rewrite read_info. fold (claimed_state h). by rewrite read_opinion, Ha.
  - destruct (Z.eqb_spec c latest); [done|]. unfold mbind, M_bind, attempt. rewrite read_info.
    fold (claimed_state c). rewrite read_opinion, He, Hn. apply IH; [done|lia].
Qed.

Lemma find_ancestor_found lookback i n h :
  climbs n (ParentAssertionHash i) h -> h = latest \/ agreed h -> (n < lookback)%nat ->
  findLastAgreedWithAncestor lookback i w = (Ok (info h), w).
Proof.
  intros. unfold findLastAgreedWithAncestor, mbind, M_bind. rewrite read_latest, read_info.
  by eapply agreed_ancestor_loop_spec.
Qed.

(** (C34) The search for the ancestor to build a rival on terminates within the
    distance to it and finds the nearest one: it climbs from the parent of the
    assertion through assertions the validator disagrees with and stops at the first
    one it agrees with, or at the latest confirmed assertion. *)
Theorem findLastAgreedWithAncestor_nearest lookback i n h :
  climbs n (ParentAssertionHash i) h -> h = latest \/ agreed h -> (n < lookback)%nat ->
  findLastAgreedWithAncestor lookback i w = (Ok (info h), w).
Proof. apply find_ancestor_found. Qed.

(** The last of the hashes the validator agrees with. *)
Lemma latest_valid_loop_spec hs : (forall h, h ∈ hs -> agreed h \/ exists e, opinion h = Err e) ->
  exists o, latest_valid_loop hs w = (Ok o, w) /\
    match o with
    | Some h => agreed h /\ exists before after, hs = before ++ h :: after /\ Forall (fun x => ~ agreed x) before
    | None => Forall (fun x => ~ agreed x) hs
    end.
Proof.
  induction hs as [|h hs IH]; intros Ho; cbn [latest_valid_loop]; [by exists None|].
  unfold mbind, M_bind, attempt. rewrite read_info. fold (claimed_state h). rewrite read_opinion.
  destruct (Ho h) as [Ha|[e He]]; [by left| |].
  - rewrite Ha. exists (Some h). split; [done|]. split; [done|]. by exists [], hs.
  - rewrite He. destruct IH as (o & E & Hs); [intros x Hx; apply Ho; by right|].
    assert (Hn : ~ agreed h) by (unfold agreed; by rewrite He).
    exists o. split; [done|]. destruct o as [h'|]; [|by constructor].
    destruct Hs as (Ha & before & after & -> & Hb). split; [done|]. exists (h :: before), after.
    split; [done|by constructor].
Qed.

(** The parent of a new assertion is the most recently created one the validator
    agrees with, and the latest confirmed assertion when it agrees with none of
    those created since; an agreement check that fails for any reason counts as a
    disagreement. *)
Theorem findLatestValidAssertion_latest hashes :
  LatestCreatedAssertionHashes w = (Ok hashes, w) ->
  (forall h, h ∈ hashes -> agreed h \/ exists e, opinion h = Err e) ->
  exists h, findLatestValidAssertion w = (Ok h, w) /\
    (agreed h /\ (exists before after, hashes = before ++ h :: after /\ Forall (fun x => ~ agreed x) after) \/
     h = latest /\ Forall (fun x => ~ agreed x) hashes).
Proof.
  intros Hh Ho. unfold findLatestValidAssertion, mbind, M_bind. rewrite Hh.
  destruct (latest_valid_loop_spec (rev hashes)) as (o & -> & Hs).
  { intros h Hin. apply Ho. rewrite list_elem_of_In in *. by apply in_rev. }
  destruct o as [h|].
  - exists h. split; [done|]. left. destruct Hs as (Ha & before & after & E & Hb). split; [done|].
    exists (rev after), (rev before). split; [|by apply Forall_rev].
    rewrite <- (rev_involutive hashes), E, rev_app_distr. cbn. by rewrite <- app_assoc.
  - exists latest. split; [done|]. right. split; [done|].
    rewrite <- (rev_involutive hashes). by apply Forall_rev.
Qed.


(** ** Answering an assertion *)

(** Posting the state the validator computes on top of [h]: what it returns, the rival if
    one is posted, and the world afterwards. *)
Inductive posts (h : AssertionHash) : res (option AssertionHash) -> W -> Prop :=
| posts_stake_unread e w1 : IsStaked w = (Err e, w1) -> posts h (Err e) w1
| posts_bad_count staked w1 : IsStaked w = (Ok staked, w1) -> IsUint64 (InboxMaxCount (info h)) = false ->
    posts h (Err (ErrNew "inbox max count not a uint64")) w1
| posts_catching_up staked e w1 w2 : IsStaked w = (Ok staked, w1) -> IsUint64 (InboxMaxCount (info h)) = true ->
    ExecutionStateAfterBatchCount (InboxMaxCount (info h)) w1 = (Err e, w2) -> errors_is e ErrChainCatchingUp = true ->
    posts h (Ok None) w2
| posts_no_state staked e w1 w2 : IsStaked w = (Ok staked, w1) -> IsUint64 (InboxMaxCount (info h)) = true ->
    ExecutionStateAfterBatchCount (InboxMaxCount (info h)) w1 = (Err e, w2) -> errors_is e ErrChainCatchingUp = false ->
    posts h (Err (ErrWrap e "could not get execution state at batch count %d")) w2
| posts_refused (staked : bool) st e w1 w2 w3 : IsStaked w = (Ok staked, w1) -> IsUint64 (InboxMaxCount (info h)) = true ->
    ExecutionStateAfterBatchCount (InboxMaxCount (info h)) w1 = (Ok st, w2) ->
    (if staked then StakeOnNewAssertion else NewStakeOnNewAssertion) (info h) st w2 = (Err e, w3) ->
    posts h (Err (if errors_is e ErrAlreadyExists then ErrWrap e "assertion already exists, was unable to post" else e)) w3
| posts_rival (staked : bool) st rival w1 w2 w3 : IsStaked w = (Ok staked, w1) -> IsUint64 (InboxMaxCount (info h)) = true ->
    ExecutionStateAfterBatchCount (InboxMaxCount (info h)) w1 = (Ok st, w2) ->
    (if staked then StakeOnNewAssertion else NewStakeOnNewAssertion) (info h) st w2 = (Ok rival, w3) ->
    posts h (Ok (Some rival)) w3.

(** Challenging with the rival after a random delay. *)
Inductive challenges_with (rival : AssertionHash) (w1 : W) : res unit -> W -> Prop :=
| challenge_no_delay e w2 : RandInt (Z.max 1 MaxDelaySeconds) w1 = (Err e, w2) -> challenges_with rival w1 (Err e) w2
| challenge_bad_delay n w2 : RandInt (Z.max 1 MaxDelaySeconds) w1 = (Ok n, w2) -> IsUint64 n = false ->
    challenges_with rival w1 (Err (ErrNew "not a uint64")) w2
| challenge_refused secs e w2 w3 : RandInt (Z.max 1 MaxDelaySeconds) w1 = (Ok secs, w2) -> IsUint64 secs = true ->
    ChallengeAssertion rival (Sleep (int64 (u64 (secs * second))) w2) = (Err e, w3) ->
    challenges_with rival w1 (Err e) w3
| challenge_made secs r w2 w3 w4 : RandInt (Z.max 1 MaxDelaySeconds) w1 = (Ok secs, w2) -> IsUint64 secs = true ->
    ChallengeAssertion rival (Sleep (int64 (u64 (secs * second))) w2) = (Ok tt, w3) ->
    attempt logChallengeConfigs w3 = (Ok r, w4) ->
    challenges_with rival w1 (Ok tt) w4.

(** What the manager returns and records, given how posting and challenging went. *)
Inductive rival_answer (h : AssertionHash) (m : Manager) : res unit -> W -> Manager -> Prop :=
| answer_failed e w1 : posts h (Err e) w1 -> rival_answer h m (Err e) w1 m
| answer_nothing w1 : posts h (Ok None) w1 -> rival_answer h m (Ok tt) w1 (with_assertion_processed m)
| answer_unchallenged rival e w1 w2 : posts h (Ok (Some rival)) w1 -> challenges_with rival w1 (Err e) w2 ->
    rival_answer h m (Err e) w2 (with_submitted rival m)
| answer_challenged rival w1 w2 : posts h (Ok (Some rival)) w1 -> challenges_with rival w1 (Ok tt) w2 ->
    rival_answer h m (Ok tt) w2 (with_assertion_processed (with_challenge_submitted (with_submitted rival m))).

Lemma Process_start lookback a m : submitted m a = false -> a <> zero_hash ->
  ParentAssertionHash (info a) <> zero_hash ->
  ProcessAssertionCreationEvent lookback a (w, m) =
    match opinion a with
    | Ok _ => (Ok tt, (w, with_assertion_processed m))
    | Err err =>
        if errors_is err ErrNoExecutionState then
          (postRivalAssertionAndChallenge lookback (info a) ;; update_manager with_assertion_processed) (w, m)
        else if errors_is err ErrChainCatchingUp
        then (Err (ErrWrap ErrChainCatchingUp "chain still catching up to processed execution state - will reattempt assertion processing when caught up: %w"), (w, m))
        else (Err err, (w, m))
    | Panic p => (Panic p, (w, m))
    | NoFuel => (NoFuel, (w, m))
    end.
Proof.
  intros Hs Hz Hp. unfold ProcessAssertionCreationEvent, manager, submitted, mbind, M_bind in *.
  cbn. rewrite Hs, (proj2 (Z.eqb_neq _ _) Hz). unfold wrapM, chain, attempt. rewrite read_info. cbn.
  rewrite (proj2 (Z.eqb_neq _ _) Hp). fold (claimed_state a). rewrite read_opinion.
  destruct (opinion a) as [[]|e| |]; try done. by repeat case_match.
Qed.

Lemma find_ancestor_failed lookback i n h e :
  climbs n (ParentAssertionHash i) h -> h <> latest -> opinion h = Err e -> errors_is e ErrNoExecutionState = false ->
  (n < lookback)%nat -> findLastAgreedWithAncestor lookback i w = (Err e, w).
Proof.
  intros Hc Hne He Hn. unfold findLastAgreedWithAncestor, mbind at 1 2, M_bind at 1 2. rewrite read_latest, read_info.
  revert lookback. induction Hc as [h|n c h Hne' (e' & He' & Hn') _ IH]; intros [|fuel] Hf; try lia; cbn [agreed_ancestor_loop].
  - rewrite (proj2 (Z.eqb_neq _ _) Hne). unfold mbind, M_bind, attempt. rewrite read_info.
    fold (claimed_state h). by rewrite read_opinion, He, Hn.
  - rewrite (proj2 (Z.eqb_neq _ _) Hne'). unfold mbind, M_bind, attempt. rewrite read_info.
    fold (claimed_state c). rewrite read_opinion, He', Hn'. apply IH; done || lia.
Qed.

Lemma post_and_record_run h r w1 m : posts h r w1 ->
  post_and_record (info h) (w, m) = (r, (w1, match r with Ok (Some rival) => with_submitted rival m | _ => m end)).
Proof.
  intros Hp. unfold post_and_record, PostAssertionBasedOnParent, mbind, M_bind, chain, mret, M_ret.
  destruct Hp as [e w1 Hst|staked w1 Hst Hu|staked e w1 w2 Hst Hu Hes He|staked e w1 w2 Hst Hu Hes He|
    staked st e w1 w2 w3 Hst Hu Hes Hs|staked st rival w1 w2 w3 Hst Hu Hes Hs]; rewrite Hst; [done|..]; rewrite Hu; [done|..];
    cbn [negb]; unfold attempt; rewrite Hes; [by rewrite He..| |]; rewrite Hs; [by destruct (errors_is e _)|done].
Qed.

(** Posting has one outcome, and a posted rival is remembered. *)
Lemma posts_det (m : Manager) h r w1 r' w2 : posts h r w1 -> posts h r' w2 -> r = r'.
Proof. intros E1%(fun p => post_and_record_run _ _ _ m p) E2%(fun p => post_and_record_run _ _ _ m p). congruence. Qed.

Lemma answer_remembers h m r w1 m1 rival w2 : rival_answer h m r w1 m1 -> posts h (Ok (Some rival)) w2 ->
  submitted m1 rival = true.
Proof.
  intros Ha Hp. destruct Ha as [e w1 Hp'|w1 Hp'|rival' e w1 w3 Hp' _|rival' w1 w3 Hp' _];
    pose proof (posts_det m _ _ _ _ _ Hp' Hp) as [=]; subst; unfold submitted, Set_.Has; cbn; unfold Set_.Insert;
    by rewrite lookup_insert_eq.
Qed.

Lemma challenge_delay : (if 1 <? MaxDelaySeconds then MaxDelaySeconds else 1) = Z.max 1 MaxDelaySeconds.
Proof. destruct (Z.ltb_spec 1 MaxDelaySeconds); lia. Qed.

(** The end of the answer once the ancestor is found. *)
Lemma rival_answered lookback a m h r w1 m1 :
  DefensiveMode <= Mode -> IsUint64 (InboxMaxCount (info a)) = true ->
  findLastAgreedWithAncestor lookback (info a) w = (Ok (info h), w) -> rival_answer h m r w1 m1 ->
  (postRivalAssertionAndChallenge lookback (info a) ;; update_manager with_assertion_processed) (w, m) = (r, (w1, m1)).
Proof.
  intros Hm Hu Hf Ha. assert (Hd : (DefensiveMode <=? Mode) = true) by lia.
  unfold postRivalAssertionAndChallenge, canPostRivalAssertion, canPostChallenge, maybePostRivalAssertion, randUint64.
  rewrite Hu, Hd, challenge_delay. cbn [negb]. rewrite (proj2 (Z.leb_gt _ _)) by lia.
  unfold mbind, M_bind, chain at 1. rewrite Hf.
  destruct Ha as [e w1 Hp|w1 Hp|rival e w1 w2 Hp Hc|rival w1 w2 Hp Hc];
    apply (post_and_record_run _ _ _ m) in Hp; rewrite Hp; [done..| |].
  - unfold chain. inversion Hc as [e' w3 Hr|n w3 Hr Hn|secs e' w3 w4 Hr Hn Hch|]; subst; rewrite Hr; [done|by rewrite Hn|].
    rewrite Hn. cbn [negb mret M_ret]. unfold sleep, modify. by rewrite Hch.
  - unfold chain. inversion Hc as [| | |secs r w3 w4 w5 Hr Hn Hch Hl E1 E2]; subst. rewrite Hr, Hn. cbn [negb mret M_ret].
    unfold sleep, modify at 1. rewrite Hch. unfold attempt in *.
    destruct (logChallengeConfigs w4) as [[| | |] ?]; try done; by injection Hl as _ ->.
Qed.

(** (C25) What the manager does with an assertion creation event, branch by branch, on a chain
    that answers the reads about assertions and does not change during them.  Its own
    assertions, the zero hash and the genesis are skipped without any effect; when the
    creation info cannot be read the wrapped error is returned.  Otherwise: when it agrees,
    nothing but counting the assertion; when its check fails for another reason than
    disagreement (it is still catching up, say), an error that has it retried and no effect; when it disagrees,
    an error if the inbox count does not fit, nothing but counting as a watchtower,
    and from defensive mode on an answer on the nearest ancestor it agrees with: the state it computes is posted
    there, moving its stake or placing a new one, or nothing is when that state is not known yet; with a
    rival posted it waits and challenges, and it remembers the rival as its own,
    also when the challenge fails, so that it will not react to it again.  An agreement check
    that fails on the way to the ancestor ends the answer with its error. *)
Theorem ProcessAssertionCreationEvent_correct lookback a m :
  (submitted m a = true \/ a = zero_hash \/ ParentAssertionHash (info a) = zero_hash ->
     ProcessAssertionCreationEvent lookback a (w, m) = (Ok tt, (w, m))) /\
  (forall w0 e w1, submitted m a = false -> a <> zero_hash -> AssertionCreationInfo a w0 = (Err e, w1) ->
     ProcessAssertionCreationEvent lookback a (w0, m) =
       (Err (ErrWrap e "could not read assertion creation info for %#x"), (w1, m))) /\
  (submitted m a = false -> a <> zero_hash -> ParentAssertionHash (info a) <> zero_hash ->
    (agreed a -> ProcessAssertionCreationEvent lookback a (w, m) = (Ok tt, (w, with_assertion_processed m))) /\
    (forall e, opinion a = Err e -> errors_is e ErrNoExecutionState = false -> exists e',
       ProcessAssertionCreationEvent lookback a (w, m) = (Err e', (w, m)) /\
       errors_is e' ErrChainCatchingUp = errors_is e ErrChainCatchingUp) /\
    (disagreed a -> IsUint64 (InboxMaxCount (info a)) = false ->
       ProcessAssertionCreationEvent lookback a (w, m) = (Err (ErrNew "inbox max count not a uint64"), (w, m))) /\
    (disagreed a -> IsUint64 (InboxMaxCount (info a)) = true -> Mode < DefensiveMode ->
       ProcessAssertionCreationEvent lookback a (w, m) = (Ok tt, (w, with_assertion_processed m))) /\
    (disagreed a -> IsUint64 (InboxMaxCount (info a)) = true -> DefensiveMode <= Mode ->
     forall n h, climbs n (ParentAssertionHash (info a)) h -> (n < lookback)%nat ->
       (forall e, h <> latest -> opinion h = Err e -> errors_is e ErrNoExecutionState = false ->
          ProcessAssertionCreationEvent lookback a (w, m) = (Err e, (w, m))) /\
       (forall r w1 m1, h = latest \/ agreed h -> rival_answer h m r w1 m1 ->
          ProcessAssertionCreationEvent lookback a (w, m) = (r, (w1, m1)) /\
          forall rival w2 w3, posts h (Ok (Some rival)) w2 ->
            ProcessAssertionCreationEvent lookback rival (w3, m1) = (Ok tt, (w3, m1))))).
Proof.
  split_and!.
  - intros Hskip. unfold ProcessAssertionCreationEvent, manager, submitted, mbind, M_bind in *. cbn.
    destruct (Set_.Has a (submittedAssertions m)); [done|]. destruct (Z.eqb_spec a zero_hash); [done|].
    destruct Hskip as [?|[?|Hp]]; [done..|]. unfold wrapM, chain. rewrite read_info. cbn. by rewrite Hp.
  - intros w0 e w1 Hs Hz Hi. unfold ProcessAssertionCreationEvent, manager, submitted, mbind, M_bind in *. cbn.
    rewrite Hs, (proj2 (Z.eqb_neq _ _) Hz). unfold wrapM, chain. by rewrite Hi.
  - intros Hs Hz Hp. rewrite Process_start by done. split_and!.
    + by intros ->.
    + intros e -> ->. destruct (errors_is e ErrChainCatchingUp) eqn:Ec; eexists; split; done.
    + intros (e & -> & ->) Hu. unfold mbind, M_bind, postRivalAssertionAndChallenge. by rewrite Hu.
    + intros (e & -> & ->) Hu Hm. unfold mbind, M_bind, postRivalAssertionAndChallenge, canPostRivalAssertion.
      by rewrite Hu, (proj2 (Z.leb_gt _ _) Hm).
    + intros (e & -> & ->) Hu Hm n h Hc Hn. split.
      * intros e' Hne He' Hne'. unfold mbind, M_bind, postRivalAssertionAndChallenge, canPostRivalAssertion,
          maybePostRivalAssertion, mbind, M_bind, chain.
        rewrite Hu, (proj2 (Z.leb_le _ _) Hm). cbn [negb]. by rewrite (find_ancestor_failed lookback _ n h e').
      * intros r w1 m1 Hh Ha. split; [eapply rival_answered; [done|done|by eapply find_ancestor_found|done]|].
        intros rival w2 w3 Hpost. apply (answer_remembers _ _ _ _ _ _ _ Ha) in Hpost.
        unfold ProcessAssertionCreationEvent, manager, submitted, mbind, M_bind in *. cbn. by rewrite Hpost.
Qed.

End choices.

(** ** Confirming *)

Section confirming.
Context {W : Type} `{AssertionEnv W} (confirmed : W -> AssertionHash -> Prop).

Hypothesis status_truthful : forall h w w', GetAssertionStatus h w = (Ok AssertionConfirmed, w') -> confirmed w' h.
Hypothesis time_confirms : forall h w w', ConfirmAssertionByTime h w = (Ok tt, w') -> confirmed w' h.

Lemma assertionConfirmed_ok h s s' : assertionConfirmed h s = (Ok true, s') -> confirmed s'.1 h.
Proof.
  destruct s as [w m]. unfold assertionConfirmed, manager, attempt, chain, mbind, M_bind, mret, M_ret, get. cbn.
  destruct (GetAssertionStatus h w) as [[[| |]| | |] w1] eqn:Es; try done.
  2: { intros [= <-]. by eapply status_truthful. }
  destruct (AssertionCreationInfo h w1) as [[i| | |] w2]; try done.
  destruct (AssertionCreationInfo _ w2) as [[p| | |] w3]; try done.
  destruct (HeaderByNumber w3) as [[b| | |] w4]; try done. destruct (IsUint64 b); [|done]. cbn.
  set (sl := if b <? _ then _ else _). destruct (sl w4) as [[[]| | |] w5]; try done.
  destruct (ConfirmAssertionByTime h w5) as [[[]| | |] w6] eqn:Ec; try done.
  intros [= <-]. by eapply time_confirms.
Qed.

(** Attempts that did not see the assertion confirmed. *)
Inductive unconfirmed (h : AssertionHash) : nat -> W * Manager -> W * Manager -> Prop :=
| unconfirmed_none s : unconfirmed h 0 s s
| unconfirmed_again n s s1 s2 :
    assertionConfirmed h s = (Ok false, s1) -> unconfirmed h n s1 s2 -> unconfirmed h (S n) s s2.

Lemma attempt_no_error {S A B} (m : M S A) (f : A + error -> B) s e s' : (r ← attempt m; mret (f r)) s <> (Err e, s').
Proof. unfold mbind, M_bind, attempt. by destruct (m s) as [[| | |] ?]. Qed.

Lemma assertionConfirmed_no_error h s e s' : assertionConfirmed h s <> (Err e, s').
Proof.
  destruct s as [w m]. unfold assertionConfirmed. unfold mbind at 1, M_bind at 1.
  change (manager (w, m)) with (Ok m, (w, m)). cbv iota beta. apply attempt_no_error.
Qed.

(** (C35) The goroutine that confirms an assertion.  Below resolve mode it returns at once
    and does nothing.  From resolve mode on it gives up
    only when the assertion is confirmed on chain, or when an attempt panics: after any number of ticks it has
    either returned with the assertion confirmed, or made one attempt per tick,
    none of which saw the assertion confirmed, or it has panicked in an attempt after
    some of them; an error never ends it. *)
Theorem confirmation_persists n h s :
  let '(r, s') := keepTryingAssertionConfirmation (replicate n Tick) h s in
  (Mode < ResolveMode -> r = Ok tt /\ s' = s) /\
  (ResolveMode <= Mode ->
     r = Ok tt /\ (confirmed s'.1 h \/ unconfirmed h n s s') \/
     exists k s1, (k < n)%nat /\ unconfirmed h k s s1 /\
       ((exists p, r = Panic p /\ assertionConfirmed h s1 = (Panic p, s')) \/
        r = NoFuel /\ assertionConfirmed h s1 = (NoFuel, s'))).
Proof.
  unfold keepTryingAssertionConfirmation. destruct (Z.ltb_spec Mode ResolveMode) as [Hm|Hm]; [split; [done|lia]|].
  destruct (confirmation_loop (replicate n Tick) h s) as [r s'] eqn:E. split; [lia|intros _].
  revert s E. induction n as [|n IH]; intros s; cbn [replicate confirmation_loop].
  { intros [= <- <-]. left. split; [done|]. right. constructor. }
  unfold mbind, M_bind. destruct (assertionConfirmed h s) as [[[]|e|p|] s1] eqn:E.
  - intros [= <- <-]. left. split; [done|]. left. by eapply assertionConfirmed_ok.
  - intros [[-> [?|?]]|(k & s2 & Hk & Hu & Hr)]%IH; [left; by auto|left; split; [done|right; by econstructor]|].
    right. exists (S k), s2. split_and!; [lia|by econstructor|done].
  - by destruct (assertionConfirmed_no_error h s e s1).
  - intros [= <- <-]. right. exists 0%nat, s. split_and!; [lia|constructor|left; by exists p].
  - intros [= <- <-]. right. exists 0%nat, s. split_and!; [lia|constructor|by right].
Qed.

End confirming.

(** ** Scanning *)

Section scanning.
Context {W : Type} `{AssertionEnv W} (retries : nat).
(** The creations of the eventual chain, its head and the goroutines started so far. *)
Context (created : Z -> AssertionHash -> Prop) (head : W -> Z) (started : W -> Job -> Prop).

Definition advances (w w' : W) : Prop := head w <= head w' /\ forall j, started w j -> started w' j.

#[global] Instance advances_preorder : PreOrder advances.
Proof.
  split; [by intros w|]. intros w1 w2 w3 [A1 B1] [A2 B2]. split; [lia|auto].
Qed.

(** The chain has no reorganisations, the filters no errors. *)
Class ScanLaws : Prop := {
  scan_header : keeps advances HeaderByNumber;
  scan_filter s e : keeps advances (FilterAssertionCreated s e);
  scan_filterer : keeps advances NewRollupUserLogicFilterer;
  scan_latest : keeps advances LatestConfirmed;
  scan_created h : keeps advances (AssertionCreatedAtBlock h);
  scan_sleep d w : advances w (Sleep d w);
  scan_job j w : advances w (GoJob j w) /\ started (GoJob j w) j;
  scan_head w n w' : HeaderByNumber w = (Ok n, w') -> n <= head w';
  scan_block h w b w' : AssertionCreatedAtBlock h w = (Ok b, w') -> b <= head w';
  scan_complete s e w it w' : FilterAssertionCreated s e w = (Ok it, w') ->
    Forall (fun x => fst x = None) it /\
    forall b h, created b h -> s <= b <= match e with Some x => Z.min x (head w) | None => head w end -> (None, h) ∈ it;
}.

Context `{!ScanLaws}.
#[local] Instance manager_ctx' : Runtime.Context (W * Manager) := manager_context.

Definition covered (w : W) (from upto : Z) : Prop := forall b h, created b h -> from <= b <= upto ->
  started w (TryConfirmation h) /\ started w (ProcessCreation h).

Lemma covered_advances w w' a b : advances w w' -> covered w a b -> covered w' a b.
Proof. intros [_ Hs] Hc x h Hx Hb. destruct (Hc x h Hx Hb). auto. Qed.

Lemma events_started e it : Forall (fun x => fst x = None) it -> forall w m,
  exists w', assertion_events e it (w, m) = (Ok tt, (w', m)) /\ advances w w' /\
    forall h, (None, h) ∈ it -> started w' (TryConfirmation h) /\ started w' (ProcessCreation h).
Proof.
  induction 1 as [|[o h0] it Ho _ IH]; intros w m; cbn in *.
  { exists w. split_and!; [done|done|]. by intros h ?%elem_of_nil. }
  subst o. unfold mbind, M_bind, chain, modify.
  destruct (scan_job (TryConfirmation h0) w) as [A1 S1]. set (w1 := GoJob _ w) in *.
  destruct (scan_job (ProcessCreation h0) w1) as [A2 S2]. set (w2 := GoJob _ w1) in *.
  destruct (IH w2 m) as (w' & E & A3 & S3). exists w'. split; [done|].
  split; [etrans; [done|]; by etrans|].
  intros h [[= ->]|Hh]%elem_of_cons; [|by apply S3].
  split; apply A3; [by apply A2|done].
Qed.

Lemma check_covers s e w m r s' : checkForAssertionAdded s e (w, m) = (r, s') ->
  advances w s'.1 /\ (r = Ok tt -> covered s'.1 s match e with Some x => Z.min x (head w) | None => head w end).
Proof.
  unfold checkForAssertionAdded, mbind, M_bind, chain.
  pose proof (scan_filter s e w) as Ha. destruct (FilterAssertionCreated s e w) as [[it|x| |] w1] eqn:Ef; cbn in Ha;
    try by intros [= <- <-].
  destruct (scan_complete s e w it w1 Ef) as [Hn Hc].
  destruct (events_started e it Hn w1 m) as (w2 & -> & A & S). intros [= <- <-]. split; [by etrans|].
  intros _ b h Hb Hr. by apply S, (Hc b).
Qed.

Lemma check_keeps s e : keeps (both advances anything) (checkForAssertionAdded s e).
Proof.
  intros [w m]. destruct (checkForAssertionAdded s e (w, m)) as [r s'] eqn:E.
  split; [|done]. by apply check_covers in E as [? _].
Qed.

Lemma check_retried s e opts w m s' :
  UntilSucceeds retries (checkForAssertionAdded s e) opts (w, m) = (Ok tt, s') ->
  advances w s'.1 /\ covered s'.1 s match e with Some x => Z.min x (head w) | None => head w end.
Proof.
  intros (n & [w1 m1] & Hf & _ & Hok)%UntilSucceeds_ok.
  assert (Ha : advances w w1).
  { change (advances (w, m).1 (w1, m1).1). induction Hf as [|n a b c err _ Hb _ IH]; [done|].
    etrans; [|by apply IH]. pose proof (check_keeps s e a) as [Hk _]. rewrite Hb in Hk. etrans; [done|].
    apply scan_sleep. }
  apply check_covers in Hok as [Hk Hc]. split; [by etrans|].
  destruct Ha as [Hh _]. specialize (Hc eq_refl). intros b h Hb Hr. apply (Hc b); [done|].
  destruct e; lia.
Qed.


Lemma scan_once_covers from0 b w m b' s' :
  covered w from0 b -> scan_once retries b (w, m) = (Ok b', s') -> covered s'.1 from0 b'.
Proof.
  intros Hc. unfold scan_once, mbind, M_bind, attempt, chain, mret, M_ret.
  pose proof (scan_header w) as Ha. destruct (HeaderByNumber w) as [[n|x| |] w1] eqn:Eh; cbn in Ha; try done.
  2: { intros [= <- <-]. by eapply covered_advances. }
  pose proof (covered_advances _ _ _ _ Ha Hc) as Hc1.
  destruct (IsUint64 n); cbn; [|by intros [= <- <-]].
  destruct (Z.eqb_spec b n); [by intros [= <- <-]|].
  destruct (UntilSucceeds retries _ [] (w1, m)) as [[[]| | |] s2] eqn:Eu; try done. intros [= <- <-].
  apply check_retried in Eu as [Hk Hn]. apply scan_head in Eh.
  pose proof (covered_advances _ _ _ _ Hk Hc1) as Hc2.
  intros x h Hx Hr. destruct (Z.le_gt_cases x b); [apply (Hc2 x)|apply (Hn x)]; done || lia.
Qed.

Lemma scan_loop_covers signals : forall from0 b s b' s',
  covered s.1 from0 b -> scan_loop retries signals b s = (Ok b', s') -> covered s'.1 from0 b'.
Proof.
  induction signals as [|[] signals IH]; intros from0 b [w m] b' s' Hc; cbn [scan_loop]; try by intros [= <- <-].
  unfold mbind, M_bind. destruct (scan_once retries b (w, m)) as [[b1| | |] s1] eqn:E; try done.
  apply IH. by eapply scan_once_covers.
Qed.

Lemma first_scan_covers w m b s' : first_scan retries (w, m) = (Ok b, s') -> covered s'.1 b b.
Proof.
  unfold first_scan, mbind, M_bind, chain.
  destruct (LatestConfirmed w) as [[l| | |] w1]; try done.
  destruct (AssertionCreatedAtBlock l w1) as [[b0| | |] w2] eqn:Eb; try done.
  set (fn := fun '(w, s) => let '(r, w') := NewRollupUserLogicFilterer w in (r, (w', s))).
  assert (Hf : keeps (both advances anything) (UntilSucceeds retries fn [])).
  { apply keeps_UntilSucceeds; [apply _| |].
    - intros [w0 m0]. split; [apply scan_sleep|done].
    - apply (keeps_chain_both advances anything), scan_filterer. }
  specialize (Hf (w2, m)). destruct (UntilSucceeds retries fn [] (w2, m)) as [[[]| | |] [w3 m3]]; try done.
  destruct Hf as [[Hf _] _]. cbn in Hf.
  destruct (UntilSucceeds retries _ [] (w3, m3)) as [[[]| | |] s4] eqn:Eu; try done. intros [= <- <-].
  apply check_retried in Eu as [_ Hc]. apply scan_block in Eb.
  intros x h Hx Hr. apply (Hc x); [done|lia].
Qed.

(** The scan misses no assertion: on a chain without reorganisations and with
    filters that do not fail, after any number of polls both goroutines have been
    started for every assertion created from the block of the latest confirmed
    assertion to the last block scanned. *)
Theorem scan_misses_nothing signals w m from0 s1 last s' :
  first_scan retries (w, m) = (Ok from0, s1) -> scan_loop retries signals from0 s1 = (Ok last, s') ->
  scan retries signals (w, m) = (Ok last, s') /\ covered s'.1 from0 last.
Proof.
  intros H1 H2. split; [unfold scan, mbind, M_bind; by rewrite H1|].
  by eapply scan_loop_covers; [eapply first_scan_covers|].
Qed.

End scanning.

(** An error of the event iterator is lost: it ends the scan of the range without
    an error, so that the events after it are never seen and the next poll starts
    after the range; and on the first scan, whose range has no end, building the
    message dereferences a nil pointer. *)
Theorem iterator_error_lost {W} `{AssertionEnv W} retries w m from to_ err h it w1 w2 :
  HeaderByNumber w = (Ok to_, w1) -> IsUint64 to_ = true -> from <> to_ -> ContextErr w1 = None ->
  FilterAssertionCreated from (Some to_) w1 = (Ok ((Some err, h) :: it), w2) ->
  scan_once (S retries) from (w, m) = (Ok to_, (w2, m)) /\
  forall w' w3, FilterAssertionCreated from None w' = (Ok ((Some err, h) :: it), w3) ->
    checkForAssertionAdded from None (w', m) = (Panic NilDereference, (w3, m)).
Proof.
  intros Hh Hu Hne Hctx Hf. split.
  - unfold scan_once, mbind, M_bind, attempt, chain. rewrite Hh, Hu, (proj2 (Z.eqb_neq _ _) Hne). cbn [negb].
    rewrite (@UntilSucceeds_step _ manager_context). cbn [ContextErr manager_context fst]. rewrite Hctx.
    unfold checkForAssertionAdded, mbind, M_bind, chain. by rewrite Hf.
  - intros w' w3 Hf'. unfold checkForAssertionAdded, mbind, M_bind, chain. by rewrite Hf'.
Qed.

(** ** Examples *)

Module ToyRollup.

(** Assertion 1 is the genesis; 2, 3 and 4 follow each other, and the validator
    disagrees with the last two.  Assertion [h] was created in block [10 * h]. *)
Record world := { sent : Z; confirmedAssertions : gset AssertionHash; jobs : list Job;
  trackers : list EdgeId }.

Definition send (w : world) : world :=
  {| sent := sent w + 1; confirmedAssertions := confirmedAssertions w; jobs := jobs w; trackers := trackers w |}.
Definition state (h : AssertionHash) : ExecutionState :=
  {| GlobalState := {| BlockHash := 0; SendRoot := 0; Batch := h; PosInBatch := 0 |}; MachineStatus := 1 |}.
Definition info_of (h : AssertionHash) : AssertionCreatedInfo := {|
  ConfirmPeriodBlocks := 100; RequiredStake := 1; ParentAssertionHash := h - 1;
  BeforeState := AsSolidityStruct (state (h - 1)); AfterState := AsSolidityStruct (state h);
  InboxMaxCount := 5; AfterInboxBatchAcc := 0; InfoAssertionHash := h; WasmModuleRoot := 0;
  InfoChallengeManager := 0; TransactionHash := 0; CreationBlock := 10 * h |}.
Definition verdict (h : Z) : res unit := if h <=? 2 then Ok tt else Err ErrNoExecutionState.
Definition root_edge : Edge := {| Id := 9; GetChallengeLevel := 0; GetReversedChallengeLevel := 2;
  StartCommitment := (0, 1); EndCommitment := (32, 2); CreatedAtBlock := Ok 1; MutualId := 3; OriginId := 4;
  ClaimId := Some 2 |}.
Definition none {A} : M world A := fail (ErrNew "not implemented").

#[global] Instance toy_chain : ChainEnv world := {|
  HasRival _ := none; HasLengthOneRival _ := none; HasConfirmedRival _ := none; EdgeStatusOf _ := none;
  AssertionHashOf _ := mret 1; TopLevelClaimHeight _ := none; LowerChildOf _ := none; UpperChildOf _ := none;
  GetTotalChallengeLevels _ := 3; BisectOnChain _ _ _ := none; ConfirmByTimer _ _ := none;
  ConfirmByClaim _ _ := none; ConfirmByChildren _ := none; SpecChallengeManager := mret tt; GetEdge _ := none;
  ChallengePeriodBlocks := mret 20; AddBlockChallengeLevelZeroEdge _ _ _ _ := modify send ;; mret root_edge;
  AddSubChallengeLevelZeroEdge _ _ _ _ _ _ := none; ConfirmEdgeByOneStepProof _ _ _ _ := none;
  AssertionCreationInfo h := mret (info_of h);
  IsChallengeComplete _ := none; ConfirmAssertionByChallengeWinner _ _ := none;
  LatestConfirmed := mret 1; AssertionCreatedAtBlock h := if h <=? 4 then mret (10 * h) else none;
  HeaderByNumber := mret 45;
|}.

#[global] Instance toy_rollup : RollupEnv world := {|
  rollup_chain := toy_chain;
  GetLayerZeroHeights := mret {| BlockChallengeHeight := 32; BigStepChallengeHeight := 32; SmallStepChallengeHeight := 32 |};
  NumBigSteps := mret 1;
  CalculateEdgeId _ _ _ _ _ _ := mret 9;
  IsStaked := mret true;
  GetAssertion := mret;
  AssertionPrevId h := mret (h - 1);
  GetAssertionStatus h := w ← get; mret (if decide (h ∈ confirmedAssertions w) then AssertionConfirmed else AssertionPending);
  LatestCreatedAssertionHashes := mret [2; 3; 4];
  NewStakeOnNewAssertion _ _ := modify send ;; mret 30;
  StakeOnNewAssertion _ _ := modify send ;; mret 30;
  ConfirmAssertionByTime h := modify (fun w => {| sent := sent w + 1;
    confirmedAssertions := {[h]} ∪ confirmedAssertions w; jobs := jobs w; trackers := trackers w |});
|}.

#[global] Instance toy_context : Runtime.Context world := {| ContextErr _ := None; Sleep _ w := w |}.

(** The environment of a validator of a given mode. *)
Definition toy_env (mode : Z) : AssertionEnv world := {|
  assertion_rollup := toy_rollup;
  assertion_ctx := toy_context;
  AgreesWithExecutionState s := lift (verdict (Batch (GlobalState s)));
  ExecutionStateAfterBatchCount b := mret (state b);
  ChallengeAssertion _ := modify send;
  Mode := mode;
  MaxDelaySeconds := 0;
  RandInt _ := mret 0;
  NewRollupUserLogicFilterer := mret tt;
  FilterAssertionCreated s e := mret (filter (fun x => s <= 10 * snd x <= default 45 e)
    [(None, 1); (None, 2); (None, 3); (None, 4)]);
  GoJob j w := {| sent := sent w; confirmedAssertions := confirmedAssertions w; jobs := j :: jobs w;
    trackers := trackers w |};
|}.

Definition w0 : world := {| sent := 0; confirmedAssertions := {[1]}; jobs := []; trackers := [] |}.
Definition m0 : Manager := {| pollInterval := 1; confirmationAttemptInterval := 1; averageTimeForBlockCreation := 12;
  managerName := "toy"; forksDetectedCount := 0; challengesSubmittedCount := 0; assertionsProcessedCount := 0;
  postInterval := 1; submittedAssertions := ∅ |}.
Definition same_sent : relation world := fun w w' => sent w = sent w'.
#[global] Instance same_sent_preorder : PreOrder same_sent.
Proof. split; [done|]. intros w1 w2 w3. unfold same_sent. congruence. Qed.

Lemma reads mode : @ReadsRespect _ (toy_env mode) same_sent.
Proof. split; try apply _; try done. intros h w. cbn. by destruct (h <=? 4). Qed.

End ToyRollup.


Lemma manager_bookkeeping_witness :
  exists m, NewManager "toy" 1 1 1 12 = Ok m /\
    ForksDetected (@run _ (ToyRollup.toy_env MakeMode) 2 5 [Scanning [Tick]; Processing 4] (ToyRollup.w0, m)).2.2 = 0.
Proof.
  eexists. split; [reflexivity|].
  eapply (@manager_bookkeeping _ (ToyRollup.toy_env MakeMode) 2 5 "toy" 1 1 1 12). reflexivity.
Defined.

Lemma toy_climbs : @climbs ToyRollup.info_of ToyRollup.verdict 1 1 3 2.
Proof. apply climbs_up; [done| |apply climbs_here]. by eexists. Defined.

Lemma toy_opinion mode h : @AgreesWithExecutionState _ (ToyRollup.toy_env mode) (claimed_state ToyRollup.info_of h) ToyRollup.w0
  = (ToyRollup.verdict h, ToyRollup.w0).
Proof. reflexivity. Defined.

(** The nearest ancestor of 4 the validator agrees with is 2. *)
Lemma findLastAgreedWithAncestor_nearest_witness :
  @findLastAgreedWithAncestor _ (ToyRollup.toy_env MakeMode) 5 (ToyRollup.info_of 4) ToyRollup.w0 =
    (Ok (ToyRollup.info_of 2), ToyRollup.w0).
Proof.
  apply (@findLastAgreedWithAncestor_nearest _ (ToyRollup.toy_env MakeMode) ToyRollup.w0 ToyRollup.info_of
    ToyRollup.verdict 1 (fun _ => eq_refl) (toy_opinion MakeMode) eq_refl 5 (ToyRollup.info_of 4) 1 2 toy_climbs);
    [by right|lia].
Defined.

Lemma findLatestValidAssertion_latest_witness :
  exists h, @findLatestValidAssertion _ (ToyRollup.toy_env MakeMode) ToyRollup.w0 = (Ok h, ToyRollup.w0) /\
    (agreed ToyRollup.verdict h /\ (exists before after, [2; 3; 4] = before ++ h :: after /\
       Forall (fun x => ~ agreed ToyRollup.verdict x) after) \/
     h = 1 /\ Forall (fun x => ~ agreed ToyRollup.verdict x) [2; 3; 4]).
Proof.
  apply (@findLatestValidAssertion_latest _ (ToyRollup.toy_env MakeMode) ToyRollup.w0 ToyRollup.info_of
    ToyRollup.verdict 1 (fun _ => eq_refl) (toy_opinion MakeMode) eq_refl [2; 3; 4]); [done|].
  intros h _. unfold agreed, ToyRollup.verdict. destruct (h <=? 2); [by left|right; by eexists].
Defined.

(** Assertion 4 is answered by the rival 30 on top of 2 in defensive mode, and only
    counted by a watchtower. *)
Lemma ProcessAssertionCreationEvent_correct_witness :
  (let '(r, (_, m)) := @ProcessAssertionCreationEvent _ (ToyRollup.toy_env DefensiveMode) 5 4 (ToyRollup.w0, ToyRollup.m0) in
   r = Ok tt /\ submitted m 30 = true /\ challengesSubmittedCount m = 1) /\
  @ProcessAssertionCreationEvent _ (ToyRollup.toy_env WatchTowerMode) 5 4 (ToyRollup.w0, ToyRollup.m0) =
    (Ok tt, (ToyRollup.w0, with_assertion_processed ToyRollup.m0)).
Proof.
  split.
  - destruct (@ProcessAssertionCreationEvent_correct _ (ToyRollup.toy_env DefensiveMode) ToyRollup.w0
      ToyRollup.info_of ToyRollup.verdict 1 (fun _ => eq_refl) (toy_opinion DefensiveMode) eq_refl 5 4 ToyRollup.m0)
      as (_ & _ & H). destruct H as (_ & _ & _ & _ & H); [done..|].
    destruct (H ltac:(by eexists) eq_refl ltac:(by apply Z.leb_le) 1%nat 2 toy_climbs ltac:(lia)) as [_ Ha].
    destruct (Ha (Ok tt) (ToyRollup.send (ToyRollup.send ToyRollup.w0)) _ ltac:(by right)
      ltac:(eapply (@answer_challenged _ (ToyRollup.toy_env DefensiveMode) _ _ _ _ 30 (ToyRollup.send ToyRollup.w0));
        [eapply (@posts_rival _ (ToyRollup.toy_env DefensiveMode) _ _ _ true (ToyRollup.state 5)); reflexivity
        |eapply (@challenge_made _ (ToyRollup.toy_env DefensiveMode) _ _ 0); reflexivity])) as [-> _].
    split_and!; reflexivity.
  - destruct (@ProcessAssertionCreationEvent_correct _ (ToyRollup.toy_env WatchTowerMode) ToyRollup.w0
      ToyRollup.info_of ToyRollup.verdict 1 (fun _ => eq_refl) (toy_opinion WatchTowerMode) eq_refl 5 4 ToyRollup.m0)
      as (_ & _ & H). destruct H as (_ & _ & _ & H & _); [done..|]. apply H; [by eexists|reflexivity|by apply Z.ltb_lt].
Defined.

Lemma confirmation_persists_witness :
  let '(r, s') := @keepTryingAssertionConfirmation _ (ToyRollup.toy_env ResolveMode) (replicate 2 Tick) 2
    (ToyRollup.w0, ToyRollup.m0) in
  r = Ok tt /\ 2 ∈ ToyRollup.confirmedAssertions s'.1.
Proof.
  pose proof (@confirmation_persists _ (ToyRollup.toy_env ResolveMode) (fun w h => h ∈ ToyRollup.confirmedAssertions w)
    ltac:(intros h w w' E; cbn in E; injection E as E <-; by case_decide)
    ltac:(intros h w w' [= <-]; cbn; set_solver) 2 2 (ToyRollup.w0, ToyRollup.m0)) as Ht.
  destruct (@keepTryingAssertionConfirmation _ (ToyRollup.toy_env ResolveMode) (replicate 2 Tick) 2
    (ToyRollup.w0, ToyRollup.m0)) as [r s'] eqn:E.
  assert (Hr : r = Ok tt) by (vm_compute in E; by injection E as <- _).
  destruct (proj2 Ht) as [[_ [Hc|Hu]]|(k & s1 & _ & _ & [(p & Hp & _)|[Hp _]])];
    [apply Z.leb_le; reflexivity|by split| |congruence..].
  exfalso. inversion Hu as [|n s0 s1 s2 Ha _]. subst. vm_compute in Ha. discriminate.
Defined.

Lemma toy_scan_laws mode : @ScanLaws _ (ToyRollup.toy_env mode)
  (fun b h => 1 <= h <= 4 /\ b = 10 * h) (fun _ => 45) (fun w j => j ∈ ToyRollup.jobs w).
Proof.
  split; try done.
  - intros h w. cbn. by destruct (h <=? 4).
  - intros j w. split; [split; [done|]|]; cbn; set_solver.
  - intros w n w' [= <- <-]. done.
  - intros h w b w'. cbn. destruct (Z.leb_spec h 4); [|done]. intros [= <- <-]. lia.
  - intros s e w it w' [= <- <-]. split.
    + apply Forall_forall. intros x Hx. apply list_elem_of_In, list_elem_of_filter in Hx as [_ Hx].
      repeat (apply elem_of_cons in Hx as [->|Hx]; [done|]). by apply elem_of_nil in Hx.
    + intros b h [Hh ->] Hb. apply list_elem_of_filter. split; [destruct e; cbn in *; lia|].
      assert (h = 1 \/ h = 2 \/ h = 3 \/ h = 4) as [->|[->|[->| ->]]] by lia; repeat constructor.
Qed.

Lemma scan_misses_nothing_witness :
  let s' := (@scan _ (ToyRollup.toy_env MakeMode) 2 [Tick] (ToyRollup.w0, ToyRollup.m0)).2 in
  covered (fun b h => 1 <= h <= 4 /\ b = 10 * h) (fun w j => j ∈ ToyRollup.jobs w) s'.1 10 45.
Proof.
  refine (proj2 (@scan_misses_nothing _ (ToyRollup.toy_env MakeMode) 2
    (fun b h => 1 <= h <= 4 /\ b = 10 * h) (fun _ => 45) (fun w j => j ∈ ToyRollup.jobs w) (toy_scan_laws MakeMode)
    [Tick] ToyRollup.w0 ToyRollup.m0 10 _ 45 _ _ _)); reflexivity.
Defined.
