(* ===== verification/ChallengeManager.v ===== *)
(** * The challenge manager

    [challenge-manager/manager.go] and [challenges.go]: the top of the validator.  It
    builds the watcher and the assertion manager, opens challenges, and keeps one
    tracker per edge. *)

From S2P Require Import Prelude Api Bits PrefixProofs Containers InclusionProofs History ChallengeTree EdgeTracker Watcher Assertions Protocol Provider Chain Runtime.

Definition millisecond : Z := 1000000.
Definition minute : Z := 60 * second.
Definition hour : Z := 60 * minute.

(** The fields of [Manager] that are data; the contract bindings it holds are built in
    [New] and only used through the interfaces of [ManagerEnv]. *)
Record Manager := {
  address : Z;
  name : string;
  edgeTrackerWakeInterval : Z;
  chainWatcherInterval : Z;
  watcher : option Watcher;
  trackedEdgeIds : gmap EdgeId bool;
  batchIndexForAssertionCache : gmap AssertionHash AssociatedAssertionMetadata;
  assertionManager : option Assertions.Manager;
  assertionPostingInterval : Z;
  assertionScanningInterval : Z;
  assertionConfirmingInterval : Z;
  averageTimeForBlockCreation : Z;
  mode : Z;
  maxDelaySeconds : Z;
  challengedAssertions : gmap AssertionHash bool;
  apiAddr : string;
  api : bool;
  apiDBConfig : option DBConfig;
  client : bool;
}.

(** ** Options *)

Definition initial_manager : Manager := {|
  address := 0; name := ""; edgeTrackerWakeInterval := 0; chainWatcherInterval := 500 * millisecond;
  watcher := None; trackedEdgeIds := Set_.NewSet; batchIndexForAssertionCache := Map.NewMap;
  assertionManager := None; assertionPostingInterval := hour; assertionScanningInterval := minute;
  assertionConfirmingInterval := 10 * second; averageTimeForBlockCreation := 12 * second;
  mode := WatchTowerMode; maxDelaySeconds := 0; challengedAssertions := Set_.NewSet;
  apiAddr := ""; api := false; apiDBConfig := None; client := false |}.

Definition WithName (n : string) (v : Manager) : Manager := {|
  address := address v; name := n; edgeTrackerWakeInterval := edgeTrackerWakeInterval v;
  chainWatcherInterval := chainWatcherInterval v; watcher := watcher v; trackedEdgeIds := trackedEdgeIds v;
  batchIndexForAssertionCache := batchIndexForAssertionCache v; assertionManager := assertionManager v;
  assertionPostingInterval := assertionPostingInterval v;
  assertionScanningInterval := assertionScanningInterval v;
  assertionConfirmingInterval := assertionConfirmingInterval v;
  averageTimeForBlockCreation := averageTimeForBlockCreation v; mode := mode v;
  maxDelaySeconds := maxDelaySeconds v; challengedAssertions := challengedAssertions v; apiAddr := apiAddr v;
  api := api v; apiDBConfig := apiDBConfig v; client := client v |}.
Definition WithAddress (addr : Z) (v : Manager) : Manager := {|
  address := addr; name := name v; edgeTrackerWakeInterval := edgeTrackerWakeInterval v;
  chainWatcherInterval := chainWatcherInterval v; watcher := watcher v; trackedEdgeIds := trackedEdgeIds v;
  batchIndexForAssertionCache := batchIndexForAssertionCache v; assertionManager := assertionManager v;
  assertionPostingInterval := assertionPostingInterval v;
  assertionScanningInterval := assertionScanningInterval v;
  assertionConfirmingInterval := assertionConfirmingInterval v;
  averageTimeForBlockCreation := averageTimeForBlockCreation v; mode := mode v;
  maxDelaySeconds := maxDelaySeconds v; challengedAssertions := challengedAssertions v; apiAddr := apiAddr v;
  api := api v; apiDBConfig := apiDBConfig v; client := client v |}.
Definition WithEdgeTrackerWakeInterval (d : Z) (v : Manager) : Manager := {|
  address := address v; name := name v; edgeTrackerWakeInterval := d;
  chainWatcherInterval := chainWatcherInterval v; watcher := watcher v; trackedEdgeIds := trackedEdgeIds v;
  batchIndexForAssertionCache := batchIndexForAssertionCache v; assertionManager := assertionManager v;
  assertionPostingInterval := assertionPostingInterval v;
  assertionScanningInterval := assertionScanningInterval v;
  assertionConfirmingInterval := assertionConfirmingInterval v;
  averageTimeForBlockCreation := averageTimeForBlockCreation v; mode := mode v;
  maxDelaySeconds := maxDelaySeconds v; challengedAssertions := challengedAssertions v; apiAddr := apiAddr v;
  api := api v; apiDBConfig := apiDBConfig v; client := client v |}.
Definition WithAssertionPostingInterval (d : Z) (v : Manager) : Manager := {|
  address := address v; name := name v; edgeTrackerWakeInterval := edgeTrackerWakeInterval v;
  chainWatcherInterval := chainWatcherInterval v; watcher := watcher v; trackedEdgeIds := trackedEdgeIds v;
  batchIndexForAssertionCache := batchIndexForAssertionCache v; assertionManager := assertionManager v;
  assertionPostingInterval := d; assertionScanningInterval := assertionScanningInterval v;
  assertionConfirmingInterval := assertionConfirmingInterval v;
  averageTimeForBlockCreation := averageTimeForBlockCreation v; mode := mode v;
  maxDelaySeconds := maxDelaySeconds v; challengedAssertions := challengedAssertions v; apiAddr := apiAddr v;
  api := api v; apiDBConfig := apiDBConfig v; client := client v |}.
Definition WithAssertionScanningInterval (d : Z) (v : Manager) : Manager := {|
  address := address v; name := name v; edgeTrackerWakeInterval := edgeTrackerWakeInterval v;
  chainWatcherInterval := chainWatcherInterval v; watcher := watcher v; trackedEdgeIds := trackedEdgeIds v;
  batchIndexForAssertionCache := batchIndexForAssertionCache v; assertionManager := assertionManager v;
  assertionPostingInterval := assertionPostingInterval v; assertionScanningInterval := d;
  assertionConfirmingInterval := assertionConfirmingInterval v;
  averageTimeForBlockCreation := averageTimeForBlockCreation v; mode := mode v;
  maxDelaySeconds := maxDelaySeconds v; challengedAssertions := challengedAssertions v; apiAddr := apiAddr v;
  api := api v; apiDBConfig := apiDBConfig v; client := client v |}.
Definition WithAssertionConfirmingInterval (d : Z) (v : Manager) : Manager := {|
  address := address v; name := name v; edgeTrackerWakeInterval := edgeTrackerWakeInterval v;
  chainWatcherInterval := chainWatcherInterval v; watcher := watcher v; trackedEdgeIds := trackedEdgeIds v;
  batchIndexForAssertionCache := batchIndexForAssertionCache v; assertionManager := assertionManager v;
  assertionPostingInterval := assertionPostingInterval v;
  assertionScanningInterval := assertionScanningInterval v; assertionConfirmingInterval := d;
  averageTimeForBlockCreation := averageTimeForBlockCreation v; mode := mode v;
  maxDelaySeconds := maxDelaySeconds v; challengedAssertions := challengedAssertions v; apiAddr := apiAddr v;
  api := api v; apiDBConfig := apiDBConfig v; client := client v |}.
Definition WithMode (md : Z) (v : Manager) : Manager := {|
  address := address v; name := name v; edgeTrackerWakeInterval := edgeTrackerWakeInterval v;
  chainWatcherInterval := chainWatcherInterval v; watcher := watcher v; trackedEdgeIds := trackedEdgeIds v;
  batchIndexForAssertionCache := batchIndexForAssertionCache v; assertionManager := assertionManager v;
  assertionPostingInterval := assertionPostingInterval v;
  assertionScanningInterval := assertionScanningInterval v;
  assertionConfirmingInterval := assertionConfirmingInterval v;
  averageTimeForBlockCreation := averageTimeForBlockCreation v; mode := md;
  maxDelaySeconds := maxDelaySeconds v; challengedAssertions := challengedAssertions v; apiAddr := apiAddr v;
  api := api v; apiDBConfig := apiDBConfig v; client := client v |}.
Definition WithAPIEnabled (addr : string) (v : Manager) : Manager := {|
  address := address v; name := name v; edgeTrackerWakeInterval := edgeTrackerWakeInterval v;
  chainWatcherInterval := chainWatcherInterval v; watcher := watcher v; trackedEdgeIds := trackedEdgeIds v;
  batchIndexForAssertionCache := batchIndexForAssertionCache v; assertionManager := assertionManager v;
  assertionPostingInterval := assertionPostingInterval v;
  assertionScanningInterval := assertionScanningInterval v;
  assertionConfirmingInterval := assertionConfirmingInterval v;
  averageTimeForBlockCreation := averageTimeForBlockCreation v; mode := mode v;
  maxDelaySeconds := maxDelaySeconds v; challengedAssertions := challengedAssertions v; apiAddr := addr;
  api := api v; apiDBConfig := apiDBConfig v; client := client v |}.
Definition WithAPIDB (config : DBConfig) (v : Manager) : Manager := {|
  address := address v; name := name v; edgeTrackerWakeInterval := edgeTrackerWakeInterval v;
  chainWatcherInterval := chainWatcherInterval v; watcher := watcher v; trackedEdgeIds := trackedEdgeIds v;
  batchIndexForAssertionCache := batchIndexForAssertionCache v; assertionManager := assertionManager v;
  assertionPostingInterval := assertionPostingInterval v;
  assertionScanningInterval := assertionScanningInterval v;
  assertionConfirmingInterval := assertionConfirmingInterval v;
  averageTimeForBlockCreation := averageTimeForBlockCreation v; mode := mode v;
  maxDelaySeconds := maxDelaySeconds v; challengedAssertions := challengedAssertions v; apiAddr := apiAddr v;
  api := api v; apiDBConfig := Some config; client := client v |}.
(** Only whether a client was given matters. *)
Definition WithRPCClient (v : Manager) : Manager := {|
  address := address v; name := name v; edgeTrackerWakeInterval := edgeTrackerWakeInterval v;
  chainWatcherInterval := chainWatcherInterval v; watcher := watcher v; trackedEdgeIds := trackedEdgeIds v;
  batchIndexForAssertionCache := batchIndexForAssertionCache v; assertionManager := assertionManager v;
  assertionPostingInterval := assertionPostingInterval v;
  assertionScanningInterval := assertionScanningInterval v;
  assertionConfirmingInterval := assertionConfirmingInterval v;
  averageTimeForBlockCreation := averageTimeForBlockCreation v; mode := mode v;
  maxDelaySeconds := maxDelaySeconds v; challengedAssertions := challengedAssertions v; apiAddr := apiAddr v;
  api := api v; apiDBConfig := apiDBConfig v; client := true |}.

(** ** Updates *)

Definition with_tracked (i : EdgeId) (v : Manager) : Manager := {|
  address := address v; name := name v; edgeTrackerWakeInterval := edgeTrackerWakeInterval v;
  chainWatcherInterval := chainWatcherInterval v; watcher := watcher v;
  trackedEdgeIds := Set_.Insert i (trackedEdgeIds v);
  batchIndexForAssertionCache := batchIndexForAssertionCache v; assertionManager := assertionManager v;
  assertionPostingInterval := assertionPostingInterval v;
  assertionScanningInterval := assertionScanningInterval v;
  assertionConfirmingInterval := assertionConfirmingInterval v;
  averageTimeForBlockCreation := averageTimeForBlockCreation v; mode := mode v;
  maxDelaySeconds := maxDelaySeconds v; challengedAssertions := challengedAssertions v; apiAddr := apiAddr v;
  api := api v; apiDBConfig := apiDBConfig v; client := client v |}.
Definition with_cached (h : AssertionHash) (meta : AssociatedAssertionMetadata) (v : Manager) : Manager := {|
  address := address v; name := name v; edgeTrackerWakeInterval := edgeTrackerWakeInterval v;
  chainWatcherInterval := chainWatcherInterval v; watcher := watcher v; trackedEdgeIds := trackedEdgeIds v;
  batchIndexForAssertionCache := Map.Put h meta (batchIndexForAssertionCache v);
  assertionManager := assertionManager v; assertionPostingInterval := assertionPostingInterval v;
  assertionScanningInterval := assertionScanningInterval v;
  assertionConfirmingInterval := assertionConfirmingInterval v;
  averageTimeForBlockCreation := averageTimeForBlockCreation v; mode := mode v;
  maxDelaySeconds := maxDelaySeconds v; challengedAssertions := challengedAssertions v; apiAddr := apiAddr v;
  api := api v; apiDBConfig := apiDBConfig v; client := client v |}.
Definition with_challenged (h : AssertionHash) (v : Manager) : Manager := {|
  address := address v; name := name v; edgeTrackerWakeInterval := edgeTrackerWakeInterval v;
  chainWatcherInterval := chainWatcherInterval v; watcher := watcher v; trackedEdgeIds := trackedEdgeIds v;
  batchIndexForAssertionCache := batchIndexForAssertionCache v; assertionManager := assertionManager v;
  assertionPostingInterval := assertionPostingInterval v;
  assertionScanningInterval := assertionScanningInterval v;
  assertionConfirmingInterval := assertionConfirmingInterval v;
  averageTimeForBlockCreation := averageTimeForBlockCreation v; mode := mode v;
  maxDelaySeconds := maxDelaySeconds v; challengedAssertions := Set_.Insert h (challengedAssertions v);
  apiAddr := apiAddr v; api := api v; apiDBConfig := apiDBConfig v; client := client v |}.
Definition with_parts (w : Watcher) (am : Assertions.Manager) (withAPI : bool) (v : Manager) : Manager := {|
  address := address v; name := name v; edgeTrackerWakeInterval := edgeTrackerWakeInterval v;
  chainWatcherInterval := chainWatcherInterval v; watcher := Some w; trackedEdgeIds := trackedEdgeIds v;
  batchIndexForAssertionCache := batchIndexForAssertionCache v; assertionManager := Some am;
  assertionPostingInterval := assertionPostingInterval v;
  assertionScanningInterval := assertionScanningInterval v;
  assertionConfirmingInterval := assertionConfirmingInterval v;
  averageTimeForBlockCreation := averageTimeForBlockCreation v; mode := mode v;
  maxDelaySeconds := maxDelaySeconds v; challengedAssertions := challengedAssertions v; apiAddr := apiAddr v;
  api := withAPI; apiDBConfig := apiDBConfig v; client := client v |}.

(** ** What a manager calls *)

(** The goroutines a manager starts. *)
Inductive Service := AssertionService | WatcherService | APIService.

Class ManagerEnv (W : Type) := {
  manager_rollup :: RollupEnv W;
  manager_ctx :: Runtime.Context W;
  (* l2stateprovider.Provider *)
  ProviderHistoryCommitment : HistoryCommitmentRequest -> M W History;
  ProviderPrefixProof : HistoryCommitmentRequest -> Z -> M W (list Z);
  (* the watcher *)
  WatcherRootEdge : AssertionHash -> M W Edge;
  WatcherAddVerifiedHonestEdge : Edge -> M W unit;
  (* bindings and servers built by New *)
  NewRollupCore : M W unit;
  NewRollupCoreFilterer : M W unit;
  NewChallengeManagerFilterer : M W unit;
  NewAPIServer : string -> option DBConfig -> M W unit;
  ManagerRandInt : Z -> M W Z;
  (* goroutines *)
  GoTracker : Tracker -> W -> W;
  GoService : Service -> W -> W;
}.

Section challenge_manager.
Context {W : Type} `{ManagerEnv W}.
(** The bound on the number of calls a retry loop makes. *)
Context (retries : nat).

Abbreviation CM := (M (W * Manager)).

#[local] Instance cm_context : Runtime.Context (W * Manager) := {|
  ContextErr := fun s => ContextErr (fst s);
  Sleep := fun d s => (Sleep d (fst s), snd s);
|}.

Definition this : CM Manager := s ← get; mret (snd s).
Definition set_this (f : Manager -> Manager) : CM unit := modify (fun s => (fst s, f (snd s))).

(** ** Construction *)

Definition New (opts : list (Manager -> Manager)) : M W Manager :=
  let m := fold_left (fun m o => o m) opts initial_manager in
  m ← (if edgeTrackerWakeInterval m =? 0 then
         n ← ManagerRandInt 60;
         mret (WithEdgeTrackerWakeInterval (int64 (u64 (second * int64 (u64 n)))) m)
       else mret m);
  SpecChallengeManager ;;
  NewRollupCore ;;
  NewRollupCoreFilterer ;;
  NewChallengeManagerFilterer ;;
  numBigStepLevels ← NumBigSteps;
  watcher ← lift (Watcher.New (chainWatcherInterval m) numBigStepLevels);
  assertionManager ← lift (NewManager (name m) (assertionScanningInterval m) (assertionConfirmingInterval m)
    (assertionPostingInterval m) (averageTimeForBlockCreation m));
  let enabled := negb (bool_decide (apiAddr m = "")) in
  if enabled && negb (client m) then fail (ErrNew "go-ethereum RPC client required to enable API service")
  else
    (if enabled then NewAPIServer (apiAddr m) (apiDBConfig m) else mret tt) ;;
    mret (with_parts watcher assertionManager enabled m).

(** ** Edges *)

Definition IsTrackingEdge (edgeId : EdgeId) (m : Manager) : bool := Set_.Has edgeId (trackedEdgeIds m).
Definition MarkTrackedEdge (edgeId : EdgeId) (m : Manager) : Manager := with_tracked edgeId m.
Definition Mode (m : Manager) : Z := mode m.
Definition MaxDelaySeconds (m : Manager) : Z := maxDelaySeconds m.

Definition new_tracker (m : Manager) (edge : Edge) (meta : AssociatedAssertionMetadata) : res Tracker :=
  EdgeTracker.New edge meta [WithActInterval (edgeTrackerWakeInterval m); WithValidatorName (name m)].

Definition metadata_of (info prevInfo : AssertionCreatedInfo) : AssociatedAssertionMetadata := {|
  MetaFromBatch := Batch (GoGlobalStateFromSolidity (SolGlobal (BeforeState info)));
  MetaToBatch := Batch (GoGlobalStateFromSolidity (SolGlobal (AfterState info)));
  MetaWasmModuleRoot := WasmModuleRoot prevInfo |}.

(** The metadata of the claimed assertion, from the cache or read and cached. *)
Definition assertion_metadata (claimedAssertionId : AssertionHash) : CM AssociatedAssertionMetadata :=
  m ← this;
  match Map.TryGet claimedAssertionId (batchIndexForAssertionCache m) with
  | Some cached => mret cached
  | None =>
      assertionCreationInfo ← UntilSucceeds retries (chain (AssertionCreationInfo claimedAssertionId)) [];
      prevCreationInfo ← UntilSucceeds retries
        (chain (AssertionCreationInfo (ParentAssertionHash assertionCreationInfo))) [];
      let info := metadata_of assertionCreationInfo prevCreationInfo in
      set_this (with_cached claimedAssertionId info) ;;
      mret info
  end.

Definition getTrackerForEdge (edge : Edge) : CM Tracker :=
  assertionHash ← UntilSucceeds retries (chain (AssertionHashOf edge)) [];
  blockChallengeRootEdge ← chain (WatcherRootEdge assertionHash);
  match ClaimId blockChallengeRootEdge with
  | None => fail (ErrNew "block challenge root edge %#x did not have a claim id for challenged assertion %#x")
  | Some claimedAssertionId =>
      edgeTrackerAssertionInfo ← assertion_metadata claimedAssertionId;
      m ← this;
      UntilSucceeds retries (lift (new_tracker m edge edgeTrackerAssertionInfo)) []
  end.

Definition TrackEdge (edge : Edge) : CM unit :=
  m ← this;
  if IsTrackingEdge (Id edge) m then mret tt
  else
    trk ← getTrackerForEdge edge;
    chain (modify (GoTracker trk)).

(** ** Challenges *)

(** The edge, its metadata and whether it "already exists". *)
Definition addBlockChallengeLevelZeroEdge (assertion : AssertionHash)
    : M W (option (Edge * AssociatedAssertionMetadata) * bool) :=
  creationInfo ← wrapM "could not get assertion creation info" (AssertionCreationInfo assertion);
  prevCreationInfo ← wrapM "could not get assertion creation info"
    (AssertionCreationInfo (ParentAssertionHash creationInfo));
  let meta := metadata_of creationInfo prevCreationInfo in
  let request upTo := {| ReqWasmModuleRoot := MetaWasmModuleRoot meta; FromBatch := MetaFromBatch meta;
    ToBatch := MetaToBatch meta; UpperChallengeOriginHeights := []; FromHeight := 0; UpToHeight := Some upTo |} in
  startCommit ← ProviderHistoryCommitment (request 0);
  SpecChallengeManager ;;
  layerZeroHeights ← GetLayerZeroHeights;
  let req := request (BlockChallengeHeight layerZeroHeights) in
  endCommit ← ProviderHistoryCommitment req;
  precomputedEdgeId ← wrapM "could not calculate edge id"
    (CalculateEdgeId NewBlockChallengeLevel (ParentAssertionHash creationInfo) (Height startCommit)
      (Merkle startCommit) (Height endCommit) (Merkle endCommit));
  someLevelZeroEdge ← attempt (GetEdge precomputedEdgeId);
  match someLevelZeroEdge with
  | inl (Some _) => mret (None, true)
  | _ =>
      startEndPrefixProof ← ProviderPrefixProof req 0;
      edge ← wrapM "could not post block challenge root edge"
        (AddBlockChallengeLevelZeroEdge assertion startCommit endCommit startEndPrefixProof);
      mret (Some (edge, meta), true)
  end.

Definition ChallengeAssertion (id : AssertionHash) : CM unit :=
  assertion ← wrapM "could not get assertion to challenge with id %#x" (chain (GetAssertion id));
  parentAssertionHash ← wrapM "could not get parent assertion hash for assertion with id %#x"
    (chain (AssertionPrevId assertion));
  m ← this;
  if Set_.Has parentAssertionHash (challengedAssertions m) then mret tt
  else
    assertionStatus ← wrapM "could not get assertion status with id %#x" (chain (GetAssertionStatus assertion));
    if bool_decide (assertionStatus = AssertionConfirmed) then mret tt
    else
      '(levelZeroEdge, alreadyExists) ← wrapM "could not add block challenge level zero edge %v: %w"
        (chain (addBlockChallengeLevelZeroEdge assertion));
      if (alreadyExists : bool) then mret tt
      else
        '(levelZeroEdge, edgeTrackerAssertionInfo) ←
          match levelZeroEdge with Some e => mret e | None => crash NilDereference end;
        _ ← attempt (chain (WatcherAddVerifiedHonestEdge levelZeroEdge));
        m ← this;
        tracker ← lift (new_tracker m levelZeroEdge edgeTrackerAssertionInfo);
        chain (modify (GoTracker tracker)) ;;
        set_this (with_challenged parentAssertionHash).

(** ** The service *)

Definition Start : CM unit :=
  m ← this;
  chain (modify (GoService AssertionService)) ;;
  if (mode m =? WatchTowerMode) || (mode m =? ResolveMode) then mret tt
  else
    chain (modify (GoService WatcherService)) ;;
    if api m then chain (modify (GoService APIService)) else mret tt.

End challenge_manager.
