(* ===== verification/ChallengeManagerSpec.v ===== *)
(** * What the challenge manager guarantees *)

From S2P Require Import Prelude Bits PrefixProofs Containers Fsm InclusionProofs History ChallengeTree EdgeTracker Watcher Assertions AssertionsSpec Protocol Provider Chain Runtime ChallengeManager.

(** ** Opening a challenge *)

(** A preorder of worlds that every call of [ChallengeAssertion] up to the creation of
    the level zero edge respects, that creation included. *)
Class ChallengesRespect {W} `{ManagerEnv W} (R : relation W) : Prop := {
  challenges_preorder :: PreOrder R;
  challenges_assertion a : keeps R (GetAssertion a);
  challenges_prev a : keeps R (AssertionPrevId a);
  challenges_status a : keeps R (GetAssertionStatus a);
  challenges_info a : keeps R (AssertionCreationInfo a);
  challenges_history r : keeps R (ProviderHistoryCommitment r);
  challenges_proof r h : keeps R (ProviderPrefixProof r h);
  challenges_manager : keeps R SpecChallengeManager;
  challenges_heights : keeps R GetLayerZeroHeights;
  challenges_edge_id l o s r e q : keeps R (CalculateEdgeId l o s r e q);
  challenges_edge i : keeps R (GetEdge i);
  challenges_add a s e p : keeps R (AddBlockChallengeLevelZeroEdge a s e p);
}.

#[export] Hint Resolve challenges_assertion challenges_prev challenges_status challenges_info challenges_history
  challenges_proof challenges_manager challenges_heights challenges_edge_id challenges_edge challenges_add : keeps.

Section challenges.
Context {W : Type} `{ManagerEnv W} (R : relation W) `{!ChallengesRespect R}.

Lemma level_zero_always_exists a w r w' :
  addBlockChallengeLevelZeroEdge a w = (Ok r, w') -> snd r = true.
Proof.
  unfold addBlockChallengeLevelZeroEdge, mbind, M_bind, wrapM, attempt, mret, M_ret. cbn zeta. intros E.
  repeat (match type of E with
    | context [match ?x with _ => _ end] =>
        lazymatch x with context [match _ with _ => _ end] => fail | _ => destruct x end
    end; cbn [wrap_err] in E; try discriminate E); by injection E as <- _.
Qed.

Lemma keeps_level_zero a : keeps R (addBlockChallengeLevelZeroEdge a).
Proof. unfold addBlockChallengeLevelZeroEdge. cbn zeta. keeps_tac. Qed.

Lemma keeps_chain_eq {S A} (m : M W A) : keeps R m -> keeps (both R (@eq S)) (chain m).
Proof. apply keeps_chain_both, _. Qed.
#[local] Hint Resolve keeps_level_zero keeps_chain_eq : keeps.

(** The rest of a computation only has to be considered for results that occur. *)
Lemma keeps_bind_ok {S A B} (Q : relation S) `{!PreOrder Q} (m : M S A) (f : A -> M S B) :
  keeps Q m -> (forall s a s', m s = (Ok a, s') -> keeps Q (f a)) -> keeps Q (m ≫= f).
Proof.
  intros Hm Hf s. unfold mbind, M_bind. specialize (Hm s). destruct (m s) as [[a| | |] s'] eqn:E; try done.
  cbn in *. etrans; [done|]. by eapply Hf.
Qed.

Lemma keeps_challenge a : keeps (both R eq) (ChallengeAssertion a).
Proof.
  unfold ChallengeAssertion. do 2 (apply keeps_bind; [apply _|by keeps_tac|intros ?]).
  apply keeps_bind; [apply _|by intros [w m]|intros m].
  destruct (Set_.Has _ _); [apply keeps_ret, _|]. apply keeps_bind; [apply _|by keeps_tac|intros ?].
  case_bool_decide; [apply keeps_ret, _|].
  apply keeps_bind_ok; [apply _|by keeps_tac|].
  intros [w m0] [o b] s' E. unfold wrapM, chain in E.
  destruct (addBlockChallengeLevelZeroEdge _ w) as [[r| | |] w'] eqn:El; try done. injection E as -> <-.
  apply level_zero_always_exists in El. cbn in El. subst b. apply keeps_ret, _.
Qed.

End challenges.

(** Opening a challenge is never followed up: [addBlockChallengeLevelZeroEdge]
    reports that the edge already exists also when it has just created it, so that
    [ChallengeAssertion] returns before it hands the edge to the watcher, starts a
    tracker for it or records the assertion as challenged.  Any property of the world
    kept by the calls up to the creation of the edge is kept, and the manager's own
    state does not change. *)
Theorem ChallengeAssertion_never_tracks {W} `{ManagerEnv W} (R : relation W) a w m :
  ChallengesRespect R -> R w (ChallengeAssertion a (w, m)).2.1 /\ (ChallengeAssertion a (w, m)).2.2 = m.
Proof. intros HR. destruct (keeps_challenge R a (w, m)) as [? E]. split; [done|]. by rewrite <- E. Qed.

(** ** Trackers *)

Section tracking.
Context {W : Type} `{ManagerEnv W} (retries : nat).
(** A world whose reads answer without changing it. *)
Context (w : W) (info : AssertionHash -> AssertionCreatedInfo).

Hypothesis alive : ContextErr w = None.
Hypothesis read_info : forall h, AssertionCreationInfo h w = (Ok (info h), w).

Definition metadata (h : AssertionHash) : AssociatedAssertionMetadata :=
  metadata_of (info h) (info (ParentAssertionHash (info h))).

(** What the cache holds is what reading would give. *)
Definition cache_ok (m : Manager) : Prop :=
  forall h meta, batchIndexForAssertionCache m !! h = Some meta -> meta = metadata h.

Lemma retry_chain {A} (m : M W A) s a : m w = (Ok a, w) ->
  @UntilSucceeds _ cm_context _ (S retries) (chain m) [] (w, s) = (Ok a, (w, s)).
Proof.
  intros E. rewrite (@UntilSucceeds_step _ cm_context). cbn [ContextErr cm_context fst]. rewrite alive.
  unfold chain. by rewrite E.
Qed.

Lemma assertion_metadata_spec h m : cache_ok m -> exists m',
  assertion_metadata (S retries) h (w, m) = (Ok (metadata h), (w, m')) /\ cache_ok m' /\
  trackedEdgeIds m' = trackedEdgeIds m /\ edgeTrackerWakeInterval m' = edgeTrackerWakeInterval m /\
  name m' = name m /\ batchIndexForAssertionCache m' !! h = Some (metadata h).
Proof.
  intros Hc. unfold assertion_metadata, this, mbind, M_bind. cbn [get snd mret M_ret].
  destruct (Map.TryGet h (batchIndexForAssertionCache m)) as [meta|] eqn:E.
  - exists m. rewrite (Hc h meta E). split_and!; try done. unfold Map.TryGet in E. by rewrite E, (Hc h meta E).
  - rewrite (retry_chain _ m (info h)) by done. rewrite (retry_chain _ m (info (ParentAssertionHash (info h)))) by done.
    exists (with_cached h (metadata h) m). split; [done|]. cbn. unfold Map.Put.
    split_and!; try done; [|by rewrite lookup_insert_eq].
    intros h' meta. cbn. unfold Map.Put. destruct (decide (h = h')) as [->|Hne];
      [rewrite lookup_insert_eq; by intros [= <-]|rewrite lookup_insert_ne by done; apply Hc].
Qed.

(** (C32) [TrackEdge] starts exactly one tracker for an edge that has none: the tracker
    follows that edge from the start state, acts at the configured interval and knows
    the batches of the assertion claimed by the root of the edge's challenge and the
    module root of its parent, whether these were read or cached; the cache then
    holds the entry and stays truthful.  For a tracked edge nothing happens. *)
Theorem TrackEdge_correct edge m assertionHash root claimed :
  cache_ok m -> AssertionHashOf edge w = (Ok assertionHash, w) ->
  WatcherRootEdge assertionHash w = (Ok root, w) -> ClaimId root = Some claimed ->
  edgeTrackerWakeInterval m <> 0 ->
  if ChallengeManager.IsTrackingEdge (Id edge) m
  then TrackEdge (S retries) edge (w, m) = (Ok tt, (w, m))
  else exists trk m', TrackEdge (S retries) edge (w, m) = (Ok tt, (GoTracker trk w, m')) /\
    EdgeTracker.edge trk = edge /\ Fsm.State (Current (fsm trk)) = EdgeStarted /\
    actInterval trk = edgeTrackerWakeInterval m /\ associatedAssertionMetadata trk = metadata claimed /\
    cache_ok m' /\ batchIndexForAssertionCache m' !! claimed = Some (metadata claimed) /\
    trackedEdgeIds m' = trackedEdgeIds m.
Proof.
  intros Hc Ha Hr Hcl Hi.
  assert (Hstart : forall b, b = ChallengeManager.IsTrackingEdge (Id edge) m ->
    TrackEdge (S retries) edge (w, m) = if b then (Ok tt, (w, m)) else
      (trk ← getTrackerForEdge (S retries) edge; chain (modify (GoTracker trk))) (w, m)).
  { intros b ->. unfold TrackEdge, this. unfold mbind, M_bind. cbn [get snd mret M_ret].
    by destruct (ChallengeManager.IsTrackingEdge (Id edge) m). }
  destruct (ChallengeManager.IsTrackingEdge (Id edge) m) eqn:Et; rewrite (Hstart _ eq_refl); [done|].
  unfold getTrackerForEdge. unfold mbind, M_bind. rewrite (retry_chain _ m assertionHash) by done.
  unfold chain at 1. rewrite Hr, Hcl.
  destruct (assertion_metadata_spec claimed m Hc) as (m' & -> & Hc' & Ht & Hw & Hn & Hb).
  unfold this, mbind, M_bind. cbn [get snd mret M_ret].
  rewrite (@UntilSucceeds_step _ cm_context). cbn [ContextErr cm_context fst]. rewrite alive.
  unfold lift, new_tracker, EdgeTracker.New. cbn [fold_left WithActInterval WithValidatorName actInterval].
  rewrite Hw, (proj2 (Z.eqb_neq _ _) Hi). cbn. eexists _, m'. split_and!; done.
Qed.

End tracking.

(** ** The wake interval *)

Definition same_interval : relation Manager := fun m m' => edgeTrackerWakeInterval m' = edgeTrackerWakeInterval m.
#[global] Instance same_interval_preorder : PreOrder same_interval.
Proof. split; [done|]. intros m1 m2 m3. unfold same_interval. congruence. Qed.

Section wake_interval.
Context {W : Type} `{ManagerEnv W} (retries : nat).

Lemma keeps_interval_chain {A} (m : M W A) : keeps (both anything same_interval) (chain m).
Proof. by apply keeps_chain_both; [apply _|]. Qed.

Lemma keeps_interval_retry {A} (m : M (W * Manager) A) : keeps (both anything same_interval) m ->
  keeps (both anything same_interval) (@UntilSucceeds _ cm_context _ retries m []).
Proof. apply keeps_UntilSucceeds; [apply _|]. by intros [? ?]. Qed.

Lemma keeps_interval_metadata h : keeps (both anything same_interval) (assertion_metadata retries h).
Proof.
  unfold assertion_metadata.
  apply keeps_bind; [apply _|by intros [? ?]|intros m]. destruct (Map.TryGet _ _); [apply keeps_ret, _|].
  do 2 (apply keeps_bind; [apply _|apply keeps_interval_retry, keeps_interval_chain|intros ?]).
  apply keeps_bind; [apply _|by intros [? ?]|intros ?]. apply keeps_ret, _.
Qed.

Lemma no_tracker m edge meta : edgeTrackerWakeInterval m = 0 ->
  new_tracker m edge meta = Err (ErrNew "edge tracker act interval must be greater than 0").
Proof. intros Hi. unfold new_tracker, EdgeTracker.New. cbn. by rewrite Hi. Qed.

Lemma getTracker_blocked edge w m trk s' : edgeTrackerWakeInterval m = 0 ->
  getTrackerForEdge retries edge (w, m) <> (Ok trk, s').
Proof.
  intros Hi E. unfold getTrackerForEdge, mbind at 1, M_bind at 1 in E.
  pose proof (keeps_interval_retry _ (keeps_interval_chain (AssertionHashOf edge)) (w, m)) as K1.
  destruct (UntilSucceeds retries _ [] (w, m)) as [[h| | |] [w1 m1]]; try done. destruct K1 as [_ K1]. cbn in K1.
  unfold mbind at 1, M_bind at 1, chain at 1 in E.
  destruct (WatcherRootEdge h w1) as [[root| | |] w2]; try done.
  destruct (ClaimId root) as [c|]; [|done]. unfold mbind at 1, M_bind at 1 in E.
  pose proof (keeps_interval_metadata c (w2, m1)) as K2.
  destruct (assertion_metadata retries c (w2, m1)) as [[meta| | |] [w3 m3]]; try done. destruct K2 as [_ K2]. cbn in K2.
  unfold this, mbind, M_bind in E. cbn [get snd mret M_ret] in E.
  apply UntilSucceeds_ok in E as (n & s & _ & _ & E). unfold lift in E.
  by rewrite no_tracker in E by (unfold same_interval in *; congruence).
Qed.

(** A random wake interval of zero stops the validator from ever playing: [New]
    draws the number of seconds below sixty and takes zero as it comes, but no tracker
    can be built with a zero interval, so that for every edge that is not tracked
    already [TrackEdge] never succeeds, however often it retries, and starts no
    tracker: the world it leaves is one reached by the reads alone. *)
Theorem zero_wake_interval_blocks opts w w1 m w' :
  edgeTrackerWakeInterval (fold_left (fun m o => o m) opts initial_manager) = 0 ->
  ManagerRandInt 60 w = (Ok 0, w1) -> ChallengeManager.New opts w = (Ok m, w') ->
  edgeTrackerWakeInterval m = 0 /\
  forall edge w0 r s', ChallengeManager.IsTrackingEdge (Id edge) m = false ->
    TrackEdge retries edge (w0, m) = (r, s') ->
    (forall a, r <> Ok a) /\ s' = (getTrackerForEdge retries edge (w0, m)).2.
Proof.
  intros Hi Hr HN.
  assert (Hm : edgeTrackerWakeInterval m = 0).
  { unfold ChallengeManager.New in HN. cbn zeta in HN. rewrite Hi in HN. cbn [Z.eqb] in HN.
    unfold mbind, M_bind in HN. rewrite Hr in HN. cbn [mret M_ret] in HN.
    repeat (match type of HN with context [match ?x with _ => _ end] =>
        lazymatch x with context [match _ with _ => _ end] => fail | _ => destruct x end end;
      try discriminate HN); by injection HN as <- _. }
  split; [done|]. intros edge w0 r s' Ht. unfold TrackEdge, this, mbind, M_bind. cbn [get snd mret M_ret].
  rewrite Ht. destruct (getTrackerForEdge retries edge (w0, m)) as [[trk| | |] s1] eqn:Eg;
    [by apply getTracker_blocked in Eg| | |]; by intros [= <- <-].
Qed.

End wake_interval.

(** ** Examples *)

#[global] Instance toy_manager_env : ManagerEnv ToyRollup.world := {|
  manager_rollup := ToyRollup.toy_rollup;
  manager_ctx := ToyRollup.toy_context;
  ProviderHistoryCommitment r := mret {| Height := default 0 (UpToHeight r); Merkle := 1; FirstLeaf := 1;
    LastLeafProof := []; FirstLeafProof := []; LastLeaf := 2 |};
  ProviderPrefixProof _ _ := mret [];
  WatcherRootEdge _ := mret ToyRollup.root_edge;
  WatcherAddVerifiedHonestEdge _ := mret tt;
  NewRollupCore := mret tt;
  NewRollupCoreFilterer := mret tt;
  NewChallengeManagerFilterer := mret tt;
  NewAPIServer _ _ := mret tt;
  ManagerRandInt _ := mret 0;
  GoTracker trk w := {| ToyRollup.sent := ToyRollup.sent w;
    ToyRollup.confirmedAssertions := ToyRollup.confirmedAssertions w; ToyRollup.jobs := ToyRollup.jobs w;
    ToyRollup.trackers := Id (EdgeTracker.edge trk) :: ToyRollup.trackers w |};
  GoService _ w := w;
|}.

Definition same_trackers : relation ToyRollup.world := fun w w' => ToyRollup.trackers w' = ToyRollup.trackers w.
#[global] Instance same_trackers_preorder : PreOrder same_trackers.
Proof. split; [done|]. intros w1 w2 w3. unfold same_trackers. congruence. Qed.
#[global] Instance same_trackers_challenges : ChallengesRespect same_trackers.
Proof. split; try apply _; done. Qed.

(** The level zero edge is created, no tracker is started. *)
Lemma ChallengeAssertion_never_tracks_witness :
  (ChallengeAssertion 2 (ToyRollup.w0, initial_manager)).1 = Ok tt /\
  ToyRollup.sent (ChallengeAssertion 2 (ToyRollup.w0, initial_manager)).2.1 = 1 /\
  ToyRollup.trackers (ChallengeAssertion 2 (ToyRollup.w0, initial_manager)).2.1 = [].
Proof.
  split; [reflexivity|]. split; [reflexivity|].
  apply (ChallengeAssertion_never_tracks same_trackers 2 ToyRollup.w0 initial_manager). apply _.
Defined.

Lemma TrackEdge_correct_witness :
  exists trk m', TrackEdge 1 ToyRollup.root_edge (ToyRollup.w0, WithEdgeTrackerWakeInterval second initial_manager) =
    (Ok tt, (GoTracker trk ToyRollup.w0, m')) /\ actInterval trk = second.
Proof.
  destruct (@TrackEdge_correct _ toy_manager_env 0 ToyRollup.w0 ToyRollup.info_of eq_refl (fun _ => eq_refl) ToyRollup.root_edge
    (WithEdgeTrackerWakeInterval second initial_manager) 1 ToyRollup.root_edge 2) as (trk & m' & E & _ & _ & Hi & _);
    try done.
  by exists trk, m'.
Defined.

Lemma zero_wake_interval_blocks_witness :
  exists m w', ChallengeManager.New [] ToyRollup.w0 = (Ok m, w') /\ edgeTrackerWakeInterval m = 0 /\
    forall a, (TrackEdge 3 ToyRollup.root_edge (ToyRollup.w0, m)).1 <> Ok a.
Proof.
  eexists _, _. split; [reflexivity|].
  edestruct (@zero_wake_interval_blocks _ toy_manager_env 3 [] ToyRollup.w0 ToyRollup.w0) as [Hi Ht]; [reflexivity..|].
  split; [exact Hi|]. intros a.
  refine (proj1 (Ht ToyRollup.root_edge ToyRollup.w0 _ _ _ _) a); [reflexivity|apply surjective_pairing].
Defined.
