(* ===== verification/TimeRef.v ===== *)
(** * Time references

    [time/time_reference.go]: the artificial clock, its sleepers and its tickers.  A
    time is a number of nanoseconds; the channel that is closed and replaced when the
    time changes is the number of changes so far. *)

From S2P Require Import Prelude.

Record ArtificialTimeReference := { current : Z; changedChan : nat }.

Definition NewArtificialTimeReference : ArtificialTimeReference := {| current := 0; changedChan := 0 |}.
Definition Get (atr : ArtificialTimeReference) : Z := current atr.

Definition setLocked (newVal : Z) (atr : ArtificialTimeReference) : ArtificialTimeReference :=
  if newVal <? current atr then atr
  else {| current := newVal;
          changedChan := if current atr <? newVal then S (changedChan atr) else changedChan atr |}.
Definition SetTime (newVal : Z) (atr : ArtificialTimeReference) : ArtificialTimeReference := setLocked newVal atr.
Definition Add (delta : Z) (atr : ArtificialTimeReference) : ArtificialTimeReference :=
  setLocked (current atr + delta) atr.

(** A channel that was read is closed once the time has changed. *)
Definition closed (seen : nat) (atr : ArtificialTimeReference) : bool := (seen <? changedChan atr)%nat.

(** ** Sleepers

    An iteration of [SleepUntil] on a clock: done, or waiting on the channel it saw. *)
Definition sleep_check (wakeTime : Z) (atr : ArtificialTimeReference) : option nat :=
  if current atr <? wakeTime then Some (changedChan atr) else None.

(** The clocks at which the sleeper runs its check: the first one, then each one at
    which the channel it waits on is closed; how many clocks of the list it sees. *)
Fixpoint SleepUntil (wakeTime : Z) (waiting : option nat) (clocks : list ArtificialTimeReference) : option nat :=
  match clocks with
  | [] => None
  | atr :: clocks' =>
      let blocked := match waiting with Some seen => negb (closed seen atr) | None => false end in
      if blocked then S <$> SleepUntil wakeTime waiting clocks'
      else
        match sleep_check wakeTime atr with
        | None => Some 0%nat
        | Some seen => S <$> SleepUntil wakeTime (Some seen) clocks'
        end
  end.
Definition Sleep (duration : Z) (clocks : list ArtificialTimeReference) : option nat :=
  match clocks with
  | [] => None
  | atr :: _ => SleepUntil (Get atr + duration) None clocks
  end.

(** ** Tickers

    Where the goroutine of a ticker is: about to read the clock, blocked on the
    channel it saw, offering a tick, about to compute the next one, or finished. *)
Inductive ticker_pc :=
| Reading
| Blocked (seen : nat)
| Offering (tick : Z)
| Rearming
| Finished.

Record artificialTicker := { interval : Z; next : Z; stopped : bool; pc : ticker_pc; received : list Z }.

Definition NewTicker (interval : Z) (atr : ArtificialTimeReference) : artificialTicker :=
  {| interval := interval; next := Get atr + interval; stopped := false; pc := Reading; received := [] |}.

Definition at_pc (p : ticker_pc) (t : artificialTicker) : artificialTicker :=
  {| interval := interval t; next := next t; stopped := stopped t; pc := p; received := received t |}.
Definition ticker_read (atr : ArtificialTimeReference) (t : artificialTicker) : artificialTicker :=
  if current atr <? next t then at_pc (Blocked (changedChan atr)) t else at_pc (Offering (current atr)) t.
(** The receiver takes the tick. *)
Definition ticker_send (tick : Z) (t : artificialTicker) : artificialTicker :=
  {| interval := interval t; next := next t; stopped := stopped t; pc := Rearming; received := tick :: received t |}.
Definition ticker_rearm (atr : ArtificialTimeReference) (t : artificialTicker) : artificialTicker :=
  {| interval := interval t; next := Get atr + interval t; stopped := stopped t; pc := Reading; received := received t |}.
Definition Stop (t : artificialTicker) : artificialTicker :=
  {| interval := interval t; next := next t; stopped := true; pc := pc t; received := received t |}.

(** The interleavings of the clock, the ticker's goroutine and its owner. *)
Inductive tick_step : ArtificialTimeReference * artificialTicker -> ArtificialTimeReference * artificialTicker -> Prop :=
| step_set v atr t : tick_step (atr, t) (SetTime v atr, t)
| step_add d atr t : tick_step (atr, t) (Add d atr, t)
| step_read atr t : pc t = Reading -> tick_step (atr, t) (atr, ticker_read atr t)
| step_wake atr t seen : pc t = Blocked seen -> closed seen atr = true -> tick_step (atr, t) (atr, at_pc Reading t)
| step_send atr t tick : pc t = Offering tick -> tick_step (atr, t) (atr, ticker_send tick t)
| step_rearm atr t : pc t = Rearming -> tick_step (atr, t) (atr, ticker_rearm atr t)
| step_stop atr t : tick_step (atr, t) (atr, Stop t)
| step_exit atr t : stopped t = true -> (exists x, pc t = Blocked x) \/ (exists x, pc t = Offering x) ->
    tick_step (atr, t) (atr, at_pc Finished t).

(** ** What the clock guarantees *)

Lemma setLocked_later v atr : current atr <= current (setLocked v atr) /\
  (changedChan atr <= changedChan (setLocked v atr))%nat /\
  (closed (changedChan atr) (setLocked v atr) = true <-> current atr < current (setLocked v atr)) /\
  current (setLocked v atr) = Z.max v (current atr).
Proof.
  unfold setLocked, closed. rewrite Nat.ltb_lt. destruct (Z.ltb_spec v (current atr)); [lia|].
  cbn [current changedChan]. destruct (Z.ltb_spec (current atr) v); lia.
Qed.

(** Clocks as they follow each other. *)
Inductive clock_run : list ArtificialTimeReference -> Prop :=
| run_one atr : clock_run [atr]
| run_set v atr l : clock_run (setLocked v atr :: l) -> clock_run (atr :: setLocked v atr :: l).

Lemma clock_run_later atr l : clock_run (atr :: l) -> Forall (fun x => current atr <= current x /\
  (changedChan atr <= changedChan x)%nat /\ (current atr < current x -> closed (changedChan atr) x = true)) l.
Proof.
  revert atr. induction l as [|x l IH]; intros atr Hr; [done|]. inversion Hr as [|v a l' Hr']; subst.
  destruct (setLocked_later v atr) as (H1 & H2 & H3 & _). constructor; [split_and!; try done; by apply H3|].
  eapply Forall_impl; [|by apply IH]. intros y (Y1 & Y2 & Y3). split_and!; [lia|lia|].
  intros Hlt. unfold closed in *. apply Nat.ltb_lt. destruct (Z.eq_dec (current atr) (current (setLocked v atr))) as [E|Hne].
  - rewrite <- E in Y3. specialize (Y3 Hlt). apply Nat.ltb_lt in Y3. lia.
  - assert (Hc : (changedChan atr <? changedChan (setLocked v atr))%nat = true) by (apply H3; lia).
    apply Nat.ltb_lt in Hc. lia.
Qed.

Lemma SleepUntil_wakes wake : forall clocks waiting,
  clock_run clocks ->
  match waiting with
  | Some seen => Forall (fun x => wake <= current x -> closed seen x = true) clocks
  | None => True
  end ->
  match SleepUntil wake waiting clocks with
  | Some n => exists atr, clocks !! n = Some atr /\ wake <= current atr /\
      Forall (fun x => current x < wake) (take n clocks)
  | None => Forall (fun x => current x < wake) clocks
  end.
Proof.
  induction clocks as [|atr l IH]; intros waiting Hr Hw; [by inversion Hr|]. cbn [SleepUntil].
  assert (Hl : l <> [] -> clock_run l) by (intros Hne; inversion Hr; by subst).
  pose proof (clock_run_later atr l Hr) as Hlater.
  set (blocked := match waiting with Some seen => _ | None => _ end).
  assert (Hb : blocked = true -> current atr < wake).
  { unfold blocked. destruct waiting as [seen|]; [|done]. apply Forall_cons_1 in Hw as [Ha _].
    destruct (Z.lt_ge_cases (current atr) wake) as [|Hge]; [done|]. by rewrite (Ha Hge). }
  assert (Hnext : forall o, current atr < wake ->
    (l <> [] -> match o with Some n => exists x, l !! n = Some x /\ wake <= current x /\
        Forall (fun x => current x < wake) (take n l) | None => Forall (fun x => current x < wake) l end) ->
    (l = [] -> o = None) ->
    match S <$> o with Some n => exists x, (atr :: l) !! n = Some x /\ wake <= current x /\
        Forall (fun x => current x < wake) (take n (atr :: l)) | None => Forall (fun x => current x < wake) (atr :: l) end).
  { intros o Ha Ho He. destruct l as [|x l']; [rewrite He by done; by repeat constructor|].
    specialize (Ho ltac:(done)). destruct o as [n|]; cbn; [|by constructor].
    destruct Ho as (y & Hy & Hge & Hf). exists y. split_and!; [done|done|by constructor]. }
  destruct blocked eqn:Eb.
  - apply Hnext; [by apply Hb| |by intros ->]. intros Hne. apply IH; [by apply Hl|].
    destruct waiting as [seen|]; [|done]. by apply Forall_cons_1 in Hw as [_ Hw].
  - unfold sleep_check. destruct (Z.ltb_spec (current atr) wake) as [Hlt|Hge].
    + apply Hnext; [done| |by intros ->]. intros Hne. apply IH; [by apply Hl|].
      eapply Forall_impl; [|exact Hlater]. intros x (H1 & H2 & H3) Hx. apply H3. lia.
    + exists atr. split_and!; done.
Qed.

(** No wake-up is lost: along any history of an artificial clock, a sleeper wakes
    at the first moment its time has come (and not before), and sleeps on only while
    it has not; the time it blocks on the channel it saw included. *)
Theorem SleepUntil_correct wakeTime clocks : clock_run clocks ->
  match SleepUntil wakeTime None clocks with
  | Some n => exists atr, clocks !! n = Some atr /\ wakeTime <= current atr /\
      Forall (fun x => current x < wakeTime) (take n clocks)
  | None => Forall (fun x => current x < wakeTime) clocks
  end.
Proof. intros Hr. by apply SleepUntil_wakes. Qed.

(** ** What tickers guarantee *)

(** Consecutive ticks, the latest first, are at least [d] apart, and the first one is
    at least [d] after [start]. *)
Fixpoint spaced (start d : Z) (ticks : list Z) : Prop :=
  match ticks with
  | [] => True
  | x :: ticks' => match ticks' with [] => start | y :: _ => y end + d <= x /\ spaced start d ticks'
  end.

Definition last_tick (start : Z) (t : artificialTicker) : Z := match received t with [] => start | y :: _ => y end.

(** The due time is at least an interval after the last tick, and what is offered is
    due; a blocked ticker whose channel is still open has nothing due. *)
Definition ticker_inv (start : Z) (s : ArtificialTimeReference * artificialTicker) : Prop :=
  let '(atr, t) := s in
  spaced start (interval t) (received t) /\ last_tick start t <= current atr /\
  match pc t with
  | Reading => last_tick start t + interval t <= next t
  | Blocked seen => last_tick start t + interval t <= next t /\ (seen <= changedChan atr)%nat /\
      (closed seen atr = false -> current atr < next t)
  | Offering tick => last_tick start t + interval t <= next t <= tick /\ tick <= current atr
  | Rearming => True
  | Finished => stopped t = true
  end.

Inductive ticker_reaches (a : ArtificialTimeReference) (d : Z) : ArtificialTimeReference * artificialTicker -> Prop :=
| reaches_new : ticker_reaches a d (a, NewTicker d a)
| reaches_step s s' : ticker_reaches a d s -> tick_step s s' -> ticker_reaches a d s'.

Lemma ticker_inv_clock start v atr t : ticker_inv start (atr, t) -> ticker_inv start (setLocked v atr, t).
Proof.
  destruct (setLocked_later v atr) as (H1 & H2 & H3 & _). intros (Hs & Hl & Hp).
  split; [done|]. split; [lia|]. destruct (pc t); try done; [|lia].
  destruct Hp as (P1 & P2 & P3). split_and!; [done|lia|]. intros Hc. unfold closed in *.
  apply Nat.ltb_ge in Hc. assert (Hg : (seen <? changedChan atr)%nat = false) by (apply Nat.ltb_ge; lia).
  specialize (P3 Hg). destruct (Z.lt_ge_cases (current atr) (current (setLocked v atr))) as [Hlt|]; [|lia].
  apply H3, Nat.ltb_lt in Hlt. apply Nat.ltb_ge in Hg. lia.
Qed.

Lemma ticker_inv_step start s s' : ticker_inv start s -> tick_step s s' -> ticker_inv start s'.
Proof.
  intros Hi Hstep. destruct Hstep as [v atr t|d atr t|atr t Hp|atr t seen Hp Hc|atr t tick Hp|atr t Hp|atr t|atr t Hst Hp].
  1-2: by apply ticker_inv_clock.
  all: destruct Hi as (Hs & Hl & Hi); rewrite ?Hp in Hi.
  - unfold ticker_read. destruct (Z.ltb_spec (current atr) (next t)); (split; [done|split; [done|]]); cbn; split_and!;
      unfold last_tick in *; cbn in *; lia || done.
  - split; [done|split; [done|]]. cbn. apply Hi.
  - split; [cbn|split; [cbn; lia|done]]. split; [|done]. unfold last_tick in Hi. lia.
  - split; [done|split; [done|]]. cbn. unfold last_tick in *. cbn. unfold Get. lia.
  - split; [done|split; [done|]]. cbn. by destruct (pc t).
  - split; [done|split; [done|]]. done.
Qed.

Lemma ticker_reaches_inv a d s : ticker_reaches a d s -> ticker_inv (current a) s /\ interval (snd s) = d.
Proof.
  induction 1 as [|s s' _ [IH IHd] Hstep].
  - split; [|done]. unfold ticker_inv, NewTicker, last_tick. cbn. unfold Get. split_and!; done || lia.
  - split; [by eapply ticker_inv_step|]. subst d.
    destruct Hstep; try done. cbn. unfold ticker_read. by destruct (current atr <? next t).
Qed.

(** Under every interleaving of the clock, the ticker's goroutine and its owner,
    the ticks a receiver gets are real times, at least an interval apart, the first
    one an interval after the ticker was made; a ticker blocks only while nothing is
    due, and its goroutine ends only when it was stopped. *)
Theorem ticker_spacing a d atr t : ticker_reaches a d (atr, t) ->
  spaced (current a) d (received t) /\ Forall (fun x => x <= current atr \/ d < 0) (received t) /\
  (forall seen, pc t = Blocked seen -> closed seen atr = false -> current atr < next t) /\
  (pc t = Finished -> stopped t = true).
Proof.
  intros [(Hs & Hl & Hp) Hd]%ticker_reaches_inv. cbn in Hd. rewrite Hd in Hs. split_and!; [done| | |].
  - unfold last_tick in Hl. clear Hp Hd. revert Hs Hl. generalize (received t) as l.
    induction l as [|x l IH]; intros Hs Hl; [done|]. destruct Hs as [Hx Hs]. constructor; [by left|].
    destruct (Z.lt_ge_cases d 0); [apply Forall_forall; by right|]. apply IH; [done|]. destruct l; lia.
  - intros seen E. rewrite E in Hp. apply Hp.
  - intros E. by rewrite E in Hp.
Qed.

(** ** Examples *)

Definition at_time (v : Z) (c : nat) : ArtificialTimeReference := {| current := v; changedChan := c |}.

Lemma SleepUntil_correct_witness :
  match SleepUntil 10 None [at_time 0 0; at_time 5 1; at_time 5 1; at_time 12 2] with
  | Some n => exists atr, [at_time 0 0; at_time 5 1; at_time 5 1; at_time 12 2] !! n = Some atr /\ 10 <= current atr /\
      Forall (fun x => current x < 10) (take n [at_time 0 0; at_time 5 1; at_time 5 1; at_time 12 2])
  | None => Forall (fun x => current x < 10) [at_time 0 0; at_time 5 1; at_time 5 1; at_time 12 2]
  end.
Proof.
  apply (SleepUntil_correct 10 [at_time 0 0; at_time 5 1; at_time 5 1; at_time 12 2]).
  apply (run_set 5), (run_set 3), (run_set 12), run_one.
Defined.

Lemma ticker_spacing_witness :
  let t := {| interval := 10; next := 10; stopped := false; pc := Rearming; received := [11] |} in
  ticker_reaches (at_time 0 0) 10 (at_time 11 1, t) /\ spaced 0 10 (received t).
Proof.
  assert (H : ticker_reaches (at_time 0 0) 10 (at_time 11 1, {| interval := 10; next := 10; stopped := false;
    pc := Rearming; received := [11] |})).
  { eapply reaches_step; [|apply (step_send (at_time 11 1) {| interval := 10; next := 10; stopped := false;
      pc := Offering 11; received := [] |} 11 eq_refl)].
    eapply reaches_step; [|apply (step_read (at_time 11 1) (NewTicker 10 (at_time 0 0)) eq_refl)].
    eapply reaches_step; [|apply (step_set 11 (at_time 0 0))]. apply reaches_new. }
  split; [exact H|]. apply (ticker_spacing (at_time 0 0) 10 _ _ H).
Defined.
