(* ===== verification/Metrics.v ===== *)
(** * Metrics of the chain backend

    [chain-abstraction/sol-implementation/tracked_contract_backend.go]: calls and
    transactions counted per method, with the gas costs of the transactions. *)

From stdpp Require Import sorting.
From S2P Require Import Prelude Bits PrefixProofs.

Record MethodMetrics := { Calls : Z; Txs : Z; GasCosts : list Z }.

(** The key is the printed selector; printing bytes is injective, so that the
    selector stands for it. *)
Abbreviation Metrics := (gmap (list Z) MethodMetrics).

Definition NewTrackedContractBackend : Metrics := ∅.

(** The part of a transaction that is read. *)
Record Transaction := { TxData : list Z; GasPrice : Z; Gas : Z }.

(** [t.metrics[methodHash]], with a new entry when there is none. *)
Definition metric_of (methodHash : list Z) (t : Metrics) : MethodMetrics :=
  default {| Calls := 0; Txs := 0; GasCosts := [] |} (t !! methodHash).

(** What [CallContract] and [SendTransaction] do before they pass the call on. *)
Definition CallContract (data : list Z) (t : Metrics) : Metrics :=
  if 4 <=? len data then
    let methodHash := take 4 data in
    let metric := metric_of methodHash t in
    <[methodHash := {| Calls := Calls metric + 1; Txs := Txs metric; GasCosts := GasCosts metric |}]> t
  else t.

Definition SendTransaction (tx : option Transaction) (t : Metrics) : Metrics :=
  match tx with
  | Some tx =>
      if 4 <=? len (TxData tx) then
        let methodHash := take 4 (TxData tx) in
        let metric := metric_of methodHash t in
        let gasCost := GasPrice tx * Gas tx in
        <[methodHash := {| Calls := Calls metric; Txs := Txs metric + 1;
                           GasCosts := GasCosts metric ++ [gasCost] |}]> t
      else t
  | None => t
  end.

(** [big.Int.Div] by two is division with a non-negative remainder.  In the even case
    the receiver of [Div] is the sum, but its operand is the upper middle. *)
Definition median (gasCosts : list Z) : option Z :=
  if len gasCosts =? 0 then None
  else
    let sorted := merge_sort Z.le gasCosts in
    let mid := len sorted / 2 in
    let upper := default 0 (sorted !! Z.to_nat mid) in
    if len sorted mod 2 =? 0 then
      let sum := default 0 (sorted !! Z.to_nat (mid - 1)) + upper in
      let quotient := upper / 2 in
      let _ := sum in Some quotient
    else Some upper.

(** ** What the metrics count *)

Inductive event := Called (data : list Z) | Sent (tx : option Transaction).

Definition record (t : Metrics) (e : event) : Metrics :=
  match e with Called data => CallContract data t | Sent tx => SendTransaction tx t end.

(** The selector an event is counted under. *)
Definition selector (data : list Z) : option (list Z) := if 4 <=? len data then Some (take 4 data) else None.
Definition call_of (k : list Z) (e : event) : bool :=
  match e with Called data => bool_decide (selector data = Some k) | Sent _ => false end.
Definition cost_of (k : list Z) (e : event) : option Z :=
  match e with
  | Sent (Some tx) => if bool_decide (selector (TxData tx) = Some k) then Some (GasPrice tx * Gas tx) else None
  | _ => None
  end.

Lemma record_spec k t e :
  metric_of k (record t e) = {|
    Calls := Calls (metric_of k t) + (if call_of k e then 1 else 0);
    Txs := Txs (metric_of k t) + len (option_list (cost_of k e));
    GasCosts := GasCosts (metric_of k t) ++ option_list (cost_of k e) |}.
Proof.
  assert (Hid : forall m, m = {| Calls := Calls m + 0; Txs := Txs m + len (@nil Z); GasCosts := GasCosts m ++ [] |}).
  { intros [c x g]. cbn. unfold len. rewrite app_nil_r. cbn. by rewrite !Z.add_0_r. }
  destruct e as [data|[[data p g]|]]; cbn; unfold selector, CallContract, SendTransaction; cbn [TxData]; try apply Hid.
  - destruct (4 <=? len data); [|by rewrite <- Hid].
    case_bool_decide as E; [injection E as <-; unfold metric_of at 1; rewrite lookup_insert_eq; cbn|].
    + unfold len. cbn. by rewrite app_nil_r, Z.add_0_r.
    + unfold metric_of at 1. rewrite lookup_insert_ne by congruence. apply Hid.
  - destruct (4 <=? len data); [|by rewrite <- Hid].
    case_bool_decide as E; [injection E as <-; unfold metric_of at 1; rewrite lookup_insert_eq; cbn|].
    + unfold len. cbn. by rewrite Z.add_0_r.
    + unfold metric_of at 1. rewrite lookup_insert_ne by congruence. apply Hid.
Qed.

(** The metrics of a method are what happened: after any sequence of calls and
    transactions on a new backend, the calls and transactions with its selector are
    counted and the gas costs of its transactions listed in order; data without a
    selector is not counted. *)
Theorem metrics_count k events :
  metric_of k (fold_left record events NewTrackedContractBackend) = {|
    Calls := len (base.filter (fun e => call_of k e = true) events);
    Txs := len (omap (cost_of k) events);
    GasCosts := omap (cost_of k) events |}.
Proof.
  induction events as [|e events IH] using rev_ind; [done|].
  rewrite fold_left_app. cbn [fold_left]. rewrite record_spec, IH. cbn [Calls Txs GasCosts].
  rewrite list.filter_app, omap_app. unfold len. f_equal.
  - rewrite length_app. unfold base.filter, list_filter. cbn.
    destruct (decide (call_of k e = true)) as [E|E]; [rewrite E; cbn; lia|].
    apply not_true_is_false in E. rewrite E. cbn. lia.
  - rewrite length_app. cbn. destruct (cost_of k e); cbn; lia.
Qed.

(** The median of an odd number of costs is their middle one; of an even number
    it is half of the upper middle one, never the mean of the two middle ones when
    the lower one is at least two. *)
Theorem median_cases costs : costs <> [] ->
  exists s lower upper, s ≡ₚ costs /\ Sorted Z.le s /\ s !! (length s / 2)%nat = Some upper /\
    (Z.even (len costs) = true -> s !! (length s / 2 - 1)%nat = Some lower) /\
    median costs = Some (if Z.even (len costs) then upper / 2 else upper) /\
    (Z.even (len costs) = true -> 2 <= lower -> median costs <> Some ((lower + upper) / 2)).
Proof.
  intros Hne. set (s := merge_sort Z.le costs).
  assert (Hp : s ≡ₚ costs) by apply merge_sort_Permutation.
  assert (Hl : length s = length costs) by by rewrite Hp.
  assert (Hpos : (0 < length costs)%nat) by (destruct costs; [done|cbn; lia]).
  assert (Hu : is_Some (s !! (length s / 2)%nat)).
  { apply lookup_lt_is_Some. rewrite Hl. apply Nat.div_lt; lia. }
  assert (Hw : is_Some (s !! (length s / 2 - 1)%nat)).
  { apply lookup_lt_is_Some. rewrite Hl. pose proof (Nat.div_lt (length costs) 2). lia. }
  destruct Hu as [upper Hu], Hw as [lower Hw]. exists s, lower, upper.
  assert (Hm : median costs = Some (if Z.even (len costs) then upper / 2 else upper)).
  { unfold median. fold s. unfold len. rewrite Hl. rewrite (proj2 (Z.eqb_neq _ _)) by lia.
    replace (Z.to_nat (Z.of_nat (length costs) / 2)) with (length s / 2)%nat
      by (rewrite Hl; rewrite <- (Nat2Z.id (_ / _)), Nat2Z.inj_div; done).
    rewrite Hu, Zmod_even. cbn. by destruct (Z.even _). }
  split_and!; try done; [apply Sorted_merge_sort, _|].
  intros He H2. rewrite Hm, He. intros [= E]. pose proof (Z.div_le_mono (2 + upper) (lower + upper) 2).
  replace (2 + upper) with (upper + 1 * 2) in * by lia. rewrite Z.div_add in * by lia. lia.
Qed.

Lemma median_cases_witness : median [10; 30; 20; 40] = Some 15 /\ [10; 30; 20; 40] <> [] /\
  exists s lower upper, s ≡ₚ [10; 30; 20; 40] /\ Sorted Z.le s /\ s !! 2%nat = Some upper /\
    s !! 1%nat = Some lower /\ median [10; 30; 20; 40] = Some (upper / 2).
Proof.
  split; [reflexivity|]. split; [done|].
  destruct (median_cases [10; 30; 20; 40]) as (s & lower & upper & Hp & Hs & Hu & Hw & Hm & _); [done|].
  assert (Hl : length s = 4%nat) by by rewrite Hp. rewrite Hl in Hu, Hw.
  exists s, lower, upper. split_and!; try done. by apply Hw.
Defined.
