(* ===== verification/System.v ===== *)
(** * The validator put together

    The parts of the development composed as the program composes them: the edge
    trackers run on the contract wrapper, the chain watcher, the history provider and
    the book-keeping of the challenge manager; the assertion manager runs on the
    challenge manager. *)

From S2P Require Import Prelude Bits PrefixProofs Containers Fsm MerkleSpec InclusionProofs History Protocol Provider ProviderSpec ChallengeTree Contracts SolImpl SolChain SolImplSpec EdgeTracker EdgeTrackerSpec Watcher Assertions AssertionsSpec Protocol Provider Chain ChainSpec Runtime ChallengeManager ChallengeManagerSpec.

(** ** The chain seen from a larger state *)

Definition lift_chain {V S} (E : ChainEnv V) : ChainEnv (V * S) := {|
  HasRival e := chain (HasRival e);
  HasLengthOneRival e := chain (HasLengthOneRival e);
  HasConfirmedRival e := chain (HasConfirmedRival e);
  EdgeStatusOf e := chain (EdgeStatusOf e);
  AssertionHashOf e := chain (AssertionHashOf e);
  TopLevelClaimHeight e := chain (TopLevelClaimHeight e);
  LowerChildOf e := chain (LowerChildOf e);
  UpperChildOf e := chain (UpperChildOf e);
  GetTotalChallengeLevels e := GetTotalChallengeLevels e;
  BisectOnChain e h p := chain (BisectOnChain e h p);
  ConfirmByTimer e l := chain (ConfirmByTimer e l);
  ConfirmByClaim e c := chain (ConfirmByClaim e c);
  ConfirmByChildren e := chain (ConfirmByChildren e);
  SpecChallengeManager := chain SpecChallengeManager;
  GetEdge i := chain (GetEdge i);
  ChallengePeriodBlocks := chain ChallengePeriodBlocks;
  AddBlockChallengeLevelZeroEdge a s e p := chain (AddBlockChallengeLevelZeroEdge a s e p);
  AddSubChallengeLevelZeroEdge e s h p q r := chain (AddSubChallengeLevelZeroEdge e s h p q r);
  ConfirmEdgeByOneStepProof i d p q := chain (ConfirmEdgeByOneStepProof i d p q);
  AssertionCreationInfo a := chain (AssertionCreationInfo a);
  IsChallengeComplete a := chain (IsChallengeComplete a);
  ConfirmAssertionByChallengeWinner a i := chain (ConfirmAssertionByChallengeWinner a i);
  LatestConfirmed := chain LatestConfirmed;
  AssertionCreatedAtBlock a := chain (AssertionCreatedAtBlock a);
  HeaderByNumber := chain HeaderByNumber;
|}.

Definition on_first {V S} (confirmed : V -> EdgeId -> Prop) (s : V * S) (i : EdgeId) : Prop := confirmed (fst s) i.

Section lifting.
Context {V S : Type} (confirmed : V -> EdgeId -> Prop).

Lemma keep_first {A} (m : M V A) : preserves confirmed m -> preserves (@on_first V S confirmed) (chain m).
Proof.
  intros Hm [v s] i Hc. specialize (Hm v i Hc). unfold chain, on_first in *. cbn in *. by destruct (m v).
Qed.

Lemma first_ok {A} (m : M V A) (a : A) (s s' : V * S) : chain m s = (Ok a, s') -> m (fst s) = (Ok a, fst s').
Proof. destruct s as [v s]. unfold chain. cbn [fst]. destruct (m v) as [r v']. by intros [= -> <-]. Qed.

Lemma lift_confirmation_laws (E : ChainEnv V) :
  ChainConfirmationLaws V confirmed -> @ChainConfirmationLaws (V * S) (lift_chain E) (on_first confirmed).
Proof.
  intros L. constructor; intros; cbn in *;
    try (apply keep_first; eauto with keep; fail); unfold on_first;
    match goal with H : chain _ _ = _ |- _ => apply first_ok in H end.
  - by eapply status_truthful.
  - by eapply timer_confirms.
  - by eapply claim_confirms.
  - by eapply children_confirm.
  - by eapply osp_confirms.
Qed.

End lifting.

(** ** The environment of the edge trackers *)

Section validator.
Context {V : Type} `{WatcherEnv V} `{Hasher} (provider : HistoryCommitmentProvider).

(** The chain, the watcher, the challenge manager and the trackers started so far. *)
Abbreviation State := (V * Watcher * (ChallengeManager.Manager * list Tracker))%type.

Definition validator_chain : ChainEnv State := lift_chain (lift_chain watcher_chain).

Definition validator_env : TrackerEnv State := {|
  tracker_chain := validator_chain;
  EdgeTracker.ConfirmedEdgeWithClaimExists a c s := Watcher.ConfirmedEdgeWithClaimExists a c (snd (fst s));
  HonestPathTimer a i := chain (Watcher.ComputeHonestPathTimer a i);
  ConfirmableAncestor a timers period := chain (Watcher.HasConfirmableAncestor a timers period);
  EdgeTracker.AddVerifiedHonestEdge e := chain (Watcher.AddVerifiedHonestEdge e);
  EdgeTracker.IsTrackingEdge i s := ChallengeManager.IsTrackingEdge i (fst (snd s));
  EdgeTracker.MarkTrackedEdge i s := (fst s, (ChallengeManager.MarkTrackedEdge i (fst (snd s)), snd (snd s)));
  EnvHistoryCommitment req := lift (HistoryCommitment provider req);
  EnvPrefixProof req h := lift (PrefixProof provider req h);
  EnvOneStepProofData a b c d e f := lift (OneStepProofData provider a b c d e f);
  GoSpawn t s := (fst s, (fst (snd s), t :: snd (snd s)));
|}.

Context (confirmed : V -> EdgeId -> Prop) `{!ChainConfirmationLaws V confirmed}.

Lemma keep_self : preserves (on_first confirmed) Watcher.self.
Proof. by intros [v s] i. Qed.
Lemma keep_current_view : preserves (on_first confirmed) Watcher.current_view.
Proof. by intros [v s] i. Qed.
Lemma keep_with_tree {A} h chal (m : TreeM A) : preserves (on_first confirmed) (Watcher.with_tree h chal m).
Proof. intros [v s] i Hc. unfold Watcher.with_tree. by destruct (m (honestEdgeTree chal)). Qed.
Lemma keep_get_or_create h : preserves (on_first confirmed) (Watcher.get_or_create h).
Proof.
  intros [v s] i Hc. unfold Watcher.get_or_create, Watcher.self, mbind, M_bind. cbn. by destruct (Map.TryGet h _).
Qed.
#[local] Hint Resolve keep_self keep_current_view keep_with_tree keep_get_or_create keep_first : keep.

(** The watcher, the provider and the manager cannot undo a confirmation, and the
    chain's promises carry over to the whole state. *)
Lemma validator_confirmation_laws : @ConfirmationLaws State validator_env (on_first (on_first confirmed)).
Proof.
  constructor; intros; cbn.
  - by apply lift_confirmation_laws, lift_confirmation_laws.
  - apply keep_first. unfold Watcher.ComputeHonestPathTimer, Watcher.ComputeHonestPathTimerByBlockNumber. keep.
  - apply keep_first. unfold Watcher.HasConfirmableAncestor. keep.
  - apply keep_first. unfold Watcher.AddVerifiedHonestEdge. keep.
  - keep.
  - keep.
  - keep.
  - done.
  - done.
Qed.

End validator.

(** ** The validator on the contracts *)

(** The event filters of the challenge manager contract, and the edge manager the
    watcher reports honest edges to. *)
Class EventSource (W : Type) := {
  source_filterer : M W unit;
  source_added : Z -> Z -> M W EventIterator;
  source_osp : Z -> Z -> M W EventIterator;
  source_time : Z -> Z -> M W EventIterator;
  source_children : Z -> Z -> M W EventIterator;
  source_claim : Z -> Z -> M W EventIterator;
  source_track : Edge -> M W unit;
}.

Section on_contracts.
Context {W : Type} `{Contracts W} `{Runtime.Context W} `{EventSource W} `{Hasher}.
Context (provider : HistoryCommitmentProvider).

(** The watcher on the wrapper; the history checker of the challenge trees is the
    provider. *)
#[global] Instance sol_watcher : WatcherEnv (W * AssertionChain) := {|
  watcher_chain := sol_chain;
  watcher_ctx := sol_context;
  view s := sol_view (fun level req claim => AgreesWithHistoryCommitment provider level req claim) (fst s);
  Watcher.TrackEdge e := chain (source_track e);
  NewEdgeChallengeManagerFilterer := chain source_filterer;
  FilterEdgeAdded a b := chain (source_added a b);
  FilterEdgeConfirmedByOneStepProof a b := chain (source_osp a b);
  FilterEdgeConfirmedByTime a b := chain (source_time a b);
  FilterEdgeConfirmedByChildren a b := chain (source_children a b);
  FilterEdgeConfirmedByClaim a b := chain (source_claim a b);
|}.

Lemma tracker_truthful (confirmed : W -> EdgeId -> Prop) signals
    (s : W * AssertionChain * Watcher * (ChallengeManager.Manager * list Tracker)) et :
  ContractLaws W confirmed -> replay_fails W ->
  tracker_ok et -> state_of et = EdgeStarted ->
  let '(r, (s', et')) := @Spawn _ (validator_env provider) signals (s, et) in
  state_of et' = EdgeTracker.EdgeConfirmed -> confirmed (fst (fst (fst s'))) (Id (edge et')).
Proof.
  intros HL Hr Hok Hs.
  pose proof (sol_confirmation_laws confirmed Hr) as HC.
  pose proof (validator_confirmation_laws provider (on_chain confirmed)) as HV.
  pose proof (@wp_Spawn_truthful _ _ _ HV signals s et) as Hw. unfold wp in Hw.
  destruct (@Spawn _ (validator_env provider) signals (s, et)) as [r [s' et']].
  apply Hw. split; [done|]. cbn. by rewrite Hs.
Qed.

(** End to end: on contracts that keep edges confirmed, report statuses truthfully
    and mine only valid confirmations (and where replaying a confirmation that was
    tried and mined without success fails), a tracker that runs on the whole validator, the contract wrapper with its
    cache, the watcher, the history provider and the challenge manager's set of
    tracked edges, reports its edge as confirmed only when the contract has
    confirmed it. *)
Theorem validator_truthful (confirmed : W -> EdgeId -> Prop) signals
    (s : W * AssertionChain * Watcher * (ChallengeManager.Manager * list Tracker)) et :
  ContractLaws W confirmed -> replay_fails W ->
  tracker_ok et -> state_of et = EdgeStarted ->
  let '(r, (s', et')) := @Spawn _ (validator_env provider) signals (s, et) in
  state_of et' = EdgeTracker.EdgeConfirmed -> confirmed (fst (fst (fst s'))) (Id (edge et')).
Proof. apply tracker_truthful. Qed.

End on_contracts.

(** ** The assertion manager on the challenge manager *)

Definition lift_rollup {V S} (E : RollupEnv V) : RollupEnv (V * S) := {|
  rollup_chain := lift_chain rollup_chain;
  GetLayerZeroHeights := chain GetLayerZeroHeights;
  NumBigSteps := chain NumBigSteps;
  CalculateEdgeId l o sh sr eh er := chain (CalculateEdgeId l o sh sr eh er);
  IsStaked := chain IsStaked;
  GetAssertion a := chain (GetAssertion a);
  AssertionPrevId a := chain (AssertionPrevId a);
  GetAssertionStatus a := chain (GetAssertionStatus a);
  LatestCreatedAssertionHashes := chain LatestCreatedAssertionHashes;
  NewStakeOnNewAssertion i s := chain (NewStakeOnNewAssertion i s);
  StakeOnNewAssertion i s := chain (StakeOnNewAssertion i s);
  ConfirmAssertionByTime a := chain (ConfirmAssertionByTime a);
|}.

Definition lift_context {V S} (E : Runtime.Context V) : Runtime.Context (V * S) := {|
  ContextErr s := ContextErr (fst s);
  Sleep d s := (Sleep d (fst s), snd s);
|}.

(** The challenges the assertion manager asks for are made by the challenge manager. *)
Definition assertions_on_manager {V} (A : AssertionEnv V) (E : ManagerEnv V)
    : AssertionEnv (V * ChallengeManager.Manager) := {|
  assertion_rollup := lift_rollup assertion_rollup;
  assertion_ctx := lift_context assertion_ctx;
  AgreesWithExecutionState st := chain (AgreesWithExecutionState st);
  ExecutionStateAfterBatchCount b := chain (ExecutionStateAfterBatchCount b);
  Assertions.ChallengeAssertion a := ChallengeManager.ChallengeAssertion a;
  Assertions.Mode := Assertions.Mode;
  Assertions.MaxDelaySeconds := Assertions.MaxDelaySeconds;
  RandInt n := chain (RandInt n);
  NewRollupUserLogicFilterer := chain NewRollupUserLogicFilterer;
  FilterAssertionCreated s e := chain (FilterAssertionCreated s e);
  GoJob j s := (GoJob j (fst s), snd s);
|}.

Section modes.
Context {V : Type} (A : AssertionEnv V) (E : ManagerEnv V) (R : relation V) `{!ReadsRespect R}.

Lemma reads_on_manager : @ReadsRespect _ (assertions_on_manager A E) (both R eq).
Proof.
  split; try (intros; apply keeps_chain_both; [apply _|]; eauto with keeps; fail); [apply _|..].
  - intros j [v m]. split; [apply reads_job|done].
  - intros d [v m]. split; [apply reads_sleep|done].
Qed.

(** (C26) A validator stays within its mode.  A watchtower sends no transaction: its
    challenge manager starts nothing but the assertion manager, and whatever the goroutines
    of that do and whatever the chain answers, any property of the world that is kept by
    starting it, by reading and by waiting is kept, and so are the records of the challenge manager.  In every mode the goroutines
    of the assertion manager send stakes and challenges only from defensive mode on, and
    confirm assertions by time only from resolve mode on.  (From defensive mode on, resolve mode
    excepted, the watcher also runs; it confirms the assertions whose challenges are won.) *)
Theorem mode_discipline retries lookback activities v cm m :
  (mode cm = WatchTowerMode -> @Assertions.Mode _ A = WatchTowerMode -> (forall s, R s (GoService AssertionService s)) ->
   exists v1, ChallengeManager.Start (v, cm) = (Ok tt, (v1, cm)) /\
     let '(v2, cm2) := (@run _ (assertions_on_manager A E) retries lookback activities ((v1, cm), m)).2.1 in
     R v v2 /\ cm2 = cm) /\
  ((DefensiveMode <= @Assertions.Mode _ A -> (forall i s, keeps R (@StakeOnNewAssertion _ (@assertion_rollup _ A) i s)) /\
     (forall i s, keeps R (@NewStakeOnNewAssertion _ (@assertion_rollup _ A) i s)) /\
     (forall h, keeps R (@Assertions.ChallengeAssertion _ A h))) ->
   (ResolveMode <= @Assertions.Mode _ A -> forall h, keeps R (@ConfirmAssertionByTime _ (@assertion_rollup _ A) h)) ->
   R v (@run _ A retries lookback activities (v, m)).2.1).
Proof.
  split; [|by apply assertions_stay_in_mode]. intros Hm HM Hg. exists (GoService AssertionService v). split.
  { unfold ChallengeManager.Start, this, mbind, M_bind. cbn. by rewrite Hm. }
  set (v1 := GoService AssertionService v).
  pose proof (@assertions_stay_in_mode _ (assertions_on_manager A E) (both R eq) retries lookback activities (v1, cm) m
    reads_on_manager) as Hk.
  destruct (@run _ (assertions_on_manager A E) retries lookback activities ((v1, cm), m)).2.1 as [v2 cm2].
  destruct Hk as [Hk1 Hk2]; [cbn; rewrite HM; by intros ?%Z.leb_le..|].
  cbn in Hk1, Hk2. split; [|done]. etrans; [apply Hg|exact Hk1].
Qed.

End modes.

Section unplayed.
Context {V : Type} (A : AssertionEnv V) (E : ManagerEnv V) (R : relation V).
Context `{!ReadsRespect R} `{!ChallengesRespect R}.

(** (C33) A validator in resolve mode opens challenges and never plays them.  Its
    watcher is not started, and whatever the goroutines of its assertion manager do,
    rival assertions and challenges included, they start no tracker, hand no edge to
    the watcher and leave the challenge manager's records as they are: any property
    of the world that is kept by reading, staking, confirming assertions and creating
    level zero edges is kept by the whole validator. *)
Theorem resolve_validator_never_plays retries lookback activities v cm m :
  mode cm = ResolveMode -> @Assertions.Mode _ A = ResolveMode ->
  (forall s, R s (GoService AssertionService s)) ->
  (forall i s, keeps R (@StakeOnNewAssertion _ (@assertion_rollup _ A) i s)) ->
  (forall i s, keeps R (@NewStakeOnNewAssertion _ (@assertion_rollup _ A) i s)) ->
  (forall h, keeps R (@ConfirmAssertionByTime _ (@assertion_rollup _ A) h)) ->
  exists v1, ChallengeManager.Start (v, cm) = (Ok tt, (v1, cm)) /\
    let '(v2, cm2) := (@run _ (assertions_on_manager A E) retries lookback activities ((v1, cm), m)).2.1 in
    R v v2 /\ cm2 = cm.
Proof.
  intros Hm HM Hg Hs1 Hs2 Hc. exists (GoService AssertionService v). split.
  { unfold ChallengeManager.Start, this, mbind, M_bind. cbn. by rewrite Hm. }
  set (v1 := GoService AssertionService v).
  pose proof (@keeps_run _ (assertions_on_manager A E) retries lookback (both R eq) anything (reads_on_manager A E R) _) as K.
  assert (Hk : both R eq (v1, cm) (@run _ (assertions_on_manager A E) retries lookback activities ((v1, cm), m)).2.1).
  { refine (proj1 (K _ _ _ _ _ _ activities ((v1, cm), m))); try done.
    - intros _. split; intros; apply keeps_chain_both; try apply _; auto.
    - intros _ h. apply keeps_challenge, _.
    - intros _ h. apply keeps_chain_both; try apply _; auto. }
  destruct (@run _ (assertions_on_manager A E) retries lookback activities ((v1, cm), m)).2.1 as [v2 cm2].
  destruct Hk as [Hk1 Hk2]. cbn in Hk1, Hk2. split; [|done]. etrans; [apply Hg|exact Hk1].
Qed.

End unplayed.

(** ** Examples *)

Definition no_events {W} : M W EventIterator := mret [].
#[local] Instance toy_events : EventSource SolImplSpec.Toy.world := {|
  source_filterer := mret tt; source_added _ _ := no_events; source_osp _ _ := no_events;
  source_time _ _ := no_events; source_children _ _ := no_events; source_claim _ _ := no_events;
  source_track _ := mret tt |}.

Definition toy_state : SolImplSpec.Toy.world * AssertionChain * Watcher * (ChallengeManager.Manager * list Tracker) :=
  (SolImplSpec.Toy.s0,
   {| pollEventsInterval := 1; challenges := ∅; numBigStepLevels := 1; initialSyncCompleted := false |},
   (initial_manager, [])).

Lemma validator_truthful_witness :
  let '(r, (s', et')) := @Spawn _ (@validator_env _ (@sol_watcher _ _ _ _ toy_keccak toy_provider) toy_keccak toy_provider)
    [Tick; Tick] (toy_state, toy_tracker (toy_edge 0 0 4)) in
  r = Ok tt /\ (state_of et' = EdgeTracker.EdgeConfirmed ->
    Id (edge et') ∈ SolImplSpec.Toy.confirmed (fst (fst (fst s')))).
Proof.
  pose proof (@validator_truthful _ _ _ _ toy_keccak toy_provider (fun w i => i ∈ SolImplSpec.Toy.confirmed w)
    [Tick; Tick] toy_state (toy_tracker (toy_edge 0 0 4)) SolImplSpec.Toy.laws SolImplSpec.Toy.replays
    (toy_tracker_ok _) eq_refl) as Ht.
  assert (Hr : (@Spawn _ (@validator_env _ (@sol_watcher _ _ _ _ toy_keccak toy_provider) toy_keccak toy_provider)
    [Tick; Tick] (toy_state, toy_tracker (toy_edge 0 0 4))).1 = Ok tt) by (vm_compute; reflexivity).
  destruct (@Spawn _ _ [Tick; Tick] (toy_state, toy_tracker (toy_edge 0 0 4))) as [r [s' et']]. by split.
Defined.

Lemma toy_reads : @ReadsRespect _ (ToyRollup.toy_env ResolveMode) same_trackers.
Proof. split; try apply _; try done. intros h w. cbn. by destruct (h <=? 4). Qed.

Lemma silent_reads : @ReadsRespect _ (ToyRollup.toy_env WatchTowerMode) ToyRollup.same_sent.
Proof. apply ToyRollup.reads. Qed.

(** A watchtower that scans, processes, confirms and posts sends nothing. *)
Lemma mode_discipline_witness :
  let cm := WithMode WatchTowerMode initial_manager in
  let s' := (@run _ (assertions_on_manager (ToyRollup.toy_env WatchTowerMode) toy_manager_env) 2 5
    [Scanning [Tick]; Processing 4; Confirming [Tick] 2; Posting [Tick]] ((ToyRollup.w0, cm), ToyRollup.m0)).2.1 in
  ToyRollup.sent s'.1 = 0 /\ s'.2 = cm.
Proof.
  intros cm s'.
  destruct (proj1 (@mode_discipline _ (ToyRollup.toy_env WatchTowerMode) toy_manager_env ToyRollup.same_sent silent_reads
    2 5 [Scanning [Tick]; Processing 4; Confirming [Tick] 2; Posting [Tick]] ToyRollup.w0 cm ToyRollup.m0) eq_refl eq_refl
    (fun _ => eq_refl)) as (v1 & E & Hk). injection E as <-. fold s' in Hk. destruct s' as [v2 cm2].
  destruct Hk as [Hs Hc]. split; [symmetry; exact Hs|exact Hc].
Defined.

(** Assertion 4 is answered by a rival and a challenge (two transactions), without a
    tracker. *)
Lemma resolve_validator_never_plays_witness :
  let cm := WithMode ResolveMode initial_manager in
  let s' := (@run _ (assertions_on_manager (ToyRollup.toy_env ResolveMode) toy_manager_env) 2 5 [Processing 4]
    ((ToyRollup.w0, cm), ToyRollup.m0)).2.1 in
  ToyRollup.sent s'.1 = 2 /\ ToyRollup.trackers s'.1 = [] /\ s'.2 = cm.
Proof.
  split; [vm_compute; reflexivity|].
  destruct (@resolve_validator_never_plays _ (ToyRollup.toy_env ResolveMode) toy_manager_env same_trackers toy_reads _
    2 5 [Processing 4] ToyRollup.w0 (WithMode ResolveMode initial_manager) ToyRollup.m0)
    as (v1 & E & Hk); try done.
Defined.
