(* ===== verification/ContractSystem.v ===== *)
(** * The validator on the contract

    The validator of [System], from the edge tracker down to the contract wrapper, on a
    node that runs the challenge manager contract and on which other parties act between
    any two of its calls. *)

From S2P Require Import Prelude Bits PrefixProofs Containers Fsm MerkleSpec InclusionProofs History Protocol Provider ProviderSpec ChallengeTree Runtime Chain ChainSpec Contracts MerkleContract CommitChain EdgeContract EdgeContractSpec EdgeContractHistory EdgeContractReplay EdgeContractToy SolImpl SolChain SolImplSpec ContractChain EdgeTracker EdgeTrackerSpec Watcher ChallengeManager ChallengeManagerSpec System.
Import EdgeContract.

Section on_node.
Context `{Hasher} `{!HasherNonzero} `{!HasherInjective} `{IOneStepProofEntry} `{AbiDecode}.
Context {R T : Type} `{IAssertionChain R} `{IERC20 T} `{RollupContract R T} `{NodeCodec}.
Context (this me : Address) (later : relation R) `{!AssertionLaws later} (c : Settings).
Context (others : nat -> Z * World R T -> Z * World R T).
Hypothesis Hc : settings_ok c.
Hypothesis Hme : me <> this.
Hypothesis others_grow : forall k x, good this later c x -> grows this later x (others k x).
Hypothesis rollup_grows : forall tx x r t, rollup_call tx me x = Ok (r, t) ->
  later (rollup x.2) r /\ balanceOf (token x.2) this <= balanceOf t this.

Abbreviation node := (Node this later c).
#[local] Instance contracts : Contracts node := node_contracts this me later c others Hc Hme others_grow rollup_grows.

Context `{Runtime.Context node}.


Context `{EventSource node} (provider : HistoryCommitmentProvider).
#[local] Instance watcher_on_node : WatcherEnv (node * AssertionChain) := sol_watcher provider.


End on_node.

(** ** Example *)

Import EdgeChallengeManager (Call).

Module ToyNode.
Import ToyContract.
#[local] Existing Instances H decoder machines assertions tokens token_laws toy_nonzero toy_injective.

(** A rollup on which nothing happens. *)
#[local] Instance rollup_contract : RollupContract unit (gmap Address Z) := {|
  rollup_getAssertion _ _ := Err (ErrNew "not found");
  rollup_latestConfirmed _ := Ok 500;
  rollup_isStaked _ _ := Ok true;
  rollup_genesis _ := Ok 500;
  rollup_challengeManager _ := Ok this;
  rollup_deploymentBlock _ := Ok 1;
  rollup_assertionHash _ _ _ _ := Ok 1001;
  rollup_inboxAcc _ _ _ := Ok 0;
  rollup_logs _ _ := Ok [];
  rollup_call _ _ _ := Err (ErrNew "execution reverted");
|}.

#[local] Instance codec : NodeCodec := {|
  created_topic := 1;
  parse_created _ := Err (ErrNew "no event");
  encode_event b _ := {| BlockNumber := b; LogIndex := 0; Removed := false; Topics := []; LogTxHash := 0; LogData := [] |};
  parse_added _ := Err (ErrNew "no event");
  pack_block _ _ _ := Ok [];
  pack_subchallenge _ _ _ _ _ := Ok [];
  gas_of _ := 21000;
|}.

Definition same : relation unit := fun _ _ => True.
#[local] Instance same_laws : AssertionLaws same.
Proof. split; try done. cbn. intros _ h st prev acc k _ _ [= <-]. done. Qed.

(** The halves of Alice's edge. *)
Definition lower : EdgeId := ChallengeEdgeLib.idComponent 0 500 0 (root_of leaves_a 1) 2 (root_of leaves_a 3).
Definition upper : EdgeId := ChallengeEdgeLib.idComponent 0 500 2 (root_of leaves_a 3) 4 (root_of leaves_a 5).

(** Bob confirms both of them by time before the first calls of Alice. *)
Definition bobs (k : nat) : option (Z * Address * Call) :=
  match k with
  | 0%nat => Some (20, bob, EdgeChallengeManager.ConfirmEdgeByTime lower [edge_a] (data 15))
  | 1%nat => Some (21, bob, EdgeChallengeManager.ConfirmEdgeByTime upper [edge_a] (data 15))
  | _ => None
  end.
Definition others (k : nat) (x : Z * World unit (gmap Address Z)) : Z * World unit (gmap Address Z) :=
  match bobs k with
  | Some t => if valid_tx t x then tx t x else x
  | None => x
  end.

Lemma others_grow k x : good this same c x -> grows this same x (others k x).
Proof.
  intros _. unfold others. destruct (bobs k) as [t|]; [|apply rtc_refl]. destruct (valid_tx t x) eqn:E; [|apply rtc_refl].
  apply rtc_once. split; [by apply tx_steps|done].
Qed.

Lemma rollup_grows t x r k : rollup_call t alice x = Ok (r, k) ->
  same (rollup x.2) r /\ balanceOf (token x.2) this <= balanceOf k this.
Proof. done. Qed.

Lemma alice_outside : alice <> this.
Proof. done. Qed.

Lemma same_grows x y : rtc (tx_step this) x y -> grows this same x y.
Proof. apply rtc_subrel. by split. Qed.

Lemma same_lawful x : reachable this c x -> lawful this same c x.
Proof. intros (b & w & Ec & Es & Hr). exists b, w. split_and!; try done. by apply same_grows. Qed.

Lemma start_good : good this same c (s4.1, s4.2).
Proof. split; [apply same_lawful; exact toy_bisected|done]. Qed.

Definition node : Node this same c := exist (fun n => good this same c n.2) (0%nat, (s4.1, s4.2)) start_good.

#[local] Instance node_bindings : Contracts (Node this same c) :=
  node_contracts this alice same c others toy_settings alice_outside others_grow rollup_grows.
#[local] Instance context : Runtime.Context (Node this same c) := {| ContextErr _ := None; Sleep _ n := n |}.
#[local] Instance events : EventSource (Node this same c) := {|
  source_filterer := mret tt; source_added _ _ := no_events; source_osp _ _ := no_events;
  source_time _ _ := no_events; source_children _ _ := no_events; source_claim _ _ := no_events;
  source_track _ := mret tt |}.

Definition validator : Node this same c * AssertionChain * Watcher * (ChallengeManager.Manager * list Tracker) :=
  (node, NewAssertionChain,
   {| pollEventsInterval := 1; challenges := ∅; numBigStepLevels := 1; initialSyncCompleted := false |},
   (initial_manager, [])).

Definition spawned :=
  @Spawn _ (@validator_env _ (sol_watcher toy_provider) _ toy_provider) [Tick; Tick; Tick] (validator, toy_tracker edge).

End ToyNode.

Import ToyNode ToyContract.
#[local] Existing Instances H decoder machines assertions tokens rollup_contract codec same_laws context events.



(** ** A confirmation that was tried *)

(** Block 30, after Alice's edge was confirmed and refunded. *)
Definition s7 : Z * World unit (gmap Address Z) := (30, s6.2).

Lemma toy_idle : rtc (tx_step this) s5 s7.
Proof.
  etrans; [rewrite (surjective_pairing s5); exact toy_run3|].
  apply rtc_once, tx_elsewhere; [done|done|]. done.
Qed.

Lemma toy_tried : lawful this same c s4.
Proof. rewrite (surjective_pairing s4). apply same_lawful. exact toy_bisected. Qed.

Lemma failed_confirmation_is_final_witness :
  (EdgeChallengeManager.run this s7.1 alice (EdgeChallengeManager.ConfirmEdgeByTime edge_a [] (data 15)) s7.2).1 <> Ok tt.
Proof.
  refine (@failed_confirmation_is_final _ toy_nonzero toy_injective _ _ _ _ _ _ this alice same _ c toy_settings
    s4 s5 s7 (EdgeChallengeManager.ConfirmEdgeByTime edge_a [] (data 15)) edge_a eq_refl toy_tried _ _ _ _ _).
  - vm_compute. done.
  - apply same_grows. exact toy_run2.
  - apply same_grows. exact toy_idle.
  - vm_compute. reflexivity.
  - vm_compute. discriminate.
Defined.
