(* ===== verification/RollupWins.v ===== *)
(** * The validator, the challenge manager and the rollup

    The rollup behind the bindings of the wrapper: the whole validator on a node that runs both the
    challenge manager and the rollup, and what a challenge that it wins means for the assertions. *)

From S2P Require Import Prelude Bits PrefixProofs Containers Fsm MerkleSpec InclusionProofs History Protocol Provider ProviderSpec ChallengeTree Runtime Chain ChainSpec Contracts MerkleContract CommitChain EdgeContract Rollup RollupSpec EdgeContractSpec EdgeContractHistory EdgeContractReplay RollupSystem EdgeContractToy RollupToy SolImpl SolChain SolImplSpec ContractChain EdgeTracker EdgeTrackerSpec Watcher ChallengeManager ChallengeManagerSpec System ContractSystem.
Import EdgeContract.

(** ** The rollup behind the bindings *)

(** The call of the rollup that a transaction makes. *)
Definition user_call (tx : Tx) : option UserCall :=
  match tx with
  | TxNewStakeOnNewAssertion n inputs expected => Some (Rollup.NewStakeOnNewAssertion n inputs expected)
  | TxStakeOnNewAssertion inputs expected => Some (Rollup.StakeOnNewAssertion inputs expected)
  | TxConfirmAssertion h prev st e c acc => Some (Rollup.ConfirmAssertion h prev st e c acc)
  | _ => None
  end.

Section node_rollup.
Context `{Hasher} `{!HasherNonzero} `{!HasherInjective} `{IOneStepProofEntry} `{AbiDecode} {T : Type} `{IERC20 T} `{RollupToken T}.

(** The accumulators of the sequencer inbox in a block, the view of them, and the logs of the events. *)
Context (this : Address) (inbox : Z -> list Hash) (inboxAcc : Address -> Z -> res Hash).
Context (logs : list RollupEvent -> FilterQuery -> res (list Log)).

(** The invariant of the rollup after a call. *)
Lemma call_inv env getEdge call (x : RollupChain) (t : T) r' t' : 0 < blockNumber env < two64 ->
  run_user env getEdge call (proj1_sig x) t = Ok (r', t') -> rollup_later (S := T) (proj1_sig x) r' /\ rollup_inv r'.
Proof.
  intros Hb Hr. assert (Htx : rollup_tx false (proj1_sig x, t) (r', t')) by (by eapply (tx_user _ _ _ env getEdge call)).
  assert (Hl : rollup_later (S := T) (proj1_sig x) r') by (apply rtc_once; eauto).
  split; [done|]. by apply (rollup_later_inv _ _ Hl (proj2_sig x)).
Qed.

(** A call that is run with the invariant of the rollup. *)
Definition call_rollup (env : Env) (getEdge : Address -> Hash -> res ChallengeEdge) (call : UserCall) (x : RollupChain) (t : T)
    : res (RollupChain * T) :=
  match decide (0 < blockNumber env < two64) with
  | left Hb =>
      match run_user env getEdge call (proj1_sig x) t as o return run_user env getEdge call (proj1_sig x) t = o -> res (RollupChain * T) with
      | Ok (r', t') => fun E => Ok (exist _ r' (proj2 (call_inv env getEdge call x t r' t' Hb E)), t')
      | Err e => fun _ => Err e
      | Panic p => fun _ => Panic p
      | NoFuel => fun _ => NoFuel
      end eq_refl
  | right _ => Err (ErrNew "no such block")
  end.

Lemma call_rollup_ok env getEdge call x t y t' : call_rollup env getEdge call x t = Ok (y, t') ->
  run_user env getEdge call (proj1_sig x) t = Ok (proj1_sig y, t') /\ chain_later (S := T) x y.
Proof.
  unfold call_rollup. destruct (decide _) as [Hb|]; [|done].
  generalize (call_inv env getEdge call x t). destruct (run_user env getEdge call (proj1_sig x) t) as [[r' t1]| | |] eqn:E; try done.
  intros Hinv [= <- <-]. split; [done|]. by apply (call_inv env getEdge call x t r' t1).
Qed.

#[export] Instance rollup_node (others : Address -> Hash -> res ChallengeEdge) : RollupContract RollupChain T := {|
  rollup_getAssertion x h := getAssertionStorage (proj1_sig x) h;
  rollup_latestConfirmed x := Ok (Rollup.latestConfirmed (proj1_sig x));
  rollup_isStaked x a := Ok (Rollup.isStaked (proj1_sig x) a);
  rollup_genesis _ := Ok genesisAssertionHash;
  rollup_challengeManager x := Ok (Rollup.challengeManager (params (proj1_sig x)));
  rollup_deploymentBlock x := Ok (rollupDeploymentBlock (params (proj1_sig x)));
  rollup_assertionHash _ p st acc := Ok (Rollup.assertionHash p st acc);
  rollup_inboxAcc _ := inboxAcc;
  rollup_logs x q := logs (rollupEvents (proj1_sig x)) q;
  rollup_call tx me x :=
    match user_call tx with
    | Some call => call_rollup {| blockNumber := x.1; msgSender := me; sequencerInboxAccs := inbox x.1 |}
        (managers this x.2 others) call (rollup x.2) (token x.2)
    | None => revert "no call of the rollup"
    end;
|}.

End node_rollup.

(** ** The validator on both contracts *)

Section on_both.
Context `{Hasher} `{!HasherNonzero} `{!HasherInjective} `{IOneStepProofEntry} `{!MachineHashLaw} `{AbiDecode}.
Context {T : Type} `{IERC20 T} `{RollupToken T} `{NodeCodec}.
Context (this me : Address) (c : Settings).
Context (inbox : Z -> list Hash) (inboxAcc : Address -> Z -> res Hash) (logs : list RollupEvent -> FilterQuery -> res (list Log)).
Context (managers' : Address -> Hash -> res ChallengeEdge).
Abbreviation later := (chain_later (S := T)).
#[local] Instance laws : AssertionLaws later := rollup_laws.
#[local] Instance rollup_bindings : RollupContract RollupChain T := rollup_node this inbox inboxAcc logs managers'.
Context (others : nat -> Z * World RollupChain T -> Z * World RollupChain T).
Hypothesis Hc : settings_ok c.
Hypothesis Hme : me <> this.
Hypothesis others_grow : forall k x, good this later c x -> grows this later x (others k x).

(** Paying a stake to the rollup takes nothing from the challenge manager. *)
Hypothesis stake_apart : forall (t t' : T) n, receiveTokens t me n = Ok t' -> balanceOf t this <= balanceOf t' this.

Lemma rollup_calls_grow tx x r t : rollup_call tx me x = Ok (r, t) ->
  later (rollup x.2) r /\ balanceOf (token x.2) this <= balanceOf t this.
Proof.
  cbn [rollup_call rollup_bindings rollup_node]. destruct (user_call tx) as [call|] eqn:Ec; [|done]. intros [Hr Hl]%call_rollup_ok.
  split; [done|]. destruct tx; try done; injection Ec as <-; cbn [run_user] in Hr; apply res_bind_ok in Hr as (r1 & _ & Hr).
  - apply res_bind_ok in Hr as (t1 & Ht & [= _ <-]). by eapply stake_apart.
  - injection Hr as _ <-. reflexivity.
  - injection Hr as _ <-. reflexivity.
Qed.

Abbreviation node := (Node this later c).
#[local] Instance both_contracts : Contracts node := node_contracts this me later c others Hc Hme others_grow rollup_calls_grow.
(** The rollup of a node, and the later states of a node. *)
Definition rollup_of (n : node) : Rollup := proj1_sig (rollup (chain_of this later c n).2).
Definition moves_on (n n' : node) : Prop := grows this later (chain_of this later c n) (chain_of this later c n').

#[local] Instance moves_on_preorder : PreOrder moves_on.
Proof. split; [intros n; apply rtc_refl|]. intros n1 n2 n3. unfold moves_on, grows. by intros ?; etrans. Qed.

Lemma moves_later n n' : moves_on n n' -> rollup_later (S := T) (rollup_of n) (rollup_of n').
Proof. exact (grows_rollup this later (chain_of this later c n) (chain_of this later c n')). Qed.

Lemma rollup_of_inv n : rollup_inv (rollup_of n).
Proof. exact (proj2_sig (rollup (chain_of this later c n).2)). Qed.

Definition turn_of (n : node) : node := turn this later c others Hc others_grow n.

Lemma turn_moves n : moves_on n (turn_of n).
Proof. apply turn_grows. Qed.

Lemma latest_is_confirmed n n' : moves_on n n' ->
  latestConfirmed (rollup_of n) <> 0 /\ NodeStatus (assertion_at (rollup_of n') (latestConfirmed (rollup_of n))) = NodeConfirmed.
Proof.
  intros Hm%moves_later. pose proof (rollup_of_inv n) as Hinv. destruct (rollup_later_inv _ _ Hm Hinv) as (_ & Hl & _). split.
  - intros E. pose proof (inv_latest _ Hinv) as Hs. rewrite E in Hs. unfold assertion_at in Hs. by rewrite (inv_zero _ Hinv) in Hs.
  - apply (confirmed_later _ _ _ Hl), (inv_latest _ Hinv).
Qed.

Lemma confirmed_status n h : is_confirmed (fun n h => assertion_at (rollup_of n) h) n h <->
  NodeStatus (assertion_at (rollup_of n) h) = NodeConfirmed.
Proof.
  unfold is_confirmed, status_of, assertion_at. destruct (assertions (rollup_of n) !! h) as [m|] eqn:E; [|by vm_compute].
  cbn. by destruct (inv_known _ (rollup_of_inv n) _ _ E) as [-> | ->].
Qed.

Lemma complete_passed n h :
  complete (fun n h => assertion_at (rollup_of n) h) (fun n => latestConfirmed (rollup_of n)) n h <-> passed (rollup_of n) h.
Proof. unfold complete, passed. by rewrite confirmed_status. Qed.

Lemma node_reads_assertion h n : RollupGetAssertion h n = (getAssertionStorage (rollup_of (turn_of n)) h, turn_of n).
Proof. done. Qed.
Lemma node_reads_latest n : RollupLatestConfirmed n = (Ok (latestConfirmed (rollup_of (turn_of n))), turn_of n).
Proof. done. Qed.
Lemma storage_nonzero r h : h <> 0 -> getAssertionStorage r h = Ok (assertion_at r h).
Proof. unfold getAssertionStorage, require. by destruct (Z.eqb_spec h 0). Qed.

(** On the node every question about an assertion is answered. *)
Lemma IsChallengeComplete_answers h s : h <> 0 -> exists b, (SolImpl.IsChallengeComplete h s).1 = Ok b.
Proof.
  intros Hh. destruct s as [n k]. unfold SolImpl.IsChallengeComplete, SolImpl.GetAssertionStatus, SolImpl.LatestConfirmed,
    SolImpl.GetAssertion, mbind, M_bind, get, chain, mret, M_ret, modify, fail. cbn [fst snd].
  destruct (Set_.Has h _); [by eexists|]. rewrite node_reads_assertion, (storage_nonzero _ _ Hh).
  destruct (bool_decide _); cbn [negb]; [|by eexists]. rewrite node_reads_latest, node_reads_assertion.
  destruct (latest_is_confirmed _ _ (turn_moves (turn_of (turn_of n)))) as [Hl Hst]. rewrite (storage_nonzero _ _ Hl), Hst.
  rewrite bool_decide_eq_false_2 by done. destruct (latestConfirmed _ =? h); by eexists.
Qed.

(** (C36) The validator's answer to the question whether the challenge below an assertion is complete, cache of
    completed challenges included, on a node that runs the rollup while other parties send it what they like between any
    two calls, the owner and the fast confirmer included: every question about a nonzero assertion hash is answered, whatever was asked before;
    after the answer yes the assertion is confirmed and is not the latest confirmed one, now and in every
    later state of the chain, and every later question about it is answered by yes at once; when the answer is no,
    this was not so at some moment of the question, and nothing is remembered. *)
Theorem completed_challenges_truthful s h : session moves_on s -> h <> 0 ->
  exists b s', SolImpl.IsChallengeComplete h s = (Ok b, s') /\
  (b = true -> passed (rollup_of s'.1) h /\
     forall s'', rtc (session_step moves_on) s' s'' ->
       SolImpl.IsChallengeComplete h s'' = (Ok true, s'') /\ passed (rollup_of s''.1) h) /\
  (b = false -> (exists n, moves_on s.1 n /\ moves_on n s'.1 /\ ~ passed (rollup_of n) h) /\ s'.2 = s.2).
Proof.
  intros Hs Hh. destruct (IsChallengeComplete_answers h s Hh) as [b Eb].
  destruct (SolImpl.IsChallengeComplete h s) as [r s'] eqn:E. cbn [fst] in Eb. subst r. exists b, s'. split; [done|].
  destruct (IsChallengeComplete_correct (fun n h => assertion_at (rollup_of n) h) (fun n => latestConfirmed (rollup_of n)) moves_on)
    with (s := s) (h := h) (r := Ok b) (s' := s') as (Hy & Hn & Hk); try done.
  - intros h' n r n' [= <- <-]. split; [apply turn_moves|]. cbn [rollup_getAssertion rollup_bindings rollup_node].
    by intros m [_ ->]%storage_ok.
  - intros n r n' [= <- <-]. split; [apply turn_moves|]. by intros m [= <-].
  - intros n n' h' Hm. rewrite !confirmed_status.
    destruct (rollup_later_inv _ _ (moves_later _ _ Hm) (rollup_of_inv n)) as (_ & Hl & _). by apply confirmed_later.
  - intros n n' h' Hm. rewrite !complete_passed. apply (rollup_later_passed _ _ _ (moves_later _ _ Hm) (rollup_of_inv n)).
  - split; intros ->.
    + destruct (Hy eq_refl) as [Hc1 Hc2]. rewrite complete_passed in Hc1. split; [done|]. intros s'' Hss.
      destruct (Hc2 _ Hss) as [? Hp]. by rewrite complete_passed in Hp.
    + split; [|by apply Hk]. destruct (Hn eq_refl) as (n & ? & ? & Hnc). exists n. by rewrite complete_passed in Hnc.
Qed.

Context `{Runtime.Context node} `{EventSource node} (provider : HistoryCommitmentProvider).
#[local] Instance watcher_on_both : WatcherEnv (node * AssertionChain) := sol_watcher provider.


End on_both.

(** ** Example *)

Import EdgeChallengeManager (Call, BisectEdge, ConfirmEdgeByTime).

Module ToyBoth.
Import RollupToy.ToyRollup.
Import ToyContract (alice, bob, this, root_of, prefix_of, leaves_a, leaves_b).
#[local] Existing Instances RollupToy.ToyRollup.H toy_nonzero toy_injective ToyContract.tokens rollup_token decoder machines machines_law.

Definition edge_b : EdgeId := ChallengeEdgeLib.idComponent 0 genesis_hash 0 (root_of leaves_b 1) 4 (root_of leaves_b 5).
Definition y4 : Z * W := tx 93 alice (BisectEdge edge_a (root_of leaves_a 3) (prefix_of leaves_a 3)) y2.
Definition y5 : Z * W := tx 94 bob (BisectEdge edge_b (root_of leaves_b 3) (prefix_of leaves_b 3)) y4.

Lemma lawful4 : lawful this later c y4.
Proof. apply (tx_lawful 93 alice); [vm_compute; reflexivity|apply lawful2]. Qed.
Lemma lawful5 : lawful this later c y5.
Proof. apply (tx_lawful 94 bob); [vm_compute; reflexivity|exact lawful4]. Qed.

(** The halves of Alice's edge, which Bob confirms before the first calls of Alice. *)
Definition lower : EdgeId := ChallengeEdgeLib.idComponent 0 genesis_hash 0 (root_of leaves_a 1) 2 (root_of leaves_a 3).
Definition upper : EdgeId := ChallengeEdgeLib.idComponent 0 genesis_hash 2 (root_of leaves_a 3) 4 (root_of leaves_a 5).
Definition bobs (k : nat) : option (Z * Call) :=
  match k with
  | 0%nat => Some (96, ConfirmEdgeByTime lower [edge_a] (data 15))
  | 1%nat => Some (97, ConfirmEdgeByTime upper [edge_a] (data 15))
  | _ => None
  end.
Definition others (k : nat) (x : Z * W) : Z * W :=
  match bobs k with
  | Some (b, call) => if valid b bob call x then tx b bob call x else x
  | None => x
  end.

Lemma tx_grows b sender call x : valid b sender call x = true -> lawful this later c x -> grows this later x (tx b sender call x).
Proof.
  intros Hv Hl. destruct (tx_lawful b sender call x Hv Hl) as [_ Er]. destruct x as [b0 w]. revert Hv Er. unfold valid, tx. cbn [fst snd].
  rewrite !andb_true_iff, negb_true_iff, Z.eqb_neq, !Z.leb_le, !Z.ltb_lt. intros [[[[Hle Hp] Hlt] Hn] Hc] Er.
  apply rtc_once. split; cbn [snd]; [|rewrite Er; apply rtc_refl].
  destruct (EdgeChallengeManager.transaction _ w) as [r w'] eqn:E. apply (tx_call _ _ _ _ w sender call r); try (done || lia).
  by destruct call; [apply Z.leb_le in Hc|..].
Qed.

Lemma bobs_grow k x : good this later c x -> grows this later x (others k x).
Proof.
  intros [Hl _]. unfold others. destruct (bobs k) as [[b call]|]; [|apply rtc_refl].
  destruct (valid b bob call x) eqn:E; [by apply tx_grows|apply rtc_refl].
Qed.

Lemma alice_not_manager : alice <> this.
Proof. done. Qed.

Lemma alice_apart (t t' : gmap Address Z) n : receiveTokens t alice n = Ok t' -> balanceOf t this <= balanceOf t' this.
Proof. cbn. intros [_ ->]%ToyContract.move_spec. cbn. lia. Qed.

#[local] Existing Instance ToyNode.codec.
Definition inbox (b : Z) : list Hash := [70].
Definition inboxAcc (a : Address) (n : Z) : res Hash := if n =? 0 then Ok 70 else revert "Panic(0x32)".
Definition logs (l : list RollupEvent) (q : FilterQuery) : res (list Log) := Ok [].

Lemma both_start_good : good this later c (y5.1, y5.2).
Proof. split; [rewrite <- surjective_pairing; exact lawful5|done]. Qed.

Abbreviation Both := (Node this later c).
Definition node : Both := exist (fun n => good this later c n.2) (0%nat, (y5.1, y5.2)) both_start_good.

#[local] Instance bindings : Contracts Both :=
  both_contracts this alice c inbox inboxAcc logs no_manager others ToyContract.toy_settings alice_not_manager bobs_grow alice_apart.
#[local] Instance context : Runtime.Context Both := {| ContextErr _ := None; Sleep _ n := n |}.
#[local] Instance events : EventSource Both := {|
  source_filterer := mret tt; source_added _ _ := no_events; source_osp _ _ := no_events;
  source_time _ _ := no_events; source_children _ _ := no_events; source_claim _ _ := no_events;
  source_track _ := mret tt |}.

Definition validator : Both * AssertionChain * Watcher * (ChallengeManager.Manager * list Tracker) :=
  (node, NewAssertionChain,
   {| pollEventsInterval := 1; challenges := ∅; numBigStepLevels := 1; initialSyncCompleted := false |},
   (initial_manager, [])).

Definition alices : Edge := {|
  Protocol.Id := edge_a; Protocol.GetChallengeLevel := 0; Protocol.GetReversedChallengeLevel := 2;
  Protocol.StartCommitment := (0, root_of leaves_a 1); Protocol.EndCommitment := (4, root_of leaves_a 5);
  Protocol.CreatedAtBlock := Ok 88; Protocol.MutualId := ChallengeEdgeLib.mutualId (EdgeChallengeManagerLib.edge_at (store y5.2) edge_a);
  Protocol.OriginId := genesis_hash; Protocol.ClaimId := Some assertion_a |}.

Definition spawned :=
  @Spawn _ (@validator_env _ (sol_watcher toy_provider) _ toy_provider) [Tick; Tick; Tick] (validator, toy_tracker alices).

(** The chain once Alice's assertion is confirmed. *)
Lemma inv4 : rollup_inv x4.1.
Proof. by destruct (txs_inv _ _ _ toy_confirm inv3). Qed.
Definition y6 : Z * W := (200, {| settings := settings y3.2; store := store y3.2; rollup := exist _ x4.1 inv4;
  token := token y3.2; emitted := emitted y3.2 |}).

Lemma confirming : rollup_tx false (x3.1, x3.2) (x4.1, x4.2).
Proof.
  rewrite <- !surjective_pairing. apply (tx_user _ _ _ (env 200 alice [70]) (managers this y3.2 no_manager)
    (ConfirmAssertion assertion_a genesis_hash (state 15 1) edge_a cfg 70)); [done|done|]. apply or_else_ok. vm_compute. reflexivity.
Qed.

Lemma confirmed_good : good this later c y6.
Proof.
  split; [|done]. destruct lawful3 as [Hl Er]. apply (lawful_grows this later c _ _ Hl). apply rtc_once. split.
  - assert (Hb : y3.1 <= 200) by (vm_compute; discriminate). unfold y6. revert Hb. clear. generalize y3 as y. intros [b w] Hb.
    by apply tx_elsewhere.
  - change (rollup_later (proj1_sig (rollup y3.2)) x4.1). rewrite Er. apply rtc_once. exists x3.2, x4.2. exact confirming.
Qed.
Definition node4 : Both := exist (fun n => good this later c n.2) (0%nat, y6) confirmed_good.

End ToyBoth.

Import ToyBoth.
#[local] Existing Instances RollupToy.ToyRollup.H ToyContract.tokens RollupToy.ToyRollup.rollup_token RollupToy.ToyRollup.decoder
  RollupToy.ToyRollup.machines RollupToy.ToyRollup.machines_law ToyNode.codec context events.

(** The chain after Alice's validator has run. *)
Definition after : Z * RollupToy.ToyRollup.W := chain_of _ _ _ spawned.2.1.1.1.1.


(** The challenge below the genesis assertion is complete once Alice's assertion is confirmed, and not before. *)
Lemma completed_challenges_truthful_witness :
  (SolImpl.IsChallengeComplete (H := bindings) RollupToy.ToyRollup.genesis_hash (node, NewAssertionChain)).1 = Ok false /\
  exists s', SolImpl.IsChallengeComplete (H := bindings) RollupToy.ToyRollup.genesis_hash (node4, NewAssertionChain) = (Ok true, s') /\
    passed (rollup_of _ _ s'.1) RollupToy.ToyRollup.genesis_hash /\
    SolImpl.IsChallengeComplete (H := bindings) RollupToy.ToyRollup.genesis_hash s' = (Ok true, s').
Proof.
  split; [vm_compute; reflexivity|].
  assert (Hb : (SolImpl.IsChallengeComplete (H := bindings) RollupToy.ToyRollup.genesis_hash (node4, NewAssertionChain)).1 = Ok true)
    by (vm_compute; reflexivity).
  destruct (@completed_challenges_truthful RollupToy.ToyRollup.H toy_nonzero toy_injective _ _ _ _ _ _ ToyContract.this ToyContract.alice
    RollupToy.ToyRollup.c inbox inboxAcc logs RollupToy.ToyRollup.no_manager ToyBoth.others
    ToyContract.toy_settings alice_not_manager bobs_grow alice_apart (node4, NewAssertionChain) RollupToy.ToyRollup.genesis_hash)
    as (b & s' & E & Hy & _); [exists node4; apply rtc_refl|vm_compute; discriminate|].
  exists s'. change (SolImpl.IsChallengeComplete (H := bindings) RollupToy.ToyRollup.genesis_hash (node4, NewAssertionChain) = (Ok b, s')) in E.
  rewrite E in Hb. injection Hb as ->. split; [exact E|]. destruct (Hy eq_refl) as [Hp Hl].
  split; [exact Hp|]. exact (proj1 (Hl s' (rtc_refl _ _))).
Defined.
