(* ===== verification/ApiSystem.v ===== *)
(** * The API on the watcher

    The watcher is the provider of the edges the API reports ([challenge-manager/manager.go]
    passes it to [api.NewServer]).  Its requests leave what the watcher tracks alone. *)

From S2P Require Import Prelude Bits PrefixProofs Containers InclusionProofs History Protocol Provider ChallengeTree ChallengeTreeSpec Chain Runtime Contracts SolImpl SolChain EdgeTracker Watcher WatcherSpec System Protocol Provider Chain Api ApiSpec.

(** ** Handlers and orders of states

    A preorder of states that every call of the API respects is respected by every
    handler. *)

Class ApiRespects {W} `{ApiEnv W} (R : relation W) : Prop := {
  respects_preorder :: PreOrder R;
  respects_HasChildren e : keeps R (HasChildren e);
  respects_LowerChild e : keeps R (LowerChildOf e);
  respects_UpperChild e : keeps R (UpperChildOf e);
  respects_AssertionHash e : keeps R (AssertionHashOf e);
  respects_PathTimer ah i : keeps R (ProvidePathTimer ah i);
  respects_TimeUnrivaled e : keeps R (TimeUnrivaled e);
  respects_HasRival e : keeps R (HasRival e);
  respects_Status e : keeps R (EdgeStatusOf e);
  respects_HasLengthOneRival e : keeps R (HasLengthOneRival e);
  respects_ClaimHeight e : keeps R (TopLevelClaimHeight e);
  respects_honest : keeps R ProvideHonestEdges;
  respects_edges : keeps R ProvideEdges;
  respects_edge i : keeps R (ProvideEdge i);
  respects_confirmable : keeps R ProvideHonestConfirmableEdges;
  respects_evil : keeps R ProvideEvilConfirmedEdges;
  respects_info h : keeps R (ReadAssertionCreationInfo h);
  respects_hashes : keeps R ProvideAssertionHashes;
}.

#[export] Hint Resolve respects_HasChildren respects_LowerChild respects_UpperChild respects_AssertionHash
  respects_PathTimer respects_TimeUnrivaled respects_HasRival respects_Status respects_HasLengthOneRival
  respects_ClaimHeight respects_honest respects_edges respects_edge respects_confirmable respects_evil
  respects_info respects_hashes : keeps.

Definition on_world {W S} (R : relation W) : relation (W * S) := fun s s' => R s.1 s'.1.

#[export] Instance on_world_preorder {W S} (R : relation W) `{!PreOrder R} : PreOrder (@on_world W S R).
Proof. split; unfold on_world; [intros s; reflexivity|intros s1 s2 s3 H1 H2; by etrans]. Qed.

Section respect.
Context {W : Type} (R : relation W) `{!PreOrder R}.

Lemma keeps_on_world {S A} (m : M W A) : keeps R m -> keeps (@on_world W S R) (chain m).
Proof. intros Hm [w s]. specialize (Hm w). unfold chain, on_world. by destruct (m w). Qed.

(** A step that only changes the second part. *)
Lemma keeps_local {S} (f : W * S -> W * S) : (forall s, (f s).1 = s.1) -> keeps (on_world R) (modify f).
Proof. intros Hf s. unfold on_world, modify. cbn. by rewrite Hf. Qed.

Lemma keeps_with_local {S} (s : S) (m : M (W * S) unit) : keeps (on_world R) m -> keeps R (with_local s m).
Proof.
  intros Hm w. specialize (Hm (w, s)). unfold with_local, on_world in *. by destruct (m (w, s)) as [r [w' s']].
Qed.

Lemma keeps_errgroup `{Scheduler} {S} (tasks : list (M (W * S) unit)) :
  (forall t, In t tasks -> keeps (on_world R) t) -> keeps (on_world R) (errgroup tasks).
Proof.
  unfold errgroup. intros Ht. assert (Ho : forall t, In t (order tasks) -> keeps (on_world R) t).
  { intros t Hin. apply Ht. by eapply Permutation_in, Hin; apply order_perm. }
  generalize (None : option error). induction (order tasks) as [|t ts IH]; intros first; cbn [eg_wait].
  - destruct first; keeps_tac.
  - apply keeps_bind; [apply _|by apply keeps_attempt, Ho; left|intros got]. apply IH. intros t' Hin. by apply Ho; right.
Qed.

Lemma keeps_writeError code err : keeps (on_world R) (writeError (W:=W) code err).
Proof.
  intros [w r]. unfold writeError, Write, WriteHeader, attempt, modify, get, mbind, M_bind, mret, M_ret, on_world. cbn.
  by destruct (WriteErr r).
Qed.

Lemma keeps_respond data : keeps (on_world R) (respond (W:=W) data).
Proof.
  unfold respond. apply keeps_bind; [apply _| |intros [?|?]; [keeps_tac|apply keeps_writeError]].
  intros [w r]. unfold writeJSONResponse, SetContentType, Write, WriteHeader, attempt, modify, get, mbind, M_bind, mret, M_ret, on_world.
  cbn. by destruct (WriteErr r).
Qed.

Lemma keeps_or_error {A} (m : M W A) k :
  keeps R m -> (forall a, keeps (on_world R) (k a)) -> keeps (on_world R) (or_error m k).
Proof.
  intros Hm Hk. unfold or_error. apply keeps_bind; [apply _|by apply keeps_attempt, keeps_on_world|].
  intros [a|err]; [apply Hk|apply keeps_writeError].
Qed.

End respect.

#[export] Hint Resolve keeps_on_world keeps_respond : keeps.

Section api_respect.
Context {W : Type} `{ApiEnv W} `{Scheduler} (R : relation W) `{!ApiRespects R}.

Lemma convert_edge_keeps e : keeps R (convertSpecEdgeEdgeToEdge e).
Proof.
  assert (Hw : forall f, keeps (on_world R) (write f)) by (intros f; by apply keeps_local; [apply _|]).
  assert (Hf : forall A msg (m : M W A) field, keeps R m -> keeps (on_world R) (fetch msg m field)).
  { intros A msg m field Hm. unfold fetch. keeps_tac. }
  assert (Hp : keeps (on_world R) (fetch_path_timer e)) by (unfold fetch_path_timer; keeps_tac).
  apply keeps_with_local, keeps_errgroup; [apply _|]. intros t Hin. unfold edge_goroutines in Hin.
  repeat (destruct Hin as [<-|Hin]; [first [apply Hp|apply Hf; eauto with keeps]|]). by destruct Hin.
Qed.

Lemma convert_edges_keeps es : keeps R (convertSpecEdgeEdgesToEdges es).
Proof.
  unfold convertSpecEdgeEdgesToEdges. apply keeps_bind; [apply _| |intros slots; keeps_tac].
  apply keeps_with_local, keeps_errgroup; [apply _|]. intros t Hin%list_elem_of_In.
  apply list_elem_of_lookup in Hin as [i Hi]. apply list_lookup_imap_Some in Hi as (e & _ & ->).
  unfold convert_slot. apply keeps_bind; [apply _|apply keeps_on_world, convert_edge_keeps|].
  intros x. by apply keeps_local; [apply _|].
Qed.

Lemma convert_reasons_keeps l : forall m, keeps R (convert_reasons l m).
Proof.
  induction l as [|[k es] l IH]; intros m; cbn [convert_reasons]; [keeps_tac|].
  apply keeps_bind; [apply _|apply convert_edges_keeps|intros xs; apply IH].
Qed.

Lemma read_assertions_keeps l : keeps R (read_assertions l).
Proof. induction l as [|h l IH]; cbn [read_assertions]; keeps_tac. Qed.

(** The requests that do not concern the database. *)
Inductive api_request : M (W * ResponseWriter) unit -> Prop :=
| request_healthz : api_request healthzHandler
| request_assertions : api_request listAssertionsHandler
| request_assertion : api_request getAssertionHandler
| request_honest : api_request listHonestEdgesHandler
| request_edges : api_request listEdgesHandler
| request_edge i : api_request (getEdgeHandler i)
| request_confirmable : api_request listHonestConfirmableEdgesHandler
| request_evil : api_request listEvilConfirmedEdgesHandler
| request_stakes : api_request listMiniStakesHandler.

Hint Resolve convert_edge_keeps convert_edges_keeps convert_reasons_keeps read_assertions_keeps : keeps.

Lemma request_keeps handler : api_request handler -> keeps (on_world R) handler.
Proof.
  intros Hr. destruct Hr;
    try (intros [w r]; unfold healthzHandler, getAssertionHandler, Write, WriteHeader, attempt, modify, get, mbind,
      M_bind, mret, M_ret, on_world; cbn; by destruct (WriteErr r));
    unfold listAssertionsHandler, listHonestEdgesHandler, listEdgesHandler, getEdgeHandler,
      listHonestConfirmableEdgesHandler, listEvilConfirmedEdgesHandler, listMiniStakesHandler;
    repeat (apply keeps_or_error; [apply _|keeps_tac|intros ?]); eauto with keeps typeclass_instances.
Qed.

End api_respect.

(** ** The watcher as provider *)

(** What the API asks of the chain besides the watcher and its chain. *)
Class EdgeReads (V : Type) := {
  ReadMiniStaker : Edge -> option Z;
  ReadHasChildren : Edge -> M V bool;
  ReadTimeUnrivaled : Edge -> M V Z;
  ReadInfo : AssertionHash -> M V (option AssertionCreatedInfo);
  ReadHashes : M V (list AssertionHash);
  ReadHex : string -> Hash;
}.

Section watcher_api.
Context {V : Type} `{WatcherEnv V} `{EdgeReads V} (retries : nat).

Definition watcher_api : ApiEnv (V * Watcher) := {|
  api_chain := lift_chain watcher_chain;
  MiniStaker := ReadMiniStaker;
  HasChildren e := chain (ReadHasChildren e);
  TimeUnrivaled e := chain (ReadTimeUnrivaled e);
  ProvideHonestEdges := s ← self; mret (GetHonestEdges s);
  ProvideEdges := Watcher.GetEdges retries;
  ProvideEdge i := Watcher.GetEdge i;
  ProvideHonestConfirmableEdges := Watcher.GetHonestConfirmableEdges;
  ProvideEvilConfirmedEdges := Watcher.GetEvilConfirmedEdges retries;
  ProvidePathTimer ah i := Watcher.ComputeHonestPathTimer ah i;
  ReadAssertionCreationInfo h := chain (ReadInfo h);
  ProvideAssertionHashes := chain ReadHashes;
  HexToHash := ReadHex;
|}.

#[local] Existing Instance watcher_api.

#[local] Instance watcher_respects : ApiRespects (state_le (W:=V)).
Proof.
  split; try (intros; apply keeps_chain); [apply _|intros; apply path_timer_le| |apply GetEdges_le|intros; apply fetch_edge_le|
    apply GetHonestConfirmableEdges_le|apply GetEvilConfirmedEdges_le].
  intros [w s]. unfold state_le. cbn. reflexivity.
Qed.

(** Requests do not disturb the watcher: whatever a request asks and the chain
    answers, errors and panics included, and in whatever order the goroutines of the
    API run, the watcher keeps its challenges, the edges their trees track, its
    confirmed claims and its well-formedness. *)
Theorem requests_keep_watcher `{Scheduler} handler v s r :
  api_request handler ->
  let s' := (handler (v, s, r)).2.1.2 in
  watcher_le s s' /\ (watcher_inv s -> watcher_inv s').
Proof.
  intros Hr s'. assert (Hle : watcher_le s s') by apply (request_keeps state_le handler Hr (v, s, r)).
  split; [done|apply Hle].
Qed.

End watcher_api.

(** ** An example *)

#[local] Instance toy_edge_reads : EdgeReads bool := {|
  ReadMiniStaker _ := None; ReadHasChildren _ := mret false; ReadTimeUnrivaled _ := mret 3;
  ReadInfo _ := mret None; ReadHashes := mret []; ReadHex _ := 1 |}.

(** The listing of all edges, answered by a watcher that tracks a challenge. *)
Definition toy_listing : M (bool * Watcher * ResponseWriter) unit :=
  @listEdgesHandler _ (@watcher_api bool toy_watcher_env toy_edge_reads 3) ToyApi.toy_scheduler.

Lemma requests_keep_watcher_witness :
  StatusCode (toy_listing (false, toy_tracking, fresh_response)).2.2 = Some StatusOK /\
  watcher_le toy_tracking (toy_listing (false, toy_tracking, fresh_response)).2.1.2.
Proof.
  split; [vm_compute; reflexivity|].
  exact (proj1 (@requests_keep_watcher bool toy_watcher_env toy_edge_reads 3 ToyApi.toy_scheduler toy_listing false
    toy_tracking fresh_response ltac:(constructor))).
Defined.
